(* ===== verification/_CoqProject ===== *)
-Q . S2P
Prelude.v
Results.v
Decimal.v
Value.v
Reader.v
Codec.v
CodecEncode.v
CodecDecode.v
Key.v
Conflict.v
ConflictSpec.v
ConflictSystem.v
ConflictPoll.v
Cancellation.v
ValueType.v
Expression.v
Calendar.v
Evaluate.v
Framing.v
Hash.v
Interaction.v
Names.v
Identity.v
StorageBase.v
Schedule.v
Scheduler.v
Admission.v
AdmissionSpec.v
Idempotency.v
IdempotencyReplay.v
OutboxStatus.v
OutboxStore.v
OutboxStoreSpec.v
OutboxScan.v
OutboxIndex.v
OutboxWorker.v
OutboxRecovery.v
OutboxSafety.v
OutboxHistory.v
OutboxComplete.v
Text.v
Sort.v
PrincipalFacts.v
Schema.v
KeySchema.v
KeySchemaCodec.v
KeySchemaGuarantees.v
RowPolicyPlan.v
RowPolicyGrant.v
RowPolicy.v
RowPolicySpec.v
RowPolicySample.v
RowPolicyGuarantees.v
RowPolicyNarrowing.v
ReactiveSyntax.v
ReactiveParser.v
ReactiveLexer.v
ReactiveTokens.v
ReactiveComplete.v
ReactiveSound.v
Reactive.v
ReactivePlan.v
ReactiveCompile.v
ReactiveGuarantees.v
ReactiveEvaluate.v
ReactiveSemantics.v
ReactiveModules.v
