(* ===== verification/Prelude.v ===== *)
(** * A verification library for RiffDB

    RiffDB is a database that runs declared commands.  A command arrives with a
    caller key and a canonical input; it is matched against earlier admissions
    of the same identity, takes exclusive leases on its conflict keys, evaluates
    the expressions of its plan, and commits.  Scheduled work is driven by a
    worker that claims an item, resolves or executes its command, and
    acknowledges it.  The events of committed commands leave through the outbox:
    a worker claims them durably, hands them to a connector and records the
    outcome, and after a crash a recovery settles what was left in flight.
    Applications follow events through reactive modules, which are compiled to
    streams with predicates.  What a principal may see or change of protected
    rows is decided by the row policies of the contract, over the facts of the
    principal's capability.  This library models the parts of these paths that
    are deterministic code over data, and proves them correct.

    ** The parts, and the files that model them

    Paths are below src/crates.

    - Shared: [Prelude] (Rust results, state-and-error computations, machine
      integers, big-endian bytes, byte order), [Reader] (a bounded byte cursor
      with the lemmas that relate a decoder to an encoding), [Framing]
      (unambiguous encodings and hexadecimal text), [Interaction] (programs that
      call an application, their traces and executions, and what is safe against
      an environment when a run may be cut anywhere), [StorageBase] (storage
      errors and the order of event identities), [Results] (successful searches
      and traversals), [Text] (strings, characters and decimal numbers of Rust),
      [Sort] (sorting and strict order).
    - Values, riffdb-types: [Decimal] (decimal.rs), [Value] (value.rs, limits.rs,
      time.rs, vector.rs), [Codec] with [CodecEncode] and [CodecDecode]
      (codec.rs), [Key] (key.rs and the key types of ids.rs), [Names] (textual
      identifiers of ids.rs), [Hash] (hash.rs, capability.rs).
    - Leases, riffdb-conflict: [Conflict] (manager.rs), [ConflictSpec] (the
      abstract lock), [ConflictSystem] (interleavings), [ConflictPoll] (futures),
      [Cancellation] (cancellation.rs).
    - Expressions: [ValueType] and [Expression] (riffdb-contract-ir, value_type.rs
      and expression.rs), [Calendar] and [Evaluate] (riffdb-invariant, lib.rs).
    - Admission: [Identity] (riffdb-storage-api, identity.rs), [Admission]
      (riffdb-storage-api, admission.rs and the records it stores, and the
      admission half of riffdb-storage-redb, application.rs), [AdmissionSpec]
      (the map it implements), [Idempotency] (riffdb-idempotency) and
      [IdempotencyReplay] (rechecking after the store moved on).
    - Scheduling, riffdb-scheduler: [Schedule] (targets, attempt identities,
      policy) and [Scheduler] (the worker turn).
    - Outbox: [OutboxStatus] (riffdb-storage-api, outbox.rs and the two group
      files: statuses, checked transitions, groups, pages), [OutboxStore]
      (riffdb-storage-redb, derived.rs with its group files, and the outbox parts
      of transient.rs and store.rs: scans, compare-and-transition, the transient
      index), [OutboxStoreSpec] (the map it implements), [OutboxScan] (what the
      scans answer), [OutboxIndex] (the index through its life), [OutboxWorker]
      and [OutboxRecovery] (riffdb-outbox: policy.rs and worker.rs, recovery.rs
      and status.rs), [OutboxSafety] and [OutboxHistory] (passes and recoveries
      one after another, cut by crashes, on any repository and on the redb
      store), [OutboxComplete] (what a finished recovery has settled).
    - Contract schemas: [Schema] (riffdb-contract-ir, schema.rs, as far as the
      parts below read it).
    - Schema-directed keys: [KeySchema] (riffdb-contract-ir, key_schema.rs),
      [KeySchemaCodec] (encoders and decoders against each other) and
      [KeySchemaGuarantees].
    - Row policies: [PrincipalFacts] and [RowPolicyGrant] (riffdb-types,
      principal_fact.rs and the row-policy part of capability_grant.rs),
      [RowPolicyPlan] (riffdb-contract-ir, row_policy.rs), [RowPolicy]
      (riffdb-policy, row_policy.rs), [RowPolicySpec] (the meaning of a rule),
      [RowPolicySample] (a contract with a policy), [RowPolicyGuarantees] and
      [RowPolicyNarrowing] (delegation).
    - Reactive modules: [ReactiveSyntax] and [ReactiveParser]
      (riffdb-reactive-syntax), [ReactiveLexer], [ReactiveTokens],
      [ReactiveComplete], [ReactiveSound] and [Reactive] (the parser and the
      formatter against each other), [ReactivePlan] (riffdb-query-ir,
      reactive.rs), [ReactiveCompile] (riffdb-query-compiler, reactive.rs) with
      [ReactiveGuarantees], [ReactiveEvaluate] (riffdb-catalog, the predicates of
      event_replay.rs), [ReactiveSemantics] (what a predicate says) and
      [ReactiveModules] (from source to evaluation).

    ** How the state and the operations correspond to the code

    A pure function is a Rocq function of the same name; a method that mutates
    its receiver is a [SE] computation that also returns the state it leaves
    behind when it fails.  Integers are [Z] with the width written out where the
    code checks or wraps; bytes are lists of [byte]; a Rust string is its bytes.
    The conflict manager is one record over all shards, and one definition per
    critical section; threads are the interleavings of [ConflictSystem.act], whose
    labels are what each section answered.
    The storage tables of an admission are finite maps, and a write transaction
    returns the old tables when it fails.  The scheduler is written against a
    trait: its model is a program of calls, and its theorems hold for whatever
    answers them.  The idempotency checks are written against a class,
    [AdmissionLookupRepository], which the admission tables implement.  The outbox
    worker is likewise a program of calls on a repository, a connector, a clock
    and failpoints; the redb store is one environment of it, in which an
    operation takes the faults of the engine (a refused transaction, a commit
    that errs before or after its rows landed) as an argument.  The parser of
    reactive modules is a computation over the tokens left, in which an index
    out of range is a panic value.  A policy decision is a function of the
    policies, the grant, the rows and the relationships that were observed.  A
    const parameter of the source ([RETAIN] of the key decoders) is a Boolean.

    ** What the theorems show

    - Values and keys: encoding and decoding are inverse in both directions, so
      the encoding is canonical; lengths are predicted exactly; keys order as
      their components do and are injective; decimal rescaling is exact.
    - Leases: for every interleaving, what the manager answers is a run of a
      first-in-first-out lock on sets of keys with the same events; leases are exclusive, wake-ups are not lost, the
      capacities hold, and a poll or a drop leaves the waiter as it reports.
    - Expressions: a constructed arena is bounded and typed; the memoizing
      evaluator equals the bottom-up reference over any history of batches, is
      type sound, and depends only on the computed dependencies; the calendar
      formulas are the Gregorian calendar.
    - Digests: equal digests come from equal domains and payloads, or from two
      named messages that collide; streaming equals hashing at once.  Attempt
      identities and input hashes inherit this.
    - Admission: admitting a group is admitting its requests in order over a map
      from identity to state; lookups and failure records are exact; a replay is
      given only for the same input; a recheck after any history of the store
      answers with what the store holds.
    - Scheduling: a turn is bounded and total, stops at the first failure or
      cancellation, acknowledges only what it has earned, and over any sequence
      of turns executes a piece of work at most once.
    - Outbox store: a transition is a compare-and-transition on the map of
      statuses and a group is its members in one step, whatever faults the engine
      has; the scans are exact; through rebuilds, losses, transitions,
      publications and prunings in any order, what the index answers is exact.
      Two theorems pin down where the code falls short: a continuation under
      a frozen fence can report corrupt data, and events entered by the
      inserted-events delta stay hidden from recovery.
    - Outbox worker: over any history of passes and recoveries cut by crashes, an
      attempt is delivered at most once, after a durable claim and within the
      limit; a terminal status is justified by what the connector answered and
      final; a pass always returns.  This holds for the worker composed with the
      redb store, and a recovery that reports ready there has left nothing in
      flight.
    - Schema-directed keys: under every schema that the constructors accept,
      encoding and decoding are inverse in both directions and stay within the
      computed maximum; the decoders that keep no values give the same verdicts;
      and the prefix of an index scan selects exactly the entries with the given
      leading values.
    - Row policies: a checked rule is decided exactly by its meaning; reads show
      and commands change exactly the rows that the bound policy accepts; the
      admission of projected candidates is exact; a revalidated proof stands for
      the rows first allowed; the encoding of facts is canonical; and narrower
      facts show no more rows for rules that read them positively.  Three
      theorems pin down where the checks leave a gap: narrower facts show more
      rows under a negation, exactly those of the dropped members; a command's
      operations are those of the first binding of the entity, of any lineage;
      and a comparison of computed conditions denies every row.
    - Reactive modules: the parser is total, ends without a panic and accepts
      only bounded modules; printing and parsing are inverse up to spans; what
      compiles has the documented static guarantees, an identity that commits to
      plan and source, and predicates that evaluate to true exactly when what was
      written holds of the event.
      Two theorems show gaps: ordering of types without an order never matches,
      and canonical source can exceed the bound of the parser.

    ** Bounds and fuel

    The decoder of values recurses on the levels left, [MAX_NESTING_DEPTH + 1]
    at the root, which is the depth at which the source refuses; the encoders
    are structural.  The evaluator takes [MAX_EXPRESSION_NESTING] as fuel, and
    [Evaluate] proves that a constructed arena never exhausts it.  The search
    for a free registration number takes one more step than there are
    registrations, which [Cancellation] proves enough.  The reachability walk
    takes one step per root and two per node, since a node pushes its operands
    once; [Expression] proves this enough.  The scheduler's turn has no loop.  A pass
    of the outbox worker takes the length of its page as fuel, and [OutboxSafety]
    proves that it never runs out; recovery takes one page more than the events
    that can appear, which [OutboxComplete] proves enough.  The lexer of reactive
    modules takes the bytes left as fuel and each loop of the parser one turn
    more than there are tokens left; running out would be the panic that
    [ReactiveLexer] and [ReactiveSound] prove unreachable.  The loop over the
    escaped bytes of an ordered key component takes one turn more than the bytes
    left, which [KeySchemaCodec] proves enough.

    ** Code outside the sources

    SHA-256, HMAC-SHA-256, the digest provider, the protobuf codec of a status
    row (a class with its round-trip law), and the applications and
    repositories behind traits are arguments.  Of the hash functions, only the
    identities of reactive modules assume that SHA-256 gives 32 bytes.
    [executed_at_most_once] assumes the documented contract of
    resolve_business: an outcome recorded under a key is found again.

    ** Not modelled

    Formatting and display of values; wakers, the timer thread, telemetry and
    test hooks of the conflict manager; metrics and distances of vectors; the
    decoding of stored rows, I/O errors and the service-audit variants of the
    admission operations; the commit path, whose effect on admissions appears
    as [step_commit] and as the publication of events; the locator directory and
    journal behind the outbox tables; connectors, the archive connector and
    telemetry of the outbox; the persisted bytes of a policy catalogue, the
    release of events under a policy and the keys of relationship lookups; route
    scans and the materialization of events behind reactive streams; the storage
    engine, contract compiler, the query stack apart from reactive modules,
    projections, servers, clients and transports.  Most of these are I/O or rest
    on third-party stores; the authorization of requests, query plans and the
    command runtime are deterministic and could follow. *)

From Stdlib Require Export ZArith Lia.
From stdpp Require Export base tactics option list numbers countable.
From Stdlib Require Strings.Byte.

Abbreviation byte := Corelib.Init.Byte.byte.

Global Open Scope Z_scope.

(** ** Fallible and stateful computations

    [result E A] is Rust's [Result<A, E>].  [SE S E A] is a method taking
    [&mut self] and returning [Result<A, E>]: the state it leaves behind is
    returned on the error path too, because Rust does not roll it back. *)

Inductive result (E A : Type) : Type :=
  | Ok (a : A)
  | Err (e : E).
Arguments Ok {E A} a.
Arguments Err {E A} e.

#[export] Instance result_ret E : MRet (result E) := fun A a => Ok a.
#[export] Instance result_bind E : MBind (result E) := fun A B f m =>
  match m with Ok a => f a | Err e => Err e end.
#[export] Instance result_fmap E : FMap (result E) := fun A B f m =>
  match m with Ok a => Ok (f a) | Err e => Err e end.

Definition SE (S E A : Type) : Type := S -> S * result E A.

#[export] Instance SE_ret S E : MRet (SE S E) := fun A a s => (s, Ok a).
#[export] Instance SE_bind S E : MBind (SE S E) := fun A B f m s =>
  match m s with
  | (s', Ok a) => f a s'
  | (s', Err e) => (s', Err e)
  end.

(** [Option::ok_or] and [Result::map_err]. *)
Definition ok_or {E A} (o : option A) (e : E) : result E A :=
  match o with Some a => Ok a | None => Err e end.

Definition map_err {E F A} (f : E -> F) (r : result E A) : result F A :=
  match r with Ok a => Ok a | Err e => Err (f e) end.

Definition lift {S E A} (r : result E A) : SE S E A := fun s => (s, r).

Definition raise {S E A} (e : E) : SE S E A := fun s => (s, Err e).

(** [if c { return Err(e) }] *)
Definition guard_err {S E} (c : bool) (e : E) : SE S E unit :=
  if c then raise e else mret tt.

(** A [for] loop whose body may return early through [?]. *)
Section for_each.
Context {S E A : Type} (body : A -> SE S E unit).
Fixpoint for_each (l : list A) : SE S E unit :=
  match l with
  | [] => mret tt
  | x :: l' => _ ← body x; for_each l'
  end.
End for_each.

Definition is_ok {E A} (r : result E A) : bool :=
  match r with Ok _ => true | Err _ => false end.

#[export] Instance result_eq_dec {E A} `{EqDecision E, EqDecision A} :
  EqDecision (result E A).
Proof. solve_decision. Defined.

Lemma result_bind_ok {E A B} (m : result E A) (f : A -> result E B) b :
  (m ≫= f) = Ok b <-> exists a, m = Ok a /\ f a = Ok b.
Proof. destruct m; cbn; naive_solver. Qed.

Lemma SE_bind_ok {S E A B} (m : SE S E A) (f : A -> SE S E B) s s' b :
  (m ≫= f) s = (s', Ok b) <->
  exists s1 a, m s = (s1, Ok a) /\ f a s1 = (s', Ok b).
Proof.
  unfold mbind, SE_bind. destruct (m s) as [s1 [a|e]]; naive_solver.
Qed.

Lemma and_iff_compat_l_strong (A B C : Prop) : (A -> (B <-> C)) -> A /\ B <-> A /\ C.
Proof. tauto. Qed.

(** ** Machine integers

    A [w]-bit Rust integer is a [Z] in range.  The checked operations return
    [None] exactly when the mathematical result leaves the range. *)

Definition u_range (w x : Z) : Prop := 0 <= x < 2 ^ w.
Definition i_range (w x : Z) : Prop := - 2 ^ (w - 1) <= x < 2 ^ (w - 1).

Definition u_inb (w x : Z) : bool := (0 <=? x) && (x <? 2 ^ w).
Definition i_inb (w x : Z) : bool := (- 2 ^ (w - 1) <=? x) && (x <? 2 ^ (w - 1)).

Definition u_checked (w x : Z) : option Z := if u_inb w x then Some x else None.
Definition i_checked (w x : Z) : option Z := if i_inb w x then Some x else None.

Lemma u_inb_spec w x : u_inb w x = true <-> u_range w x.
Proof. unfold u_inb, u_range. lia. Qed.
Lemma i_inb_spec w x : i_inb w x = true <-> i_range w x.
Proof. unfold i_inb, i_range. lia. Qed.

Lemma u_checked_Some w x y : u_checked w x = Some y <-> y = x /\ u_range w x.
Proof.
  unfold u_checked. destruct (u_inb w x) eqn:E.
  - apply u_inb_spec in E. naive_solver.
  - assert (~ u_range w x) by (rewrite <- u_inb_spec; congruence). naive_solver.
Qed.
Lemma i_checked_Some w x y : i_checked w x = Some y <-> y = x /\ i_range w x.
Proof.
  unfold i_checked. destruct (i_inb w x) eqn:E.
  - apply i_inb_spec in E. naive_solver.
  - assert (~ i_range w x) by (rewrite <- i_inb_spec; congruence). naive_solver.
Qed.

Lemma i_checked_None w x : i_checked w x = None <-> ~ i_range w x.
Proof.
  unfold i_checked. destruct (i_inb w x) eqn:E;
    rewrite <- i_inb_spec, E; naive_solver.
Qed.
Lemma u_checked_None w x : u_checked w x = None <-> ~ u_range w x.
Proof.
  unfold u_checked. destruct (u_inb w x) eqn:E;
    rewrite <- u_inb_spec, E; naive_solver.
Qed.

(** [usize] is 64 bits wide on the supported targets. *)
Definition usize_max : Z := 2 ^ 64 - 1.
Definition usize_checked_add (a b : Z) : option Z := u_checked 64 (a + b).
Definition saturating_sub (a b : Z) : Z := Z.max 0 (a - b).

(** The length of a Rust vector or slice, as a [usize]. *)
Definition zlen {A} (l : list A) : Z := Z.of_nat (length l).

Lemma zlen_nonneg {A} (l : list A) : 0 <= zlen l.
Proof. unfold zlen. lia. Qed.
Lemma zlen_app {A} (l k : list A) : zlen (l ++ k) = zlen l + zlen k.
Proof. unfold zlen. rewrite length_app. lia. Qed.
Lemma zlen_cons {A} (x : A) l : zlen (x :: l) = 1 + zlen l.
Proof. unfold zlen. cbn [length]. lia. Qed.
Lemma zlen_nil {A} : zlen (@nil A) = 0.
Proof. reflexivity. Qed.

#[export] Hint Rewrite @zlen_app @zlen_cons @zlen_nil : zlen.

(** ** Bytes and big-endian integers *)

Definition byte_to_Z (b : byte) : Z := Z.of_N (Byte.to_N b).
Definition Z_to_byte (z : Z) : byte :=
  default Byte.x00 (Byte.of_N (Z.to_N (z mod 256))).

#[export] Instance byte_eq_dec : EqDecision byte := Byte.byte_eq_dec.

#[export] Instance byte_countable : Countable byte :=
  inj_countable Byte.to_N Byte.of_N Byte.of_to_N.

Lemma byte_to_Z_range b : 0 <= byte_to_Z b < 256.
Proof. unfold byte_to_Z. pose proof (Byte.to_N_bounded b). lia. Qed.

Lemma byte_to_Z_to_byte z : byte_to_Z (Z_to_byte z) = z mod 256.
Proof.
  unfold byte_to_Z, Z_to_byte.
  pose proof (Z.mod_pos_bound z 256 ltac:(lia)).
  destruct (Byte.of_N (Z.to_N (z mod 256))) as [b|] eqn:E; cbn.
  - apply Byte.to_of_N in E. lia.
  - apply Byte.of_N_None_iff in E. lia.
Qed.

Lemma Z_to_byte_to_Z b : Z_to_byte (byte_to_Z b) = b.
Proof.
  unfold Z_to_byte. pose proof (byte_to_Z_range b).
  rewrite Z.mod_small by lia. unfold byte_to_Z.
  by rewrite N2Z.id, Byte.of_to_N.
Qed.

Lemma byte_to_Z_inj b c : byte_to_Z b = byte_to_Z c -> b = c.
Proof. intros E. by rewrite <- (Z_to_byte_to_Z b), E, Z_to_byte_to_Z. Qed.

(** [be_bytes n z] is [z.to_be_bytes()] for an [n]-byte integer, signed or
    unsigned (two's complement); [be_value] is the unsigned [from_be_bytes]. *)
Fixpoint be_bytes (n : nat) (z : Z) : list byte :=
  match n with
  | O => []
  | S n' => Z_to_byte (z / 256 ^ Z.of_nat n') :: be_bytes n' z
  end.

Fixpoint be_value (l : list byte) : Z :=
  match l with
  | [] => 0
  | b :: l' => byte_to_Z b * 256 ^ zlen l' + be_value l'
  end.

(** Reinterpretation of an unsigned [w]-bit pattern as signed. *)
Definition to_signed (w u : Z) : Z := if u <? 2 ^ (w - 1) then u else u - 2 ^ w.

Lemma length_be_bytes n z : length (be_bytes n z) = n.
Proof. induction n; cbn [be_bytes length]; congruence. Qed.

Lemma zlen_be_bytes n z : zlen (be_bytes n z) = Z.of_nat n.
Proof. unfold zlen. by rewrite length_be_bytes. Qed.

Lemma pow256_S n : 256 ^ Z.of_nat (S n) = 256 * 256 ^ Z.of_nat n.
Proof. rewrite Nat2Z.inj_succ, Z.pow_succ_r by lia. reflexivity. Qed.

Lemma pow256_pos n : 0 < 256 ^ Z.of_nat n.
Proof. apply Z.pow_pos_nonneg; lia. Qed.

Lemma be_value_be_bytes n z : be_value (be_bytes n z) = z mod 256 ^ Z.of_nat n.
Proof.
  induction n as [|n IH]; cbn [be_bytes be_value].
  - by rewrite Z.mod_1_r.
  - rewrite IH, zlen_be_bytes, byte_to_Z_to_byte, pow256_S.
    pose proof (pow256_pos n).
    rewrite (Z.mul_comm 256), Z.rem_mul_r by lia. lia.
Qed.

Lemma be_value_range l : 0 <= be_value l < 256 ^ zlen l.
Proof.
  induction l as [|b l IH]; cbn [be_value]; [by cbn|].
  unfold zlen in *. cbn [length]. rewrite pow256_S.
  pose proof (byte_to_Z_range b). nia.
Qed.

Lemma mod_mul_div z a b : 0 < a -> 0 < b -> (z mod (a * b)) / a = (z / a) mod b.
Proof.
  intros Ha Hb. rewrite Z.rem_mul_r by lia.
  pose proof (Z.mod_pos_bound z a Ha).
  rewrite (Z.mul_comm a), Z.div_add, (Z.div_small (z mod a)) by lia. lia.
Qed.

Lemma be_bytes_mod n z : be_bytes n (z mod 256 ^ Z.of_nat n) = be_bytes n z.
Proof.
  enough (forall k, (n <= k)%nat ->
            be_bytes n (z mod 256 ^ Z.of_nat k) = be_bytes n z) by auto.
  induction n as [|n IH]; intros k Hk; cbn [be_bytes]; [done|].
  f_equal; [|apply IH; lia].
  apply byte_to_Z_inj. rewrite !byte_to_Z_to_byte.
  pose proof (pow256_pos n). pose proof (pow256_pos (k - S n)).
  replace (Z.of_nat k) with (Z.of_nat n + (1 + Z.of_nat (k - S n))) by lia.
  rewrite !Z.pow_add_r, Z.pow_1_r, mod_mul_div, Z.rem_mul_r by lia.
  by rewrite (Z.mul_comm 256), Z.mod_add, Z.mod_mod by lia.
Qed.

Lemma be_bytes_be_value l : be_bytes (length l) (be_value l) = l.
Proof.
  induction l as [|b l IH]; [done|]. cbn [length be_bytes be_value].
  pose proof (be_value_range l). unfold zlen in *.
  f_equal.
  - rewrite Z.div_add_l, Z.div_small, Z.add_0_r by lia. apply Z_to_byte_to_Z.
  - rewrite <- be_bytes_mod, Z.add_comm, Z.mod_add, be_bytes_mod by lia. apply IH.
Qed.

Lemma be_value_inj l k : length l = length k -> be_value l = be_value k -> l = k.
Proof.
  intros Hl E. by rewrite <- (be_bytes_be_value l), E, Hl, be_bytes_be_value.
Qed.

Lemma to_signed_mod w z : 0 < w -> i_range w z -> to_signed w (z mod 2 ^ w) = z.
Proof.
  intros Hw [H1 H2]. unfold to_signed.
  assert (2 ^ w = 2 * 2 ^ (w - 1)) as Hp
    by (rewrite <- Z.pow_succ_r by lia; f_equal; lia).
  destruct (Z.le_gt_cases 0 z).
  - rewrite Z.mod_small by lia. destruct (Z.ltb_spec z (2 ^ (w - 1))); lia.
  - assert (z mod 2 ^ w = z + 2 ^ w) as ->.
    { symmetry. apply Z.mod_unique with (-1); lia. }
    destruct (Z.ltb_spec (z + 2 ^ w) (2 ^ (w - 1))); lia.
Qed.

Lemma to_signed_range w u : 0 < w -> u_range w u -> i_range w (to_signed w u).
Proof.
  intros Hw [H1 H2]. unfold to_signed, i_range.
  assert (2 ^ w = 2 * 2 ^ (w - 1)) as Hp
    by (rewrite <- Z.pow_succ_r by lia; f_equal; lia).
  destruct (Z.ltb_spec u (2 ^ (w - 1))); lia.
Qed.

Lemma to_signed_mod_back w u : 0 < w -> u_range w u -> to_signed w u mod 2 ^ w = u.
Proof.
  intros Hw [H1 H2]. unfold to_signed.
  destruct (Z.ltb_spec u (2 ^ (w - 1))); [apply Z.mod_small; lia|].
  replace (u - 2 ^ w) with (u + (-1) * 2 ^ w) by lia.
  rewrite Z.mod_add by lia. apply Z.mod_small; lia.
Qed.

(** Fixed-width encodings of in-range integers are recovered exactly. *)
Lemma be_value_unsigned (n : nat) z :
  u_range (8 * Z.of_nat n) z -> be_value (be_bytes n z) = z.
Proof.
  intros [H1 H2]. rewrite be_value_be_bytes. apply Z.mod_small.
  rewrite (Z.pow_mul_r 2 8) in H2 by lia. exact (conj H1 H2).
Qed.

Lemma be_value_signed (n : nat) z :
  (0 < n)%nat -> i_range (8 * Z.of_nat n) z ->
  to_signed (8 * Z.of_nat n) (be_value (be_bytes n z)) = z.
Proof.
  intros Hn Hz. rewrite be_value_be_bytes.
  change 256 with (2 ^ 8). rewrite <- Z.pow_mul_r by lia.
  apply to_signed_mod; [lia|done].
Qed.

Lemma be_value_u_range l : u_range (8 * zlen l) (be_value l).
Proof.
  unfold u_range. rewrite Z.pow_mul_r by (pose proof (zlen_nonneg l); lia).
  apply be_value_range.
Qed.

Lemma be_bytes_signed_back l :
  (0 < length l)%nat ->
  be_bytes (length l) (to_signed (8 * zlen l) (be_value l)) = l.
Proof.
  intros Hl. rewrite <- be_bytes_mod. fold (zlen l).
  change 256 with (2 ^ 8). rewrite <- Z.pow_mul_r by (pose proof (zlen_nonneg l); lia).
  rewrite to_signed_mod_back, be_bytes_be_value; [done| |apply be_value_u_range].
  unfold zlen. lia.
Qed.

(** ** Lexicographic order on byte strings: [Ord for [u8]] *)
Fixpoint lex (a b : list byte) : comparison :=
  match a, b with
  | [], [] => Eq
  | [], _ :: _ => Lt
  | _ :: _, [] => Gt
  | x :: a', y :: b' =>
      match byte_to_Z x ?= byte_to_Z y with
      | Eq => lex a' b'
      | c => c
      end
  end.

Definition then_compare (c d : comparison) : comparison :=
  match c with Eq => d | _ => c end.

Lemma lex_refl a : lex a a = Eq.
Proof. induction a as [|x a IH]; cbn [lex]; [done|]. by rewrite Z.compare_refl. Qed.

Lemma lex_eq a b : lex a b = Eq <-> a = b.
Proof.
  split; [|intros ->; apply lex_refl].
  revert b. induction a as [|x a IH]; intros [|y b]; cbn [lex]; try done.
  destruct (Z.compare_spec (byte_to_Z x) (byte_to_Z y)) as [E| |]; try done.
  intros H. apply byte_to_Z_inj in E. f_equal; auto.
Qed.

Lemma lex_antisym a b : lex b a = CompOpp (lex a b).
Proof.
  revert b. induction a as [|x a IH]; intros [|y b]; cbn [lex]; try done.
  rewrite (Z.compare_antisym (byte_to_Z x)).
  destruct (byte_to_Z x ?= byte_to_Z y); cbn; auto.
Qed.

Lemma lex_prefix p a b : lex (p ++ a) (p ++ b) = lex a b.
Proof. induction p as [|x p IH]; cbn [app lex]; [done|]. by rewrite Z.compare_refl. Qed.

Lemma lex_app_same_length a b s t :
  length a = length b -> lex (a ++ s) (b ++ t) = then_compare (lex a b) (lex s t).
Proof.
  revert b. induction a as [|x a IH]; intros [|y b] Hl; try done.
  cbn [app lex]. destruct (byte_to_Z x ?= byte_to_Z y); [|done|done].
  apply IH. by injection Hl.
Qed.

Lemma lex_be_value a b :
  length a = length b -> lex a b = (be_value a ?= be_value b).
Proof.
  revert b. induction a as [|x a IH]; intros [|y b] Hl; try done.
  injection Hl as Hl. cbn [lex be_value]. rewrite IH by done.
  assert (zlen b = zlen a) as -> by (unfold zlen; lia).
  pose proof (be_value_range a). pose proof (be_value_range b).
  assert (zlen b = zlen a) as Hz by (unfold zlen; lia). rewrite Hz in *.
  destruct (Z.compare_spec (byte_to_Z x) (byte_to_Z y)) as [E|E|E].
  - rewrite E. symmetry. apply Z.add_compare_mono_l.
  - symmetry. apply Z.compare_lt_iff. nia.
  - symmetry. apply Z.compare_gt_iff. nia.
Qed.

Lemma lex_be_bytes n x y :
  0 <= x < 256 ^ Z.of_nat n -> 0 <= y < 256 ^ Z.of_nat n ->
  lex (be_bytes n x) (be_bytes n y) = (x ?= y).
Proof.
  intros Hx Hy. rewrite lex_be_value by (by rewrite !length_be_bytes).
  by rewrite !be_value_be_bytes, !Z.mod_small.
Qed.

(** ** Lists *)
Lemma filter_ext_elem {A} (P Q : A -> Prop) `{!forall x, Decision (P x), !forall x, Decision (Q x)}
    (l : list A) : (forall x, x ∈ l -> P x <-> Q x) -> base.filter P l = base.filter Q l.
Proof.
  induction l as [|x l IH]; intros Hpq; [done|]. rewrite !filter_cons.
  rewrite IH by (intros y Hy; apply Hpq; by right). specialize (Hpq x ltac:(left)).
  do 2 case_decide; tauto.
Qed.

Lemma Forall_sublist {A} (P : A -> Prop) (l k : list A) : sublist l k -> Forall P k -> Forall P l.
Proof. intros Hs. induction Hs; inversion 1; auto. Qed.

Lemma sublist_map {A B} (f : A -> B) (l k : list A) : sublist l k -> sublist (map f l) (map f k).
Proof. induction 1; cbn; by constructor. Qed.

(** ** Tactics

    [inv_result] consumes hypotheses stating that a fallible computation
    succeeded; [zbool] turns boolean comparisons into propositions for [lia]. *)
Ltac inv_result :=
  repeat match goal with
  | H : Ok _ = Ok _ |- _ => injection H as H; try subst
  | H : Err _ = Err _ |- _ => injection H as H; try subst
  | H : Ok _ = Err _ |- _ => discriminate H
  | H : Err _ = Ok _ |- _ => discriminate H
  | H : Some _ = Some _ |- _ => injection H as H; try subst
  | H : Some _ = None |- _ => discriminate H
  | H : None = Some _ |- _ => discriminate H
  | H : mret _ = Ok _ |- _ => injection H as H; try subst
  end.

Ltac zbool :=
  repeat match goal with
  | H : context [Z.ltb ?a ?b] |- _ => destruct (Z.ltb_spec a b)
  | H : context [Z.leb ?a ?b] |- _ => destruct (Z.leb_spec a b)
  | H : context [Z.eqb ?a ?b] |- _ => destruct (Z.eqb_spec a b)
  | |- context [Z.ltb ?a ?b] => destruct (Z.ltb_spec a b)
  | |- context [Z.leb ?a ?b] => destruct (Z.leb_spec a b)
  | |- context [Z.eqb ?a ?b] => destruct (Z.eqb_spec a b)
  end.
