(* ===== verification/Results.v ===== *)
(** * Fallible results and searches over lists

    What a successful traversal, search or check of a list says of its
    elements. *)

From S2P Require Import Prelude.
From stdpp Require Import list.

Local Open Scope Z_scope.

(** The first element of a list with a property. *)
Definition first_with {A} (P : A -> Prop) (l : list A) (x : A) : Prop :=
  exists before after, l = before ++ x :: after /\ P x /\ Forall (fun y => ~ P y) before.

Lemma ok_or_ok {E A} (o : option A) (e : E) a : ok_or o e = Ok a <-> o = Some a.
Proof. destruct o; cbn; naive_solver. Qed.

Lemma mapM_ok {E A B} (f : A -> result E B) l k : mapM f l = Ok k <-> Forall2 (fun x y => f x = Ok y) l k.
Proof.
  revert k. induction l as [|x l IH]; intros k; cbn [mapM].
  - split; [intros [= <-]; constructor|]. by intros ->%Forall2_nil_inv_l.
  - rewrite result_bind_ok. split.
    + intros (y & Hy & (r & Hr & [= <-])%result_bind_ok). constructor; [done|]. by apply IH.
    + intros (y & r & Hy & Hr & ->)%Forall2_cons_inv_l. exists y. split; [done|]. apply result_bind_ok.
      exists r. split; [by apply IH|done].
Qed.

Lemma Forall2_right {A B} (R : A -> B -> Prop) (P : B -> Prop) l k : Forall2 R l k ->
  (forall x y, x ∈ l -> R x y -> P y) -> Forall P k.
Proof.
  induction 1 as [|x y l k HR _ IH]; intros H; constructor; [by eapply H; [left|]|].
  apply IH. intros a b Ha. apply H. by right.
Qed.

Lemma zlen_map {A B} (f : A -> B) l : zlen (map f l) = zlen l.
Proof. unfold zlen. by rewrite length_map. Qed.

Lemma find_In {A} (p : A -> bool) l x : find p l = Some x -> x ∈ l /\ p x = true.
Proof. intros [Hin Hp]%find_some. split; [by apply list_elem_of_In|done]. Qed.

Lemma find_first {A} (f : A -> bool) (P : A -> Prop) l x : (forall y, f y = true <-> P y) ->
  find f l = Some x <-> first_with P l x.
Proof.
  intros Hf. split.
  - induction l as [|y l IH]; cbn [find]; [done|]. destruct (f y) eqn:E.
    + intros [= ->]. exists [], l. split_and!; [done|by apply Hf|constructor].
    + intros (l1 & l2 & -> & Hx & Hl)%IH. exists (y :: l1), l2. split_and!; [done|done|].
      constructor; [|done]. rewrite <- Hf, E. done.
  - intros (l1 & l2 & -> & Hx & Hl). induction Hl as [|y l1 Hy Hl IH]; cbn [app find].
    + by rewrite (proj2 (Hf x) Hx).
    + destruct (f y) eqn:E; [by apply Hf in E|done].
Qed.

Lemma forallb_In {A} (p : A -> bool) l x : forallb p l = true -> x ∈ l -> p x = true.
Proof. intros H Hx. rewrite forallb_forall in H. apply H. by apply list_elem_of_In. Qed.

Lemma find_unique {A} (name : A -> list byte) l x : NoDup (map name l) -> x ∈ l ->
  find (fun y => bool_decide (name y = name x)) l = Some x.
Proof.
  induction l as [|y l IH]; cbn [map find]; [by intros _ ?%not_elem_of_nil|]. intros [Hy Hn]%NoDup_cons Hx.
  case_bool_decide as E.
  - apply list_elem_of_In in Hx as [->|Hx]; [done|]. exfalso. apply Hy. rewrite E. by apply list_elem_of_In, in_map.
  - apply elem_of_cons in Hx as [->|Hx]; [done|]. by apply IH.
Qed.

Lemma map_err_ok {E E' A} (f : E -> E') (r : result E A) a : map_err f r = Ok a <-> r = Ok a.
Proof. destruct r; cbn; naive_solver. Qed.

Lemma filter_all {A} (P : A -> Prop) `{forall x, Decision (P x)} (l : list A) :
  Forall P l -> base.filter P l = l.
Proof. induction 1; [done|]. rewrite filter_cons_True by done. by f_equal. Qed.
