(* ===== verification/Decimal.v ===== *)
(** * Checked fixed-scale decimals and money

    Models [crates/riffdb-types/src/decimal.rs]: the validated
    [DecimalSpec], the [Decimal] coefficient arithmetic in [i128], exact
    rescaling, three-letter currency codes and money.  The theorems show that
    arithmetic is exact or refused: no operation rounds, wraps or changes a
    declared type. *)

From S2P Require Import Prelude.

Definition MIN_DECIMAL_PRECISION : Z := 1.
Definition MAX_DECIMAL_PRECISION : Z := 38.

Record DecimalSpec := mkDecimalSpec { spec_precision : Z; spec_scale : Z }.

#[export] Instance DecimalSpec_eq_dec : EqDecision DecimalSpec.
Proof. solve_decision. Defined.

Inductive DecimalSpecError :=
  | PrecisionOutOfRange (precision : Z)
  | ScaleExceedsPrecision (precision scale : Z).

Definition decimal_spec_new (precision scale : Z) : result DecimalSpecError DecimalSpec :=
  if (precision <? MIN_DECIMAL_PRECISION) || (MAX_DECIMAL_PRECISION <? precision)
  then Err (PrecisionOutOfRange precision)
  else if precision <? scale then Err (ScaleExceedsPrecision precision scale)
  else Ok (mkDecimalSpec precision scale).

(** [10_i128.pow(precision)]: at most [10^38], which [i128] holds. *)
Definition coefficient_limit (spec : DecimalSpec) : Z := 10 ^ spec_precision spec.

Record Decimal := mkDecimal { dec_spec : DecimalSpec; dec_coefficient : Z }.

#[export] Instance Decimal_eq_dec : EqDecision Decimal.
Proof. solve_decision. Defined.

Inductive DecimalError :=
  | CoefficientOutOfRange (spec : DecimalSpec)
  | ArithmeticOverflow
  | SpecMismatch (left right : DecimalSpec)
  | LossyRescale (from_scale to_scale : Z).

Definition decimal_new (spec : DecimalSpec) (coefficient : Z) : result DecimalError Decimal :=
  if (coefficient <=? - coefficient_limit spec) || (coefficient_limit spec <=? coefficient)
  then Err (CoefficientOutOfRange spec)
  else Ok (mkDecimal spec coefficient).

Definition require_same_spec (a b : Decimal) : result DecimalError unit :=
  if bool_decide (dec_spec a = dec_spec b) then Ok tt
  else Err (SpecMismatch (dec_spec a) (dec_spec b)).

Definition decimal_checked_add (a b : Decimal) : result DecimalError Decimal :=
  _ ← require_same_spec a b;
  coefficient ← ok_or (i_checked 128 (dec_coefficient a + dec_coefficient b)) ArithmeticOverflow;
  decimal_new (dec_spec a) coefficient.

Definition decimal_checked_sub (a b : Decimal) : result DecimalError Decimal :=
  _ ← require_same_spec a b;
  coefficient ← ok_or (i_checked 128 (dec_coefficient a - dec_coefficient b)) ArithmeticOverflow;
  decimal_new (dec_spec a) coefficient.

Definition decimal_checked_cmp (a b : Decimal) : result DecimalError comparison :=
  _ ← require_same_spec a b;
  Ok (dec_coefficient a ?= dec_coefficient b).

Definition decimal_power (exponent : Z) : Z := 10 ^ exponent.

(** [%] and [/] on [i128] truncate toward zero. *)
Definition rescale (d : Decimal) (target : DecimalSpec) : result DecimalError Decimal :=
  let from := spec_scale (dec_spec d) in
  let to := spec_scale target in
  if to =? from then decimal_new target (dec_coefficient d)
  else if from <? to then
    let factor := decimal_power (to - from) in
    coefficient ← ok_or (i_checked 128 (dec_coefficient d * factor)) ArithmeticOverflow;
    decimal_new target coefficient
  else
    let factor := decimal_power (from - to) in
    if negb (Z.rem (dec_coefficient d) factor =? 0) then Err (LossyRescale from to)
    else decimal_new target (Z.quot (dec_coefficient d) factor).

(** ** Currency codes and money *)

Inductive CurrencyCodeError := InvalidLength | InvalidCharacter.

Definition is_ascii_uppercase (b : byte) : bool :=
  (65 <=? byte_to_Z b) && (byte_to_Z b <=? 90).

(** A currency code holds exactly the three validated bytes. *)
Record CurrencyCode := mkCurrency { cur0 : byte; cur1 : byte; cur2 : byte }.

#[export] Instance CurrencyCode_eq_dec : EqDecision CurrencyCode.
Proof. solve_decision. Defined.

Definition currency_as_bytes (c : CurrencyCode) : list byte := [cur0 c; cur1 c; cur2 c].

Definition currency_new (value : list byte) : result CurrencyCodeError CurrencyCode :=
  match value with
  | [a; b; c] =>
      if negb (forallb is_ascii_uppercase value) then Err InvalidCharacter
      else Ok (mkCurrency a b c)
  | _ => Err InvalidLength
  end.

Record Money := mkMoney { money_currency : CurrencyCode; money_amount : Decimal }.

#[export] Instance Money_eq_dec : EqDecision Money.
Proof. solve_decision. Defined.

Inductive MoneyError :=
  | CurrencyMismatch
  | MoneyDecimal (e : DecimalError).

Definition require_same_currency (a b : Money) : result MoneyError unit :=
  if bool_decide (money_currency a = money_currency b) then Ok tt else Err CurrencyMismatch.

Definition money_checked_add (a b : Money) : result MoneyError Money :=
  _ ← require_same_currency a b;
  amount ← map_err MoneyDecimal (decimal_checked_add (money_amount a) (money_amount b));
  Ok (mkMoney (money_currency a) amount).

Definition money_checked_sub (a b : Money) : result MoneyError Money :=
  _ ← require_same_currency a b;
  amount ← map_err MoneyDecimal (decimal_checked_sub (money_amount a) (money_amount b));
  Ok (mkMoney (money_currency a) amount).

Definition money_checked_cmp (a b : Money) : result MoneyError comparison :=
  _ ← require_same_currency a b;
  map_err MoneyDecimal (decimal_checked_cmp (money_amount a) (money_amount b)).

(** ** Well-formedness: what the private fields of the Rust types guarantee *)

Definition spec_wf (s : DecimalSpec) : Prop :=
  1 <= spec_precision s <= 38 /\ 0 <= spec_scale s <= spec_precision s.

Definition decimal_wf (d : Decimal) : Prop :=
  spec_wf (dec_spec d) /\
  - coefficient_limit (dec_spec d) < dec_coefficient d < coefficient_limit (dec_spec d).

Definition currency_wf (c : CurrencyCode) : Prop :=
  Forall (fun b => is_ascii_uppercase b = true) (currency_as_bytes c).

Definition money_wf (m : Money) : Prop :=
  currency_wf (money_currency m) /\ decimal_wf (money_amount m).

Lemma decimal_spec_new_ok p s r :
  0 <= s -> decimal_spec_new p s = Ok r <-> r = mkDecimalSpec p s /\ spec_wf r.
Proof.
  intros Hs. unfold decimal_spec_new, spec_wf, MIN_DECIMAL_PRECISION, MAX_DECIMAL_PRECISION.
  zbool; cbn; (split; [intros; inv_result; cbn; split; [done|lia] || done|
                       intros [-> ?]; cbn in *; try lia; done]).
Qed.

Lemma decimal_new_ok s c d :
  decimal_new s c = Ok d <->
  d = mkDecimal s c /\ - coefficient_limit s < c < coefficient_limit s.
Proof.
  unfold decimal_new. zbool; cbn; (split; [intros; inv_result; split; [done|lia] || done|
                       intros [-> ?]; try lia; done]).
Qed.

Lemma decimal_new_wf s c d : spec_wf s -> decimal_new s c = Ok d -> decimal_wf d.
Proof. intros Hs [-> ?]%decimal_new_ok. split; cbn; [done|lia]. Qed.

Lemma limit_i128 s : spec_wf s -> 0 < coefficient_limit s < 2 ^ 127.
Proof.
  intros [H _]. unfold coefficient_limit. split; [apply Z.pow_pos_nonneg; lia|].
  apply Z.le_lt_trans with (10 ^ 38); [apply Z.pow_le_mono_r; lia|by vm_compute].
Qed.

Lemma require_same_spec_ok a b : require_same_spec a b = Ok tt <-> dec_spec a = dec_spec b.
Proof. unfold require_same_spec. case_bool_decide; naive_solver. Qed.

(** The [i128] overflow check never refuses a sum that would have fitted the
    declared precision. *)
Lemma i128_then_new s x :
  spec_wf s ->
  forall d, (coefficient ← ok_or (i_checked 128 x) ArithmeticOverflow; decimal_new s coefficient)
              = Ok d <-> decimal_new s x = Ok d.
Proof.
  intros Hs d. pose proof (limit_i128 s Hs).
  destruct (i_checked 128 x) as [y|] eqn:E; cbn.
  - apply i_checked_Some in E as [-> _]. done.
  - apply i_checked_None in E. rewrite decimal_new_ok. unfold i_range in E.
    change (128 - 1) with 127 in E. split; [done|]. intros [_ ?]. exfalso. apply E. lia.
Qed.

Lemma decimal_checked_add_ok a b d :
  decimal_wf a ->
  decimal_checked_add a b = Ok d <->
  dec_spec a = dec_spec b /\ d = mkDecimal (dec_spec a) (dec_coefficient a + dec_coefficient b) /\
  decimal_wf d.
Proof.
  intros [Ha ?]. unfold decimal_checked_add. rewrite result_bind_ok.
  setoid_rewrite i128_then_new; [|done]. setoid_rewrite decimal_new_ok.
  split.
  - intros ([] & E%require_same_spec_ok & -> & ?). repeat split; cbn; try apply Ha; try lia. done.
  - intros (E & -> & [_ ?]). exists tt. rewrite require_same_spec_ok. cbn in *. repeat split; [done|lia..].
Qed.

Lemma decimal_checked_sub_ok a b d :
  decimal_wf a ->
  decimal_checked_sub a b = Ok d <->
  dec_spec a = dec_spec b /\ d = mkDecimal (dec_spec a) (dec_coefficient a - dec_coefficient b) /\
  decimal_wf d.
Proof.
  intros [Ha ?]. unfold decimal_checked_sub. rewrite result_bind_ok.
  setoid_rewrite i128_then_new; [|done]. setoid_rewrite decimal_new_ok.
  split.
  - intros ([] & E%require_same_spec_ok & -> & ?). repeat split; cbn; try apply Ha; try lia. done.
  - intros (E & -> & [_ ?]). exists tt. rewrite require_same_spec_ok. cbn in *. repeat split; [done|lia..].
Qed.

(** The numeric value of [d] in units of [10^-n], for [n] at least its scale. *)
Definition same_number (a b : Decimal) : Prop :=
  dec_coefficient a * 10 ^ spec_scale (dec_spec b) =
  dec_coefficient b * 10 ^ spec_scale (dec_spec a).

Lemma pow10_split a b : 0 <= a <= b -> 10 ^ b = 10 ^ (b - a) * 10 ^ a.
Proof. intros H. rewrite <- Z.pow_add_r by lia. f_equal. lia. Qed.

Lemma same_number_up d t c :
  spec_wf (dec_spec d) -> spec_scale (dec_spec d) <= spec_scale t ->
  same_number (mkDecimal t c) d <->
  c = dec_coefficient d * 10 ^ (spec_scale t - spec_scale (dec_spec d)).
Proof.
  intros [_ H] H'. unfold same_number. cbn.
  rewrite (pow10_split (spec_scale (dec_spec d)) (spec_scale t)) by lia.
  pose proof (Z.pow_pos_nonneg 10 (spec_scale (dec_spec d)) ltac:(lia) ltac:(lia)).
  rewrite Z.mul_assoc. split; [intros E|intros ->; lia].
  by apply Z.mul_reg_r in E; [|lia].
Qed.

Lemma same_number_down d t c :
  spec_wf t -> spec_scale t <= spec_scale (dec_spec d) ->
  same_number (mkDecimal t c) d <->
  dec_coefficient d = c * 10 ^ (spec_scale (dec_spec d) - spec_scale t).
Proof.
  intros [_ H] H'. unfold same_number. cbn.
  rewrite (pow10_split (spec_scale t) (spec_scale (dec_spec d))) by lia.
  pose proof (Z.pow_pos_nonneg 10 (spec_scale t) ltac:(lia) ltac:(lia)).
  rewrite Z.mul_assoc. split; [intros E|intros ->; lia].
  symmetry in E. by apply Z.mul_reg_r in E; [|lia].
Qed.

(** [Decimal::rescale] returns [r] exactly when [r] is the one
    valid decimal of the target type denoting the same number. *)
Theorem rescale_exact d t r :
  decimal_wf d -> spec_wf t ->
  rescale d t = Ok r <-> dec_spec r = t /\ decimal_wf r /\ same_number r d.
Proof.
  intros [Hd Hc] Ht. unfold rescale, decimal_power.
  set (f := spec_scale (dec_spec d)). set (s := spec_scale t).
  assert (forall c, decimal_new t c = Ok r <->
            dec_spec r = t /\ decimal_wf r /\ dec_coefficient r = c) as Hnew.
  { intros c. rewrite decimal_new_ok. unfold decimal_wf. destruct r as [rs rc]. cbn.
    split; [intros [[= -> ->] ?]|intros (-> & [? ?] & ->)]; auto. }
  destruct (Z.eqb_spec s f) as [E|E]; [|destruct (Z.ltb_spec f s) as [L|L]].
  - rewrite Hnew. apply and_iff_compat_l_strong. intros Hr.
    apply and_iff_compat_l. destruct r as [rs rc]; cbn in Hr |- *; subst rs.
    rewrite same_number_up by (done || lia). fold f s. rewrite E, Z.sub_diag. lia.
  - rewrite i128_then_new, Hnew by done. apply and_iff_compat_l_strong. intros Hr.
    apply and_iff_compat_l. destruct r as [rs rc]; cbn in Hr |- *; subst rs.
    rewrite same_number_up by (done || lia). done.
  - assert (10 ^ (f - s) <> 0) by (apply Z.pow_nonzero; lia).
    destruct (Z.eqb_spec (Z.rem (dec_coefficient d) (10 ^ (f - s))) 0) as [Er|Er]; cbn [negb].
    + apply Z.rem_divide in Er as [k Hk]; [|done]. rewrite Hk, Z.quot_mul, Hnew by done.
      apply and_iff_compat_l_strong. intros Hr. apply and_iff_compat_l.
      destruct r as [rs rc]; cbn in Hr |- *; subst rs.
      rewrite same_number_down by (done || lia). fold f s. rewrite Hk.
      rewrite Z.mul_cancel_r by done. done.
    + split; [done|]. intros (Hr & _ & Hn). exfalso. apply Er.
      destruct r as [rs rc]; cbn in Hr; subst rs.
      apply same_number_down in Hn; [|done|lia]. fold f s in Hn.
      apply Z.rem_divide; [done|]. exists rc. done.
Qed.

(** 12.50 as a [Decimal(5,2)] is 12.5 as a [Decimal(4,1)]. *)
Lemma rescale_exact_witness :
  rescale (mkDecimal (mkDecimalSpec 5 2) 1250) (mkDecimalSpec 4 1) =
    Ok (mkDecimal (mkDecimalSpec 4 1) 125).
Proof.
  apply (rescale_exact (mkDecimal (mkDecimalSpec 5 2) 1250) (mkDecimalSpec 4 1)
           (mkDecimal (mkDecimalSpec 4 1) 125));
    repeat split; vm_compute; congruence.
Defined.
