(* ===== verification/Value.v ===== *)
(** * The closed canonical value algebra

    Models [crates/riffdb-types/src/limits.rs], [time.rs], [vector.rs] and
    [value.rs]: process limits, timestamps and dates, canonical vectors, the
    [CanonicalValue] enum and its bounded constructors.  A newtype around a
    validated payload is its payload, and [value_wf] states what the private
    fields of those newtypes guarantee.  [f32] components are their IEEE bit
    patterns. *)

From S2P Require Import Prelude Decimal.
From stdpp Require Import list sorting.

Local Open Scope Z_scope.

(** ** Limits *)
Definition MAX_CANONICAL_DOCUMENT_BYTES : Z := 1024 * 1024.
Definition MAX_ATOMIC_COMMAND_REQUEST_BYTES_V2 : Z := 4 * 1024 * 1024.
Definition MAX_STRING_BYTES : Z := 1024 * 1024.
Definition MAX_BYTES_VALUE_BYTES : Z := 1024 * 1024.
Definition MAX_LIST_ENTRIES : Z := 65535.
Definition MAX_RECORD_FIELDS : Z := 65535.
Definition MAX_KEY_BYTES : Z := 4096.
Definition MAX_COMMAND_CONFLICT_KEYS_V1 : Z := 256.
Definition MAX_NESTING_DEPTH : Z := 32.

(** ** Time *)
Definition NANOS_PER_SECOND : Z := 1000000000.

Record Timestamp := mkTimestamp { ts_seconds : Z; ts_nanoseconds : Z }.

#[export] Instance Timestamp_eq_dec : EqDecision Timestamp.
Proof. solve_decision. Defined.

Inductive TimestampError := NanosecondsOutOfRange (nanoseconds : Z).

Definition timestamp_new (seconds nanoseconds : Z) : result TimestampError Timestamp :=
  if NANOS_PER_SECOND <=? nanoseconds then Err (NanosecondsOutOfRange nanoseconds)
  else Ok (mkTimestamp seconds nanoseconds).

(** The derived order: seconds first, then nanoseconds. *)
Definition timestamp_cmp (a b : Timestamp) : comparison :=
  then_compare (ts_seconds a ?= ts_seconds b) (ts_nanoseconds a ?= ts_nanoseconds b).

Definition timestamp_wfb (t : Timestamp) : bool :=
  i_inb 64 (ts_seconds t) && (0 <=? ts_nanoseconds t) && (ts_nanoseconds t <? NANOS_PER_SECOND).

(** ** Stable identifiers: nonzero [u32] *)
Definition nonzero_id_new (value : Z) : option Z := if value =? 0 then None else Some value.

Definition nonzero_u32b (value : Z) : bool := (1 <=? value) && (value <? 2 ^ 32).

(** ** Canonical vectors *)
Definition MAX_VECTOR_DIMENSION : Z := 4096.

(** [f32::is_finite]: the eight exponent bits are not all ones. *)
Definition f32_is_finite (bits : Z) : bool := negb (Z.land (Z.shiftr bits 23) 255 =? 255).

(** The bit pattern of [-0.0_f32]. *)
Definition f32_neg_zero : Z := 2 ^ 31.

(** IEEE equality with [0.0] holds of both zeros. *)
Definition f32_eq_zero (bits : Z) : bool := (bits =? 0) || (bits =? f32_neg_zero).

Inductive CanonicalVectorError :=
  | DimensionOutOfRange (actual maximum : Z)
  | NonFiniteComponent (index : Z).

(** The [iter_mut().enumerate()] loop of [CanonicalVector::new]. *)
Fixpoint canonicalize_components (index : Z) (components : list Z)
  : result CanonicalVectorError (list Z) :=
  match components with
  | [] => Ok []
  | c :: rest =>
      if negb (f32_is_finite c) then Err (NonFiniteComponent index)
      else
        tail ← canonicalize_components (index + 1) rest;
        Ok ((if f32_eq_zero c then 0 else c) :: tail)
  end.

Definition canonical_vector_new (components : list Z) : result CanonicalVectorError (list Z) :=
  let len := zlen components in
  if (len =? 0) || (MAX_VECTOR_DIMENSION <? len)
  then Err (DimensionOutOfRange len MAX_VECTOR_DIMENSION)
  else canonicalize_components 0 components.

(** A component a canonical vector can hold. *)
Definition f32_canonicalb (bits : Z) : bool :=
  u_inb 32 bits && f32_is_finite bits && negb (bits =? f32_neg_zero).

Definition vector_wfb (components : list Z) : bool :=
  (1 <=? zlen components) && (zlen components <=? MAX_VECTOR_DIMENSION) &&
  forallb f32_canonicalb components.

(** ** UTF-8: [std::str::from_utf8], the well-formed byte sequences of Unicode *)
Definition in_rangeb (lo hi : Z) (b : byte) : bool :=
  (lo <=? byte_to_Z b) && (byte_to_Z b <=? hi).

Definition continuationb : byte -> bool := in_rangeb 128 191.

Definition second_of_three (b0 b1 : byte) : bool :=
  let z := byte_to_Z b0 in
  if z =? 224 then in_rangeb 160 191 b1
  else if z =? 237 then in_rangeb 128 159 b1
  else continuationb b1.

Definition second_of_four (b0 b1 : byte) : bool :=
  let z := byte_to_Z b0 in
  if z =? 240 then in_rangeb 144 191 b1
  else if z =? 244 then in_rangeb 128 143 b1
  else continuationb b1.

Fixpoint utf8_valid (l : list byte) : bool :=
  match l with
  | [] => true
  | b0 :: l1 =>
      if in_rangeb 0 127 b0 then utf8_valid l1
      else match l1 with
      | [] => false
      | b1 :: l2 =>
          if in_rangeb 194 223 b0 then continuationb b1 && utf8_valid l2
          else match l2 with
          | [] => false
          | b2 :: l3 =>
              if in_rangeb 224 239 b0
              then second_of_three b0 b1 && continuationb b2 && utf8_valid l3
              else match l3 with
              | [] => false
              | b3 :: l4 =>
                  if in_rangeb 240 244 b0
                  then second_of_four b0 b1 && continuationb b2 && continuationb b3 &&
                       utf8_valid l4
                  else false
              end
          end
      end
  end.

(** ** Values *)
Inductive CanonicalValue : Type :=
  | VNull
  | VBool (b : bool)
  | VI64 (z : Z)
  | VU64 (z : Z)
  | VDecimal (d : Decimal)
  | VMoney (m : Money)
  | VString (s : list byte)
  | VBytes (b : list byte)
  | VTimestamp (t : Timestamp)
  | VDate (days : Z)
  | VUuid (u : list byte)
  | VEnum (type_id variant_id : Z)
  | VList (values : list CanonicalValue)
  | VRecord (fields : list (Z * CanonicalValue))
  | VVector (components : list Z).

Inductive ValueError :=
  | StringTooLong (actual maximum : Z)
  | BytesTooLong (actual maximum : Z)
  | TooManyListEntries (actual maximum : Z)
  | TooManyRecordFields (actual maximum : Z)
  | DuplicateRecordField (field_id : Z)
  | ValueNestingTooDeep (depth maximum : Z).

(** [.max().map_or(0, |depth| depth + 1)] over the children's depths. *)
Definition max_succ (depths : list Z) : Z :=
  match depths with
  | [] => 0
  | _ => foldr Z.max 0 depths + 1
  end.

Fixpoint nesting_depth (v : CanonicalValue) : Z :=
  match v with
  | VList values => max_succ (map nesting_depth values)
  | VRecord fields => max_succ (map (fun f => nesting_depth (snd f)) fields)
  | _ => 0
  end.

Definition validate_child_depth (children : list CanonicalValue) : result ValueError unit :=
  let depth := max_succ (map nesting_depth children) in
  if MAX_NESTING_DEPTH <? depth then Err (ValueNestingTooDeep depth MAX_NESTING_DEPTH)
  else Ok tt.

Definition canonical_string_new (value : list byte) : result ValueError (list byte) :=
  if MAX_STRING_BYTES <? zlen value then Err (StringTooLong (zlen value) MAX_STRING_BYTES)
  else Ok value.

Definition canonical_bytes_new (value : list byte) : result ValueError (list byte) :=
  if MAX_BYTES_VALUE_BYTES <? zlen value then Err (BytesTooLong (zlen value) MAX_BYTES_VALUE_BYTES)
  else Ok value.

Definition canonical_list_new (values : list CanonicalValue)
  : result ValueError (list CanonicalValue) :=
  if MAX_LIST_ENTRIES <? zlen values
  then Err (TooManyListEntries (zlen values) MAX_LIST_ENTRIES)
  else
    _ ← validate_child_depth values;
    Ok values.

(** [sort_by_key] on the field ID: a stable sort. *)
Fixpoint insert_field {A} (x : Z * A) (l : list (Z * A)) : list (Z * A) :=
  match l with
  | [] => [x]
  | y :: l' => if fst x <=? fst y then x :: y :: l' else y :: insert_field x l'
  end.

Definition sort_fields {A} (l : list (Z * A)) : list (Z * A) := foldr insert_field [] l.

(** [windows(2).find_map(..)]: the first field ID equal to its successor. *)
Fixpoint first_duplicate {A} (l : list (Z * A)) : option Z :=
  match l with
  | x :: ((y :: _) as rest) => if fst x =? fst y then Some (fst x) else first_duplicate rest
  | _ => None
  end.

Definition canonical_record_new (fields : list (Z * CanonicalValue))
  : result ValueError (list (Z * CanonicalValue)) :=
  if MAX_RECORD_FIELDS <? zlen fields
  then Err (TooManyRecordFields (zlen fields) MAX_RECORD_FIELDS)
  else
    let fields := sort_fields fields in
    match first_duplicate fields with
    | Some field_id => Err (DuplicateRecordField field_id)
    | None =>
        _ ← validate_child_depth (map snd fields);
        Ok fields
    end.

(** ** Well-formed values: exactly what the constructors can produce *)
Fixpoint strictly_increasing (l : list Z) : bool :=
  match l with
  | x :: ((y :: _) as rest) => (x <? y) && strictly_increasing rest
  | _ => true
  end.

Definition spec_wfb (s : DecimalSpec) : bool :=
  (1 <=? spec_precision s) && (spec_precision s <=? 38) &&
  (0 <=? spec_scale s) && (spec_scale s <=? spec_precision s).

Definition decimal_wfb (d : Decimal) : bool :=
  spec_wfb (dec_spec d) &&
  (- coefficient_limit (dec_spec d) <? dec_coefficient d) &&
  (dec_coefficient d <? coefficient_limit (dec_spec d)).

Definition money_wfb (m : Money) : bool :=
  forallb is_ascii_uppercase (currency_as_bytes (money_currency m)) &&
  decimal_wfb (money_amount m).

Fixpoint value_wfb (v : CanonicalValue) : bool :=
  match v with
  | VNull | VBool _ => true
  | VI64 z => i_inb 64 z
  | VU64 z => u_inb 64 z
  | VDecimal d => decimal_wfb d
  | VMoney m => money_wfb m
  | VString s => utf8_valid s && (zlen s <=? MAX_STRING_BYTES)
  | VBytes b => zlen b <=? MAX_BYTES_VALUE_BYTES
  | VTimestamp t => timestamp_wfb t
  | VDate days => i_inb 32 days
  | VUuid u => zlen u =? 16
  | VEnum t n => nonzero_u32b t && nonzero_u32b n
  | VList values =>
      (zlen values <=? MAX_LIST_ENTRIES) &&
      (max_succ (map nesting_depth values) <=? MAX_NESTING_DEPTH) &&
      forallb value_wfb values
  | VRecord fields =>
      (zlen fields <=? MAX_RECORD_FIELDS) &&
      (max_succ (map (fun f => nesting_depth (snd f)) fields) <=? MAX_NESTING_DEPTH) &&
      forallb nonzero_u32b (map fst fields) && strictly_increasing (map fst fields) &&
      forallb (fun f => value_wfb (snd f)) fields
  | VVector components => vector_wfb components
  end.

Definition value_wf (v : CanonicalValue) : Prop := value_wfb v = true.

(** ** Induction over values, through lists and record fields *)
Section value_ind'.
Context (P : CanonicalValue -> Prop).
Context (Hleaf : forall v, (forall l, v <> VList l) -> (forall f, v <> VRecord f) -> P v).
Context (Hlist : forall l, Forall P l -> P (VList l)).
Context (Hrecord : forall fs, Forall (fun f => P (snd f)) fs -> P (VRecord fs)).

Fixpoint value_ind' (v : CanonicalValue) : P v.
Proof.
  destruct v as [| | | | | | | | | | | |l|fs|]; try (apply Hleaf; discriminate).
  - apply Hlist. induction l as [|x l IH]; constructor; [apply value_ind'|exact IH].
  - apply Hrecord. induction fs as [|[k x] fs IH]; constructor; [apply value_ind'|exact IH].
Defined.
End value_ind'.

(** ** Bounded constructors *)

Lemma max_succ_le l n : 0 <= n -> max_succ l <= n + 1 <-> Forall (fun d => d <= n) l.
Proof.
  intros Hn. destruct l as [|x l]; cbn [max_succ]; [split; [constructor|lia]|].
  enough (foldr Z.max 0 (x :: l) <= n <-> Forall (fun d => d <= n) (x :: l)) as <- by lia.
  induction (x :: l) as [|y k IH]; cbn [foldr]; [split; [constructor|lia]|].
  rewrite Forall_cons, <- IH. lia.
Qed.

Lemma max_succ_nonneg l : 0 <= max_succ l.
Proof.
  destruct l as [|x l]; cbn [max_succ]; [lia|].
  enough (0 <= foldr Z.max 0 (x :: l)) by lia.
  induction (x :: l); cbn [foldr]; lia.
Qed.

Lemma nesting_depth_nonneg v : 0 <= nesting_depth v.
Proof. destruct v; cbn [nesting_depth]; try lia; apply max_succ_nonneg. Qed.

Lemma validate_child_depth_ok l :
  validate_child_depth l = Ok tt <-> max_succ (map nesting_depth l) <= MAX_NESTING_DEPTH.
Proof. unfold validate_child_depth. zbool; naive_solver lia. Qed.

Lemma canonical_list_new_ok l r :
  canonical_list_new l = Ok r <->
  r = l /\ zlen l <= MAX_LIST_ENTRIES /\ max_succ (map nesting_depth l) <= MAX_NESTING_DEPTH.
Proof.
  unfold canonical_list_new. rewrite <- validate_child_depth_ok.
  destruct (Z.ltb_spec MAX_LIST_ENTRIES (zlen l)); [naive_solver lia|].
  destruct (validate_child_depth l) as [[]|e]; cbn; naive_solver lia.
Qed.

Lemma insert_field_perm {A} (x : Z * A) l : insert_field x l ≡ₚ x :: l.
Proof.
  induction l as [|y l IH]; cbn [insert_field]; [done|].
  destruct (fst x <=? fst y); [done|]. rewrite IH. apply perm_swap.
Qed.

Lemma sort_fields_perm {A} (l : list (Z * A)) : sort_fields l ≡ₚ l.
Proof.
  induction l as [|x l IH]; [done|]. cbn. by rewrite insert_field_perm, IH.
Qed.

Definition sorted_fields {A} (l : list (Z * A)) : Prop := StronglySorted Z.le (map fst l).

Lemma insert_field_sorted {A} (x : Z * A) l :
  sorted_fields l -> sorted_fields (insert_field x l).
Proof.
  unfold sorted_fields. induction l as [|y l IH]; cbn [insert_field map]; intros H.
  - repeat constructor.
  - inversion H as [|? ? Hl Hy]; subst. destruct (Z.leb_spec (fst x) (fst y)); cbn [map].
    + constructor; [done|]. constructor; [done|]. eapply Forall_impl; [done|]. cbn. lia.
    + constructor; [by apply IH|].
      assert (map fst (insert_field x l) ≡ₚ map fst (x :: l)) as ->
        by apply Permutation_map, insert_field_perm.
      cbn. constructor; [lia|done].
Qed.

Lemma sort_fields_sorted {A} (l : list (Z * A)) : sorted_fields (sort_fields l).
Proof. induction l as [|x l IH]; [constructor|]. by apply insert_field_sorted. Qed.

Lemma strictly_increasing_spec l : strictly_increasing l = true <-> StronglySorted Z.lt l.
Proof.
  induction l as [|x [|y l] IH].
  - split; constructor.
  - split; [repeat constructor|done].
  - cbn [strictly_increasing]. rewrite andb_true_iff, IH, Z.ltb_lt. split.
    + intros [Hxy Hl]. constructor; [done|]. inversion Hl; subst.
      constructor; [done|]. eapply Forall_impl; [done|]. cbn. lia.
    + intros H. inversion H as [|? ? Hl Hx]; subst. inversion Hx; subst. done.
Qed.

Lemma first_duplicate_None {A} (l : list (Z * A)) :
  sorted_fields l -> first_duplicate l = None <-> StronglySorted Z.lt (map fst l).
Proof.
  unfold sorted_fields. rewrite <- strictly_increasing_spec.
  induction l as [|x [|y l] IH]; cbn [first_duplicate strictly_increasing map]; try done.
  intros H. inversion H as [|? ? Hl Hx]; subst. inversion Hx; subst.
  rewrite andb_true_iff, Z.ltb_lt. destruct (Z.eqb_spec (fst x) (fst y)).
  - split; [done|lia].
  - rewrite (IH Hl). split; [intros ?; split; [lia|done]|tauto].
Qed.

Lemma lt_sorted_NoDup l : StronglySorted Z.lt l -> NoDup l.
Proof.
  induction 1 as [|x l Hl IH Hx]; constructor; [|done].
  intros Hin. rewrite Forall_forall in Hx. specialize (Hx x Hin). lia.
Qed.

Lemma le_sorted_NoDup_lt l : StronglySorted Z.le l -> NoDup l -> StronglySorted Z.lt l.
Proof.
  induction 1 as [|x l Hl IH Hx]; intros Hn; constructor; apply NoDup_cons in Hn as [Hn Hl'].
  - by apply IH.
  - rewrite Forall_forall in Hx |- *. intros y Hy. specialize (Hx y Hy).
    destruct (Z.eq_dec x y); [subst; done|lia].
Qed.

Lemma lt_sorted_fields_unique {A} (l k : list (Z * A)) :
  l ≡ₚ k -> StronglySorted Z.lt (map fst l) -> StronglySorted Z.lt (map fst k) -> l = k.
Proof.
  intros Hp Hl Hk.
  apply (StronglySorted_unique_strong (fun x y : Z * A => fst x < fst y)); [| | |done].
  - intros; lia.
  - clear -Hl. induction l as [|x l IH]; cbn in *; inversion Hl; subst; constructor; auto.
    by rewrite List.Forall_map in *.
  - clear -Hk. induction k as [|x l IH]; cbn in *; inversion Hk; subst; constructor; auto.
    by rewrite List.Forall_map in *.
Qed.

(** [CanonicalRecord::new] accepts exactly the field lists of bounded size and
    depth without repeated IDs, and returns their unique strictly increasing
    rearrangement. *)
Lemma canonical_record_new_ok fs r :
  canonical_record_new fs = Ok r <->
  r ≡ₚ fs /\ StronglySorted Z.lt (map fst r) /\ zlen fs <= MAX_RECORD_FIELDS /\
  max_succ (map (fun f => nesting_depth (snd f)) r) <= MAX_NESTING_DEPTH.
Proof.
  unfold canonical_record_new.
  destruct (Z.ltb_spec MAX_RECORD_FIELDS (zlen fs)) as [|Hlen]; [split; [done|lia]|].
  pose proof (sort_fields_sorted fs) as Hs. pose proof (sort_fields_perm fs) as Hp.
  pose proof (first_duplicate_None _ Hs) as Hd.
  destruct (first_duplicate (sort_fields fs)) as [id|].
  - split; [done|]. intros (Hr & Hi & _). exfalso.
    enough (@None Z = Some id) by done. symmetry. apply Hd, le_sorted_NoDup_lt; [done|].
    rewrite Hp, <- Hr. by apply lt_sorted_NoDup.
  - destruct Hd as [Hd _]. specialize (Hd eq_refl).
    rewrite result_bind_ok. setoid_rewrite <- (map_map snd nesting_depth). split.
    + intros ([] & Hv%validate_child_depth_ok & [= <-]). repeat split; done.
    + intros (Hr & Hi & _ & Hv). assert (r = sort_fields fs) as ->.
      { apply lt_sorted_fields_unique; [by rewrite Hr, Hp|done|done]. }
      exists tt. by rewrite validate_child_depth_ok.
Qed.
