(* ===== verification/Reader.v ===== *)
(** * Reading bytes with a cursor

    The strict decoders of RiffDB ([riffdb-types/src/codec.rs],
    [riffdb-storage-api/src/identity.rs], ...) are methods on a slice and a
    position.  They are computations on a [Decoder]; the error raised at the end
    of the input is each decoder's own.

    A decoder is read as a parser: [parses m b a] says that [m] consumes
    exactly [b] and yields [a] whatever surrounds it, and [inverts m R] says
    that whatever [m] accepts is related by [R] to the bytes it consumed. *)

From S2P Require Import Prelude.
From stdpp Require Import list.

Local Open Scope Z_scope.

Record Decoder := mkDecoder { dec_input : list byte; dec_position : Z }.

Section reads.
Context {E : Type} (e : E).

(** [input.get(position..end)] succeeds when [position <= end <= input.len()]. *)
Definition read_or (length : Z) : SE Decoder E (list byte) := fun s =>
  match usize_checked_add (dec_position s) length with
  | None => (s, Err e)
  | Some end_ =>
      if (dec_position s <=? end_) && (end_ <=? zlen (dec_input s))
      then (mkDecoder (dec_input s) end_,
            Ok (take (Z.to_nat length) (drop (Z.to_nat (dec_position s)) (dec_input s))))
      else (s, Err e)
  end.

Definition read_u8_or : SE Decoder E byte :=
  bytes ← read_or 1;
  match bytes with
  | b :: _ => mret b
  | [] => raise e
  end.

Definition read_unsigned_or (n : nat) : SE Decoder E Z :=
  bytes ← read_or (Z.of_nat n); mret (be_value bytes).

Definition read_signed_or (n : nat) : SE Decoder E Z :=
  bytes ← read_or (Z.of_nat n); mret (to_signed (8 * Z.of_nat n) (be_value bytes)).
End reads.

Section parsing.
Context {E : Type} (e : E).

(** A decoder that has consumed [i] and has [r] left. *)
Definition at_split (i r : list byte) : Decoder := mkDecoder (i ++ r) (zlen i).

Definition parses {A} (m : SE Decoder E A) (b : list byte) (a : A) : Prop :=
  forall i r, zlen i + zlen b + zlen r <= usize_max ->
    m (at_split i (b ++ r)) = (at_split (i ++ b) r, Ok a).

Definition inverts {A} (m : SE Decoder E A) (R : list byte -> A -> Prop) : Prop :=
  forall i r s a, m (at_split i r) = (s, Ok a) ->
    exists b r', r = b ++ r' /\ s = at_split (i ++ b) r' /\ R b a.

Lemma parses_ret {A} (a : A) : parses (mret a) [] a.
Proof. intros i r _. cbn. by rewrite app_nil_r. Qed.

Lemma parses_bind {A B} (m : SE Decoder E A) (k : A -> SE Decoder E B) b b' a c :
  parses m b a -> parses (k a) b' c -> parses (m ≫= k) (b ++ b') c.
Proof.
  intros Hm Hk i r Hs. rewrite zlen_app in Hs. unfold mbind, SE_bind.
  rewrite <- app_assoc, Hm by (rewrite zlen_app; lia).
  rewrite Hk by (rewrite zlen_app; lia). by rewrite app_assoc.
Qed.

Lemma parses_bind_nil {A B} (m : SE Decoder E A) (k : A -> SE Decoder E B) b a c :
  parses m [] a -> parses (k a) b c -> parses (m ≫= k) b c.
Proof. intros Hm Hk. by apply (parses_bind m k [] b a c). Qed.

Lemma parses_last {A B} (m : SE Decoder E A) (k : A -> SE Decoder E B) b a c :
  parses m b a -> parses (k a) [] c -> parses (m ≫= k) b c.
Proof. intros Hm Hk. rewrite <- (app_nil_r b). by apply (parses_bind m k b [] a c). Qed.

Lemma parses_guard c (f : E) : c = false -> parses (guard_err c f) [] tt.
Proof. intros ->. apply parses_ret. Qed.

Lemma parses_lift {A} (r : result E A) a : r = Ok a -> parses (lift r) [] a.
Proof. intros -> i x _. unfold lift. by rewrite app_nil_r. Qed.

Lemma parses_read b n : n = zlen b -> parses (read_or e n) b b.
Proof.
  intros -> i r Hs. unfold read_or, usize_checked_add, at_split. cbn.
  pose proof (zlen_nonneg i). pose proof (zlen_nonneg b). pose proof (zlen_nonneg r).
  destruct (u_checked 64 (zlen i + zlen b)) as [end_|] eqn:Eq.
  - apply u_checked_Some in Eq as [-> _]. rewrite !zlen_app.
    destruct (Z.leb_spec (zlen i) (zlen i + zlen b)); [|lia].
    destruct (Z.leb_spec (zlen i + zlen b) (zlen i + (zlen b + zlen r))); [|lia]. cbn.
    rewrite <- app_assoc. unfold zlen. rewrite !Nat2Z.id, drop_app_length, take_app_length. done.
  - apply u_checked_None in Eq. unfold u_range, usize_max in *. lia.
Qed.

Lemma inverts_ret {A} (a : A) : inverts (mret a) (fun b x => b = [] /\ x = a).
Proof.
  intros i r s x [= <- <-]. exists [], r. split_and!; [done| |done|done].
  by rewrite app_nil_r.
Qed.

Lemma inverts_bind {A B} (m : SE Decoder E A) (k : A -> SE Decoder E B) R R' :
  inverts m R -> (forall b a, R b a -> inverts (k a) (R' b a)) ->
  inverts (m ≫= k) (fun bb c => exists b b' a, bb = b ++ b' /\ R b a /\ R' b a b' c).
Proof.
  intros Hm Hk i r s c H. unfold mbind in H. apply SE_bind_ok in H as (s1 & a & H1 & H2).
  apply Hm in H1 as (b & r1 & -> & -> & HR).
  apply (Hk _ _ HR) in H2 as (b' & r2 & -> & -> & HR').
  exists (b ++ b'), r2. split_and!; [by rewrite app_assoc|by rewrite app_assoc|].
  exists b, b', a. done.
Qed.

Lemma inverts_weaken {A} (m : SE Decoder E A) (R R' : list byte -> A -> Prop) :
  inverts m R -> (forall b a, R b a -> R' b a) -> inverts m R'.
Proof. intros Hm HR i r s a H. apply Hm in H as (b & r' & ? & ? & ?). exists b, r'. auto. Qed.

Lemma inverts_raise {A} (f : E) (R : list byte -> A -> Prop) : inverts (raise f) R.
Proof. intros i r s a [=]. Qed.

Lemma inverts_guard c (f : E) : inverts (guard_err c f) (fun b _ => b = [] /\ c = false).
Proof.
  destruct c; [apply inverts_raise|].
  eapply inverts_weaken; [apply inverts_ret|]. naive_solver.
Qed.

Lemma inverts_lift {A} (r : result E A) :
  inverts (lift r) (fun b a => b = [] /\ r = Ok a).
Proof.
  intros i x s a H. unfold lift in H. injection H as <- ->.
  exists [], x. split_and!; [done| |done|done]. by rewrite app_nil_r.
Qed.

Lemma inverts_read n : inverts (read_or e n) (fun b a => a = b /\ zlen b = n).
Proof.
  intros i r s a H. unfold read_or, usize_checked_add, at_split in H. cbn in H.
  destruct (u_checked 64 (zlen i + n)) as [end_|] eqn:Eq; [|done].
  apply u_checked_Some in Eq as [-> _]. rewrite zlen_app in H.
  destruct (Z.leb_spec (zlen i) (zlen i + n)); [|done].
  destruct (Z.leb_spec (zlen i + n) (zlen i + zlen r)); [|done].
  cbn in H. injection H as <- <-. unfold zlen at 2. rewrite Nat2Z.id, drop_app_length.
  assert (length (take (Z.to_nat n) r) = Z.to_nat n) as Hl
    by (rewrite length_take; unfold zlen in *; lia).
  exists (take (Z.to_nat n) r), (drop (Z.to_nat n) r).
  split_and!; [by rewrite take_drop| |done|unfold zlen; lia].
  unfold at_split. rewrite <- app_assoc, take_drop, zlen_app. f_equal. unfold zlen. lia.
Qed.

(** ** Fixed-width reads *)
Lemma parses_u8 b : parses (read_u8_or e) [b] b.
Proof. eapply parses_last; [by apply parses_read|apply parses_ret]. Qed.

Lemma parses_unsigned n z : u_range (8 * Z.of_nat n) z -> parses (read_unsigned_or e n) (be_bytes n z) z.
Proof.
  intros Hz. eapply parses_last; [by apply parses_read; rewrite zlen_be_bytes|].
  rewrite <- (be_value_unsigned n z Hz) at 2. apply parses_ret.
Qed.

Lemma parses_signed n z :
  (0 < n)%nat -> i_range (8 * Z.of_nat n) z -> parses (read_signed_or e n) (be_bytes n z) z.
Proof.
  intros Hn Hz. eapply parses_last; [by apply parses_read; rewrite zlen_be_bytes|].
  rewrite <- (be_value_signed n z Hn Hz) at 2. apply parses_ret.
Qed.

Lemma inverts_u8 : inverts (read_u8_or e) (fun b a => b = [a]).
Proof.
  eapply inverts_weaken;
    [apply (inverts_bind _ _ _ (fun b _ b' c => b' = [] /\ head b = Some c) (inverts_read 1))|].
  - intros b a [-> Hl]. destruct b as [|x b]; [apply inverts_raise|].
    eapply inverts_weaken; [apply inverts_ret|]. cbn. naive_solver.
  - cbn. intros bb c (b & b' & a & -> & [-> Hl] & -> & Hh).
    destruct b as [|x [|]]; cbn in *; [done|by injection Hh as ->|].
    unfold zlen in Hl. cbn in Hl. lia.
Qed.

Lemma inverts_unsigned n :
  inverts (read_unsigned_or e n) (fun b a => b = be_bytes n a /\ u_range (8 * Z.of_nat n) a).
Proof.
  eapply inverts_weaken; [eapply inverts_bind; [apply inverts_read|intros; apply inverts_ret]|].
  cbn. intros bb c (b & b' & a & -> & [-> Hl] & -> & ->). rewrite app_nil_r.
  assert (length b = n) as <- by (unfold zlen in Hl; lia).
  split; [by rewrite be_bytes_be_value|apply be_value_u_range].
Qed.

Lemma inverts_signed n : (0 < n)%nat ->
  inverts (read_signed_or e n) (fun b a => b = be_bytes n a /\ i_range (8 * Z.of_nat n) a).
Proof.
  intros Hn.
  eapply inverts_weaken; [eapply inverts_bind; [apply inverts_read|intros; apply inverts_ret]|].
  cbn. intros bb c (b & b' & a & -> & [-> Hl] & -> & ->). rewrite app_nil_r.
  assert (length b = n) as <- by (unfold zlen in Hl; lia). fold (zlen b).
  split; [by rewrite be_bytes_signed_back|].
  apply to_signed_range; [unfold zlen; lia|apply be_value_u_range].
Qed.

End parsing.

(** [inv_steps] runs the inversion lemmas over a chain of binds; [inv_hook] is
    extended as composite readers get their own lemma. *)
Ltac inv_hook := fail.
Ltac inv_leaf :=
  first [ inv_hook | apply inverts_u8 | apply inverts_unsigned | apply inverts_signed; lia
        | apply inverts_ret | apply inverts_guard | apply inverts_lift | apply inverts_read ].
Ltac inv_steps :=
  repeat (eapply inverts_bind; [inv_leaf|intros ? ? ?; cbv beta in *]); inv_leaf.

Ltac split_parse :=
  repeat match goal with
  | H : exists _, _ |- _ => destruct H
  | H : _ /\ _ |- _ => destruct H
  end; subst; rewrite ?app_nil_l, ?app_nil_r in *.
