(* ===== verification/Codec.v ===== *)
(** * Canonical value encoding v1

    Models [crates/riffdb-types/src/codec.rs]: the bounded [Encoder], the
    allocation-free [LengthCounter], the strict [Decoder] and the public entry
    points built from them.  Each is a state-and-error computation over the
    fields of the Rust struct; an error leaves the state as the source leaves
    it, so the all-or-nothing behaviour of the [_into] entry points is a
    theorem, not a modelling choice.

    [decode_value] recurses on the nesting levels still allowed: [levels]
    stands for [depth = MAX_NESTING_DEPTH + 1 - levels], so level zero is the
    depth the source rejects and no fuel is involved. *)

From S2P Require Import Prelude Decimal Value Reader.
From stdpp Require Import list.

Local Open Scope Z_scope.

Definition CANONICAL_VALUE_VERSION : byte := Byte.x01.
Definition TAG_NULL : byte := Byte.x00.
Definition TAG_BOOL : byte := Byte.x01.
Definition TAG_I64 : byte := Byte.x02.
Definition TAG_U64 : byte := Byte.x03.
Definition TAG_DECIMAL : byte := Byte.x04.
Definition TAG_MONEY : byte := Byte.x05.
Definition TAG_STRING : byte := Byte.x06.
Definition TAG_BYTES : byte := Byte.x07.
Definition TAG_TIMESTAMP : byte := Byte.x08.
Definition TAG_DATE : byte := Byte.x09.
Definition TAG_UUID : byte := Byte.x0a.
Definition TAG_ENUM : byte := Byte.x0b.
Definition TAG_LIST : byte := Byte.x0c.
Definition TAG_RECORD : byte := Byte.x0d.
Definition TAG_VECTOR : byte := Byte.x0e.

Inductive BoundedKind := KString | KBytes.
Inductive CollectionKind := CList | CRecord.

Inductive CanonicalCodecError :=
  | DocumentTooLarge (actual maximum : Z)
  | StringTooLarge (actual maximum : Z)
  | BytesTooLarge (actual maximum : Z)
  | TooManyEntries (kind : CollectionKind) (actual maximum : Z)
  | NestingTooDeep (depth maximum : Z)
  | UnsupportedVersion (version : byte)
  | UnknownTag (tag : byte)
  | VectorDimensionOutOfRange (actual maximum : Z)
  | NonCanonicalVectorComponent (index : Z)
  | InvalidBoolean (value : byte)
  | InvalidDecimal
  | InvalidCurrency
  | InvalidTimestamp
  | InvalidUtf8
  | NonCanonicalRecordOrder
  | ZeroEnumTypeId
  | ZeroEnumVariantId
  | ZeroFieldId
  | UnexpectedEnd
  | TrailingBytes (count : Z).

Definition bounded_maximum (kind : BoundedKind) : Z :=
  match kind with KString => MAX_STRING_BYTES | KBytes => MAX_BYTES_VALUE_BYTES end.

Definition bounded_too_large (kind : BoundedKind) (actual maximum : Z) : CanonicalCodecError :=
  match kind with
  | KString => StringTooLarge actual maximum
  | KBytes => BytesTooLarge actual maximum
  end.

Definition collection_maximum (kind : CollectionKind) : Z :=
  match kind with CList => MAX_LIST_ENTRIES | CRecord => MAX_RECORD_FIELDS end.

(** [previous.is_some_and(|id| id >= field_id)] *)
Definition out_of_order (previous : option Z) (field_id : Z) : bool :=
  match previous with Some id => field_id <=? id | None => false end.

(** ** Encoder *)
Record Encoder := mkEncoder {
  enc_output : list byte;
  enc_document_start : Z;
  enc_maximum_document_bytes : Z }.

Definition Enc : Type -> Type := SE Encoder CanonicalCodecError.

#[export] Instance Enc_ret : MRet Enc := SE_ret _ _.
#[export] Instance Enc_bind : MBind Enc := SE_bind _ _.

Definition validate_depth {S} (depth : Z) : SE S CanonicalCodecError unit :=
  guard_err (MAX_NESTING_DEPTH <? depth) (NestingTooDeep depth MAX_NESTING_DEPTH).

Definition write (bytes : list byte) : Enc unit := fun s =>
  let document_len := saturating_sub (zlen (enc_output s)) (enc_document_start s) in
  match usize_checked_add document_len (zlen bytes) with
  | None => (s, Err (DocumentTooLarge usize_max (enc_maximum_document_bytes s)))
  | Some new_length =>
      if enc_maximum_document_bytes s <? new_length
      then (s, Err (DocumentTooLarge new_length (enc_maximum_document_bytes s)))
      else (mkEncoder (enc_output s ++ bytes) (enc_document_start s)
              (enc_maximum_document_bytes s), Ok tt)
  end.

Definition encode_decimal (value : Decimal) : Enc unit :=
  _ ← write [Z_to_byte (spec_precision (dec_spec value)); Z_to_byte (spec_scale (dec_spec value))];
  write (be_bytes 16 (dec_coefficient value)).

Definition encode_bounded_bytes (value : list byte) (kind : BoundedKind) : Enc unit :=
  let maximum := bounded_maximum kind in
  _ ← guard_err (maximum <? zlen value) (bounded_too_large kind (zlen value) maximum);
  _ ← write (be_bytes 4 (zlen value));
  write value.

(** The field loop of [encode_record_payload]. *)
Section encode_fields.
Context (encode : CanonicalValue -> Enc unit).
Fixpoint encode_fields (previous : option Z) (fields : list (Z * CanonicalValue)) : Enc unit :=
  match fields with
  | [] => mret tt
  | (field_id, value) :: rest =>
      _ ← guard_err (out_of_order previous field_id) NonCanonicalRecordOrder;
      _ ← write (be_bytes 4 field_id);
      _ ← encode value;
      encode_fields (Some field_id) rest
  end.

Definition encode_record_payload (fields : list (Z * CanonicalValue)) : Enc unit :=
  _ ← guard_err (MAX_RECORD_FIELDS <? zlen fields)
        (TooManyEntries CRecord (zlen fields) MAX_RECORD_FIELDS);
  _ ← write [TAG_RECORD];
  _ ← write (be_bytes 4 (zlen fields));
  encode_fields None fields.
End encode_fields.

Fixpoint encode_value (value : CanonicalValue) (depth : Z) : Enc unit :=
  _ ← validate_depth depth;
  _ ← write [CANONICAL_VALUE_VERSION];
  match value with
  | VNull => write [TAG_NULL]
  | VBool b => write [TAG_BOOL; if b then Byte.x01 else Byte.x00]
  | VI64 z => _ ← write [TAG_I64]; write (be_bytes 8 z)
  | VU64 z => _ ← write [TAG_U64]; write (be_bytes 8 z)
  | VDecimal d => _ ← write [TAG_DECIMAL]; encode_decimal d
  | VMoney m =>
      _ ← write [TAG_MONEY];
      _ ← write (currency_as_bytes (money_currency m));
      encode_decimal (money_amount m)
  | VString s => _ ← write [TAG_STRING]; encode_bounded_bytes s KString
  | VBytes b => _ ← write [TAG_BYTES]; encode_bounded_bytes b KBytes
  | VTimestamp t =>
      _ ← write [TAG_TIMESTAMP];
      _ ← write (be_bytes 8 (ts_seconds t));
      write (be_bytes 4 (ts_nanoseconds t))
  | VDate days => _ ← write [TAG_DATE]; write (be_bytes 4 days)
  | VUuid u => _ ← write [TAG_UUID]; write u
  | VEnum type_id variant_id =>
      _ ← write [TAG_ENUM];
      _ ← write (be_bytes 4 type_id);
      write (be_bytes 4 variant_id)
  | VList values =>
      _ ← guard_err (MAX_LIST_ENTRIES <? zlen values)
            (TooManyEntries CList (zlen values) MAX_LIST_ENTRIES);
      _ ← write [TAG_LIST];
      _ ← write (be_bytes 4 (zlen values));
      for_each (fun v => encode_value v (depth + 1)) values
  | VRecord fields => encode_record_payload (fun v => encode_value v (depth + 1)) fields
  | VVector components =>
      _ ← write [TAG_VECTOR];
      _ ← write (be_bytes 4 (zlen components));
      for_each (fun c => write (be_bytes 4 c)) components
  end.

Definition encode_record_value (fields : list (Z * CanonicalValue)) (depth : Z) : Enc unit :=
  _ ← validate_depth depth;
  _ ← write [CANONICAL_VALUE_VERSION];
  encode_record_payload (fun v => encode_value v (depth + 1)) fields.

(** ** Length counter: the encoder's checks without its bytes *)
Record LengthCounter := mkCounter { cnt_len : Z; cnt_maximum_document_bytes : Z }.

Definition Cnt : Type -> Type := SE LengthCounter CanonicalCodecError.

#[export] Instance Cnt_ret : MRet Cnt := SE_ret _ _.
#[export] Instance Cnt_bind : MBind Cnt := SE_bind _ _.

Definition length_counter_new (maximum_document_bytes : Z) : LengthCounter :=
  mkCounter 0 maximum_document_bytes.

Definition counter_add (bytes : Z) : Cnt unit := fun s =>
  match usize_checked_add (cnt_len s) bytes with
  | None => (s, Err (DocumentTooLarge usize_max (cnt_maximum_document_bytes s)))
  | Some new_length =>
      if cnt_maximum_document_bytes s <? new_length
      then (s, Err (DocumentTooLarge new_length (cnt_maximum_document_bytes s)))
      else (mkCounter new_length (cnt_maximum_document_bytes s), Ok tt)
  end.

Definition count_decimal (value : Decimal) : Cnt unit := counter_add (2 + 16).

Definition count_bounded_bytes (value : list byte) (kind : BoundedKind) : Cnt unit :=
  let maximum := bounded_maximum kind in
  _ ← guard_err (maximum <? zlen value) (bounded_too_large kind (zlen value) maximum);
  counter_add (4 + zlen value).

Section count_fields.
Context (count : CanonicalValue -> Cnt unit).
Fixpoint count_fields (previous : option Z) (fields : list (Z * CanonicalValue)) : Cnt unit :=
  match fields with
  | [] => mret tt
  | (field_id, value) :: rest =>
      _ ← guard_err (out_of_order previous field_id) NonCanonicalRecordOrder;
      _ ← counter_add 4;
      _ ← count value;
      count_fields (Some field_id) rest
  end.

Definition count_record_payload (fields : list (Z * CanonicalValue)) : Cnt unit :=
  _ ← guard_err (MAX_RECORD_FIELDS <? zlen fields)
        (TooManyEntries CRecord (zlen fields) MAX_RECORD_FIELDS);
  _ ← counter_add (1 + 4);
  count_fields None fields.
End count_fields.

Fixpoint count_value (value : CanonicalValue) (depth : Z) : Cnt unit :=
  _ ← validate_depth depth;
  _ ← counter_add 1;
  match value with
  | VNull => counter_add 1
  | VBool _ => counter_add 2
  | VI64 _ => counter_add (1 + 8)
  | VU64 _ => counter_add (1 + 8)
  | VDecimal d => _ ← counter_add 1; count_decimal d
  | VMoney m => _ ← counter_add (1 + 3); count_decimal (money_amount m)
  | VString s => _ ← counter_add 1; count_bounded_bytes s KString
  | VBytes b => _ ← counter_add 1; count_bounded_bytes b KBytes
  | VTimestamp _ => counter_add (1 + 8 + 4)
  | VDate _ => counter_add (1 + 4)
  | VUuid _ => counter_add (1 + 16)
  | VEnum _ _ => counter_add (1 + 4 + 4)
  | VList values =>
      _ ← guard_err (MAX_LIST_ENTRIES <? zlen values)
            (TooManyEntries CList (zlen values) MAX_LIST_ENTRIES);
      _ ← counter_add (1 + 4);
      for_each (fun v => count_value v (depth + 1)) values
  | VRecord fields => count_record_payload (fun v => count_value v (depth + 1)) fields
  | VVector components => counter_add (1 + 4 + zlen components * 4)
  end.

Definition count_record_value (fields : list (Z * CanonicalValue)) (depth : Z) : Cnt unit :=
  _ ← validate_depth depth;
  _ ← counter_add 1;
  count_record_payload (fun v => count_value v (depth + 1)) fields.

(** ** Public encoding entry points

    [Vec::with_capacity] reserves memory and does not change a vector's
    contents, so the reservation hint is not part of the model. *)
Definition run_count (c : Cnt unit) (maximum : Z) : result CanonicalCodecError Z :=
  match c (length_counter_new maximum) with
  | (s, Ok _) => Ok (cnt_len s)
  | (_, Err e) => Err e
  end.

Definition canonical_value_encoded_len (value : CanonicalValue) : result CanonicalCodecError Z :=
  run_count (count_value value 0) MAX_CANONICAL_DOCUMENT_BYTES.

Definition canonical_record_encoded_len (record : list (Z * CanonicalValue))
  : result CanonicalCodecError Z :=
  run_count (count_record_value record 0) MAX_CANONICAL_DOCUMENT_BYTES.

Definition canonical_command_input_encoded_len (record : list (Z * CanonicalValue))
  : result CanonicalCodecError Z :=
  run_count (count_record_value record 0) MAX_ATOMIC_COMMAND_REQUEST_BYTES_V2.

(** The shared body of the two [_into] functions: run, put the buffer back,
    and truncate it to its original length on error. *)
Definition encode_into (encode : Enc unit) : SE (list byte) CanonicalCodecError unit :=
  fun output =>
    let document_start := zlen output in
    match encode (mkEncoder output document_start MAX_CANONICAL_DOCUMENT_BYTES) with
    | (s, Ok _) => (enc_output s, Ok tt)
    | (s, Err e) => (take (Z.to_nat document_start) (enc_output s), Err e)
    end.

Definition encode_canonical_value_into (value : CanonicalValue)
  : SE (list byte) CanonicalCodecError unit := encode_into (encode_value value 0).

Definition encode_canonical_record_into (record : list (Z * CanonicalValue))
  : SE (list byte) CanonicalCodecError unit := encode_into (encode_record_value record 0).

Definition encode_canonical_value (value : CanonicalValue)
  : result CanonicalCodecError (list byte) :=
  match encode_canonical_value_into value [] with
  | (output, Ok _) => Ok output
  | (_, Err e) => Err e
  end.

Definition run_encode (encode : Enc unit) (maximum : Z)
  : result CanonicalCodecError (list byte) :=
  match encode (mkEncoder [] 0 maximum) with
  | (s, Ok _) => Ok (enc_output s)
  | (_, Err e) => Err e
  end.

Definition encode_canonical_record (record : list (Z * CanonicalValue))
  : result CanonicalCodecError (list byte) :=
  run_encode (encode_record_value record 0) MAX_CANONICAL_DOCUMENT_BYTES.

Definition encode_canonical_command_input (record : list (Z * CanonicalValue))
  : result CanonicalCodecError (list byte) :=
  run_encode (encode_record_value record 0) MAX_ATOMIC_COMMAND_REQUEST_BYTES_V2.

(** ** Decoder *)
Abbreviation Dec := (SE Decoder CanonicalCodecError).

Definition read : Z -> Dec (list byte) := read_or UnexpectedEnd.
Definition read_u8 : Dec byte := read_u8_or UnexpectedEnd.
Definition read_unsigned : nat -> Dec Z := read_unsigned_or UnexpectedEnd.
Definition read_signed : nat -> Dec Z := read_signed_or UnexpectedEnd.

Definition decode_decimal : Dec Decimal :=
  precision ← read_u8;
  scale ← read_u8;
  coefficient ← read_signed 16;
  spec ← lift (map_err (fun _ => InvalidDecimal)
                 (decimal_spec_new (byte_to_Z precision) (byte_to_Z scale)));
  lift (map_err (fun _ => InvalidDecimal) (decimal_new spec coefficient)).

Definition decode_bounded_bytes (kind : BoundedKind) : Dec (list byte) :=
  length ← read_unsigned 4;
  let maximum := bounded_maximum kind in
  _ ← guard_err (maximum <? length) (bounded_too_large kind length maximum);
  read length.

Definition read_collection_count (kind : CollectionKind) : Dec Z :=
  count ← read_unsigned 4;
  let maximum := collection_maximum kind in
  _ ← guard_err (maximum <? count) (TooManyEntries kind count maximum);
  mret count.

(** [for _ in 0..count { values.push(decode()?) }] *)
Section decode_loops.
Context (decode : Dec CanonicalValue).

Fixpoint decode_values (count : nat) : Dec (list CanonicalValue) :=
  match count with
  | O => mret []
  | S count' =>
      value ← decode;
      rest ← decode_values count';
      mret (value :: rest)
  end.

Fixpoint decode_fields (previous : option Z) (count : nat) : Dec (list (Z * CanonicalValue)) :=
  match count with
  | O => mret []
  | S count' =>
      raw_field_id ← read_unsigned 4;
      _ ← guard_err (out_of_order previous raw_field_id) NonCanonicalRecordOrder;
      field_id ← lift (ok_or (nonzero_id_new raw_field_id) ZeroFieldId);
      value ← decode;
      rest ← decode_fields (Some raw_field_id) count';
      mret ((field_id, value) :: rest)
  end.
End decode_loops.

Fixpoint decode_components (index : Z) (count : nat) : Dec (list Z) :=
  match count with
  | O => mret []
  | S count' =>
      bits ← read_unsigned 4;
      _ ← guard_err (negb (f32_is_finite bits) || (bits =? f32_neg_zero))
            (NonCanonicalVectorComponent index);
      rest ← decode_components (index + 1) count';
      mret (bits :: rest)
  end.

Definition vector_error (dimension : Z) (e : CanonicalVectorError) : CanonicalCodecError :=
  match e with
  | DimensionOutOfRange _ _ => VectorDimensionOutOfRange dimension MAX_VECTOR_DIMENSION
  | NonFiniteComponent index => NonCanonicalVectorComponent index
  end.

(** One arm of the tag dispatch; [decode] decodes a child one level deeper. *)
Definition decode_payload (decode : Dec CanonicalValue) (tag : byte) : Dec CanonicalValue :=
  match tag with
  | Byte.x00 => mret VNull
  | Byte.x01 =>
      b ← read_u8;
      match b with
      | Byte.x00 => mret (VBool false)
      | Byte.x01 => mret (VBool true)
      | value => raise (InvalidBoolean value)
      end
  | Byte.x02 => z ← read_signed 8; mret (VI64 z)
  | Byte.x03 => z ← read_unsigned 8; mret (VU64 z)
  | Byte.x04 => d ← decode_decimal; mret (VDecimal d)
  | Byte.x05 =>
      currency_bytes ← read 3;
      _ ← guard_err (negb (utf8_valid currency_bytes)) InvalidCurrency;
      currency ← lift (map_err (fun _ => InvalidCurrency) (currency_new currency_bytes));
      amount ← decode_decimal;
      mret (VMoney (mkMoney currency amount))
  | Byte.x06 =>
      bytes ← decode_bounded_bytes KString;
      _ ← guard_err (negb (utf8_valid bytes)) InvalidUtf8;
      value ← lift (map_err (fun _ => StringTooLarge (zlen bytes) MAX_STRING_BYTES)
                      (canonical_string_new bytes));
      mret (VString value)
  | Byte.x07 =>
      bytes ← decode_bounded_bytes KBytes;
      value ← lift (map_err (fun _ => BytesTooLarge (zlen bytes) MAX_BYTES_VALUE_BYTES)
                      (canonical_bytes_new bytes));
      mret (VBytes value)
  | Byte.x08 =>
      seconds ← read_signed 8;
      nanos ← read_unsigned 4;
      t ← lift (map_err (fun _ => InvalidTimestamp) (timestamp_new seconds nanos));
      mret (VTimestamp t)
  | Byte.x09 => days ← read_signed 4; mret (VDate days)
  | Byte.x0a => u ← read 16; mret (VUuid u)
  | Byte.x0b =>
      raw_type ← read_unsigned 4;
      type_id ← lift (ok_or (nonzero_id_new raw_type) ZeroEnumTypeId);
      raw_variant ← read_unsigned 4;
      variant_id ← lift (ok_or (nonzero_id_new raw_variant) ZeroEnumVariantId);
      mret (VEnum type_id variant_id)
  | Byte.x0c =>
      count ← read_collection_count CList;
      values ← decode_values decode (Z.to_nat count);
      list ← lift (map_err (fun _ => TooManyEntries CList count MAX_LIST_ENTRIES)
                     (canonical_list_new values));
      mret (VList list)
  | Byte.x0d =>
      count ← read_collection_count CRecord;
      fields ← decode_fields decode None (Z.to_nat count);
      mret (VRecord fields)
  | Byte.x0e =>
      dimension ← read_unsigned 4;
      _ ← guard_err ((dimension =? 0) || (MAX_VECTOR_DIMENSION <? dimension))
            (VectorDimensionOutOfRange dimension MAX_VECTOR_DIMENSION);
      components ← decode_components 0 (Z.to_nat dimension);
      vector ← lift (map_err (vector_error dimension) (canonical_vector_new components));
      mret (VVector vector)
  | tag => raise (UnknownTag tag)
  end.

Fixpoint decode_value (levels : nat) : Dec CanonicalValue :=
  match levels with
  | O => raise (NestingTooDeep (MAX_NESTING_DEPTH + 1) MAX_NESTING_DEPTH)
  | S levels' =>
      version ← read_u8;
      _ ← guard_err (negb (bool_decide (version = CANONICAL_VALUE_VERSION)))
            (UnsupportedVersion version);
      tag ← read_u8;
      decode_payload (decode_value levels') tag
  end.

(** Depth zero: [MAX_NESTING_DEPTH + 1] levels remain. *)
Definition root_levels : nat := Z.to_nat (MAX_NESTING_DEPTH + 1).

Definition decode_canonical_value (input : list byte) : result CanonicalCodecError CanonicalValue :=
  if MAX_CANONICAL_DOCUMENT_BYTES <? zlen input
  then Err (DocumentTooLarge (zlen input) MAX_CANONICAL_DOCUMENT_BYTES)
  else match decode_value root_levels (mkDecoder input 0) with
  | (_, Err e) => Err e
  | (s, Ok value) =>
      if negb (dec_position s =? zlen input)
      then Err (TrailingBytes (zlen input - dec_position s))
      else Ok value
  end.

(** The vectors of the source's unit tests. *)
Example decode_rejects_trailing :
  decode_canonical_value [Byte.x01; Byte.x00; Byte.x00] = Err (TrailingBytes 1).
Proof. vm_compute. reflexivity. Qed.

Example encode_decode_sample :
  let v := VRecord [(1, VU64 42); (3, VList [VBool true; VI64 (-9)]);
                    (7, VString [Byte.x6f; Byte.xc3; Byte.xa9])] in
  (encode_canonical_value v ≫= decode_canonical_value) = Ok v.
Proof. vm_compute. reflexivity. Qed.
