(* ===== verification/CodecEncode.v ===== *)
(** * What the encoder writes

    [ser] is the abstract encoding: the bytes of a value with no size limits.
    An encoder computation is a sequence of bounded writes that may end in a
    structural fault ([refines]); the length counter is the same sequence with
    some writes merged ([grouped]).  From this one simulation follow the exact
    output of the encoder, its agreement with the length counter, and the
    independence of the [_into] forms from the bytes already in the buffer. *)

From S2P Require Import Prelude Decimal Value Codec.
From stdpp Require Import list.

Local Open Scope Z_scope.

(** ** The abstract encoding *)
Definition ser_decimal (d : Decimal) : list byte :=
  [Z_to_byte (spec_precision (dec_spec d)); Z_to_byte (spec_scale (dec_spec d))] ++
  be_bytes 16 (dec_coefficient d).

Fixpoint ser (v : CanonicalValue) : list byte :=
  CANONICAL_VALUE_VERSION ::
  match v with
  | VNull => [TAG_NULL]
  | VBool b => [TAG_BOOL; if b then Byte.x01 else Byte.x00]
  | VI64 z => TAG_I64 :: be_bytes 8 z
  | VU64 z => TAG_U64 :: be_bytes 8 z
  | VDecimal d => TAG_DECIMAL :: ser_decimal d
  | VMoney m => TAG_MONEY :: currency_as_bytes (money_currency m) ++ ser_decimal (money_amount m)
  | VString s => TAG_STRING :: be_bytes 4 (zlen s) ++ s
  | VBytes b => TAG_BYTES :: be_bytes 4 (zlen b) ++ b
  | VTimestamp t => TAG_TIMESTAMP :: be_bytes 8 (ts_seconds t) ++ be_bytes 4 (ts_nanoseconds t)
  | VDate days => TAG_DATE :: be_bytes 4 days
  | VUuid u => TAG_UUID :: u
  | VEnum t n => TAG_ENUM :: be_bytes 4 t ++ be_bytes 4 n
  | VList values => TAG_LIST :: be_bytes 4 (zlen values) ++ concat (map ser values)
  | VRecord fields =>
      TAG_RECORD :: be_bytes 4 (zlen fields) ++
      concat (map (fun f => be_bytes 4 (fst f) ++ ser (snd f)) fields)
  | VVector components =>
      TAG_VECTOR :: be_bytes 4 (zlen components) ++ concat (map (be_bytes 4) components)
  end.

(** ** Encoder and counter computations as scripts of writes *)
Definition finish {S} (e : option CanonicalCodecError) : SE S CanonicalCodecError unit :=
  match e with None => mret tt | Some e => raise e end.

Definition run_chunks (cs : list (list byte)) (e : option CanonicalCodecError) : Enc unit :=
  _ ← for_each write cs; finish e.

Definition run_adds (ns : list Z) (e : option CanonicalCodecError) : Cnt unit :=
  _ ← for_each counter_add ns; finish e.

Inductive grouped : list (list byte) -> list Z -> Prop :=
  | grouped_nil : grouped [] []
  | grouped_cons g cs n ns :
      n = zlen (concat g) -> grouped cs ns -> grouped (g ++ cs) (n :: ns).

(** [script m c e bs]: the encoder [m] and the counter [c] attempt the same
    bytes [bs] and then end with the same fault, or none. *)
Definition script (m : Enc unit) (c : Cnt unit) (e : option CanonicalCodecError)
    (bs : list byte) : Prop :=
  exists cs ns,
    (forall s, m s = run_chunks cs e s) /\ (forall t, c t = run_adds ns e t) /\
    grouped cs ns /\ concat cs = bs.

Lemma grouped_app cs ns cs' ns' :
  grouped cs ns -> grouped cs' ns' -> grouped (cs ++ cs') (ns ++ ns').
Proof.
  induction 1 as [|g cs n ns Hn H IH]; intros H'; [done|].
  rewrite <- app_assoc. cbn. constructor; auto.
Qed.

Lemma for_each_app {S E A} (f : A -> SE S E unit) l k s :
  for_each f (l ++ k) s = (_ ← for_each f l; for_each f k) s.
Proof.
  revert s. induction l as [|x l IH]; intros s; [done|].
  cbn. unfold mbind, SE_bind. destruct (f x s) as [s1 [[]|e]]; [|done].
  rewrite IH. done.
Qed.

Lemma run_chunks_app cs cs' e s :
  run_chunks (cs ++ cs') e s = (_ ← run_chunks cs None; run_chunks cs' e) s.
Proof.
  unfold run_chunks. unfold mbind, Enc_bind, SE_bind. rewrite for_each_app.
  unfold mbind, SE_bind. destruct (for_each write cs s) as [s1 [[]|e']]; done.
Qed.

Lemma run_adds_app ns ns' e s :
  run_adds (ns ++ ns') e s = (_ ← run_adds ns None; run_adds ns' e) s.
Proof.
  unfold run_adds. unfold mbind, Cnt_bind, SE_bind. rewrite for_each_app.
  unfold mbind, SE_bind. destruct (for_each counter_add ns s) as [s1 [[]|e']]; done.
Qed.

Lemma script_bind m c m' c' e bs bs' :
  script m c None bs -> script m' c' e bs' ->
  script (_ ← m; m') (_ ← c; c') e (bs ++ bs').
Proof.
  intros (cs & ns & Hm & Hc & Hg & <-) (cs' & ns' & Hm' & Hc' & Hg' & <-).
  exists (cs ++ cs'), (ns ++ ns'). split_and!.
  - intros s. rewrite run_chunks_app. unfold mbind, Enc_bind, SE_bind. rewrite Hm.
    destruct (run_chunks cs None s) as [s1 [[]|]]; [apply Hm'|done].
  - intros s. rewrite run_adds_app. unfold mbind, Cnt_bind, SE_bind. rewrite Hc.
    destruct (run_adds ns None s) as [s1 [[]|]]; [apply Hc'|done].
  - by apply grouped_app.
  - by rewrite concat_app.
Qed.

Lemma script_bind_err m c m' c' e bs :
  script m c (Some e) bs -> script (_ ← m; m') (_ ← c; c') (Some e) bs.
Proof.
  intros (cs & ns & Hm & Hc & Hg & <-). exists cs, ns. split_and!; [| |done|done].
  - intros s. unfold mbind, Enc_bind, SE_bind. rewrite Hm.
    unfold run_chunks, mbind, Enc_bind, SE_bind.
    destruct (for_each write cs s) as [s1 [[]|]]; done.
  - intros s. unfold mbind, Cnt_bind, SE_bind. rewrite Hc.
    unfold run_adds, mbind, Cnt_bind, SE_bind.
    destruct (for_each counter_add ns s) as [s1 [[]|]]; done.
Qed.

(** [good m c P bs]: a script that writes [bs] unless it faults, and does not
    fault when [P] holds. *)
Definition good (m : Enc unit) (c : Cnt unit) (P : Prop) (bs : list byte) : Prop :=
  exists e bs', script m c e bs' /\ (e = None -> bs' = bs) /\ (P -> e = None).

Lemma good_ret P : good (mret tt) (mret tt) P [].
Proof. exists None, []. split_and!; [|done|done]. exists [], []. split_and!; constructor. Qed.

Lemma good_bind m c m' c' P bs bs' :
  good m c P bs -> good m' c' P bs' -> good (_ ← m; m') (_ ← c; c') P (bs ++ bs').
Proof.
  intros ([e|] & b & Hs & Hb & HP).
  - intros _. exists (Some e), b. split_and!; [by apply script_bind_err|done|].
    intros HP'. specialize (HP HP'). done.
  - intros (e' & b' & Hs' & Hb' & HP'). exists e', (b ++ b'). split_and!; [|intros E|done].
    + by apply script_bind.
    + by rewrite Hb, Hb'.
Qed.

Lemma good_guard_bind b e m' c' P bs :
  (P -> b = false) -> good m' c' P bs ->
  good (_ ← guard_err b e; m') (_ ← guard_err b e; c') P bs.
Proof.
  intros HP Hg. apply (good_bind _ _ _ _ _ [] bs); [|done].
  exists (if b then Some e else None), []. split_and!; [|done|].
  - exists [], []. split_and!; [| |constructor|done]; by destruct b.
  - intros H. by rewrite HP.
Qed.

(** Several writes the counter charges at once. *)
Lemma good_batch cs n P m :
  (forall s, m s = run_chunks cs None s) -> n = zlen (concat cs) ->
  good m (counter_add n) P (concat cs).
Proof.
  intros Hm Hn. exists None, (concat cs). split_and!; [|done|done].
  exists cs, [n]. split_and!; [done| | |done].
  - intros t. unfold run_adds, mbind, Cnt_bind, SE_bind. cbn.
    unfold mbind, SE_bind. destruct (counter_add n t) as [t' [[]|]]; done.
  - rewrite <- (app_nil_r cs). constructor; [done|constructor].
Qed.

Lemma run_chunks_cons b cs e s : run_chunks (b :: cs) e s = (_ ← write b; run_chunks cs e) s.
Proof.
  unfold run_chunks, mbind, Enc_bind, SE_bind. cbn. unfold mbind, SE_bind.
  destruct (write b s) as [s1 [[]|]]; done.
Qed.

Lemma run_chunks_one b s : write b s = run_chunks [b] None s.
Proof.
  rewrite run_chunks_cons. unfold mbind, Enc_bind, SE_bind.
  destruct (write b s) as [s1 [[]|]]; done.
Qed.

Lemma run_chunks_then b cs m :
  (forall s, m s = run_chunks cs None s) ->
  forall s, (_ ← write b; m) s = run_chunks (b :: cs) None s.
Proof.
  intros Hm s. rewrite run_chunks_cons. unfold mbind, Enc_bind, SE_bind.
  destruct (write b s) as [s1 [[]|]]; [apply Hm|done].
Qed.

Lemma run_chunks_for_each {A} (f : A -> list byte) l s :
  for_each (fun x => write (f x)) l s = run_chunks (map f l) None s.
Proof.
  revert s. induction l as [|x l IH]; intros s; [done|].
  cbn [map]. rewrite run_chunks_cons. cbn. unfold mbind, Enc_bind, SE_bind.
  destruct (write (f x) s) as [s1 [[]|]]; [apply IH|done].
Qed.

Lemma good_write b n P : zlen b = n -> good (write b) (counter_add n) P b.
Proof.
  intros <-. rewrite <- (app_nil_r b) at 3. change (b ++ []) with (concat [b]).
  apply good_batch; [apply run_chunks_one|]. cbn. by rewrite app_nil_r.
Qed.

Lemma good_write_bind b n m' c' P bs :
  zlen b = n -> good m' c' P bs ->
  good (_ ← write b; m') (_ ← counter_add n; c') P (b ++ bs).
Proof. intros Hn Hg. apply good_bind; [by apply good_write|done]. Qed.

Lemma good_weaken m c P Q bs : (Q -> P) -> good m c P bs -> good m c Q bs.
Proof. intros HQ (e & b & ? & ? & ?). exists e, b. naive_solver. Qed.

Lemma good_for_each {A} (f : A -> Enc unit) (g : A -> Cnt unit) h P l :
  Forall (fun x => good (f x) (g x) P (h x)) l ->
  good (for_each f l) (for_each g l) P (concat (map h l)).
Proof.
  induction 1 as [|x l Hx Hl IH]; [apply good_ret|]. cbn. by apply good_bind.
Qed.

Lemma good_fields (f : CanonicalValue -> Enc unit) (g : CanonicalValue -> Cnt unit) P previous fs :
  (P -> strictly_increasing (map fst fs) = true) ->
  (P -> forall k fs', fs = k :: fs' -> out_of_order previous (fst k) = false) ->
  Forall (fun x => good (f (snd x)) (g (snd x)) P (ser (snd x))) fs ->
  good (encode_fields f previous fs) (count_fields g previous fs) P
    (concat (map (fun x => be_bytes 4 (fst x) ++ ser (snd x)) fs)).
Proof.
  intros Hs Ho Hf. revert previous Hs Ho.
  induction Hf as [|[k v] fs Hx Hl IH]; intros previous Hs Ho; [apply good_ret|].
  cbn [encode_fields count_fields map concat fst snd].
  apply good_guard_bind; [intros HP; exact (Ho HP _ _ eq_refl)|].
  rewrite <- app_assoc. apply good_write_bind; [apply zlen_be_bytes|].
  apply good_bind; [done|]. apply IH.
  - intros HP. specialize (Hs HP). destruct fs; [done|]. cbn in Hs |- *.
    by apply andb_true_iff in Hs as [_ ?].
  - intros HP [k' v'] fs' ->. specialize (Hs HP). cbn in Hs |- *.
    apply andb_true_iff in Hs as [? _]. lia.
Qed.

(** A UUID is a [[u8; 16]]. *)
Fixpoint uuid_shaped (v : CanonicalValue) : bool :=
  match v with
  | VUuid u => zlen u =? 16
  | VList values => forallb uuid_shaped values
  | VRecord fields => forallb (fun f => uuid_shaped (snd f)) fields
  | _ => true
  end.

Definition encodable (v : CanonicalValue) (depth : Z) : Prop :=
  value_wf v /\ depth + nesting_depth v <= MAX_NESTING_DEPTH.

Lemma encodable_depth v d : encodable v d -> d <= MAX_NESTING_DEPTH.
Proof. intros [_ ?]. pose proof (nesting_depth_nonneg v). lia. Qed.

Lemma max_succ_elem l x : x ∈ l -> x + 1 <= max_succ l.
Proof.
  intros Hx. destruct l as [|y l]; [by apply elem_of_nil in Hx|]. cbn [max_succ].
  enough (x <= foldr Z.max 0 (y :: l)) by lia.
  induction (y :: l) as [|z k IH]; [by apply elem_of_nil in Hx|].
  cbn [foldr]. apply elem_of_cons in Hx as [->|Hx]; [lia|]. specialize (IH Hx). lia.
Qed.

Lemma encodable_list l d :
  encodable (VList l) d ->
  zlen l <= MAX_LIST_ENTRIES /\ Forall (fun v => encodable v (d + 1)) l.
Proof.
  intros [Hwf Hd]. unfold value_wf in Hwf. cbn in Hwf.
  apply andb_true_iff in Hwf as [[Hl _]%andb_true_iff Hf].
  split; [lia|]. apply Forall_forall. intros v Hv.
  rewrite forallb_True in Hf || rewrite List.forallb_forall in Hf. split.
  - apply Hf. by apply list_elem_of_In.
  - cbn [nesting_depth] in Hd.
    pose proof (max_succ_elem (map nesting_depth l) (nesting_depth v)
                  (list_elem_of_fmap_2 nesting_depth l v Hv)). lia.
Qed.

Lemma encodable_record fs d :
  encodable (VRecord fs) d ->
  zlen fs <= MAX_RECORD_FIELDS /\ strictly_increasing (map fst fs) = true /\
  Forall (fun f => encodable (snd f) (d + 1)) fs.
Proof.
  intros [Hwf Hd]. unfold value_wf in Hwf. cbn in Hwf.
  apply andb_true_iff in Hwf as [Hwf Hf]. apply andb_true_iff in Hwf as [Hwf Hs].
  apply andb_true_iff in Hwf as [Hwf _]. apply andb_true_iff in Hwf as [Hl _].
  split; [lia|split; [done|]]. apply Forall_forall. intros f Hv.
  rewrite List.forallb_forall in Hf. split.
  - apply Hf. by apply list_elem_of_In.
  - cbn [nesting_depth] in Hd.
    pose proof (max_succ_elem (map (fun f => nesting_depth (snd f)) fs) (nesting_depth (snd f))
                  (list_elem_of_fmap_2 (fun f => nesting_depth (snd f)) fs f Hv)). lia.
Qed.

(** The prologue shared by every value: depth check and version byte. *)
Lemma good_prologue v d m c bs :
  good m c (encodable v d) bs ->
  good (_ ← validate_depth d; _ ← write [CANONICAL_VALUE_VERSION]; m)
       (_ ← validate_depth d; _ ← counter_add 1; c) (encodable v d)
       (CANONICAL_VALUE_VERSION :: bs).
Proof.
  intros H. apply good_guard_bind; [intros ?%encodable_depth; lia|].
  by apply (good_write_bind [_]).
Qed.

Lemma good_bounded value kind P :
  (P -> zlen value <= bounded_maximum kind) ->
  good (encode_bounded_bytes value kind) (count_bounded_bytes value kind) P
    (be_bytes 4 (zlen value) ++ value).
Proof.
  intros HP. apply good_guard_bind; [intros ?%HP; lia|].
  pose proof (good_batch [be_bytes 4 (zlen value); value] (4 + zlen value) P
                (_ ← write (be_bytes 4 (zlen value)); write value)) as H.
  cbn [concat] in H. rewrite app_nil_r in H. apply H.
  - apply run_chunks_then, run_chunks_one.
  - rewrite zlen_app, zlen_be_bytes. lia.
Qed.

Lemma good_decimal d P : good (encode_decimal d) (count_decimal d) P (ser_decimal d).
Proof.
  pose proof (good_batch
    [[Z_to_byte (spec_precision (dec_spec d)); Z_to_byte (spec_scale (dec_spec d))];
     be_bytes 16 (dec_coefficient d)] (2 + 16) P (encode_decimal d)) as H.
  cbn [concat] in H. rewrite app_nil_r in H. apply H.
  - apply run_chunks_then, run_chunks_one.
  - rewrite zlen_app, zlen_be_bytes. done.
Qed.

(** A fixed sequence of writes, charged by the counter in one step. *)
Lemma good_writes (cs : list (list byte)) n m P bs :
  (forall s, m s = run_chunks cs None s) -> bs = concat cs -> n = zlen bs ->
  good m (counter_add n) P bs.
Proof. intros Hm -> ->. by apply good_batch. Qed.

Ltac fixed_writes cs :=
  apply (good_writes cs);
  [repeat first [apply run_chunks_one | apply run_chunks_then]
  |cbn [concat app]; by rewrite ?app_nil_r
  |autorewrite with zlen; rewrite ?zlen_be_bytes; try reflexivity; lia].

Lemma good_record_payload f g P fs :
  (P -> zlen fs <= MAX_RECORD_FIELDS) ->
  (P -> strictly_increasing (map fst fs) = true) ->
  Forall (fun x => good (f (snd x)) (g (snd x)) P (ser (snd x))) fs ->
  good (encode_record_payload f fs) (count_record_payload g fs) P
    (TAG_RECORD :: be_bytes 4 (zlen fs) ++
     concat (map (fun x => be_bytes 4 (fst x) ++ ser (snd x)) fs)).
Proof.
  intros Hl Hs Hf. apply good_guard_bind; [intros ?%Hl; lia|].
  assert (good (_ ← write [TAG_RECORD]; write (be_bytes 4 (zlen fs))) (counter_add (1 + 4)) P
            (TAG_RECORD :: be_bytes 4 (zlen fs))) as Hhead
    by fixed_writes [[TAG_RECORD]; be_bytes 4 (zlen fs)].
  pose proof (good_bind _ _ _ _ _ _ _ Hhead
    (good_fields f g P None fs Hs ltac:(done) Hf)) as (e & b & Hsc & Hb & HP).
  exists e, b. split_and!; [|done|done].
  destruct Hsc as (cs & ns & Hm & Hc & Hg & Hcat). exists cs, ns. split_and!; [|done..].
  intros s. rewrite <- Hm. unfold mbind, Enc_bind, SE_bind.
  destruct (write [TAG_RECORD] s) as [s1 [[]|]]; done.
Qed.

Lemma good_list_payload (f : CanonicalValue -> Enc unit) (g : CanonicalValue -> Cnt unit) P l :
  (P -> zlen l <= MAX_LIST_ENTRIES) ->
  Forall (fun x => good (f x) (g x) P (ser x)) l ->
  good
    (_ ← guard_err (MAX_LIST_ENTRIES <? zlen l) (TooManyEntries CList (zlen l) MAX_LIST_ENTRIES);
     _ ← write [TAG_LIST]; _ ← write (be_bytes 4 (zlen l)); for_each f l)
    (_ ← guard_err (MAX_LIST_ENTRIES <? zlen l) (TooManyEntries CList (zlen l) MAX_LIST_ENTRIES);
     _ ← counter_add (1 + 4); for_each g l) P
    (TAG_LIST :: be_bytes 4 (zlen l) ++ concat (map ser l)).
Proof.
  intros Hl Hf. apply good_guard_bind; [intros ?%Hl; lia|].
  assert (good (_ ← write [TAG_LIST]; write (be_bytes 4 (zlen l))) (counter_add (1 + 4)) P
            (TAG_LIST :: be_bytes 4 (zlen l))) as Hhead
    by fixed_writes [[TAG_LIST]; be_bytes 4 (zlen l)].
  pose proof (good_bind _ _ _ _ _ _ _ Hhead
    (good_for_each f g ser P l Hf)) as (e & b & Hsc & Hb & HP).
  exists e, b. split_and!; [|done|done].
  destruct Hsc as (cs & ns & Hm & Hc & Hg & Hcat). exists cs, ns. split_and!; [|done..].
  intros s. rewrite <- Hm. unfold mbind, Enc_bind, SE_bind.
  destruct (write [TAG_LIST] s) as [s1 [[]|]]; done.
Qed.

(** The encoder and the counter run the same script on every value. *)
Lemma good_value v d :
  uuid_shaped v = true ->
  good (encode_value v d) (count_value v d) (encodable v d) (ser v).
Proof.
  revert d. induction v as [v Hnl Hnr|l IH|fs IH] using value_ind'; intros d Hu.
  - destruct v as [|b|z|z|dec|m|str|bs|t|z|u|a b|l|fs|comps];
      try (by destruct (Hnl l)); try (by destruct (Hnr fs)); apply good_prologue.
    + fixed_writes [[TAG_NULL]].
    + fixed_writes [[TAG_BOOL; if b then Byte.x01 else Byte.x00]].
    + fixed_writes [[TAG_I64]; be_bytes 8 z].
    + fixed_writes [[TAG_U64]; be_bytes 8 z].
    + by apply (good_write_bind [_]), good_decimal.
    + assert (good (_ ← write [TAG_MONEY]; write (currency_as_bytes (money_currency m)))
                (counter_add (1 + 3)) (encodable (VMoney m) d)
                (TAG_MONEY :: currency_as_bytes (money_currency m))) as Hhead
        by fixed_writes [[TAG_MONEY]; currency_as_bytes (money_currency m)].
      pose proof (good_bind _ _ _ _ _ _ _ Hhead (good_decimal (money_amount m) _))
        as (e & b & Hsc & Hb & HP). exists e, b. split_and!; [|done|done].
      destruct Hsc as (cs & ns & Hm & Hc & Hg & Hcat). exists cs, ns. split_and!; [|done..].
      intros s. rewrite <- Hm. unfold mbind, Enc_bind, SE_bind.
      destruct (write [TAG_MONEY] s) as [s1 [[]|]]; done.
    + apply (good_write_bind [_]); [done|]. apply good_bounded. intros [Hwf _].
      unfold value_wf in Hwf. cbn in Hwf. apply andb_true_iff in Hwf as [_ ?]. cbn. lia.
    + apply (good_write_bind [_]); [done|]. apply good_bounded. intros [Hwf _].
      unfold value_wf in Hwf. cbn in Hwf |- *. lia.
    + fixed_writes [[TAG_TIMESTAMP]; be_bytes 8 (ts_seconds t); be_bytes 4 (ts_nanoseconds t)].
    + fixed_writes [[TAG_DATE]; be_bytes 4 z].
    + cbn in Hu. fixed_writes [[TAG_UUID]; u].
    + fixed_writes [[TAG_ENUM]; be_bytes 4 a; be_bytes 4 b].
    + apply (good_writes ([TAG_VECTOR] :: be_bytes 4 (zlen comps) :: map (be_bytes 4) comps)).
      * apply run_chunks_then, run_chunks_then. intros s. apply run_chunks_for_each.
      * cbn [concat app]. done.
      * autorewrite with zlen. rewrite zlen_be_bytes. clear.
        induction comps as [|c comps IHc]; [done|]. cbn [map concat].
        autorewrite with zlen in *. rewrite zlen_be_bytes. lia.
  - apply good_prologue, good_list_payload; [by intros [? ?]%encodable_list|].
    cbn in Hu. rewrite List.forallb_forall in Hu. rewrite Forall_forall in IH |- *.
    intros v Hv. eapply good_weaken; [|apply IH; [done|by apply Hu, list_elem_of_In]].
    intros [_ H]%encodable_list. rewrite Forall_forall in H. auto.
  - apply good_prologue, good_record_payload; [by intros (? & ? & ?)%encodable_record..|].
    cbn in Hu. rewrite List.forallb_forall in Hu. rewrite Forall_forall in IH |- *.
    intros v Hv. eapply good_weaken; [|apply IH; [done|by apply Hu, list_elem_of_In]].
    intros (_ & _ & H)%encodable_record. rewrite Forall_forall in H. auto.
Qed.

(** ** Running a script *)
Definition sumZ (ns : list Z) : Z := foldr Z.add 0 ns.

Lemma grouped_sum cs ns :
  grouped cs ns -> sumZ ns = zlen (concat cs) /\ Forall (fun n => 0 <= n) ns.
Proof.
  induction 1 as [|g cs n ns -> H [IH Hf]]; [done|]. cbn.
  rewrite concat_app, zlen_app. split; [unfold sumZ in IH; lia|].
  constructor; [apply zlen_nonneg|done].
Qed.

Definition end_result (e : option CanonicalCodecError) : result CanonicalCodecError unit :=
  match e with None => Ok tt | Some e => Err e end.

Lemma write_eq b o st mx :
  st <= zlen o -> 0 <= mx <= usize_max ->
  write b (mkEncoder o st mx) =
  if zlen o - st + zlen b <=? mx then (mkEncoder (o ++ b) st mx, Ok tt)
  else (mkEncoder o st mx,
        Err (DocumentTooLarge (if zlen o - st + zlen b <=? usize_max
                               then zlen o - st + zlen b else usize_max) mx)).
Proof.
  intros Ho Hm. unfold write, usize_checked_add, saturating_sub. cbn.
  rewrite Z.max_r by lia. pose proof (zlen_nonneg b).
  destruct (u_checked 64 (zlen o - st + zlen b)) as [n|] eqn:E.
  - apply u_checked_Some in E as [-> E]. unfold u_range, usize_max in *. zbool; (done || lia).
  - apply u_checked_None in E. unfold u_range, usize_max in *. zbool; (done || lia).
Qed.

(** The document written so far is within the limit. *)
Definition in_bounds (s : Encoder) : Prop :=
  enc_document_start s <= zlen (enc_output s) /\
  zlen (enc_output s) - enc_document_start s <= enc_maximum_document_bytes s <= usize_max.

Lemma run_chunks_spec cs e o st mx :
  in_bounds (mkEncoder o st mx) ->
  if zlen o - st + zlen (concat cs) <=? mx
  then run_chunks cs e (mkEncoder o st mx) = (mkEncoder (o ++ concat cs) st mx, end_result e)
  else exists pre a,
    run_chunks cs e (mkEncoder o st mx) = (mkEncoder (o ++ pre) st mx, Err (DocumentTooLarge a mx)).
Proof.
  unfold in_bounds. cbn. intros [Ho Hm]. revert o Ho Hm.
  induction cs as [|b cs IH]; intros o Ho Hm.
  - cbn [concat]. rewrite zlen_nil, app_nil_r.
    destruct (Z.leb_spec (zlen o - st + 0) mx); [by destruct e|lia].
  - rewrite run_chunks_cons. unfold mbind, Enc_bind, SE_bind. rewrite write_eq by lia.
    cbn [concat]. rewrite zlen_app. pose proof (zlen_nonneg (concat cs)).
    destruct (Z.leb_spec (zlen o - st + zlen b) mx) as [Hb|Hb].
    + specialize (IH (o ++ b)). rewrite zlen_app in IH.
      replace (zlen o - st + (zlen b + zlen (concat cs)))
        with (zlen o + zlen b - st + zlen (concat cs)) by lia.
      pose proof (zlen_nonneg b).
      specialize (IH ltac:(lia) ltac:(lia)). destruct (_ <=? mx).
      * rewrite IH. by rewrite app_assoc.
      * destruct IH as (pre & a & ->). exists (b ++ pre), a. by rewrite app_assoc.
    + destruct (Z.leb_spec (zlen o - st + (zlen b + zlen (concat cs))) mx); [lia|].
      exists []. rewrite app_nil_r. eauto.
Qed.

Lemma run_adds_spec ns e n mx :
  0 <= n <= mx -> mx <= usize_max -> Forall (fun n => 0 <= n) ns ->
  if n + sumZ ns <=? mx
  then run_adds ns e (mkCounter n mx) = (mkCounter (n + sumZ ns) mx, end_result e)
  else exists t a, run_adds ns e (mkCounter n mx) = (t, Err (DocumentTooLarge a mx)).
Proof.
  intros Hn Hm Hf. revert n Hn. induction Hf as [|k ns Hk Hf IH]; intros n Hn.
  - cbn. rewrite Z.add_0_r. destruct (Z.leb_spec n mx); [by destruct e|lia].
  - unfold run_adds, mbind, Cnt_bind, SE_bind. cbn.
    assert (0 <= sumZ ns) by (clear -Hf; induction Hf; cbn; unfold sumZ in *; lia).
    fold (sumZ ns). unfold mbind, SE_bind, counter_add at 1 3, usize_checked_add. cbn.
    destruct (u_checked 64 (n + k)) as [m|] eqn:E.
    + apply u_checked_Some in E as [-> E]. unfold u_range, usize_max in *.
      destruct (Z.ltb_spec mx (n + k)).
      * destruct (Z.leb_spec (n + (k + sumZ ns)) mx); [lia|]. eauto.
      * specialize (IH (n + k) ltac:(lia)). rewrite Z.add_assoc.
        unfold run_adds, mbind, Cnt_bind, SE_bind in IH. exact IH.
    + apply u_checked_None in E. unfold u_range, usize_max in *.
      destruct (Z.leb_spec (n + (k + sumZ ns)) mx); [lia|]. eauto.
Qed.

(** Document-size accounting is relative to the start of the append. *)
Lemma write_shift p o mx b :
  write b (mkEncoder (p ++ o) (zlen p) mx) =
  let '(s, r) := write b (mkEncoder o 0 mx) in (mkEncoder (p ++ enc_output s) (zlen p) mx, r).
Proof.
  unfold write, saturating_sub. cbn. rewrite zlen_app.
  replace (Z.max 0 (zlen p + zlen o - zlen p)) with (Z.max 0 (zlen o - 0)) by lia.
  destruct (usize_checked_add _ _) as [n|]; [|done].
  destruct (mx <? n); [done|]. cbn. by rewrite app_assoc.
Qed.

Lemma run_chunks_shift cs e p o mx :
  run_chunks cs e (mkEncoder (p ++ o) (zlen p) mx) =
  let '(s, r) := run_chunks cs e (mkEncoder o 0 mx) in
  (mkEncoder (p ++ enc_output s) (zlen p) mx, r).
Proof.
  revert o. induction cs as [|b cs IH]; intros o; [by destruct e|].
  rewrite !run_chunks_cons. unfold mbind, Enc_bind, SE_bind. rewrite write_shift.
  unfold write, saturating_sub. cbn.
  destruct (usize_checked_add _ _) as [n|]; [|done].
  destruct (mx <? n); [done|]. cbn. rewrite IH. done.
Qed.

Lemma value_wf_uuid v : value_wf v -> uuid_shaped v = true.
Proof.
  unfold value_wf. induction v as [v Hl Hr|l IH|fs IH] using value_ind'; intros Hwf.
  - destruct v; try done; [by destruct (Hl values)|by destruct (Hr fields)].
  - cbn in Hwf |- *. apply andb_true_iff in Hwf as [_ Hf].
    rewrite List.forallb_forall in Hf |- *. rewrite Forall_forall in IH.
    intros x Hx. apply IH; [by apply list_elem_of_In|auto].
  - cbn in Hwf |- *. apply andb_true_iff in Hwf as [_ Hf].
    rewrite List.forallb_forall in Hf |- *. rewrite Forall_forall in IH.
    intros x Hx. apply IH; [by apply list_elem_of_In|auto].
Qed.

Lemma value_wf_encodable v : value_wf v -> encodable v 0.
Proof.
  intros Hwf. split; [done|]. unfold value_wf in Hwf.
  destruct v; cbn in Hwf |- *; try (unfold MAX_NESTING_DEPTH; lia).
  - apply andb_true_iff in Hwf as [[_ ?]%andb_true_iff _]. lia.
  - apply andb_true_iff in Hwf as [Hwf _]. apply andb_true_iff in Hwf as [Hwf _].
    apply andb_true_iff in Hwf as [Hwf _]. apply andb_true_iff in Hwf as [_ ?]. lia.
Qed.

Definition same_fault (e e' : CanonicalCodecError) : Prop :=
  match e, e' with
  | DocumentTooLarge _ m, DocumentTooLarge _ m' => m = m'
  | _, _ => e = e'
  end.

Lemma same_fault_refl e : same_fault e e.
Proof. by destruct e. Qed.

Lemma run_encode_script m c P bs mx :
  0 <= mx <= usize_max -> good m c P bs ->
  match run_encode m mx, run_count c mx with
  | Ok b, Ok n => b = bs /\ n = zlen bs /\ zlen bs <= mx
  | Err e, Err e' => same_fault e e' /\ (P -> mx < zlen bs /\ exists a, e = DocumentTooLarge a mx)
  | _, _ => False
  end.
Proof.
  intros Hmx (e & b & (cs & ns & Hm & Hc & Hg & <-) & Hb & HP).
  unfold run_encode, run_count, length_counter_new. rewrite Hm, Hc.
  pose proof (run_chunks_spec cs e [] 0 mx) as He. pose proof (run_adds_spec ns e 0 mx) as Hn.
  apply grouped_sum in Hg as [Hsum Hpos]. rewrite Hsum in Hn.
  assert (in_bounds (mkEncoder [] 0 mx)) as Hin by (unfold in_bounds, zlen; cbn -[usize_max]; lia).
  specialize (He Hin). change (zlen (@nil byte)) with 0 in He. specialize (Hn ltac:(lia) ltac:(lia) Hpos).
  rewrite Z.sub_0_r, !Z.add_0_l in He. rewrite !Z.add_0_l in Hn.
  destruct (Z.leb_spec (zlen (concat cs)) mx) as [Hle|Hgt].
  - rewrite He, Hn. cbn. destruct e as [e|]; cbn.
    + split; [apply same_fault_refl|]. intros H. by specialize (HP H).
    + rewrite <- (Hb eq_refl). done.
  - destruct He as (pre & a & ->). destruct Hn as (t & a' & ->). cbn. split; [done|].
    intros H. specialize (HP H). rewrite <- (Hb HP). eauto.
Qed.

Lemma encode_canonical_value_run v :
  uuid_shaped v = true ->
  encode_canonical_value v = run_encode (encode_value v 0) MAX_CANONICAL_DOCUMENT_BYTES.
Proof.
  intros Hu. unfold encode_canonical_value, encode_canonical_value_into, encode_into, run_encode.
  change (zlen []) with 0. by destruct (encode_value v 0 _) as [s [[]|e]].
Qed.

Lemma encode_canonical_value_exact v :
  value_wf v ->
  match encode_canonical_value v with
  | Ok b => b = ser v /\ zlen b <= MAX_CANONICAL_DOCUMENT_BYTES
  | Err e =>
      MAX_CANONICAL_DOCUMENT_BYTES < zlen (ser v) /\
      exists a, e = DocumentTooLarge a MAX_CANONICAL_DOCUMENT_BYTES
  end.
Proof.
  intros Hwf. pose proof (value_wf_uuid v Hwf) as Hu.
  rewrite encode_canonical_value_run by done.
  pose proof (run_encode_script _ _ _ _ MAX_CANONICAL_DOCUMENT_BYTES ltac:(done)
                (good_value v 0 Hu)) as H.
  destruct (run_encode _ _) as [b|e], (run_count _ _) as [n|e']; try done.
  - destruct H as (-> & _ & ?). done.
  - destruct H as [_ H]. apply H. by apply value_wf_encodable.
Qed.

Lemma encode_canonical_command_input_exact r :
  value_wf (VRecord r) ->
  match encode_canonical_command_input r with
  | Ok b => b = ser (VRecord r) /\ zlen b <= MAX_ATOMIC_COMMAND_REQUEST_BYTES_V2
  | Err e => MAX_ATOMIC_COMMAND_REQUEST_BYTES_V2 < zlen (ser (VRecord r))
  end.
Proof.
  intros Hwf. pose proof (run_encode_script _ _ _ _ MAX_ATOMIC_COMMAND_REQUEST_BYTES_V2 ltac:(done)
    (good_value (VRecord r) 0 (value_wf_uuid _ Hwf))) as H.
  change (encode_value (VRecord r) 0) with (encode_record_value r 0) in H.
  unfold encode_canonical_command_input.
  destruct (run_encode _ _) as [b|e], (run_count _ _) as [n|e']; try done.
  - destruct H as (-> & _ & ?). done.
  - destruct H as [_ H]. apply H. by apply value_wf_encodable.
Qed.

(** ** Properties *)

(** The length functions agree with the encoder on every value, valid or
    not: both succeed and the length is that of the encoded document, or both
    refuse with the same fault (the attempted size reported by
    [DocumentTooLarge] may differ).  This is what lets callers treat length and
    encode as interchangeable for charge accounting. *)
Theorem encoded_len_agrees v :
  uuid_shaped v = true ->
  match encode_canonical_value v, canonical_value_encoded_len v with
  | Ok b, Ok n => n = zlen b
  | Err e, Err e' => same_fault e e'
  | _, _ => False
  end.
Proof.
  intros Hu. rewrite encode_canonical_value_run by done.
  pose proof (run_encode_script _ _ _ _ MAX_CANONICAL_DOCUMENT_BYTES ltac:(done)
                (good_value v 0 Hu)) as H.
  unfold canonical_value_encoded_len.
  destruct (run_encode _ _) as [b|e], (run_count _ _) as [n|e']; try done.
  - by destruct H as (-> & -> & _).
  - by destruct H as [? _].
Qed.

(** Appending a document to a buffer that already holds bytes is
    all-or-nothing: on success the buffer is the old contents followed by
    exactly the bytes of the standalone encoding, on failure it is the old
    contents and the error is the standalone encoder's. *)
Theorem encode_into_all_or_nothing v output :
  uuid_shaped v = true ->
  encode_canonical_value_into v output =
  match encode_canonical_value v with
  | Ok b => (output ++ b, Ok tt)
  | Err e => (output, Err e)
  end.
Proof.
  intros Hu. rewrite encode_canonical_value_run by done.
  destruct (good_value v 0 Hu) as (e & b & (cs & ns & Hm & _) & _).
  unfold encode_canonical_value_into, encode_into, run_encode. rewrite !Hm.
  rewrite <- (app_nil_r output) at 1. rewrite run_chunks_shift.
  destruct (run_chunks cs e _) as [s [[]|e']]; cbn; [done|].
  unfold zlen. by rewrite Nat2Z.id, take_app_length.
Qed.

(** The record entry points agree: encoding a borrowed record equals
    encoding the record value, and the larger command-input envelope never
    changes the bytes of a record the ordinary envelope accepts. *)
Theorem record_entry_points_agree r :
  encode_canonical_record r = encode_canonical_value (VRecord r) /\
  (forall b, encode_canonical_record r = Ok b -> uuid_shaped (VRecord r) = true ->
     encode_canonical_command_input r = Ok b /\
     canonical_command_input_encoded_len r = Ok (zlen b)).
Proof.
  split.
  - unfold encode_canonical_record, run_encode, encode_canonical_value,
      encode_canonical_value_into, encode_into. change (zlen []) with 0.
    change (encode_value (VRecord r) 0) with (encode_record_value r 0).
    by destruct (encode_record_value r 0 _) as [s [[]|e]].
  - intros b Hb Hu.
    pose proof (good_value (VRecord r) 0 Hu) as (e & bs & Hs & He & _).
    assert (good (encode_record_value r 0) (count_record_value r 0) (e = None) bs) as Hg.
    { exists e, bs. split_and!; done. }
    pose proof (run_encode_script _ _ _ _ MAX_CANONICAL_DOCUMENT_BYTES ltac:(done) Hg) as H1.
    pose proof (run_encode_script _ _ _ _ MAX_ATOMIC_COMMAND_REQUEST_BYTES_V2 ltac:(done) Hg) as H2.
    unfold encode_canonical_record in Hb. rewrite Hb in H1.
    unfold encode_canonical_command_input, canonical_command_input_encoded_len.
    destruct (run_count _ MAX_CANONICAL_DOCUMENT_BYTES) as [n|]; [|done].
    destruct H1 as (-> & _ & Hle).
    assert (e = None) as He'.
    { unfold run_encode in Hb. destruct Hs as (cs & ns & Hm & _ & _ & <-).
      change (encode_value (VRecord r) 0) with (encode_record_value r 0) in Hm. rewrite Hm in Hb.
      pose proof (run_chunks_spec cs e [] 0 MAX_CANONICAL_DOCUMENT_BYTES) as H.
      specialize (H ltac:(by vm_compute)).
      destruct (_ <=? _); [|destruct H as (? & ? & H)]; rewrite H in Hb; [|done].
      by destruct e. }
    destruct (run_encode _ MAX_ATOMIC_COMMAND_REQUEST_BYTES_V2) as [b2|],
             (run_count _ MAX_ATOMIC_COMMAND_REQUEST_BYTES_V2) as [n2|]; try done.
    + by destruct H2 as (-> & -> & _).
    + destruct H2 as [_ H2]. destruct (H2 He') as [Hlt _].
      unfold MAX_ATOMIC_COMMAND_REQUEST_BYTES_V2, MAX_CANONICAL_DOCUMENT_BYTES in *. lia.
Qed.

Lemma encoded_len_agrees_witness :
  match encode_canonical_value (VList [VUuid (replicate 16 Byte.x07); VNull]),
        canonical_value_encoded_len (VList [VUuid (replicate 16 Byte.x07); VNull]) with
  | Ok b, Ok n => n = zlen b
  | Err e, Err e' => same_fault e e'
  | _, _ => False
  end.
Proof. apply (encoded_len_agrees (VList [VUuid (replicate 16 Byte.x07); VNull])). reflexivity. Defined.

Lemma encode_into_all_or_nothing_witness :
  encode_canonical_value_into (VU64 7) [Byte.xaa] =
  match encode_canonical_value (VU64 7) with
  | Ok b => ([Byte.xaa] ++ b, Ok tt)
  | Err e => ([Byte.xaa], Err e)
  end.
Proof. apply encode_into_all_or_nothing. reflexivity. Defined.

Lemma record_entry_points_agree_witness :
  encode_canonical_command_input [(1, VNull)] =
    Ok [Byte.x01; Byte.x0d; Byte.x00; Byte.x00; Byte.x00; Byte.x01;
        Byte.x00; Byte.x00; Byte.x00; Byte.x01; Byte.x01; Byte.x00].
Proof.
  destruct (record_entry_points_agree [(1, VNull)]) as [_ H].
  eapply H; vm_compute; reflexivity.
Defined.
