(* ===== verification/CodecDecode.v ===== *)
(** * The decoder inverts the encoder

    The decoder is read as a parser with [parses] and [inverts].  With [ser] as
    the grammar, these give the two halves of the isomorphism between
    well-formed values and accepted documents. *)

From S2P Require Import Prelude Results Decimal Value Reader Codec CodecEncode.
From stdpp Require Import list.

Local Open Scope Z_scope.

(** ** Decimals *)
Lemma spec_wfb_spec s : spec_wfb s = true <-> spec_wf s.
Proof. unfold spec_wfb, spec_wf. lia. Qed.

Lemma decimal_wfb_spec d : decimal_wfb d = true <-> decimal_wf d.
Proof.
  unfold decimal_wfb, decimal_wf. rewrite !andb_true_iff, spec_wfb_spec, !Z.ltb_lt. tauto.
Qed.

Lemma byte_roundtrip p : 0 <= p < 256 -> byte_to_Z (Z_to_byte p) = p.
Proof. intros. rewrite byte_to_Z_to_byte. by apply Z.mod_small. Qed.

Lemma decimal_coefficient_i128 d : decimal_wf d -> i_range 128 (dec_coefficient d).
Proof.
  intros [Hs Hc]. pose proof (limit_i128 _ Hs). unfold i_range.
  change (128 - 1) with 127. lia.
Qed.

Lemma parses_decimal d : decimal_wf d -> parses decode_decimal (ser_decimal d) d.
Proof.
  intros Hd. pose proof Hd as [Hs Hc]. unfold ser_decimal. cbn [app].
  pose proof (decimal_coefficient_i128 d Hd) as Hi. destruct Hs as [Hp Hsc].
  eapply (parses_bind _ _ [_] (_ :: _)); [apply parses_u8|].
  eapply (parses_bind _ _ [_] _); [apply parses_u8|].
  eapply parses_last; [apply parses_signed; [lia|done]|].
  rewrite !byte_roundtrip by lia.
  eapply parses_bind_nil; [apply parses_lift|apply parses_lift].
  - enough (decimal_spec_new (spec_precision (dec_spec d)) (spec_scale (dec_spec d))
              = Ok (dec_spec d)) as -> by done.
    apply decimal_spec_new_ok; [lia|]. split; [by destruct (dec_spec d)|done].
  - enough (decimal_new (dec_spec d) (dec_coefficient d) = Ok d) as -> by done.
    apply decimal_new_ok. split; [by destruct d|done].
Qed.

Lemma inverts_decimal : inverts decode_decimal (fun b d => b = ser_decimal d /\ decimal_wf d).
Proof.
  unfold decode_decimal. eapply inverts_weaken; [inv_steps|]. cbn. intros bb d H. split_parse.
  match goal with H : map_err _ (decimal_spec_new ?p ?s) = Ok ?x,
                  H' : map_err _ (decimal_new _ ?c) = Ok d |- _ =>
    destruct (decimal_spec_new p s) as [x'|] eqn:E; [|done]; injection H as ->;
    destruct (decimal_new x c) as [d'|] eqn:E'; [|done]; injection H' as ->
  end.
  apply decimal_spec_new_ok in E as [-> Hwf]; [|apply byte_to_Z_range].
  pose proof (decimal_new_wf _ _ _ Hwf E') as Hd. apply decimal_new_ok in E' as [-> _].
  split; [|done]. unfold ser_decimal. cbn. by rewrite !Z_to_byte_to_Z.
Qed.

(** ** Encoding a value and reading it back *)
Lemma parses_header tag l' b v :
  parses (decode_payload (decode_value l') tag) b v ->
  parses (decode_value (S l')) (CANONICAL_VALUE_VERSION :: tag :: b) v.
Proof.
  intros H. cbn [decode_value].
  eapply (parses_bind _ _ [_] (_ :: _)); [apply parses_u8|].
  eapply parses_bind_nil; [apply parses_guard; by rewrite bool_decide_true|].
  eapply (parses_bind _ _ [_] _); [apply parses_u8|done].
Qed.

Lemma zlen_u32 {A} (l : list A) m : zlen l <= m -> m < 2 ^ 32 -> u_range (8 * Z.of_nat 4) (zlen l).
Proof. pose proof (zlen_nonneg l). unfold u_range. cbn. lia. Qed.

Lemma parses_bounded kind value :
  zlen value <= bounded_maximum kind ->
  parses (decode_bounded_bytes kind) (be_bytes 4 (zlen value) ++ value) value.
Proof.
  intros Hl. unfold decode_bounded_bytes.
  eapply parses_bind; [apply parses_unsigned, (zlen_u32 _ _ Hl); by destruct kind|].
  eapply parses_bind_nil; [apply parses_guard; lia|]. by apply parses_read.
Qed.

Lemma parses_count kind {A} (l : list A) :
  zlen l <= collection_maximum kind ->
  parses (read_collection_count kind) (be_bytes 4 (zlen l)) (zlen l).
Proof.
  intros Hl. unfold read_collection_count.
  eapply parses_last; [apply parses_unsigned, (zlen_u32 _ _ Hl); by destruct kind|].
  eapply parses_bind_nil; [apply parses_guard; lia|]. apply parses_ret.
Qed.

Lemma parses_values dec l :
  Forall (fun v => parses dec (ser v) v) l ->
  parses (decode_values dec (length l)) (concat (map ser l)) l.
Proof.
  induction 1 as [|v l Hv Hl IH]; cbn [decode_values length map concat]; [apply parses_ret|].
  eapply parses_bind; [done|]. eapply parses_last; [done|]. apply parses_ret.
Qed.

Lemma parses_fields dec previous fs :
  forallb nonzero_u32b (map fst fs) = true -> strictly_increasing (map fst fs) = true ->
  (forall k fs', fs = k :: fs' -> out_of_order previous (fst k) = false) ->
  Forall (fun f => parses dec (ser (snd f)) (snd f)) fs ->
  parses (decode_fields dec previous (length fs))
    (concat (map (fun f => be_bytes 4 (fst f) ++ ser (snd f)) fs)) fs.
Proof.
  intros Hn Hs Ho Hf. revert previous Hn Hs Ho.
  induction Hf as [|[k v] fs Hv Hf IH]; intros previous Hn Hs Ho; [apply parses_ret|].
  cbn [decode_fields length map concat fst snd forallb] in *.
  apply andb_true_iff in Hn as [Hk Hn]. unfold nonzero_u32b in Hk.
  rewrite <- app_assoc. eapply parses_bind; [apply parses_unsigned; unfold u_range; cbn; lia|].
  eapply parses_bind_nil; [apply parses_guard, (Ho _ _ eq_refl)|].
  eapply parses_bind_nil; [apply (parses_lift _ k)|].
  { unfold nonzero_id_new. destruct (Z.eqb_spec k 0); [lia|done]. }
  eapply parses_bind; [done|]. eapply parses_last; [|apply parses_ret].
  apply IH; [done| |].
  - destruct fs; [done|]. cbn in Hs |- *. by apply andb_true_iff in Hs as [_ ?].
  - intros [k' v'] fs' ->. cbn in Hs |- *. apply andb_true_iff in Hs as [? _]. lia.
Qed.

Lemma f32_canonical_bits c :
  f32_canonicalb c = true <->
  u_range 32 c /\ f32_is_finite c = true /\ c <> f32_neg_zero.
Proof.
  unfold f32_canonicalb. rewrite !andb_true_iff, u_inb_spec, negb_true_iff, Z.eqb_neq. tauto.
Qed.

Lemma canonicalize_id i l :
  forallb f32_canonicalb l = true -> canonicalize_components i l = Ok l.
Proof.
  revert i. induction l as [|c l IH]; intros i H; [done|]. cbn in H |- *.
  apply andb_true_iff in H as [(_ & Hf & Hz)%f32_canonical_bits Hl].
  rewrite Hf, IH by done. cbn. unfold f32_eq_zero.
  destruct (Z.eqb_spec c 0) as [->|]; [done|]. by destruct (Z.eqb_spec c f32_neg_zero).
Qed.

Lemma parses_components i l :
  forallb f32_canonicalb l = true ->
  parses (decode_components i (length l)) (concat (map (be_bytes 4) l)) l.
Proof.
  revert i. induction l as [|c l IH]; intros i H; [apply parses_ret|].
  cbn [decode_components length map concat forallb] in *.
  apply andb_true_iff in H as [(Hr & Hf & Hz)%f32_canonical_bits Hl].
  eapply parses_bind; [by apply parses_unsigned|].
  eapply parses_bind_nil; [apply parses_guard|].
  - rewrite Hf. cbn. by apply Z.eqb_neq.
  - eapply parses_last; [by apply IH|apply parses_ret].
Qed.

Lemma to_nat_zlen {A} (l : list A) : Z.to_nat (zlen l) = length l.
Proof. unfold zlen. lia. Qed.

Lemma uppercase_utf8 l : forallb is_ascii_uppercase l = true -> utf8_valid l = true.
Proof.
  induction l as [|b l IH]; [done|]. cbn. intros [Hb Hl]%andb_true_iff.
  unfold is_ascii_uppercase in Hb. unfold in_rangeb at 1.
  destruct (Z.leb_spec 0 (byte_to_Z b)), (Z.leb_spec (byte_to_Z b) 127); cbn; auto; lia.
Qed.

(** Selecting the branch of the tag dispatch. *)
Ltac payload := apply parses_header; cbv beta iota delta [decode_payload
  TAG_NULL TAG_BOOL TAG_I64 TAG_U64 TAG_DECIMAL TAG_MONEY TAG_STRING TAG_BYTES TAG_TIMESTAMP
  TAG_DATE TAG_UUID TAG_ENUM TAG_LIST TAG_RECORD TAG_VECTOR].

Lemma parses_leaf v levels :
  (forall l, v <> VList l) -> (forall f, v <> VRecord f) -> value_wf v ->
  parses (decode_value (S levels)) (ser v) v.
Proof.
  intros Hl Hr Hwf. unfold value_wf in Hwf.
  destruct v as [|b|z|z|d|m|s|bs|t|z|u|a b|l|fs|comps]; cbn [ser value_wfb] in *;
    try (by destruct (Hl l)); try (by destruct (Hr fs)); payload.
  - apply parses_ret.
  - eapply (parses_last _ _ [_]); [apply parses_u8|]. by destruct b; apply parses_ret.
  - eapply parses_last; [apply parses_signed; [lia|by apply i_inb_spec]|apply parses_ret].
  - eapply parses_last; [apply parses_unsigned; by apply u_inb_spec|apply parses_ret].
  - eapply parses_last; [by apply parses_decimal, decimal_wfb_spec|apply parses_ret].
  - apply andb_true_iff in Hwf as [Hc Hd]. destruct m as [[c0 c1 c2] amount]. cbn [money_currency money_amount] in *.
    eapply parses_bind; [by apply parses_read|].
    eapply parses_bind_nil; [apply parses_guard; by rewrite uppercase_utf8|].
    eapply parses_bind_nil; [apply (parses_lift _ (mkCurrency c0 c1 c2))|].
    { unfold currency_new, currency_as_bytes in *. cbn [cur0 cur1 cur2] in *. by rewrite Hc. }
    eapply parses_last; [by apply parses_decimal, decimal_wfb_spec|apply parses_ret].
  - apply andb_true_iff in Hwf as [Hu Hs].
    eapply parses_last; [apply parses_bounded; cbn; lia|].
    eapply parses_bind_nil; [apply parses_guard; by rewrite Hu|].
    eapply parses_bind_nil; [apply (parses_lift _ s)|apply parses_ret].
    unfold canonical_string_new. destruct (Z.ltb_spec MAX_STRING_BYTES (zlen s)); [lia|done].
  - eapply parses_last; [apply parses_bounded; cbn; lia|].
    eapply parses_bind_nil; [apply (parses_lift _ bs)|apply parses_ret].
    unfold canonical_bytes_new. destruct (Z.ltb_spec MAX_BYTES_VALUE_BYTES (zlen bs)); [lia|done].
  - unfold timestamp_wfb in Hwf. apply andb_true_iff in Hwf as [[Hs Hn]%andb_true_iff Hn'].
    eapply parses_bind; [apply parses_signed; [lia|by apply i_inb_spec]|].
    eapply parses_last.
    { apply parses_unsigned. unfold u_range, NANOS_PER_SECOND in *. cbn. lia. }
    eapply parses_bind_nil; [apply (parses_lift _ t)|apply parses_ret].
    unfold timestamp_new. destruct (Z.leb_spec NANOS_PER_SECOND (ts_nanoseconds t)); [lia|].
    by destruct t.
  - eapply parses_last; [apply parses_signed; [lia|by apply i_inb_spec]|apply parses_ret].
  - eapply parses_last; [apply parses_read; lia|apply parses_ret].
  - unfold nonzero_u32b in Hwf. apply andb_true_iff in Hwf as [Ha Hb].
    eapply parses_bind; [apply parses_unsigned; unfold u_range; cbn; lia|].
    eapply parses_bind_nil; [apply (parses_lift _ a)|].
    { unfold nonzero_id_new. destruct (Z.eqb_spec a 0); [lia|done]. }
    eapply parses_last; [apply parses_unsigned; unfold u_range; cbn; lia|].
    eapply parses_bind_nil; [apply (parses_lift _ b)|apply parses_ret].
    unfold nonzero_id_new. destruct (Z.eqb_spec b 0); [lia|done].
  - unfold vector_wfb in Hwf. apply andb_true_iff in Hwf as [[H1 H2]%andb_true_iff Hf].
    eapply parses_bind; [apply parses_unsigned, (zlen_u32 _ MAX_VECTOR_DIMENSION); [lia|done]|].
    eapply parses_bind_nil; [apply parses_guard; lia|].
    rewrite to_nat_zlen. eapply parses_last; [by apply parses_components|].
    eapply parses_bind_nil; [apply (parses_lift _ comps)|apply parses_ret].
    unfold canonical_vector_new. rewrite canonicalize_id by done.
    destruct (Z.eqb_spec (zlen comps) 0), (Z.ltb_spec MAX_VECTOR_DIMENSION (zlen comps)); lia || done.
Qed.

Lemma levels_pos v levels :
  nesting_depth v < Z.of_nat levels -> exists levels', levels = S levels'.
Proof. pose proof (nesting_depth_nonneg v). destruct levels; [lia|eauto]. Qed.

Lemma parses_value v levels :
  value_wf v -> nesting_depth v < Z.of_nat levels -> parses (decode_value levels) (ser v) v.
Proof.
  revert levels. induction v as [v Hl Hr|l IH|fs IH] using value_ind'; intros levels Hwf Hd;
    destruct (levels_pos _ _ Hd) as [levels' ->]; rename levels' into levels.
  - by apply parses_leaf.
  - assert (encodable (VList l) (Z.of_nat 32 - Z.of_nat levels)) as He
      by (split; [done|unfold MAX_NESTING_DEPTH; lia]).
    pose proof (encodable_list _ _ He) as [Hlen Hch].
    pose proof (value_wf_encodable _ Hwf) as [_ Hmax].
    cbn [ser]. payload.
    eapply parses_bind; [by apply (parses_count CList)|]. rewrite to_nat_zlen.
    eapply parses_last; [apply parses_values|].
    + rewrite Forall_forall in IH, Hch |- *. intros v Hv. destruct (Hch v Hv) as [? ?].
      apply IH; [done|done|]. unfold MAX_NESTING_DEPTH in *. lia.
    + eapply parses_bind_nil; [apply (parses_lift _ l)|apply parses_ret].
      enough (canonical_list_new l = Ok l) as -> by done.
      apply canonical_list_new_ok. split_and!; [done|done|].
      cbn [nesting_depth] in Hmax. lia.
  - assert (encodable (VRecord fs) (Z.of_nat 32 - Z.of_nat levels)) as He
      by (split; [done|unfold MAX_NESTING_DEPTH; lia]).
    pose proof (encodable_record _ _ He) as (Hlen & Hs & Hch).
    cbn [ser]. payload.
    eapply parses_bind; [by apply (parses_count CRecord)|]. rewrite to_nat_zlen.
    eapply parses_last; [apply parses_fields; [|done|done|]|apply parses_ret].
    + unfold value_wf in Hwf. cbn in Hwf. apply andb_true_iff in Hwf as [Hwf _].
      apply andb_true_iff in Hwf as [Hwf _]. by apply andb_true_iff in Hwf as [_ ?].
    + rewrite Forall_forall in IH, Hch |- *. intros v Hv. destruct (Hch v Hv) as [? ?].
      apply IH; [done|done|]. unfold MAX_NESTING_DEPTH in *. lia.
Qed.

(** ** Whatever the decoder accepts is canonical *)
Lemma inverts_bounded kind :
  inverts (decode_bounded_bytes kind)
    (fun b a => b = be_bytes 4 (zlen a) ++ a /\ zlen a <= bounded_maximum kind).
Proof.
  unfold decode_bounded_bytes. eapply inverts_weaken; [inv_steps|]. cbn. intros bb a H.
  split_parse. split; [done|lia].
Qed.

Lemma inverts_count kind :
  inverts (read_collection_count kind)
    (fun b n => b = be_bytes 4 n /\ 0 <= n <= collection_maximum kind).
Proof.
  unfold read_collection_count. eapply inverts_weaken; [inv_steps|]. cbn. intros bb a H.
  split_parse. unfold u_range in *. split; [done|lia].
Qed.

Lemma inverts_values dec Q n :
  inverts dec (fun b v => b = ser v /\ Q v) ->
  inverts (decode_values dec n)
    (fun b l => b = concat (map ser l) /\ Forall Q l /\ length l = n).
Proof.
  intros Hd. induction n as [|n IH]; cbn [decode_values].
  - eapply inverts_weaken; [apply inverts_ret|]. cbn. intros b l [-> ->]. done.
  - eapply inverts_weaken.
    { eapply inverts_bind; [exact Hd|intros]. eapply inverts_bind; [exact IH|intros]. inv_leaf. }
    cbn. intros bb l H. split_parse. split_and!; [done|by constructor|cbn; lia].
Qed.

Lemma inverts_fields dec Q previous n :
  inverts dec (fun b v => b = ser v /\ Q v) ->
  inverts (decode_fields dec previous n)
    (fun b fs => b = concat (map (fun f => be_bytes 4 (fst f) ++ ser (snd f)) fs) /\
       Forall (fun f => Q (snd f)) fs /\ length fs = n /\
       forallb nonzero_u32b (map fst fs) = true /\ strictly_increasing (map fst fs) = true /\
       (forall k fs', fs = k :: fs' -> out_of_order previous (fst k) = false)).
Proof.
  intros Hd. revert previous. induction n as [|n IH]; intros previous; cbn [decode_fields].
  - eapply inverts_weaken; [apply inverts_ret|]. cbn. intros b l [-> ->]. split_and!; done.
  - eapply inverts_weaken.
    { do 3 (eapply inverts_bind; [inv_leaf|intros ? ? ?; cbv beta in *]).
      eapply inverts_bind; [exact Hd|intros]. eapply inverts_bind; [apply IH|intros]. inv_leaf. }
    cbn. intros bb fs H. split_parse.
    unfold nonzero_id_new, u_range in *.
    match goal with H : ok_or (if ?k =? 0 then _ else _) _ = Ok _ |- _ =>
      destruct (Z.eqb_spec k 0) as [|Hk0]; [done|]; injection H as <- end.
    cbn [map concat fst snd forallb]. split_and!.
    + done.
    + by constructor.
    + cbn. lia.
    + apply andb_true_iff. split; [unfold nonzero_u32b; lia|done].
    + match goal with Ho : forall k fs', ?fs = k :: fs' -> _ |- context [map fst ?fs] =>
        destruct fs as [|[k1 v1] fs1]; [done|]; pose proof (Ho _ _ eq_refl) as Hord end.
      cbn in Hord |- *. apply andb_true_iff. split; [lia|done].
    + by intros k fs' [= <- <-].
Qed.

Lemma inverts_components i n :
  inverts (decode_components i n)
    (fun b l => b = concat (map (be_bytes 4) l) /\ forallb f32_canonicalb l = true /\ length l = n).
Proof.
  revert i. induction n as [|n IH]; intros i; cbn [decode_components].
  - eapply inverts_weaken; [apply inverts_ret|]. cbn. intros b l [-> ->]. done.
  - eapply inverts_weaken.
    { do 2 (eapply inverts_bind; [inv_leaf|intros ? ? ?; cbv beta in *]).
      eapply inverts_bind; [apply IH|intros]. inv_leaf. }
    cbn. intros bb l H. split_parse.
    match goal with H : _ || _ = false |- _ => apply orb_false_iff in H as [Hf Hz] end.
    cbn [map concat forallb]. split_and!; [done| |cbn; lia].
    apply andb_true_iff. split; [|done]. apply f32_canonical_bits.
    split_and!; [done|by apply negb_false_iff|by apply Z.eqb_neq].
Qed.

Lemma children_depth l n :
  Forall (fun d => 0 <= d < n) l -> 0 <= n -> max_succ l <= n.
Proof.
  intros Hl Hn. destruct l as [|x l']; [done|].
  pose proof (Forall_inv Hl) as Hx. cbv beta in Hx.
  replace n with ((n - 1) + 1) by lia. apply max_succ_le; [lia|].
  eapply Forall_impl; [exact Hl|]. cbv beta. lia.
Qed.

Definition accepted (levels : nat) (b : list byte) (v : CanonicalValue) : Prop :=
  b = ser v /\ value_wf v /\ nesting_depth v < Z.of_nat levels.

Ltac inv_hook ::=
  first [apply inverts_decimal | apply inverts_bounded | apply inverts_count
        | apply inverts_values; eassumption | apply inverts_fields; eassumption
        | apply inverts_components].

Lemma nonzero_id_ok {E} raw (e : E) x :
  u_range (8 * Z.of_nat 4) raw -> ok_or (nonzero_id_new raw) e = Ok x ->
  x = raw /\ nonzero_u32b raw = true.
Proof.
  unfold nonzero_id_new, u_range, nonzero_u32b. cbn. intros Hr.
  destruct (Z.eqb_spec raw 0); [done|]. intros [= ->]. split; [done|lia].
Qed.

Lemma currency_new_bytes bytes c :
  currency_new bytes = Ok c -> bytes = currency_as_bytes c /\
  forallb is_ascii_uppercase (currency_as_bytes c) = true.
Proof.
  unfold currency_new. intros H. destruct bytes as [|b0 [|b1 [|b2 [|]]]]; try done.
  destruct (forallb _ _) eqn:E in H; [|done]. injection H as <-. done.
Qed.

Lemma accepted_leaf levels b v :
  nesting_depth v = 0 -> b = ser v -> value_wf v -> accepted (S levels) b v.
Proof. intros Hd ? ?. split_and!; [done|done|lia]. Qed.

Lemma accepted_list levels l :
  (levels <= 32)%nat -> zlen l <= MAX_LIST_ENTRIES ->
  Forall (fun v => value_wf v /\ nesting_depth v < Z.of_nat levels) l ->
  accepted (S levels) (ser (VList l)) (VList l).
Proof.
  intros Hlev Hlen Hl.
  assert (max_succ (map nesting_depth l) <= Z.of_nat levels) as Hd.
  { apply children_depth; [|lia]. apply Forall_map. eapply Forall_impl; [exact Hl|]. cbv beta.
    intros v [_ Hv]. pose proof (nesting_depth_nonneg v). cbv beta. lia. }
  split_and!; [done| |cbn [nesting_depth]; lia].
  unfold value_wf. cbn [value_wfb]. unfold MAX_NESTING_DEPTH. rewrite !andb_true_iff.
  split_and!; [lia|lia|]. apply forallb_forall. rewrite Forall_forall in Hl.
  intros v Hv. apply Hl. by apply list_elem_of_In.
Qed.

Lemma accepted_record levels fs :
  (levels <= 32)%nat -> zlen fs <= MAX_RECORD_FIELDS ->
  Forall (fun f => value_wf (snd f) /\ nesting_depth (snd f) < Z.of_nat levels) fs ->
  forallb nonzero_u32b (map fst fs) = true -> strictly_increasing (map fst fs) = true ->
  accepted (S levels) (ser (VRecord fs)) (VRecord fs).
Proof.
  intros Hlev Hlen Hl Hn Hs.
  assert (max_succ (map (fun f => nesting_depth (snd f)) fs) <= Z.of_nat levels) as Hd.
  { apply children_depth; [|lia]. apply Forall_map. eapply Forall_impl; [exact Hl|]. cbv beta.
    intros v [_ Hv]. pose proof (nesting_depth_nonneg (snd v)). cbv beta. lia. }
  split_and!; [done| |cbn [nesting_depth]; lia].
  unfold value_wf. cbn [value_wfb]. unfold MAX_NESTING_DEPTH. rewrite !andb_true_iff.
  split_and!; [lia|lia|done|done|]. apply forallb_forall. rewrite Forall_forall in Hl.
  intros v Hv. apply Hl. by apply list_elem_of_In.
Qed.

Ltac inv_payload :=
  eapply inverts_weaken; [inv_steps|]; cbv beta; intros bb v H; split_parse;
  repeat match goal with H : map_err _ _ = Ok _ |- _ => apply map_err_ok in H end.

Lemma inverts_payload levels tag :
  (levels <= 32)%nat -> inverts (decode_value levels) (accepted levels) ->
  inverts (decode_payload (decode_value levels) tag)
    (fun b v => accepted (S levels) (CANONICAL_VALUE_VERSION :: tag :: b) v).
Proof.
  intros Hlev IH.
  set (Q := fun v => value_wf v /\ nesting_depth v < Z.of_nat levels).
  change (inverts (decode_value levels) (fun b v => b = ser v /\ Q v)) in IH.
  destruct tag; try apply inverts_raise; cbn [decode_payload].
  - inv_payload. by apply accepted_leaf.
  - eapply inverts_weaken.
    { eapply inverts_bind; [inv_leaf|]. cbv beta. intros b a ->.
      instantiate (1 := fun b a b' v => b' = [] /\
        ((a = Byte.x00 /\ v = VBool false) \/ (a = Byte.x01 /\ v = VBool true))).
      destruct a; try apply inverts_raise; (eapply inverts_weaken; [apply inverts_ret|]); naive_solver. }
    cbv beta. intros bb v H. split_parse.
    destruct_or!; split_parse; by apply accepted_leaf.
  - inv_payload. apply accepted_leaf; [done|done|by apply i_inb_spec].
  - inv_payload. apply accepted_leaf; [done|done|by apply u_inb_spec].
  - inv_payload. apply accepted_leaf; [done|done|by apply decimal_wfb_spec].
  - inv_payload. match goal with H : currency_new _ = Ok _ |- _ => apply currency_new_bytes in H as [-> Hc] end.
    apply accepted_leaf; [done|done|]. apply andb_true_iff. split; [done|by apply decimal_wfb_spec].
  - inv_payload. unfold canonical_string_new in *. case_match; [done|]. simplify_eq.
    apply accepted_leaf; [done|done|]. apply andb_true_iff. split; [by apply negb_false_iff|cbn in *; lia].
  - inv_payload. unfold canonical_bytes_new in *. case_match; [done|]. simplify_eq.
    apply accepted_leaf; [done|done|]. unfold value_wf. cbn in *. lia.
  - inv_payload. unfold timestamp_new in *. case_match; [done|]. simplify_eq.
    apply accepted_leaf; [done|done|]. unfold u_range in *.
    apply andb_true_iff. rewrite andb_true_iff. split_and!; [by apply i_inb_spec|cbn; lia|cbn; lia].
  - inv_payload. apply accepted_leaf; [done|done|by apply i_inb_spec].
  - inv_payload. apply accepted_leaf; [done|done|]. unfold value_wf. cbn. lia.
  - inv_payload.
    repeat match goal with H : ok_or _ _ = Ok _ |- _ => apply nonzero_id_ok in H as [-> ?]; [|done] end.
    apply accepted_leaf; [done|done|]. by apply andb_true_iff.
  - inv_payload.
    match goal with H : canonical_list_new _ = Ok _ |- _ => apply canonical_list_new_ok in H as (-> & ? & ?) end.
    match goal with Hl : length ?l = Z.to_nat ?n |- _ =>
      replace n with (zlen l) by (unfold zlen; lia) end.
    by apply accepted_list.
  - inv_payload.
    match goal with Hl : length ?l = Z.to_nat ?n |- _ =>
      replace n with (zlen l) in * by (unfold zlen; lia) end.
    apply accepted_record; [done| |done|done|done]. cbn in *. lia.
  - inv_payload. unfold u_range in *.
    match goal with Hl : length ?l = Z.to_nat ?n |- _ =>
      replace n with (zlen l) in * by (unfold zlen; lia) end.
    match goal with H : canonical_vector_new ?l = Ok _, H' : forallb _ ?l = true |- _ =>
      rename H into Hv; rename H' into Hf; pose proof (canonicalize_id 0 l Hf) as Hc end.
    unfold canonical_vector_new in Hv. rewrite Hc in Hv. case_match; [done|]. injection Hv as <-.
    apply accepted_leaf; [done|done|]. unfold value_wf. cbn [value_wfb].
    unfold vector_wfb. rewrite !andb_true_iff. split_and!; [lia|lia|done].
Qed.

Lemma inverts_value levels :
  (levels <= 33)%nat -> inverts (decode_value levels) (accepted levels).
Proof.
  induction levels as [|levels IH]; intros Hlev; cbn [decode_value]; [apply inverts_raise|].
  eapply inverts_weaken.
  { do 3 (eapply inverts_bind; [inv_leaf|intros ? ? ?; cbv beta in *]).
    apply inverts_payload; [lia|]. apply IH. lia. }
  cbv beta. intros bb v H. split_parse.
  match goal with H : negb (bool_decide _) = false |- _ =>
    apply negb_false_iff, bool_decide_eq_true in H as -> end.
  done.
Qed.

(** ** The isomorphism *)
Lemma decode_of_value v :
  value_wf v -> zlen (ser v) <= MAX_CANONICAL_DOCUMENT_BYTES ->
  decode_canonical_value (ser v) = Ok v.
Proof.
  intros Hwf Hs. unfold decode_canonical_value.
  destruct (Z.ltb_spec MAX_CANONICAL_DOCUMENT_BYTES (zlen (ser v))); [lia|].
  pose proof (value_wf_encodable _ Hwf) as [_ Hd].
  assert (parses (decode_value root_levels) (ser v) v) as Hp
    by (apply parses_value; [done|change (Z.of_nat root_levels) with 33;
                                  unfold MAX_NESTING_DEPTH in Hd; lia]).
  specialize (Hp [] []). rewrite app_nil_r in Hp. cbn [app] in Hp.
  change (mkDecoder (ser v) 0) with (at_split [] (ser v)).
  rewrite Hp by (unfold zlen, usize_max, MAX_CANONICAL_DOCUMENT_BYTES in *; cbn; lia).
  cbn [at_split dec_position]. by rewrite Z.eqb_refl.
Qed.

(** The grammar is unambiguous. *)
Lemma ser_inj v w :
  value_wf v -> value_wf w -> zlen (ser v) <= usize_max -> ser v = ser w -> v = w.
Proof.
  intros Hv Hw Hs E.
  assert (forall x, value_wf x -> parses (decode_value root_levels) (ser x) x) as Hp.
  { intros x Hx. pose proof (value_wf_encodable _ Hx) as [_ Hd].
    apply parses_value; [done|]. change (Z.of_nat root_levels) with 33.
    unfold MAX_NESTING_DEPTH in Hd. lia. }
  pose proof (Hp v Hv [] []) as Pv. pose proof (Hp w Hw [] []) as Pw.
  rewrite !zlen_nil in Pv, Pw. rewrite <- E in Pw.
  specialize (Pv ltac:(lia)). specialize (Pw ltac:(lia)). congruence.
Qed.

Lemma decode_canonical_sound input v :
  decode_canonical_value input = Ok v ->
  input = ser v /\ value_wf v /\ zlen input <= MAX_CANONICAL_DOCUMENT_BYTES.
Proof.
  unfold decode_canonical_value.
  destruct (Z.ltb_spec MAX_CANONICAL_DOCUMENT_BYTES (zlen input)); [done|].
  change (mkDecoder input 0) with (at_split [] input).
  destruct (decode_value root_levels (at_split [] input)) as [s [v'|e]] eqn:E; [|done].
  apply (inverts_value root_levels ltac:(vm_compute; lia)) in E as (b & r & -> & -> & -> & Hwf & _).
  cbn [app at_split dec_position]. rewrite zlen_app.
  destruct (Z.eqb_spec (zlen (ser v')) (zlen (ser v') + zlen r)) as [Hr|]; cbn; [|done].
  intros [= ->]. assert (r = []) as -> by (destruct r; [done|]; unfold zlen in Hr; cbn in Hr; lia).
  rewrite app_nil_r in *. split_and!; [done|done|lia].
Qed.

(** C7. Encoding then decoding is the identity: every well-formed value whose
    encoding fits the document bound decodes back to itself. *)
Theorem encode_decode_roundtrip v :
  value_wf v ->
  match encode_canonical_value v with
  | Ok b => decode_canonical_value b = Ok v
  | Err e => MAX_CANONICAL_DOCUMENT_BYTES < zlen (ser v)
  end.
Proof.
  intros Hwf. pose proof (encode_canonical_value_exact v Hwf) as H.
  destruct (encode_canonical_value v) as [b|e]; [|by destruct H].
  destruct H as [-> Hs]. by apply decode_of_value.
Qed.

(** C8. The decoder accepts only canonical bytes: what it accepts is a
    well-formed value whose encoding is the input, byte for byte.  Distinct
    durable byte strings therefore never decode to equal values. *)
Theorem decode_encode_canonical input v :
  decode_canonical_value input = Ok v ->
  value_wf v /\ encode_canonical_value v = Ok input.
Proof.
  intros (-> & Hwf & Hs)%decode_canonical_sound. split; [done|].
  pose proof (encode_canonical_value_exact v Hwf) as H.
  destruct (encode_canonical_value v) as [b|e]; [by destruct H as [-> _]|destruct H; lia].
Qed.

(** A document with every container kind, used to exercise the theorems. *)
Definition sample_value : CanonicalValue :=
  VRecord [(1, VU64 42); (3, VList [VBool true; VI64 (-9); VDecimal (mkDecimal (mkDecimalSpec 5 2) 1234)]);
           (7, VString [Byte.x6f; Byte.xc3; Byte.xa9]); (9, VVector [1065353216; 0])].

Lemma encode_decode_roundtrip_witness :
  match encode_canonical_value sample_value with
  | Ok b => decode_canonical_value b = Ok sample_value
  | Err e => MAX_CANONICAL_DOCUMENT_BYTES < zlen (ser sample_value)
  end.
Proof. apply (encode_decode_roundtrip sample_value). vm_compute. reflexivity. Defined.

Lemma decode_encode_canonical_witness :
  value_wf (VList [VBool true]) /\
  encode_canonical_value (VList [VBool true]) =
    Ok [Byte.x01; Byte.x0c; Byte.x00; Byte.x00; Byte.x00; Byte.x01; Byte.x01; Byte.x01; Byte.x01].
Proof. apply decode_encode_canonical. vm_compute. reflexivity. Defined.
