(* ===== verification/Key.v ===== *)
(** * Durable keys

    [riffdb-types/src/key.rs] (the four purpose-specific key builders) and the
    key types of [riffdb-types/src/ids.rs] (envelope validation, event ids and
    UUIDv7 assembly).  A builder is its byte buffer; every [push_*] method is a
    computation in [SE KeyBuilder KeyEncodingError].

    The theorems: a failing push leaves the buffer as it was and the buffer
    never exceeds [MAX_KEY_BYTES]; byte order of composite keys is the order of
    their components; builders and validators agree and the four purposes are
    disjoint; a non-terminated prefix matches exactly the values it prefixes. *)

From S2P Require Import Prelude Value.
From stdpp Require Import list.

Local Open Scope Z_scope.

(** ** [KeyBuilder] *)
Record KeyBuilder := mkKeyBuilder { kb_bytes : list byte }.

Inductive KeyEncodingError :=
  | TooLong (actual maximum : Z)
  | ComponentTooLong (actual maximum : Z).

Definition KB : Type -> Type := SE KeyBuilder KeyEncodingError.

#[export] Instance KB_ret : MRet KB := SE_ret _ _.
#[export] Instance KB_bind : MBind KB := SE_bind _ _.

Definition key_builder_new (prefix type_id : list byte) : KeyBuilder :=
  mkKeyBuilder (prefix ++ type_id).

Definition ensure_additional (additional : Z) : KB unit := fun s =>
  match usize_checked_add (zlen (kb_bytes s)) additional with
  | None => (s, Err (TooLong usize_max MAX_KEY_BYTES))
  | Some actual =>
      if MAX_KEY_BYTES <? actual then (s, Err (TooLong actual MAX_KEY_BYTES)) else (s, Ok tt)
  end.

(** [self.bytes.extend_from_slice(bytes)] *)
Definition extend (bytes : list byte) : KB unit := fun s =>
  (mkKeyBuilder (kb_bytes s ++ bytes), Ok tt).

Definition push_fixed (bytes : list byte) : KB unit :=
  _ ← ensure_additional (zlen bytes);
  extend bytes.

Definition push_bytes (bytes : list byte) : KB unit :=
  length ← lift (ok_or (u_checked 32 (zlen bytes)) (ComponentTooLong (zlen bytes) (2 ^ 32 - 1)));
  additional ← lift (ok_or (usize_checked_add 4 (zlen bytes)) (TooLong usize_max MAX_KEY_BYTES));
  _ ← ensure_additional additional;
  _ ← extend (be_bytes 4 length);
  extend bytes.

Definition is_zero_byte (b : byte) : bool := byte_to_Z b =? 0.

Definition count_zeros (bytes : list byte) : Z := zlen (filter (fun b => is_zero_byte b = true) bytes).

(** The body of the loop over the bytes of an ordered component. *)
Definition push_escaped (b : byte) : KB unit :=
  if is_zero_byte b then extend [Byte.x00; Byte.xff] else extend [b].

Definition push_ordered_bytes (bytes : list byte) (terminated : bool) : KB unit :=
  additional ← lift (ok_or
    (value ← usize_checked_add (zlen bytes) (count_zeros bytes);
     usize_checked_add value (if terminated then 2 else 0))
    (TooLong usize_max MAX_KEY_BYTES));
  _ ← ensure_additional additional;
  _ ← for_each push_escaped bytes;
  if terminated then extend [Byte.x00; Byte.x00] else mret tt.

(** ** The component methods shared by the four builders *)

(** [bytes[0] ^= 0x80] *)
Definition flip_sign (bytes : list byte) : list byte :=
  match bytes with
  | [] => []
  | b :: rest => Z_to_byte (Z.lxor (byte_to_Z b) 128) :: rest
  end.

Definition push_bool (value : bool) : KB unit := push_fixed [if value then Byte.x01 else Byte.x00].
Definition push_u32 (value : Z) : KB unit := push_fixed (be_bytes 4 value).
Definition push_u64 (value : Z) : KB unit := push_fixed (be_bytes 8 value).
Definition push_i32 (value : Z) : KB unit := push_fixed (flip_sign (be_bytes 4 value)).
Definition push_i64 (value : Z) : KB unit := push_fixed (flip_sign (be_bytes 8 value)).
Definition push_timestamp (value : Timestamp) : KB unit :=
  push_fixed (flip_sign (be_bytes 8 (ts_seconds value)) ++ be_bytes 4 (ts_nanoseconds value)).
Definition push_date (days : Z) : KB unit := push_fixed (flip_sign (be_bytes 4 days)).
Definition push_enum_variant (value : Z) : KB unit := push_fixed (be_bytes 4 value).
Definition push_uuid (value : list byte) : KB unit := push_fixed value.
Definition push_str (value : list byte) : KB unit := push_bytes value.
Definition push_ordered (value : list byte) : KB unit := push_ordered_bytes value true.
Definition push_ordered_bytes_prefix (value : list byte) : KB unit := push_ordered_bytes value false.

(** ** Key types and their envelope *)
Definition ENTITY_KEY_V1_PREFIX : list byte := [Byte.x45; Byte.x01].
Definition CONFLICT_KEY_V1_PREFIX : list byte := [Byte.x43; Byte.x01].
Definition PARTITION_KEY_V1_PREFIX : list byte := [Byte.x50; Byte.x01].
Definition INDEX_ENTRY_KEY_V1_PREFIX : list byte := [Byte.x49; Byte.x01].
Definition TYPED_KEY_ENVELOPE_BYTES : Z := 6.
Definition INDEX_ENTRY_KEY_MIN_BYTES : Z := TYPED_KEY_ENVELOPE_BYTES + 4 + TYPED_KEY_ENVELOPE_BYTES.

Inductive KeyBytesError :=
  | KeyTooLong (actual maximum : Z)
  | KeyTooShort (actual minimum : Z)
  | WrongPurpose (expected actual : byte)
  | UnsupportedKeyVersion (version : byte)
  | ZeroTypeIdentity.

(** [bounded_key!::new] for a purpose prefix and a minimum length.  The minimum
    is at least six, so the source's indexing below is in range. *)
Definition bounded_key_new (prefix : list byte) (minimum : Z) (bytes : list byte)
    : result KeyBytesError (list byte) :=
  if MAX_KEY_BYTES <? zlen bytes then Err (KeyTooLong (zlen bytes) MAX_KEY_BYTES)
  else if zlen bytes <? minimum then Err (KeyTooShort (zlen bytes) minimum)
  else match prefix, bytes with
  | p0 :: p1 :: _, b0 :: b1 :: rest =>
      if negb (bool_decide (b0 = p0)) then Err (WrongPurpose p0 b0)
      else if negb (bool_decide (b1 = p1)) then Err (UnsupportedKeyVersion b1)
      else if bool_decide (take 4 rest = replicate 4 Byte.x00) then Err ZeroTypeIdentity
      else Ok bytes
  | _, _ => Err (KeyTooShort (zlen bytes) minimum)
  end.

(** [$type_id_method]: the identity in the envelope; [None] is the source's
    [expect] panic. *)
Definition key_type_id (bytes : list byte) : option Z :=
  nonzero_id_new (be_value (take 4 (drop 2 bytes))).

(** The builders: each starts from its purpose prefix and owner id. *)
Definition entity_key_builder_new (entity_type : Z) : KeyBuilder :=
  key_builder_new ENTITY_KEY_V1_PREFIX (be_bytes 4 entity_type).
Definition conflict_key_builder_new (aggregate_type : Z) : KeyBuilder :=
  key_builder_new CONFLICT_KEY_V1_PREFIX (be_bytes 4 aggregate_type).
Definition partition_key_builder_new (aggregate_type : Z) : KeyBuilder :=
  key_builder_new PARTITION_KEY_V1_PREFIX (be_bytes 4 aggregate_type).
Definition index_entry_key_builder_new (index : Z) : KeyBuilder :=
  key_builder_new INDEX_ENTRY_KEY_V1_PREFIX (be_bytes 4 index).

(** [finish] of the entity, conflict and partition builders. *)
Definition key_finish (s : KeyBuilder) : result KeyEncodingError (list byte) := Ok (kb_bytes s).

(** [IndexEntryKeyBuilder::finish] appends the entity key, length first. *)
Definition index_entry_finish (s : KeyBuilder) (entity_key : list byte)
    : result KeyEncodingError (list byte) :=
  match push_bytes entity_key s with
  | (s', Ok _) => Ok (kb_bytes s')
  | (_, Err e) => Err e
  end.

(** ** Event ids *)
Record EventId := mkEventId { ev_commit_sequence : Z; ev_event_ordinal : Z }.

Definition event_id_to_be_bytes (e : EventId) : list byte :=
  be_bytes 8 (ev_commit_sequence e) ++ be_bytes 4 (ev_event_ordinal e).

Definition event_id_from_be_bytes (bytes : list byte) : option EventId :=
  match nonzero_id_new (be_value (take 8 bytes)) with
  | None => None
  | Some commit_sequence => Some (mkEventId commit_sequence (be_value (drop 8 bytes)))
  end.

(** ** UUIDv7 *)
Definition UUID_V7_MAX_UNIX_MILLISECONDS : Z := 16 ^ 12 - 1.

Inductive UuidV7Error := InvalidVariant | InvalidVersion.
Inductive UuidV7ConstructionError := UnixMillisecondsOutOfRange.

Definition byte_at (l : list byte) (i : nat) : Z := byte_to_Z (nth i l Byte.x00).

Definition assemble_uuid_v7 (unix_milliseconds : Z) (random : list byte)
    : result UuidV7ConstructionError (list byte) :=
  if UUID_V7_MAX_UNIX_MILLISECONDS <? unix_milliseconds then Err UnixMillisecondsOutOfRange
  else
    let timestamp := be_bytes 8 unix_milliseconds in
    Ok (take 6 (drop 2 timestamp) ++
        [Z_to_byte (Z.lor 0x70 (Z.land (byte_at random 0) 0x0f)); nth 1 random Byte.x00;
         Z_to_byte (Z.lor 0x80 (Z.land (byte_at random 2) 0x3f))] ++
        take 7 (drop 3 random)).

Definition validate_uuid_v7 (bytes : list byte) : result UuidV7Error unit :=
  if negb (Z.land (byte_at bytes 8) 0xc0 =? 0x80) then Err InvalidVariant
  else if negb (Z.shiftr (byte_at bytes 6) 4 =? 7) then Err InvalidVersion
  else Ok tt.

(** ** Components

    A key is described by the list of its components: what is pushed, the
    bytes it should contribute, and the order those bytes should have. *)
Inductive Component :=
  | CBool (value : bool)
  | CU32 (value : Z)
  | CU64 (value : Z)
  | CI32 (value : Z)
  | CI64 (value : Z)
  | CTimestamp (value : Timestamp)
  | CDate (days : Z)
  | CEnumVariant (value : Z)
  | CUuid (value : list byte)
  | CBytes (value : list byte)
  | CStr (value : list byte)
  | COrderedBytes (value : list byte).

Definition push_component (c : Component) : KB unit :=
  match c with
  | CBool v => push_bool v
  | CU32 v => push_u32 v
  | CU64 v => push_u64 v
  | CI32 v => push_i32 v
  | CI64 v => push_i64 v
  | CTimestamp v => push_timestamp v
  | CDate v => push_date v
  | CEnumVariant v => push_enum_variant v
  | CUuid v => push_uuid v
  | CBytes v => push_bytes v
  | CStr v => push_str v
  | COrderedBytes v => push_ordered v
  end.

Definition component_wf (c : Component) : bool :=
  match c with
  | CBool _ => true
  | CU32 v | CEnumVariant v => u_inb 32 v
  | CU64 v => u_inb 64 v
  | CI32 v | CDate v => i_inb 32 v
  | CI64 v => i_inb 64 v
  | CTimestamp v => timestamp_wfb v
  | CUuid v => zlen v =? 16
  | CBytes v | CStr v => u_inb 32 (zlen v)
  | COrderedBytes _ => true
  end.

Definition same_kind (a b : Component) : bool :=
  match a, b with
  | CBool _, CBool _ | CU32 _, CU32 _ | CU64 _, CU64 _ | CI32 _, CI32 _ | CI64 _, CI64 _
  | CTimestamp _, CTimestamp _ | CDate _, CDate _ | CEnumVariant _, CEnumVariant _
  | CUuid _, CUuid _ | CBytes _, CBytes _ | CStr _, CStr _ | COrderedBytes _, COrderedBytes _ => true
  | _, _ => false
  end.

(** Exact byte and text components sort by length first, ordered bytes sort as
    byte strings, everything else by value. *)
Definition component_cmp (a b : Component) : comparison :=
  match a, b with
  | CBool x, CBool y => Z.b2z x ?= Z.b2z y
  | CU32 x, CU32 y | CU64 x, CU64 y | CI32 x, CI32 y | CI64 x, CI64 y
  | CDate x, CDate y | CEnumVariant x, CEnumVariant y => x ?= y
  | CTimestamp x, CTimestamp y => timestamp_cmp x y
  | CUuid x, CUuid y | COrderedBytes x, COrderedBytes y => lex x y
  | CBytes x, CBytes y | CStr x, CStr y => then_compare (zlen x ?= zlen y) (lex x y)
  | _, _ => Eq
  end.

Fixpoint components_cmp (a b : list Component) : comparison :=
  match a, b with
  | x :: a', y :: b' => then_compare (component_cmp x y) (components_cmp a' b')
  | _, _ => Eq
  end.

Definition escape_byte (b : byte) : list byte :=
  if is_zero_byte b then [Byte.x00; Byte.xff] else [b].

Definition escape (l : list byte) : list byte := concat (map escape_byte l).

Definition component_bytes (c : Component) : list byte :=
  match c with
  | CBool v => [if v then Byte.x01 else Byte.x00]
  | CU32 v | CEnumVariant v => be_bytes 4 v
  | CU64 v => be_bytes 8 v
  | CI32 v | CDate v => be_bytes 4 (v + 2 ^ 31)
  | CI64 v => be_bytes 8 (v + 2 ^ 63)
  | CTimestamp v => be_bytes 8 (ts_seconds v + 2 ^ 63) ++ be_bytes 4 (ts_nanoseconds v)
  | CUuid v => v
  | CBytes v | CStr v => be_bytes 4 (zlen v) ++ v
  | COrderedBytes v => escape v ++ [Byte.x00; Byte.x00]
  end.

Definition components_bytes (cs : list Component) : list byte := concat (map component_bytes cs).

(** [m] appends exactly [bs] when the result fits and otherwise fails with the
    builder as it was. *)
Definition appends (m : KB unit) (bs : list byte) : Prop := forall s,
  if zlen (kb_bytes s) + zlen bs <=? MAX_KEY_BYTES
  then m s = (mkKeyBuilder (kb_bytes s ++ bs), Ok tt)
  else exists e, m s = (s, Err e).

(** ** A push appends its bytes or does nothing *)
Lemma ensure_additional_spec n s :
  0 <= n ->
  if zlen (kb_bytes s) + n <=? MAX_KEY_BYTES
  then ensure_additional n s = (s, Ok tt)
  else exists e, ensure_additional n s = (s, Err e).
Proof.
  intros Hn. pose proof (zlen_nonneg (kb_bytes s)). unfold ensure_additional, usize_checked_add.
  destruct (u_checked 64 _) as [a|] eqn:E.
  - apply u_checked_Some in E as [-> _].
    destruct (Z.leb_spec (zlen (kb_bytes s) + n) MAX_KEY_BYTES),
      (Z.ltb_spec MAX_KEY_BYTES (zlen (kb_bytes s) + n)); lia || eauto.
  - apply u_checked_None in E. unfold u_range, MAX_KEY_BYTES in *.
    destruct (Z.leb_spec (zlen (kb_bytes s) + n) 4096); [lia|eauto].
Qed.

Lemma appends_ensure m n bs :
  n = zlen bs -> (forall s, m s = (mkKeyBuilder (kb_bytes s ++ bs), Ok tt)) ->
  appends (_ ← ensure_additional n; m) bs.
Proof.
  intros -> Hm s. pose proof (ensure_additional_spec _ s (zlen_nonneg bs)) as H.
  unfold mbind, KB_bind, SE_bind. destruct (_ <=? _); [|destruct H as [e H]; exists e];
    rewrite H; [apply Hm|done].
Qed.

Lemma appends_lift {A} (r : result KeyEncodingError A) (k : A -> KB unit) bs :
  (forall a, r = Ok a -> appends (k a) bs) ->
  (forall e, r = Err e -> MAX_KEY_BYTES < zlen bs) ->
  appends (a ← lift r; k a) bs.
Proof.
  intros Ha He. destruct r as [a|e]; [by apply Ha|]. intros s.
  pose proof (He e eq_refl). pose proof (zlen_nonneg (kb_bytes s)).
  destruct (Z.leb_spec (zlen (kb_bytes s) + zlen bs) MAX_KEY_BYTES); [lia|]. by exists e.
Qed.

Lemma appends_fixed bs : appends (push_fixed bs) bs.
Proof. by apply appends_ensure. Qed.

Lemma checked_add_err {E} a b (e e' : E) (bs : list byte) :
  ok_or (usize_checked_add a b) e = Err e' -> 0 <= a -> 0 <= b -> a + b <= zlen bs ->
  MAX_KEY_BYTES < zlen bs.
Proof.
  unfold usize_checked_add. destruct (u_checked 64 (a + b)) eqn:E'; [done|].
  apply u_checked_None in E'. unfold u_range, MAX_KEY_BYTES in *. lia.
Qed.

Lemma appends_bytes bs : appends (push_bytes bs) (be_bytes 4 (zlen bs) ++ bs).
Proof.
  pose proof (zlen_nonneg bs). unfold push_bytes.
  apply appends_lift; [intros n Hn|intros e He].
  - destruct (u_checked 32 (zlen bs)) eqn:E; [|done]. injection Hn as <-.
    apply u_checked_Some in E as [-> _].
    apply appends_lift; [intros m Hm|intros e He].
    + unfold usize_checked_add in Hm. destruct (u_checked 64 _) eqn:E; [|done]. injection Hm as <-.
      apply u_checked_Some in E as [-> _].
      apply appends_ensure; [by rewrite zlen_app, zlen_be_bytes|].
      intros s. unfold mbind, KB_bind, SE_bind, extend. cbn [kb_bytes]. by rewrite app_assoc.
    + apply (checked_add_err _ _ _ _ _ He); [lia|lia|]. rewrite zlen_app, zlen_be_bytes. lia.
  - destruct (u_checked 32 (zlen bs)) eqn:E; [done|]. apply u_checked_None in E.
    unfold u_range, MAX_KEY_BYTES in *. rewrite zlen_app, zlen_be_bytes. lia.
Qed.

Lemma zlen_escape l : zlen (escape l) = zlen l + count_zeros l.
Proof.
  unfold count_zeros. induction l as [|b l IH]; [done|]. unfold escape in *.
  cbn [map concat]. rewrite zlen_app, IH, filter_cons. unfold escape_byte.
  case_decide as Hb; destruct (is_zero_byte b); try done; rewrite ?zlen_cons; unfold zlen; cbn; lia.
Qed.

Lemma for_each_escaped l s :
  for_each push_escaped l s = (mkKeyBuilder (kb_bytes s ++ escape l), Ok tt).
Proof.
  revert s. induction l as [|b l IH]; intros s; cbn [for_each].
  - unfold escape. cbn. rewrite app_nil_r. by destruct s.
  - unfold mbind, SE_bind, push_escaped. unfold escape in *. cbn [map concat].
    rewrite app_assoc. unfold escape_byte. by destruct (is_zero_byte b); cbn; rewrite IH.
Qed.

Lemma appends_ordered l t :
  appends (push_ordered_bytes l t) (escape l ++ if t then [Byte.x00; Byte.x00] else []).
Proof.
  pose proof (zlen_nonneg l). pose proof (zlen_nonneg (filter (fun b => is_zero_byte b = true) l)) as Hz.
  fold (count_zeros l) in Hz.
  assert (zlen (escape l ++ if t then [Byte.x00; Byte.x00] else []) =
          zlen l + count_zeros l + if t then 2 else 0) as Hlen
    by (rewrite zlen_app, zlen_escape; by destruct t).
  apply appends_lift; [intros n Hn|intros e He]; unfold usize_checked_add in *; cbn in *.
  - destruct (u_checked 64 (zlen l + _)) eqn:E; [|done]. apply u_checked_Some in E as [-> _]. cbn in *.
    destruct (u_checked 64 _) eqn:E; [|done]. apply u_checked_Some in E as [-> _]. injection Hn as <-.
    apply appends_ensure; [done|]. intros s. unfold mbind, KB_bind, SE_bind.
    rewrite for_each_escaped. by destruct t; cbn; rewrite ?app_assoc, ?app_nil_r.
  - rewrite Hlen. unfold MAX_KEY_BYTES.
    destruct (u_checked 64 (zlen l + _)) eqn:E; [|apply u_checked_None in E; unfold u_range in *; destruct t; lia].
    apply u_checked_Some in E as [-> _]. cbn in *.
    destruct (u_checked 64 _) eqn:E; [done|]. apply u_checked_None in E. unfold u_range in *. destruct t; lia.
Qed.

(** Flipping the sign bit is adding half the range. *)
Lemma lxor_128 x : 0 <= x < 256 -> Z.lxor x 128 = (x + 128) mod 256.
Proof.
  intros Hx. rewrite <- (Z.mod_small x 256 Hx) at 1 2. rewrite <- byte_to_Z_to_byte.
  generalize (Z_to_byte x) as b. intros b. by destruct b.
Qed.

Lemma flip_sign_be n z :
  flip_sign (be_bytes (S n) z) = be_bytes (S n) (z + 128 * 256 ^ Z.of_nat n).
Proof.
  pose proof (pow256_pos n). cbn [be_bytes flip_sign]. f_equal.
  - rewrite byte_to_Z_to_byte, lxor_128 by (apply Z.mod_pos_bound; lia).
    rewrite Z.div_add by lia. apply byte_to_Z_inj.
    rewrite !byte_to_Z_to_byte. rewrite Z.add_mod_idemp_l, Z.mod_mod by lia. done.
  - rewrite <- (be_bytes_mod n (z + _)), Z.mod_add by lia. by rewrite be_bytes_mod.
Qed.

Lemma appends_component c : appends (push_component c) (component_bytes c).
Proof.
  destruct c; cbn [push_component component_bytes];
    try apply appends_fixed; try apply appends_bytes.
  - unfold push_i32. rewrite (flip_sign_be 3). apply appends_fixed.
  - unfold push_i64. rewrite (flip_sign_be 7). apply appends_fixed.
  - unfold push_timestamp. rewrite (flip_sign_be 7). apply appends_fixed.
  - unfold push_date. rewrite (flip_sign_be 3). apply appends_fixed.
  - apply appends_ordered.
Qed.

Lemma push_all_ok cs s s' :
  for_each push_component cs s = (s', Ok tt) ->
  kb_bytes s' = kb_bytes s ++ components_bytes cs /\
  (zlen (kb_bytes s) <= MAX_KEY_BYTES -> zlen (kb_bytes s') <= MAX_KEY_BYTES).
Proof.
  revert s. induction cs as [|c cs IH]; intros s; cbn [for_each].
  - intros [= <-]. unfold components_bytes. cbn. by rewrite app_nil_r.
  - intros (s1 & [] & H1 & H2)%SE_bind_ok. pose proof (appends_component c s) as H.
    destruct (Z.leb_spec (zlen (kb_bytes s) + zlen (component_bytes c)) MAX_KEY_BYTES);
      [|destruct H; congruence].
    rewrite H in H1. injection H1 as <-. apply IH in H2 as [-> Hb]. cbn [kb_bytes] in *.
    unfold components_bytes. cbn [map concat]. rewrite <- app_assoc. split; [done|].
    intros _. rewrite app_assoc. apply Hb. rewrite zlen_app. lia.
Qed.

(** Building a key is bounded and transactional.  Pushing components onto a
    builder succeeds exactly when the concatenated encodings fit
    [MAX_KEY_BYTES], and then the buffer is that concatenation; otherwise it
    stops at the first component that does not fit, with the buffer holding
    exactly the components before it. *)
Theorem push_components_exact cs s :
  zlen (kb_bytes s) <= MAX_KEY_BYTES ->
  if zlen (kb_bytes s) + zlen (components_bytes cs) <=? MAX_KEY_BYTES
  then for_each push_component cs s = (mkKeyBuilder (kb_bytes s ++ components_bytes cs), Ok tt)
  else exists done c rest e, cs = done ++ c :: rest /\
    for_each push_component cs s = (mkKeyBuilder (kb_bytes s ++ components_bytes done), Err e) /\
    zlen (kb_bytes s) + zlen (components_bytes done) <= MAX_KEY_BYTES <
      zlen (kb_bytes s) + zlen (components_bytes done) + zlen (component_bytes c).
Proof.
  revert s. induction cs as [|c cs IH]; intros s Hs; cbn [for_each].
  - unfold components_bytes. cbn [map concat]. rewrite app_nil_r, zlen_nil, Z.add_0_r.
    destruct (Z.leb_spec (zlen (kb_bytes s)) MAX_KEY_BYTES); [by destruct s|lia].
  - pose proof (appends_component c s) as Hc.
    assert (components_bytes (c :: cs) = component_bytes c ++ components_bytes cs) as -> by done.
    pose proof (zlen_nonneg (components_bytes cs)). rewrite zlen_app, Z.add_assoc.
    destruct (Z.leb_spec (zlen (kb_bytes s) + zlen (component_bytes c)) MAX_KEY_BYTES).
    + specialize (IH (mkKeyBuilder (kb_bytes s ++ component_bytes c))).
      cbn [kb_bytes] in IH. rewrite zlen_app in IH. specialize (IH ltac:(lia)).
      unfold mbind, SE_bind. rewrite Hc. destruct (_ <=? _).
      * by rewrite IH, app_assoc.
      * destruct IH as (done & c' & rest & e & -> & -> & Hd).
        exists (c :: done), c', rest, e. unfold components_bytes in *. cbn [map concat app].
        rewrite zlen_app, app_assoc. split_and!; [done|done|lia|lia].
    + destruct Hc as [e Hc]. destruct (Z.leb_spec (zlen (kb_bytes s) + zlen (component_bytes c) +
        zlen (components_bytes cs)) MAX_KEY_BYTES); [lia|].
      exists [], c, cs, e. unfold mbind, SE_bind. rewrite Hc. unfold components_bytes.
      cbn [map concat app]. rewrite app_nil_r, zlen_nil. split_and!; [done|by destruct s|lia|lia].
Qed.

(** ** Byte order is component order *)
Definition order_exact (x y : list byte) (c : comparison) : Prop :=
  forall s t, lex (x ++ s) (y ++ t) = then_compare c (lex s t).

Lemma order_exact_fixed x y c : length x = length y -> lex x y = c -> order_exact x y c.
Proof. intros Hl <- s t. by apply lex_app_same_length. Qed.

Lemma order_exact_int n x y :
  0 <= x < 256 ^ Z.of_nat n -> 0 <= y < 256 ^ Z.of_nat n ->
  order_exact (be_bytes n x) (be_bytes n y) (x ?= y).
Proof.
  intros Hx Hy. apply order_exact_fixed; [by rewrite !length_be_bytes|by apply lex_be_bytes].
Qed.

Lemma order_exact_offset n x y d :
  0 <= x + d < 256 ^ Z.of_nat n -> 0 <= y + d < 256 ^ Z.of_nat n ->
  order_exact (be_bytes n (x + d)) (be_bytes n (y + d)) (x ?= y).
Proof.
  intros Hx Hy. rewrite <- (Z.add_compare_mono_l d x y), !(Z.add_comm d). by apply order_exact_int.
Qed.

Lemma then_compare_assoc a b c :
  then_compare (then_compare a b) c = then_compare a (then_compare b c).
Proof. by destruct a. Qed.

Lemma then_compare_Eq_r c : then_compare c Eq = c.
Proof. by destruct c. Qed.

Lemma order_exact_app x y x' y' c c' :
  order_exact x y c -> order_exact x' y' c' ->
  order_exact (x ++ x') (y ++ y') (then_compare c c').
Proof. intros H H' s t. rewrite <- !app_assoc, H, H'. by rewrite then_compare_assoc. Qed.

Lemma order_exact_sized x y :
  u_range 32 (zlen x) -> u_range 32 (zlen y) ->
  order_exact (be_bytes 4 (zlen x) ++ x) (be_bytes 4 (zlen y) ++ y)
    (then_compare (zlen x ?= zlen y) (lex x y)).
Proof.
  intros Hx Hy s t. rewrite <- !app_assoc, (order_exact_int 4 (zlen x) (zlen y) Hx Hy).
  destruct (Z.compare_spec (zlen x) (zlen y)) as [E| |]; cbn [then_compare]; [|done|done].
  apply lex_app_same_length. unfold zlen in E. lia.
Qed.

Lemma zero_byte_eq b : is_zero_byte b = true -> b = Byte.x00.
Proof. unfold is_zero_byte. intros H. apply byte_to_Z_inj. cbn. lia. Qed.

Lemma zero_byte_least b :
  is_zero_byte b = false ->
  (byte_to_Z Byte.x00 ?= byte_to_Z b) = Lt /\ (byte_to_Z b ?= byte_to_Z Byte.x00) = Gt.
Proof.
  unfold is_zero_byte. pose proof (byte_to_Z_range b). intros Hb.
  change (byte_to_Z Byte.x00) with 0. rewrite Z.compare_lt_iff, Z.compare_gt_iff. lia.
Qed.

Lemma order_exact_escaped x y :
  order_exact (escape x ++ [Byte.x00; Byte.x00]) (escape y ++ [Byte.x00; Byte.x00]) (lex x y).
Proof.
  intros s t. revert y. unfold escape.
  induction x as [|a x IH]; intros [|b y]; cbn [map concat].
  - by rewrite !app_nil_l, lex_prefix.
  - unfold escape_byte. destruct (is_zero_byte b) eqn:Hb; [done|].
    apply zero_byte_least in Hb as [Hb _]. cbn [app lex]. by rewrite Hb.
  - unfold escape_byte. destruct (is_zero_byte a) eqn:Ha; [done|].
    apply zero_byte_least in Ha as [_ Ha]. cbn [app lex]. by rewrite Ha.
  - rewrite <- !(app_assoc (escape_byte _)). unfold escape_byte at 1 3.
    destruct (is_zero_byte a) eqn:Ha, (is_zero_byte b) eqn:Hb.
    + apply zero_byte_eq in Ha as ->, Hb as ->. rewrite lex_prefix, IH. done.
    + apply zero_byte_eq in Ha as ->. apply zero_byte_least in Hb as [Hb _].
      cbn [app lex]. by rewrite Hb.
    + apply zero_byte_eq in Hb as ->. apply zero_byte_least in Ha as [_ Ha].
      cbn [app lex]. by rewrite Ha.
    + cbn [app lex]. destruct (byte_to_Z a ?= byte_to_Z b); [apply IH|done|done].
Qed.

Lemma order_exact_component a b :
  same_kind a b = true -> component_wf a = true -> component_wf b = true ->
  order_exact (component_bytes a) (component_bytes b) (component_cmp a b).
Proof.
  destruct a, b; try done; intros _ Ha Hb; cbn [component_bytes component_cmp component_wf] in *;
    rewrite ?u_inb_spec, ?i_inb_spec in *; unfold u_range, i_range in *.
  - apply order_exact_fixed; [done|]. by destruct value, value0.
  - by apply order_exact_int.
  - by apply order_exact_int.
  - apply order_exact_offset; cbn in *; lia.
  - apply order_exact_offset; cbn in *; lia.
  - unfold timestamp_wfb, NANOS_PER_SECOND in *. rewrite !andb_true_iff, i_inb_spec in Ha, Hb.
    unfold i_range in *. apply order_exact_app; [apply order_exact_offset|apply order_exact_int];
      cbn in *; lia.
  - apply order_exact_offset; cbn in *; lia.
  - by apply order_exact_int.
  - apply order_exact_fixed; [unfold zlen in *; lia|done].
  - by apply order_exact_sized.
  - by apply order_exact_sized.
  - apply order_exact_escaped.
Qed.

Lemma components_order a b :
  Forall2 (fun x y => same_kind x y = true) a b ->
  Forall (fun c => component_wf c = true) a -> Forall (fun c => component_wf c = true) b ->
  order_exact (components_bytes a) (components_bytes b) (components_cmp a b).
Proof.
  intros H. induction H as [|x y a b Hk H IH]; intros Ha Hb; [by intros s t|].
  apply Forall_cons in Ha as [Hx Ha], Hb as [Hy Hb]. unfold components_bytes.
  cbn [map concat components_cmp]. apply order_exact_app; [by apply order_exact_component|by apply IH].
Qed.

(** C31. Key order: two keys built by the same builder from components of the
    same kinds compare, as byte strings, exactly as their component lists
    compare lexicographically by value. *)
Theorem key_order s a b ka kb :
  Forall2 (fun x y => same_kind x y = true) a b ->
  Forall (fun c => component_wf c = true) a -> Forall (fun c => component_wf c = true) b ->
  for_each push_component a s = (ka, Ok tt) -> for_each push_component b s = (kb, Ok tt) ->
  lex (kb_bytes ka) (kb_bytes kb) = components_cmp a b.
Proof.
  intros Hk Ha Hb [-> _]%push_all_ok [-> _]%push_all_ok. rewrite lex_prefix.
  pose proof (components_order a b Hk Ha Hb [] []) as H. rewrite !app_nil_r in H. rewrite H.
  apply then_compare_Eq_r.
Qed.

Lemma then_compare_eq c d : then_compare c d = Eq <-> c = Eq /\ d = Eq.
Proof. destruct c; cbn; naive_solver. Qed.

Lemma component_cmp_eq a b : same_kind a b = true -> component_cmp a b = Eq -> a = b.
Proof.
  destruct a, b; try done; intros _; cbn [component_cmp]; rewrite ?then_compare_eq, ?Z.compare_eq_iff.
  - by destruct value, value0.
  - congruence.
  - congruence.
  - congruence.
  - congruence.
  - unfold timestamp_cmp. destruct value as [x y], value0 as [x' y']. cbn.
    destruct (Z.compare_spec x x'); [|done|done]. intros ?%Z.compare_eq_iff. congruence.
  - by intros ->.
  - by intros ->.
  - by intros ->%lex_eq.
  - by intros [_ ->%lex_eq].
  - by intros [_ ->%lex_eq].
  - by intros ->%lex_eq.
Qed.

Lemma components_cmp_eq a b :
  Forall2 (fun x y => same_kind x y = true) a b -> components_cmp a b = Eq -> a = b.
Proof.
  induction 1 as [|x y a b Hk H IH]; cbn [components_cmp]; [done|].
  intros [Hx Hr]%then_compare_eq. f_equal; [by apply component_cmp_eq|by apply IH].
Qed.

(** Keys identify their components: under one schema, distinct component
    lists never produce the same key bytes. *)
Theorem key_injective s a b k :
  Forall2 (fun x y => same_kind x y = true) a b ->
  Forall (fun c => component_wf c = true) a -> Forall (fun c => component_wf c = true) b ->
  for_each push_component a s = (k, Ok tt) -> for_each push_component b s = (k, Ok tt) ->
  a = b.
Proof.
  intros Hk Ha Hb [H1 _]%push_all_ok [H2 _]%push_all_ok. rewrite H1 in H2.
  apply app_inv_head in H2. apply components_cmp_eq; [done|].
  pose proof (components_order a b Hk Ha Hb [] []) as H. rewrite !app_nil_r, H2, lex_refl in H.
  by destruct (components_cmp a b).
Qed.

(** ** The four purposes *)
Inductive Purpose := EntityKeys | ConflictKeys | PartitionKeys | IndexEntryKeys.

#[export] Instance Purpose_eq_dec : EqDecision Purpose.
Proof. solve_decision. Defined.

Definition purpose_prefix (p : Purpose) : list byte :=
  match p with
  | EntityKeys => ENTITY_KEY_V1_PREFIX
  | ConflictKeys => CONFLICT_KEY_V1_PREFIX
  | PartitionKeys => PARTITION_KEY_V1_PREFIX
  | IndexEntryKeys => INDEX_ENTRY_KEY_V1_PREFIX
  end.

Definition purpose_minimum (p : Purpose) : Z :=
  match p with IndexEntryKeys => INDEX_ENTRY_KEY_MIN_BYTES | _ => TYPED_KEY_ENVELOPE_BYTES end.

Definition purpose_builder (p : Purpose) (id : Z) : KeyBuilder :=
  match p with
  | EntityKeys => entity_key_builder_new id
  | ConflictKeys => conflict_key_builder_new id
  | PartitionKeys => partition_key_builder_new id
  | IndexEntryKeys => index_entry_key_builder_new id
  end.

Definition purpose_finish (p : Purpose) (s : KeyBuilder) (entity_key : list byte)
    : result KeyEncodingError (list byte) :=
  match p with IndexEntryKeys => index_entry_finish s entity_key | _ => key_finish s end.

(** [EntityKey::new], [ConflictKey::new], [PartitionKey::new], [IndexEntryKey::new] *)
Definition purpose_validate (p : Purpose) : list byte -> result KeyBytesError (list byte) :=
  bounded_key_new (purpose_prefix p) (purpose_minimum p).

Lemma be_bytes_4_nonzero id : 1 <= id < 2 ^ 32 -> be_bytes 4 id <> replicate 4 Byte.x00.
Proof.
  intros Hid E. apply (f_equal be_value) in E. rewrite be_value_be_bytes, Z.mod_small in E by (cbn; lia).
  cbn in E. lia.
Qed.

Lemma purpose_builder_bytes p id :
  kb_bytes (purpose_builder p id) = purpose_prefix p ++ be_bytes 4 id.
Proof. by destruct p. Qed.

Lemma validate_built p id tail :
  1 <= id < 2 ^ 32 -> let k := purpose_prefix p ++ be_bytes 4 id ++ tail in
  purpose_minimum p <= zlen k <= MAX_KEY_BYTES ->
  purpose_validate p k = Ok k /\ key_type_id k = Some id /\
  (forall q, q <> p -> exists e, purpose_validate q k = Err e).
Proof.
  intros Hid k [Hmin Hmax]. subst k.
  pose proof (be_bytes_4_nonzero id Hid) as Hnz.
  assert (take 4 (be_bytes 4 id ++ tail) = be_bytes 4 id) as Ht
    by (rewrite take_app_le, take_ge by (rewrite length_be_bytes; lia); done).
  split_and!.
  - unfold purpose_validate, bounded_key_new.
    destruct (Z.ltb_spec MAX_KEY_BYTES (zlen (purpose_prefix p ++ be_bytes 4 id ++ tail))); [lia|].
    destruct (Z.ltb_spec (zlen (purpose_prefix p ++ be_bytes 4 id ++ tail)) (purpose_minimum p)); [lia|].
    destruct p; cbn [purpose_prefix ENTITY_KEY_V1_PREFIX CONFLICT_KEY_V1_PREFIX
      PARTITION_KEY_V1_PREFIX INDEX_ENTRY_KEY_V1_PREFIX app];
      rewrite !bool_decide_true by done; rewrite Ht, bool_decide_false by done; done.
  - unfold key_type_id.
    assert (drop 2 (purpose_prefix p ++ be_bytes 4 id ++ tail) = be_bytes 4 id ++ tail) as ->
      by (by destruct p).
    rewrite Ht, be_value_be_bytes, Z.mod_small by (cbn; lia).
    unfold nonzero_id_new. by destruct (Z.eqb_spec id 0); [lia|].
  - intros q Hq. unfold purpose_validate, bounded_key_new.
    destruct (_ <? _); [eauto|]. destruct (_ <? _); [eauto|].
    destruct p, q; try done; cbn; eauto.
Qed.

Lemma index_entry_finish_ok s ek k :
  index_entry_finish s ek = Ok k ->
  k = kb_bytes s ++ be_bytes 4 (zlen ek) ++ ek /\ zlen k <= MAX_KEY_BYTES.
Proof.
  unfold index_entry_finish. pose proof (appends_bytes ek s) as H.
  destruct (Z.leb_spec (zlen (kb_bytes s) + zlen (be_bytes 4 (zlen ek) ++ ek)) MAX_KEY_BYTES).
  - rewrite H. intros [= <-]. split; [done|]. by rewrite zlen_app.
  - by destruct H as [e ->].
Qed.

(** Purposes never mix.  A key finished by a builder passes the validation
    of its own purpose unchanged, names the owner it was built for, and is
    refused by the validation of every other purpose. *)
Theorem key_purposes_disjoint p id cs s ek k :
  1 <= id < 2 ^ 32 ->
  for_each push_component cs (purpose_builder p id) = (s, Ok tt) ->
  purpose_validate EntityKeys ek = Ok ek ->
  purpose_finish p s ek = Ok k ->
  purpose_validate p k = Ok k /\ key_type_id k = Some id /\
  (forall q, q <> p -> exists e, purpose_validate q k = Err e).
Proof.
  intros Hid [Hs Hb]%push_all_ok Hek Hf. rewrite purpose_builder_bytes in *.
  assert (zlen (purpose_prefix p ++ be_bytes 4 id) = 6) as H6 by (by destruct p).
  specialize (Hb ltac:(rewrite H6; done)).
  pose proof (zlen_nonneg (components_bytes cs)).
  assert (6 <= zlen ek) as Hlen.
  { unfold purpose_validate, bounded_key_new in Hek. destruct (_ <? _); [done|].
    destruct (Z.ltb_spec (zlen ek) (purpose_minimum EntityKeys)); [done|]. done. }
  assert (exists tail, k = purpose_prefix p ++ be_bytes 4 id ++ tail /\
            purpose_minimum p <= zlen k <= MAX_KEY_BYTES) as (tail & -> & Hk).
  { destruct (decide (p = IndexEntryKeys)) as [->|Hp].
    - cbn [purpose_finish] in Hf. apply index_entry_finish_ok in Hf as [-> Hm]. rewrite Hs in *.
      eexists. rewrite <- !app_assoc in Hm |- *. split_and!; [done| |done].
      rewrite !zlen_app in *. rewrite !zlen_be_bytes in *.
      unfold purpose_minimum, INDEX_ENTRY_KEY_MIN_BYTES, TYPED_KEY_ENVELOPE_BYTES. lia.
    - exists (components_bytes cs). rewrite app_assoc, <- Hs.
      assert (k = kb_bytes s) as -> by (destruct p; try done; by injection Hf as <-).
      split; [done|]. rewrite Hs, zlen_app, H6 in Hb |- *.
      destruct p; cbn [purpose_minimum]; try done; unfold TYPED_KEY_ENVELOPE_BYTES; lia. }
  by apply validate_built.
Qed.

(** ** Prefix scans *)
Lemma escape_prefix p v r :
  escape p `prefix_of` escape v ++ [Byte.x00; Byte.x00] ++ r <-> p `prefix_of` v.
Proof.
  unfold escape. split.
  - revert v. induction p as [|a p IH]; intros v; cbn [map concat]; [by exists v|].
    destruct v as [|b v]; cbn [map concat]; unfold escape_byte at 1.
    + rewrite app_nil_l. destruct (is_zero_byte a) eqn:Ha; intros [k Hk]; [done|].
      injection Hk as Hk _. by rewrite <- Hk in Ha.
    + unfold escape_byte at 2. destruct (is_zero_byte a) eqn:Ha, (is_zero_byte b) eqn:Hb;
        rewrite <- app_assoc; intros H; cbn [app] in H.
      * apply zero_byte_eq in Ha as ->, Hb as ->. apply prefix_cons, IH.
        by do 2 apply prefix_cons_inv_2 in H.
      * apply prefix_cons_inv_1 in H. subst b. done.
      * apply prefix_cons_inv_1 in H. subst a. done.
      * pose proof (prefix_cons_inv_1 _ _ _ _ H) as ->. apply prefix_cons, IH.
        by apply prefix_cons_inv_2 in H.
  - intros [k ->]. rewrite map_app, concat_app, <- app_assoc. by eexists.
Qed.

(** A prefix scan is exact: after the same leading components, the
    non-terminated encoding of [p] is a prefix of the key that holds the ordered
    value [v] (whatever follows it) if and only if [p] is a prefix of [v]. *)
Theorem ordered_prefix_scan s0 cs s p v rest s_prefix s_value s_full :
  for_each push_component cs s0 = (s, Ok tt) ->
  push_ordered_bytes_prefix p s = (s_prefix, Ok tt) ->
  push_ordered v s = (s_value, Ok tt) ->
  for_each push_component rest s_value = (s_full, Ok tt) ->
  kb_bytes s_prefix `prefix_of` kb_bytes s_full <-> p `prefix_of` v.
Proof.
  intros _ Hp Hv [Hr _]%push_all_ok.
  pose proof (appends_ordered p false s) as Ep. pose proof (appends_ordered v true s) as Ev.
  unfold push_ordered_bytes_prefix, push_ordered in *.
  destruct (_ <=? _) in Ep; [|destruct Ep; congruence].
  destruct (_ <=? _) in Ev; [|destruct Ev; congruence].
  rewrite Hp in Ep. rewrite Hv in Ev. injection Ep as ->. injection Ev as ->.
  rewrite Hr. cbn [kb_bytes]. rewrite app_nil_r, <- !app_assoc, <- (escape_prefix p v (components_bytes rest)).
  split; [apply prefix_app_inv|by apply prefix_app].
Qed.

(** ** Event ids and UUIDv7 *)

(** Event ids round-trip through their 12 bytes, a zero commit sequence is
    refused, and byte order is (commit sequence, ordinal) order. *)
Theorem event_id_bytes e f :
  u_range 64 (ev_commit_sequence e) -> u_range 32 (ev_event_ordinal e) ->
  u_range 64 (ev_commit_sequence f) -> u_range 32 (ev_event_ordinal f) ->
  event_id_from_be_bytes (event_id_to_be_bytes e) =
    (if ev_commit_sequence e =? 0 then None else Some e) /\
  lex (event_id_to_be_bytes e) (event_id_to_be_bytes f) =
    then_compare (ev_commit_sequence e ?= ev_commit_sequence f)
                 (ev_event_ordinal e ?= ev_event_ordinal f).
Proof.
  intros He1 He2 Hf1 Hf2. split.
  - unfold event_id_from_be_bytes, event_id_to_be_bytes.
    rewrite take_app_le, take_ge, drop_app_ge by (rewrite length_be_bytes; lia).
    rewrite length_be_bytes, Nat.sub_diag, drop_0.
    rewrite (be_value_unsigned 8 _ He1), (be_value_unsigned 4 _ He2). unfold nonzero_id_new.
    destruct (ev_commit_sequence e =? 0); [done|]. by destruct e.
  - pose proof (order_exact_app _ _ _ _ _ _ (order_exact_int 8 _ _ He1 Hf1)
                  (order_exact_int 4 _ _ He2 Hf2) [] []) as H.
    rewrite !app_nil_r in H. unfold event_id_to_be_bytes. rewrite H.
    apply then_compare_Eq_r.
Qed.

Lemma take_drop_be_bytes m n z : take n (drop m (be_bytes (m + n) z)) = be_bytes n z.
Proof.
  induction m as [|m IH]; [|exact IH]. rewrite drop_0, take_ge by (rewrite length_be_bytes; lia). done.
Qed.

Lemma uuid_v7_marks b :
  Z.shiftr (byte_to_Z (Z_to_byte (Z.lor 0x70 (Z.land (byte_to_Z b) 0x0f)))) 4 = 7 /\
  Z.land (byte_to_Z (Z_to_byte (Z.lor 0x80 (Z.land (byte_to_Z b) 0x3f)))) 0xc0 = 0x80.
Proof. by destruct b. Qed.

Lemma assemble_uuid_v7_shape ms random u :
  assemble_uuid_v7 ms random = Ok u -> 0 <= ms ->
  ms < 256 ^ 6 /\ exists tail, u = be_bytes 6 ms ++ tail /\
    (length random = 10%nat -> length tail = 10%nat) /\
    Z.shiftr (byte_at tail 0) 4 = 7 /\ Z.land (byte_at tail 2) 0xc0 = 0x80.
Proof.
  unfold assemble_uuid_v7, UUID_V7_MAX_UNIX_MILLISECONDS.
  pose proof (take_drop_be_bytes 2 6 ms) as E. cbn [Nat.add] in E. cbv zeta. rewrite E.
  destruct (Z.ltb_spec (16 ^ 12 - 1) ms); [done|]. intros [= <-] Hms. split; [lia|].
  eexists (_ :: _ :: _ :: _). split; [done|]. split_and!.
  - intros Hl. cbn [length app]. by rewrite length_take, length_drop, Hl.
  - apply uuid_v7_marks.
  - apply uuid_v7_marks.
Qed.

(** UUIDv7 assembly: every accepted time gives a 16-byte identifier that
    [validate_uuid_v7] accepts, times of 48 bits or fewer are accepted and all
    others refused, and identifiers of different milliseconds sort by time. *)
Theorem uuid_v7_assembly ms random :
  0 <= ms -> length random = 10%nat ->
  match assemble_uuid_v7 ms random with
  | Err _ => 2 ^ 48 <= ms
  | Ok u => ms < 2 ^ 48 /\ length u = 16%nat /\ validate_uuid_v7 u = Ok tt /\
      (forall ms' random' u', assemble_uuid_v7 ms' random' = Ok u' -> ms < ms' -> lex u u' = Lt)
  end.
Proof.
  intros Hms Hr. destruct (assemble_uuid_v7 ms random) as [u|e] eqn:E.
  - apply assemble_uuid_v7_shape in E as (Hlt & tail & -> & Hl & Hv & Hw); [|done].
    split_and!; [done|rewrite length_app, Hl by done; by rewrite length_be_bytes| |].
    + unfold validate_uuid_v7, byte_at in *.
      rewrite !app_nth2 by (rewrite length_be_bytes; lia). rewrite length_be_bytes. cbn [Nat.sub].
      by rewrite Hv, Hw.
    + intros ms' random' u' E' Hc.
      apply assemble_uuid_v7_shape in E' as (Hlt' & tail' & -> & _); [|lia].
      rewrite (order_exact_int 6 ms ms') by (change (Z.of_nat 6) with 6; lia).
      apply Z.compare_lt_iff in Hc. by rewrite Hc.
  - unfold assemble_uuid_v7, UUID_V7_MAX_UNIX_MILLISECONDS in E.
    destruct (Z.ltb_spec (16 ^ 12 - 1) ms); [lia|done].
Qed.

(** ** The theorems at concrete keys *)
Definition sample_key (n : Z) (text : list byte) : list Component := [CI64 n; COrderedBytes text].

Lemma push_components_exact_witness :
  for_each push_component (sample_key (-1) [Byte.x00]) (entity_key_builder_new 7) =
    (mkKeyBuilder [Byte.x45; Byte.x01; Byte.x00; Byte.x00; Byte.x00; Byte.x07;
       Byte.x7f; Byte.xff; Byte.xff; Byte.xff; Byte.xff; Byte.xff; Byte.xff; Byte.xff;
       Byte.x00; Byte.xff; Byte.x00; Byte.x00], Ok tt).
Proof.
  apply (push_components_exact (sample_key (-1) [Byte.x00]) (entity_key_builder_new 7)).
  vm_compute. congruence.
Defined.

Lemma key_order_witness :
  lex (kb_bytes (fst (for_each push_component (sample_key (-1) [Byte.x62]) (entity_key_builder_new 7))))
      (kb_bytes (fst (for_each push_component (sample_key 3 [Byte.x61]) (entity_key_builder_new 7)))) = Lt.
Proof.
  apply (key_order (entity_key_builder_new 7) (sample_key (-1) [Byte.x62]) (sample_key 3 [Byte.x61]));
    [repeat constructor|repeat constructor|repeat constructor|vm_compute; reflexivity|vm_compute; reflexivity].
Defined.

Lemma key_injective_witness : sample_key 5 [] = sample_key 5 [].
Proof.
  apply (key_injective (entity_key_builder_new 7) (sample_key 5 []) (sample_key 5 [])
           (fst (for_each push_component (sample_key 5 []) (entity_key_builder_new 7))));
    [repeat constructor|repeat constructor|repeat constructor|vm_compute; reflexivity|vm_compute; reflexivity].
Defined.

Lemma key_purposes_disjoint_witness :
  purpose_validate IndexEntryKeys (kb_bytes (index_entry_key_builder_new 2) ++
     be_bytes 4 6 ++ kb_bytes (entity_key_builder_new 7)) =
  Ok (kb_bytes (index_entry_key_builder_new 2) ++ be_bytes 4 6 ++ kb_bytes (entity_key_builder_new 7)).
Proof.
  apply (key_purposes_disjoint IndexEntryKeys 2 [] (index_entry_key_builder_new 2)
           (kb_bytes (entity_key_builder_new 7)));
    [lia|reflexivity|vm_compute; reflexivity|vm_compute; reflexivity].
Defined.

Lemma ordered_prefix_scan_witness :
  kb_bytes (fst (push_ordered_bytes_prefix [Byte.x61; Byte.x00] (entity_key_builder_new 7))) `prefix_of`
  kb_bytes (fst (for_each push_component [CBool true]
    (fst (push_ordered [Byte.x61; Byte.x00; Byte.x62] (entity_key_builder_new 7))))).
Proof.
  apply (ordered_prefix_scan (entity_key_builder_new 7) [] (entity_key_builder_new 7)
           [Byte.x61; Byte.x00] [Byte.x61; Byte.x00; Byte.x62] [CBool true] _
           (fst (push_ordered [Byte.x61; Byte.x00; Byte.x62] (entity_key_builder_new 7))));
    try (vm_compute; reflexivity).
  exists [Byte.x62]. reflexivity.
Defined.

Lemma event_id_bytes_witness :
  event_id_from_be_bytes (event_id_to_be_bytes (mkEventId 9 2)) = Some (mkEventId 9 2).
Proof.
  apply (event_id_bytes (mkEventId 9 2) (mkEventId 9 3)); split; vm_compute; congruence.
Defined.

Lemma uuid_v7_assembly_witness :
  match assemble_uuid_v7 1700000000000 (replicate 10 Byte.xff) with
  | Err _ => 2 ^ 48 <= 1700000000000
  | Ok u => 1700000000000 < 2 ^ 48 /\ length u = 16%nat /\ validate_uuid_v7 u = Ok tt /\
      (forall ms' random' u', assemble_uuid_v7 ms' random' = Ok u' -> 1700000000000 < ms' -> lex u u' = Lt)
  end.
Proof. apply (uuid_v7_assembly 1700000000000 (replicate 10 Byte.xff)); [lia|reflexivity]. Defined.
