(* ===== verification/Conflict.v ===== *)
(** * The sharded conflict manager

    [riffdb-conflict/src/manager.rs] and [cancellation.rs].  A command acquires
    exclusive mutation leases on its canonical conflict keys; waiters queue in
    FIFO order per key and are granted all of their keys at once or none.

    The manager's state is one record.  [cm_table] is the union of the shards'
    key tables ([shard_of] says which shard a key lives in, and [shard_len]
    measures one shard); waiters are shared objects in the source
    ([Arc<Waiter>]) and live in [cm_waiters] under their id, the queues holding
    ids.  Every definition below is one critical section: the source holds the
    locks of all shards of the waiter from [lock_shards] until [drop(guards)],
    and everything a section reads or writes in the table lies in those shards.
    Wakers, the timer thread's map and telemetry are not represented; a timer
    expiry is an [abort] with [AK_DeadlineExceeded] at an arbitrary moment. *)

From S2P Require Import Prelude Value.
From stdpp Require Import list gmap.

Local Open Scope Z_scope.

(** ** Configuration *)
Definition MAX_SHARDS : Z := 256.
Definition MAX_KEYS_PER_SHARD_LIMIT : Z := 4096.
Definition MAX_WAITERS_LIMIT : Z := 65536.
Definition MAX_WAITERS_PER_KEY_LIMIT : Z := 4096.

Record ConflictManagerConfig := mkConfig {
  shard_count : Z;
  max_keys_per_acquisition : Z;
  max_keys_per_shard : Z;
  max_waiters : Z;
  max_waiters_per_key : Z
}.

Inductive ConfigField :=
  | F_shard_count | F_max_keys_per_acquisition | F_max_keys_per_shard
  | F_max_waiters | F_max_waiters_per_key.

Inductive ConflictManagerConfigError :=
  | InvalidBound (field : ConfigField) (actual maximum : Z)
  | PerKeyWaitersExceedTotal (per_key total : Z).

Definition check_config_bound (field : ConfigField) (actual maximum : Z)
    : result ConflictManagerConfigError unit :=
  if (actual =? 0) || (maximum <? actual) then Err (InvalidBound field actual maximum) else Ok tt.

Definition config_new (shard_count max_keys_per_acquisition max_keys_per_shard max_waiters
    max_waiters_per_key : Z) : result ConflictManagerConfigError ConflictManagerConfig :=
  _ ← check_config_bound F_shard_count shard_count MAX_SHARDS;
  _ ← check_config_bound F_max_keys_per_acquisition max_keys_per_acquisition
        MAX_COMMAND_CONFLICT_KEYS_V1;
  _ ← check_config_bound F_max_keys_per_shard max_keys_per_shard MAX_KEYS_PER_SHARD_LIMIT;
  _ ← check_config_bound F_max_waiters max_waiters MAX_WAITERS_LIMIT;
  _ ← check_config_bound F_max_waiters_per_key max_waiters_per_key MAX_WAITERS_PER_KEY_LIMIT;
  if max_waiters <? max_waiters_per_key
  then Err (PerKeyWaitersExceedTotal max_waiters_per_key max_waiters)
  else Ok (mkConfig shard_count max_keys_per_acquisition max_keys_per_shard max_waiters
             max_waiters_per_key).

Definition config_default : ConflictManagerConfig :=
  mkConfig 64 MAX_COMMAND_CONFLICT_KEYS_V1 1024 16384 1024.

(** ** Waiters and key states *)
Inductive WaiterState :=
  | WS_Waiting | WS_Granted | WS_Consumed | WS_Cancelled | WS_TimedOut | WS_Abandoned | WS_Released.

#[export] Instance WaiterState_eq_dec : EqDecision WaiterState.
Proof. solve_decision. Defined.

Inductive AbortKind := AK_Cancelled | AK_DeadlineExceeded | AK_Abandoned.

Definition abort_waiter_state (kind : AbortKind) : WaiterState :=
  match kind with
  | AK_Cancelled => WS_Cancelled
  | AK_DeadlineExceeded => WS_TimedOut
  | AK_Abandoned => WS_Abandoned
  end.

Inductive ConflictError :=
  | CE_EmptyKeySet
  | CE_InputKeyCountExceeded (actual maximum : Z)
  | CE_TooManyKeys (actual maximum : Z)
  | CE_Cancelled
  | CE_DeadlineExceeded
  | CE_WaiterCapacityExceeded (maximum : Z)
  | CE_KeyQueueCapacityExceeded (maximum : Z)
  | CE_TableCapacityExceeded (maximum_per_shard : Z)
  | CE_IdentifierExhausted
  | CE_CancellationRegistrationCapacityExceeded (maximum : Z).

Abbreviation ConflictKey := (list byte).

Record Waiter := mkWaiter {
  w_keys : list ConflictKey;
  w_deadline : Z;
  w_state : WaiterState;
  w_queued : bool
}.

Record KeyState := mkKeyState { ks_holder : option Z; ks_waiters : list Z }.

Definition key_state_default : KeyState := mkKeyState None [].

Abbreviation table := (gmap ConflictKey KeyState).

Record Manager := mkManager {
  cm_config : ConflictManagerConfig;
  cm_table : table;
  cm_queued : Z;
  cm_next_id : Z;
  cm_waiters : gmap Z Waiter
}.

Definition set_table (m : Manager) (t : table) : Manager :=
  mkManager (cm_config m) t (cm_queued m) (cm_next_id m) (cm_waiters m).

Definition set_waiter (m : Manager) (id : Z) (w : Waiter) : Manager :=
  mkManager (cm_config m) (cm_table m) (cm_queued m) (cm_next_id m) (<[id:=w]> (cm_waiters m)).

Definition manager_new (config : ConflictManagerConfig) : Manager := mkManager config ∅ 0 1 ∅.

(** [Inner::next_waiter_id]: zero is the exhausted sentinel. *)
Definition next_waiter_id (m : Manager) : Manager * result ConflictError Z :=
  let next := cm_next_id m in
  if next =? 0 then (m, Err CE_IdentifierExhausted)
  else
    (mkManager (cm_config m) (cm_table m) (cm_queued m)
       (default 0 (u_checked 64 (next + 1))) (cm_waiters m), Ok next).

(** [compare_exchange] on the waiter's state. *)
Definition transition (m : Manager) (id : Z) (from to : WaiterState) : Manager * bool :=
  match cm_waiters m !! id with
  | None => (m, false)
  | Some w =>
      if decide (w_state w = from)
      then (set_waiter m id (mkWaiter (w_keys w) (w_deadline w) to (w_queued w)), true)
      else (m, false)
  end.

(** [finish_queued]: [queued.swap(false)], and one decrement if it was set. *)
Definition finish_queued (m : Manager) (id : Z) : Manager :=
  match cm_waiters m !! id with
  | Some w =>
      if w_queued w then
        mkManager (cm_config m) (cm_table m) (cm_queued m - 1) (cm_next_id m)
          (<[id:=mkWaiter (w_keys w) (w_deadline w) (w_state w) false]> (cm_waiters m))
      else m
  | None => m
  end.

(** ** Canonical key sets: [keys.sort(); keys.dedup()] *)
Fixpoint insert_key (k : ConflictKey) (l : list ConflictKey) : list ConflictKey :=
  match l with
  | [] => [k]
  | x :: r => match lex k x with Gt => x :: insert_key k r | _ => k :: l end
  end.

Definition sort_keys (l : list ConflictKey) : list ConflictKey := foldr insert_key [] l.

Fixpoint dedup (l : list ConflictKey) : list ConflictKey :=
  match l with
  | [] => []
  | x :: r =>
      match r with
      | y :: _ => if decide (x = y) then dedup r else x :: dedup r
      | [] => [x]
      end
  end.

(** The checks [Acquisition::new] and [try_acquire_mut] share: the raw count
    before sorting, then the canonical set. *)
Definition canonical_key_set (config : ConflictManagerConfig) (keys : list ConflictKey)
    : result ConflictError (list ConflictKey) :=
  if MAX_COMMAND_CONFLICT_KEYS_V1 <? zlen keys
  then Err (CE_InputKeyCountExceeded (zlen keys) MAX_COMMAND_CONFLICT_KEYS_V1)
  else
    let keys := dedup (sort_keys keys) in
    match keys with
    | [] => Err CE_EmptyKeySet
    | _ =>
        if max_keys_per_acquisition config <? zlen keys
        then Err (CE_TooManyKeys (zlen keys) (max_keys_per_acquisition config))
        else Ok keys
    end.

(** [Waiter::new], put in the store under its id. *)
Definition new_waiter (m : Manager) (id : Z) (keys : list ConflictKey) (deadline : Z) : Manager :=
  set_waiter m id (mkWaiter keys deadline WS_Waiting false).

Record Acquisition := mkAcquisition {
  acq_waiter : option Z;
  acq_initial_error : option ConflictError;
  acq_registered : bool;
  acq_completed : bool
}.

Definition acquisition_new (keys : list ConflictKey) (deadline : Z) (m : Manager)
    : Manager * Acquisition :=
  match canonical_key_set (cm_config m) keys with
  | Err e => (m, mkAcquisition None (Some e) false false)
  | Ok keys =>
      match next_waiter_id m with
      | (m, Ok id) => (new_waiter m id keys deadline, mkAcquisition (Some id) None false false)
      | (m, Err e) => (m, mkAcquisition None (Some e) false false)
      end
  end.

(** ** Shards

    The key hash is computed by a library; only its first eight bytes are used
    here, to pick a shard. *)
Section shards.
Context (hash_conflict_key : list byte -> list byte).

Definition shard_for_hash (hash : list byte) (count : Z) : Z := be_value (take 8 hash) mod count.

Definition shard_of (m : Manager) (k : ConflictKey) : Z :=
  shard_for_hash (hash_conflict_key k) (shard_count (cm_config m)).

(** [shard.keys.len()] *)
Definition shard_len (m : Manager) (s : Z) : Z :=
  Z.of_nat (size (filter (fun p : ConflictKey * KeyState => shard_of m p.1 = s) (cm_table m))).

(** [new_entries]: the keys of the request the table does not hold yet. *)
Definition new_keys (m : Manager) (keys : list ConflictKey) : list ConflictKey :=
  filter (fun k => cm_table m !! k = None) keys.

Definition new_in_shard (m : Manager) (keys : list ConflictKey) (s : Z) : Z :=
  zlen (filter (fun k => shard_of m k = s) (new_keys m keys)).

(** Some shard would exceed its table bound. *)
Definition table_full (m : Manager) (keys : list ConflictKey) : bool :=
  existsb (fun k => max_keys_per_shard (cm_config m) <?
                    shard_len m (shard_of m k) + new_in_shard m keys (shard_of m k))
    (new_keys m keys).

(** One loop over the waiter's keys, each iteration acting on one table entry. *)
Definition alter_keys (g : option KeyState -> option KeyState) (keys : list ConflictKey) (t : table)
    : table := fold_left (fun t k => partial_alter g k t) keys t.

(** [entry(key).or_default().waiters.push_back(waiter)] *)
Definition push_back (id : Z) (o : option KeyState) : option KeyState :=
  let st := default key_state_default o in Some (mkKeyState (ks_holder st) (ks_waiters st ++ [id])).

(** [entry(key).or_default().holder = Some(id)] *)
Definition set_holder (id : Z) (o : option KeyState) : option KeyState :=
  let st := default key_state_default o in Some (mkKeyState (Some id) (ks_waiters st)).

(** [pop_front] and [holder = Some(id)]; the entry exists for a registered waiter. *)
Definition pop_and_hold (id : Z) (o : option KeyState) : option KeyState :=
  st ← o; Some (mkKeyState (Some id) (tail (ks_waiters st))).

(** [waiters.retain(|queued| queued.id != id)] *)
Definition retain_others (id : Z) (o : option KeyState) : option KeyState :=
  st ← o; Some (mkKeyState (ks_holder st) (filter (fun x => x <> id) (ks_waiters st))).

(** [if holder == Some(id) { holder = None }] *)
Definition clear_holder (id : Z) (o : option KeyState) : option KeyState :=
  st ← o; Some (if decide (ks_holder st = Some id) then mkKeyState None (ks_waiters st) else st).

(** ** Granting *)
Definition key_eligible (t : table) (id : Z) (k : ConflictKey) : bool :=
  match t !! k with
  | None => false
  | Some st => bool_decide (ks_holder st = None) && bool_decide (head (ks_waiters st) = Some id)
  end.

Definition try_grant_locked (m : Manager) (id : Z) : Manager * bool :=
  match cm_waiters m !! id with
  | None => (m, false)
  | Some w =>
      if negb (bool_decide (w_state w = WS_Waiting)) then (m, false)
      else if negb (forallb (key_eligible (cm_table m) id) (w_keys w)) then (m, false)
      else
        let m := set_table m (alter_keys (pop_and_hold id) (w_keys w) (cm_table m)) in
        let '(m, _) := transition m id WS_Waiting WS_Granted in
        (finish_queued m id, true)
  end.

(** [try_grant]: the unlocked test first, then the locked one. *)
Definition try_grant (m : Manager) (id : Z) : Manager * bool :=
  match cm_waiters m !! id with
  | None => (m, false)
  | Some w => if negb (bool_decide (w_state w = WS_Waiting)) then (m, false) else try_grant_locked m id
  end.

Definition try_candidates (m : Manager) (candidates : list Z) : Manager :=
  fold_left (fun m id => fst (try_grant m id)) candidates m.

(** ** Registration *)
Definition queue_full (m : Manager) (k : ConflictKey) : bool :=
  match cm_table m !! k with
  | Some st => max_waiters_per_key (cm_config m) <=? zlen (ks_waiters st)
  | None => false
  end.

Definition register (m : Manager) (id : Z) : Manager * result ConflictError bool :=
  match cm_waiters m !! id with
  | None => (m, Ok false)
  | Some w =>
      let config := cm_config m in
      if existsb (queue_full m) (w_keys w)
      then (m, Err (CE_KeyQueueCapacityExceeded (max_waiters_per_key config)))
      else if table_full m (w_keys w)
      then (m, Err (CE_TableCapacityExceeded (max_keys_per_shard config)))
      else if negb (cm_queued m <? max_waiters config)
      then (m, Err (CE_WaiterCapacityExceeded (max_waiters config)))
      else
        let m := mkManager config (alter_keys (push_back id) (w_keys w) (cm_table m)) (cm_queued m + 1)
                   (cm_next_id m)
                   (<[id:=mkWaiter (w_keys w) (w_deadline w) (w_state w) true]> (cm_waiters m)) in
        let '(m, granted) := try_grant_locked m id in
        (m, Ok granted)
  end.

(** [try_acquire_mut]: [Ok (Some id)] is a lease, [Ok None] means some key is
    held or queued for. *)
Definition key_busy (m : Manager) (k : ConflictKey) : bool :=
  match cm_table m !! k with
  | Some st => bool_decide (ks_holder st <> None) || bool_decide (ks_waiters st <> [])
  | None => false
  end.

Definition try_acquire_mut (keys : list ConflictKey) (deadline now : Z) (is_cancelled : bool) (m : Manager)
    : Manager * result ConflictError (option Z) :=
  match canonical_key_set (cm_config m) keys with
  | Err e => (m, Err e)
  | Ok keys =>
      if is_cancelled then (m, Err CE_Cancelled)
      else if deadline <=? now then (m, Err CE_DeadlineExceeded)
      else match next_waiter_id m with
      | (m, Err e) => (m, Err e)
      | (m, Ok id) =>
          let m := new_waiter m id keys deadline in
          if existsb (key_busy m) keys then (m, Ok None)
          else if table_full m keys
          then (m, Err (CE_TableCapacityExceeded (max_keys_per_shard (cm_config m))))
          else
            let '(m, _) := transition m id WS_Waiting WS_Consumed in
            (set_table m (alter_keys (set_holder id) keys (cm_table m)), Ok (Some id))
      end
  end.

(** ** Abort and release *)

(** [candidates.entry(id).or_insert(..)]: ids in ascending order, once each. *)
Fixpoint add_candidate (id : Z) (l : list Z) : list Z :=
  match l with
  | [] => [id]
  | x :: r => if id <? x then id :: l else if id =? x then l else x :: add_candidate id r
  end.

Definition cleanup_key (acc : table * list Z) (k : ConflictKey) : table * list Z :=
  let '(t, candidates) := acc in
  match t !! k with
  | None => (t, candidates)
  | Some st =>
      let candidates := match ks_waiters st with
                        | front :: _ => add_candidate front candidates
                        | [] => candidates
                        end in
      if bool_decide (ks_holder st = None) && bool_decide (ks_waiters st = [])
      then (delete k t, candidates)
      else (t, candidates)
  end.

Definition collect_candidates_and_cleanup (m : Manager) (keys : list ConflictKey) : Manager * list Z :=
  let '(t, candidates) := fold_left cleanup_key keys (cm_table m, []) in
  (set_table m t, candidates).

(** The locked part of [abort]; [None] is [return false], otherwise the
    candidates to promote once the locks are dropped. *)
Definition abort_locked (m : Manager) (id : Z) (kind : AbortKind) : Manager * option (list Z) :=
  match cm_waiters m !! id with
  | None => (m, None)
  | Some w =>
      let target := abort_waiter_state kind in
      match w_state w with
      | WS_Waiting =>
          let '(m, _) := transition m id WS_Waiting target in
          let m := set_table m (alter_keys (retain_others id) (w_keys w) (cm_table m)) in
          let m := finish_queued m id in
          let '(m, candidates) := collect_candidates_and_cleanup m (w_keys w) in
          (m, Some candidates)
      | WS_Granted =>
          let '(m, _) := transition m id WS_Granted target in
          let m := set_table m (alter_keys (clear_holder id) (w_keys w) (cm_table m)) in
          let '(m, candidates) := collect_candidates_and_cleanup m (w_keys w) in
          (m, Some candidates)
      | _ => (m, None)
      end
  end.

Definition abort (m : Manager) (id : Z) (kind : AbortKind) : Manager * bool :=
  match abort_locked m id kind with
  | (m, None) => (m, false)
  | (m, Some candidates) => (try_candidates m candidates, true)
  end.

Definition release_locked (m : Manager) (id : Z) : Manager * option (list Z) :=
  match cm_waiters m !! id with
  | None => (m, None)
  | Some w =>
      let '(m, ok) := transition m id WS_Consumed WS_Released in
      if negb ok then (m, None)
      else
        let m := set_table m (alter_keys (clear_holder id) (w_keys w) (cm_table m)) in
        let '(m, candidates) := collect_candidates_and_cleanup m (w_keys w) in
        (m, Some candidates)
  end.

Definition release (m : Manager) (id : Z) : Manager * bool :=
  match release_locked m id with
  | (m, None) => (m, false)
  | (m, Some candidates) => (try_candidates m candidates, true)
  end.


(** ** The acquisition future

    What one [poll] reads from its surroundings: whether the token was seen
    cancelled and what the clock said, at each of the places the code looks, and
    whether the token refused one more registration. *)
Record PollView := mkPollView {
  cancelled_entry : bool; now_entry : Z;
  cancelled_registered : bool; now_registered : Z;
  cancelled_consumed : bool; now_consumed : Z;
  registration_refused : option Z
}.

Inductive PollResult :=
  | P_Pending
  | P_Error (e : ConflictError)
  | P_Lease (id : Z)
  | P_Panic.

(** [Acquisition::finish] *)
Definition finish (a : Acquisition) (r : PollResult) : Acquisition * PollResult :=
  (mkAcquisition (acq_waiter a) (acq_initial_error a) (acq_registered a) true, r).

Definition abort_if (b : bool) (m : Manager) (id : Z) (kind : AbortKind) : Manager :=
  if b then fst (abort m id kind) else m.

(** The part of [poll] after registration: look at the waiter's state. *)
Definition poll_state (v : PollView) (a : Acquisition) (id : Z) (m : Manager)
    : Manager * (Acquisition * PollResult) :=
  match cm_waiters m !! id with
  | None => (m, (a, P_Panic))
  | Some w =>
      match w_state w with
      | WS_Granted =>
          match transition m id WS_Granted WS_Consumed with
          | (m, false) => (m, (a, P_Pending))
          | (m, true) =>
              if cancelled_consumed v then (fst (release m id), finish a (P_Error CE_Cancelled))
              else if w_deadline w <=? now_consumed v
              then (fst (release m id), finish a (P_Error CE_DeadlineExceeded))
              else (m, finish a (P_Lease id))
          end
      | WS_Cancelled | WS_Abandoned => (m, finish a (P_Error CE_Cancelled))
      | WS_TimedOut => (m, finish a (P_Error CE_DeadlineExceeded))
      | WS_Waiting =>
          match registration_refused v with
          | Some maximum =>
              (fst (abort m id AK_Abandoned),
               finish a (P_Error (CE_CancellationRegistrationCapacityExceeded maximum)))
          | None => (m, (a, P_Pending))
          end
      | WS_Consumed | WS_Released => (m, (a, P_Panic))
      end
  end.

Definition poll (v : PollView) (a : Acquisition) (m : Manager)
    : Manager * (Acquisition * PollResult) :=
  if acq_completed a then (m, (a, P_Panic))
  else match acq_initial_error a with
  | Some e =>
      (m, finish (mkAcquisition (acq_waiter a) None (acq_registered a) (acq_completed a)) (P_Error e))
  | None =>
      match acq_waiter a with
      | None => (m, (a, P_Panic))
      | Some id =>
          match cm_waiters m !! id with
          | None => (m, (a, P_Panic))
          | Some w =>
              if cancelled_entry v then
                (abort_if (acq_registered a) m id AK_Cancelled, finish a (P_Error CE_Cancelled))
              else if w_deadline w <=? now_entry v then
                (abort_if (acq_registered a) m id AK_DeadlineExceeded,
                 finish a (P_Error CE_DeadlineExceeded))
              else
                let registration :=
                  if acq_registered a then (m, Ok a)
                  else match register m id with
                  | (m, Ok _) => (m, Ok (mkAcquisition (acq_waiter a) (acq_initial_error a) true (acq_completed a)))
                  | (m, Err e) => (m, Err e)
                  end in
                match registration with
                | (m, Err e) => (m, finish a (P_Error e))
                | (m, Ok a) =>
                    let m := if cancelled_registered v then fst (abort m id AK_Cancelled)
                             else abort_if (w_deadline w <=? now_registered v) m id AK_DeadlineExceeded in
                    poll_state v a id m
                end
          end
      end
  end.

(** [Drop for Acquisition] *)
Definition drop_acquisition (a : Acquisition) (m : Manager) : Manager :=
  match acq_waiter a with
  | Some id => abort_if (acq_registered a && negb (acq_completed a)) m id AK_Abandoned
  | None => m
  end.

End shards.
