(* ===== verification/ConflictSpec.v ===== *)
(** * The conflict manager refines a FIFO multi-key lock

    The abstract lock is two lists: the live acquisitions (they own all of
    their keys) and the waiting ones in registration order.  [refines] relates
    a [Manager] to such a lock: the whole key table is a function of the two
    lists.  The steps of the lock are labelled with what happened to which
    acquisition, and a grant, a refusal and finding a key busy are steps only
    where the lock says so.  Every critical section of the manager is a run of
    the lock with the labels its answer gives; mutual exclusion, FIFO granting, the capacity bounds and the absence
    of lost wake-ups follow for every interleaving of critical sections. *)

From S2P Require Import Prelude Value Conflict.
From stdpp Require Import list gmap.

Local Open Scope Z_scope.

(** ** The abstract lock *)
Record Lock := mkLock { live : list Z; order : list Z }.

Definition without (id : Z) (l : list Z) : list Z := filter (fun x => x <> id) l.

Lemma elem_of_without id l x : x ∈ without id l <-> x ∈ l /\ x <> id.
Proof. unfold without. rewrite list_elem_of_filter. tauto. Qed.

Lemma without_absent id l : id ∉ l -> without id l = l.
Proof.
  intros Hid. unfold without. induction l as [|x l IH]; [done|].
  apply not_elem_of_cons in Hid as [Hx Hid]. rewrite filter_cons, decide_True by congruence.
  by rewrite IH.
Qed.

Lemma without_self id : without id [id] = [].
Proof. unfold without. by rewrite filter_cons, decide_False by tauto. Qed.

Lemma without_head id l : NoDup l -> head l = Some id -> without id l = tail l.
Proof.
  intros Hnd Hh. destruct l as [|x l]; [done|]. injection Hh as ->.
  apply NoDup_cons in Hnd as [Hx _]. unfold without. rewrite filter_cons, decide_False by tauto.
  by apply without_absent.
Qed.

Lemma without_NoDup id l : NoDup l -> NoDup (without id l).
Proof. apply NoDup_filter. Qed.

Inductive LockEvent :=
  | L_Request (id : Z) (requested : list ConflictKey)
  | L_Enqueue (id : Z)
  | L_Grant (id : Z)
  | L_Refuse (id : Z)
  | L_Take (id : Z)
  | L_Busy (id : Z)
  | L_Withdraw (id : Z)
  | L_Free (id : Z).

Section lock.
Context (keys : Z -> list ConflictKey).

Definition disjoint_keys (a b : Z) : Prop := forall k, k ∈ keys a -> k ∉ keys b.

Definition users (l : list Z) (k : ConflictKey) : list Z := filter (fun id => k ∈ keys id) l.

(** A waiting acquisition may be granted when no live one, and no one that
    registered earlier, shares a key with it. *)
Definition eligible (s : Lock) (id : Z) : Prop :=
  id ∈ order s /\ forall k, k ∈ keys id -> users (live s) k = [] /\ head (users (order s) k) = Some id.

(** What happens to one acquisition: its event determines the step.  A grant, and
    the answer that there is none yet, are right exactly when the acquisition may
    be granted, or not; so are taking a lease at once and finding a key busy. *)
Inductive lock_step : Lock -> LockEvent -> Lock -> Prop :=
  | lock_enqueue s id : id ∉ live s -> id ∉ order s ->
      lock_step s (L_Enqueue id) (mkLock (live s) (order s ++ [id]))
  | lock_grant s id : eligible s id ->
      lock_step s (L_Grant id) (mkLock (id :: live s) (without id (order s)))
  | lock_refuse s id : ~ eligible s id -> lock_step s (L_Refuse id) s
  | lock_take s id : id ∉ live s -> id ∉ order s ->
      (forall k, k ∈ keys id -> users (live s) k = [] /\ users (order s) k = []) ->
      lock_step s (L_Take id) (mkLock (id :: live s) (order s))
  | lock_busy s id k : k ∈ keys id -> users (live s) k <> [] \/ users (order s) k <> [] ->
      lock_step s (L_Busy id) s
  | lock_withdraw s id : id ∈ order s ->
      lock_step s (L_Withdraw id) (mkLock (live s) (without id (order s)))
  | lock_free s id : id ∈ live s ->
      lock_step s (L_Free id) (mkLock (without id (live s)) (order s)).

Record lock_ok (s : Lock) : Prop := {
  ok_live : NoDup (live s);
  ok_order : NoDup (order s);
  ok_apart : forall id, id ∈ live s -> id ∉ order s;
  ok_disjoint : forall a b, a ∈ live s -> b ∈ live s -> a <> b -> disjoint_keys a b
}.

(** ** Lists of users *)
Lemma elem_of_users l k id : id ∈ users l k <-> id ∈ l /\ k ∈ keys id.
Proof. unfold users. rewrite list_elem_of_filter. tauto. Qed.

Lemma users_without id l k : users (without id l) k = without id (users l k).
Proof. unfold users, without. rewrite !list_filter_filter. apply list_filter_iff. tauto. Qed.

Lemma users_cons id l k :
  users (id :: l) k = if decide (k ∈ keys id) then id :: users l k else users l k.
Proof. unfold users. rewrite filter_cons. done. Qed.

Lemma users_snoc id l k :
  users (l ++ [id]) k = users l k ++ if decide (k ∈ keys id) then [id] else [].
Proof. unfold users. rewrite filter_app, filter_cons, filter_nil. done. Qed.

Lemma users_nil_disjoint l k : users l k = [] <-> forall id, id ∈ l -> k ∉ keys id.
Proof.
  split.
  - intros H id Hid Hk. assert (id ∈ users l k) as Hu by (by apply elem_of_users).
    rewrite H in Hu. by apply not_elem_of_nil in Hu.
  - intros H. destruct (users l k) as [|id u] eqn:E; [done|].
    assert (id ∈ users l k) as [Hl Hk]%elem_of_users by (rewrite E; left). by destruct (H id).
Qed.

Lemma users_NoDup l k : NoDup l -> NoDup (users l k).
Proof. apply NoDup_filter. Qed.

(** ** The abstract invariant *)
Lemma eligible_disjoint s id v :
  eligible s id -> v ∈ live s -> disjoint_keys id v.
Proof.
  intros [_ He] Hv k Hk. destruct (He k Hk) as [Hl _].
  rewrite users_nil_disjoint in Hl. by apply Hl.
Qed.

Lemma disjoint_keys_sym a b : disjoint_keys a b -> disjoint_keys b a.
Proof. intros H k Hb Ha. by apply (H k). Qed.

Lemma lock_step_ok s e s' : lock_ok s -> lock_step s e s' -> lock_ok s'.
Proof.
  intros [Hl Ho Ha Hd] Hs.
  destruct Hs as [s id Hid Hid'|s id He|s id He|s id Hid Hid' Hk|s id k Hk Hu|s id Hid|s id Hid]; split; cbn [live order]; try done.
  - apply NoDup_app. split_and!; [done| |apply NoDup_singleton].
    by intros x Hx ->%list_elem_of_singleton.
  - intros x Hx [Hx'| ->%list_elem_of_singleton]%elem_of_app; [by apply (Ha x)|done].
  - constructor; [|done]. intros Hx. apply (Ha id Hx). apply He.
  - by apply without_NoDup.
  - intros x [->|Hx]%elem_of_cons; rewrite elem_of_without; [tauto|]. intros [Hx' _]. by apply (Ha x).
  - intros a b [->|Hx]%elem_of_cons [->|Hy]%elem_of_cons Hab; [done| | |by apply Hd].
    + by apply (eligible_disjoint s).
    + apply disjoint_keys_sym. by apply (eligible_disjoint s).
  - by constructor.
  - by intros x [->|Hx]%elem_of_cons; [|apply Ha].
  - assert (forall v, v ∈ live s -> disjoint_keys id v) as Hv.
    { intros v Hv k Hki. destruct (Hk k Hki) as [Hn _]. rewrite users_nil_disjoint in Hn. by apply Hn. }
    intros a b [->|Hx]%elem_of_cons [->|Hy]%elem_of_cons Hab; [done|by apply Hv| |by apply Hd].
    by apply disjoint_keys_sym, Hv.
  - by apply without_NoDup.
  - intros x Hx [Hx' _]%elem_of_without. by apply (Ha x).
  - by apply without_NoDup.
  - intros x [Hx _]%elem_of_without. by apply Ha.
  - intros a b [Hx _]%elem_of_without [Hy _]%elem_of_without. by apply Hd.
Qed.

Lemma live_user_unique s k : lock_ok s -> users (live s) k = [] \/ exists id, users (live s) k = [id].
Proof.
  intros [Hl _ _ Hd]. destruct (users (live s) k) as [|a [|b u]] eqn:E; [by left|right; by exists a|].
  exfalso. assert (NoDup (users (live s) k)) as Hn by (by apply users_NoDup). rewrite E in Hn.
  assert (a ∈ users (live s) k) as [Ha Hka]%elem_of_users by (rewrite E; left).
  assert (b ∈ users (live s) k) as [Hb Hkb]%elem_of_users by (rewrite E; right; left).
  assert (a <> b) as Hab. { intros ->. apply NoDup_cons in Hn as [Hn _]. apply Hn. left. }
  by apply (Hd a b Ha Hb Hab k).
Qed.

End lock.

(** The lock with the keys that were asked for.  A request names an acquisition
    that neither holds nor waits, and fixes its keys. *)
Definition assign (K : Z -> list ConflictKey) (id : Z) (keys : list ConflictKey) : Z -> list ConflictKey :=
  fun x => if decide (x = id) then keys else K x.

Abbreviation LockState := ((Z -> list ConflictKey) * Lock)%type.

Inductive lock_act : LockState -> LockEvent -> LockState -> Prop :=
  | act_lock K s e s' : lock_step K s e s' -> lock_act (K, s) e (K, s')
  | act_request K s id requested keys : id ∉ live s -> id ∉ order s ->
      (forall k, k ∈ keys <-> k ∈ requested) ->
      lock_act (K, s) (L_Request id requested) (assign K id keys, s).

Inductive lock_run : LockState -> list LockEvent -> LockState -> Prop :=
  | lock_run_nil x : lock_run x [] x
  | lock_run_cons x e y l z : lock_act x e y -> lock_run y l z -> lock_run x (e :: l) z.

Lemma lock_run_app x l y k z : lock_run x l y -> lock_run y k z -> lock_run x (l ++ k) z.
Proof. induction 1; [done|]. intros H'. cbn [app]. econstructor; eauto. Qed.

Lemma lock_run_step K s e s' : lock_step K s e s' -> lock_run (K, s) [e] (K, s').
Proof. intros H. eapply lock_run_cons; [by apply act_lock|apply lock_run_nil]. Qed.

(** ** The refinement relation *)
Definition live_state (st : WaiterState) : Prop := st = WS_Granted \/ st = WS_Consumed.

(** The table entry a key has: none at all when it is neither held nor wanted. *)
Definition entry (holder : option Z) (waiters : list Z) : option KeyState :=
  match holder, waiters with None, [] => None | _, _ => Some (mkKeyState holder waiters) end.

(** [K id] is the canonical key set acquisition [id] was created with. *)
Record refines (K : Z -> list ConflictKey) (m : Manager) (s : Lock) : Prop := {
  rf_lock : lock_ok K s;
  rf_table : forall k, cm_table m !! k = entry (head (users K (live s) k)) (users K (order s) k);
  rf_live : forall id, id ∈ live s <-> exists w, cm_waiters m !! id = Some w /\ live_state (w_state w);
  rf_order : forall id, id ∈ order s <->
    exists w, cm_waiters m !! id = Some w /\ w_state w = WS_Waiting /\ w_queued w = true;
  rf_flag : forall id w, cm_waiters m !! id = Some w -> w_queued w = true -> w_state w = WS_Waiting;
  rf_count : cm_queued m = zlen (order s);
  rf_keys : forall id w, cm_waiters m !! id = Some w -> w_keys w = K id /\ NoDup (K id) /\ K id <> [];
  rf_ids : forall id w, cm_waiters m !! id = Some w ->
    1 <= id < 2 ^ 64 /\ (cm_next_id m = 0 \/ id < cm_next_id m);
  rf_next : 0 <= cm_next_id m < 2 ^ 64
}.

(** ** Loops over the keys of a waiter *)
Lemma lookup_alter_keys g keys t k :
  NoDup keys -> alter_keys g keys t !! k = if decide (k ∈ keys) then g (t !! k) else t !! k.
Proof.
  intros Hn. revert t. induction Hn as [|x keys Hx Hn IH]; intros t; [done|].
  unfold alter_keys in *. cbn [fold_left]. rewrite IH.
  destruct (decide (k = x)) as [->|Hk].
  - rewrite decide_False by done. rewrite decide_True by left. by rewrite lookup_partial_alter_eq.
  - rewrite lookup_partial_alter_ne by done.
    destruct (decide (k ∈ keys)); [rewrite decide_True by (by right)|rewrite decide_False by set_solver]; done.
Qed.

(** Removing idle entries. *)
Definition tidy (o : option KeyState) : option KeyState :=
  st ← o; entry (ks_holder st) (ks_waiters st).

Lemma cleanup_key_eq t cs k :
  cleanup_key (t, cs) k =
  (partial_alter tidy k t,
   match t !! k with Some (mkKeyState _ (front :: _)) => add_candidate front cs | _ => cs end).
Proof.
  unfold cleanup_key, tidy, entry. destruct (t !! k) as [[h q]|] eqn:E; cbn.
  - destruct h as [h|], q as [|f q]; cbn; f_equal;
      (apply map_eq; intros k'; destruct (decide (k = k')) as [<-|];
       [rewrite lookup_partial_alter_eq, ?lookup_delete_eq, E; done
       |rewrite lookup_partial_alter_ne, ?lookup_delete_ne by done; done]).
  - f_equal. apply map_eq. intros k'. destruct (decide (k = k')) as [<-|].
    + by rewrite lookup_partial_alter_eq, E.
    + by rewrite lookup_partial_alter_ne.
Qed.

Lemma elem_of_add_candidate x id l : x ∈ add_candidate id l <-> x = id \/ x ∈ l.
Proof.
  induction l as [|y l IH]; cbn [add_candidate]; [set_solver|].
  destruct (Z.ltb_spec id y); [set_solver|]. destruct (Z.eqb_spec id y); set_solver.
Qed.

Lemma cleanup_fold keys t cs :
  NoDup keys ->
  fst (fold_left cleanup_key keys (t, cs)) = alter_keys tidy keys t /\
  (forall x, x ∈ snd (fold_left cleanup_key keys (t, cs)) <->
     x ∈ cs \/ exists k st, k ∈ keys /\ t !! k = Some st /\ head (ks_waiters st) = Some x).
Proof.
  intros Hn. revert t cs. induction Hn as [|k keys Hk Hn IH]; intros t cs.
  - split; [done|]. intros x. cbn. split; [by left|]. intros [?|(k & st & ?%elem_of_nil & _)]; done.
  - cbn [fold_left]. rewrite cleanup_key_eq. edestruct IH as [IH1 IH2]. rewrite IH1.
    split; [done|]. intros x. rewrite IH2. clear IH1 IH2.
    assert (forall k', k' ∈ keys -> partial_alter tidy k t !! k' = t !! k') as Hsame
      by (intros k' Hk'; apply lookup_partial_alter_ne; by intros ->).
    split.
    + intros [Hx|(k' & st & Hk' & Hst & Hh)].
      * destruct (t !! k) as [[h [|f q]]|] eqn:E; [by left| |by left].
        apply elem_of_add_candidate in Hx as [->|Hx]; [|by left].
        right. exists k, (mkKeyState h (f :: q)). split_and!; [left|done|done].
      * right. exists k', st. rewrite Hsame in Hst by done. split_and!; [by right|done|done].
    + intros [Hx|(k' & st & [->|Hk']%elem_of_cons & Hst & Hh)].
      * left. destruct (t !! k) as [[h [|f q]]|]; try done. apply elem_of_add_candidate. by right.
      * left. rewrite Hst. destruct st as [h [|f q]]; [done|]. apply elem_of_add_candidate. left.
        by injection Hh.
      * right. exists k', st. by rewrite Hsame.
Qed.

Lemma entry_holder h q st : entry h q = Some st -> ks_holder st = h /\ ks_waiters st = q.
Proof. destruct h, q; cbn; intros [= <-]; done. Qed.

Lemma tidy_some h q : tidy (Some (mkKeyState h q)) = entry h q.
Proof. done. Qed.

Lemma entry_waiters h q : from_option ks_waiters [] (entry h q) = q.
Proof. by destruct h, q. Qed.

Lemma tidy_waiters o : from_option ks_waiters [] (tidy o) = from_option ks_waiters [] o.
Proof. destruct o as [[h q]|]; [apply entry_waiters|done]. Qed.

Lemma push_back_entry h q id : push_back id (entry h q) = entry h (q ++ [id]).
Proof. by destruct h, q. Qed.

Lemma retain_entry h q id : tidy (retain_others id (entry h q)) = entry h (without id q).
Proof. by destruct h, q. Qed.

Lemma clear_entry h q id :
  tidy (clear_holder id (entry h q)) = entry (if decide (h = Some id) then None else h) q.
Proof.
  destruct h as [h|], q; cbn; unfold clear_holder; cbn; try done; by case_decide; cbn.
Qed.

(** ** One waiter changes *)
Definition upd_waiter (m : Manager) (t : table) (q : Z) (id : Z) (w : Waiter) : Manager :=
  mkManager (cm_config m) t q (cm_next_id m) (<[id:=w]> (cm_waiters m)).

Lemma refines_update K m s t q id w w' s' :
  refines K m s -> cm_waiters m !! id = Some w -> w_keys w' = w_keys w ->
  (w_queued w' = true -> w_state w' = WS_Waiting) ->
  lock_ok K s' ->
  (forall k, t !! k = entry (head (users K (live s') k)) (users K (order s') k)) ->
  q = zlen (order s') ->
  (forall x, x <> id -> (x ∈ live s' <-> x ∈ live s) /\ (x ∈ order s' <-> x ∈ order s)) ->
  (id ∈ live s' <-> live_state (w_state w')) ->
  (id ∈ order s' <-> w_state w' = WS_Waiting /\ w_queued w' = true) ->
  refines K (upd_waiter m t q id w') s'.
Proof.
  intros [] Hw Hk Hf Hlock Ht Hq Hne Hl Ho.
  split; cbn [upd_waiter cm_table cm_waiters cm_queued cm_next_id]; try done.
  - intros x. destruct (decide (x = id)) as [->|Hx].
    + rewrite lookup_insert_eq, Hl. naive_solver.
    + rewrite lookup_insert_ne by done. rewrite (proj1 (Hne x Hx)). done.
  - intros x. destruct (decide (x = id)) as [->|Hx].
    + rewrite lookup_insert_eq, Ho. naive_solver.
    + rewrite lookup_insert_ne by done. rewrite (proj2 (Hne x Hx)). done.
  - intros x v. destruct (decide (x = id)) as [->|Hx].
    + rewrite lookup_insert_eq. by intros [= <-].
    + rewrite lookup_insert_ne by done. apply rf_flag0.
  - intros x v. destruct (decide (x = id)) as [->|Hx].
    + rewrite lookup_insert_eq. intros [= <-]. rewrite Hk. by apply rf_keys0.
    + rewrite lookup_insert_ne by done. apply rf_keys0.
  - intros x v. destruct (decide (x = id)) as [->|Hx].
    + intros _. by apply (rf_ids0 _ _ Hw).
    + rewrite lookup_insert_ne by done. apply rf_ids0.
Qed.

Lemma not_in_order K m s id w :
  refines K m s -> cm_waiters m !! id = Some w -> (w_state w = WS_Waiting -> w_queued w = false) ->
  id ∉ order s.
Proof. intros H Hw Hq (w' & Hw' & Hs & Hq')%(rf_order _ _ _ H). simplify_eq. by rewrite Hq in Hq'. Qed.

Lemma not_in_live K m s id w :
  refines K m s -> cm_waiters m !! id = Some w -> ~ live_state (w_state w) -> id ∉ live s.
Proof. intros H Hw Hs (w' & Hw' & Hs')%(rf_live _ _ _ H). simplify_eq. done. Qed.

Lemma zlen_without id l : NoDup l -> id ∈ l -> zlen (without id l) = zlen l - 1.
Proof.
  intros Hn Hid. induction Hn as [|x l Hx Hn IH]; [by apply elem_of_nil in Hid|].
  unfold without in *. rewrite filter_cons. apply elem_of_cons in Hid as [->|Hid].
  - rewrite decide_False by tauto. fold (without x l). rewrite without_absent by done.
    unfold zlen. cbn. lia.
  - rewrite decide_True by (by intros ->). specialize (IH Hid). unfold zlen in *. cbn in *. lia.
Qed.

Lemma transition_eq m id w from to :
  cm_waiters m !! id = Some w -> w_state w = from ->
  transition m id from to =
  (upd_waiter m (cm_table m) (cm_queued m) id (mkWaiter (w_keys w) (w_deadline w) to (w_queued w)), true).
Proof. intros Hw Hs. unfold transition. by rewrite Hw, decide_True. Qed.

Lemma finish_queued_eq m id w :
  cm_waiters m !! id = Some w ->
  finish_queued m id =
  upd_waiter m (cm_table m) (if w_queued w then cm_queued m - 1 else cm_queued m) id
    (mkWaiter (w_keys w) (w_deadline w) (w_state w) false).
Proof.
  intros Hw. unfold finish_queued, upd_waiter. rewrite Hw. destruct w as [ks dl st []]; [done|].
  cbn. rewrite insert_id by done. by destruct m.
Qed.

(** ** Granting *)
Lemma eligible_table K m s id w :
  refines K m s -> cm_waiters m !! id = Some w ->
  forallb (key_eligible (cm_table m) id) (w_keys w) = true <-> eligible K s id.
Proof.
  intros H Hw. destruct (rf_keys _ _ _ H _ _ Hw) as (Hk & _ & Hne). rewrite Hk.
  assert (forall k, k ∈ K id -> key_eligible (cm_table m) id k = true <->
            users K (live s) k = [] /\ head (users K (order s) k) = Some id) as Hkey.
  { intros k _. unfold key_eligible. rewrite (rf_table _ _ _ H k).
    destruct (users K (live s) k) as [|h ?] eqn:El, (users K (order s) k) as [|f ?] eqn:Eo; cbn;
      rewrite ?andb_true_iff, ?bool_decide_eq_true; naive_solver. }
  rewrite forallb_forall. split.
  - intros Hf. assert (forall k, k ∈ K id -> users K (live s) k = [] /\ head (users K (order s) k) = Some id)
      as Hall by (intros k Hin; apply Hkey, Hf; [done|by apply list_elem_of_In]).
    split; [|done]. destruct (K id) as [|k0 ks] eqn:E; [done|].
    destruct (Hall k0 ltac:(left)) as [_ Hh].
    assert (id ∈ users K (order s) k0) as [? _]%elem_of_users; [|done].
    destruct (users K (order s) k0); [done|]. injection Hh as ->. left.
  - intros [_ He] k Hin%list_elem_of_In. apply Hkey; auto.
Qed.

Lemma grant_refines K m s id w :
  refines K m s -> cm_waiters m !! id = Some w -> eligible K s id ->
  refines K
    (upd_waiter m (alter_keys (pop_and_hold id) (w_keys w) (cm_table m)) (cm_queued m - 1) id
       (mkWaiter (w_keys w) (w_deadline w) WS_Granted false))
    (mkLock (id :: live s) (without id (order s))).
Proof.
  intros H Hw He. pose proof (rf_lock _ _ _ H) as Hok. destruct (rf_keys _ _ _ H _ _ Hw) as (Hk & Hnd & _).
  pose proof (lock_step_ok K _ _ _ Hok (lock_grant K s id He)) as Hok'.
  eapply refines_update; [exact H|exact Hw|done|done|exact Hok'| | | | |]; cbn [live order w_state w_queued].
  - intros k. rewrite lookup_alter_keys by (by rewrite Hk). rewrite Hk, (rf_table _ _ _ H k), users_cons, users_without.
    destruct (decide (k ∈ K id)) as [Hin|Hin].
    + destruct He as [_ He]. destruct (He k Hin) as [-> Hh].
      rewrite (without_head id) by (done || by apply users_NoDup, Hok).
      destruct (users K (order s) k) as [|f q]; [done|]. by injection Hh as ->.
    + rewrite without_absent; [done|]. by intros [_ ?]%elem_of_users.
  - rewrite zlen_without, (rf_count _ _ _ H); [done|apply Hok|apply He].
  - intros x Hx. rewrite elem_of_cons, elem_of_without. tauto.
  - rewrite elem_of_cons. unfold live_state. tauto.
  - rewrite elem_of_without. naive_solver.
Qed.

Lemma try_grant_locked_eq m id w :
  cm_waiters m !! id = Some w -> w_state w = WS_Waiting -> w_queued w = true ->
  forallb (key_eligible (cm_table m) id) (w_keys w) = true ->
  try_grant_locked m id =
  (upd_waiter m (alter_keys (pop_and_hold id) (w_keys w) (cm_table m)) (cm_queued m - 1) id
     (mkWaiter (w_keys w) (w_deadline w) WS_Granted false), true).
Proof.
  intros Hw Hs Hq He. unfold try_grant_locked. rewrite Hw, Hs, bool_decide_true, He by done. cbn.
  unfold transition, set_table, set_waiter. cbn. rewrite Hw, decide_True by done.
  unfold finish_queued. cbn. rewrite lookup_insert_eq. cbn. rewrite Hq. cbn.
  unfold upd_waiter. by rewrite insert_insert_eq.
Qed.

Lemma try_grant_locked_spec K m s id :
  refines K m s ->
  (try_grant_locked m id = (m, false) /\ ~ eligible K s id) \/
  (exists m', try_grant_locked m id = (m', true) /\ eligible K s id /\
     cm_config m' = cm_config m /\ dom (cm_table m') = dom (cm_table m) /\
     refines K m' (mkLock (id :: live s) (without id (order s)))).
Proof.
  intros H. destruct (cm_waiters m !! id) as [w|] eqn:Hw.
  2:{ left. unfold try_grant_locked. rewrite Hw. split; [done|].
      intros [(w & Hw' & _)%(rf_order _ _ _ H) _]. congruence. }
  destruct (decide (w_state w = WS_Waiting)) as [Hs|Hs].
  2:{ left. unfold try_grant_locked. rewrite Hw, bool_decide_false by done. split; [done|].
      intros [(w' & Hw' & Hs' & _)%(rf_order _ _ _ H) _]. congruence. }
  pose proof (eligible_table K m s id w H Hw) as He.
  destruct (forallb (key_eligible (cm_table m) id) (w_keys w)) eqn:E.
  - right. apply proj1 in He. specialize (He eq_refl).
    destruct (proj1 (rf_order _ _ _ H id) (proj1 He)) as (w' & Hw' & _ & Hq). simplify_eq.
    rewrite (try_grant_locked_eq m id w) by done. eexists. split_and!; [done|done|done| |by apply grant_refines].
    cbn [upd_waiter cm_table]. apply set_eq. intros k. rewrite !elem_of_dom, lookup_alter_keys.
    + case_decide; [|done]. unfold pop_and_hold. destruct (cm_table m !! k); cbn; [|done].
      split; eauto.
    + destruct (rf_keys _ _ _ H _ _ Hw) as (-> & ? & _). done.
  - left. unfold try_grant_locked. rewrite Hw, Hs, bool_decide_true, E by done. split; [done|].
    intros He'. apply He in He'. done.
Qed.

(** ** Registration *)
Definition enqueued (m : Manager) (id : Z) (w : Waiter) : Manager :=
  upd_waiter m (alter_keys (push_back id) (w_keys w) (cm_table m)) (cm_queued m + 1) id
    (mkWaiter (w_keys w) (w_deadline w) (w_state w) true).

Lemma enqueue_refines K m s id w :
  refines K m s -> cm_waiters m !! id = Some w -> w_state w = WS_Waiting -> w_queued w = false ->
  lock_step K s (L_Enqueue id) (mkLock (live s) (order s ++ [id])) /\
  refines K (enqueued m id w) (mkLock (live s) (order s ++ [id])).
Proof.
  intros H Hw Hs Hq. destruct (rf_keys _ _ _ H _ _ Hw) as (Hk & Hnd & _).
  assert (id ∉ order s) as Ho by (by apply (not_in_order K m s id w)).
  assert (id ∉ live s) as Hl by (apply (not_in_live K m s id w H Hw); unfold live_state; rewrite Hs; naive_solver).
  pose proof (lock_enqueue K s id Hl Ho) as Hstep. split; [done|].
  pose proof (lock_step_ok K _ _ _ (rf_lock _ _ _ H) Hstep) as Hok'.
  eapply refines_update; [exact H|exact Hw|done|done|exact Hok'| | | | |]; cbn [live order w_state w_queued].
  - intros k. rewrite lookup_alter_keys by (by rewrite Hk). rewrite Hk, (rf_table _ _ _ H k), users_snoc.
    destruct (decide (k ∈ K id)); [apply push_back_entry|by rewrite app_nil_r].
  - rewrite (rf_count _ _ _ H), zlen_app. unfold zlen. cbn. lia.
  - intros x Hx. rewrite elem_of_app, list_elem_of_singleton. naive_solver.
  - rewrite Hs. unfold live_state. naive_solver.
  - rewrite elem_of_app, list_elem_of_singleton. naive_solver.
Qed.

Section capacity.
Context (hash : list byte -> list byte) (K : Z -> list ConflictKey).

Record bounded (m : Manager) (s : Lock) : Prop := {
  bd_config : 1 <= max_waiters_per_key (cm_config m);
  bd_total : zlen (order s) <= max_waiters (cm_config m);
  bd_queue : forall k, zlen (users K (order s) k) <= max_waiters_per_key (cm_config m);
  bd_shard : forall n, shard_len hash m n <= max_keys_per_shard (cm_config m)
}.

Lemma shard_len_mono m m' n :
  cm_config m' = cm_config m -> dom (cm_table m') ⊆ dom (cm_table m) ->
  shard_len hash m' n <= shard_len hash m n.
Proof.
  intros Hc Hd. unfold shard_len, shard_of. rewrite Hc. apply inj_le.
  rewrite <- !size_dom. apply subseteq_size. intros k.
  rewrite !elem_of_dom. intros [st [Hst Hn]%map_lookup_filter_Some].
  assert (k ∈ dom (cm_table m)) as [st' Hst']%elem_of_dom by (apply Hd, elem_of_dom; eauto).
  exists st'. by apply map_lookup_filter_Some.
Qed.

Lemma zlen_users_without s id k :
  zlen (users K (without id (order s)) k) <= zlen (users K (order s) k).
Proof. rewrite users_without. unfold zlen, without. apply inj_le. apply length_filter. Qed.

(** The parts of [bounded] that a section which only shrinks the table keeps. *)
Lemma bounded_shrink m m' s s' :
  bounded m s -> cm_config m' = cm_config m -> dom (cm_table m') ⊆ dom (cm_table m) ->
  (order s' = order s \/ exists id, order s' = without id (order s)) -> bounded m' s'.
Proof.
  intros [Hpos Ht Hq Hn] Hc Hd Ho. split; rewrite Hc; [done| | |].
  - destruct Ho as [-> |[id ->]]; [done|]. etrans; [|exact Ht]. unfold zlen, without.
    apply inj_le, length_filter.
  - intros k. destruct Ho as [-> |[id ->]]; [done|]. etrans; [apply zlen_users_without|done].
  - intros n. etrans; [by apply shard_len_mono|done].
Qed.

Lemma shard_len_grow f keys t (P : ConflictKey -> Prop) `{forall k, Decision (P k)} :
  (forall o, is_Some (f o)) -> NoDup keys ->
  zlen (map_to_list (filter (fun p : ConflictKey * KeyState => P p.1) (alter_keys f keys t))) =
  zlen (map_to_list (filter (fun p : ConflictKey * KeyState => P p.1) t)) +
  zlen (filter P (filter (fun k => t !! k = None) keys)).
Proof.
  intros Hf Hn. revert t. induction Hn as [|k keys Hk Hn IH]; intros t.
  - cbn. unfold zlen. cbn. lia.
  - unfold alter_keys in *. cbn [fold_left]. rewrite IH. clear IH.
    destruct (Hf (t !! k)) as [st Hst].
    assert (partial_alter f k t = <[k:=st]> t) as ->.
    { apply map_eq. intros k'. destruct (decide (k = k')) as [<-|].
      - by rewrite lookup_partial_alter_eq, lookup_insert_eq.
      - by rewrite lookup_partial_alter_ne, lookup_insert_ne. }
    assert (filter (fun k' => <[k:=st]> t !! k' = None) keys = filter (fun k' => t !! k' = None) keys) as ->.
    { apply filter_ext_elem. intros k' Hk'. rewrite lookup_insert_ne; [done|]. by intros ->. }
    rewrite (filter_cons (fun k' => t !! k' = None)). unfold zlen.
    rewrite !length_map_to_list.
    destruct (decide (P k)) as [HP|HP].
    + rewrite map_filter_insert_True by done.
      destruct (t !! k) as [st'|] eqn:E.
      * rewrite decide_False by done.
        rewrite map_size_insert_Some; [lia|]. exists st'. by apply map_lookup_filter_Some.
      * rewrite decide_True, filter_cons, decide_True by done.
        rewrite map_size_insert_None; [cbn; lia|]. apply map_lookup_filter_None. by left.
    + rewrite map_filter_insert_False by done.
      assert (filter (fun p : ConflictKey * KeyState => P p.1) (delete k t) =
              filter (fun p : ConflictKey * KeyState => P p.1) t) as ->.
      { apply map_filter_delete_not. by intros y _. }
      case_decide; [rewrite filter_cons, (decide_False (P := P k)) by done|]; lia.
Qed.


(** A request whose new keys fit their shards leaves every shard within bounds. *)
Lemma shard_len_after m m' f keys n :
  table_full hash m keys = false -> NoDup keys -> (forall o, is_Some (f o)) ->
  cm_config m' = cm_config m -> cm_table m' = alter_keys f keys (cm_table m) ->
  shard_len hash m n <= max_keys_per_shard (cm_config m) ->
  shard_len hash m' n <= max_keys_per_shard (cm_config m).
Proof.
  intros Hfull Hn Hf Hc Ht Hle.
  assert (shard_len hash m' n = shard_len hash m n + new_in_shard hash m keys n) as ->.
  { unfold shard_len, new_in_shard, new_keys, shard_of. rewrite Ht, Hc, <- !length_map_to_list.
    pose proof (shard_len_grow f keys (cm_table m)
             (fun k => shard_for_hash (hash k) (shard_count (cm_config m)) = n) Hf Hn) as Hg.
    unfold zlen in Hg |- *. exact Hg. }
  unfold new_in_shard. destruct (filter _ (new_keys m keys)) as [|k l] eqn:E.
  - rewrite zlen_nil. lia.
  - assert (k ∈ filter (fun k => shard_of hash m k = n) (new_keys m keys)) as Hk by (rewrite E; left).
    apply list_elem_of_filter in Hk as [<- Hk]. rewrite <- E.
    fold (new_in_shard hash m keys (shard_of hash m k)).
    destruct (Z.leb_spec (shard_len hash m (shard_of hash m k) + new_in_shard hash m keys (shard_of hash m k))
                (max_keys_per_shard (cm_config m))) as [|Hlt]; [done|].
    assert (table_full hash m keys = true); [|congruence].
    apply existsb_exists. exists k. split; [by apply list_elem_of_In|]. by apply Z.ltb_lt.
Qed.

Lemma bounded_enqueued m s id w :
  refines K m s -> bounded m s -> cm_waiters m !! id = Some w ->
  existsb (queue_full m) (w_keys w) = false -> table_full hash m (w_keys w) = false ->
  cm_queued m < max_waiters (cm_config m) ->
  bounded (enqueued m id w) (mkLock (live s) (order s ++ [id])).
Proof.
  intros H [Hpos Ht Hq Hn] Hw Hqf Htf Hmax. destruct (rf_keys _ _ _ H _ _ Hw) as (Hk & Hnd & _).
  split; cbn [order enqueued upd_waiter cm_config]; [done| | |].
  - rewrite zlen_app. rewrite (rf_count _ _ _ H) in Hmax. unfold zlen in *. cbn. lia.
  - intros k. rewrite users_snoc, zlen_app. case_decide as Hin.
    + assert (queue_full m k = false) as Hf.
      { destruct (queue_full m k) eqn:E; [|done].
        assert (existsb (queue_full m) (w_keys w) = true); [|congruence].
        apply existsb_exists. exists k. split; [apply list_elem_of_In; by rewrite Hk|done]. }
      unfold queue_full in Hf. rewrite (rf_table _ _ _ H k) in Hf. specialize (Hq k).
      destruct (entry _ _) as [st|] eqn:E.
      * apply entry_holder in E as [_ <-]. unfold zlen in *. cbn. lia.
      * destruct (users K (order s) k); [|by destruct (head _)].
        unfold zlen. cbn. lia.
    + unfold zlen at 2. cbn. specialize (Hq k). lia.
  - intros n. eapply shard_len_after; [exact Htf|by rewrite Hk| |done|done|apply Hn].
    intros o. unfold push_back. eauto.
Qed.

End capacity.

(** ** Leaving: abort and release *)
Lemma users_without_other K id l k : k ∉ K id -> users K (without id l) k = users K l k.
Proof. intros Hk. rewrite users_without. apply without_absent. by intros [_ ?]%elem_of_users. Qed.

(** The candidates collected for the keys of [id] are the new queue fronts. *)
Definition fronts (K : Z -> list ConflictKey) (s : Lock) (id : Z) (cs : list Z) : Prop :=
  forall x, x ∈ cs <-> exists k, k ∈ K id /\ head (users K (order s) k) = Some x.

Lemma collect_eq m keys :
  NoDup keys -> exists cs,
  collect_candidates_and_cleanup m keys = (set_table m (alter_keys tidy keys (cm_table m)), cs) /\
  forall x, x ∈ cs <-> exists k st, k ∈ keys /\ cm_table m !! k = Some st /\ head (ks_waiters st) = Some x.
Proof.
  intros Hn. unfold collect_candidates_and_cleanup.
  pose proof (cleanup_fold keys (cm_table m) [] Hn) as [H1 H2].
  destruct (fold_left cleanup_key keys (cm_table m, [])) as [t cs]. cbn in H1, H2. subst t.
  exists cs. split; [done|]. intros x. rewrite H2, elem_of_nil. naive_solver.
Qed.

(** A tidied table whose entries are those of [s'] has [s']'s fronts. *)
Lemma fronts_of_table (K : Z -> list ConflictKey) (s' : Lock) (id : Z) (t : table) (cs : list Z) :
  (forall k, k ∈ K id -> tidy (t !! k) = entry (head (users K (live s') k)) (users K (order s') k)) ->
  (forall x, x ∈ cs <-> exists k st, k ∈ K id /\ t !! k = Some st /\ head (ks_waiters st) = Some x) ->
  fronts K s' id cs.
Proof.
  intros Ht Hcs x. rewrite Hcs.
  assert (forall k, k ∈ K id -> users K (order s') k = from_option ks_waiters [] (t !! k)) as Hq.
  { intros k Hk. rewrite <- (tidy_waiters (t !! k)), Ht by done. symmetry. apply entry_waiters. }
  split.
  - intros (k & st & Hk & Hst & Hh). exists k. by rewrite Hq, Hst.
  - intros (k & Hk & Hh). rewrite Hq in Hh by done. exists k.
    destruct (t !! k) as [st|]; [eauto|done].
Qed.

Lemma leave_refines K m s s' t q id w st :
  refines K m s -> cm_waiters m !! id = Some w -> ~ live_state st -> st <> WS_Waiting ->
  lock_ok K s' -> live s' = without id (live s) -> order s' = without id (order s) ->
  (forall k, t !! k = entry (head (users K (live s') k)) (users K (order s') k)) ->
  q = zlen (order s') ->
  refines K (upd_waiter m t q id (mkWaiter (w_keys w) (w_deadline w) st false)) s'.
Proof.
  intros H Hw Hst Hst' Hok Hl Ho Ht Hq.
  eapply refines_update; [exact H|exact Hw|done|done|done|done|done| | |]; cbn [w_state w_queued].
  - intros x Hx. rewrite Hl, Ho, !elem_of_without. tauto.
  - rewrite Hl, elem_of_without. tauto.
  - rewrite Ho, elem_of_without. tauto.
Qed.

Lemma abort_state_dead kind : ~ live_state (abort_waiter_state kind) /\ abort_waiter_state kind <> WS_Waiting.
Proof. unfold live_state. by destruct kind; split; try done; intros [|]. Qed.

Lemma dom_alter_shrink g keys t :
  NoDup keys -> (forall o, g o = None \/ is_Some o) -> dom (alter_keys g keys t) ⊆ dom t.
Proof.
  intros Hn Hg k. rewrite !elem_of_dom, lookup_alter_keys by done. case_decide; [|done].
  intros [st Hst]. destruct (Hg (t !! k)) as [E|E]; [congruence|done].
Qed.

(** The three ways an acquisition leaves; [s'] is the lock without it. *)
Definition leaves (K : Z -> list ConflictKey) (m : Manager) (s : Lock) (id : Z) (r : Manager * option (list Z)) : Prop :=
  let s' := mkLock (without id (live s)) (without id (order s)) in
  exists m' cs, r = (m', Some cs) /\ refines K m' s' /\ fronts K s' id cs /\
    cm_config m' = cm_config m /\ dom (cm_table m') ⊆ dom (cm_table m).

Lemma withdraw_leaves K m s id w kind :
  refines K m s -> cm_waiters m !! id = Some w -> w_state w = WS_Waiting ->
  leaves K m s id (abort_locked m id kind).
Proof.
  intros H Hw Hs. destruct (rf_keys _ _ _ H _ _ Hw) as (Hk & Hnd & _). rewrite <- Hk in Hnd.
  pose proof (rf_lock _ _ _ H) as Hok.
  set (t1 := alter_keys (retain_others id) (w_keys w) (cm_table m)).
  set (m1 := upd_waiter m t1 (if w_queued w then cm_queued m - 1 else cm_queued m) id
               (mkWaiter (w_keys w) (w_deadline w) (abort_waiter_state kind) false)).
  destruct (collect_eq m1 (w_keys w) Hnd) as (cs & Hc & Hcs).
  assert (abort_locked m id kind = (set_table m1 (alter_keys tidy (w_keys w) t1), Some cs)) as ->.
  { unfold abort_locked. rewrite Hw, Hs, (transition_eq m id w) by done.
    erewrite finish_queued_eq by apply lookup_insert_eq.
    unfold upd_waiter, set_table. cbn. rewrite insert_insert_eq.
    match goal with |- context [collect_candidates_and_cleanup ?x _] => change x with m1 end.
    by rewrite Hc. }
  assert (id ∉ live s) as Hl by (apply (not_in_live K m s id w H Hw); rewrite Hs; unfold live_state; naive_solver).
  assert (forall k, tidy (retain_others id (cm_table m !! k)) =
            entry (head (users K (live s) k)) (users K (without id (order s)) k)) as Hent
    by (intros k; rewrite (rf_table _ _ _ H k), retain_entry, users_without; done).
  set (s' := mkLock (without id (live s)) (without id (order s))).
  assert (lock_ok K s') as Hok'.
  { unfold s'. rewrite (without_absent id (live s)) by done.
    destruct (decide (id ∈ order s)) as [Hin|Hin]; [by apply (lock_step_ok K s (L_Withdraw id)), lock_withdraw|].
    rewrite without_absent by done. by destruct s. }
  eexists _, cs. split_and!; [done| | |done|].
  - unfold m1, upd_waiter, set_table. cbn. apply (leave_refines K m s s' _ _ id w); try done.
    + apply abort_state_dead.
    + apply abort_state_dead.
    + intros k. unfold t1. rewrite !lookup_alter_keys by done. cbn [live order s'].
      rewrite (without_absent id (live s)) by done. case_decide as Hin; [apply Hent|].
      rewrite users_without_other by (by rewrite <- Hk). apply (rf_table _ _ _ H).
    + cbn [order s']. rewrite (rf_count _ _ _ H). destruct (w_queued w) eqn:Hq.
      * rewrite zlen_without; [done|apply Hok|]. apply (rf_order _ _ _ H). eauto.
      * rewrite without_absent; [done|]. by apply (not_in_order K m s id w).
  - apply (fronts_of_table K s' id t1).
    + intros k Hin. unfold t1. rewrite lookup_alter_keys, decide_True by (done || by rewrite Hk).
      cbn [live order s']. rewrite (without_absent id (live s)) by done. apply Hent.
    + intros x. rewrite Hcs, Hk. done.
  - cbn. unfold t1. etrans; apply dom_alter_shrink; try done; intros [st|]; cbn; eauto.
Qed.

Lemma free_leaves K m s id w st :
  refines K m s -> cm_waiters m !! id = Some w -> live_state (w_state w) ->
  ~ live_state st -> st <> WS_Waiting ->
  leaves K m s id
    (let '(m, candidates) := collect_candidates_and_cleanup
      (upd_waiter m (alter_keys (clear_holder id) (w_keys w) (cm_table m)) (cm_queued m) id
         (mkWaiter (w_keys w) (w_deadline w) st (w_queued w))) (w_keys w) in (m, Some candidates)).
Proof.
  intros H Hw Hs Hst Hst'. destruct (rf_keys _ _ _ H _ _ Hw) as (Hk & Hnd & _). rewrite <- Hk in Hnd.
  pose proof (rf_lock _ _ _ H) as Hok.
  assert (w_queued w = false) as Hq.
  { destruct (w_queued w) eqn:E; [|done]. pose proof (rf_flag _ _ _ H _ _ Hw E). destruct Hs; congruence. }
  assert (id ∈ live s) as Hl by (apply (rf_live _ _ _ H); eauto).
  assert (id ∉ order s) as Ho by (by apply Hok).
  set (t1 := alter_keys (clear_holder id) (w_keys w) (cm_table m)). rewrite Hq.
  destruct (collect_eq (upd_waiter m t1 (cm_queued m) id (mkWaiter (w_keys w) (w_deadline w) st false))
              (w_keys w) Hnd) as (cs & Hc & Hcs).
  rewrite Hc.
  set (s' := mkLock (without id (live s)) (without id (order s))).
  assert (lock_ok K s') as Hok'.
  { unfold s'. rewrite (without_absent id (order s)) by done. by apply (lock_step_ok K s (L_Free id)), lock_free. }
  assert (forall k, k ∈ K id -> tidy (clear_holder id (cm_table m !! k)) =
            entry (head (users K (live s') k)) (users K (order s') k)) as Hent.
  { intros k Hin. rewrite (rf_table _ _ _ H k), clear_entry. cbn [live order s'].
    rewrite (without_absent id (order s)), users_without by done.
    assert (id ∈ users K (live s) k) as Hu by (by apply elem_of_users).
    destruct (live_user_unique K s k Hok) as [E|[x E]]; rewrite E in Hu |- *; [by apply elem_of_nil in Hu|].
    apply list_elem_of_singleton in Hu as ->. rewrite without_self. cbn [head].
    by rewrite decide_True. }
  eexists _, cs. split_and!; [done| | |done|].
  - unfold upd_waiter, set_table. cbn. apply (leave_refines K m s s' _ _ id w); try done.
    + intros k. unfold t1. rewrite !lookup_alter_keys by done. case_decide as Hin; [by apply Hent; rewrite <- Hk|].
      cbn [live order s']. rewrite !users_without_other by (by rewrite <- Hk). apply (rf_table _ _ _ H).
    + cbn [order s']. by rewrite (rf_count _ _ _ H), without_absent.
  - apply (fronts_of_table K s' id t1).
    + intros k Hin. unfold t1. rewrite lookup_alter_keys, decide_True by (done || by rewrite Hk). by apply Hent.
    + intros x. rewrite Hcs, Hk. done.
  - cbn. unfold t1. etrans; apply dom_alter_shrink; try done; intros [?|]; cbn; eauto.
Qed.
