(* ===== verification/ConflictSystem.v ===== *)
(** * The conflict manager under arbitrary interleaving

    [act] is one critical section of [manager.rs] by any thread, with the events
    its arguments and answer tell; [step] forgets the events.  Between the
    locked part of an abort or release and the promotion of its candidates the
    lock is free, so the candidates still to be tried ([sys_pending]) are part
    of the state and other sections may run first. *)

From S2P Require Import Prelude Value Conflict ConflictSpec.
From stdpp Require Import list gmap relations sorting.
Import ConflictSpec.

Local Open Scope Z_scope.

Record Sys := mkSys { sys_m : Manager; sys_pending : list Z }.

Section system.
Context (hash : list byte -> list byte).

(** What a critical section tells of the acquisitions, from its arguments and its
    answer.  [id] is the identifier a failed [try_acquire_mut] has used up. *)
Definition new_events (keys : list ConflictKey) (a : Acquisition) : list LockEvent :=
  match acq_waiter a with Some id => [L_Request id keys] | None => [] end.

Definition try_events (id : Z) (keys : list ConflictKey) (r : result ConflictError (option Z)) : list LockEvent :=
  match r with
  | Ok (Some lease) => [L_Request lease keys; L_Take lease]
  | Ok None => [L_Request id keys; L_Busy id]
  | Err (CE_TableCapacityExceeded _) => [L_Request id keys]
  | Err _ => []
  end.

Definition grant_event (id : Z) (granted : bool) : LockEvent := if granted then L_Grant id else L_Refuse id.

Definition register_events (id : Z) (r : result ConflictError bool) : list LockEvent :=
  match r with Ok granted => [L_Enqueue id; grant_event id granted] | Err _ => [] end.

(** An aborted acquisition leaves its queues, or gives up its keys. *)
Definition abort_events (m : Manager) (id : Z) : list LockEvent :=
  match cm_waiters m !! id with
  | Some w =>
      match w_state w with
      | WS_Waiting => if w_queued w then [L_Withdraw id] else []
      | _ => [L_Free id]
      end
  | None => []
  end.

Inductive act : Sys -> list LockEvent -> Sys -> Prop :=
  | sys_new m p keys deadline :
      act (mkSys m p) (new_events keys (snd (acquisition_new keys deadline m)))
        (mkSys (fst (acquisition_new keys deadline m)) p)
  | sys_try m p keys deadline now cancelled :
      act (mkSys m p) (try_events (cm_next_id m) keys (snd (try_acquire_mut hash keys deadline now cancelled m)))
        (mkSys (fst (try_acquire_mut hash keys deadline now cancelled m)) p)
  | sys_register m p id w :
      cm_waiters m !! id = Some w -> w_state w = WS_Waiting -> w_queued w = false ->
      act (mkSys m p) (register_events id (snd (register hash m id))) (mkSys (fst (register hash m id)) p)
  | sys_promote m p1 p2 id :
      act (mkSys m (p1 ++ id :: p2)) [grant_event id (snd (try_grant m id))] (mkSys (fst (try_grant m id)) (p1 ++ p2))
  | sys_abort m p id kind m' cs :
      abort_locked m id kind = (m', Some cs) -> act (mkSys m p) (abort_events m id) (mkSys m' (p ++ cs))
  | sys_consume m p id :
      act (mkSys m p) [] (mkSys (fst (transition m id WS_Granted WS_Consumed)) p)
  | sys_release m p id m' cs :
      release_locked m id = (m', Some cs) -> act (mkSys m p) [L_Free id] (mkSys m' (p ++ cs)).

(** A run, with everything it told. *)
Inductive run : Sys -> list LockEvent -> Sys -> Prop :=
  | run_nil y : run y [] y
  | run_cons y l y1 l' y2 : act y l y1 -> run y1 l' y2 -> run y (l ++ l') y2.

Definition step (y y' : Sys) : Prop := exists l, act y l y'.

Lemma step_new m p keys deadline : step (mkSys m p) (mkSys (fst (acquisition_new keys deadline m)) p).
Proof. eexists. apply sys_new. Qed.

Lemma step_register m p id w : cm_waiters m !! id = Some w -> w_state w = WS_Waiting -> w_queued w = false ->
  step (mkSys m p) (mkSys (fst (register hash m id)) p).
Proof. intros. eexists. by eapply sys_register. Qed.

Lemma step_promote m p1 p2 id : step (mkSys m (p1 ++ id :: p2)) (mkSys (fst (try_grant m id)) (p1 ++ p2)).
Proof. eexists. apply sys_promote. Qed.

Lemma step_abort m p id kind m' cs : abort_locked m id kind = (m', Some cs) -> step (mkSys m p) (mkSys m' (p ++ cs)).
Proof. intros. eexists. by eapply sys_abort. Qed.

Lemma step_consume m p id : step (mkSys m p) (mkSys (fst (transition m id WS_Granted WS_Consumed)) p).
Proof. eexists. apply sys_consume. Qed.

Lemma step_release m p id m' cs : release_locked m id = (m', Some cs) -> step (mkSys m p) (mkSys m' (p ++ cs)).
Proof. intros. eexists. by eapply sys_release. Qed.

Definition init (config : ConflictManagerConfig) : Sys := mkSys (manager_new config) [].

(** A state some valid configuration can reach. *)
Definition reachable (y : Sys) : Prop :=
  exists a b c d e config, config_new a b c d e = Ok config /\ 0 <= b /\ 0 <= c /\ 0 <= d /\ 0 <= e /\
    rtc step (init config) y.

(** ** Canonical key sets *)
Lemma lex_lt_trans a b c : lex a b = Lt -> lex b c = Lt -> lex a c = Lt.
Proof.
  revert b c. induction a as [|x a IH]; intros [|y b] [|z c]; cbn [lex]; try done.
  destruct (Z.compare_spec (byte_to_Z x) (byte_to_Z y)) as [E|E|E]; try done;
    destruct (Z.compare_spec (byte_to_Z y) (byte_to_Z z)) as [F|F|F]; try done.
  - rewrite E, F, Z.compare_refl. apply IH.
  - intros _ _. assert (byte_to_Z x < byte_to_Z z) as ->%Z.compare_lt_iff by lia. done.
  - intros _ _. assert (byte_to_Z x < byte_to_Z z) as ->%Z.compare_lt_iff by lia. done.
  - intros _ _. assert (byte_to_Z x < byte_to_Z z) as ->%Z.compare_lt_iff by lia. done.
Qed.

Definition key_le (a b : ConflictKey) : Prop := lex a b <> Gt.
Definition key_lt (a b : ConflictKey) : Prop := lex a b = Lt.

Lemma key_le_cases a b : key_le a b <-> a = b \/ key_lt a b.
Proof.
  unfold key_le, key_lt. rewrite <- lex_eq. destruct (lex a b); naive_solver.
Qed.

Lemma key_le_trans a b c : key_le a b -> key_le b c -> key_le a c.
Proof.
  rewrite !key_le_cases. intros [->|H1] [->|H2]; eauto. right. by apply (lex_lt_trans a b c).
Qed.

Lemma elem_of_insert_key k x l : x ∈ insert_key k l <-> x = k \/ x ∈ l.
Proof. induction l as [|y l IH]; cbn [insert_key]; [set_solver|]. destruct (lex k y); set_solver. Qed.

Lemma elem_of_sort_keys x l : x ∈ sort_keys l <-> x ∈ l.
Proof.
  unfold sort_keys. induction l as [|y l IH]; cbn; [done|]. rewrite elem_of_insert_key. set_solver.
Qed.

Lemma insert_key_sorted k l : StronglySorted key_le l -> StronglySorted key_le (insert_key k l).
Proof.
  induction 1 as [|y l Hs IH Hy]; cbn [insert_key]; [repeat constructor|].
  assert (forall z, key_le k y -> z ∈ y :: l -> key_le k z) as Hall.
  { intros z Hk [->|Hz]%elem_of_cons; [done|]. rewrite Forall_forall in Hy. eauto using key_le_trans. }
  destruct (lex k y) eqn:E.
  - constructor; [by constructor|]. apply Forall_forall. intros z. apply Hall. unfold key_le. by rewrite E.
  - constructor; [by constructor|]. apply Forall_forall. intros z. apply Hall. unfold key_le. by rewrite E.
  - constructor; [done|]. apply Forall_forall. intros z [->|Hz]%elem_of_insert_key.
    + unfold key_le. rewrite lex_antisym, E. done.
    + rewrite Forall_forall in Hy. by apply Hy.
Qed.

Lemma sort_keys_sorted l : StronglySorted key_le (sort_keys l).
Proof. unfold sort_keys. induction l; cbn; [constructor|by apply insert_key_sorted]. Qed.

Lemma elem_of_dedup x l : x ∈ dedup l <-> x ∈ l.
Proof.
  induction l as [|y l IH]; [done|]. cbn [dedup]. destruct l as [|z l]; [done|].
  case_decide as E; [subst z; rewrite IH; set_solver|]. rewrite elem_of_cons, IH. set_solver.
Qed.

Lemma dedup_sorted l : StronglySorted key_le l -> StronglySorted key_lt (dedup l).
Proof.
  induction 1 as [|y l Hs IH Hy]; [constructor|]. cbn [dedup].
  destruct l as [|z l]; [repeat constructor|]. case_decide as E; [done|].
  constructor; [done|]. apply Forall_forall. intros x Hx. rewrite elem_of_dedup in Hx.
  pose proof (Forall_inv Hy) as Hyz. apply key_le_cases in Hyz as [|Hyz]; [done|].
  apply elem_of_cons in Hx as [->|Hx]; [done|].
  apply StronglySorted_inv in Hs as [_ Hz]. rewrite Forall_forall in Hz.
  specialize (Hz x Hx). apply key_le_cases in Hz as [->|Hz]; [done|]. by apply (lex_lt_trans y z x).
Qed.

Lemma sorted_lt_NoDup l : StronglySorted key_lt l -> NoDup l.
Proof.
  induction 1 as [|y l Hs IH Hy]; constructor; [|done]. intros Hin.
  rewrite Forall_forall in Hy. specialize (Hy y Hin). unfold key_lt in Hy. by rewrite lex_refl in Hy.
Qed.

Lemma canonical_key_set_ok config keys ks :
  canonical_key_set config keys = Ok ks ->
  StronglySorted key_lt ks /\ (forall k, k ∈ ks <-> k ∈ keys) /\ ks <> [] /\
  zlen ks <= max_keys_per_acquisition config.
Proof.
  unfold canonical_key_set. destruct (_ <? _); [done|].
  destruct (dedup (sort_keys keys)) as [|k l] eqn:E; [done|].
  destruct (Z.ltb_spec (max_keys_per_acquisition config) (zlen (k :: l))); [done|]. intros [= <-].
  rewrite <- E. split_and!; [apply dedup_sorted, sort_keys_sorted| | by rewrite E|by rewrite E].
  intros x. by rewrite elem_of_dedup, elem_of_sort_keys.
Qed.

Lemma canonical_NoDup config keys ks : canonical_key_set config keys = Ok ks -> NoDup ks /\ ks <> [].
Proof. intros (? & _ & ? & _)%canonical_key_set_ok. split; [by apply sorted_lt_NoDup|done]. Qed.


(** ** The invariant of the interleaved system *)
Record inv (K : Z -> list ConflictKey) (s : Lock) (y : Sys) : Prop := {
  inv_refines : refines K (sys_m y) s;
  inv_bounded : bounded hash K (sys_m y) s;
  inv_pending : forall v, eligible K s v -> v ∈ sys_pending y
}.

(** [K'] extends [K] to identifiers allocated since. *)
Definition extends (m : Manager) (K K' : Z -> list ConflictKey) : Prop :=
  forall id w, cm_waiters m !! id = Some w -> K' id = K id.

Lemma users_extend K K' l k : (forall id, id ∈ l -> K' id = K id) -> users K' l k = users K l k.
Proof. intros H. apply filter_ext_elem. intros x Hx. by rewrite H. Qed.

Lemma live_waiter K m s id : refines K m s -> id ∈ live s -> exists w, cm_waiters m !! id = Some w.
Proof. intros H (w & ? & _)%(rf_live _ _ _ H). eauto. Qed.

Lemma order_waiter K m s id : refines K m s -> id ∈ order s -> exists w, cm_waiters m !! id = Some w.
Proof. intros H (w & ? & _)%(rf_order _ _ _ H). eauto. Qed.

Lemma users_extends K K' m s k :
  refines K m s -> extends m K K' ->
  users K' (live s) k = users K (live s) k /\ users K' (order s) k = users K (order s) k.
Proof.
  intros H He. split; apply users_extend; intros id Hid.
  - destruct (live_waiter K m s id H Hid) as [w Hw]. by apply (He id w).
  - destruct (order_waiter K m s id H Hid) as [w Hw]. by apply (He id w).
Qed.

Lemma eligible_extends K K' m s v : refines K m s -> extends m K K' -> eligible K' s v <-> eligible K s v.
Proof.
  intros H He. unfold eligible. split; intros [Hv Hk]; (split; [done|]);
    destruct (order_waiter K m s v H Hv) as [w Hw]; pose proof (He _ _ Hw) as E;
    intros k Hin; specialize (Hk k); rewrite E in *;
    destruct (users_extends K K' m s k H He) as [El Eo]; rewrite El, Eo in *; auto.
Qed.

Lemma bounded_extends K K' m s : refines K m s -> extends m K K' -> bounded hash K m s -> bounded hash K' m s.
Proof.
  intros H He [Hp Ht Hq Hn]. split; try done. intros k.
  destruct (users_extends K K' m s k H He) as [_ ->]. apply Hq.
Qed.

Definition allocated (m : Manager) (keys : list ConflictKey) (deadline : Z) : Manager :=
  mkManager (cm_config m) (cm_table m) (cm_queued m) (default 0 (u_checked 64 (cm_next_id m + 1)))
    (<[cm_next_id m:=mkWaiter keys deadline WS_Waiting false]> (cm_waiters m)).

Lemma fresh_id K m s : refines K m s -> cm_next_id m <> 0 -> cm_waiters m !! cm_next_id m = None.
Proof.
  intros H Hn. destruct (cm_waiters m !! cm_next_id m) as [w|] eqn:E; [|done].
  destruct (rf_ids _ _ _ H _ _ E). lia.
Qed.

Lemma assign_extends K m s keys :
  refines K m s -> cm_next_id m <> 0 -> extends m K (assign K (cm_next_id m) keys).
Proof.
  intros H Hn id w Hw. unfold assign. rewrite decide_False; [done|]. intros ->.
  rewrite (fresh_id K m s) in Hw; done.
Qed.

Lemma allocate_refines K m s keys deadline :
  refines K m s -> cm_next_id m <> 0 -> NoDup keys -> keys <> [] ->
  refines (assign K (cm_next_id m) keys) (allocated m keys deadline) s.
Proof.
  intros H Hn Hnd Hne. pose proof (fresh_id K m s H Hn) as Hfresh.
  pose proof (assign_extends K m s keys H Hn) as He.
  assert (forall x w, <[cm_next_id m:=mkWaiter keys deadline WS_Waiting false]> (cm_waiters m) !! x = Some w ->
            (x = cm_next_id m /\ w = mkWaiter keys deadline WS_Waiting false) \/ cm_waiters m !! x = Some w) as Hcase.
  { intros x w. destruct (decide (x = cm_next_id m)) as [->|]; [rewrite lookup_insert_eq|rewrite lookup_insert_ne by done]; naive_solver. }
  assert (forall x w, cm_waiters m !! x = Some w ->
            <[cm_next_id m:=mkWaiter keys deadline WS_Waiting false]> (cm_waiters m) !! x = Some w) as Hold.
  { intros x w Hw. rewrite lookup_insert_ne; [done|]. intros <-. congruence. }
  pose proof (rf_next _ _ _ H). destruct (rf_lock _ _ _ H) as [L1 L2 L3 L4].
  split; cbn [allocated cm_table cm_waiters cm_queued cm_next_id].
  - split; try done. intros a b Ha Hb Hab k.
    destruct (live_waiter K m s a H Ha) as [wa Hwa], (live_waiter K m s b H Hb) as [wb Hwb].
    rewrite (He _ _ Hwa), (He _ _ Hwb). by apply L4.
  - intros k. destruct (users_extends K _ m s k H He) as [-> ->]. apply (rf_table _ _ _ H).
  - intros id. rewrite (rf_live _ _ _ H). split; intros (w & Hw & Hl).
    + eauto.
    + apply Hcase in Hw as [[-> ->]|Hw]; [destruct Hl; done|eauto].
  - intros id. rewrite (rf_order _ _ _ H). split; intros (w & Hw & Hl).
    + eauto.
    + apply Hcase in Hw as [[-> ->]|Hw]; [destruct Hl; done|eauto].
  - intros id w Hw. apply Hcase in Hw as [[-> ->]|Hw]; [done|by apply (rf_flag _ _ _ H id)].
  - apply (rf_count _ _ _ H).
  - intros id w Hw. apply Hcase in Hw as [[-> ->]|Hw].
    + unfold assign. by rewrite decide_True.
    + rewrite (He _ _ Hw). by apply (rf_keys _ _ _ H).
  - intros id w Hw.
    assert (1 <= id <= cm_next_id m) as Hid.
    { apply Hcase in Hw as [[-> _]|Hw]; [lia|]. destruct (rf_ids _ _ _ H _ _ Hw). lia. }
    split; [lia|]. destruct (u_checked 64 (cm_next_id m + 1)) eqn:E; [|by left].
    apply u_checked_Some in E as [-> _]. right. cbn. lia.
  - destruct (u_checked 64 (cm_next_id m + 1)) eqn:E; cbn; [|lia]. apply u_checked_Some in E as [-> [? ?]]. lia.
Qed.

Lemma next_waiter_id_eq m :
  next_waiter_id m =
  if cm_next_id m =? 0 then (m, Err CE_IdentifierExhausted)
  else (mkManager (cm_config m) (cm_table m) (cm_queued m) (default 0 (u_checked 64 (cm_next_id m + 1)))
          (cm_waiters m), Ok (cm_next_id m)).
Proof. done. Qed.

Lemma bounded_same_table K m m' s :
  cm_config m' = cm_config m -> cm_table m' = cm_table m -> bounded hash K m s -> bounded hash K m' s.
Proof.
  intros Hc Ht Hb. eapply bounded_shrink; [exact Hb|done|by rewrite Ht|by left].
Qed.

(** What one step of the system means for the abstract lock. *)
Definition matched (K : Z -> list ConflictKey) (s : Lock) (l : list LockEvent) (y' : Sys) : Prop :=
  exists K' s', inv K' s' y' /\ lock_run (K, s) l (K', s').

Lemma matched_same K s m p p' :
  inv K s (mkSys m p) -> (forall v, eligible K s v -> v ∈ p') -> matched K s [] (mkSys m p').
Proof. intros [Hr Hb Hp] Hp'. exists K, s. split; [by split|apply lock_run_nil]. Qed.

Lemma allocate_matched K s m p keys deadline :
  inv K s (mkSys m p) -> cm_next_id m <> 0 -> NoDup keys -> keys <> [] ->
  inv (assign K (cm_next_id m) keys) s (mkSys (allocated m keys deadline) p).
Proof.
  intros [Hr Hb Hp] Hn Hnd Hne. cbn [sys_m sys_pending] in *.
  pose proof (assign_extends K m s keys Hr Hn) as He.
  split; cbn [sys_m sys_pending].
  - by apply allocate_refines.
  - eapply bounded_same_table; [| |by eapply bounded_extends]; done.
  - intros v Hv. apply Hp. by apply (eligible_extends K _ m s v Hr He).
Qed.

(** The request that allocates an identifier, then whatever else the section does. *)
Lemma request_run K s m keys ks l x :
  refines K m s -> cm_next_id m <> 0 -> (forall k, k ∈ ks <-> k ∈ keys) ->
  lock_run (assign K (cm_next_id m) ks, s) l x ->
  lock_run (K, s) (L_Request (cm_next_id m) keys :: l) x.
Proof.
  intros Hr Hn Hk Hl. pose proof (fresh_id K m s Hr Hn) as Hf.
  eapply lock_run_cons; [|exact Hl]. apply act_request; [| |done]; intros Hid.
  - destruct (live_waiter K m s _ Hr Hid). congruence.
  - destruct (order_waiter K m s _ Hr Hid). congruence.
Qed.

Lemma matched_new K s m p keys deadline :
  inv K s (mkSys m p) ->
  matched K s (new_events keys (snd (acquisition_new keys deadline m))) (mkSys (fst (acquisition_new keys deadline m)) p).
Proof.
  intros Hi. unfold acquisition_new.
  destruct (canonical_key_set (cm_config m) keys) as [ks|e] eqn:E; [|by apply (matched_same K s m p), Hi].
  destruct (canonical_NoDup _ _ _ E) as [Hnd Hne]. apply canonical_key_set_ok in E as (_ & Hk & _).
  rewrite next_waiter_id_eq.
  destruct (Z.eqb_spec (cm_next_id m) 0) as [E0|E0]; [by apply (matched_same K s m p), Hi|].
  eexists _, s. split; [exact (allocate_matched K s m p ks deadline Hi E0 Hnd Hne)|].
  eapply (request_run K s m); [apply Hi|done|exact Hk|apply lock_run_nil].
Qed.


(** ** Who becomes eligible *)
Lemma eligible_after_hold K s id v :
  eligible K (mkLock (id :: live s) (without id (order s))) v \/ eligible K (mkLock (id :: live s) (order s)) v ->
  eligible K s v.
Proof.
  assert (forall k, users K (id :: live s) k = [] -> k ∉ K id /\ users K (live s) k = []) as Hl.
  { intros k. rewrite users_cons. by case_decide. }
  intros [[Hv He]|[Hv He]]; cbn [live order] in *.
  - apply elem_of_without in Hv as [Hv Hne]. split; [done|]. intros k Hk.
    destruct (He k Hk) as [[Hid ->]%Hl Hh]. by rewrite users_without_other in Hh.
  - split; [done|]. intros k Hk. destruct (He k Hk) as [[_ ->]%Hl Hh]. done.
Qed.

Lemma eligible_after_enqueue K s id v :
  eligible K (mkLock (live s) (order s ++ [id])) v -> v = id \/ eligible K s v.
Proof.
  intros [Hv He]. cbn [live order] in *.
  apply elem_of_app in Hv as [Hv|Hv%list_elem_of_singleton]; [|by left]. right. split; [done|].
  intros k Hk. destruct (He k Hk) as [-> Hh]. rewrite users_snoc in Hh.
  assert (v ∈ users K (order s) k) as Hu by (by apply elem_of_users).
  destruct (users K (order s) k); [by apply elem_of_nil in Hu|]. done.
Qed.

Lemma eligible_after_leave K s id v :
  let s' := mkLock (without id (live s)) (without id (order s)) in
  eligible K s' v -> eligible K s v \/ exists k, k ∈ K id /\ head (users K (order s') k) = Some v.
Proof.
  intros s' [Hv He]. cbn [live order s'] in *. apply elem_of_without in Hv as [Hv Hne].
  destruct (decide (Exists (fun k => k ∈ K id) (K v))) as [Hex|Hex].
  - right. apply Exists_exists in Hex as (k & Hk & Hid). exists k. split; [done|]. by apply He.
  - left. split; [done|]. intros k Hk.
    assert (k ∉ K id) as Hid by (intros Hid; apply Hex, Exists_exists; eauto).
    destruct (He k Hk) as [Hl Hh]. by rewrite users_without_other in Hl, Hh.
Qed.

(** ** Every step is matched *)
Lemma matched_leave K s m p id r m' cs l :
  inv K s (mkSys m p) -> leaves K m s id r -> r = (m', Some cs) ->
  lock_run (K, s) l (K, mkLock (without id (live s)) (without id (order s))) ->
  matched K s l (mkSys m' (p ++ cs)).
Proof.
  intros [Hr Hb Hp] (m1 & cs1 & -> & Hr' & Hf & Hc & Hd) [= -> ->] Hl. cbn [sys_m sys_pending] in *.
  eexists K, _. split; [split; cbn [sys_m sys_pending]; [exact Hr'| |]|exact Hl].
  - eapply bounded_shrink; [exact Hb|done|done|right; by exists id].
  - intros v Hv. apply elem_of_app. apply eligible_after_leave in Hv as [Hv|Hv]; [left; auto|right].
    by apply Hf.
Qed.

Lemma free_run K m s id w :
  refines K m s -> cm_waiters m !! id = Some w -> live_state (w_state w) ->
  lock_run (K, s) [L_Free id] (K, mkLock (without id (live s)) (without id (order s))).
Proof.
  intros Hr Hw Hs. assert (id ∈ live s) as Hl by (apply (rf_live _ _ _ Hr); eauto).
  rewrite (without_absent id (order s)) by (by apply (rf_lock _ _ _ Hr)). by apply lock_run_step, lock_free.
Qed.

Lemma withdraw_run K m s id w :
  refines K m s -> cm_waiters m !! id = Some w -> w_state w = WS_Waiting ->
  lock_run (K, s) (if w_queued w then [L_Withdraw id] else [])
    (K, mkLock (without id (live s)) (without id (order s))).
Proof.
  intros Hr Hw Hs.
  rewrite (without_absent id (live s))
    by (apply (not_in_live K m s id w Hr Hw); rewrite Hs; by intros [|]).
  destruct (w_queued w) eqn:Hq.
  - apply lock_run_step, lock_withdraw. apply (rf_order _ _ _ Hr). eauto.
  - rewrite without_absent by (by apply (not_in_order K m s id w)). destruct s. apply lock_run_nil.
Qed.

Lemma matched_abort K s m p id kind m' cs :
  inv K s (mkSys m p) -> abort_locked m id kind = (m', Some cs) ->
  matched K s (abort_events m id) (mkSys m' (p ++ cs)).
Proof.
  intros Hi Ha. pose proof (inv_refines _ _ _ Hi) as Hr. cbn in Hr.
  pose proof (abort_state_dead kind) as [Hd1 Hd2].
  destruct (cm_waiters m !! id) as [w|] eqn:Hw; [|unfold abort_locked in Ha; by rewrite Hw in Ha].
  unfold abort_events. rewrite Hw.
  destruct (decide (w_state w = WS_Waiting)) as [Hs|Hs].
  { rewrite Hs. apply (matched_leave K s m p id (abort_locked m id kind)); [done| |done|].
    - by apply (withdraw_leaves K m s id w).
    - by apply (withdraw_run K m). }
  destruct (decide (w_state w = WS_Granted)) as [Hg|Hg].
  - rewrite Hg. apply (matched_leave K s m p id (abort_locked m id kind)); [done| |done|].
    + pose proof (free_leaves K m s id w (abort_waiter_state kind) Hr Hw (or_introl Hg) Hd1 Hd2) as Hf.
      unfold abort_locked. by rewrite Hw, Hg, (transition_eq m id w).
    + apply (free_run K m s id w Hr Hw). by left.
  - unfold abort_locked in Ha. rewrite Hw in Ha. by destruct (w_state w).
Qed.

Lemma matched_release K s m p id m' cs :
  inv K s (mkSys m p) -> release_locked m id = (m', Some cs) ->
  matched K s [L_Free id] (mkSys m' (p ++ cs)).
Proof.
  intros Hi Ha. pose proof (inv_refines _ _ _ Hi) as Hr. cbn in Hr.
  destruct (cm_waiters m !! id) as [w|] eqn:Hw; [|unfold release_locked in Ha; by rewrite Hw in Ha].
  destruct (decide (w_state w = WS_Consumed)) as [Hg|Hg].
  - apply (matched_leave K s m p id (release_locked m id)); [done| |done|by apply (free_run K m s id w Hr Hw); right].
    assert (~ live_state WS_Released) as Hd by (by intros [|]).
    pose proof (free_leaves K m s id w WS_Released Hr Hw (or_intror Hg) Hd ltac:(done)) as Hf.
    unfold release_locked. by rewrite Hw, (transition_eq m id w).
  - unfold release_locked, transition in Ha. rewrite Hw, decide_False in Ha by done. done.
Qed.

Lemma matched_consume K s m p id :
  inv K s (mkSys m p) -> matched K s [] (mkSys (fst (transition m id WS_Granted WS_Consumed)) p).
Proof.
  intros Hi. pose proof Hi as [Hr Hb Hp]. cbn [sys_m sys_pending] in *.
  destruct (cm_waiters m !! id) as [w|] eqn:Hw.
  2:{ unfold transition. rewrite Hw. by apply (matched_same K s m p). }
  destruct (decide (w_state w = WS_Granted)) as [Hg|Hg].
  2:{ unfold transition. rewrite Hw, decide_False by done. by apply (matched_same K s m p). }
  rewrite (transition_eq m id w) by done. cbn [fst].
  assert (w_queued w = false) as Hq.
  { destruct (w_queued w) eqn:E; [|done]. pose proof (rf_flag _ _ _ Hr _ _ Hw E). congruence. }
  exists K, s. split; [split; cbn [sys_m sys_pending]|apply lock_run_nil]; [| |done].
  - eapply refines_update; [exact Hr|exact Hw|done|by rewrite Hq|apply Hr|apply Hr|apply Hr|done| |]; cbn [w_state w_queued].
    + rewrite (rf_live _ _ _ Hr). unfold live_state. split; [by right|]. intros _. exists w. auto.
    + rewrite Hq. split; [|by intros [_ ?]]. intros (w' & ? & ? & ?)%(rf_order _ _ _ Hr). congruence.
  - by eapply bounded_same_table; [| |exact Hb].
Qed.

Lemma matched_promote K s m p1 p2 id :
  inv K s (mkSys m (p1 ++ id :: p2)) ->
  matched K s [grant_event id (snd (try_grant m id))] (mkSys (fst (try_grant m id)) (p1 ++ p2)).
Proof.
  intros Hi. pose proof Hi as [Hr Hb Hp]. cbn [sys_m sys_pending] in *.
  assert (forall v, v <> id -> v ∈ p1 ++ id :: p2 -> v ∈ p1 ++ p2) as Hrest by set_solver.
  assert (try_grant m id = try_grant_locked m id) as ->.
  { unfold try_grant, try_grant_locked. destruct (cm_waiters m !! id); [|done]. by destruct (negb _). }
  destruct (try_grant_locked_spec K m s id Hr) as [[-> Hne]|(m' & -> & He & Hc & Hd & Hr')]; cbn [fst snd grant_event].
  - exists K, s. split; [split; cbn [sys_m sys_pending]; [done|done|]|by apply lock_run_step, lock_refuse].
    intros v Hv. apply Hrest; [by intros ->|auto].
  - eexists K, _. split; [split; cbn [sys_m sys_pending]; [exact Hr'| |]|by apply lock_run_step, lock_grant].
    + eapply bounded_shrink; [exact Hb|done|by rewrite Hd|right; by exists id].
    + intros v Hv. apply Hrest; [|apply Hp, (eligible_after_hold K s id v); by left].
      intros ->. destruct Hv as [Hv _]. by apply elem_of_without in Hv as [_ ?].
Qed.

Lemma matched_register K s m p id w :
  inv K s (mkSys m p) -> cm_waiters m !! id = Some w -> w_state w = WS_Waiting -> w_queued w = false ->
  matched K s (register_events id (snd (register hash m id))) (mkSys (fst (register hash m id)) p).
Proof.
  intros Hi Hw Hs Hq. pose proof Hi as [Hr Hb Hp]. cbn [sys_m sys_pending] in *.
  unfold register. rewrite Hw.
  destruct (existsb (queue_full m) (w_keys w)) eqn:E1; [by apply (matched_same K s m p)|].
  destruct (table_full hash m (w_keys w)) eqn:E2; [by apply (matched_same K s m p)|].
  destruct (Z.ltb_spec (cm_queued m) (max_waiters (cm_config m))) as [E3|E3]; cbn [negb]; [|by apply (matched_same K s m p)].
  fold (upd_waiter m (alter_keys (push_back id) (w_keys w) (cm_table m)) (cm_queued m + 1) id
          (mkWaiter (w_keys w) (w_deadline w) (w_state w) true)).
  fold (enqueued m id w).
  destruct (enqueue_refines K m s id w Hr Hw Hs Hq) as [Hstep Hr1].
  pose proof (bounded_enqueued hash K m s id w Hr Hb Hw E1 E2 E3) as Hb1.
  set (s1 := mkLock (live s) (order s ++ [id])) in *.
  destruct (try_grant_locked_spec K _ _ id Hr1) as [[-> Hne]|(m' & -> & He & Hc & Hd & Hr')]; cbn [fst snd register_events grant_event].
  - exists K, s1. split; [split; cbn [sys_m sys_pending]; [done|done|]|].
    2:{ by eapply lock_run_cons; [apply act_lock, Hstep|apply lock_run_step, lock_refuse]. }
    intros v Hv. pose proof Hv as Hv'. apply eligible_after_enqueue in Hv' as [->|Hv']; [done|auto].
  - exists K, (mkLock (id :: live s1) (without id (order s1))).
    split; [split; cbn [sys_m sys_pending]; [done| |]|].
    + eapply bounded_shrink; [exact Hb1|done|by rewrite Hd|right; by exists id].
    + intros v Hv. apply Hp. pose proof Hv as [Hv0 _]. apply elem_of_without in Hv0 as [_ Hvid].
      pose proof (eligible_after_hold K s1 id v (or_introl Hv)) as Hv1.
      apply eligible_after_enqueue in Hv1 as [->|Hv1]; done.
    + by eapply lock_run_cons; [apply act_lock, Hstep|apply lock_run_step, lock_grant].
Qed.


Lemma idle_users K m s k :
  refines K m s -> key_busy m k = false -> users K (live s) k = [] /\ users K (order s) k = [].
Proof.
  intros Hr Hb. unfold key_busy in Hb. rewrite (rf_table _ _ _ Hr k) in Hb.
  destruct (users K (live s) k) as [|h l], (users K (order s) k) as [|f q]; cbn in Hb; try done;
    apply orb_false_iff in Hb as [H1 H2]; rewrite bool_decide_eq_false in H1, H2; naive_solver.
Qed.

Lemma busy_users K m s k :
  refines K m s -> key_busy m k = true -> users K (live s) k <> [] \/ users K (order s) k <> [].
Proof.
  intros Hr Hb. unfold key_busy in Hb. rewrite (rf_table _ _ _ Hr k) in Hb.
  destruct (users K (live s) k) as [|h l]; [|by left]. destruct (users K (order s) k); [done|by right].
Qed.

Lemma existsb_false {A} (f : A -> bool) l x : existsb f l = false -> x ∈ l -> f x = false.
Proof.
  intros He Hx. destruct (f x) eqn:E; [|done].
  assert (existsb f l = true); [|congruence]. apply existsb_exists. exists x. split; [by apply list_elem_of_In|done].
Qed.

(** A lease taken without waiting, from the state where its waiter was allocated. *)
Lemma direct_inv K s m p id w :
  inv K s (mkSys m p) -> cm_waiters m !! id = Some w -> w_state w = WS_Waiting -> w_queued w = false ->
  existsb (key_busy m) (w_keys w) = false -> table_full hash m (w_keys w) = false ->
  lock_step K s (L_Take id) (mkLock (id :: live s) (order s)) /\
  inv K (mkLock (id :: live s) (order s))
    (mkSys (upd_waiter m (alter_keys (set_holder id) (w_keys w) (cm_table m)) (cm_queued m) id
              (mkWaiter (w_keys w) (w_deadline w) WS_Consumed (w_queued w))) p).
Proof.
  intros [Hr Hb Hp] Hw Hs Hq Hbusy Hfull. cbn [sys_m sys_pending] in *.
  destruct (rf_keys _ _ _ Hr _ _ Hw) as (Hk & Hnd & _).
  assert (id ∉ order s) as Ho by (by apply (not_in_order K m s id w)).
  assert (id ∉ live s) as Hl by (apply (not_in_live K m s id w Hr Hw); rewrite Hs; by intros [|]).
  assert (forall k, k ∈ K id -> users K (live s) k = [] /\ users K (order s) k = []) as Hidle.
  { intros k Hin. apply (idle_users K m s k Hr), (existsb_false _ _ _ Hbusy). by rewrite Hk. }
  pose proof (lock_take K s id Hl Ho Hidle) as Hstep. split; [done|].
  split; cbn [sys_m sys_pending].
  - eapply refines_update; [exact Hr|exact Hw|done|by rewrite Hq|by apply (lock_step_ok K s (L_Take id)), Hstep; apply Hr| |apply Hr| | |];
      cbn [live order w_state w_queued].
    + intros k. rewrite lookup_alter_keys by (by rewrite Hk). rewrite Hk, (rf_table _ _ _ Hr k), users_cons.
      case_decide as Hin; [|done]. by destruct (Hidle k Hin) as [-> ->].
    + intros x Hx. rewrite elem_of_cons. tauto.
    + rewrite elem_of_cons. unfold live_state. tauto.
    + rewrite Hq. naive_solver.
  - destruct Hb as [B1 B2 B3 B4]. split; try done. intros n.
    cbn [cm_config upd_waiter].
    eapply (shard_len_after hash m); [exact Hfull|by rewrite Hk| |done|done|apply B4].
    intros o. unfold set_holder. eauto.
  - intros v Hv. apply Hp, (eligible_after_hold K s id v). by right.
Qed.

Lemma matched_try K s m p keys deadline now cancelled :
  inv K s (mkSys m p) ->
  matched K s (try_events (cm_next_id m) keys (snd (try_acquire_mut hash keys deadline now cancelled m)))
    (mkSys (fst (try_acquire_mut hash keys deadline now cancelled m)) p).
Proof.
  intros Hi. unfold try_acquire_mut.
  destruct (canonical_key_set (cm_config m) keys) as [ks|e] eqn:E.
  2:{ cbn [fst snd]. unfold canonical_key_set in E.
      assert (try_events (cm_next_id m) keys (Err e) = []) as ->; [|by apply (matched_same K s m p), Hi].
      repeat case_match; simplify_eq; done. }
  destruct (canonical_NoDup _ _ _ E) as [Hnd Hne]. apply canonical_key_set_ok in E as (_ & Hk & _).
  destruct cancelled; [by apply (matched_same K s m p), Hi|]. destruct (_ <=? _); [by apply (matched_same K s m p), Hi|].
  rewrite next_waiter_id_eq.
  destruct (Z.eqb_spec (cm_next_id m) 0) as [E0|E0]; [by apply (matched_same K s m p), Hi|].
  pose proof (allocate_matched K s m p ks deadline Hi E0 Hnd Hne) as Hi1.
  pose proof (fun l x => request_run K s m keys ks l x (inv_refines _ _ _ Hi) E0 Hk) as Hreq.
  set (id := cm_next_id m) in *. set (K1 := assign K id ks) in *.
  set (w := mkWaiter ks deadline WS_Waiting false).
  assert (cm_waiters (allocated m ks deadline) !! id = Some w) as Hw by apply lookup_insert_eq.
  match goal with |- context [new_waiter ?x id ks deadline] =>
    change (new_waiter x id ks deadline) with (allocated m ks deadline) end.
  destruct (existsb (key_busy (allocated m ks deadline)) ks) eqn:E1.
  { apply existsb_exists in E1 as (k & Hin%list_elem_of_In & Hb).
    exists K1, s. split; [done|]. apply Hreq, lock_run_step.
    apply (lock_busy K1 s id k); [unfold K1, assign; by rewrite decide_True|].
    by apply (busy_users K1 _ s k (inv_refines _ _ _ Hi1)). }
  destruct (table_full hash (allocated m ks deadline) ks) eqn:E2;
    [exists K1, s; split; [done|apply Hreq, lock_run_nil]|].
  rewrite (transition_eq _ id w) by done. cbn [fst snd try_events].
  destruct (direct_inv K1 s _ p id w Hi1 Hw eq_refl eq_refl E1 E2) as [Hstep Hi2].
  eexists K1, _. split; [exact Hi2|]. by apply Hreq, lock_run_step.
Qed.

Lemma act_matched K s y l y' : inv K s y -> act y l y' -> matched K s l y'.
Proof.
  intros Hi Hs. destruct Hs; [by apply matched_new|by apply matched_try|by eapply matched_register|
    by apply matched_promote|by eapply matched_abort|by apply matched_consume|by eapply matched_release].
Qed.

Lemma run_matched K s y l y' : inv K s y -> run y l y' -> matched K s l y'.
Proof.
  intros Hi Hs. revert K s Hi. induction Hs as [y|y l y1 l' y2 Ha _ IH]; intros K s Hi.
  - exists K, s. split; [done|apply lock_run_nil].
  - destruct (act_matched K s y l y1 Hi Ha) as (K1 & s1 & Hi1 & Hl).
    destruct (IH K1 s1 Hi1) as (K2 & s2 & Hi2 & Hl'). exists K2, s2. split; [done|by eapply lock_run_app].
Qed.

(** ** Initial states *)
Lemma config_new_ok a b c d e config :
  config_new a b c d e = Ok config -> 0 <= b -> 0 <= c -> 0 <= d -> 0 <= e ->
  config = mkConfig a b c d e /\ 1 <= b <= MAX_COMMAND_CONFLICT_KEYS_V1 /\
  1 <= c <= MAX_KEYS_PER_SHARD_LIMIT /\ 1 <= d <= MAX_WAITERS_LIMIT /\
  1 <= e <= MAX_WAITERS_PER_KEY_LIMIT /\ e <= d.
Proof.
  unfold config_new, check_config_bound. intros H Hb Hc Hd He.
  repeat match type of H with
  | context [if ?x then Err _ else Ok _] => destruct x eqn:?; [done|]; cbn in H
  end.
  injection H as <-. rewrite ?orb_false_iff in *. split_and!; try done; lia.
Qed.

Lemma init_inv a b c d e config :
  config_new a b c d e = Ok config -> 0 <= b -> 0 <= c -> 0 <= d -> 0 <= e ->
  inv (fun _ => []) (mkLock [] []) (init config).
Proof.
  intros H Hb Hc Hd He. apply config_new_ok in H as (-> & ? & ? & ? & ? & ?); [|done..].
  split; cbn [init sys_m sys_pending]; unfold manager_new.
  - split; cbn [live order cm_table cm_waiters cm_queued cm_next_id]; try done.
    + split; cbn [live order]; [apply NoDup_nil_2|apply NoDup_nil_2|intros x Hx|intros x y Hx]; by apply elem_of_nil in Hx.
    + intros id. rewrite elem_of_nil. split; [done|]. intros (w & Hw & _). by rewrite lookup_empty in Hw.
    + intros id. rewrite elem_of_nil. split; [done|]. intros (w & Hw & _). by rewrite lookup_empty in Hw.
  - split; cbn [cm_config max_waiters max_waiters_per_key order]; [lia| | |].
    + change (zlen (@nil Z)) with 0. lia.
    + intros k. change (zlen (users (fun _ => []) [] k)) with 0. lia.
    + intros n. unfold shard_len. cbn [cm_table manager_new max_keys_per_shard].
      rewrite map_filter_empty, map_size_empty. lia.
  - intros v [Hv _]. by apply elem_of_nil in Hv.
Qed.

Lemma steps_inv K s y y' : inv K s y -> rtc step y y' -> exists K' s', inv K' s' y'.
Proof.
  intros Hi Hs. revert K s Hi. induction Hs as [|y1 y2 y3 Hs Hr IH]; intros K s Hi; [eauto|].
  destruct Hs as [l Hs]. destruct (act_matched K s y1 l y2 Hi Hs) as (K' & s' & Hi' & _). eauto.
Qed.

Lemma reachable_inv y : reachable y -> exists K s, inv K s y.
Proof.
  intros (a & b & c & d & e & config & Hc & ? & ? & ? & ? & Hs).
  eapply steps_inv; [by eapply init_inv|done].
Qed.

Lemma reachable_step y y' : reachable y -> step y y' -> reachable y'.
Proof.
  intros (a & b & c & d & e & config & Hc & ? & ? & ? & ? & Hs) Hstep.
  exists a, b, c, d, e, config. split_and!; try done. eapply rtc_r; eauto.
Qed.


(** ** What clients rely on *)

(** C1. The manager refines the abstract FIFO lock.  Take any run of critical
    sections of a manager with a valid configuration, and the events its
    arguments and answers tell: the keys each acquisition asked for, that it was
    queued, granted, not granted yet, given a lease at once, found a key busy,
    withdrew or gave its keys up.  The abstract lock, started empty, has a run
    with the same events, in the same order, to a lock the final manager state
    represents.  That lock grants an acquisition exactly when no holder and no
    earlier waiter shares a key with it, and leases at once, or answers busy,
    exactly when no key has a holder or waiter, or some key has one. *)
Theorem conflict_manager_refines_lock a b c d e config events y :
  config_new a b c d e = Ok config -> 0 <= b -> 0 <= c -> 0 <= d -> 0 <= e ->
  run (init config) events y ->
  exists K s, lock_run (fun _ => [], mkLock [] []) events (K, s) /\ inv K s y.
Proof.
  intros Hc ? ? ? ? Hrun.
  destruct (run_matched (fun _ => []) (mkLock [] []) (init config) events y) as (K & s & Hi & Hl);
    [by eapply init_inv|done|]. by exists K, s.
Qed.

(** C2. Leases are exclusive and complete.  In every reachable state each lease
    (granted or consumed) holds every one of its keys, every held key is held
    by a lease that asked for it, and two leases never share a key. *)
Theorem leases_exclusive y a b wa wb k :
  reachable y -> cm_waiters (sys_m y) !! a = Some wa -> live_state (w_state wa) -> k ∈ w_keys wa ->
  (exists st, cm_table (sys_m y) !! k = Some st /\ ks_holder st = Some a) /\
  (cm_waiters (sys_m y) !! b = Some wb -> live_state (w_state wb) -> k ∈ w_keys wb -> a = b).
Proof.
  intros (K & s & Hi)%reachable_inv Ha Hsa Hka. pose proof (inv_refines _ _ _ Hi) as Hr.
  assert (forall x w, cm_waiters (sys_m y) !! x = Some w -> live_state (w_state w) -> k ∈ w_keys w ->
            users K (live s) k = [x]) as Huse.
  { intros x w Hw Hs Hk. destruct (rf_keys _ _ _ Hr _ _ Hw) as (E & _ & _).
    assert (x ∈ users K (live s) k) as Hu
      by (apply elem_of_users; rewrite <- E; split; [apply (rf_live _ _ _ Hr); eauto|done]).
    destruct (live_user_unique K s k (rf_lock _ _ _ Hr)) as [E0|[z E0]]; rewrite E0 in *;
      [by apply elem_of_nil in Hu|by apply list_elem_of_singleton in Hu as ->]. }
  split.
  - rewrite (rf_table _ _ _ Hr k), (Huse a wa) by done. cbn. destruct (users K (order s) k); eauto.
  - intros Hb Hsb Hkb. pose proof (Huse a wa Ha Hsa Hka) as E1. pose proof (Huse b wb Hb Hsb Hkb) as E2.
    rewrite E1 in E2. by injection E2.
Qed.

(** C24. No lost wake-up.  When no promotion is pending and some acquisition is
    queued, there is a queued acquisition which is first in the queue of every
    one of its keys, and one of those keys is held by a lease: the waiters are
    blocked by work in progress, never by each other. *)
Theorem no_lost_wakeup y id w :
  reachable y -> sys_pending y = [] -> cm_waiters (sys_m y) !! id = Some w ->
  w_state w = WS_Waiting -> w_queued w = true ->
  exists first wf, cm_waiters (sys_m y) !! first = Some wf /\ w_state wf = WS_Waiting /\
    (forall k, k ∈ w_keys wf -> exists st, cm_table (sys_m y) !! k = Some st /\ head (ks_waiters st) = Some first) /\
    exists k holder wh, k ∈ w_keys wf /\ cm_waiters (sys_m y) !! holder = Some wh /\
      live_state (w_state wh) /\ k ∈ w_keys wh.
Proof.
  intros (K & s & [Hr Hb Hp])%reachable_inv Hp0 Hw Hs Hq.
  assert (id ∈ order s) as Hid by (apply (rf_order _ _ _ Hr); eauto).
  destruct (order s) as [|first rest] eqn:Eo; [by apply elem_of_nil in Hid|].
  assert (first ∈ order s) as Hf by (rewrite Eo; left).
  destruct (proj1 (rf_order _ _ _ Hr first) Hf) as (wf & Hwf & Hsf & _).
  destruct (rf_keys _ _ _ Hr _ _ Hwf) as (Ek & _ & _).
  assert (forall k, k ∈ K first -> head (users K (order s) k) = Some first) as Hfront
    by (intros k Hk; by rewrite Eo, users_cons, decide_True).
  exists first, wf. split_and!; [done|done| |].
  - intros k Hk. rewrite Ek in Hk. specialize (Hfront k Hk). rewrite (rf_table _ _ _ Hr k).
    destruct (users K (order s) k) as [|f q]; [done|].
    destruct (head (users K (live s) k)); eexists; (split; [done|exact Hfront]).
  - destruct (decide (Exists (fun k => users K (live s) k <> []) (K first))) as [Hex|Hno].
    + apply Exists_exists in Hex as (k & Hk & Hu).
      destruct (users K (live s) k) as [|h l] eqn:Eu; [done|].
      assert (h ∈ users K (live s) k) as [Hh Hkh]%elem_of_users by (rewrite Eu; left).
      apply (rf_live _ _ _ Hr) in Hh as (wh & Hwh & Hsh).
      destruct (rf_keys _ _ _ Hr _ _ Hwh) as (Eh & _ & _).
      exists k, h, wh. rewrite Ek, Eh. done.
    + assert (eligible K s first) as He.
      { split; [done|]. intros k Hk. split; [|by apply Hfront].
        destruct (users K (live s) k) eqn:Eu; [done|]. exfalso. apply Hno, Exists_exists.
        exists k. by rewrite Eu. }
      apply Hp in He. rewrite Hp0 in He. by apply elem_of_nil in He.
Qed.

(** Queues are FIFO and consistent.  A key's queue holds exactly the queued
    acquisitions that want it, each once, and any two of them appear in the
    same order in every queue they share; a grant only ever takes an
    acquisition that is at the front of all of its queues. *)
Theorem queues_consistent y :
  reachable y ->
  exists arrivals, NoDup arrivals /\
    (forall k, from_option ks_waiters [] (cm_table (sys_m y) !! k) =
       filter (fun id => k ∈ from_option w_keys [] (cm_waiters (sys_m y) !! id)) arrivals) /\
    (forall id m', try_grant (sys_m y) id = (m', true) ->
       forall k, k ∈ from_option w_keys [] (cm_waiters (sys_m y) !! id) ->
         exists st, cm_table (sys_m y) !! k = Some st /\ ks_holder st = None /\ head (ks_waiters st) = Some id).
Proof.
  intros (K & s & [Hr Hb Hp])%reachable_inv. exists (order s). split_and!; [apply Hr| |].
  - intros k. rewrite (rf_table _ _ _ Hr k), entry_waiters. apply filter_ext_elem.
    intros id Hid. destruct (order_waiter K _ s id Hr Hid) as [w Hw]. rewrite Hw. cbn.
    by destruct (rf_keys _ _ _ Hr _ _ Hw) as (-> & _).
  - intros id m' Hg k Hk. unfold try_grant in Hg.
    destruct (cm_waiters (sys_m y) !! id) as [w|] eqn:Hw; [|done]. destruct (negb _); [done|].
    cbn in Hk. destruct (rf_keys _ _ _ Hr _ _ Hw) as (E & _). rewrite E in Hk.
    destruct (try_grant_locked_spec K _ s id Hr) as [[Hf _]|(m1 & _ & He & _)]; [congruence|].
    destruct He as [_ He]. destruct (He k Hk) as [Hl Hh]. rewrite (rf_table _ _ _ Hr k), Hl.
    destruct (users K (order s) k) as [|f q]; [done|]. by eexists.
Qed.

(** Capacity.  In every reachable state the queued-waiter counter is the
    number of queued waiters and stays within the configured total, every
    key's queue within the per-key bound, and every shard's table within the
    per-shard bound. *)
Theorem capacity_respected y :
  reachable y ->
  0 <= cm_queued (sys_m y) <= max_waiters (cm_config (sys_m y)) /\
  (forall k st, cm_table (sys_m y) !! k = Some st ->
     zlen (ks_waiters st) <= max_waiters_per_key (cm_config (sys_m y))) /\
  (forall n, shard_len hash (sys_m y) n <= max_keys_per_shard (cm_config (sys_m y))) /\
  (exists arrivals, NoDup arrivals /\ cm_queued (sys_m y) = zlen arrivals /\
     forall id, id ∈ arrivals <-> exists w, cm_waiters (sys_m y) !! id = Some w /\ w_queued w = true).
Proof.
  intros (K & s & [Hr [B1 B2 B3 B4] Hp])%reachable_inv. split_and!.
  - rewrite (rf_count _ _ _ Hr). apply zlen_nonneg.
  - rewrite (rf_count _ _ _ Hr). done.
  - intros k st Hst. rewrite (rf_table _ _ _ Hr k) in Hst. apply entry_holder in Hst as [_ ->]. apply B3.
  - done.
  - exists (order s). split_and!; [apply Hr|apply Hr|]. intros id. rewrite (rf_order _ _ _ Hr).
    split; intros (w & Hw & Hq); exists w; [by destruct Hq|].
    split_and!; [done|by apply (rf_flag _ _ _ Hr id)|done].
Qed.

End system.

(** ** A concrete run

    Two acquisitions over overlapping keys: the first is granted, the second
    waits behind it. *)
Definition sample_hash (k : list byte) : list byte := k.
Definition sample_config : ConflictManagerConfig := mkConfig 4 8 16 32 8.
Definition sample_key1 : ConflictKey := [Byte.x01].
Definition sample_key2 : ConflictKey := [Byte.x02].
Definition sample_m1 : Manager := fst (acquisition_new [sample_key1] 100 (manager_new sample_config)).
Definition sample_m2 : Manager := fst (register sample_hash sample_m1 1).
Definition sample_m3 : Manager := fst (acquisition_new [sample_key2; sample_key1; sample_key2] 100 sample_m2).
Definition sample_m4 : Manager := fst (register sample_hash sample_m3 2).

Lemma sample_reachable_m1 : reachable sample_hash (mkSys sample_m1 []).
Proof.
  exists 4, 8, 16, 32, 8, sample_config. split_and!; [reflexivity|lia|lia|lia|lia|].
  apply rtc_once. apply step_new.
Qed.

Lemma sample_reachable : reachable sample_hash (mkSys sample_m4 []).
Proof.
  eapply reachable_step; [eapply reachable_step; [eapply reachable_step; [apply sample_reachable_m1|]|]|].
  - apply (step_register _ sample_m1 [] 1 (mkWaiter [sample_key1] 100 WS_Waiting false)); vm_compute; reflexivity.
  - apply (step_new _ sample_m2 [] [sample_key2; sample_key1; sample_key2] 100).
  - apply (step_register _ sample_m3 [] 2 (mkWaiter [sample_key1; sample_key2] 100 WS_Waiting false));
      vm_compute; reflexivity.
Qed.

Definition sample_events : list LockEvent :=
  [L_Request 1 [sample_key1]; L_Enqueue 1; L_Grant 1;
   L_Request 2 [sample_key2; sample_key1; sample_key2]; L_Enqueue 2; L_Refuse 2].

Lemma conflict_manager_refines_lock_witness :
  exists K s, lock_run (fun _ => [], mkLock [] []) sample_events (K, s) /\
    inv sample_hash K s (mkSys sample_m4 []).
Proof.
  apply (conflict_manager_refines_lock sample_hash 4 8 16 32 8 sample_config sample_events
           (mkSys sample_m4 [])); [reflexivity|lia|lia|lia|lia|].
  apply (run_cons sample_hash _ [L_Request 1 [sample_key1]] (mkSys sample_m1 [])).
  { apply (sys_new sample_hash (manager_new sample_config) [] [sample_key1] 100). }
  apply (run_cons sample_hash _ [L_Enqueue 1; L_Grant 1] (mkSys sample_m2 [])).
  { apply (sys_register sample_hash sample_m1 [] 1 (mkWaiter [sample_key1] 100 WS_Waiting false));
      vm_compute; reflexivity. }
  apply (run_cons sample_hash _ [L_Request 2 [sample_key2; sample_key1; sample_key2]] (mkSys sample_m3 [])).
  { apply (sys_new sample_hash sample_m2 [] [sample_key2; sample_key1; sample_key2] 100). }
  apply (run_cons sample_hash _ [L_Enqueue 2; L_Refuse 2] (mkSys sample_m4 []) []); [|apply run_nil].
  apply (sys_register sample_hash sample_m3 [] 2 (mkWaiter [sample_key1; sample_key2] 100 WS_Waiting false));
    vm_compute; reflexivity.
Defined.

Lemma leases_exclusive_witness :
  exists st, cm_table sample_m4 !! sample_key1 = Some st /\ ks_holder st = Some 1.
Proof.
  destruct (leases_exclusive sample_hash (mkSys sample_m4 []) 1 1
              (mkWaiter [sample_key1] 100 WS_Granted false) (mkWaiter [sample_key1] 100 WS_Granted false)
              sample_key1 sample_reachable) as [H _].
  - vm_compute. reflexivity.
  - left. reflexivity.
  - left.
  - exact H.
Defined.

Lemma no_lost_wakeup_witness :
  exists first wf, cm_waiters sample_m4 !! first = Some wf /\ w_state wf = WS_Waiting /\
    (forall k, k ∈ w_keys wf -> exists st, cm_table sample_m4 !! k = Some st /\ head (ks_waiters st) = Some first) /\
    exists k holder wh, k ∈ w_keys wf /\ cm_waiters sample_m4 !! holder = Some wh /\
      live_state (w_state wh) /\ k ∈ w_keys wh.
Proof.
  apply (no_lost_wakeup sample_hash (mkSys sample_m4 []) 2
           (mkWaiter [sample_key1; sample_key2] 100 WS_Waiting true) sample_reachable);
    vm_compute; reflexivity.
Defined.

Lemma queues_consistent_witness :
  exists arrivals, NoDup arrivals /\
    (forall k, from_option ks_waiters [] (cm_table sample_m4 !! k) =
       filter (fun id => k ∈ from_option w_keys [] (cm_waiters sample_m4 !! id)) arrivals).
Proof.
  destruct (queues_consistent sample_hash (mkSys sample_m4 []) sample_reachable) as (l & H1 & H2 & _).
  exists l. exact (conj H1 H2).
Defined.

Lemma capacity_respected_witness : 0 <= cm_queued sample_m4 <= 32.
Proof. apply (capacity_respected sample_hash (mkSys sample_m4 []) sample_reachable). Defined.
