(* ===== verification/ConflictPoll.v ===== *)
(** * Acquisition futures over the conflict manager

    The life cycle of a waiter, and what one [poll] of an acquisition future
    ([Acquisition::poll]) and its [drop] do to the manager: each runs as a
    sequence of the critical sections of [ConflictSystem.step], never panics on
    an acquisition that is still in use, and never leaves a lease behind when
    it reports an error. *)

From S2P Require Import Prelude Value Conflict ConflictSpec ConflictSystem.
From stdpp Require Import list gmap relations.
Import ConflictSpec.

Local Open Scope Z_scope.

(** The transitions the source performs with [compare_exchange]. *)
Definition allowedb (a b : WaiterState) : bool :=
  match a, b with
  | WS_Waiting, (WS_Granted | WS_Cancelled | WS_TimedOut | WS_Abandoned)
  | WS_Granted, (WS_Consumed | WS_Cancelled | WS_TimedOut | WS_Abandoned)
  | WS_Consumed, WS_Released => true
  | _, _ => false
  end.

Definition deadb (a : WaiterState) : bool :=
  match a with WS_Cancelled | WS_TimedOut | WS_Abandoned | WS_Released => true | _ => false end.

Definition evolved (w w' : Waiter) : Prop :=
  w_keys w' = w_keys w /\ w_deadline w' = w_deadline w /\
  (w_state w' = w_state w \/ allowedb (w_state w) (w_state w') = true).

(** At most the waiter [id] changes, along an allowed transition. *)
Definition one_change (m m' : Manager) (id : Z) : Prop :=
  cm_waiters m' = cm_waiters m \/
  exists w w', cm_waiters m !! id = Some w /\ evolved w w' /\ cm_waiters m' = <[id:=w']> (cm_waiters m).

Definition evolves (m m' : Manager) : Prop :=
  forall id w, cm_waiters m !! id = Some w -> exists w', cm_waiters m' !! id = Some w' /\ evolved w w'.

Lemma evolved_refl w : evolved w w.
Proof. split_and!; auto. Qed.

Lemma evolves_same m m' : cm_waiters m' = cm_waiters m -> evolves m m'.
Proof. intros E id w Hw. rewrite E. exists w. split; [done|apply evolved_refl]. Qed.

Lemma one_change_evolves m m' id : one_change m m' id -> evolves m m'.
Proof.
  intros [E|(w & w' & Hw & He & E)]; [by apply evolves_same|]. intros x v Hv. rewrite E.
  destruct (decide (x = id)) as [->|Hx].
  - rewrite lookup_insert_eq. simplify_eq. eauto.
  - rewrite lookup_insert_ne by done. exists v. split; [done|apply evolved_refl].
Qed.

Lemma abort_allowed kind :
  allowedb WS_Waiting (abort_waiter_state kind) = true /\ allowedb WS_Granted (abort_waiter_state kind) = true /\
  deadb (abort_waiter_state kind) = true.
Proof. by destruct kind. Qed.

Lemma collect_waiters m keys : cm_waiters (fst (collect_candidates_and_cleanup m keys)) = cm_waiters m.
Proof. unfold collect_candidates_and_cleanup. by destruct (fold_left _ _ _). Qed.

Lemma try_grant_locked_waiters m id m' b :
  try_grant_locked m id = (m', b) ->
  (b = false /\ m' = m) \/
  exists w, cm_waiters m !! id = Some w /\ w_state w = WS_Waiting /\ b = true /\
    cm_waiters m' = <[id:=mkWaiter (w_keys w) (w_deadline w) WS_Granted false]> (cm_waiters m).
Proof.
  unfold try_grant_locked. destruct (cm_waiters m !! id) as [w|] eqn:Hw; [|intros [= <- <-]; by left].
  destruct (bool_decide (w_state w = WS_Waiting)) eqn:Hs; cbn [negb]; [|intros [= <- <-]; by left].
  apply bool_decide_eq_true in Hs.
  destruct (forallb _ _); cbn [negb]; [|intros [= <- <-]; by left].
  rewrite (transition_eq _ id w) by done.
  erewrite finish_queued_eq by apply lookup_insert_eq. intros [= <- <-]. right. exists w.
  split_and!; [done|done|done|]. unfold upd_waiter, set_table. cbn. by rewrite insert_insert_eq.
Qed.

Lemma try_grant_waiters m id m' b :
  try_grant m id = (m', b) ->
  (b = false /\ m' = m) \/
  exists w, cm_waiters m !! id = Some w /\ w_state w = WS_Waiting /\ b = true /\
    cm_waiters m' = <[id:=mkWaiter (w_keys w) (w_deadline w) WS_Granted false]> (cm_waiters m).
Proof.
  unfold try_grant. destruct (cm_waiters m !! id) as [w|] eqn:Hw; [|intros [= <- <-]; by left].
  destruct (negb _); [intros [= <- <-]; by left|]. intros H%try_grant_locked_waiters. by rewrite Hw in H.
Qed.

Lemma try_grant_change m id : one_change m (fst (try_grant m id)) id.
Proof.
  destruct (try_grant m id) as [m' b] eqn:E.
  apply try_grant_waiters in E as [[_ ->]|(w & Hw & Hs & _ & E)]; [by left|right].
  exists w, (mkWaiter (w_keys w) (w_deadline w) WS_Granted false).
  split_and!; [done| |done]. split_and!; [done|done|]. right. cbn. by rewrite Hs.
Qed.

Lemma abort_locked_waiters m id kind m' cs :
  abort_locked m id kind = (m', Some cs) ->
  exists w w', cm_waiters m !! id = Some w /\ (w_state w = WS_Waiting \/ w_state w = WS_Granted) /\
    w' = mkWaiter (w_keys w) (w_deadline w) (abort_waiter_state kind)
           (if decide (w_state w = WS_Waiting) then false else w_queued w) /\
    cm_waiters m' = <[id:=w']> (cm_waiters m).
Proof.
  unfold abort_locked. destruct (cm_waiters m !! id) as [w|] eqn:Hw; [|done].
  destruct (w_state w) eqn:Hs; try done.
  - rewrite (transition_eq m id w) by done. erewrite finish_queued_eq by apply lookup_insert_eq.
    match goal with |- context [collect_candidates_and_cleanup ?x ?k] =>
      pose proof (collect_waiters x k) as Hc; destruct (collect_candidates_and_cleanup x k) end.
    intros [= <- <-]. eexists w, _. split_and!; [done|by left|done|]. cbn in Hc. rewrite Hc.
    rewrite insert_insert_eq. by destruct (decide (w_state w = WS_Waiting)).
  - rewrite (transition_eq m id w) by done.
    match goal with |- context [collect_candidates_and_cleanup ?x ?k] =>
      pose proof (collect_waiters x k) as Hc; destruct (collect_candidates_and_cleanup x k) end.
    intros [= <- <-]. eexists w, _. split_and!; [done|by right|done|]. cbn in Hc. rewrite Hc.
    destruct (decide (w_state w = WS_Waiting)); [congruence|reflexivity].
Qed.

Lemma release_locked_waiters m id m' cs :
  release_locked m id = (m', Some cs) ->
  exists w, cm_waiters m !! id = Some w /\ w_state w = WS_Consumed /\
    cm_waiters m' = <[id:=mkWaiter (w_keys w) (w_deadline w) WS_Released (w_queued w)]> (cm_waiters m).
Proof.
  unfold release_locked. destruct (cm_waiters m !! id) as [w|] eqn:Hw; [|done].
  destruct (decide (w_state w = WS_Consumed)) as [Hs|Hs].
  - rewrite (transition_eq m id w) by done. cbn [negb].
    match goal with |- context [collect_candidates_and_cleanup ?x ?k] =>
      pose proof (collect_waiters x k) as Hc; destruct (collect_candidates_and_cleanup x k) end.
    intros [= <- <-]. exists w. split_and!; [done|done|]. cbn in Hc. by rewrite Hc.
  - unfold transition. by rewrite Hw, decide_False.
Qed.

Section poll.
Context (hash : list byte -> list byte).

Lemma register_waiters m id m' r :
  register hash m id = (m', r) ->
  match r with
  | Err _ => m' = m
  | Ok g => cm_waiters m !! id = None \/ exists w w', cm_waiters m !! id = Some w /\
      cm_waiters m' = <[id:=w']> (cm_waiters m) /\ w_keys w' = w_keys w /\ w_deadline w' = w_deadline w /\
      ((w_state w' = w_state w /\ w_queued w' = true) \/ (w_state w = WS_Waiting /\ w_state w' = WS_Granted))
  end.
Proof.
  unfold register. destruct (cm_waiters m !! id) as [w|] eqn:Hw; [|intros [= <- <-]; by left].
  destruct (existsb _ _); [by intros [= <- <-]|]. destruct (table_full _ _ _); [by intros [= <- <-]|].
  destruct (negb _); [by intros [= <- <-]|].
  match goal with |- context [try_grant_locked ?x id] => destruct (try_grant_locked x id) as [m1 g] eqn:E end.
  intros [= <- <-]. right.
  apply try_grant_locked_waiters in E as [[-> ->]|(w1 & Hw1 & Hs1 & -> & E)]; cbn [cm_waiters] in *.
  - eexists w, _. split_and!; [done|done|done|done|]. by left.
  - rewrite lookup_insert_eq in Hw1. injection Hw1 as <-. rewrite E, insert_insert_eq.
    eexists w, _. split_and!; [done|done|done|done|]. right. done.
Qed.

Lemma step_evolves y y' : reachable hash y -> step hash y y' -> evolves (sys_m y) (sys_m y').
Proof.
  intros (K & s & Hi)%reachable_inv Hs. pose proof (inv_refines _ _ _ _ Hi) as Hr.
  assert (forall m ks dl, refines K m s -> cm_next_id m <> 0 ->
            evolves m (allocated m ks dl)) as Halloc.
  { intros m ks dl Hm Hn id w Hw. exists w. split; [|apply evolved_refl]. cbn.
    rewrite lookup_insert_ne; [done|]. intros <-. rewrite (fresh_id K m s) in Hw; done. }
  destruct Hs as [l Hs]. destruct Hs as [m p keys dl|m p keys dl now c|m p id w Hw Hst Hq|m p1 p2 id|m p id kind m' cs Ha|m p id|m p id m' cs Ha];
    cbn [sys_m] in *.
  - unfold acquisition_new. destruct (canonical_key_set _ _); [|by apply evolves_same].
    rewrite next_waiter_id_eq. destruct (Z.eqb_spec (cm_next_id m) 0); [by apply evolves_same|].
    by apply (Halloc m).
  - unfold try_acquire_mut. destruct (canonical_key_set _ _) as [ks|]; [|by apply evolves_same].
    destruct c; [by apply evolves_same|]. destruct (dl <=? now); [by apply evolves_same|].
    rewrite next_waiter_id_eq. destruct (Z.eqb_spec (cm_next_id m) 0) as [|Hn]; [by apply evolves_same|].
    destruct (existsb _ _); [by apply (Halloc m)|]. destruct (table_full _ _ _); [by apply (Halloc m)|].
    erewrite transition_eq; [|apply lookup_insert_eq|done]. cbn [fst]. intros id w Hw. exists w.
    split; [|apply evolved_refl]. cbn. rewrite insert_insert_eq, lookup_insert_ne; [done|].
    intros <-. rewrite (fresh_id K m s) in Hw; done.
  - destruct (register hash m id) as [m' r] eqn:E. apply register_waiters in E. destruct r as [g|e]; cbn.
    + destruct E as [E|(w0 & w' & Hw0 & E & Hk & Hd & Hst')]; [congruence|]. apply (one_change_evolves _ _ id). right.
      exists w0, w'. split_and!; [done| |done]. split_and!; [done|done|].
      destruct Hst' as [[-> _]|[-> ->]]; [by left|by right].
    + subst. by apply evolves_same.
  - apply (one_change_evolves _ _ id), try_grant_change.
  - apply abort_locked_waiters in Ha as (w & w' & Hw & Hst & -> & E). apply (one_change_evolves _ _ id). right.
    eexists w, _. split_and!; [done| |done]. split_and!; [done|done|]. right. cbn.
    destruct (abort_allowed kind) as (A1 & A2 & _). by destruct Hst as [-> | ->].
  - unfold transition. destruct (cm_waiters m !! id) as [w|] eqn:Hw; [|by apply evolves_same].
    case_decide as Hst; [|by apply evolves_same]. apply (one_change_evolves _ _ id). right.
    eexists w, _. split_and!; [done| |done]. split_and!; [done|done|]. right. cbn. by rewrite Hst.
  - apply release_locked_waiters in Ha as (w & Hw & Hst & E). apply (one_change_evolves _ _ id). right.
    eexists w, _. split_and!; [done| |done]. split_and!; [done|done|]. right. cbn. by rewrite Hst.
Qed.

(** Life cycle.  In any interleaving a waiter keeps its key set and
    deadline, moves only along the transitions waiting -> granted -> consumed ->
    released and waiting or granted -> cancelled, timed out or abandoned, and
    once in a final state stays there: a lease is released exactly once and a
    cancelled acquisition is never granted. *)
Theorem waiter_lifecycle y y' id w :
  reachable hash y -> step hash y y' -> cm_waiters (sys_m y) !! id = Some w ->
  exists w', cm_waiters (sys_m y') !! id = Some w' /\
    w_keys w' = w_keys w /\ w_deadline w' = w_deadline w /\
    (w_state w' = w_state w \/ allowedb (w_state w) (w_state w') = true) /\
    (deadb (w_state w) = true -> w_state w' = w_state w).
Proof.
  intros Hy Hs Hw. destruct (step_evolves y y' Hy Hs id w Hw) as (w' & Hw' & Hk & Hd & Hst).
  exists w'. split_and!; try done. intros Hdead. destruct Hst as [|Hst]; [done|]. by destruct (w_state w).
Qed.


(** ** Whole operations as sequences of critical sections *)
Lemma steps_reachable y y' : reachable hash y -> rtc (step hash) y y' -> reachable hash y'.
Proof.
  intros Hy Hs. induction Hs as [|y1 y2 y3 Hs _ IH]; [done|]. apply IH. by eapply reachable_step.
Qed.

Lemma steps_dead y y' id w :
  reachable hash y -> rtc (step hash) y y' -> cm_waiters (sys_m y) !! id = Some w -> deadb (w_state w) = true ->
  exists w', cm_waiters (sys_m y') !! id = Some w' /\ w_state w' = w_state w.
Proof.
  intros Hy Hs. revert w. induction Hs as [|y1 y2 y3 Hs Hr IH]; intros w Hw Hd; [eauto|].
  destruct (step_evolves y1 y2 Hy Hs id w Hw) as (w' & Hw' & _ & _ & Hst).
  assert (w_state w' = w_state w) as E by (destruct Hst as [|Hst]; [done|]; by destruct (w_state w)).
  destruct (IH ltac:(by eapply reachable_step) w' Hw') as (w'' & Hw'' & E'); [by rewrite E|].
  exists w''. by rewrite E', E.
Qed.

Lemma candidates_steps m p cs : rtc (step hash) (mkSys m (p ++ cs)) (mkSys (try_candidates m cs) p).
Proof.
  revert m. induction cs as [|c cs IH]; intros m; cbn [try_candidates fold_left].
  - rewrite app_nil_r. apply rtc_refl.
  - eapply rtc_l; [apply (step_promote hash m p cs c)|]. apply IH.
Qed.

(** Waiting is the only state in which the queued flag is up. *)
Lemma queued_waiting y id w :
  reachable hash y -> cm_waiters (sys_m y) !! id = Some w -> w_queued w = true -> w_state w = WS_Waiting.
Proof. intros (K & s & Hi)%reachable_inv Hw Hq. by apply (rf_flag _ _ _ (inv_refines _ _ _ _ Hi) id w). Qed.

Lemma abort_outcome m p id kind w :
  reachable hash (mkSys m p) -> cm_waiters m !! id = Some w ->
  rtc (step hash) (mkSys m p) (mkSys (fst (abort m id kind)) p) /\
  exists w', cm_waiters (fst (abort m id kind)) !! id = Some w' /\
    w_state w' = (match w_state w with WS_Waiting | WS_Granted => abort_waiter_state kind | st => st end) /\
    (w_state w <> WS_Waiting -> w_state w <> WS_Granted -> w' = w).
Proof.
  intros Hy Hw. unfold abort. destruct (abort_locked m id kind) as [m1 [cs|]] eqn:E; cbn [fst].
  - pose proof (step_abort hash m p id kind m1 cs E) as Hstep.
    pose proof (candidates_steps m1 p cs) as Hsteps.
    apply abort_locked_waiters in E as (w0 & w1 & Hw0 & Hst & -> & E). simplify_eq.
    split; [by eapply rtc_l|].
    destruct (steps_dead _ _ id (mkWaiter (w_keys w) (w_deadline w) (abort_waiter_state kind)
        (if decide (w_state w = WS_Waiting) then false else w_queued w))
      (reachable_step _ _ _ Hy Hstep) Hsteps) as (w' & Hw' & E');
      [cbn [sys_m]; rewrite E; apply lookup_insert_eq|apply abort_allowed|].
    exists w'. split_and!; [done| |by destruct Hst]. rewrite E'. cbn. by destruct Hst as [-> | ->].
  - assert (m1 = m /\ w_state w <> WS_Waiting /\ w_state w <> WS_Granted) as (-> & H1 & H2).
    { unfold abort_locked in E. rewrite Hw in E. destruct (w_state w) eqn:Hs; try (injection E as <-; done).
      - destruct (transition _ _ _ _). destruct (collect_candidates_and_cleanup _ _). done.
      - destruct (transition _ _ _ _). destruct (collect_candidates_and_cleanup _ _). done. }
    split; [apply rtc_refl|]. exists w. split_and!; [done| |done]. by destruct (w_state w).
Qed.

Lemma release_outcome m p id w :
  reachable hash (mkSys m p) -> cm_waiters m !! id = Some w -> w_state w = WS_Consumed ->
  rtc (step hash) (mkSys m p) (mkSys (fst (release m id)) p) /\
  exists w', cm_waiters (fst (release m id)) !! id = Some w' /\ w_state w' = WS_Released.
Proof.
  intros Hy Hw Hs. unfold release. destruct (release_locked m id) as [m1 [cs|]] eqn:E; cbn [fst].
  - pose proof (step_release hash m p id m1 cs E) as Hstep. pose proof (candidates_steps m1 p cs) as Hsteps.
    apply release_locked_waiters in E as (w0 & Hw0 & _ & E). simplify_eq. split; [by eapply rtc_l|].
    destruct (steps_dead _ _ id (mkWaiter (w_keys w) (w_deadline w) WS_Released (w_queued w))
      (reachable_step _ _ _ Hy Hstep) Hsteps) as (w' & Hw' & E');
      [cbn [sys_m]; rewrite E; apply lookup_insert_eq|done|]. eauto.
  - unfold release_locked in E. rewrite Hw, (transition_eq m id w) in E by done. cbn [negb] in E.
    by destruct (collect_candidates_and_cleanup _ _).
Qed.

(** An acquisition in use: its waiter exists, has been registered if the
    acquisition says so, and its grant has not been consumed. *)
Definition acq_ok (m : Manager) (a : Acquisition) : Prop :=
  acq_completed a = false /\
  (acq_initial_error a = None -> exists id w, acq_waiter a = Some id /\ cm_waiters m !! id = Some w /\
     if acq_registered a
     then (w_state w = WS_Waiting -> w_queued w = true) /\ w_state w <> WS_Consumed /\ w_state w <> WS_Released
     else w_state w = WS_Waiting /\ w_queued w = false).

(** The waiter holds nothing and waits for nothing. *)
Definition gone (m : Manager) (a : Acquisition) : Prop :=
  forall id w, acq_waiter a = Some id -> cm_waiters m !! id = Some w ->
    ~ live_state (w_state w) /\ w_queued w = false.

Definition outcome_ok (m' : Manager) (a a' : Acquisition) (r : PollResult) : Prop :=
  match r with
  | P_Panic => False
  | P_Pending => acq_ok m' a' /\ acq_registered a' = true /\ acq_waiter a' = acq_waiter a
  | P_Lease id => acq_completed a' = true /\ acq_waiter a = Some id /\
      exists w, cm_waiters m' !! id = Some w /\ w_state w = WS_Consumed
  | P_Error _ => acq_completed a' = true /\ (acq_initial_error a = None -> gone m' a)
  end.

Lemma gone_dead m p a id w :
  reachable hash (mkSys m p) -> acq_waiter a = Some id -> cm_waiters m !! id = Some w ->
  deadb (w_state w) = true -> gone m a.
Proof.
  intros Hy Ha Hw Hd id' w' Ha' Hw'. simplify_eq. split.
  - intros [E|E]; by rewrite E in Hd.
  - destruct (w_queued w) eqn:E; [|done]. rewrite (queued_waiting _ _ _ Hy Hw E) in Hd. done.
Qed.

Lemma poll_state_outcome v a id m p w :
  reachable hash (mkSys m p) -> acq_waiter a = Some id -> cm_waiters m !! id = Some w ->
  acq_completed a = false -> acq_registered a = true -> acq_initial_error a = None ->
  (w_state w = WS_Waiting -> w_queued w = true) -> w_state w <> WS_Consumed -> w_state w <> WS_Released ->
  rtc (step hash) (mkSys m p) (mkSys (fst (poll_state v a id m)) p) /\
  outcome_ok (fst (poll_state v a id m)) a (fst (snd (poll_state v a id m))) (snd (snd (poll_state v a id m))).
Proof.
  intros Hy Ha Hw Hc Hreg He Hq Hn1 Hn2. unfold poll_state. rewrite Hw.
  destruct (w_state w) eqn:Hs; try done.
  - destruct (registration_refused v) as [mx|].
    + destruct (abort_outcome m p id AK_Abandoned w Hy Hw) as [Hsteps (w' & Hw' & E & _)].
      rewrite Hs in E. split; [done|]. split; [done|]. intros _.
      by eapply (gone_dead _ p _ id w'); [eapply steps_reachable| | |rewrite E].
    + split; [apply rtc_refl|]. cbn. split_and!; [|done|done]. split; [done|]. intros _.
      exists id, w. rewrite Hreg, Hs. auto.
  - pose proof (step_consume hash m p id) as Hstep. rewrite (transition_eq m id w) in Hstep |- * by done. cbn [fst] in Hstep.
    set (m1 := upd_waiter _ _ _ _ _) in *.
    set (w1 := mkWaiter (w_keys w) (w_deadline w) WS_Consumed (w_queued w)) in *.
    assert (cm_waiters m1 !! id = Some w1) as Hw1 by apply lookup_insert_eq.
    assert (reachable hash (mkSys m1 p)) as Hy1 by (by eapply reachable_step).
    destruct (release_outcome m1 p id w1 Hy1 Hw1 eq_refl) as [Hsteps (w' & Hw' & E)].
    assert (rtc (step hash) (mkSys m p) (mkSys (fst (release m1 id)) p)) as Hall by (by eapply rtc_l).
    assert (gone (fst (release m1 id)) a) as Hgone.
    { eapply (gone_dead _ p _ id w'); [by eapply steps_reachable|done|done|by rewrite E]. }
    destruct (cancelled_consumed v); [by split|]. destruct (_ <=? _); [by split|].
    split; [by apply rtc_once|]. cbn. split_and!; [done|done|]. eauto.
  - split; [apply rtc_refl|]. split; [done|]. intros _. eapply (gone_dead m p a id w); try done. by rewrite Hs.
  - split; [apply rtc_refl|]. split; [done|]. intros _. eapply (gone_dead m p a id w); try done. by rewrite Hs.
  - split; [apply rtc_refl|]. split; [done|]. intros _. eapply (gone_dead m p a id w); try done. by rewrite Hs.
Qed.

Lemma abort_if_outcome (b : bool) m p id kind w :
  reachable hash (mkSys m p) -> cm_waiters m !! id = Some w ->
  rtc (step hash) (mkSys m p) (mkSys (abort_if b m id kind) p) /\
  exists w', cm_waiters (abort_if b m id kind) !! id = Some w' /\
    (b = true -> w_state w = WS_Waiting \/ w_state w = WS_Granted -> deadb (w_state w') = true) /\
    (b = false \/ (w_state w <> WS_Waiting /\ w_state w <> WS_Granted) -> w' = w) /\
    (w_state w' = w_state w /\ w' = w \/ deadb (w_state w') = true /\ w_state w' <> WS_Released).
Proof.
  intros Hy Hw. unfold abort_if. destruct b.
  - destruct (abort_outcome m p id kind w Hy Hw) as [Hsteps (w' & Hw' & E & Hsame)]. split; [done|].
    exists w'. destruct (abort_allowed kind) as (_ & _ & Hd). split_and!; [done| | |].
    + intros _ [E'|E']; rewrite E, E'; done.
    + intros [|[? ?]]; [done|]. auto.
    + destruct (w_state w) eqn:Hs; try (left; split; [done|by apply Hsame]);
        right; rewrite E; split; try done; by destruct kind.
  - split; [apply rtc_refl|]. exists w. split_and!; try done. by left.
Qed.


(** After registration: a possible abort, then the state dispatch. *)
Lemma poll_registered v a id m p w (b1 b2 : bool) :
  reachable hash (mkSys m p) -> acq_waiter a = Some id -> cm_waiters m !! id = Some w ->
  acq_completed a = false -> acq_registered a = true -> acq_initial_error a = None ->
  (w_state w = WS_Waiting -> w_queued w = true) -> w_state w <> WS_Consumed -> w_state w <> WS_Released ->
  let m1 := if b1 then fst (abort m id AK_Cancelled) else abort_if b2 m id AK_DeadlineExceeded in
  rtc (step hash) (mkSys m p) (mkSys (fst (poll_state v a id m1)) p) /\
  outcome_ok (fst (poll_state v a id m1)) a (fst (snd (poll_state v a id m1))) (snd (snd (poll_state v a id m1))).
Proof.
  intros Hy Ha Hw Hc Hreg He Hq Hn1 Hn2 m1.
  assert (rtc (step hash) (mkSys m p) (mkSys m1 p) /\ exists w', cm_waiters m1 !! id = Some w' /\
            (w_state w' = w_state w /\ w' = w \/ deadb (w_state w') = true /\ w_state w' <> WS_Released))
    as [Hsteps (w' & Hw' & Hcase)].
  { unfold m1. destruct b1.
    - destruct (abort_if_outcome true m p id AK_Cancelled w Hy Hw) as [? (w' & ? & _ & _ & ?)]. eauto.
    - destruct (abort_if_outcome b2 m p id AK_DeadlineExceeded w Hy Hw) as [? (w' & ? & _ & _ & ?)]. eauto. }
  destruct (poll_state_outcome v a id m1 p w') as [Hs2 Ho]; try done.
  - by eapply steps_reachable.
  - destruct Hcase as [[_ ->]|[Hd _]]; [done|]. intros E. by rewrite E in Hd.
  - destruct Hcase as [[-> _]|[Hd _]]; [done|]. intros E. by rewrite E in Hd.
  - by destruct Hcase as [[-> _]|[_ ?]].
  - split; [by etrans|done].
Qed.

(** Polling.  From a reachable state, one poll of an acquisition in use runs
    as a sequence of the manager's critical sections and never panics.  If it
    yields a lease, the waiter's grant is consumed by it; if it stays pending,
    the acquisition is registered and still in use; and if it reports an error
    (capacity, cancellation, deadline), its waiter holds no key and waits in no
    queue. *)
Theorem poll_outcome v a m p :
  reachable hash (mkSys m p) -> acq_ok m a ->
  rtc (step hash) (mkSys m p) (mkSys (fst (poll hash v a m)) p) /\
  outcome_ok (fst (poll hash v a m)) a (fst (snd (poll hash v a m))) (snd (snd (poll hash v a m))).
Proof.
  intros Hy [Hc Hok]. unfold poll. rewrite Hc.
  destruct (acq_initial_error a) as [e|] eqn:He.
  { split; [apply rtc_refl|]. split; [done|]. rewrite He. done. }
  destruct (Hok eq_refl) as (id & w & Ha & Hw & Hst). rewrite Ha, Hw.
  assert (forall kind r,
    rtc (step hash) (mkSys m p) (mkSys (abort_if (acq_registered a) m id kind) p) /\
    outcome_ok (abort_if (acq_registered a) m id kind) a (fst (finish a (P_Error r))) (P_Error r)) as Hearly.
  { intros kind r. destruct (abort_if_outcome (acq_registered a) m p id kind w Hy Hw)
      as [Hsteps (w' & Hw' & Hd & Hsame & _)].
    split; [done|]. split; [done|]. intros _. destruct (acq_registered a) eqn:Hreg.
    - destruct Hst as (_ & Hn1 & Hn2).
      apply (gone_dead _ p a id w'); [by eapply steps_reachable|done|done|].
      destruct (w_state w) eqn:Hs; try done; try (apply Hd; auto; done);
        rewrite Hsame by (right; split; congruence); by rewrite Hs.
    - rewrite Hsame in Hw' by (by left). intros id' w'' Ha' Hw''. simplify_eq. destruct Hst as [Hs Hq].
      rewrite Hs. split; [by intros [|]|done]. }
  destruct (cancelled_entry v); [apply Hearly|]. destruct (w_deadline w <=? now_entry v); [apply Hearly|].
  destruct (acq_registered a) eqn:Hreg.
  - destruct Hst as (Hq & Hn1 & Hn2). by apply (poll_registered v a id m p w).
  - destruct Hst as [Hs Hq]. pose proof (step_register hash m p id w Hw Hs Hq) as Hstep.
    destruct (register hash m id) as [m1 [g|e]] eqn:E; apply register_waiters in E; cbn [fst] in Hstep.
    + destruct E as [E|(w0 & w1 & Hw0 & E & _ & Hd & Hcase)]; [congruence|]. simplify_eq.
      set (a1 := mkAcquisition _ _ _ _). rewrite <- Hd.
      destruct (poll_registered v a1 id m1 p w1 (cancelled_registered v) (w_deadline w1 <=? now_registered v))
        as [Hs2 Ho]; try done.
      * by eapply reachable_step.
      * rewrite E. apply lookup_insert_eq.
      * intros Hs1. destruct Hcase as [[_ ->]|[_ ?]]; [done|congruence].
      * destruct Hcase as [[? _]|[_ ?]]; congruence.
      * destruct Hcase as [[? _]|[_ ?]]; congruence.
      * split; [by eapply rtc_l|]. cbv zeta in *.
        unfold outcome_ok in *. rewrite Ha. destruct (snd (snd _)) as [|e|i|]; [exact Ho| |exact Ho|exact Ho].
        destruct Ho as [? Hg]. split; [done|]. intros _ id' w' Ha' Hw'.
        apply (Hg eq_refl id' w'); [cbn; congruence|done].
    + subst m1. split; [apply rtc_refl|]. split; [done|]. intros _ id' w' Ha' Hw'.
      assert (w' = w) as -> by (cbn in Hw'; congruence). rewrite Hs. split; [by intros [|]|done].
Qed.

(** Dropping an unfinished acquisition is clean: it runs as a sequence of
    critical sections and leaves its waiter holding nothing and queued nowhere. *)
Theorem drop_acquisition_clean a m p :
  reachable hash (mkSys m p) -> acq_ok m a -> acq_initial_error a = None ->
  rtc (step hash) (mkSys m p) (mkSys (drop_acquisition a m) p) /\ gone (drop_acquisition a m) a.
Proof.
  intros Hy [Hc Hok] He. destruct (Hok He) as (id & w & Ha & Hw & Hst).
  unfold drop_acquisition. rewrite Ha, Hc, andb_true_r.
  destruct (abort_if_outcome (acq_registered a) m p id AK_Abandoned w Hy Hw)
    as [Hsteps (w' & Hw' & Hd & Hsame & _)]. split; [done|].
  destruct (acq_registered a) eqn:Hreg.
  - destruct Hst as (_ & Hn1 & Hn2).
    apply (gone_dead _ p a id w'); [by eapply steps_reachable|done|done|].
    destruct (w_state w) eqn:Hs; try done; try (apply Hd; auto; done);
      rewrite Hsame by (right; split; congruence); by rewrite Hs.
  - rewrite Hsame in Hw' by (by left). intros id' w'' Ha' Hw''. simplify_eq. destruct Hst as [Hs Hq].
    rewrite Hs. split; [by intros [|]|done].
Qed.

End poll.

(** ** The theorems on the sample run *)
Lemma waiter_lifecycle_witness :
  exists w', cm_waiters (fst (transition sample_m4 1 WS_Granted WS_Consumed)) !! 1 = Some w' /\
    w_keys w' = [sample_key1].
Proof.
  destruct (waiter_lifecycle sample_hash (mkSys sample_m4 [])
              (mkSys (fst (transition sample_m4 1 WS_Granted WS_Consumed)) []) 1
              (mkWaiter [sample_key1] 100 WS_Granted false) sample_reachable) as (w' & H & Hk & _).
  - apply step_consume.
  - vm_compute. reflexivity.
  - exists w'. exact (conj H Hk).
Defined.

Definition sample_view : PollView := mkPollView false 0 false 0 false 0 None.
Definition sample_acquisition : Acquisition := mkAcquisition (Some 1) None false false.

Lemma sample_acq_ok : acq_ok sample_m1 sample_acquisition.
Proof.
  split; [reflexivity|]. intros _. exists 1, (mkWaiter [sample_key1] 100 WS_Waiting false).
  split; [reflexivity|]. split; [vm_compute; reflexivity|]. split; reflexivity.
Qed.

(** Polling the first acquisition yields its lease. *)
Lemma poll_outcome_witness :
  snd (snd (poll sample_hash sample_view sample_acquisition sample_m1)) = P_Lease 1 /\
  exists w, cm_waiters (fst (poll sample_hash sample_view sample_acquisition sample_m1)) !! 1 = Some w /\
    w_state w = WS_Consumed.
Proof.
  pose proof (poll_outcome sample_hash sample_view sample_acquisition sample_m1 [] sample_reachable_m1
                sample_acq_ok) as [_ H].
  assert (snd (snd (poll sample_hash sample_view sample_acquisition sample_m1)) = P_Lease 1) as E
    by (vm_compute; reflexivity).
  split; [exact E|]. rewrite E in H. exact (proj2 (proj2 H)).
Defined.

Lemma drop_acquisition_clean_witness : gone (drop_acquisition sample_acquisition sample_m1) sample_acquisition.
Proof.
  apply (drop_acquisition_clean sample_hash sample_acquisition sample_m1 [] sample_reachable_m1 sample_acq_ok).
  reflexivity.
Defined.
