(* ===== verification/Cancellation.v ===== *)
(** * Cancellation tokens

    [riffdb-conflict/src/cancellation.rs]: a cloneable signal holding the wakers
    of the acquisitions that registered with it.  A waker is an opaque number;
    operations return the wakers they wake, in order.  The search for a free
    registration number is a loop in the source and takes fuel here;
    [next_registration_fresh] shows that one more iteration than there are
    registrations always suffices. *)

From S2P Require Import Prelude.
From stdpp Require Import list gmap.

Local Open Scope Z_scope.

Definition MAX_CANCELLATION_REGISTRATIONS : Z := 1024.

Record CancellationData := mkCancellation {
  cd_cancelled : bool;
  cd_wakers : gmap Z Z;
  cd_next_registration : Z
}.

Inductive CancellationRegistrationError := CapacityExceeded (maximum : Z).

Definition cancellation_default : CancellationData := mkCancellation false ∅ 1.

(** [self.next_registration.checked_add(1).unwrap_or(1)] *)
Definition next_number (n : Z) : Z := default 1 (u_checked 64 (n + 1)).

Fixpoint next_registration (fuel : nat) (s : CancellationData) : option (CancellationData * Z) :=
  match fuel with
  | O => None
  | S fuel' =>
      let candidate := cd_next_registration s in
      let s := mkCancellation (cd_cancelled s) (cd_wakers s) (next_number candidate) in
      match cd_wakers s !! candidate with
      | None => Some (s, candidate)
      | Some _ => next_registration fuel' s
      end
  end.

Definition registration_fuel (s : CancellationData) : nat := S (size (cd_wakers s)).

(** [cancel]: the wakers taken out of the map are woken in key order. *)
Definition cancel (s : CancellationData) : CancellationData * list Z :=
  if cd_cancelled s then (s, [])
  else (mkCancellation true ∅ (cd_next_registration s), snd <$> map_to_list (cd_wakers s)).

(** [register]: the new state, the caller's registration slot, the wakers woken. *)
Definition register (registration : option Z) (waker : Z) (s : CancellationData)
    : option (CancellationData * option Z * result CancellationRegistrationError (list Z)) :=
  if cd_cancelled s then Some (s, registration, Ok [waker])
  else
    let insert (s : CancellationData) (id : Z) :=
      mkCancellation (cd_cancelled s) (<[id:=waker]> (cd_wakers s)) (cd_next_registration s) in
    match registration with
    | Some id => Some (insert s id, registration, Ok [])
    | None =>
        if MAX_CANCELLATION_REGISTRATIONS <=? Z.of_nat (size (cd_wakers s))
        then Some (s, registration, Err (CapacityExceeded MAX_CANCELLATION_REGISTRATIONS))
        else match next_registration (registration_fuel s) s with
        | None => None
        | Some (s, id) => Some (insert s id, Some id, Ok [])
        end
    end.

Definition unregister (registration : option Z) (s : CancellationData) : CancellationData * option Z :=
  match registration with
  | Some id => (mkCancellation (cd_cancelled s) (delete id (cd_wakers s)) (cd_next_registration s), None)
  | None => (s, None)
  end.

(** What every token satisfies. *)
Record token_ok (s : CancellationData) : Prop := {
  tk_size : Z.of_nat (size (cd_wakers s)) <= MAX_CANCELLATION_REGISTRATIONS;
  tk_next : 1 <= cd_next_registration s < 2 ^ 64;
  tk_cancelled : cd_cancelled s = true -> cd_wakers s = ∅
}.

(** ** The number search *)
Definition MODULUS : Z := 2 ^ 64 - 1.

(** The [i]-th number tried, starting from [n]. *)
Definition candidate (n : Z) (i : nat) : Z := (n - 1 + Z.of_nat i) mod MODULUS + 1.

Lemma candidate_0 n : 1 <= n < 2 ^ 64 -> candidate n 0 = n.
Proof. intros Hn. unfold candidate, MODULUS. rewrite Z.mod_small by lia. lia. Qed.

Lemma next_number_candidate n i : 1 <= n < 2 ^ 64 -> candidate (next_number n) i = candidate n (S i).
Proof.
  intros Hn. unfold next_number, candidate, MODULUS. destruct (u_checked 64 (n + 1)) eqn:E; cbn [from_option id].
  - apply u_checked_Some in E as [-> _]. f_equal. f_equal. lia.
  - apply u_checked_None in E. unfold u_range in E. assert (n = 2 ^ 64 - 1) as -> by lia.
    replace (2 ^ 64 - 1 - 1 + Z.of_nat (S i)) with (1 - 1 + Z.of_nat i + 1 * (2 ^ 64 - 1)) by lia.
    by rewrite Z.mod_add.
Qed.

Lemma next_number_range n : 1 <= n < 2 ^ 64 -> 1 <= next_number n < 2 ^ 64.
Proof.
  intros Hn. unfold next_number. destruct (u_checked 64 (n + 1)) eqn:E; cbn [from_option id]; [|lia].
  apply u_checked_Some in E as [-> [? ?]]. lia.
Qed.

Lemma candidate_inj n i j :
  candidate n i = candidate n j -> Z.of_nat i < MODULUS -> Z.of_nat j < MODULUS -> i = j.
Proof.
  unfold candidate, MODULUS. intros H Hi Hj.
  assert ((n - 1 + Z.of_nat i) mod (2 ^ 64 - 1) = (n - 1 + Z.of_nat j) mod (2 ^ 64 - 1)) as E by lia.
  apply (Z.cong_iff_0 _ _ (2 ^ 64 - 1)) in E. apply Z.mod_divide in E as [q E]; [|lia].
  assert (q = 0) as -> by nia. lia.
Qed.

(** [fuel] failed attempts mean [fuel] registrations. *)
Lemma next_registration_spec fuel s :
  1 <= cd_next_registration s < 2 ^ 64 ->
  match next_registration fuel s with
  | None => forall i, (i < fuel)%nat -> is_Some (cd_wakers s !! candidate (cd_next_registration s) i)
  | Some (s', id) => cd_wakers s !! id = None /\ 1 <= id < 2 ^ 64 /\
      cd_wakers s' = cd_wakers s /\ cd_cancelled s' = cd_cancelled s /\ 1 <= cd_next_registration s' < 2 ^ 64
  end.
Proof.
  revert s. induction fuel as [|fuel IH]; intros s Hs; cbn [next_registration]; [intros i Hi; lia|].
  cbn [cd_wakers]. pose proof (next_number_range _ Hs) as Hn.
  destruct (cd_wakers s !! cd_next_registration s) as [x|] eqn:E.
  - specialize (IH (mkCancellation (cd_cancelled s) (cd_wakers s) (next_number (cd_next_registration s))) Hn).
    cbn [cd_wakers cd_next_registration] in IH. destruct (next_registration fuel _) as [[s' id]|]; [done|].
    intros [|i] Hi; [rewrite candidate_0 by done; eauto|]. rewrite <- next_number_candidate by done. apply IH. lia.
  - done.
Qed.

Lemma next_registration_fresh s :
  token_ok s -> exists s' id, next_registration (registration_fuel s) s = Some (s', id) /\
    cd_wakers s !! id = None /\ 1 <= id < 2 ^ 64 /\ cd_wakers s' = cd_wakers s /\
    cd_cancelled s' = cd_cancelled s /\ 1 <= cd_next_registration s' < 2 ^ 64.
Proof.
  intros [Hsz Hn _]. pose proof (next_registration_spec (registration_fuel s) s Hn) as H.
  destruct (next_registration (registration_fuel s) s) as [[s' id]|]; [eauto 10|]. exfalso.
  unfold registration_fuel in H. set (n := size (cd_wakers s)) in *.
  set (l := candidate (cd_next_registration s) <$> seq 0 (S n)).
  assert (list_to_set l ⊆ dom (cd_wakers s)) as Hsub.
  { intros x (i & -> & Hi%elem_of_seq)%elem_of_list_to_set%list_elem_of_fmap. apply elem_of_dom, H. lia. }
  apply subseteq_size in Hsub. rewrite size_list_to_set, size_dom in Hsub.
  - unfold l in Hsub. rewrite length_fmap, length_seq in Hsub. lia.
  - apply NoDup_fmap_2_strong; [|apply NoDup_seq]. intros i j Hi%elem_of_seq Hj%elem_of_seq E.
    apply candidate_inj in E; [done|unfold MODULUS, MAX_CANCELLATION_REGISTRATIONS in *; lia..].
Qed.

(** Registering with a token always terminates and loses nothing.  On a
    cancelled token the caller's waker is woken at once; otherwise it is stored
    under the caller's number, or under a fresh one when the caller has none and
    there is room, leaving every other registration as it was; only a full
    token refuses.  The token stays within its bound. *)
Theorem cancellation_register_ok s registration waker :
  token_ok s -> (forall id, registration = Some id -> is_Some (cd_wakers s !! id) \/ cd_cancelled s = true) ->
  exists s' slot r, register registration waker s = Some (s', slot, r) /\ token_ok s' /\
    match r with
    | Err e => cd_cancelled s = false /\ registration = None /\ s' = s /\ slot = None /\
        MAX_CANCELLATION_REGISTRATIONS <= Z.of_nat (size (cd_wakers s))
    | Ok woken =>
        if cd_cancelled s then woken = [waker] /\ s' = s
        else woken = [] /\ exists id, slot = Some id /\ cd_wakers s' = <[id:=waker]> (cd_wakers s) /\
             (registration = Some id \/ registration = None /\ cd_wakers s !! id = None)
    end.
Proof.
  intros Hok Hreg. pose proof Hok as [Hsz Hn Hc]. unfold register. destruct (cd_cancelled s) eqn:Ec.
  - exists s, registration, (Ok [waker]). split_and!; done.
  - destruct registration as [id|].
    + destruct (Hreg id eq_refl) as [Hid|?]; [|done]. eexists _, _, _. split; [done|]. split.
      * split; cbn; [|done|congruence]. by rewrite map_size_insert_Some.
      * split; [done|]. exists id. split_and!; [done|done|by left].
    + destruct (Z.leb_spec MAX_CANCELLATION_REGISTRATIONS (Z.of_nat (size (cd_wakers s)))).
      * eexists _, _, _. split; [done|]. split; [done|]. done.
      * destruct (next_registration_fresh s Hok) as (s' & id & -> & Hid & _ & Hw & Hc' & Hn').
        eexists _, _, _. split; [done|]. split.
        -- split; cbn; [rewrite Hw, map_size_insert_None by done; lia|done|congruence].
        -- split; [done|]. exists id. cbn. rewrite Hw. split_and!; [done|done|by right].
Qed.

(** Cancelling wakes every stored waker, once, and leaves none behind;
    cancelling again wakes nobody. *)
Theorem cancel_wakes_all s :
  token_ok s -> token_ok (fst (cancel s)) /\ cd_cancelled (fst (cancel s)) = true /\
  cd_wakers (fst (cancel s)) = ∅ /\ snd (cancel s) = snd <$> map_to_list (cd_wakers s) /\
  cancel (fst (cancel s)) = (fst (cancel s), []).
Proof.
  intros [Hsz Hn Hc]. unfold cancel. destruct (cd_cancelled s) eqn:Ec; cbn [fst snd].
  - rewrite Hc, map_to_list_empty, Ec by done. split_and!; try done. split; [done|done|intros _; by apply Hc].
  - split_and!; done.
Qed.

Lemma unregister_ok s registration : token_ok s -> token_ok (fst (unregister registration s)).
Proof.
  intros [Hsz Hn Hc]. destruct registration as [id|]; [|by split]. split; cbn; [|done|].
  - etrans; [|exact Hsz]. apply inj_le. rewrite <- !size_dom, dom_delete. apply subseteq_size. set_solver.
  - intros E. rewrite Hc by done. apply delete_empty.
Qed.

Definition sample_token : CancellationData := mkCancellation false {[1 := 70]} 1.

Lemma sample_token_ok : token_ok sample_token.
Proof. split; [vm_compute; congruence|split; vm_compute; congruence|done]. Qed.

Lemma cancellation_register_ok_witness :
  exists s' slot r, register None 71 sample_token = Some (s', slot, r) /\ token_ok s'.
Proof.
  destruct (cancellation_register_ok sample_token None 71 sample_token_ok) as (s' & slot & r & H & Hok & _).
  - intros id H. discriminate H.
  - exists s', slot, r. exact (conj H Hok).
Defined.

Lemma cancel_wakes_all_witness : snd (cancel sample_token) = [70].
Proof.
  destruct (cancel_wakes_all sample_token sample_token_ok) as (_ & _ & _ & H & _). rewrite H. vm_compute. reflexivity.
Defined.
