(* ===== verification/ValueType.v ===== *)
(** * Static types of the contract IR

    [riffdb-contract-ir/src/value_type.rs]: the closed type algebra, its checked
    constructors, the static bound on encoded size and the check of a canonical
    value against a type.  The bound is compared with the codec: it is met by
    every valid value of a type that has no optional record inside it, and is
    wrong for one that has. *)

From S2P Require Import Prelude Decimal Value Codec CodecEncode.
From stdpp Require Import list strings.

Local Open Scope Z_scope.

(** ** Errors ([error.rs]); only the variants these files raise. *)
Inductive IrValidationError :=
  | IR_LimitExceeded (kind : string) (actual maximum : Z)
  | IR_Empty (kind : string)
  | IR_InvalidReference (kind : string)
  | IR_TypeMismatch (context : string)
  | IR_NonForwardExpression
  | IR_InvalidDependency (reason : string)
  | IR_NonCanonicalOrder (kind : string)
  | IR_SizeOverflow (kind : string)
  | IR_InvalidName (kind : string)
  | IR_InvalidKey (reason : string)
  | IR_InvalidText (kind : string)
  | IR_UnexpectedEnd
  | IR_TrailingBytes.

Definition checked_len (kind : string) (actual maximum : Z) : result IrValidationError unit :=
  if maximum <? actual then Err (IR_LimitExceeded kind actual maximum) else Ok tt.

(** ** Types *)
Inductive RecordTypeRef :=
  | RT_Entity (id : Z)
  | RT_Event (id : Z)
  | RT_CommandInput (id : Z)
  | RT_CommandOutcome (command_id outcome_id : Z)
  | RT_ProjectionResult (id : Z).

#[export] Instance RecordTypeRef_eq_dec : EqDecision RecordTypeRef.
Proof. solve_decision. Defined.

Inductive ValueType :=
  | T_Bool
  | T_I64
  | T_U64
  | T_Decimal (spec : DecimalSpec)
  | T_Money (currency : CurrencyCode)
  | T_String (maximum : Z)
  | T_Bytes (maximum : Z)
  | T_Timestamp
  | T_Date
  | T_Uuid
  | T_Enum (type_id : Z)
  | T_Optional (inner : ValueType)
  | T_List (element : ValueType) (maximum : Z)
  | T_Record (owner : RecordTypeRef)
  | T_Vector (dimension : Z).

#[export] Instance ValueType_eq_dec : EqDecision ValueType.
Proof. solve_decision. Defined.

Inductive ValueTypeTag :=
  | TT_Bool | TT_I64 | TT_U64 | TT_Decimal | TT_Money | TT_String | TT_Bytes | TT_Timestamp
  | TT_Date | TT_Uuid | TT_Enum | TT_Optional | TT_List | TT_Record | TT_Vector.

Definition type_tag (t : ValueType) : ValueTypeTag :=
  match t with
  | T_Bool => TT_Bool
  | T_I64 => TT_I64
  | T_U64 => TT_U64
  | T_Decimal _ => TT_Decimal
  | T_Money _ => TT_Money
  | T_String _ => TT_String
  | T_Bytes _ => TT_Bytes
  | T_Timestamp => TT_Timestamp
  | T_Date => TT_Date
  | T_Uuid => TT_Uuid
  | T_Enum _ => TT_Enum
  | T_Optional _ => TT_Optional
  | T_List _ _ => TT_List
  | T_Record _ => TT_Record
  | T_Vector _ => TT_Vector
  end.

Definition optional_inner (t : ValueType) : option ValueType :=
  match t with T_Optional inner => Some inner | _ => None end.

Definition is_optional (t : ValueType) : bool :=
  match t with T_Optional _ => true | _ => false end.

Definition record_ref (t : ValueType) : option RecordTypeRef :=
  match t with T_Record owner => Some owner | _ => None end.

Definition accepts_contextual (self actual : ValueType) : bool :=
  bool_decide (self = actual) || bool_decide (optional_inner self = Some actual).

Fixpoint type_nesting_depth (t : ValueType) : Z :=
  match t with
  | T_Optional inner => 1 + type_nesting_depth inner
  | T_List element _ => 1 + type_nesting_depth element
  | _ => 1
  end.

Definition type_string (maximum_bytes : Z) : result IrValidationError ValueType :=
  if maximum_bytes =? 0 then Err (IR_Empty "string bound")
  else _ ← checked_len "string bound" maximum_bytes MAX_STRING_BYTES; Ok (T_String maximum_bytes).

Definition type_bytes (maximum_bytes : Z) : result IrValidationError ValueType :=
  if maximum_bytes =? 0 then Err (IR_Empty "bytes bound")
  else _ ← checked_len "bytes bound" maximum_bytes MAX_BYTES_VALUE_BYTES; Ok (T_Bytes maximum_bytes).

Definition type_optional (inner : ValueType) : result IrValidationError ValueType :=
  if is_optional inner then Err (IR_TypeMismatch "nested optional")
  else if MAX_NESTING_DEPTH <=? type_nesting_depth inner
  then Err (IR_LimitExceeded "type nesting" (type_nesting_depth inner + 1) MAX_NESTING_DEPTH)
  else Ok (T_Optional inner).

Definition type_list (element : ValueType) (maximum : Z) : result IrValidationError ValueType :=
  if maximum =? 0 then Err (IR_Empty "list bound")
  else
    _ ← checked_len "list bound" maximum MAX_LIST_ENTRIES;
    if MAX_NESTING_DEPTH <=? type_nesting_depth element
    then Err (IR_LimitExceeded "type nesting" (type_nesting_depth element + 1) MAX_NESTING_DEPTH)
    else Ok (T_List element maximum).

Definition vector_dimension_new (value : Z) : option Z :=
  if (value =? 0) || (MAX_VECTOR_DIMENSION <? value) then None else Some value.

Definition is_projection_group_scalar (t : ValueType) : bool :=
  match t with
  | T_Bool | T_I64 | T_U64 | T_Decimal _ | T_Money _ | T_String _ | T_Bytes _ | T_Timestamp
  | T_Date | T_Uuid | T_Enum _ => true
  | _ => false
  end.

Definition is_authoritative_key_scalar (t : ValueType) : bool :=
  is_projection_group_scalar t && negb (match t with T_Decimal _ | T_Money _ => true | _ => false end).

Fixpoint supports_equality (t : ValueType) : bool :=
  match t with
  | T_Bool | T_I64 | T_U64 | T_Decimal _ | T_Money _ | T_String _ | T_Bytes _ | T_Timestamp
  | T_Date | T_Uuid | T_Enum _ => true
  | T_Optional inner => supports_equality inner
  | T_List _ _ | T_Record _ | T_Vector _ => false
  end.

(** ** Static size bound *)
Fixpoint maximum_canonical_bytes (t : ValueType) : result IrValidationError (option Z) :=
  match t with
  | T_Bool => Ok (Some 3)
  | T_I64 | T_U64 => Ok (Some 10)
  | T_Decimal _ => Ok (Some 20)
  | T_Money _ => Ok (Some 23)
  | T_String maximum | T_Bytes maximum =>
      value ← ok_or (usize_checked_add maximum 6) (IR_SizeOverflow "value type"); Ok (Some value)
  | T_Timestamp => Ok (Some 14)
  | T_Date => Ok (Some 6)
  | T_Uuid => Ok (Some 18)
  | T_Enum _ => Ok (Some 10)
  | T_Optional inner =>
      bound ← maximum_canonical_bytes inner;
      Ok (Some (Z.max (default 2 bound) 2))
  | T_List element maximum =>
      bound ← maximum_canonical_bytes element;
      match bound with
      | None => Ok None
      | Some element =>
          product ← ok_or (u_checked 64 (element * maximum)) (IR_SizeOverflow "list type");
          value ← ok_or (usize_checked_add 6 product) (IR_SizeOverflow "list type");
          Ok (Some value)
      end
  | T_Record _ => Ok None
  | T_Vector dim =>
      value ← ok_or (bytes ← u_checked 64 (dim * 4); usize_checked_add bytes 6)
                (IR_SizeOverflow "vector type");
      Ok (Some value)
  end.

(** ** Values of a type *)
Definition money_spec : DecimalSpec := mkDecimalSpec MAX_DECIMAL_PRECISION 2.

Definition value_mismatch : IrValidationError := IR_TypeMismatch "canonical value".

Definition is_null (v : CanonicalValue) : bool := match v with VNull => true | _ => false end.

(** The recursion is on the type, through the elements of a list. *)
Fixpoint validate_value (t : ValueType) (v : CanonicalValue) : result IrValidationError unit :=
  if is_null v then if is_optional t then Ok tt else Err value_mismatch
  else match t with
  | T_Optional inner => validate_value inner v
  | _ =>
      let valid :=
        match t, v with
        | T_Bool, VBool _ | T_I64, VI64 _ | T_U64, VU64 _ | T_Timestamp, VTimestamp _
        | T_Date, VDate _ | T_Uuid, VUuid _ => true
        | T_Decimal spec, VDecimal value => bool_decide (dec_spec value = spec)
        | T_Money currency, VMoney value =>
            bool_decide (money_currency value = currency) &&
            bool_decide (dec_spec (money_amount value) = money_spec)
        | T_String maximum, VString value => zlen value <=? maximum
        | T_Bytes maximum, VBytes value => zlen value <=? maximum
        | T_Enum type_id, VEnum actual _ => type_id =? actual
        | T_List element maximum, VList values =>
            (zlen values <=? maximum) && forallb (fun value => is_ok (validate_value element value)) values
        | T_Record _, VRecord _ => true
        | T_Vector dim, VVector components => zlen components =? dim
        | _, _ => false
        end in
      if valid then Ok tt else Err value_mismatch
  end.

(** ** Well-formed types: what the checked constructors guarantee. *)
Fixpoint type_wf (t : ValueType) : bool :=
  match t with
  | T_Decimal spec => spec_wfb spec
  | T_Money c => forallb is_ascii_uppercase (currency_as_bytes c)
  | T_String m => (1 <=? m) && (m <=? MAX_STRING_BYTES)
  | T_Bytes m => (1 <=? m) && (m <=? MAX_BYTES_VALUE_BYTES)
  | T_Optional inner => negb (is_optional inner) && type_wf inner && (type_nesting_depth inner <? MAX_NESTING_DEPTH)
  | T_List e m => (1 <=? m) && (m <=? MAX_LIST_ENTRIES) && type_wf e && (type_nesting_depth e <? MAX_NESTING_DEPTH)
  | T_Vector d => (1 <=? d) && (d <=? MAX_VECTOR_DIMENSION)
  | _ => true
  end.

(** A record occurs somewhere inside the type. *)
Fixpoint has_record (t : ValueType) : bool :=
  match t with
  | T_Record _ => true
  | T_Optional inner => has_record inner
  | T_List element _ => has_record element
  | _ => false
  end.

(** ** Constructors *)
Lemma type_string_ok n t : type_string n = Ok t -> 0 <= n -> t = T_String n /\ type_wf t = true.
Proof.
  unfold type_string, checked_len. zbool; cbn; intros; inv_result. split; [done|]. cbn. lia.
Qed.

Lemma type_optional_ok inner t :
  type_optional inner = Ok t -> type_wf inner = true -> t = T_Optional inner /\ type_wf t = true.
Proof.
  unfold type_optional. destruct (is_optional inner) eqn:E; [done|].
  destruct (Z.leb_spec MAX_NESTING_DEPTH (type_nesting_depth inner)); [done|].
  intros [= <-] Hw. split; [done|]. cbn. rewrite E, Hw. cbn. lia.
Qed.

Lemma type_list_ok element n t :
  type_list element n = Ok t -> 0 <= n -> type_wf element = true ->
  t = T_List element n /\ type_wf t = true.
Proof.
  unfold type_list, checked_len. destruct (Z.eqb_spec n 0); [done|].
  destruct (Z.ltb_spec MAX_LIST_ENTRIES n); [done|]. cbn.
  destruct (Z.leb_spec MAX_NESTING_DEPTH (type_nesting_depth element)); [done|].
  intros [= <-] ? Hw. split; [done|]. cbn. rewrite Hw. lia.
Qed.

Lemma type_nesting_depth_pos t : 1 <= type_nesting_depth t.
Proof. induction t; cbn [type_nesting_depth]; lia. Qed.

(** ** Validation by shape *)
Lemma validate_null t : validate_value t VNull = Ok tt <-> is_optional t = true.
Proof. destruct t; cbn; naive_solver. Qed.

Lemma validate_optional inner v :
  validate_value (T_Optional inner) v = Ok tt <-> v = VNull \/ validate_value inner v = Ok tt.
Proof.
  cbn [validate_value is_optional]. destruct (is_null v) eqn:E.
  - destruct v; try done. naive_solver.
  - split; [by right|]. intros [->|?]; done.
Qed.

Lemma validate_list element maximum v :
  validate_value (T_List element maximum) v = Ok tt <->
  exists l, v = VList l /\ zlen l <= maximum /\
    Forall (fun x => validate_value element x = Ok tt) l.
Proof.
  destruct v as [| | | | | | | | | | | |l|fs|]; cbn [validate_value is_null is_optional];
    try (split; [done|intros (?&?&_); done]).
  assert (forallb (fun x => is_ok (validate_value element x)) l = true <->
          Forall (fun x => validate_value element x = Ok tt) l) as Hall.
  { rewrite forallb_forall, Forall_forall. setoid_rewrite list_elem_of_In.
    split; intros H x Hx; specialize (H x Hx); destruct (validate_value element x) as [[]|]; done. }
  destruct (Z.leb_spec (zlen l) maximum); cbn [andb]; [|naive_solver lia].
  destruct (forallb _ _); naive_solver.
Qed.

(** A nonoptional value may stand where an optional one is expected. *)
Lemma accepts_contextual_sound expected actual v :
  accepts_contextual expected actual = true -> validate_value actual v = Ok tt ->
  validate_value expected v = Ok tt.
Proof.
  unfold accepts_contextual. rewrite orb_true_iff, !bool_decide_eq_true.
  intros [->|H]; [done|]. destruct expected; inv_result; try done. cbn in H.
  injection H as ->. intros ?. apply validate_optional. by right.
Qed.

(** ** Encoded size *)
Lemma zlen_ser_concat {A} (f : A -> list byte) l n :
  Forall (fun x => zlen (f x) <= n) l -> zlen (concat (map f l)) <= n * zlen l.
Proof.
  induction 1 as [|x l Hx Hl IH]; cbn [map concat]; autorewrite with zlen; lia.
Qed.

Lemma zlen_concat_const {A} (f : A -> list byte) n l :
  Forall (fun x => zlen (f x) = n) l -> zlen (concat (map f l)) = n * zlen l.
Proof.
  induction 1 as [|x l Hx Hl IH]; cbn [map concat]; autorewrite with zlen; lia.
Qed.

Lemma max_bytes_list element maximum n :
  maximum_canonical_bytes (T_List element maximum) = Ok (Some n) ->
  exists e, maximum_canonical_bytes element = Ok (Some e) /\ n = 6 + e * maximum.
Proof.
  cbn [maximum_canonical_bytes]. rewrite result_bind_ok. intros ([e|] & He & H); [|done].
  exists e. split; [done|]. revert H. unfold usize_checked_add.
  destruct (u_checked 64 (e * maximum)) as [p|] eqn:Hp; [|done].
  apply u_checked_Some in Hp as [-> _]. cbn.
  destruct (u_checked 64 (6 + e * maximum)) as [p|] eqn:Hq; [|done].
  apply u_checked_Some in Hq as [-> _]. cbn. by intros [= <-].
Qed.

Lemma max_bytes_optional inner n :
  maximum_canonical_bytes (T_Optional inner) = Ok (Some n) ->
  exists bound, maximum_canonical_bytes inner = Ok bound /\ n = Z.max (default 2 bound) 2.
Proof.
  cbn [maximum_canonical_bytes]. rewrite result_bind_ok. naive_solver.
Qed.

(** Only a record leaves the size open. *)
Lemma max_bytes_None t : maximum_canonical_bytes t = Ok None -> has_record t = true.
Proof.
  induction t as [| | | | | | | | | | |inner IH|element IH m| |]; cbn [maximum_canonical_bytes has_record]; try done.
  - destruct (usize_checked_add _ _); done.
  - destruct (usize_checked_add _ _); done.
  - rewrite result_bind_ok. naive_solver.
  - rewrite result_bind_ok. intros ([e|] & He & H); [|auto]. revert H.
    destruct (u_checked _ _); [|done]. cbn. destruct (usize_checked_add _ _); done.
  - destruct (u_checked _ _); [|done]. cbn. destruct (usize_checked_add _ _); done.
Qed.

Lemma max_bytes_nonneg t n :
  type_wf t = true -> maximum_canonical_bytes t = Ok (Some n) -> 0 <= n.
Proof.
  revert n. induction t as [| | | | | | | | | | |inner IH|element IH m| |]; intros n Hw H;
    try (cbn in H; inv_result; lia).
  - cbn in H, Hw. destruct (usize_checked_add _ _) eqn:E; [|done]. cbn in H. inv_result.
    apply u_checked_Some in E. lia.
  - cbn in H, Hw. destruct (usize_checked_add _ _) eqn:E; [|done]. cbn in H. inv_result.
    apply u_checked_Some in E. lia.
  - apply max_bytes_optional in H as (b & _ & ->). lia.
  - apply max_bytes_list in H as (e & He & ->). cbn in Hw.
    rewrite !andb_true_iff in Hw. specialize (IH e ltac:(tauto) He). nia.
  - cbn in H, Hw. destruct (u_checked _ _) eqn:E; [|done]. cbn in H.
    destruct (usize_checked_add _ _) eqn:E'; [|done]. cbn in H. inv_result.
    apply u_checked_Some in E. apply u_checked_Some in E'. lia.
Qed.

Lemma max_bytes_string m n :
  (value ← ok_or (usize_checked_add m 6) (IR_SizeOverflow "value type"); Ok (Some value)) = Ok (Some n) ->
  n = m + 6.
Proof.
  destruct (usize_checked_add m 6) eqn:E; [|done]. cbn. intros [= <-].
  by apply u_checked_Some in E as [-> _].
Qed.

Lemma max_bytes_vector d n : maximum_canonical_bytes (T_Vector d) = Ok (Some n) -> n = d * 4 + 6.
Proof.
  cbn. destruct (u_checked 64 (d * 4)) eqn:E; [|done]. apply u_checked_Some in E as [-> _]. cbn.
  destruct (usize_checked_add (d * 4) 6) eqn:E; [|done]. cbn. intros [= <-].
  by apply u_checked_Some in E as [-> _].
Qed.

Lemma ser_fits t v n :
  type_wf t = true -> value_wf v -> validate_value t v = Ok tt -> has_record t = false ->
  maximum_canonical_bytes t = Ok (Some n) -> zlen (ser v) <= n.
Proof.
  revert v n. induction t as [| | | | | | | | | | |inner IH|element IH m| |];
    intros v n Ht Hw Hv Hr Hn.
  12: {
    apply max_bytes_optional in Hn as (b & Hb & ->). cbn in Ht, Hr. rewrite !andb_true_iff in Ht.
    apply validate_optional in Hv as [->|Hv]; [change (zlen (ser VNull)) with 2; lia|].
    destruct b as [b|]; [|by rewrite (max_bytes_None _ Hb) in Hr].
    specialize (IH v b ltac:(tauto) Hw Hv Hr Hb). cbn. lia. }
  12: {
    apply max_bytes_list in Hn as (e & He & ->).
    apply validate_list in Hv as (l & -> & Hlen & Hl).
    unfold value_wf in Hw. cbn [value_wfb has_record type_wf] in Hw, Hr, Ht.
    rewrite !andb_true_iff in Hw, Ht. destruct Hw as [_ Hw], Ht as [[_ Ht] _].
    rewrite forallb_forall in Hw.
    assert (zlen (concat (map ser l)) <= e * zlen l) as Hc.
    { apply zlen_ser_concat. rewrite Forall_forall in *.
      intros x Hx. apply IH; [done|by apply Hw, list_elem_of_In|by apply Hl|done|done]. }
    pose proof (max_bytes_nonneg _ _ Ht He). cbn [ser].
    autorewrite with zlen. rewrite zlen_be_bytes. nia. }
  all: unfold value_wf in Hw; destruct v; cbn in Hv; try done; cbn in Hw; cbn [ser];
    unfold ser_decimal, currency_as_bytes; autorewrite with zlen; rewrite ?zlen_be_bytes.
  all: try (cbn in Hn; inv_result; cbn; lia).
  - apply max_bytes_string in Hn. zbool; done || lia.
  - apply max_bytes_string in Hn. zbool; done || lia.
  - apply max_bytes_vector in Hn. zbool; [|done].
    rewrite (zlen_concat_const _ 4); [lia|].
    apply Forall_true. intros. apply zlen_be_bytes.
Qed.

(** Where the bound exists although the type holds a record, a list filled with
    elements that exceed their own bound, or an empty record or list that its
    optional counts as two bytes, exceeds it. *)
Lemma oversized_value t n :
  type_wf t = true -> has_record t = true -> maximum_canonical_bytes t = Ok (Some n) ->
  exists v, value_wf v /\ validate_value t v = Ok tt /\ n < zlen (ser v) /\ 6 <= zlen (ser v) /\
    nesting_depth v < type_nesting_depth t.
Proof.
  revert n. induction t as [| | | | | | | | | | |inner IH|element IH m| |]; intros n Hw Hr Hn; try done.
  - apply max_bytes_optional in Hn as (b & Hb & ->). cbn in Hw, Hr.
    rewrite !andb_true_iff in Hw. destruct Hw as [[Ho Hw] _]. destruct b as [b|].
    + destruct (IH b Hw Hr Hb) as (v & Hv & Hval & Hlen & H6 & Hd). exists v.
      pose proof (validate_optional inner v).
      split_and!; [done|tauto| |done|]; cbn [from_option id type_nesting_depth]; lia.
    + destruct inner; try done.
      * exists (VList []). split_and!; try done; cbn [validate_value is_null is_optional forallb andb type_nesting_depth].
        -- cbn in Hw. rewrite !andb_true_iff in Hw. change (zlen []) with 0. zbool; done || lia.
        -- pose proof (type_nesting_depth_pos inner). cbn. lia.
      * by exists (VRecord []).
  - apply max_bytes_list in Hn as (e & He & ->). cbn in Hw, Hr.
    rewrite !andb_true_iff, !Z.leb_le, Z.ltb_lt in Hw. destruct Hw as [[[Hm1 Hm] Hw] Hdt].
    destruct (IH e Hw Hr He) as (v & Hv & Hval & Hlen & H6 & Hd).
    assert (Hlm : zlen (replicate (Z.to_nat m) v) = m) by (unfold zlen; rewrite length_replicate; lia).
    assert (Hdv : nesting_depth (VList (replicate (Z.to_nat m) v)) < 1 + type_nesting_depth element).
    { cbn [nesting_depth]. enough (max_succ (map nesting_depth (replicate (Z.to_nat m) v))
        <= (type_nesting_depth element - 1) + 1) by lia.
      pose proof (nesting_depth_nonneg v). apply max_succ_le; [lia|].
      apply Forall_map, Forall_replicate. cbn. lia. }
    assert (Hsz : zlen (ser (VList (replicate (Z.to_nat m) v))) = 6 + zlen (ser v) * m).
    { cbn [ser]. autorewrite with zlen. rewrite zlen_be_bytes.
      rewrite (zlen_concat_const _ (zlen (ser v))) by by apply Forall_replicate. rewrite Hlm. lia. }
    exists (VList (replicate (Z.to_nat m) v)). rewrite Hsz. split_and!; [| |nia|nia|done].
    + unfold value_wf. cbn [value_wfb]. cbn [nesting_depth] in Hdv.
      rewrite !andb_true_iff, !Z.leb_le, Hlm, forallb_forall. split_and!; [done|lia|].
      intros x Hx%list_elem_of_In%elem_of_replicate. by destruct Hx as [-> _].
    + apply validate_list. eexists. split; [done|]. rewrite Hlm. split; [done|]. by apply Forall_replicate.
Qed.

(** C37.  The static size bound of a type is met by the canonical encoding of
    every value the type accepts exactly when the type holds no record: with an
    optional record (or an optional list of records) inside it, the bound the
    code returns is exceeded by some accepted value. *)
Theorem maximum_canonical_bytes_bound t n :
  type_wf t = true -> maximum_canonical_bytes t = Ok (Some n) ->
  has_record t = false <->
  (forall v, value_wf v -> validate_value t v = Ok tt -> zlen (ser v) <= n).
Proof.
  intros Hw Hn. split.
  - intros Hr v Hv Hval. by apply (ser_fits t).
  - intros H. destruct (has_record t) eqn:Hr; [|done]. exfalso.
    destruct (oversized_value t n Hw Hr Hn) as (v & Hv & Hval & Hlen & _).
    specialize (H v Hv Hval). lia.
Qed.

Lemma maximum_canonical_bytes_bound_witness :
  (forall v, value_wf v -> validate_value (T_List (T_Optional (T_String 8)) 4) v = Ok tt ->
     zlen (ser v) <= 62) /\
  ~ (forall v, value_wf v -> validate_value (T_Optional (T_Record (RT_Entity 1))) v = Ok tt ->
       zlen (ser v) <= 2).
Proof.
  split.
  - by apply (maximum_canonical_bytes_bound (T_List (T_Optional (T_String 8)) 4) 62).
  - intros H. by apply (maximum_canonical_bytes_bound (T_Optional (T_Record (RT_Entity 1))) 2) in H.
Defined.
