(* ===== verification/Expression.v ===== *)
(** * Typed expression arenas

    [riffdb-contract-ir/src/expression.rs]: operators, expression nodes, the
    checked construction of a topologically ordered arena
    ([ExpressionArena::new]), the reachability check over its roots and the
    transitive dependency analysis.  An [ExprId] is the position it denotes; an
    arena is the vector of its nodes. *)

From S2P Require Import Prelude Decimal Value ValueType.
From stdpp Require Import list gmap relations strings.

Local Open Scope Z_scope.

Definition MAX_EXPRESSION_NODES : Z := 131072.
Definition MAX_EXPRESSION_NESTING : Z := 32.
Definition MAX_OBJECT_FIELDS : Z := 1024.

Inductive UnaryOperator :=
  | Not | Negate | TemporalHour | TemporalDay | TemporalWeek | TemporalMonth | TemporalYear.

Inductive BinaryOperator :=
  | Multiply | Divide | Add | Subtract | Equal | NotEqual | Less | LessEqual | Greater
  | GreaterEqual | And | Or.

#[export] Instance UnaryOperator_eq_dec : EqDecision UnaryOperator.
Proof. solve_decision. Defined.
#[export] Instance BinaryOperator_eq_dec : EqDecision BinaryOperator.
Proof. solve_decision. Defined.

Abbreviation ExprId := nat.

Inductive ExpressionKind :=
  | Constant (value : CanonicalValue)
  | InputField (field : Z)
  | ServiceValue (field : Z)
  | CollectionElement
  | CollectionElementField (field : Z)
  | CompleteBinding (binding : Z)
  | BoundField (binding field : Z)
  | SchemaField (entity_type field : Z)
  | RootValidationField (read field : Z)
  | SourceEventField (field : Z)
  | TransactionTime
  | TransactionDate
  | Unary (operator : UnaryOperator) (operand : ExprId)
  | Binary (operator : BinaryOperator) (lhs rhs : ExprId).

Record TypedExpression := mkNode { node_kind : ExpressionKind; node_type : ValueType }.

Abbreviation ExpressionArena := (list TypedExpression).

(** ** Operator typing *)
Definition numeric_tag (t : ValueTypeTag) : bool :=
  match t with TT_I64 | TT_U64 | TT_Decimal | TT_Money => true | _ => false end.

Definition validate_unary (operator : UnaryOperator) (operand result : ValueType)
  : Prelude.result IrValidationError unit :=
  let valid :=
    match operator with
    | Not => match type_tag operand with TT_Bool => bool_decide (result = operand) | _ => false end
    | Negate =>
        match type_tag operand with
        | TT_I64 | TT_Decimal | TT_Money => bool_decide (result = operand)
        | _ => false
        end
    | TemporalHour =>
        match type_tag operand with TT_Timestamp => bool_decide (result = operand) | _ => false end
    | TemporalDay | TemporalWeek | TemporalMonth | TemporalYear =>
        match type_tag operand with
        | TT_Timestamp | TT_Date => bool_decide (result = operand)
        | _ => false
        end
    end in
  if valid then Ok tt else Err (IR_TypeMismatch "unary expression").

Definition validate_binary (operator : BinaryOperator) (lhs rhs result : ValueType)
  : Prelude.result IrValidationError unit :=
  let same := bool_decide (lhs = rhs) in
  let bool_type := match type_tag result with TT_Bool => true | _ => false end in
  let valid :=
    match operator with
    | Multiply | Divide =>
        same && (match type_tag lhs with TT_I64 | TT_U64 => true | _ => false end) &&
        bool_decide (result = lhs)
    | Add | Subtract => same && numeric_tag (type_tag lhs) && bool_decide (result = lhs)
    | Equal | NotEqual => same && supports_equality lhs && bool_type
    | Less | LessEqual | Greater | GreaterEqual =>
        same && (match type_tag lhs with
                 | TT_I64 | TT_U64 | TT_Decimal | TT_Money | TT_Timestamp | TT_Date => true
                 | _ => false
                 end) && bool_type
    | And | Or => same && (match type_tag lhs with TT_Bool => true | _ => false end) && bool_type
    end in
  if valid then Ok tt else Err (IR_TypeMismatch "binary expression").

(** The [for] loops return the first child's error. *)
Fixpoint validate_ir_constant_shape (value : CanonicalValue) : result IrValidationError unit :=
  match value with
  | VList values =>
      _ ← checked_len "IR constant list entries" (zlen values) MAX_OBJECT_FIELDS;
      foldr (fun v rest => _ ← validate_ir_constant_shape v; rest) (Ok tt) values
  | VRecord fields =>
      _ ← checked_len "IR constant record fields" (zlen fields) MAX_OBJECT_FIELDS;
      foldr (fun f rest => _ ← validate_ir_constant_shape (snd f); rest) (Ok tt) fields
  | _ => Ok tt
  end.

(** ** Arena construction *)
Definition forward_node (arena : ExpressionArena) (id : ExprId) (position : nat)
  : result IrValidationError TypedExpression :=
  if (position <=? id)%nat then Err IR_NonForwardExpression
  else ok_or (arena !! id) IR_NonForwardExpression.

Definition push_checked (arena : ExpressionArena) (kind : ExpressionKind) (result_type : ValueType)
  : result IrValidationError ExpressionArena :=
  let position := length arena in
  _ ← match kind with
      | Constant value =>
          _ ← validate_ir_constant_shape value; validate_value result_type value
      | TransactionTime =>
          match type_tag result_type with
          | TT_Timestamp => Ok tt
          | _ => Err (IR_TypeMismatch "tx.time")
          end
      | TransactionDate =>
          match type_tag result_type with
          | TT_Date => Ok tt
          | _ => Err (IR_TypeMismatch "tx.date")
          end
      | CompleteBinding _ =>
          match record_ref result_type with
          | Some (RT_Entity _) => Ok tt
          | _ => Err (IR_TypeMismatch "complete binding")
          end
      | Unary operator operand =>
          operand ← forward_node arena operand position;
          validate_unary operator (node_type operand) result_type
      | Binary operator lhs rhs =>
          lhs ← forward_node arena lhs position;
          rhs ← forward_node arena rhs position;
          validate_binary operator (node_type lhs) (node_type rhs) result_type
      | _ => Ok tt
      end;
  Ok (arena ++ [mkNode kind result_type]).

(** The depth [ExpressionArena::new] computes for a node from those before it. *)
Definition node_depth (depths : list Z) (kind : ExpressionKind) : result IrValidationError Z :=
  match kind with
  | Unary _ operand =>
      ok_or (depth ← depths !! operand; usize_checked_add depth 1) IR_NonForwardExpression
  | Binary _ lhs rhs =>
      lhs ← ok_or (depths !! lhs) IR_NonForwardExpression;
      rhs ← ok_or (depths !! rhs) IR_NonForwardExpression;
      ok_or (usize_checked_add (Z.max lhs rhs) 1) (IR_SizeOverflow "expression nesting")
  | _ => Ok 1
  end.

Fixpoint arena_loop (nodes : list (ExpressionKind * ValueType)) (arena : ExpressionArena)
    (depths : list Z) : result IrValidationError ExpressionArena :=
  match nodes with
  | [] => Ok arena
  | (kind, result_type) :: rest =>
      depth ← node_depth depths kind;
      _ ← checked_len "expression nesting" depth MAX_EXPRESSION_NESTING;
      arena ← push_checked arena kind result_type;
      arena_loop rest arena (depths ++ [depth])
  end.

Definition arena_new (nodes : list (ExpressionKind * ValueType))
  : result IrValidationError ExpressionArena :=
  _ ← checked_len "expression arena" (zlen nodes) MAX_EXPRESSION_NODES;
  arena_loop nodes [] [].

(** ** Reachability from the roots

    The stack's top is the head of [pending].  [None] is fuel exhaustion. *)
Fixpoint mark_reachable (fuel : nat) (arena : ExpressionArena) (context : string)
    (reachable : list bool) (pending : list ExprId) : option (result IrValidationError (list bool)) :=
  match fuel with
  | O => None
  | S fuel =>
      match pending with
      | [] => Some (Ok reachable)
      | index :: pending =>
          match arena !! index with
          | None => Some (Err (IR_InvalidReference context))
          | Some node =>
              if default false (reachable !! index)
              then mark_reachable fuel arena context reachable pending
              else
                let reachable := <[index := true]> reachable in
                match node_kind node with
                | Unary _ operand => mark_reachable fuel arena context reachable (operand :: pending)
                | Binary _ lhs rhs =>
                    mark_reachable fuel arena context reachable (rhs :: lhs :: pending)
                | _ => mark_reachable fuel arena context reachable pending
                end
          end
      end
  end.

(** Each step pops one entry, and a node pushes at most two, once. *)
Definition reachable_fuel (arena : ExpressionArena) (roots : list ExprId) : nat :=
  S (length roots + 2 * length arena).

Definition validate_reachable_from (arena : ExpressionArena) (roots : list ExprId) (context : string)
  : option (result IrValidationError unit) :=
  reachable ← mark_reachable (reachable_fuel arena roots) arena context
                (replicate (length arena) false) (rev roots);
  Some (reachable ← reachable;
        if existsb negb reachable
        then Err (IR_InvalidDependency "expression arena contains an unreachable node")
        else Ok tt).

(** ** Dependencies *)
Record ExpressionDependencies := mkDependencies {
  input_fields : gset Z;
  service_values : gset Z;
  bindings : gset Z;
  complete_bindings : gset Z;
  bound_fields : gset (Z * Z);
  schema_fields : gset (Z * Z);
  root_validation_reads : gset Z;
  root_validation_fields : gset (Z * Z);
  source_event_fields : gset Z;
  collection_element : bool;
  collection_element_fields : gset Z;
  transaction_time : bool;
  transaction_date : bool;
}.

Definition no_dependencies : ExpressionDependencies :=
  mkDependencies ∅ ∅ ∅ ∅ ∅ ∅ ∅ ∅ ∅ false ∅ false false.

Definition is_input_computable (d : ExpressionDependencies) : bool :=
  bool_decide (service_values d = ∅) && bool_decide (bindings d = ∅) &&
  bool_decide (schema_fields d = ∅) && bool_decide (root_validation_reads d = ∅) &&
  bool_decide (source_event_fields d = ∅) && negb (transaction_time d) && negb (transaction_date d).

(** The [match] of [dependencies] on a leaf. *)
Definition add_dependency (kind : ExpressionKind) (d : ExpressionDependencies)
  : ExpressionDependencies :=
  let '(mkDependencies inp svc bnd cmp bf sf rr rf ev ce cf tm td) := d in
  match kind with
  | InputField field => mkDependencies ({[field]} ∪ inp) svc bnd cmp bf sf rr rf ev ce cf tm td
  | ServiceValue field => mkDependencies inp ({[field]} ∪ svc) bnd cmp bf sf rr rf ev ce cf tm td
  | CollectionElement => mkDependencies inp svc bnd cmp bf sf rr rf ev true cf tm td
  | CollectionElementField field =>
      mkDependencies inp svc bnd cmp bf sf rr rf ev ce ({[field]} ∪ cf) tm td
  | CompleteBinding binding =>
      mkDependencies inp svc ({[binding]} ∪ bnd) ({[binding]} ∪ cmp) bf sf rr rf ev ce cf tm td
  | BoundField binding field =>
      mkDependencies inp svc ({[binding]} ∪ bnd) cmp ({[(binding, field)]} ∪ bf) sf rr rf ev ce cf tm td
  | SchemaField entity_type field =>
      mkDependencies inp svc bnd cmp bf ({[(entity_type, field)]} ∪ sf) rr rf ev ce cf tm td
  | RootValidationField read field =>
      mkDependencies inp svc bnd cmp bf sf ({[read]} ∪ rr) ({[(read, field)]} ∪ rf) ev ce cf tm td
  | SourceEventField field =>
      mkDependencies inp svc bnd cmp bf sf rr rf ({[field]} ∪ ev) ce cf tm td
  | TransactionTime => mkDependencies inp svc bnd cmp bf sf rr rf ev ce cf true td
  | TransactionDate => mkDependencies inp svc bnd cmp bf sf rr rf ev ce cf tm true
  | Constant _ | Unary _ _ | Binary _ _ _ => d
  end.

(** One iteration of the descending loop; an index out of range panics in the
    source and leaves [needed] unchanged here, which never happens on an arena
    that construction accepted. *)
Definition dependency_step (arena : ExpressionArena) (index : nat)
    (state : list bool * ExpressionDependencies) : list bool * ExpressionDependencies :=
  let '(needed, d) := state in
  if default false (needed !! index) then
    match arena !! index with
    | None => state
    | Some node =>
        match node_kind node with
        | Unary _ operand => (<[operand := true]> needed, d)
        | Binary _ lhs rhs => (<[rhs := true]> (<[lhs := true]> needed), d)
        | kind => (needed, add_dependency kind d)
        end
    end
  else state.

(** [for index in (0..count).rev()] *)
Fixpoint dependency_loop (arena : ExpressionArena) (count : nat)
    (state : list bool * ExpressionDependencies) : list bool * ExpressionDependencies :=
  match count with
  | O => state
  | S index => dependency_loop arena index (dependency_step arena index state)
  end.

Definition dependencies (arena : ExpressionArena) (target : ExprId)
  : result IrValidationError ExpressionDependencies :=
  if (length arena <=? target)%nat then Err (IR_InvalidReference "expression")
  else
    let needed := <[target := true]> (replicate (S target) false) in
    Ok (snd (dependency_loop arena (S target) (needed, no_dependencies))).

(** ** The arena as a graph *)
Definition operands (kind : ExpressionKind) : list ExprId :=
  match kind with
  | Unary _ operand => [operand]
  | Binary _ lhs rhs => [lhs; rhs]
  | _ => []
  end.

Definition edge (arena : ExpressionArena) (i j : ExprId) : Prop :=
  exists node, arena !! i = Some node /\ j ∈ operands (node_kind node).

(** What construction guarantees of a node at position [i], given the types of
    the nodes it refers to. *)
Definition node_typed (arena : ExpressionArena) (node : TypedExpression) : Prop :=
  match node_kind node with
  | Constant value => validate_value (node_type node) value = Ok tt
  | TransactionTime => node_type node = T_Timestamp
  | TransactionDate => node_type node = T_Date
  | Unary operator operand =>
      exists o, arena !! operand = Some o /\
        validate_unary operator (node_type o) (node_type node) = Ok tt
  | Binary operator lhs rhs =>
      exists l r, arena !! lhs = Some l /\ arena !! rhs = Some r /\
        validate_binary operator (node_type l) (node_type r) (node_type node) = Ok tt
  | _ => True
  end.

(** A depth for every node that bounds the paths below it. *)
Definition ranked (arena : ExpressionArena) (depths : list Z) : Prop :=
  length depths = length arena /\
  Forall (fun d => 1 <= d <= MAX_EXPRESSION_NESTING) depths /\
  forall i j, edge arena i j -> (j < i)%nat /\
    exists di dj, depths !! i = Some di /\ depths !! j = Some dj /\ dj < di.

Record arena_wf (arena : ExpressionArena) : Prop := {
  wf_typed : Forall (node_typed arena) arena;
  wf_ranked : exists depths, ranked arena depths;
}.

Lemma edge_app_l arena k i j : edge arena i j -> edge (arena ++ k) i j.
Proof. intros (n & Hn & Hj). exists n. split; [by apply lookup_app_l_Some|done]. Qed.

Lemma edge_app_inv arena node i j :
  edge (arena ++ [node]) i j ->
  edge arena i j \/ (i = length arena /\ j ∈ operands (node_kind node)).
Proof.
  intros (n & Hn & Hj). apply lookup_app_Some in Hn as [Hn|[Hi Hn]]; [left; by exists n|].
  apply list_lookup_singleton_Some in Hn as [? ->]. right. split; [lia|done].
Qed.

Lemma node_typed_app arena k node : node_typed arena node -> node_typed (arena ++ k) node.
Proof.
  unfold node_typed. destruct (node_kind node); try done.
  - intros (o & Ho & H). exists o. split; [by apply lookup_app_l_Some|done].
  - intros (l & r & Hl & Hr & H). exists l, r. split_and!; [by apply lookup_app_l_Some..|done].
Qed.

Lemma type_tag_timestamp t : type_tag t = TT_Timestamp -> t = T_Timestamp.
Proof. by destruct t. Qed.
Lemma type_tag_date t : type_tag t = TT_Date -> t = T_Date.
Proof. by destruct t. Qed.
Lemma type_tag_bool t : type_tag t = TT_Bool -> t = T_Bool.
Proof. by destruct t. Qed.

Lemma forward_node_ok arena id node :
  forward_node arena id (length arena) = Ok node <-> arena !! id = Some node.
Proof.
  unfold forward_node. destruct (Nat.leb_spec (length arena) id) as [H|H].
  - by rewrite lookup_ge_None_2.
  - destruct (arena !! id); cbn; naive_solver.
Qed.

Lemma push_checked_ok arena kind t arena' :
  push_checked arena kind t = Ok arena' ->
  arena' = arena ++ [mkNode kind t] /\ node_typed arena (mkNode kind t).
Proof.
  unfold push_checked. rewrite result_bind_ok. intros ([] & Hk & [= <-]). split; [done|].
  unfold node_typed. cbn. destruct kind; try done.
  - apply result_bind_ok in Hk. naive_solver.
  - apply type_tag_timestamp. by destruct (type_tag t).
  - apply type_tag_date. by destruct (type_tag t).
  - apply result_bind_ok in Hk as (o & Ho%forward_node_ok & Hk). by exists o.
  - apply result_bind_ok in Hk as (l & Hl%forward_node_ok & Hk).
    apply result_bind_ok in Hk as (r & Hr%forward_node_ok & Hk). by exists l, r.
Qed.

Lemma node_depth_ok depths kind d :
  node_depth depths kind = Ok d ->
  (forall j, j ∈ operands kind -> exists dj, depths !! j = Some dj /\ dj < d) /\ (d = 1 \/ exists j, j ∈ operands kind).
Proof.
  destruct kind; cbn [node_depth operands]; intros H;
    try (injection H as <-; split; [intros j Hj; by apply not_elem_of_nil in Hj|by left]).
  - destruct (depths !! operand) as [x|] eqn:E; [|done]. cbn in H.
    destruct (usize_checked_add x 1) eqn:Ex; [|done]. cbn in H. injection H as <-.
    apply u_checked_Some in Ex as [-> _]. split; [|right; exists operand; set_solver].
    intros j ->%list_elem_of_singleton. exists x. split; [done|lia].
  - apply result_bind_ok in H as (x & Hx & H). apply result_bind_ok in H as (y & Hy & H).
    destruct (depths !! lhs) eqn:El; [|done]. destruct (depths !! rhs) eqn:Er; [|done].
    cbn in Hx, Hy. inv_result. destruct (usize_checked_add _ 1) eqn:Ex; [|done].
    cbn in H. injection H as <-. apply u_checked_Some in Ex as [-> _].
    split; [|right; exists lhs; set_solver].
    intros j Hj. rewrite !elem_of_cons, elem_of_nil in Hj. destruct Hj as [-> |[-> |[]]]; eexists; (split; [done|lia]).
Qed.

Lemma ranked_push arena depths kind t d :
  ranked arena depths -> node_depth depths kind = Ok d -> 1 <= d <= MAX_EXPRESSION_NESTING ->
  ranked (arena ++ [mkNode kind t]) (depths ++ [d]).
Proof.
  intros (Hl & Hd & He) [Hk _]%node_depth_ok Hb. split_and!.
  - rewrite !length_app. cbn. lia.
  - by apply Forall_app_2; [|apply Forall_singleton].
  - intros i j [Hij|[-> Hj]]%edge_app_inv.
    + destruct (He i j Hij) as (Hlt & di & dj & Hi & Hj & ?). split; [done|].
      exists di, dj. split_and!; [by apply lookup_app_l_Some..|done].
    + destruct (Hk j Hj) as (dj & Hdj & ?). pose proof (lookup_lt_Some _ _ _ Hdj). split; [lia|].
      exists d, dj. split_and!; [|by apply lookup_app_l_Some|done].
      rewrite <- Hl. by apply list_lookup_middle.
Qed.

Lemma node_depth_pos depths kind d :
  Forall (fun d => 1 <= d <= MAX_EXPRESSION_NESTING) depths -> node_depth depths kind = Ok d -> 1 <= d.
Proof.
  intros Hd [Hk [-> |[j Hj]]]%node_depth_ok; [lia|].
  destruct (Hk j Hj) as (dj & Hdj & ?). rewrite Forall_lookup in Hd. specialize (Hd _ _ Hdj). lia.
Qed.

Lemma arena_loop_ok nodes arena depths arena' :
  Forall (node_typed arena) arena -> ranked arena depths ->
  arena_loop nodes arena depths = Ok arena' ->
  arena' = arena ++ map (fun n => mkNode (fst n) (snd n)) nodes /\ arena_wf arena'.
Proof.
  revert arena depths. induction nodes as [|[kind t] rest IH]; intros arena depths Ht Hr;
    cbn [arena_loop map]; intros H.
  - injection H as <-. rewrite app_nil_r. split; [done|]. split; [done|by exists depths].
  - apply result_bind_ok in H as (d & Hd & H). apply result_bind_ok in H as ([] & Hb & H).
    apply result_bind_ok in H as (next & [-> Hn]%push_checked_ok & H).
    unfold checked_len in Hb. destruct (Z.ltb_spec MAX_EXPRESSION_NESTING d); [done|].
    pose proof (node_depth_pos _ _ _ (proj1 (proj2 Hr)) Hd).
    apply IH in H as [-> Hw]; [split; [by rewrite <- app_assoc|done]| |by apply ranked_push].
    apply Forall_app_2; [|by apply Forall_singleton, node_typed_app].
    eapply Forall_impl; [done|]. intros. by apply node_typed_app.
Qed.

Lemma arena_new_ok nodes arena :
  arena_new nodes = Ok arena ->
  arena = map (fun n => mkNode (fst n) (snd n)) nodes /\ arena_wf arena.
Proof.
  unfold arena_new. rewrite result_bind_ok. intros ([] & _ & H).
  eapply arena_loop_ok in H; [done|constructor|]. split_and!; [done|constructor|].
  intros i j (n & Hn & _). by rewrite lookup_nil in Hn.
Qed.

Lemma rank_nsteps arena depths n i j :
  ranked arena depths -> nsteps (edge arena) n i j -> (0 < n)%nat ->
  exists di dj, depths !! i = Some di /\ depths !! j = Some dj /\ Z.of_nat n <= di - dj.
Proof.
  intros (_ & _ & He). induction 1 as [|n x y z Hxy Hyz IH]; [lia|]. intros _.
  destruct (He x y Hxy) as (_ & dx & dy & Hx & Hy & ?).
  destruct n as [|n]; [inversion Hyz; subst; exists dx, dy; split_and!; [done..|lia]|].
  destruct IH as (dy' & dz & Hy' & Hz & ?); [lia|]. simplify_eq.
  exists dx, dz. split_and!; [done..|lia].
Qed.

Lemma edge_lt arena i j : arena_wf arena -> edge arena i j -> (j < i)%nat.
Proof. intros [_ (depths & _ & _ & He)] Hij. by apply He. Qed.

Lemma edge_dom arena i j : arena_wf arena -> edge arena i j -> (j < length arena)%nat.
Proof.
  intros Hw Hij. pose proof (edge_lt _ _ _ Hw Hij). destruct Hij as (n & Hn & _).
  apply lookup_lt_Some in Hn. lia.
Qed.

(** ** Reachability *)
Definition unmarked (reachable : list bool) : nat := length (filter (fun b => b = false) reachable).

Definition marked (reachable : list bool) (i : nat) : Prop := reachable !! i = Some true.

Lemma unmarked_mark reachable i :
  reachable !! i = Some false -> S (unmarked (<[i := true]> reachable)) = unmarked reachable.
Proof.
  unfold unmarked. intros H. rewrite <- (list_insert_id reachable i false) at 2 by done.
  pose proof (lookup_lt_Some _ _ _ H).
  rewrite !insert_take_drop, !filter_app, !length_app by done.
  rewrite (filter_cons _ true), (filter_cons _ false), decide_False, decide_True by done.
  cbn [length]. lia.
Qed.

Lemma marked_insert reachable i j :
  (i < length reachable)%nat -> marked (<[i := true]> reachable) j <-> j = i \/ marked reachable j.
Proof.
  intros Hi. unfold marked. destruct (decide (i = j)) as [->|Hne].
  - rewrite list_lookup_insert_eq by done. naive_solver.
  - rewrite list_lookup_insert_ne by done. naive_solver.
Qed.

Section marking.
Context (arena : ExpressionArena) (context : string) (roots : list ExprId).
Context (Hwf : arena_wf arena).

Definition from_roots (i : ExprId) : Prop := exists r, r ∈ roots /\ rtc (edge arena) r i.

(** Everything seen comes from a root; what is marked has its operands marked or
    pending, and so do the roots. *)
Record marking (reachable : list bool) (pending : list ExprId) : Prop := {
  mk_length : length reachable = length arena;
  mk_sound : forall i, marked reachable i \/ i ∈ pending -> from_roots i;
  mk_roots : forall r, r ∈ roots -> marked reachable r \/ r ∈ pending;
  mk_closed : forall i j, marked reachable i -> edge arena i j -> marked reachable j \/ j ∈ pending;
}.

Lemma marking_skip reachable i pending :
  marking reachable (i :: pending) -> marked reachable i -> marking reachable pending.
Proof.
  intros [Hl Hs Hr Hc] Hi. split; [done|set_solver|..].
  - intros r Hrr. destruct (Hr r Hrr) as [?|[-> |?]%elem_of_cons]; auto.
  - intros a b Ha Hab. destruct (Hc a b Ha Hab) as [?|[-> |?]%elem_of_cons]; auto.
Qed.

Lemma marking_visit reachable i pending node pushed :
  marking reachable (i :: pending) -> arena !! i = Some node ->
  (forall j, j ∈ pushed <-> j ∈ operands (node_kind node)) ->
  marking (<[i := true]> reachable) (pushed ++ pending).
Proof.
  intros [Hl Hs Hr Hc] Hn Hp. pose proof (lookup_lt_Some _ _ _ Hn) as Hi. rewrite <- Hl in Hi.
  split; [by rewrite length_insert|..].
  - intros j. rewrite marked_insert, elem_of_app, Hp by done.
    intros [[-> |Hj]|[Hj|Hj]]; [apply Hs; set_solver|apply Hs; auto| |apply Hs; set_solver].
    destruct (Hs i) as (r & Hrr & Hri); [set_solver|]. exists r. split; [done|].
    eapply rtc_r; [done|]. by exists node.
  - intros r Hrr. rewrite marked_insert, elem_of_app by done.
    destruct (Hr r Hrr) as [?|[-> |?]%elem_of_cons]; auto.
  - intros a b. rewrite !marked_insert, elem_of_app by done. intros [-> |Ha] Hab.
    + right. left. apply Hp. destruct Hab as (n & Hn' & Hb). by simplify_eq.
    + destruct (Hc a b Ha Hab) as [?|[-> |?]%elem_of_cons]; auto.
Qed.

Lemma mark_reachable_spec fuel reachable pending :
  marking reachable pending -> (length pending + 2 * unmarked reachable < fuel)%nat ->
  match mark_reachable fuel arena context reachable pending with
  | Some (Ok final) => marking final []
  | Some (Err e) => e = IR_InvalidReference context /\ exists i, from_roots i /\ arena !! i = None
  | None => False
  end.
Proof.
  revert reachable pending. induction fuel as [|fuel IH]; intros reachable pending Hm Hf; [lia|].
  cbn [mark_reachable]. destruct pending as [|i pending]; [done|]. cbn [length] in Hf.
  destruct (arena !! i) as [node|] eqn:Hn.
  2:{ split; [done|]. exists i. split; [|done]. apply (mk_sound _ _ Hm). right. set_solver. }
  pose proof (lookup_lt_Some _ _ _ Hn) as Hi. rewrite <- (mk_length _ _ Hm) in Hi.
  apply lookup_lt_is_Some_2 in Hi as [b Hb]. rewrite Hb. cbn [from_option id]. destruct b.
  - apply IH; [by apply (marking_skip _ i)|lia].
  - pose proof (unmarked_mark _ _ Hb) as Hu.
    assert (Hv : forall pushed, (forall j, j ∈ pushed <-> j ∈ operands (node_kind node)) ->
              marking (<[i := true]> reachable) (pushed ++ pending))
      by (intros; by eapply marking_visit).
    destruct (node_kind node) as [| | | | | | | | | | | |op o|op l r];
      (apply IH; [first [apply (Hv []); set_solver | apply (Hv [o]); set_solver
                        | apply (Hv [r; l]); set_solver]|cbn [length]; lia]).
Qed.
End marking.

Lemma closed_reaches arena reachable roots i :
  marking arena roots reachable [] -> from_roots arena roots i -> marked reachable i.
Proof.
  intros Hm (r & Hr & Hi). assert (marked reachable r) as H.
  { destruct (mk_roots _ _ _ _ Hm r Hr) as [?|?]; [done|set_solver]. }
  clear Hr. induction Hi as [|x y z Hxy _ IH]; [done|]. apply IH.
  destruct (mk_closed _ _ _ _ Hm x y H Hxy) as [?|?]; [done|set_solver].
Qed.

Lemma marking_start arena roots :
  marking arena roots (replicate (length arena) false) (rev roots).
Proof.
  assert (forall i, ~ marked (replicate (length arena) false) i) as Hnone.
  { intros i [? _]%lookup_replicate. done. }
  split.
  - by rewrite length_replicate.
  - intros i [?%Hnone|Hi]; [done|]. exists i. split; [|done].
    by rewrite list_elem_of_In, in_rev, <- list_elem_of_In.
  - intros r Hr. right. by rewrite list_elem_of_In, <- in_rev, <- list_elem_of_In.
  - by intros i j ?%Hnone.
Qed.

Lemma unmarked_replicate n : unmarked (replicate n false) = n.
Proof.
  unfold unmarked. induction n; [done|]. cbn [replicate]. rewrite filter_cons, decide_True by done.
  cbn [length]. lia.
Qed.

Lemma from_roots_dom arena roots i :
  arena_wf arena -> (forall r, r ∈ roots -> (r < length arena)%nat) -> from_roots arena roots i ->
  (i < length arena)%nat.
Proof.
  intros Hw Hr (r & Hrr & Hi). apply rtc_inv_r in Hi as [->|(k & _ & Hk)]; [by apply Hr|].
  by eapply edge_dom.
Qed.

(** ** Dependencies *)
Definition mentions (d : ExpressionDependencies) (kind : ExpressionKind) : Prop :=
  match kind with
  | InputField field => field ∈ input_fields d
  | ServiceValue field => field ∈ service_values d
  | CollectionElement => collection_element d = true
  | CollectionElementField field => field ∈ collection_element_fields d
  | CompleteBinding binding => binding ∈ complete_bindings d
  | BoundField binding field => (binding, field) ∈ bound_fields d
  | SchemaField entity_type field => (entity_type, field) ∈ schema_fields d
  | RootValidationField read field => (read, field) ∈ root_validation_fields d
  | SourceEventField field => field ∈ source_event_fields d
  | TransactionTime => transaction_time d = true
  | TransactionDate => transaction_date d = true
  | Constant _ | Unary _ _ | Binary _ _ _ => False
  end.

(** The sets of bindings and of root reads are those of the fields and records. *)
Definition summarized (d : ExpressionDependencies) : Prop :=
  (forall b, b ∈ bindings d <-> b ∈ complete_bindings d \/ exists f, (b, f) ∈ bound_fields d) /\
  (forall r, r ∈ root_validation_reads d <-> exists f, (r, f) ∈ root_validation_fields d).

Definition is_source (kind : ExpressionKind) : bool :=
  match kind with Constant _ | Unary _ _ | Binary _ _ _ => false | _ => true end.

Lemma mentions_add d k kind :
  mentions (add_dependency k d) kind <-> mentions d kind \/ (kind = k /\ is_source k = true).
Proof.
  destruct d as [inp svc bnd cmp bf sf rr rf ev ce cf tm td].
  destruct k; cbn [add_dependency]; destruct kind; cbn [mentions is_source input_fields service_values
    bindings complete_bindings bound_fields schema_fields root_validation_reads
    root_validation_fields source_event_fields collection_element collection_element_fields
    transaction_time transaction_date]; rewrite ?elem_of_union, ?elem_of_singleton; naive_solver.
Qed.

Lemma summarized_add d k : summarized d -> summarized (add_dependency k d).
Proof.
  destruct d as [inp svc bnd cmp bf sf rr rf ev ce cf tm td]. intros [Hb Hr].
  unfold summarized in *. cbn in Hb, Hr. destruct k; cbn; split; try done; set_solver.
Qed.

(** [needed[o] = true] for each operand. *)
Definition mark_all (l : list ExprId) (needed : list bool) : list bool :=
  foldl (fun needed o => <[o := true]> needed) needed l.

Lemma length_mark_all l needed : length (mark_all l needed) = length needed.
Proof.
  unfold mark_all. revert needed. induction l as [|o l IH]; intros needed; [done|].
  cbn. by rewrite IH, length_insert.
Qed.

Lemma marked_mark_all l needed :
  (forall o, o ∈ l -> (o < length needed)%nat) ->
  forall j, marked (mark_all l needed) j <-> marked needed j \/ j ∈ l.
Proof.
  unfold mark_all. revert needed. induction l as [|o l IH]; intros needed Hl j; cbn [foldl].
  - set_solver.
  - rewrite IH, marked_insert, elem_of_cons by (rewrite ?length_insert; intros; apply Hl; set_solver).
    tauto.
Qed.

Section dependency_loop.
Context (arena : ExpressionArena) (target : ExprId).
Context (Hwf : arena_wf arena) (Htarget : (target < length arena)%nat).

(** The state with the positions from [count] up to the target processed. *)
Record dependency_inv (count : nat) (needed : list bool) (d : ExpressionDependencies) : Prop := {
  di_length : length needed = S target;
  di_sound : forall i, marked needed i -> rtc (edge arena) target i;
  di_target : marked needed target;
  di_closed : forall i j, (count <= i)%nat -> marked needed i -> edge arena i j -> marked needed j;
  di_mentions : forall kind, mentions d kind <->
    exists i node, (count <= i)%nat /\ marked needed i /\ arena !! i = Some node /\
      node_kind node = kind /\ is_source kind = true;
  di_summarized : summarized d;
}.

Lemma dependency_inv_start :
  dependency_inv (S target) (<[target := true]> (replicate (S target) false)) no_dependencies.
Proof.
  assert (forall i, marked (<[target := true]> (replicate (S target) false)) i <-> i = target) as Hm.
  { intros i. rewrite marked_insert by (rewrite length_replicate; lia). split; [|by left].
    intros [?|[? _]%lookup_replicate]; done. }
  split.
  - by rewrite length_insert, length_replicate.
  - intros i ->%Hm. constructor.
  - by apply Hm.
  - intros i j Hi ->%Hm. lia.
  - intros kind. split; [by destruct kind|]. intros (i & node & Hi & ->%Hm & _). lia.
  - split; set_solver.
Qed.

(** Processing a marked position marks its operands, all below it. *)
Lemma dependency_inv_visit index needed needed' d d' node :
  dependency_inv (S index) needed d -> marked needed index -> arena !! index = Some node ->
  length needed' = length needed ->
  (forall j, marked needed' j <-> marked needed j \/ j ∈ operands (node_kind node)) ->
  (forall kind, mentions d' kind <->
     mentions d kind \/ (kind = node_kind node /\ is_source kind = true)) ->
  summarized d' -> dependency_inv index needed' d'.
Proof.
  intros [Hl Hs Ht Hc Hk Hsum] Hi Hn Hl' Hm Hd Hsum'.
  assert (Hbelow : forall j, (index <= j)%nat -> marked needed' j -> marked needed j).
  { intros j Hij [?|Hj]%Hm; [done|]. assert (edge arena index j) as Hlt%edge_lt by (by exists node); [lia|done]. }
  split; [lia| | |..|done].
  - intros j [Hj|Hj]%Hm; [by apply Hs|]. eapply rtc_r; [by apply Hs|by exists node].
  - apply Hm. by left.
  - intros i j Hij Hj Hij'. apply Hbelow in Hj; [|done]. apply Hm.
    destruct (decide (i = index)) as [->|Hne].
    + right. destruct Hij' as (n & ? & ?). by simplify_eq.
    + left. eapply Hc; [|done..]. lia.
  - intros kind. rewrite Hd, Hk. split.
    + intros [(i & n & ? & ? & ? & ?)|[-> ?]].
      * exists i, n. split_and!; [lia|apply Hm; by left|naive_solver..].
      * exists index, node. split_and!; [lia|apply Hm; by left|done..].
    + intros (i & n & Hle & Hmk & Hin & Hnk & Hsrc). apply Hbelow in Hmk; [|done].
      destruct (decide (i = index)) as [->|Hne]; [right; naive_solver|].
      left. exists i, n. split_and!; [lia|done..].
Qed.

Lemma dependency_inv_skip index needed d :
  dependency_inv (S index) needed d -> ~ marked needed index -> dependency_inv index needed d.
Proof.
  intros [Hl Hs Ht Hc Hk Hsum] Hi. split; try done.
  - intros i j Hle Hm. apply Hc; [|done]. destruct (decide (i = index)) as [->|]; [done|lia].
  - intros kind. rewrite Hk. split; intros (i & n & Hle & Hm & H); exists i, n; (split; [|done]).
    + lia.
    + destruct (decide (i = index)) as [->|]; [done|lia].
Qed.

Lemma dependency_step_marked index needed d node :
  marked needed index -> arena !! index = Some node ->
  dependency_step arena index (needed, d) =
  (mark_all (operands (node_kind node)) needed, add_dependency (node_kind node) d).
Proof.
  unfold marked, dependency_step. intros -> ->. cbn [from_option id].
  destruct d, (node_kind node); reflexivity.
Qed.

Lemma dependency_step_inv index needed d :
  (index <= target)%nat -> dependency_inv (S index) needed d ->
  dependency_inv index (fst (dependency_step arena index (needed, d)))
    (snd (dependency_step arena index (needed, d))).
Proof.
  intros Hle Hinv. destruct (lookup_lt_is_Some_2 needed index) as [b Hb];
    [rewrite (di_length _ _ _ Hinv); lia|]. destruct b.
  - destruct (lookup_lt_is_Some_2 arena index) as [node Hn]; [lia|].
    rewrite (dependency_step_marked _ _ _ node) by done. cbn [fst snd].
    eapply dependency_inv_visit; [done|done|done|apply length_mark_all| | |].
    + apply marked_mark_all. intros j Hj.
      assert (edge arena index j) as ?%edge_lt by (by exists node); [|done].
      rewrite (di_length _ _ _ Hinv). lia.
    + intros kind. rewrite mentions_add. naive_solver.
    + by apply summarized_add, (di_summarized _ _ _ Hinv).
  - unfold dependency_step. rewrite Hb. cbn [from_option id fst snd].
    apply dependency_inv_skip; [done|]. unfold marked. by rewrite Hb.
Qed.

Lemma dependency_loop_inv count needed d :
  (count <= S target)%nat -> dependency_inv count needed d ->
  exists needed' d', dependency_loop arena count (needed, d) = (needed', d') /\
    dependency_inv 0 needed' d'.
Proof.
  revert needed d. induction count as [|index IH]; intros needed d Hc Hinv; cbn [dependency_loop].
  - by exists needed, d.
  - pose proof (dependency_step_inv index needed d ltac:(lia) Hinv) as Hs.
    destruct (dependency_step arena index (needed, d)) as [n' d'']. apply IH; [lia|done].
Qed.

Lemma dependency_inv_done needed d i :
  dependency_inv 0 needed d -> marked needed i <-> rtc (edge arena) target i.
Proof.
  intros Hinv. split; [by apply (di_sound _ _ _ Hinv)|]. intros Hr.
  pose proof (di_target _ _ _ Hinv) as Ht.
  pose proof (fun i j => di_closed _ _ _ Hinv i j (Nat.le_0_l i)) as Hc. clear -Hr Ht Hc.
  induction Hr as [|x y z Hxy _ IH]; [done|]. apply IH. by apply (Hc x).
Qed.
End dependency_loop.

Lemma dependencies_ok arena target :
  arena_wf arena -> (target < length arena)%nat ->
  exists d, dependencies arena target = Ok d /\ summarized d /\
    forall kind, mentions d kind <->
      is_source kind = true /\
      exists i node, rtc (edge arena) target i /\ arena !! i = Some node /\ node_kind node = kind.
Proof.
  intros Hwf Ht. unfold dependencies. destruct (Nat.leb_spec (length arena) target); [lia|].
  destruct (dependency_loop_inv arena target Hwf Ht (S target) _ _ ltac:(lia)
              (dependency_inv_start arena target Hwf Ht)) as (needed & d & -> & Hinv).
  exists d. split; [done|]. split; [by apply (di_summarized _ _ _ _ _ Hinv)|].
  intros kind. rewrite (di_mentions _ _ _ _ _ Hinv).
  setoid_rewrite (dependency_inv_done arena target needed d); [|done].
  split; [intros (i & n & _ & ? & ? & ? & ?); eauto 10|].
  intros [? (i & n & ? & ? & ?)]. exists i, n. split_and!; [lia|done..].
Qed.

(** ** Properties *)

(** A constructed arena holds the given nodes in order, each node refers
    only to earlier nodes, and no chain of references is longer than the
    nesting limit: a path has at most 31 edges, 32 nodes. *)
Theorem arena_nesting_bounded nodes arena :
  arena_new nodes = Ok arena ->
  arena = map (fun n => mkNode (fst n) (snd n)) nodes /\
  (forall i j, edge arena i j -> (j < i)%nat) /\
  (forall n i j, nsteps (edge arena) n i j -> Z.of_nat n < MAX_EXPRESSION_NESTING).
Proof.
  intros [-> Hw]%arena_new_ok. split_and!; [done|intros; by eapply edge_lt|].
  intros n i j Hn. destruct (wf_ranked _ Hw) as (depths & Hr).
  destruct n as [|n]; [done|].
  destruct (rank_nsteps _ _ _ _ _ Hr Hn ltac:(lia)) as (di & dj & Hi & Hj & ?).
  destruct Hr as (_ & Hd & _). rewrite Forall_lookup in Hd.
  pose proof (Hd _ _ Hi). pose proof (Hd _ _ Hj). lia.
Qed.

(**  The reachability check over a constructed arena always finishes, and it
    accepts exactly when every root is a node of the arena and every node is
    reachable from a root. *)
Theorem validate_reachable_exact nodes arena roots context :
  arena_new nodes = Ok arena ->
  exists r, validate_reachable_from arena roots context = Some r /\
    (r = Ok tt <->
     (forall root, root ∈ roots -> (root < length arena)%nat) /\
     (forall i, (i < length arena)%nat -> from_roots arena roots i)).
Proof.
  intros [-> Hw]%arena_new_ok. set (arena := map _ nodes) in *.
  unfold validate_reachable_from, reachable_fuel.
  pose proof (mark_reachable_spec arena context roots Hw (S (length roots + 2 * length arena)) _ _
                (marking_start arena roots)) as Hs.
  rewrite length_rev, unmarked_replicate in Hs. specialize (Hs ltac:(lia)).
  destruct (mark_reachable _ _ _ _ _) as [[final|e]|]; [| |done]; cbn.
  - eexists. split; [done|]. destruct (existsb negb final) eqn:Hx.
    + split; [done|]. intros [_ Hall]. exfalso.
      apply existsb_exists in Hx as (b & Hb & Hneg). apply list_elem_of_In in Hb.
      apply list_elem_of_lookup in Hb as [i Hi]. destruct b; [done|].
      pose proof (lookup_lt_Some _ _ _ Hi) as Hlt. rewrite (mk_length _ _ _ _ Hs) in Hlt.
      pose proof (closed_reaches _ _ _ _ Hs (Hall i Hlt)) as Hm. unfold marked in Hm. congruence.
    + split; [|done]. intros _. assert (Hall : forall i, (i < length arena)%nat -> marked final i).
      { intros i Hi. rewrite <- (mk_length _ _ _ _ Hs) in Hi. apply lookup_lt_is_Some_2 in Hi as [b Hi].
        unfold marked. rewrite Hi. destruct b; [done|]. exfalso.
        enough (existsb negb final = true) by congruence. apply existsb_exists.
        exists false. split; [by eapply list_elem_of_In, list_elem_of_lookup_2|done]. }
      split.
      * intros root Hr. destruct (mk_roots _ _ _ _ Hs root Hr) as [Hm|?]; [|set_solver].
        apply lookup_lt_Some in Hm. by rewrite (mk_length _ _ _ _ Hs) in Hm.
      * intros i Hi. apply (mk_sound _ _ _ _ Hs). left. by apply Hall.
  - eexists. split; [done|]. split; [done|]. intros [Hroots _]. exfalso.
    destruct Hs as (_ & i & Hi & Hnone). apply (from_roots_dom arena roots i Hw Hroots) in Hi.
    apply lookup_lt_is_Some_2 in Hi as [? ?]. congruence.
Qed.

(**  The dependencies of an expression of a constructed arena are exactly the
    value sources its evaluation can reach: a source is listed if and only if
    some node reachable from the expression reads it, and the sets of bindings
    and of root reads are those of the listed fields and records. *)
Theorem dependencies_exact nodes arena target :
  arena_new nodes = Ok arena -> (target < length arena)%nat ->
  exists d, dependencies arena target = Ok d /\ summarized d /\
    forall kind, mentions d kind <->
      is_source kind = true /\
      exists i node, rtc (edge arena) target i /\ arena !! i = Some node /\ node_kind node = kind.
Proof. intros [_ Hw]%arena_new_ok. by apply dependencies_ok. Qed.

(** ** Instances *)

(** [input.1 <= 100 && 0 < bound(0).2], with a shared zero. *)
Definition sample_nodes : list (ExpressionKind * ValueType) :=
  [(InputField 1, T_I64); (Constant (VI64 100), T_I64); (Binary LessEqual 0 1, T_Bool);
   (BoundField 0 2, T_I64); (Constant (VI64 0), T_I64); (Binary Less 4 3, T_Bool);
   (Binary And 2 5, T_Bool)].

Definition sample_arena : ExpressionArena := map (fun n => mkNode (fst n) (snd n)) sample_nodes.

Lemma arena_nesting_bounded_witness :
  arena_new sample_nodes = Ok sample_arena /\
  (forall n i j, nsteps (edge sample_arena) n i j -> Z.of_nat n < MAX_EXPRESSION_NESTING).
Proof.
  assert (arena_new sample_nodes = Ok sample_arena) as E by by vm_compute.
  split; [exact E|]. apply (arena_nesting_bounded sample_nodes sample_arena). exact E.
Defined.

Lemma validate_reachable_exact_witness :
  validate_reachable_from sample_arena [6%nat] "root" = Some (Ok tt) /\
  (forall i, (i < length sample_arena)%nat -> from_roots sample_arena [6%nat] i).
Proof.
  destruct (validate_reachable_exact sample_nodes sample_arena [6%nat] "root") as (r & Hr & H);
    [by vm_compute|].
  assert (validate_reachable_from sample_arena [6%nat] "root" = Some (Ok tt)) as E by by vm_compute.
  split; [exact E|]. rewrite E in Hr. injection Hr as <-. apply H. reflexivity.
Defined.

Lemma dependencies_exact_witness :
  exists d, dependencies sample_arena 6 = Ok d /\ mentions d (BoundField 0 2) /\
    ~ mentions d TransactionTime.
Proof.
  destruct (dependencies_exact sample_nodes sample_arena 6) as (d & Hd & _ & _);
    [by vm_compute|cbn; lia|].
  exists d. split; [exact Hd|]. vm_compute in Hd. injection Hd as <-. split; [by vm_compute|done].
Defined.
