(* ===== verification/Calendar.v ===== *)
(** * Calendar arithmetic of temporal truncation

    [civil_from_days_utc], [days_from_civil_utc] and [truncate_days_bucket] of
    [riffdb-invariant/src/lib.rs].  The specification is the proleptic Gregorian
    calendar counted one day at a time from 1970-01-01; the closed formulas are
    compared with it over one 400-year cycle by computation and carried to all
    days by the period of both. *)

From S2P Require Import Prelude Expression.

Local Open Scope Z_scope.

Inductive EvaluationError := E_Arithmetic | E_Integrity.

#[export] Instance EvaluationError_eq_dec : EqDecision EvaluationError.
Proof. solve_decision. Defined.

(** Signed division truncates toward zero; the unsigned quantities are
    nonnegative, where it is the floor. *)
Definition civil_from_days_utc (days : Z) : Z * Z * Z :=
  let z := days + 719468 in
  let era := Z.quot (if 0 <=? z then z else z - 146096) 146097 in
  let doe := z - era * 146097 in
  let yoe := (doe - doe / 1460 + doe / 36524 - doe / 146096) / 365 in
  let y := yoe + era * 400 in
  let doy := doe - (365 * yoe + yoe / 4 - yoe / 100) in
  let mp := (5 * doy + 2) / 153 in
  let d := doy - (153 * mp + 2) / 5 + 1 in
  let m := if mp <? 10 then mp + 3 else mp - 9 in
  let year := if m <=? 2 then y + 1 else y in
  (year, m, d).

Definition days_from_civil_utc (year month day : Z) : Z :=
  let y := if month <=? 2 then year - 1 else year in
  let era := Z.quot (if 0 <=? y then y else y - 399) 400 in
  let yoe := y - era * 400 in
  let m := month in
  let d := day in
  let mp := if 2 <? m then m - 3 else m + 9 in
  let doy := (153 * mp + 2) / 5 + d - 1 in
  let doe := yoe * 365 + yoe / 4 - yoe / 100 + doy in
  era * 146097 + doe - 719468.

Definition truncate_days_bucket (days : Z) (operator : UnaryOperator) : result EvaluationError Z :=
  match operator with
  | TemporalDay => Ok days
  | TemporalWeek => Ok (days - (days + 3) mod 7)
  | TemporalMonth =>
      let '(year, month, _) := civil_from_days_utc days in Ok (days_from_civil_utc year month 1)
  | TemporalYear =>
      let '(year, _, _) := civil_from_days_utc days in Ok (days_from_civil_utc year 1 1)
  | _ => Err E_Integrity
  end.

(** ** The calendar *)
Definition is_leap (year : Z) : bool :=
  (year mod 4 =? 0) && (negb (year mod 100 =? 0) || (year mod 400 =? 0)).

Definition days_in_month (year month : Z) : Z :=
  if month =? 2 then (if is_leap year then 29 else 28)
  else if (month =? 4) || (month =? 6) || (month =? 9) || (month =? 11) then 30
  else 31.

Definition valid_date (date : Z * Z * Z) : bool :=
  let '(year, month, day) := date in
  (1 <=? month) && (month <=? 12) && (1 <=? day) && (day <=? days_in_month year month).

Definition next_date (date : Z * Z * Z) : Z * Z * Z :=
  let '(year, month, day) := date in
  if day <? days_in_month year month then (year, month, day + 1)
  else if month <? 12 then (year, month + 1, 1)
  else (year + 1, 1, 1).

Definition previous_date (date : Z * Z * Z) : Z * Z * Z :=
  let '(year, month, day) := date in
  if 1 <? day then (year, month, day - 1)
  else if 1 <? month then (year, month - 1, days_in_month year (month - 1))
  else (year - 1, 12, 31).

(** The date [days] days after (or before) 1970-01-01, day by day. *)
Definition calendar_date (days : Z) : Z * Z * Z :=
  if 0 <=? days then Nat.iter (Z.to_nat days) next_date (1970, 1, 1)
  else Nat.iter (Z.to_nat (- days)) previous_date (1970, 1, 1).

(** A day that starts a bucket of the operator; 1970-01-01 was a Thursday. *)
Definition bucket_start (operator : UnaryOperator) (days : Z) : Prop :=
  let '(_, month, day) := calendar_date days in
  match operator with
  | TemporalDay => True
  | TemporalWeek => (days + 3) mod 7 = 0
  | TemporalMonth => day = 1
  | TemporalYear => month = 1 /\ day = 1
  | _ => False
  end.

(** [lia] over quotients and remainders by constants. *)
Ltac div_lia := Z.to_euclidean_division_equations; lia.

(** ** Period *)
Definition shift_years (k : Z) (date : Z * Z * Z) : Z * Z * Z :=
  let '(year, month, day) := date in (year + 400 * k, month, day).

Definition quot_floor (z n : Z) : Z := Z.quot (if 0 <=? z then z else z - (n - 1)) n.

Lemma quot_floor_div z n : 0 < n -> quot_floor z n = z / n.
Proof.
  intros Hn. unfold quot_floor. destruct (Z.leb_spec 0 z).
  - apply Z.quot_div_nonneg; lia.
  - replace (z - (n - 1)) with (- (n - 1 - z)) by lia.
    rewrite Z.quot_opp_l, Z.quot_div_nonneg by lia.
    apply Z.div_unique with (r := (n - 1) - (n - 1 - z) mod n).
    + pose proof (Z.mod_pos_bound (n - 1 - z) n Hn). lia.
    + pose proof (Z.div_mod (n - 1 - z) n ltac:(lia)). lia.
Qed.

Lemma is_leap_period year k : is_leap (year + 400 * k) = is_leap year.
Proof.
  unfold is_leap.
  assert ((year + 400 * k) mod 4 = year mod 4) as ->
    by (replace (400 * k) with ((100 * k) * 4) by lia; by rewrite Z.mod_add).
  assert ((year + 400 * k) mod 100 = year mod 100) as ->
    by (replace (400 * k) with ((4 * k) * 100) by lia; by rewrite Z.mod_add).
  by rewrite (Z.mul_comm 400), Z.mod_add.
Qed.

Lemma days_in_month_period year month k : days_in_month (year + 400 * k) month = days_in_month year month.
Proof. unfold days_in_month. by rewrite is_leap_period. Qed.

Lemma next_date_shift k date : next_date (shift_years k date) = shift_years k (next_date date).
Proof.
  destruct date as [[year month] day]. unfold next_date, shift_years.
  rewrite days_in_month_period. destruct (day <? _); [done|]. destruct (month <? 12); [done|].
  do 2 f_equal. lia.
Qed.

Lemma valid_date_shift k date : valid_date (shift_years k date) = valid_date date.
Proof.
  destruct date as [[year month] day]. unfold valid_date, shift_years. by rewrite days_in_month_period.
Qed.

Lemma shift_years_add a b date : shift_years a (shift_years b date) = shift_years (a + b) date.
Proof. destruct date as [[year month] day]. cbn. do 2 f_equal. lia. Qed.

(** The date within one 400-year era that starts on 0000-03-01. *)
Definition yoe_of (doe : Z) : Z := (doe - doe / 1460 + doe / 36524 - doe / 146096) / 365.
Definition doy_of (doe : Z) : Z := doe - (365 * yoe_of doe + yoe_of doe / 4 - yoe_of doe / 100).
Definition mp_of (doe : Z) : Z := (5 * doy_of doe + 2) / 153.

Definition era_date (doe : Z) : Z * Z * Z :=
  let m := if mp_of doe <? 10 then mp_of doe + 3 else mp_of doe - 9 in
  (if m <=? 2 then yoe_of doe + 1 else yoe_of doe, m, doy_of doe - (153 * mp_of doe + 2) / 5 + 1).

Lemma civil_era days :
  civil_from_days_utc days =
  shift_years ((days + 719468) / 146097) (era_date ((days + 719468) mod 146097)).
Proof.
  unfold civil_from_days_utc. set (z := days + 719468).
  change (Z.quot (if 0 <=? z then z else z - 146096) 146097) with (quot_floor z 146097).
  rewrite quot_floor_div by lia.
  replace (z - z / 146097 * 146097) with (z mod 146097) by (rewrite Z.mod_eq; lia).
  unfold era_date, shift_years. fold (yoe_of (z mod 146097)). fold (doy_of (z mod 146097)).
  fold (mp_of (z mod 146097)). destruct (_ <=? 2); do 2 f_equal; lia.
Qed.

Lemma days_from_civil_period year month day k :
  days_from_civil_utc (year + 400 * k) month day = days_from_civil_utc year month day + 146097 * k.
Proof.
  unfold days_from_civil_utc.
  assert ((if month <=? 2 then year + 400 * k - 1 else year + 400 * k) =
          (if month <=? 2 then year - 1 else year) + 400 * k) as -> by (destruct (month <=? 2); lia).
  set (y := if month <=? 2 then year - 1 else year).
  change (Z.quot (if 0 <=? ?y then ?y else ?y - 399) 400) with (quot_floor y 400).
  change (Z.quot (if 0 <=? y + 400 * k then y + 400 * k else y + 400 * k - 399) 400)
    with (quot_floor (y + 400 * k) 400).
  rewrite !quot_floor_div, (Z.mul_comm 400), Z.div_add by lia.
  replace (y + k * 400 - (y / 400 + k) * 400) with (y - y / 400 * 400) by lia. lia.
Qed.

(** ** Computation over one cycle *)
Definition check_step (check : Z -> bool) (st : Z * bool) : Z * bool :=
  (fst st + 1, snd st && check (fst st)).

Definition check_below (check : Z -> bool) (n : Z) : bool :=
  snd (N.iter (Z.to_N n) (check_step check) (0, true)).

Lemma check_below_spec check n i :
  0 <= i < n -> check_below check n = true -> check i = true.
Proof.
  intros Hi. unfold check_below. rewrite N2Nat.inj_iter.
  assert (forall k, let st := Nat.iter k (check_step check) (0, true) in
            fst st = Z.of_nat k /\
            (snd st = true -> forall j, 0 <= j < Z.of_nat k -> check j = true)) as H.
  { induction k as [|k [Hf Hs]]; [split; [done|lia]|]. rewrite Nat.iter_succ.
    set (st := Nat.iter k _ _) in *. cbn [check_step fst snd]. split; [lia|].
    intros [H1 H2]%andb_true_iff j Hj. rewrite Hf in H2.
    destruct (Z.eq_dec j (Z.of_nat k)) as [->|]; [done|]. apply Hs; [done|lia]. }
  intros Hc. apply (H (N.to_nat (Z.to_N n))); [done|lia].
Qed.

Definition date_eqb (a b : Z * Z * Z) : bool :=
  let '(y, m, d) := a in let '(y', m', d') := b in (y =? y') && (m =? m') && (d =? d').

Lemma date_eqb_eq a b : date_eqb a b = true <-> a = b.
Proof.
  destruct a as [[y m] d], b as [[y' m'] d']. cbn. rewrite !andb_true_iff, !Z.eqb_eq. naive_solver.
Qed.

(** Month [i] of the era, counted from March of its year 0. *)
Definition month_year (i : Z) : Z := if i mod 12 <? 10 then i / 12 else i / 12 + 1.
Definition month_number (i : Z) : Z := if i mod 12 <? 10 then i mod 12 + 3 else i mod 12 - 9.
Definition month_start (i : Z) : Z :=
  i / 12 * 365 + i / 12 / 4 - i / 12 / 100 + i / 4800 + (153 * (i mod 12) + 2) / 5.
Definition month_length (i : Z) : Z := days_in_month (month_year i) (month_number i).

Definition same_month (i doe : Z) : bool := (yoe_of doe =? i / 12) && (mp_of doe =? i mod 12).

Definition check_month (i : Z) : bool :=
  same_month i (month_start i) && same_month i (month_start i + month_length i - 1) &&
  (month_start (i + 1) =? month_start i + month_length i) && (1 <=? month_length i) &&
  (days_from_civil_utc (month_year i) (month_number i) 1 =? month_start i - 719468) &&
  date_eqb (next_date (month_year i, month_number i, month_length i))
    (month_year (i + 1), month_number (i + 1), 1).

Lemma check_months : check_below check_month 4800 = true.
Proof. vm_compute. reflexivity. Qed.

Lemma yoe_step a : 0 <= a < 146096 -> yoe_of a <= yoe_of (a + 1).
Proof.
  intros Ha. destruct (Z.eq_dec a 146095) as [->|]; [by vm_compute|].
  unfold yoe_of. rewrite !(Z.div_small _ 146096) by lia. apply Z.div_le_mono; [lia|].
  assert ((a + 1) / 1460 <= a / 1460 + 1) by div_lia.
  assert (a / 36524 <= (a + 1) / 36524) by div_lia. lia.
Qed.

Lemma yoe_mono a b : 0 <= a <= b -> b < 146097 -> yoe_of a <= yoe_of b.
Proof.
  intros [Ha Hab] Hb. replace b with (a + (b - a)) in * by lia.
  assert (0 <= b - a) as Hk by lia. revert Hb. generalize (b - a), Hk. clear b Hab Hk.
  apply (natlike_ind (fun k => a + k < 146097 -> yoe_of a <= yoe_of (a + k))).
  - intros _. rewrite Z.add_0_r. lia.
  - intros k Hk IH Hb. unfold Z.succ in *. rewrite Z.add_assoc.
    pose proof (yoe_step (a + k) ltac:(lia)). lia.
Qed.

(** A day between the first and the last of a month is in that month. *)
Lemma era_date_month i d :
  0 <= i < 4800 -> 1 <= d <= month_length i ->
  era_date (month_start i + d - 1) = (month_year i, month_number i, d) /\
  0 <= month_start i <= 146097 - month_length i.
Proof.
  intros Hi Hd. pose proof (check_below_spec _ _ _ Hi check_months) as Hc.
  unfold check_month, same_month in Hc. rewrite !andb_true_iff, !Z.eqb_eq in Hc.
  destruct Hc as ((((([Hy1 Hm1] & [Hy2 Hm2]) & Hnext) & _) & _) & _).
  assert (Hb : 0 <= month_start i <= 146097 - month_length i).
  { unfold month_start in *. div_lia. }
  split; [|done]. set (doe := month_start i + d - 1).
  assert (Hy : yoe_of doe = i / 12).
  { pose proof (yoe_mono (month_start i) doe). 
    pose proof (yoe_mono doe (month_start i + month_length i - 1)). lia. }
  assert (Hm : mp_of doe = i mod 12).
  { unfold mp_of, doy_of in *. rewrite Hy1 in Hm1. rewrite Hy2 in Hm2. rewrite Hy. subst doe.
    div_lia. }
  unfold era_date. rewrite Hm. unfold doy_of. rewrite Hy. subst doe.
  assert (month_start i + d - 1 - (365 * (i / 12) + i / 12 / 4 - i / 12 / 100) -
          (153 * (i mod 12) + 2) / 5 + 1 = d) as ->.
  { unfold month_start. rewrite (Z.div_small i 4800) by lia. lia. }
  unfold month_year, month_number. pose proof (Z.mod_pos_bound i 12 ltac:(lia)).
  destruct (Z.ltb_spec (i mod 12) 10); zbool; do 2 f_equal; lia.
Qed.

(** The months partition the era. *)
Lemma month_start_0 : month_start 0 = 0.
Proof. done. Qed.

Lemma month_start_end : month_start 4800 = 146097.
Proof. done. Qed.

Lemma month_next i : 0 <= i < 4800 ->
  month_start (i + 1) = month_start i + month_length i /\ 1 <= month_length i /\
  days_from_civil_utc (month_year i) (month_number i) 1 = month_start i - 719468 /\
  next_date (month_year i, month_number i, month_length i) =
    (month_year (i + 1), month_number (i + 1), 1).
Proof.
  intros Hi. pose proof (check_below_spec _ _ _ Hi check_months) as Hc.
  unfold check_month in Hc. rewrite !andb_true_iff, date_eqb_eq, !Z.eqb_eq, Z.leb_le in Hc. tauto.
Qed.

Lemma era_cover doe : 0 <= doe < 146097 ->
  exists i d, 0 <= i < 4800 /\ 1 <= d <= month_length i /\ doe = month_start i + d - 1.
Proof.
  intros Hdoe.
  assert (forall k, 0 <= k -> k <= 4800 -> doe < month_start k ->
    exists i d, 0 <= i < 4800 /\ 1 <= d <= month_length i /\ doe = month_start i + d - 1) as H.
  { apply (natlike_ind (fun k => k <= 4800 -> doe < month_start k -> _)).
    - intros _. rewrite month_start_0. lia.
    - intros k Hk IH Hle Hlt. unfold Z.succ in *.
      destruct (month_next k ltac:(lia)) as (Hn & _).
      destruct (Z.lt_ge_cases doe (month_start k)); [apply IH; lia|].
      exists k, (doe - month_start k + 1). lia. }
  apply (H 4800); [lia|lia|]. rewrite month_start_end. lia.
Qed.

Lemma month_number_range i : 1 <= month_number i <= 12.
Proof. unfold month_number. pose proof (Z.mod_pos_bound i 12 ltac:(lia)). zbool; lia. Qed.

Lemma days_from_civil_day year month day :
  days_from_civil_utc year month day = days_from_civil_utc year month 1 + (day - 1).
Proof. unfold days_from_civil_utc. lia. Qed.

Lemma era_next doe : 0 <= doe < 146097 ->
  next_date (era_date doe) = if doe =? 146096 then shift_years 1 (era_date 0) else era_date (doe + 1).
Proof.
  intros (i & d & Hi & Hd & ->)%era_cover.
  destruct (era_date_month i d Hi Hd) as [-> Hb]. destruct (month_next i Hi) as (Hn & _ & _ & Hnd).
  destruct (Z.eq_dec d (month_length i)) as [->|Hne].
  - rewrite Hnd. destruct (Z.eq_dec i 4799) as [->|Hi']; [done|].
    destruct (month_next (i + 1) ltac:(lia)) as (_ & Hl & _).
    destruct (era_date_month (i + 1) 1 ltac:(lia) ltac:(lia)) as [He Hb'].
    destruct (Z.eqb_spec (month_start i + month_length i - 1) 146096); [lia|].
    rewrite <- He. f_equal. lia.
  - destruct (Z.eqb_spec (month_start i + d - 1) 146096); [lia|]. cbn [next_date].
    fold (month_length i). destruct (Z.ltb_spec d (month_length i)); [|lia].
    destruct (era_date_month i (d + 1) Hi ltac:(lia)) as [<- _]. f_equal. lia.
Qed.

(** ** The formulas are the calendar *)
Lemma civil_step days : civil_from_days_utc (days + 1) = next_date (civil_from_days_utc days).
Proof.
  rewrite !civil_era, next_date_shift. set (z := days + 719468).
  pose proof (Z.mod_pos_bound z 146097 ltac:(lia)). rewrite era_next by lia.
  replace (days + 1 + 719468) with (z + 1) by lia.
  destruct (Z.eqb_spec (z mod 146097) 146096) as [He|Hne].
  - rewrite shift_years_add. replace ((z + 1) / 146097) with (z / 146097 + 1) by div_lia.
    replace ((z + 1) mod 146097) with 0 by div_lia. done.
  - replace ((z + 1) / 146097) with (z / 146097) by div_lia.
    by replace ((z + 1) mod 146097) with (z mod 146097 + 1) by div_lia.
Qed.

Lemma civil_valid days : valid_date (civil_from_days_utc days) = true.
Proof.
  rewrite civil_era, valid_date_shift.
  destruct (era_cover ((days + 719468) mod 146097)) as (i & d & Hi & Hd & ->); [apply Z.mod_pos_bound; lia|].
  destruct (era_date_month i d Hi Hd) as [-> _]. cbn. fold (month_length i).
  pose proof (month_number_range i). lia.
Qed.

Lemma previous_next date : valid_date date = true -> previous_date (next_date date) = date.
Proof.
  destruct date as [[y m] d]. cbn. rewrite !andb_true_iff, !Z.leb_le. intros Hv.
  destruct (Z.ltb_spec d (days_in_month y m)); cbn.
  - destruct (Z.ltb_spec 1 (d + 1)); [|lia]. do 2 f_equal. lia.
  - destruct (Z.ltb_spec m 12); cbn.
    + destruct (Z.ltb_spec 1 (m + 1)); [|lia]. replace (m + 1 - 1) with m by lia. do 2 f_equal. lia.
    + assert (m = 12) as -> by lia. cbn in *. change (days_in_month y 12) with 31 in *.
      do 2 f_equal; lia.
Qed.

Lemma civil_calendar days : civil_from_days_utc days = calendar_date days.
Proof.
  unfold calendar_date. destruct (Z.leb_spec 0 days) as [H|H].
  - rewrite <- (Z2Nat.id days H) at 1. generalize (Z.to_nat days). clear.
    induction n as [|n IH]; [done|]. rewrite Nat.iter_succ, <- IH, <- civil_step. f_equal. lia.
  - replace days with (- Z.of_nat (Z.to_nat (- days))) at 1 by lia. generalize (Z.to_nat (- days)).
    clear. induction n as [|n IH]; [done|]. rewrite Nat.iter_succ, <- IH.
    replace (- Z.of_nat n) with (- Z.of_nat (S n) + 1) by lia.
    by rewrite civil_step, previous_next by apply civil_valid.
Qed.

Lemma days_of_civil days :
  let '(year, month, day) := civil_from_days_utc days in days_from_civil_utc year month day = days.
Proof.
  rewrite civil_era.
  destruct (era_cover ((days + 719468) mod 146097)) as (i & d & Hi & Hd & He); [apply Z.mod_pos_bound; lia|].
  rewrite He. destruct (era_date_month i d Hi Hd) as [-> _]. cbn [shift_years].
  rewrite days_from_civil_period, days_from_civil_day.
  destruct (month_next i Hi) as (_ & _ & -> & _).
  pose proof (Z.div_mod (days + 719468) 146097 ltac:(lia)). lia.
Qed.

Lemma civil_of_month i k day : 0 <= i < 4800 -> 1 <= day <= month_length i ->
  civil_from_days_utc (days_from_civil_utc (month_year i + 400 * k) (month_number i) day) =
  (month_year i + 400 * k, month_number i, day).
Proof.
  intros Hi Hd. rewrite days_from_civil_period, days_from_civil_day, civil_era.
  destruct (month_next i Hi) as (_ & _ & -> & _).
  destruct (era_date_month i day Hi Hd) as [He Hb].
  set (z := month_start i - 719468 + (day - 1) + 146097 * k + 719468).
  assert (k = z / 146097) as <- by (apply Z.div_unique with (month_start i + day - 1); lia).
  assert (month_start i + day - 1 = z mod 146097) as <- by (apply Z.mod_unique with k; lia).
  by rewrite He.
Qed.

(** Every date has its month in some era. *)
Lemma month_index year month : 1 <= month <= 12 ->
  exists i k, 0 <= i < 4800 /\ year = month_year i + 400 * k /\ month = month_number i.
Proof.
  intros Hm. set (y := if month <=? 2 then year - 1 else year).
  set (mp := if month <=? 2 then month + 9 else month - 3).
  assert (0 <= mp < 12) by (subst mp; zbool; lia).
  pose proof (Z.mod_pos_bound y 400 ltac:(lia)). pose proof (Z.div_mod y 400 ltac:(lia)).
  exists (12 * (y mod 400) + mp), (y / 400). split; [lia|].
  unfold month_year, month_number.
  replace ((12 * (y mod 400) + mp) / 12) with (y mod 400) by (apply Z.div_unique with mp; lia).
  replace ((12 * (y mod 400) + mp) mod 12) with mp by (apply Z.mod_unique with (y mod 400); lia).
  subst y mp. destruct (Z.leb_spec month 2); zbool; lia.
Qed.

Lemma civil_of_days year month day :
  valid_date (year, month, day) = true ->
  civil_from_days_utc (days_from_civil_utc year month day) = (year, month, day).
Proof.
  intros Hv. cbn in Hv. rewrite !andb_true_iff, !Z.leb_le in Hv.
  destruct (month_index year month) as (i & k & Hi & -> & ->); [lia|].
  rewrite days_in_month_period in Hv. apply civil_of_month; [done|]. unfold month_length. lia.
Qed.

#[local] Opaque civil_from_days_utc days_from_civil_utc calendar_date.

(** ** Buckets *)
Definition temporal_days (operator : UnaryOperator) : bool :=
  match operator with
  | TemporalDay | TemporalWeek | TemporalMonth | TemporalYear => true
  | _ => false
  end.

(** Within a month, the first is as many days back as the day number says. *)
Lemma same_month_before days k :
  let '(year, month, day) := civil_from_days_utc days in
  0 <= k < day -> civil_from_days_utc (days - k) = (year, month, day - k).
Proof.
  pose proof (days_of_civil days) as Hd. pose proof (civil_valid days) as Hv.
  destruct (civil_from_days_utc days) as [[y m] d]. intros Hk.
  rewrite <- Hd, days_from_civil_day.
  replace (days_from_civil_utc y m 1 + (d - 1) - k) with (days_from_civil_utc y m (d - k))
    by (rewrite days_from_civil_day; lia).
  apply civil_of_days. cbn in *. rewrite !andb_true_iff, !Z.leb_le in *. lia.
Qed.

(** [bucket_start] over the closed formula. *)
Definition civil_start (operator : UnaryOperator) (days : Z) : Prop :=
  let '(_, month, day) := civil_from_days_utc days in
  match operator with
  | TemporalDay => True
  | TemporalWeek => (days + 3) mod 7 = 0
  | TemporalMonth => day = 1
  | TemporalYear => month = 1 /\ day = 1
  | _ => False
  end.

Lemma bucket_start_civil operator days : bucket_start operator days <-> civil_start operator days.
Proof. unfold bucket_start, civil_start. by rewrite civil_calendar. Qed.

Definition year_of (days : Z) : Z := fst (fst (civil_from_days_utc days)).

Lemma year_mono a b : a <= b -> year_of a <= year_of b.
Proof.
  intros Hab. replace b with (a + (b - a)) by lia. assert (0 <= b - a) as Hk by lia.
  revert Hk. generalize (b - a). clear. apply natlike_ind; [rewrite Z.add_0_r; lia|].
  intros k Hk IH. unfold Z.succ. rewrite Z.add_assoc. unfold year_of in *. rewrite civil_step.
  destruct (civil_from_days_utc (a + k)) as [[y m] d]. cbn [next_date fst] in *.
  destruct (d <? days_in_month y m), (m <? 12); cbn [fst]; lia.
Qed.

Lemma year_first_valid year : valid_date (year, 1, 1) = true.
Proof. done. Qed.

Lemma year_of_first year : year_of (days_from_civil_utc year 1 1) = year.
Proof. unfold year_of. by rewrite civil_of_days by apply year_first_valid. Qed.

Lemma january_first_before days :
  days_from_civil_utc (year_of days) 1 1 <= days.
Proof.
  destruct (Z.le_gt_cases (days_from_civil_utc (year_of days) 1 1) days) as [|Hgt]; [done|].
  exfalso. set (first := days_from_civil_utc (year_of days) 1 1) in *.
  assert (Hf : civil_from_days_utc first = (year_of days, 1, 1)) by apply civil_of_days, year_first_valid.
  (* the day before is in the previous year *)
  assert (Hp : civil_from_days_utc (first - 1) = (year_of days - 1, 12, 31)).
  { rewrite <- (previous_next _ (civil_valid (first - 1))), <- civil_step.
    replace (first - 1 + 1) with first by lia. by rewrite Hf. }
  pose proof (year_mono days (first - 1) ltac:(lia)) as Hy.
  assert (year_of (first - 1) = year_of days - 1) by (unfold year_of at 1; by rewrite Hp). lia.
Qed.

Lemma truncate_civil days operator :
  match truncate_days_bucket days operator with
  | Ok start =>
      temporal_days operator = true /\ start <= days /\ civil_start operator start /\
      forall later, start < later <= days -> ~ civil_start operator later
  | Err e => e = E_Integrity /\ temporal_days operator = false
  end.
Proof.
  unfold civil_start.
  destruct operator; cbn [truncate_days_bucket temporal_days]; [by split..| | | |].
  - destruct (civil_from_days_utc days) as [[y m] d]. split_and!; [done|lia|done|lia].
  - split_and!; [done|pose proof (Z.mod_pos_bound (days + 3) 7 ltac:(lia)); lia|..].
    + destruct (civil_from_days_utc _) as [[y m] d]. div_lia.
    + intros later Hl. destruct (civil_from_days_utc _) as [[y m] d]. div_lia.
  - pose proof (days_of_civil days) as Hd. pose proof (civil_valid days) as Hv.
    pose proof (fun k => same_month_before days k) as Hb.
    destruct (civil_from_days_utc days) as [[y m] d] eqn:Hc. rewrite days_from_civil_day in Hd.
    cbn in Hv. rewrite !andb_true_iff, !Z.leb_le in Hv. split_and!; [done|lia|..].
    + rewrite <- Hd, (Z.add_comm _ (d - 1)) in Hb. specialize (Hb (d - 1) ltac:(lia)).
      rewrite Z.add_simpl_l in Hb. rewrite Hb. lia.
    + intros later Hl. specialize (Hb (days - later) ltac:(lia)).
      replace (days - (days - later)) with later in Hb by lia. rewrite Hb. lia.
  - pose proof (january_first_before days) as Hle.
    pose proof (fun later => year_mono later days) as Hmono. unfold year_of in Hle, Hmono at 2.
    destruct (civil_from_days_utc days) as [[y m] d]. cbn [fst] in Hle, Hmono.
    split_and!; [done|done|by rewrite civil_of_days by apply year_first_valid|].
    intros later Hl. pose proof (days_of_civil later) as Hd.
    pose proof (year_mono _ later ltac:(exact (Z.lt_le_incl _ _ (proj1 Hl)))) as H1.
    rewrite year_of_first in H1. specialize (Hmono later (proj2 Hl)). unfold year_of in H1, Hmono.
    destruct (civil_from_days_utc later) as [[y' m'] d']. cbn [fst] in H1, Hmono. intros [-> ->].
    assert (y' = y) as -> by lia. lia.
Qed.

(** ** Properties *)

(**  [civil_from_days_utc] is the proleptic Gregorian calendar counted day by
    day from 1970-01-01, always yields a date that exists, and
    [days_from_civil_utc] is its inverse in both directions. *)
Theorem civil_calendar_exact :
  (forall days, civil_from_days_utc days = calendar_date days /\
     valid_date (civil_from_days_utc days) = true /\
     let '(year, month, day) := civil_from_days_utc days in
     days_from_civil_utc year month day = days) /\
  (forall year month day, valid_date (year, month, day) = true ->
     civil_from_days_utc (days_from_civil_utc year month day) = (year, month, day)).
Proof.
  split; [|apply civil_of_days].
  intros days. split; [apply civil_calendar|]. split; [apply civil_valid|apply days_of_civil].
Qed.

(** Truncating a day to its day, ISO week, month or year gives the latest
    start of such a period that is not after the day; other operators are
    refused. *)
Theorem truncate_days_bucket_exact days operator :
  match truncate_days_bucket days operator with
  | Ok start =>
      temporal_days operator = true /\ start <= days /\ bucket_start operator start /\
      forall later, start < later <= days -> ~ bucket_start operator later
  | Err e => e = E_Integrity /\ temporal_days operator = false
  end.
Proof.
  pose proof (truncate_civil days operator) as H.
  destruct (truncate_days_bucket days operator); [|done]. by setoid_rewrite bucket_start_civil.
Qed.

Lemma civil_calendar_exact_witness :
  civil_from_days_utc (days_from_civil_utc 2024 2 29) = (2024, 2, 29) /\
  civil_from_days_utc (-719468) = (0, 3, 1).
Proof. split; [by apply civil_calendar_exact|by vm_compute]. Defined.
