(* ===== verification/Evaluate.v ===== *)
(** * Expression evaluation and commit checks

    [riffdb-invariant/src/lib.rs]: the operators on canonical values, the
    memoizing evaluator over an arena with its reusable cache, and the
    evaluation of commit checks.  The evaluator is compared with a reference
    that values the nodes of the arena once, bottom up. *)

From S2P Require Import Prelude Decimal Value ValueType Expression Calendar.
From stdpp Require Import list gmap relations strings.
Import Expression.

Local Open Scope Z_scope.

(** ** Derived equality of canonical values *)
Section all2.
Context {A : Type} (eqb : A -> A -> bool).
Fixpoint all2 (l k : list A) : bool :=
  match l, k with
  | [], [] => true
  | x :: l, y :: k => eqb x y && all2 l k
  | _, _ => false
  end.
End all2.

Fixpoint value_eqb (a b : CanonicalValue) : bool :=
  match a, b with
  | VNull, VNull => true
  | VBool x, VBool y => bool_decide (x = y)
  | VI64 x, VI64 y | VU64 x, VU64 y | VDate x, VDate y => x =? y
  | VDecimal x, VDecimal y => bool_decide (x = y)
  | VMoney x, VMoney y => bool_decide (x = y)
  | VString x, VString y | VBytes x, VBytes y | VUuid x, VUuid y => bool_decide (x = y)
  | VTimestamp x, VTimestamp y => bool_decide (x = y)
  | VEnum t n, VEnum t' n' => (t =? t') && (n =? n')
  | VList l, VList k => all2 value_eqb l k
  | VRecord fs, VRecord gs => 
      (fix fields (fs gs : list (Z * CanonicalValue)) : bool :=
         match fs, gs with
         | [], [] => true
         | (i, x) :: fs, (j, y) :: gs => (i =? j) && value_eqb x y && fields fs gs
         | _, _ => false
         end) fs gs
  | VVector x, VVector y => bool_decide (x = y)
  | _, _ => false
  end.

(** ** Operators *)
Definition negate_decimal (value : Decimal) : result EvaluationError Decimal :=
  coefficient ← ok_or (i_checked 128 (- dec_coefficient value)) E_Arithmetic;
  map_err (fun _ => E_Arithmetic) (decimal_new (dec_spec value) coefficient).

Definition bucket_timestamp (seconds : option Z) : result EvaluationError CanonicalValue :=
  bucket_seconds ← ok_or seconds E_Arithmetic;
  VTimestamp <$> map_err (fun _ => E_Arithmetic) (timestamp_new bucket_seconds 0).

Definition evaluate_unary (operator : UnaryOperator) (operand : CanonicalValue)
  : result EvaluationError CanonicalValue :=
  match operator, operand with
  | Not, VBool value => Ok (VBool (negb value))
  | Negate, VI64 value => VI64 <$> ok_or (i_checked 64 (- value)) E_Arithmetic
  | Negate, VDecimal value => VDecimal <$> negate_decimal value
  | Negate, VMoney value =>
      amount ← negate_decimal (money_amount value);
      Ok (VMoney (mkMoney (money_currency value) amount))
  | TemporalHour, VTimestamp ts =>
      bucket_timestamp (i_checked 64 (ts_seconds ts - ts_seconds ts mod 3600))
  | (TemporalDay | TemporalWeek | TemporalMonth | TemporalYear), VTimestamp ts =>
      let days := ts_seconds ts / 86400 in
      bucket_days ← truncate_days_bucket days operator;
      bucket_timestamp (i_checked 64 (bucket_days * 86400))
  | (TemporalDay | TemporalWeek | TemporalMonth | TemporalYear), VDate date =>
      bucket_days ← truncate_days_bucket date operator;
      VDate <$> ok_or (i_checked 32 bucket_days) E_Arithmetic
  | _, _ => Err E_Integrity
  end.

Definition multiply (lhs rhs : CanonicalValue) : result EvaluationError CanonicalValue :=
  match lhs, rhs with
  | VI64 l, VI64 r => VI64 <$> ok_or (i_checked 64 (l * r)) E_Arithmetic
  | VU64 l, VU64 r => VU64 <$> ok_or (u_checked 64 (l * r)) E_Arithmetic
  | _, _ => Err E_Integrity
  end.

(** [checked_div]: no division by zero, and the quotient must fit. *)
Definition divide (lhs rhs : CanonicalValue) : result EvaluationError CanonicalValue :=
  match lhs, rhs with
  | VI64 l, VI64 r =>
      VI64 <$> ok_or (if r =? 0 then None else i_checked 64 (Z.quot l r)) E_Arithmetic
  | VU64 l, VU64 r => VU64 <$> ok_or (if r =? 0 then None else Some (l / r)) E_Arithmetic
  | _, _ => Err E_Integrity
  end.

Definition add (lhs rhs : CanonicalValue) : result EvaluationError CanonicalValue :=
  match lhs, rhs with
  | VI64 l, VI64 r => VI64 <$> ok_or (i_checked 64 (l + r)) E_Arithmetic
  | VU64 l, VU64 r => VU64 <$> ok_or (u_checked 64 (l + r)) E_Arithmetic
  | VDecimal l, VDecimal r =>
      VDecimal <$> map_err (fun _ => E_Arithmetic) (decimal_checked_add l r)
  | VMoney l, VMoney r => VMoney <$> map_err (fun _ => E_Arithmetic) (money_checked_add l r)
  | _, _ => Err E_Integrity
  end.

Definition subtract (lhs rhs : CanonicalValue) : result EvaluationError CanonicalValue :=
  match lhs, rhs with
  | VI64 l, VI64 r => VI64 <$> ok_or (i_checked 64 (l - r)) E_Arithmetic
  | VU64 l, VU64 r => VU64 <$> ok_or (u_checked 64 (l - r)) E_Arithmetic
  | VDecimal l, VDecimal r =>
      VDecimal <$> map_err (fun _ => E_Arithmetic) (decimal_checked_sub l r)
  | VMoney l, VMoney r => VMoney <$> map_err (fun _ => E_Arithmetic) (money_checked_sub l r)
  | _, _ => Err E_Integrity
  end.

Definition compare (lhs rhs : CanonicalValue) (predicate : comparison -> bool)
  : result EvaluationError CanonicalValue :=
  ordering ←
    match lhs, rhs with
    | VI64 l, VI64 r | VU64 l, VU64 r | VDate l, VDate r => Ok (l ?= r)
    | VDecimal l, VDecimal r => map_err (fun _ => E_Integrity) (decimal_checked_cmp l r)
    | VMoney l, VMoney r => map_err (fun _ => E_Integrity) (money_checked_cmp l r)
    | VTimestamp l, VTimestamp r => Ok (timestamp_cmp l r)
    | _, _ => Err E_Integrity
    end;
  Ok (VBool (predicate ordering)).

Definition boolean (lhs rhs : CanonicalValue) (operator : bool -> bool -> bool)
  : result EvaluationError CanonicalValue :=
  match lhs, rhs with
  | VBool l, VBool r => Ok (VBool (operator l r))
  | _, _ => Err E_Integrity
  end.

Definition is_lt (c : comparison) : bool := match c with Lt => true | _ => false end.
Definition is_le (c : comparison) : bool := match c with Gt => false | _ => true end.
Definition is_gt (c : comparison) : bool := match c with Gt => true | _ => false end.
Definition is_ge (c : comparison) : bool := match c with Lt => false | _ => true end.

Definition evaluate_binary (operator : BinaryOperator) (lhs rhs : CanonicalValue)
  : result EvaluationError CanonicalValue :=
  match operator with
  | Multiply => multiply lhs rhs
  | Divide => divide lhs rhs
  | Add => add lhs rhs
  | Subtract => subtract lhs rhs
  | Equal => Ok (VBool (value_eqb lhs rhs))
  | NotEqual => Ok (VBool (negb (value_eqb lhs rhs)))
  | Less => compare lhs rhs is_lt
  | LessEqual => compare lhs rhs is_le
  | Greater => compare lhs rhs is_gt
  | GreaterEqual => compare lhs rhs is_ge
  | And => boolean lhs rhs andb
  | Or => boolean lhs rhs orb
  end.

(** ** Value sources: the [ExpressionValueSource] trait *)
Record ExpressionValueSource := mkSource {
  src_input_field : Z -> option CanonicalValue;
  src_service_value : Z -> option CanonicalValue;
  src_collection_element : option CanonicalValue;
  src_collection_element_field : Z -> option CanonicalValue;
  src_complete_binding : Z -> option CanonicalValue;
  src_bound_field : Z -> Z -> option CanonicalValue;
  src_schema_field : Z -> Z -> option CanonicalValue;
  src_root_validation_field : Z -> Z -> option CanonicalValue;
  src_source_event_field : Z -> option CanonicalValue;
  src_transaction_time : option Timestamp;
  src_transaction_date : option Z;
}.

(** The arms of [evaluate_kind] that evaluate no other node. *)
Definition leaf_value (values : ExpressionValueSource) (kind : ExpressionKind)
  : option CanonicalValue :=
  match kind with
  | Constant value => Some value
  | InputField field => src_input_field values field
  | ServiceValue field => src_service_value values field
  | CollectionElement => src_collection_element values
  | CollectionElementField field => src_collection_element_field values field
  | CompleteBinding binding => src_complete_binding values binding
  | BoundField binding field => src_bound_field values binding field
  | SchemaField entity_type field => src_schema_field values entity_type field
  | RootValidationField read field => src_root_validation_field values read field
  | SourceEventField field => src_source_event_field values field
  | TransactionTime => VTimestamp <$> src_transaction_time values
  | TransactionDate => VDate <$> src_transaction_date values
  | Unary _ _ | Binary _ _ _ => None
  end.

(** ** The memoizing evaluator *)
Record ExpressionEvaluator := mkEvaluator {
  cache : list (option (result EvaluationError CanonicalValue));
  visited : list nat;
}.

(** A method of the evaluator; [None] is the exhaustion of the fuel that stands
    for the call stack. *)
Definition Eval (A : Type) : Type :=
  ExpressionEvaluator -> option (ExpressionEvaluator * result EvaluationError A).

#[export] Instance Eval_ret : MRet Eval := fun A a ev => Some (ev, Ok a).
#[export] Instance Eval_bind : MBind Eval := fun A B f m ev =>
  match m ev with
  | Some (ev', Ok a) => f a ev'
  | Some (ev', Err e) => Some (ev', Err e)
  | None => None
  end.

Definition pure_result {A} (r : result EvaluationError A) : Eval A := fun ev => Some (ev, r).

Definition evaluator_new (arena : ExpressionArena) : ExpressionEvaluator :=
  mkEvaluator (replicate (length arena) None) [].

Definition clear_visited (ev : ExpressionEvaluator) : ExpressionEvaluator :=
  mkEvaluator (foldl (fun cache index => <[index := None]> cache) (cache ev) (visited ev)) [].

(** ** Commit checks ([riffdb-contract-ir/src/plan.rs]) *)
Record CommitCheckPlan := mkCommitCheck {
  check_invariant_id : Z;
  check_predicate : ExprId;
  check_source_bindings : list Z;
  check_root_validation_reads : list Z;
}.

(** [windows(2).any(|pair| pair[0] >= pair[1])] *)
Fixpoint out_of_order (l : list Z) : bool :=
  match l with
  | x :: ((y :: _) as rest) => (y <=? x) || out_of_order rest
  | _ => false
  end.

Definition commit_check_new (invariant_id : Z) (predicate : ExprId)
    (source_bindings root_validation_reads : list Z) : result IrValidationError CommitCheckPlan :=
  match source_bindings, root_validation_reads with
  | [], [] => Err (IR_Empty "commit-check application subjects")
  | _, _ =>
      if out_of_order source_bindings || out_of_order root_validation_reads
      then Err (IR_NonCanonicalOrder "commit-check application subjects")
      else Ok (mkCommitCheck invariant_id predicate source_bindings root_validation_reads)
  end.

Inductive CommitCheckResult :=
  | Satisfied
  | Rejected (invariant_id : Z).

(** The short circuit of [And] and [Or] on the left operand. *)
Definition short_circuit (operator : BinaryOperator) (lhs : CanonicalValue)
  : option (result EvaluationError CanonicalValue) :=
  match operator, lhs with
  | And, VBool false => Some (Ok (VBool false))
  | Or, VBool true => Some (Ok (VBool true))
  | (And | Or), VBool _ => None
  | (And | Or), _ => Some (Err E_Integrity)
  | _, _ => None
  end.

Section evaluator.
Context (arena : ExpressionArena) (values : ExpressionValueSource).

Definition evaluator_binary (evaluate_shared : ExprId -> Eval CanonicalValue)
    (operator : BinaryOperator) (lhs rhs : ExprId) : Eval CanonicalValue :=
  lhs ← evaluate_shared lhs;
  match short_circuit operator lhs with
  | Some r => pure_result r
  | None =>
      rhs ← evaluate_shared rhs;
      pure_result (evaluate_binary operator lhs rhs)
  end.

Definition evaluate_kind (evaluate_shared : ExprId -> Eval CanonicalValue)
    (kind : ExpressionKind) : Eval CanonicalValue :=
  match kind with
  | Unary operator operand =>
      operand ← evaluate_shared operand;
      pure_result (evaluate_unary operator operand)
  | Binary operator lhs rhs => evaluator_binary evaluate_shared operator lhs rhs
  | _ => pure_result (ok_or (leaf_value values kind) E_Integrity)
  end.

(** The check of the computed value against the node's type. *)
Definition checked_value (t : ValueType) (r : result EvaluationError CanonicalValue)
  : result EvaluationError CanonicalValue :=
  value ← r;
  _ ← map_err (fun _ => E_Integrity) (validate_value t value);
  Ok value.

Fixpoint evaluate_shared (fuel : nat) (index : ExprId) : Eval CanonicalValue := fun ev =>
  match fuel with
  | O => None
  | S fuel =>
      match cache ev !! index with
      | Some (Some cached) => Some (ev, cached)
      | _ =>
          match arena !! index with
          | None => Some (ev, Err E_Integrity)
          | Some node =>
              match evaluate_kind (evaluate_shared fuel) (node_kind node) ev with
              | None => None
              | Some (ev, r) =>
                  let result := checked_value (node_type node) r in
                  match cache ev !! index with
                  | None => Some (ev, Err E_Integrity)
                  | Some _ =>
                      Some (mkEvaluator (<[index := Some result]> (cache ev)) (visited ev ++ [index]),
                            result)
                  end
              end
          end
      end
  end.

(** Arena construction bounds the nesting, which bounds the recursion. *)
Definition evaluation_fuel : nat := Z.to_nat MAX_EXPRESSION_NESTING.

Definition batch_evaluate (expression : ExprId) : Eval CanonicalValue :=
  evaluate_shared evaluation_fuel expression.

Definition batch_evaluate_predicate (expression : ExprId) : Eval bool :=
  value ← evaluate_shared evaluation_fuel expression;
  match value with
  | VBool value => mret value
  | _ => pure_result (Err E_Integrity)
  end.

(** [ExpressionEvaluator::batch] and the end of its scope. *)
Definition with_batch {A} (body : Eval A) : Eval A := fun ev =>
  match body (clear_visited ev) with
  | Some (ev, r) => Some (clear_visited ev, r)
  | None => None
  end.

Definition evaluate_expression (expression : ExprId) : option (result EvaluationError CanonicalValue) :=
  snd <$> with_batch (batch_evaluate expression) (evaluator_new arena).

Definition evaluate_predicate (expression : ExprId) : option (result EvaluationError bool) :=
  snd <$> with_batch (batch_evaluate_predicate expression) (evaluator_new arena).

Fixpoint run_checks (checks : list CommitCheckPlan) : Eval CommitCheckResult :=
  match checks with
  | [] => mret Satisfied
  | check :: checks =>
      holds ← batch_evaluate_predicate (check_predicate check);
      if negb holds then mret (Rejected (check_invariant_id check)) else run_checks checks
  end.

Definition evaluate_commit_checks (checks : list CommitCheckPlan)
  : option (result EvaluationError CommitCheckResult) :=
  snd <$> with_batch (run_checks checks) (evaluator_new arena).
End evaluator.

(** ** Equality *)
Lemma all2_eq {A} (eqb : A -> A -> bool) l :
  Forall (fun x => forall y, eqb x y = true <-> x = y) l ->
  forall k, all2 eqb l k = true <-> l = k.
Proof.
  induction 1 as [|x l Hx Hl IH]; intros [|y k]; cbn; try done.
  rewrite andb_true_iff, Hx, IH. naive_solver.
Qed.

Lemma value_eqb_eq a b : value_eqb a b = true <-> a = b.
Proof.
  revert b. induction a as [a Hl Hr|l IH|fs IH] using value_ind'; intros b.
  - destruct a; try (exfalso; by eapply Hl); try (exfalso; by eapply Hr);
      destruct b; cbn; rewrite ?andb_true_iff, ?bool_decide_eq_true, ?Z.eqb_eq; naive_solver.
  - destruct b; cbn; try done. rewrite (all2_eq _ _ IH). naive_solver.
  - destruct b as [| | | | | | | | | | | | |gs|]; try done.
    enough (value_eqb (VRecord fs) (VRecord gs) = true <-> fs = gs) by naive_solver.
    revert gs. induction IH as [|[i x] fs Hx Hfs IHfs]; intros [|[j y] gs]; try done.
    cbn. rewrite !andb_true_iff, Z.eqb_eq, Hx. cbn in IHfs. rewrite IHfs. naive_solver.
Qed.

(** ** Reference semantics: every node once, bottom up *)
Section reference.
Context (values : ExpressionValueSource).

Definition kind_value (look : ExprId -> result EvaluationError CanonicalValue)
    (kind : ExpressionKind) : result EvaluationError CanonicalValue :=
  match kind with
  | Unary operator operand => operand ← look operand; evaluate_unary operator operand
  | Binary operator lhs rhs =>
      lhs ← look lhs;
      match short_circuit operator lhs with
      | Some r => r
      | None => rhs ← look rhs; evaluate_binary operator lhs rhs
      end
  | _ => ok_or (leaf_value values kind) E_Integrity
  end.

Definition lookup_value (table : list (result EvaluationError CanonicalValue)) (i : ExprId)
  : result EvaluationError CanonicalValue := default (Err E_Integrity) (table !! i).

Definition node_value (look : ExprId -> result EvaluationError CanonicalValue)
    (node : TypedExpression) : result EvaluationError CanonicalValue :=
  checked_value (node_type node) (kind_value look (node_kind node)).

Definition value_table (arena : ExpressionArena) : list (result EvaluationError CanonicalValue) :=
  foldl (fun table node => table ++ [node_value (lookup_value table) node]) [] arena.

Definition denote (arena : ExpressionArena) (i : ExprId) : result EvaluationError CanonicalValue :=
  lookup_value (value_table arena) i.

Lemma kind_value_ext look look' kind :
  (forall j, j ∈ operands kind -> look j = look' j) -> kind_value look kind = kind_value look' kind.
Proof.
  intros H. destruct kind; try done; cbn [kind_value operands] in *.
  - by rewrite H by set_solver.
  - rewrite (H lhs), (H rhs) by set_solver. done.
Qed.

Lemma value_table_snoc arena node :
  value_table (arena ++ [node]) =
  value_table arena ++ [node_value (lookup_value (value_table arena)) node].
Proof. unfold value_table. by rewrite foldl_app. Qed.

Lemma length_value_table arena : length (value_table arena) = length arena.
Proof.
  induction arena as [|node arena IH] using rev_ind; [done|].
  rewrite value_table_snoc, !length_app, IH. done.
Qed.

Lemma value_table_app arena k i :
  (i < length arena)%nat -> value_table (arena ++ k) !! i = value_table arena !! i.
Proof.
  intros Hi. induction k as [|node k IH] using rev_ind; [by rewrite app_nil_r|].
  rewrite app_assoc, value_table_snoc, lookup_app_l, IH; [done|].
  rewrite length_value_table, length_app. lia.
Qed.

Lemma value_table_lookup arena i node :
  arena !! i = Some node ->
  value_table arena !! i = Some (node_value (lookup_value (value_table (take i arena))) node).
Proof.
  induction arena as [|last arena IH] using rev_ind; [done|].
  rewrite value_table_snoc, !lookup_app_Some. intros [Hn|[Hge [Hi ->]%list_lookup_singleton_Some]].
  - left. rewrite take_app_le by (apply lookup_lt_Some in Hn; lia). by apply IH.
  - right. rewrite length_value_table, take_app_le, take_ge by lia. split; [done|].
    by replace (i - length arena)%nat with 0%nat by lia.
Qed.

Lemma denote_node arena i node :
  arena_wf arena -> arena !! i = Some node ->
  denote arena i = node_value (denote arena) node.
Proof.
  intros Hw Hn. unfold denote at 1, lookup_value. rewrite (value_table_lookup _ _ _ Hn).
  cbn [from_option id]. unfold node_value. f_equal. apply kind_value_ext. intros j Hj.
  assert (Hlt : (j < i)%nat) by (eapply edge_lt; [done|]; by exists node).
  pose proof (lookup_lt_Some _ _ _ Hn). unfold denote, lookup_value. f_equal.
  rewrite <- (take_drop i arena) at 2. symmetry. apply value_table_app. rewrite length_take. lia.
Qed.

Lemma denote_outside arena i : (length arena <= i)%nat -> denote arena i = Err E_Integrity.
Proof.
  intros Hi. unfold denote, lookup_value. by rewrite lookup_ge_None_2 by by rewrite length_value_table.
Qed.
End reference.

(** ** The evaluator computes the reference *)
Record evaluator_inv (arena : ExpressionArena) (values : ExpressionValueSource)
    (ev : ExpressionEvaluator) : Prop := {
  ei_length : length (cache ev) = length arena;
  ei_cached : forall i r, cache ev !! i = Some (Some r) -> r = denote values arena i /\ i ∈ visited ev;
  ei_visited : Forall (fun i => (i < length arena)%nat) (visited ev);
}.

(** A method that succeeds with the given result and keeps the invariant. *)
Definition computes {A} arena values (m : Eval A) (r : result EvaluationError A) : Prop :=
  forall ev, evaluator_inv arena values ev ->
    exists ev', m ev = Some (ev', r) /\ evaluator_inv arena values ev'.

Section computes.
Context (arena : ExpressionArena) (values : ExpressionValueSource).

Lemma computes_pure {A} (r : result EvaluationError A) : computes arena values (pure_result r) r.
Proof. intros ev Hev. by exists ev. Qed.

Lemma computes_bind {A B} (m : Eval A) (f : A -> Eval B) r g :
  computes arena values m r -> (forall a, r = Ok a -> computes arena values (f a) (g a)) ->
  computes arena values (m ≫= f) (r ≫= g).
Proof.
  intros Hm Hf ev Hev. destruct (Hm ev Hev) as (ev' & Hmev & Hev').
  unfold mbind at 1, Eval_bind. rewrite Hmev. destruct r as [a|e]; [by apply Hf|by exists ev'].
Qed.

Lemma computes_kind shared kind :
  (forall j, j ∈ operands kind -> computes arena values (shared j) (denote values arena j)) ->
  computes arena values (evaluate_kind values shared kind)
    (kind_value values (denote values arena) kind).
Proof.
  intros H. destruct kind; try apply computes_pure; cbn [evaluate_kind kind_value operands] in *.
  - apply computes_bind; [apply H; set_solver|]. intros. apply computes_pure.
  - apply computes_bind; [apply H; set_solver|]. intros l _.
    destruct (short_circuit operator l); [apply computes_pure|].
    apply computes_bind; [apply H; set_solver|]. intros. apply computes_pure.
Qed.

Lemma evaluator_inv_store ev i r :
  evaluator_inv arena values ev -> (i < length arena)%nat -> r = denote values arena i ->
  evaluator_inv arena values (mkEvaluator (<[i := Some r]> (cache ev)) (visited ev ++ [i])).
Proof.
  intros [Hl Hc Hv] Hi ->. split; cbn [cache visited].
  - by rewrite length_insert.
  - intros j r. rewrite list_lookup_insert_Some, elem_of_app.
    intros [(-> & [= ->] & _)|[_ H]]; [set_solver|]. destruct (Hc j r H). auto.
  - by apply Forall_app_2; [|apply Forall_singleton].
Qed.

Lemma computes_shared depths fuel i :
  arena_wf arena -> ranked arena depths ->
  (forall d, depths !! i = Some d -> d <= Z.of_nat fuel) -> (1 <= fuel)%nat ->
  computes arena values (evaluate_shared arena values fuel i) (denote values arena i).
Proof.
  intros Hw Hr. revert i. induction fuel as [|fuel IH]; intros i Hd Hf; [lia|].
  intros ev Hev. cbn [evaluate_shared].
  destruct (arena !! i) as [node|] eqn:Hn.
  2:{ rewrite (lookup_ge_None_2 (cache ev))
        by (rewrite (ei_length _ _ _ Hev); by apply lookup_ge_None).
      exists ev. split; [|done]. by rewrite denote_outside by by apply lookup_ge_None. }
  pose proof (lookup_lt_Some _ _ _ Hn) as Hi.
  assert (Hk : computes arena values
    (evaluate_kind values (evaluate_shared arena values fuel) (node_kind node))
    (kind_value values (denote values arena) (node_kind node))).
  { apply computes_kind. intros j Hj. destruct Hr as (_ & Hb & He).
    destruct (He i j) as (_ & di & dj & Hdi & Hdj & Hlt); [by exists node|].
    specialize (Hd _ Hdi). rewrite Forall_lookup in Hb. pose proof (Hb _ _ Hdj).
    apply IH; [|lia]. intros d Hdj'. simplify_eq. lia. }
  destruct (cache ev !! i) as [[r|]|] eqn:Hc.
  1:{ destruct (ei_cached _ _ _ Hev i r Hc) as [-> _]. by exists ev. }
  2:{ apply lookup_ge_None in Hc. rewrite (ei_length _ _ _ Hev) in Hc. lia. }
  destruct (Hk ev Hev) as (ev' & -> & Hev').
  destruct (lookup_lt_is_Some_2 (cache ev') i) as [? ->]; [by rewrite (ei_length _ _ _ Hev')|].
  rewrite (denote_node values arena i node Hw Hn).
  eexists. split; [done|]. apply evaluator_inv_store; [done|done|].
  by rewrite (denote_node values arena i node Hw Hn).
Qed.

Lemma computes_batch i :
  arena_wf arena -> computes arena values (batch_evaluate arena values i) (denote values arena i).
Proof.
  intros Hw. destruct (wf_ranked _ Hw) as (depths & Hr). apply (computes_shared depths); [done|done| |].
  - intros d Hd. destruct Hr as (_ & Hb & _). rewrite Forall_lookup in Hb. apply (Hb _ _ Hd).
  - unfold evaluation_fuel. vm_compute. lia.
Qed.
End computes.

#[local] Opaque evaluate_shared.

(** ** Batches *)
Lemma clear_visited_fresh arena values ev :
  evaluator_inv arena values ev -> clear_visited ev = evaluator_new arena.
Proof.
  intros [Hl Hc Hv]. unfold clear_visited, evaluator_new. f_equal.
  assert (forall v (c : list (option (result EvaluationError CanonicalValue))),
    (forall i r, c !! i = Some (Some r) -> i ∈ v) ->
    foldl (fun cache index => <[index := None]> cache) c v = replicate (length c) None) as H.
  { clear. induction v as [|x v IH]; intros c Hc; cbn [foldl].
    - apply list_eq. intros i. destruct (c !! i) as [[r|]|] eqn:E.
      + apply Hc in E. set_solver.
      + symmetry. apply lookup_replicate. split; [done|]. by eapply lookup_lt_Some.
      + symmetry. apply lookup_ge_None in E. apply lookup_ge_None. by rewrite length_replicate.
    - rewrite IH, length_insert; [done|]. intros i r. rewrite list_lookup_insert_Some.
      intros [(_ & ? & _)|[Hne E]]; [done|]. apply Hc in E. set_solver. }
  rewrite <- Hl. apply H. intros i r E. by apply (Hc i r).
Qed.

Lemma evaluator_new_inv arena values : evaluator_inv arena values (evaluator_new arena).
Proof.
  split; cbn.
  - by rewrite length_replicate.
  - intros i r [? _]%lookup_replicate. done.
  - constructor.
Qed.

(** A batch over any source gives the reference results of that source, whatever
    source the evaluator served before, and leaves the evaluator as new. *)
Lemma with_batch_computes {A} arena values values' (m : Eval A) r ev :
  computes arena values m r -> evaluator_inv arena values' ev ->
  with_batch m ev = Some (evaluator_new arena, r).
Proof.
  intros Hm Hev. unfold with_batch. rewrite (clear_visited_fresh _ _ _ Hev).
  destruct (Hm _ (evaluator_new_inv arena values)) as (ev' & -> & Hev').
  by rewrite (clear_visited_fresh _ _ _ Hev').
Qed.

(** ** Operators respect their types *)
Definition typed_result (t : ValueType) (r : result EvaluationError CanonicalValue) : Prop :=
  match r with
  | Ok v => validate_value t v = Ok tt /\ value_wf v
  | Err e => e = E_Arithmetic
  end.

Lemma typed_checked_i64 x :
  typed_result T_I64 (VI64 <$> ok_or (i_checked 64 x) E_Arithmetic).
Proof.
  destruct (i_checked 64 x) eqn:E; [|done]. apply i_checked_Some in E as [-> H].
  split; [done|]. by apply i_inb_spec.
Qed.

Lemma typed_checked_u64 x :
  typed_result T_U64 (VU64 <$> ok_or (u_checked 64 x) E_Arithmetic).
Proof.
  destruct (u_checked 64 x) eqn:E; [|done]. apply u_checked_Some in E as [-> H].
  split; [done|]. by apply u_inb_spec.
Qed.

Lemma typed_bucket_timestamp x : typed_result T_Timestamp (bucket_timestamp (i_checked 64 x)).
Proof.
  destruct (i_checked 64 x) eqn:E; [|done]. apply i_checked_Some in E as [-> H].
  apply i_inb_spec in H. split; [done|].
  unfold value_wf. cbn [value_wfb]. unfold timestamp_wfb. cbn [ts_seconds ts_nanoseconds].
  by rewrite H.
Qed.

Lemma truncate_ok days operator :
  temporal_days operator = true -> exists r, truncate_days_bucket days operator = Ok r.
Proof.
  destruct operator; try done; cbn [truncate_days_bucket]; intros _;
    try destruct (civil_from_days_utc days) as [[y m] d]; by eexists.
Qed.

Lemma decimal_wfb_wf d : decimal_wfb d = true <-> decimal_wf d.
Proof. unfold decimal_wfb, decimal_wf, spec_wfb, spec_wf. lia. Qed.

Lemma typed_decimal_result {E} spec (r : result E Decimal) :
  (forall d, r = Ok d -> dec_spec d = spec /\ decimal_wf d) ->
  typed_result (T_Decimal spec) (VDecimal <$> map_err (fun _ => E_Arithmetic) r).
Proof.
  intros H. destruct r as [d|e]; [|done]. destruct (H d eq_refl) as [Hs Hw]. cbn.
  rewrite bool_decide_eq_true_2 by done. split; [done|]. by apply decimal_wfb_wf.
Qed.

Lemma typed_money_result {E} currency (r : result E Money) :
  (forall m, r = Ok m -> money_currency m = currency /\ dec_spec (money_amount m) = money_spec /\
     money_wfb m = true) ->
  typed_result (T_Money currency) (VMoney <$> map_err (fun _ => E_Arithmetic) r).
Proof.
  intros H. destruct r as [m|e]; [|done]. destruct (H m eq_refl) as (Hc & Hs & Hw). cbn.
  rewrite !bool_decide_eq_true_2 by done. by split.
Qed.

Lemma validate_decimal spec v :
  validate_value (T_Decimal spec) v = Ok tt -> value_wf v ->
  exists d, v = VDecimal d /\ dec_spec d = spec /\ decimal_wf d.
Proof.
  destruct v; cbn; try done. case_bool_decide; [|done]. intros _ Hw. exists d.
  split_and!; [done|done|by apply decimal_wfb_wf].
Qed.

Lemma validate_money currency v :
  validate_value (T_Money currency) v = Ok tt -> value_wf v ->
  exists m, v = VMoney m /\ money_currency m = currency /\ dec_spec (money_amount m) = money_spec /\
    forallb is_ascii_uppercase (currency_as_bytes currency) = true /\ decimal_wf (money_amount m).
Proof.
  destruct v; cbn; try done. do 2 (case_bool_decide; [|done]). intros _ Hw. exists m.
  unfold value_wf, value_wfb, money_wfb in Hw. apply andb_true_iff in Hw as [Hc Hd].
  subst. split_and!; try done. by apply decimal_wfb_wf.
Qed.

Lemma typed_negate_decimal d :
  decimal_wf d ->
  exists r : result DecimalError Decimal,
    negate_decimal d = map_err (fun _ => E_Arithmetic) r /\
    forall d', r = Ok d' -> dec_spec d' = dec_spec d /\ decimal_wf d'.
Proof.
  intros Hw. unfold negate_decimal. destruct (i_checked 128 (- dec_coefficient d)) as [c|]; cbn.
  - exists (decimal_new (dec_spec d) c). split; [done|]. intros d' H. split.
    + by apply decimal_new_ok in H as [-> _].
    + eapply decimal_new_wf; [apply Hw|done].
  - by exists (Err ArithmeticOverflow).
Qed.

Lemma validate_unary_result operator t rt : validate_unary operator t rt = Ok tt -> rt = t.
Proof.
  unfold validate_unary. destruct operator, (type_tag t); try done; by case_bool_decide.
Qed.

#[local] Opaque truncate_days_bucket.

Lemma typed_truncate_timestamp operator days :
  temporal_days operator = true ->
  typed_result T_Timestamp
    (bucket_days ← truncate_days_bucket days operator; bucket_timestamp (i_checked 64 (bucket_days * 86400))).
Proof. intros H. destruct (truncate_ok days operator H) as [r ->]. apply typed_bucket_timestamp. Qed.

Lemma typed_truncate_date operator days :
  temporal_days operator = true ->
  typed_result T_Date
    (bucket_days ← truncate_days_bucket days operator; VDate <$> ok_or (i_checked 32 bucket_days) E_Arithmetic).
Proof.
  intros H. destruct (truncate_ok days operator H) as [r ->]. cbn.
  destruct (i_checked 32 r) eqn:E; [|done]. apply i_checked_Some in E as [-> E].
  split; [done|]. by apply i_inb_spec.
Qed.

Lemma unary_sound operator t rt v :
  validate_unary operator t rt = Ok tt -> validate_value t v = Ok tt -> value_wf v ->
  typed_result rt (evaluate_unary operator v).
Proof.
  intros Hop Hv Hw. pose proof (validate_unary_result _ _ _ Hop) as ->.
  destruct operator, t; try discriminate Hop; clear Hop;
    destruct v; try discriminate Hv; cbn [evaluate_unary];
    try (apply typed_truncate_timestamp; reflexivity);
    try (apply typed_truncate_date; reflexivity).
  - by split.
  - apply typed_checked_i64.
  - destruct (validate_decimal _ _ Hv Hw) as (d' & [= <-] & <- & Hd).
    destruct (typed_negate_decimal d Hd) as (r & -> & Hr). by apply typed_decimal_result.
  - destruct (validate_money _ _ Hv Hw) as (m' & [= <-] & <- & Hs & Hc & Hd).
    destruct (typed_negate_decimal _ Hd) as (r & -> & Hr). destruct r as [a|e]; [|done].
    destruct (Hr a eq_refl) as [Ha Hwa]. cbn. rewrite !bool_decide_eq_true_2 by (cbn; congruence).
    split; [done|]. unfold value_wf. cbn [value_wfb]. unfold money_wfb. cbn [money_currency money_amount].
    rewrite Hc. by apply decimal_wfb_wf.
  - apply typed_bucket_timestamp.
Qed.

Lemma validate_bool v : validate_value T_Bool v = Ok tt -> exists b, v = VBool b.
Proof. destruct v; try done. by eexists. Qed.

Lemma typed_bool b : typed_result T_Bool (Ok (VBool b)).
Proof. done. Qed.

(** Two values of one type have one constructor. *)
Ltac same_shape :=
  match goal with
  | Hl : validate_value ?t ?l = Ok tt, Hr : validate_value ?t ?r = Ok tt |- _ =>
      destruct l; try discriminate Hl; destruct r; try discriminate Hr
  end.

Lemma typed_divide_u64 l r :
  u_range 64 l -> u_range 64 r ->
  typed_result T_U64 (VU64 <$> ok_or (if r =? 0 then None else Some (l / r)) E_Arithmetic).
Proof.
  intros Hl Hr. destruct (Z.eqb_spec r 0); [done|]. split; [done|]. apply u_inb_spec.
  unfold u_range in *. split; [apply Z.div_pos; lia|].
  apply Z.le_lt_trans with l; [apply Z.div_le_upper_bound; nia|lia].
Qed.

(** A sum or difference of moneys keeps the currency and the decimal type. *)
Lemma money_result_typed (op : Decimal -> Decimal -> result DecimalError Decimal) currency a b :
  money_currency a = currency -> dec_spec (money_amount a) = money_spec ->
  forallb is_ascii_uppercase (currency_as_bytes currency) = true ->
  (forall d, op (money_amount a) (money_amount b) = Ok d ->
     dec_spec d = dec_spec (money_amount a) /\ decimal_wf d) ->
  typed_result (T_Money currency) (VMoney <$> map_err (fun _ => E_Arithmetic)
    (_ ← require_same_currency a b;
     amount ← map_err MoneyDecimal (op (money_amount a) (money_amount b));
     Ok (mkMoney (money_currency a) amount))).
Proof.
  intros <- Hs Hu Hop. apply typed_money_result. intros m.
  rewrite result_bind_ok. intros ([] & _ & H). apply result_bind_ok in H as (d & Hd & [= <-]).
  destruct (op (money_amount a) (money_amount b)) as [d'|] eqn:E; [|done]. cbn in Hd. injection Hd as ->.
  destruct (Hop d eq_refl) as [Hsd Hwd]. cbn [money_currency money_amount].
  split_and!; [done|congruence|]. unfold money_wfb. cbn [money_currency money_amount].
  rewrite Hu. by apply decimal_wfb_wf.
Qed.

Lemma decimal_add_typed a b d :
  decimal_wf a -> decimal_checked_add a b = Ok d -> dec_spec d = dec_spec a /\ decimal_wf d.
Proof. intros Ha (_ & -> & Hd)%decimal_checked_add_ok; done. Qed.

Lemma decimal_sub_typed a b d :
  decimal_wf a -> decimal_checked_sub a b = Ok d -> dec_spec d = dec_spec a /\ decimal_wf d.
Proof. intros Ha (_ & -> & Hd)%decimal_checked_sub_ok; done. Qed.

Lemma arithmetic_sound operator t l r :
  match operator with Multiply | Divide => t = T_I64 \/ t = T_U64 | _ => True end ->
  match operator with Multiply | Divide | Add | Subtract => numeric_tag (type_tag t) = true | _ => False end ->
  validate_value t l = Ok tt -> validate_value t r = Ok tt -> value_wf l -> value_wf r ->
  typed_result t (evaluate_binary operator l r).
Proof.
  intros Hint Hop Hl Hr Hwl Hwr. destruct operator; try done; destruct t; try done;
    try (by destruct Hint); clear Hint Hop.
  all: same_shape; cbn [evaluate_binary multiply divide add subtract].
  all: try apply typed_checked_i64; try apply typed_checked_u64.
  - destruct (_ =? 0); [done|]. apply typed_checked_i64.
  - apply typed_divide_u64; by apply u_inb_spec.
  - destruct (validate_decimal _ _ Hl Hwl) as (? & [= <-] & <- & Hd).
    apply typed_decimal_result. intros ?. by apply decimal_add_typed.
  - destruct (validate_money _ _ Hl Hwl) as (? & [= <-] & Hc & Hs & Hu & Hd).
    apply (money_result_typed decimal_checked_add); try done. intros ?. by apply decimal_add_typed.
  - destruct (validate_decimal _ _ Hl Hwl) as (? & [= <-] & <- & Hd).
    apply typed_decimal_result. intros ?. by apply decimal_sub_typed.
  - destruct (validate_money _ _ Hl Hwl) as (? & [= <-] & Hc & Hs & Hu & Hd).
    apply (money_result_typed decimal_checked_sub); try done. intros ?. by apply decimal_sub_typed.
Qed.

(** Values of one ordered type always compare. *)
Lemma compare_sound t l r predicate :
  match type_tag t with
  | TT_I64 | TT_U64 | TT_Decimal | TT_Money | TT_Timestamp | TT_Date => True
  | _ => False
  end ->
  validate_value t l = Ok tt -> validate_value t r = Ok tt -> value_wf l -> value_wf r ->
  exists b, compare l r predicate = Ok (VBool b).
Proof.
  intros Ht Hl Hr Hwl Hwr. destruct t; try done; same_shape; try by eexists.
  - destruct (validate_decimal _ _ Hl Hwl) as (? & [= <-] & Hs & _).
    destruct (validate_decimal _ _ Hr Hwr) as (? & [= <-] & Hs' & _).
    unfold compare, decimal_checked_cmp, require_same_spec.
    rewrite bool_decide_eq_true_2 by congruence. by eexists.
  - destruct (validate_money _ _ Hl Hwl) as (? & [= <-] & Hc & Hs & _).
    destruct (validate_money _ _ Hr Hwr) as (? & [= <-] & Hc' & Hs' & _).
    unfold compare, money_checked_cmp, require_same_currency, decimal_checked_cmp, require_same_spec.
    rewrite !bool_decide_eq_true_2 by congruence. by eexists.
Qed.

Lemma binary_sound operator lt rt t l r :
  validate_binary operator lt rt t = Ok tt ->
  validate_value lt l = Ok tt -> validate_value rt r = Ok tt -> value_wf l -> value_wf r ->
  typed_result t (evaluate_binary operator l r).
Proof.
  intros Hop Hl Hr Hwl Hwr. unfold validate_binary in Hop.
  case_bool_decide as Hsame; [subst rt|by destruct operator]. cbn [andb] in Hop.
  assert (Hbool : match operator with
            | Multiply | Divide | Add | Subtract => True | _ => t = T_Bool end).
  { destruct operator; try done; apply type_tag_bool; destruct (type_tag t); try done;
      rewrite andb_false_r in Hop; discriminate Hop. }
  destruct operator.
  1,2,3,4: clear Hbool; destruct (type_tag lt) eqn:Et; try discriminate Hop; cbn in Hop;
    case_bool_decide; try discriminate Hop; subst t;
    (apply arithmetic_sound; [|by rewrite Et|done..]); try done; destruct lt; naive_solver.
  1,2: subst t; apply typed_bool.
  1,2,3,4: subst t; cbn [evaluate_binary];
    match goal with |- typed_result _ (compare _ _ ?p) =>
      destruct (compare_sound lt l r p) as [b ->]; [|done..|apply typed_bool] end;
    by destruct (type_tag lt).
  1,2: subst t; destruct lt; try discriminate Hop;
    destruct (validate_bool _ Hl) as [? ->], (validate_bool _ Hr) as [? ->]; apply typed_bool.
Qed.

Lemma short_circuit_sound operator lt rt t l r :
  validate_binary operator lt rt t = Ok tt -> validate_value lt l = Ok tt ->
  short_circuit operator l = Some r -> typed_result t r.
Proof.
  intros Hop Hl. unfold validate_binary in Hop.
  case_bool_decide as Hsame; [subst rt|by destruct operator].
  destruct operator; try done; destruct lt; try discriminate Hop;
    destruct (validate_bool _ Hl) as [b ->]; cbn in Hop;
    (assert (t = T_Bool) as -> by (apply type_tag_bool; by destruct (type_tag t)));
    destruct b; try done; intros [= <-]; apply typed_bool.
Qed.

(** ** Typed sources *)
Definition source_typed (arena : ExpressionArena) (values : ExpressionValueSource) : Prop :=
  Forall (fun node => operands (node_kind node) = [] ->
    exists v, leaf_value values (node_kind node) = Some v /\ value_wf v /\
      validate_value (node_type node) v = Ok tt) arena.

Lemma typed_checked t r : typed_result t r -> typed_result t (checked_value t r).
Proof. destruct r as [v|e]; [|done]. intros [Hv Hw]. cbn. rewrite Hv. cbn. by split. Qed.

Lemma denote_sound values arena i node :
  arena_wf arena -> source_typed arena values -> arena !! i = Some node ->
  typed_result (node_type node) (denote values arena i).
Proof.
  intros Hw Hs. revert node. induction (lt_wf i) as [i _ IH]. intros node Hn.
  rewrite (denote_node values arena i node Hw Hn). apply typed_checked.
  assert (Hops : forall j n, j ∈ operands (node_kind node) -> arena !! j = Some n ->
    typed_result (node_type n) (denote values arena j)).
  { intros j n Hj Hnj. apply IH; [|done]. eapply edge_lt; [done|]. by exists node. }
  pose proof (wf_typed _ Hw) as Ht. unfold source_typed in Hs.
  rewrite Forall_lookup in Ht, Hs. specialize (Ht _ _ Hn). specialize (Hs _ _ Hn).
  destruct node as [kind t]. unfold node_typed in Ht. cbn [node_kind node_type] in *.
  destruct kind as [| | | | | | | | | | | |op o|op l r]; cbn [kind_value operands] in *;
    try (destruct (Hs eq_refl) as (v & -> & Hv & Hval); by split).
  - destruct Ht as (no & Hno & Hop). specialize (Hops o no ltac:(set_solver) Hno).
    destruct (denote values arena o) as [v|e]; [|done]. destruct Hops as [Hval Hv].
    by apply (unary_sound _ (node_type no)).
  - destruct Ht as (nl & nr & Hnl & Hnr & Hop).
    pose proof (Hops l nl ltac:(set_solver) Hnl) as Hl. pose proof (Hops r nr ltac:(set_solver) Hnr) as Hr.
    destruct (denote values arena l) as [vl|e]; [|done]. destruct Hl as [Hvl Hwl]. cbn [mbind result_bind].
    destruct (short_circuit op vl) as [sr|] eqn:Esc; [by eapply short_circuit_sound|].
    destruct (denote values arena r) as [vr|e]; [|done]. destruct Hr as [Hvr Hwr].
    by apply (binary_sound _ (node_type nl) (node_type nr)).
Qed.

(** ** Histories of one evaluator *)

(** The [evaluate] calls of one batch, in order. *)
Fixpoint batch_run (arena : ExpressionArena) (values : ExpressionValueSource) (ids : list ExprId)
    (ev : ExpressionEvaluator)
  : option (ExpressionEvaluator * list (result EvaluationError CanonicalValue)) :=
  match ids with
  | [] => Some (ev, [])
  | i :: ids =>
      '(ev, r) ← batch_evaluate arena values i ev;
      '(ev, rs) ← batch_run arena values ids ev;
      Some (ev, r :: rs)
  end.

(** Successive batches on one evaluator; [dropped] says whether the batch's
    destructor ran or the batch was forgotten. *)
Fixpoint run_history (arena : ExpressionArena)
    (history : list (ExpressionValueSource * list ExprId * bool)) (ev : ExpressionEvaluator)
  : option (list (list (result EvaluationError CanonicalValue))) :=
  match history with
  | [] => Some []
  | (values, ids, dropped) :: history =>
      '(ev, rs) ← batch_run arena values ids (clear_visited ev);
      rest ← run_history arena history (if dropped : bool then clear_visited ev else ev);
      Some (rs :: rest)
  end.

Lemma batch_run_computes arena values ids ev :
  arena_wf arena -> evaluator_inv arena values ev ->
  exists ev', batch_run arena values ids ev = Some (ev', map (denote values arena) ids) /\
    evaluator_inv arena values ev'.
Proof.
  intros Hw. revert ev. induction ids as [|i ids IH]; intros ev Hev; [by exists ev|].
  destruct (computes_batch arena values i Hw ev Hev) as (ev1 & H1 & Hev1).
  destruct (IH ev1 Hev1) as (ev2 & H2 & Hev2). exists ev2. cbn [batch_run map].
  rewrite H1. cbn. rewrite H2. done.
Qed.

Lemma run_history_computes arena values0 history ev :
  arena_wf arena -> evaluator_inv arena values0 ev ->
  run_history arena history ev =
  Some (map (fun b => map (denote (fst (fst b)) arena) (snd (fst b))) history).
Proof.
  intros Hw. revert values0 ev. induction history as [|[[values ids] dropped] history IH];
    intros values0 ev Hev; [done|]. cbn [run_history map fst snd].
  rewrite (clear_visited_fresh _ _ _ Hev).
  destruct (batch_run_computes arena values ids _ Hw (evaluator_new_inv arena values)) as (ev1 & -> & Hev1).
  cbn. rewrite (IH values); [done|]. destruct dropped; [|done].
  rewrite (clear_visited_fresh _ _ _ Hev1). apply evaluator_new_inv.
Qed.

(** ** Commit checks *)
Definition predicate_value (r : result EvaluationError CanonicalValue) : result EvaluationError bool :=
  value ← r; match value with VBool b => Ok b | _ => Err E_Integrity end.

(** The first check that does not evaluate to true decides. *)
Definition holds (values : ExpressionValueSource) (arena : ExpressionArena) (c : CommitCheckPlan) : Prop :=
  denote values arena (check_predicate c) = Ok (VBool true).

Inductive decided (values : ExpressionValueSource) (arena : ExpressionArena)
  : list CommitCheckPlan -> result EvaluationError CommitCheckResult -> Prop :=
  | decided_satisfied checks : Forall (holds values arena) checks -> decided values arena checks (Ok Satisfied)
  | decided_rejected before c after :
      Forall (holds values arena) before ->
      denote values arena (check_predicate c) = Ok (VBool false) ->
      decided values arena (before ++ c :: after) (Ok (Rejected (check_invariant_id c)))
  | decided_error before c after e :
      Forall (holds values arena) before ->
      predicate_value (denote values arena (check_predicate c)) = Err e ->
      decided values arena (before ++ c :: after) (Err e).

Lemma computes_predicate arena values i :
  arena_wf arena ->
  computes arena values (batch_evaluate_predicate arena values i)
    (predicate_value (denote values arena i)).
Proof.
  intros Hw. unfold batch_evaluate_predicate, predicate_value. fold (batch_evaluate arena values i).
  apply computes_bind; [by apply computes_batch|].
  intros v _. destruct v; try apply (computes_pure _ _ (Err E_Integrity)). apply (computes_pure _ _ (Ok b)).
Qed.

Lemma decided_cons arena values c checks r :
  holds values arena c -> decided values arena checks r -> decided values arena (c :: checks) r.
Proof.
  intros Hc. destruct 1 as [checks H|before c' after H1 H2|before c' after e H1 H2].
  - constructor. by constructor.
  - apply (decided_rejected _ _ (c :: before)); [by constructor|done].
  - apply (decided_error _ _ (c :: before)); [by constructor|done].
Qed.

Lemma run_checks_computes arena values checks :
  arena_wf arena ->
  exists r, computes arena values (run_checks arena values checks) r /\ decided values arena checks r.
Proof.
  intros Hw. induction checks as [|c checks (r & Hr & Hd)]; cbn [run_checks].
  - exists (Ok Satisfied). split; [apply (computes_pure _ _ (Ok Satisfied))|by constructor].
  - pose proof (computes_predicate arena values (check_predicate c) Hw) as Hp.
    destruct (predicate_value (denote values arena (check_predicate c))) as [b|e] eqn:E.
    + exists (if b then r else Ok (Rejected (check_invariant_id c))). split.
      * apply (computes_bind _ _ _ _ (Ok b) (fun b => if b : bool then r else _)); [done|].
        intros [] _; [done|]. apply (computes_pure _ _ (Ok _)).
      * unfold predicate_value in E. destruct (denote _ _ _) as [[]|] eqn:Ed; try discriminate E.
        cbn in E. injection E as ->. destruct b; [by apply decided_cons|].
        by apply (decided_rejected _ _ []).
    + exists (Err e). split.
      * by apply (computes_bind _ _ _ _ (Err e) (fun _ => Err e)).
      * by apply (decided_error _ _ []).
Qed.

(** ** Dependencies bound what evaluation can see *)
Definition agree_on (d : ExpressionDependencies) (a b : ExpressionValueSource) : Prop :=
  forall kind, mentions d kind -> leaf_value a kind = leaf_value b kind.

Lemma denote_agree arena i a b :
  arena_wf arena ->
  (forall j node, rtc (edge arena) i j -> arena !! j = Some node ->
     is_source (node_kind node) = true -> leaf_value a (node_kind node) = leaf_value b (node_kind node)) ->
  denote a arena i = denote b arena i.
Proof.
  intros Hw. induction (lt_wf i) as [i _ IH]. intros Hag.
  destruct (arena !! i) as [node|] eqn:Hn.
  2:{ by rewrite !denote_outside by by apply lookup_ge_None. }
  rewrite !(denote_node _ arena i node Hw Hn). unfold node_value. f_equal.
  assert (Hk : forall look, kind_value a look (node_kind node) = kind_value b look (node_kind node)).
  { intros look. pose proof (Hag i node (rtc_refl _ _) Hn) as Hleaf.
    destruct (node_kind node); try done; cbn [kind_value]; by rewrite Hleaf. }
  rewrite Hk. apply kind_value_ext. intros j Hj.
  assert (edge arena i j) as Hij by by exists node.
  apply IH; [by eapply edge_lt|]. intros k n Hjk. apply Hag. by eapply rtc_l.
Qed.

Lemma agree_denote nodes arena i d a b :
  arena_new nodes = Ok arena -> dependencies arena i = Ok d -> agree_on d a b ->
  denote a arena i = denote b arena i.
Proof.
  intros [_ Hw]%arena_new_ok Hd Hag.
  destruct (decide (i < length arena)%nat) as [Hi|Hi].
  2:{ unfold dependencies in Hd. destruct (Nat.leb_spec (length arena) i); [done|lia]. }
  destruct (dependencies_ok arena i Hw Hi) as (d' & Hd' & _ & Hm).
  rewrite Hd in Hd'. injection Hd' as <-.
  apply denote_agree; [done|]. intros j node Hj Hn Hs. apply Hag, Hm.
  split; [done|]. by exists j, node.
Qed.

(** An input-computable expression mentions inputs and elements only. *)
Definition submitted (kind : ExpressionKind) : bool :=
  match kind with InputField _ | CollectionElement | CollectionElementField _ => true | _ => false end.

Lemma input_computable_mentions d kind :
  summarized d -> is_input_computable d = true -> mentions d kind -> submitted kind = true.
Proof.
  intros [Hb Hr] Hc. unfold is_input_computable in Hc.
  rewrite !andb_true_iff, !bool_decide_eq_true, !negb_true_iff in Hc.
  destruct Hc as ((((((Hsv & Hbn) & Hsf) & Hrr) & Hev) & Htt) & Htd).
  rewrite Hbn in Hb. rewrite Hrr in Hr.
  destruct kind; cbn [mentions submitted]; try done; try congruence; try (rewrite ?Hsv, ?Hsf, ?Hev; set_solver).
Qed.

(** ** Properties *)

(** C26.  Whatever batches one evaluator serves, over whatever value sources, and
    whether each batch is dropped or forgotten, every evaluation terminates
    within the nesting limit and returns the reference value of its expression
    over its own batch's source: memoization is invisible and no value crosses
    from one source to another. *)
Theorem evaluator_history_exact nodes arena history :
  arena_new nodes = Ok arena ->
  run_history arena history (evaluator_new arena) =
  Some (map (fun b => map (denote (fst (fst b)) arena) (snd (fst b))) history).
Proof.
  intros [_ Hw]%arena_new_ok. destruct history as [|[[values ids] dropped] history]; [done|].
  eapply (run_history_computes arena values); [done|apply evaluator_new_inv].
Qed.

(** C27.  Evaluation over a constructed arena never loses its types: when the
    sources supply a well-formed value of the declared type for every leaf, an
    expression evaluates to a well-formed value of its declared type or fails
    with an arithmetic error, never with an integrity error. *)
Theorem evaluation_type_sound nodes arena values i node :
  arena_new nodes = Ok arena -> source_typed arena values -> arena !! i = Some node ->
  exists r, evaluate_expression arena values i = Some r /\
    match r with
    | Ok v => validate_value (node_type node) v = Ok tt /\ value_wf v
    | Err e => e = E_Arithmetic
    end.
Proof.
  intros [_ Hw]%arena_new_ok Hs Hn. exists (denote values arena i). split.
  - unfold evaluate_expression.
    by rewrite (with_batch_computes arena values values _ _ _ (computes_batch arena values i Hw)
                  (evaluator_new_inv arena values)).
  - by apply denote_sound.
Qed.

(**  Evaluation reads nothing outside the computed dependencies: two sources
    that agree on the dependencies of an expression give the same result, and
    for an input-computable expression it is enough that they agree on the
    submitted input fields and collection element. *)
Theorem dependencies_bound_evaluation nodes arena i d a b :
  arena_new nodes = Ok arena -> dependencies arena i = Ok d ->
  agree_on d a b \/
  (is_input_computable d = true /\
   forall kind, submitted kind = true -> leaf_value a kind = leaf_value b kind) ->
  evaluate_expression arena a i = evaluate_expression arena b i.
Proof.
  intros Hnew Hd Hag. pose proof (arena_new_ok _ _ Hnew) as [_ Hw].
  assert (agree_on d a b) as Hagree.
  { destruct Hag as [|[Hc Hsub]]; [done|]. intros kind Hm. apply Hsub.
    apply (input_computable_mentions d); [|done..].
    destruct (decide (i < length arena)%nat) as [Hi|Hi].
    - destruct (dependencies_ok arena i Hw Hi) as (d' & Hd' & Hsum & _).
      rewrite Hd in Hd'. by injection Hd' as <-.
    - unfold dependencies in Hd. destruct (Nat.leb_spec (length arena) i); [done|lia]. }
  unfold evaluate_expression.
  rewrite !(with_batch_computes arena _ a _ _ _ (computes_batch arena _ i Hw)
              (evaluator_new_inv arena a)).
  by rewrite (agree_denote nodes arena i d a b).
Qed.

(** Commit checks are decided by the first check in order whose predicate is
    not true: all true is [Satisfied], false is [Rejected] with that check's
    invariant, and an evaluation failure is returned as such. *)
Theorem commit_checks_first_failure nodes arena values checks :
  arena_new nodes = Ok arena ->
  exists r, evaluate_commit_checks arena values checks = Some r /\ decided values arena checks r.
Proof.
  intros [_ Hw]%arena_new_ok. destruct (run_checks_computes arena values checks Hw) as (r & Hr & Hd).
  exists r. split; [|done]. unfold evaluate_commit_checks.
  by rewrite (with_batch_computes arena values values _ _ _ Hr (evaluator_new_inv arena values)).
Qed.

(** ** Instances *)
Definition sample_source (input bound : Z) : ExpressionValueSource :=
  mkSource (fun _ => Some (VI64 input)) (fun _ => None) None (fun _ => None) (fun _ => None)
    (fun _ _ => Some (VI64 bound)) (fun _ _ => None) (fun _ _ => None) (fun _ => None) None None.

Lemma evaluator_history_exact_witness :
  run_history sample_arena
    [(sample_source 5 7, [6%nat; 2%nat], false); (sample_source 101 7, [6%nat], true)]
    (evaluator_new sample_arena) =
  Some [[Ok (VBool true); Ok (VBool true)]; [Ok (VBool false)]].
Proof.
  rewrite (evaluator_history_exact sample_nodes sample_arena); [by vm_compute|by vm_compute].
Defined.

Lemma sample_source_typed input bound :
  value_wf (VI64 input) -> value_wf (VI64 bound) ->
  source_typed sample_arena (sample_source input bound).
Proof.
  intros Hi Hb. unfold source_typed, sample_arena, sample_nodes. cbn [map fst snd].
  repeat apply Forall_cons_2; try apply Forall_nil_2; cbn [node_kind node_type]; intros Hleaf;
    try discriminate Hleaf; eexists; split_and!; try reflexivity; done.
Qed.

Lemma evaluation_type_sound_witness :
  exists r, evaluate_expression sample_arena (sample_source 5 7) 6 = Some r /\
    match r with
    | Ok v => validate_value T_Bool v = Ok tt /\ value_wf v
    | Err e => e = E_Arithmetic
    end.
Proof.
  apply (evaluation_type_sound sample_nodes sample_arena (sample_source 5 7) 6 (mkNode (Binary And 2 5) T_Bool)).
  - by vm_compute.
  - by apply sample_source_typed.
  - reflexivity.
Defined.

(** Node 2 reads the input only, so the bound record does not matter. *)
Lemma dependencies_bound_evaluation_witness :
  evaluate_expression sample_arena (sample_source 5 7) 2 =
  evaluate_expression sample_arena (sample_source 5 (-7)) 2.
Proof.
  destruct (dependencies sample_arena 2) as [d|] eqn:Hd; [|discriminate Hd].
  apply (dependencies_bound_evaluation sample_nodes sample_arena 2 d); [by vm_compute|exact Hd|].
  right. split; [vm_compute in Hd; injection Hd as <-; by vm_compute|].
  intros kind Hk. destruct kind; try discriminate Hk; reflexivity.
Defined.

Definition sample_checks : list CommitCheckPlan := [mkCommitCheck 1 2 [0] []; mkCommitCheck 2 5 [0] []].

Lemma commit_checks_first_failure_witness :
  evaluate_commit_checks sample_arena (sample_source 5 (-7)) sample_checks = Some (Ok (Rejected 2)) /\
  decided (sample_source 5 (-7)) sample_arena sample_checks (Ok (Rejected 2)).
Proof.
  destruct (commit_checks_first_failure sample_nodes sample_arena (sample_source 5 (-7)) sample_checks)
    as (r & Hr & Hd); [by vm_compute|].
  assert (evaluate_commit_checks sample_arena (sample_source 5 (-7)) sample_checks =
          Some (Ok (Rejected 2))) as E by by vm_compute.
  split; [exact E|]. rewrite E in Hr. injection Hr as <-. exact Hd.
Defined.
