(* ===== verification/Framing.v ===== *)
(** * Unambiguous byte framings

    The digests and keys of RiffDB are computed over hand-written
    concatenations of fixed-width integers, tags and length-prefixed strings
    ([riffdb-types/src/hash.rs], [riffdb-scheduler/src/lib.rs], ...).  What
    makes such a preimage safe is that it can be read in one way only.
    [Unambiguous P enc] states this of one field: whatever follows two encoded
    values, equal concatenations have equal values and equal rests.  The
    instances cover the fields the code uses; a whole preimage is taken apart
    field by field with [peel]. *)

From S2P Require Import Prelude.
From Stdlib Require Import Strings.String.
From stdpp Require Import list.

Local Open Scope string_scope.
Local Open Scope list_scope.
Local Open Scope Z_scope.

Class Unambiguous {A} (P : A -> Prop) (enc : A -> list byte) : Prop :=
  unambiguous x y s t : P x -> P y -> enc x ++ s = enc y ++ t -> x = y /\ s = t.

Lemma unambiguous_inj {A} (P : A -> Prop) enc `{!Unambiguous P enc} x y :
  P x -> P y -> enc x = enc y -> x = y.
Proof.
  intros Hx Hy E. apply (unambiguous (P := P) (enc := enc) x y [] []); auto.
  by rewrite E.
Qed.

(** A field of known length. *)
#[export] Instance fixed_unambiguous n :
  Unambiguous (fun l : list byte => length l = n) (fun l => l).
Proof. intros x y s t Hx Hy E. apply app_inj_1 in E; [done|congruence]. Qed.

(** [to_be_bytes] of an [n]-byte unsigned integer. *)
#[export] Instance be_bytes_unambiguous (n : nat) :
  Unambiguous (u_range (8 * Z.of_nat n)) (be_bytes n).
Proof.
  intros x y s t Hx Hy E. apply app_inj_1 in E as [E ->]; [|by rewrite !length_be_bytes].
  split; [|done]. rewrite <- (be_value_unsigned n x Hx), <- (be_value_unsigned n y Hy).
  by rewrite E.
Qed.

(** [to_be_bytes] of an [n]-byte signed integer. *)
Lemma be_bytes_signed_unambiguous (n : nat) :
  (0 < n)%nat -> Unambiguous (i_range (8 * Z.of_nat n)) (be_bytes n).
Proof.
  intros Hn x y s t Hx Hy E. apply app_inj_1 in E as [E ->]; [|by rewrite !length_be_bytes].
  split; [|done]. rewrite <- (be_value_signed n x Hn Hx), <- (be_value_signed n y Hn Hy).
  by rewrite E.
Qed.

(** An [n]-byte length followed by that many bytes. *)
Definition prefixed (n : nat) (l : list byte) : list byte := be_bytes n (zlen l) ++ l.

#[export] Instance prefixed_unambiguous n :
  Unambiguous (fun l => u_range (8 * Z.of_nat n) (zlen l)) (prefixed n).
Proof.
  intros x y s t Hx Hy E. unfold prefixed in E. rewrite <- !app_assoc in E.
  apply (unambiguous (P := u_range (8 * Z.of_nat n))) in E as [Hl E]; [|done..].
  apply app_inj_1 in E; [done|]. unfold zlen in Hl. lia.
Qed.

(** Elements one after another, when the number of elements is known. *)
Lemma flat_map_unambiguous {A} (P : A -> Prop) enc `{!Unambiguous P enc} l k s t :
  Forall P l -> Forall P k -> length l = length k ->
  flat_map enc l ++ s = flat_map enc k ++ t -> l = k /\ s = t.
Proof.
  intros Hl. revert k. induction Hl as [|x l Hx Hl IH]; intros [|y k] Hk Hlen E;
    try done; cbn [flat_map app length] in *.
  inversion Hk as [|? ? Hy Hk']; subst.
  rewrite <- !app_assoc in E.
  apply (unambiguous (P := P)) in E as [-> E]; [|done..].
  apply IH in E as [-> ->]; auto.
Qed.

Lemma Z_to_byte_inj x y : 0 <= x < 256 -> 0 <= y < 256 -> Z_to_byte x = Z_to_byte y -> x = y.
Proof.
  intros Hx Hy E. apply (f_equal byte_to_Z) in E.
  rewrite !byte_to_Z_to_byte, !Z.mod_small in E; lia.
Qed.

Lemma cons_app_inj {A} (x y : A) s t : x :: s = y :: t -> x = y /\ s = t.
Proof. intros [= -> ->]. done. Qed.

(** [peel P enc H E] reads one field encoded by [enc] off both sides of [H],
    leaving the equality of the values as [E] and of the rests as [H].  The
    side conditions [P] are solved by assumption or left to the caller. *)
Ltac peel P enc H E :=
  rewrite <- ?app_assoc in H;
  apply (unambiguous (P := P) (enc := enc)) in H as [E H]; [|try done..].

Ltac peel_prefixed n H E :=
  peel (fun l : list byte => u_range (8 * Z.of_nat n) (zlen l)) (prefixed n) H E.
Ltac peel_be n H E := peel (u_range (8 * Z.of_nat n)) (be_bytes n) H E.
Ltac peel_fixed n H E := peel (fun l : list byte => length l = n) (fun l : list byte => l) H E.

(** ** Lowercase hexadecimal *)

Definition DIGITS : list byte := list_byte_of_string "0123456789abcdef".

(** [DIGITS[..]]; the index is a nibble, so it is in range. *)
Definition digit (nibble : Z) : byte := default Byte.x00 (DIGITS !! Z.to_nat nibble).

Definition hex (bytes : list byte) : list byte :=
  flat_map (fun b => [digit (Z.shiftr (byte_to_Z b) 4); digit (Z.land (byte_to_Z b) 15)]) bytes.

Lemma digit_inj x y : 0 <= x < 16 -> 0 <= y < 16 -> digit x = digit y -> x = y.
Proof.
  intros Hx Hy.
  assert (forall n m, (n < 16)%nat -> (m < 16)%nat ->
            digit (Z.of_nat n) = digit (Z.of_nat m) -> n = m) as H.
  { do 16 (destruct n as [|n]; [do 16 (destruct m as [|m]; [done || (intros; discriminate)|]); lia|]).
    lia. }
  intros E. specialize (H (Z.to_nat x) (Z.to_nat y)). rewrite !Z2Nat.id in H by lia.
  apply Z2Nat.inj; [lia..|]. apply H; [lia|lia|done].
Qed.

Lemma nibbles b :
  0 <= Z.shiftr (byte_to_Z b) 4 < 16 /\ 0 <= Z.land (byte_to_Z b) 15 < 16 /\
  byte_to_Z b = 16 * Z.shiftr (byte_to_Z b) 4 + Z.land (byte_to_Z b) 15.
Proof.
  pose proof (byte_to_Z_range b). rewrite Z.shiftr_div_pow2 by lia.
  change 15 with (Z.ones 4). rewrite Z.land_ones by lia. change (2 ^ 4) with 16.
  pose proof (Z.div_mod (byte_to_Z b) 16 ltac:(lia)).
  pose proof (Z.mod_pos_bound (byte_to_Z b) 16 ltac:(lia)). lia.
Qed.

Lemma hex_inj l k : hex l = hex k -> l = k.
Proof.
  revert k. induction l as [|b l IH]; intros [|c k] E; cbn [hex flat_map app] in E; try done.
  injection E as E1 E2 E.
  destruct (nibbles b) as (Hb1 & Hb2 & Hb), (nibbles c) as (Hc1 & Hc2 & Hc).
  apply digit_inj in E1, E2; [|done..].
  f_equal; [|by apply IH]. apply byte_to_Z_inj. lia.
Qed.

Lemma hex_app l k : hex (l ++ k) = hex l ++ hex k.
Proof. unfold hex. apply flat_map_app. Qed.
Lemma length_hex l : length (hex l) = (2 * length l)%nat.
Proof. induction l as [|b l IH]; [done|]. cbn [hex flat_map app length] in *. fold (hex l). lia. Qed.
