(* ===== verification/Hash.v ===== *)
(** * Domain-separated digests

    [riffdb-types/src/hash.rs]: the registry of hash domains, the v1 frame
    (prefix, scheme byte, labelled domain, payload length, payload), the
    one-shot and the streaming content hash and the keyed digests.  SHA-256 and
    HMAC-SHA-256 come from the [sha2] and [hmac] crates: they are arguments
    ([sha256], [hmac_sha256]) and nothing is assumed of them.  A hasher's
    state is the bytes fed to it so far, which is all those crates document.

    The theorems: two payloads with the same digest are the same payload in the
    same domain, unless they exhibit a collision of SHA-256 itself; a streamed
    digest exists exactly when the declared number of bytes was streamed and
    then equals the one-shot digest. *)

From S2P Require Import Prelude Framing.
From Stdlib Require Import Strings.String.
From stdpp Require Import list.

Local Open Scope string_scope.
Local Open Scope list_scope.
Local Open Scope Z_scope.

Definition DIGEST_SCHEME_V1 : byte := Byte.x01.
Definition HASH_PREFIX : list byte := list_byte_of_string "RIFFDB-HASH" ++ [Byte.x00].
Definition HMAC_PREFIX : list byte := list_byte_of_string "RIFFDB-HMAC" ++ [Byte.x00].

(** ** The registry *)
Inductive HashDomain :=
  | HD_CanonicalValue
  | HD_Source
  | HD_MigrationSource
  | HD_ContractBundle
  | HD_MigrationBundle
  | HD_Plan
  | HD_ProjectionPlan
  | HD_ProjectionProviderDescriptor
  | HD_QueryPlan
  | HD_PartitionSetObservation
  | HD_QueryModule
  | HD_ReactiveSource
  | HD_ReactiveOperation
  | HD_ReactiveModule
  | HD_EventConsumerIdentity
  | HD_ApplicationManifest
  | HD_ApplicationSource
  | HD_ApplicationLock
  | HD_GeneratedArtifact
  | HD_ApplicationRoleDefinition
  | HD_ApplicationRole
  | HD_QuerySource
  | HD_QueryParameters
  | HD_ContractPlanRoot
  | HD_CommandInput
  | HD_Event
  | HD_EntityRecord
  | HD_EntityTransition
  | HD_EntityKey
  | HD_ConflictKey
  | HD_PartitionKey
  | HD_Schema
  | HD_ProjectionApply
  | HD_OfflineMaintenanceInput
  | HD_ContractMigrationInput
  | HD_ContractMigrationJournal
  | HD_ContractMigrationValidation
  | HD_CommandBatch
  | HD_ContextualReaction
  | HD_ReactiveWakeup
  | HD_ScheduledAttempt
  | HD_ApplicationInstallationPlan
  | HD_ApplicationInstallationReceipt
  | HD_AdapterConformanceManifest
  | HD_ApplicationExportPage
  | HD_ApplicationExportManifest
  | HD_ApplicationExportReceipt
  | HD_ApplicationExportCursor
  | HD_ApplicationExportLedger
  | HD_ApplicationPortabilityManifest
  | HD_ApplicationReimportReceipt
  | HD_ExactResultCheckpoint
  | HD_ColumnarProjectionSpec
  | HD_ProjectionSourceRows
  | HD_ProjectionSourceDescriptor
  | HD_ProjectionSourceOrigin
  | HD_ProjectionSourceCopyProgress.

Definition HashDomain_ALL : list HashDomain :=
  [HD_CanonicalValue; HD_Source; HD_MigrationSource; HD_ContractBundle;
   HD_MigrationBundle; HD_Plan; HD_ProjectionPlan; HD_ProjectionProviderDescriptor;
   HD_QueryPlan; HD_PartitionSetObservation; HD_QueryModule; HD_ReactiveSource;
   HD_ReactiveOperation; HD_ReactiveModule; HD_EventConsumerIdentity;
   HD_ApplicationManifest; HD_ApplicationSource; HD_ApplicationLock; HD_GeneratedArtifact;
   HD_ApplicationRoleDefinition; HD_ApplicationRole; HD_QuerySource; HD_QueryParameters;
   HD_ContractPlanRoot; HD_CommandInput; HD_Event; HD_EntityRecord; HD_EntityTransition;
   HD_EntityKey; HD_ConflictKey; HD_PartitionKey; HD_Schema; HD_ProjectionApply;
   HD_OfflineMaintenanceInput; HD_ContractMigrationInput; HD_ContractMigrationJournal;
   HD_ContractMigrationValidation; HD_CommandBatch; HD_ContextualReaction;
   HD_ReactiveWakeup; HD_ScheduledAttempt; HD_ApplicationInstallationPlan;
   HD_ApplicationInstallationReceipt; HD_AdapterConformanceManifest;
   HD_ApplicationExportPage; HD_ApplicationExportManifest; HD_ApplicationExportReceipt;
   HD_ApplicationExportCursor; HD_ApplicationExportLedger;
   HD_ApplicationPortabilityManifest; HD_ApplicationReimportReceipt;
   HD_ExactResultCheckpoint; HD_ColumnarProjectionSpec; HD_ProjectionSourceRows;
   HD_ProjectionSourceDescriptor; HD_ProjectionSourceOrigin;
   HD_ProjectionSourceCopyProgress].

Definition label (d : HashDomain) : list byte :=
  list_byte_of_string
    match d with
    | HD_CanonicalValue => "riffdb.canonical-value/v1"
    | HD_Source => "riffdb.source/v1"
    | HD_MigrationSource => "riffdb.migration-source/v1"
    | HD_ContractBundle => "riffdb.contract-bundle/v1"
    | HD_MigrationBundle => "riffdb.migration-bundle/v1"
    | HD_Plan => "riffdb.plan/v1"
    | HD_ProjectionPlan => "riffdb.projection-plan/v1"
    | HD_ProjectionProviderDescriptor => "riffdb.projection-provider-descriptor/v1"
    | HD_QueryPlan => "riffdb.query-plan/v1"
    | HD_PartitionSetObservation => "riffdb.partition-set-observation/v1"
    | HD_QueryModule => "riffdb.query-module/v1"
    | HD_ReactiveSource => "riffdb.reactive-source/v1"
    | HD_ReactiveOperation => "riffdb.reactive-operation/v1"
    | HD_ReactiveModule => "riffdb.reactive-module/v1"
    | HD_EventConsumerIdentity => "riffdb.event-consumer-identity/v1"
    | HD_ApplicationManifest => "riffdb.application-manifest/v1"
    | HD_ApplicationSource => "riffdb.application-source/v1"
    | HD_ApplicationLock => "riffdb.application-lock/v1"
    | HD_GeneratedArtifact => "riffdb.generated-artifact/v1"
    | HD_ApplicationRoleDefinition => "riffdb.application-role-definition/v1"
    | HD_ApplicationRole => "riffdb.application-role/v1"
    | HD_QuerySource => "riffdb.query-source/v1"
    | HD_QueryParameters => "riffdb.query-parameters/v1"
    | HD_ContractPlanRoot => "riffdb.contract-plan-root/v1"
    | HD_CommandInput => "riffdb.command-input/v1"
    | HD_Event => "riffdb.event/v1"
    | HD_EntityRecord => "riffdb.entity-record/v1"
    | HD_EntityTransition => "riffdb.entity-transition/v1"
    | HD_EntityKey => "riffdb.entity-key/v1"
    | HD_ConflictKey => "riffdb.conflict-key/v1"
    | HD_PartitionKey => "riffdb.partition-key/v1"
    | HD_Schema => "riffdb.schema/v1"
    | HD_ProjectionApply => "riffdb.projection-apply/v1"
    | HD_OfflineMaintenanceInput => "riffdb.offline-maintenance-input/v1"
    | HD_ContractMigrationInput => "riffdb.contract-migration-input/v1"
    | HD_ContractMigrationJournal => "riffdb.contract-migration-journal/v1"
    | HD_ContractMigrationValidation => "riffdb.contract-migration-validation/v1"
    | HD_CommandBatch => "riffdb.command-batch/v1"
    | HD_ContextualReaction => "riffdb.contextual-reaction/v1"
    | HD_ReactiveWakeup => "riffdb.reactive-wakeup/v1"
    | HD_ScheduledAttempt => "riffdb.scheduled-attempt/v1"
    | HD_ApplicationInstallationPlan => "riffdb.application-installation-plan/v1"
    | HD_ApplicationInstallationReceipt => "riffdb.application-installation-receipt/v1"
    | HD_AdapterConformanceManifest => "riffdb.adapter-conformance-manifest/v1"
    | HD_ApplicationExportPage => "riffdb.application-export-page/v1"
    | HD_ApplicationExportManifest => "riffdb.application-export-manifest/v1"
    | HD_ApplicationExportReceipt => "riffdb.application-export-receipt/v1"
    | HD_ApplicationExportCursor => "riffdb.application-export-cursor/v1"
    | HD_ApplicationExportLedger => "riffdb.application-export-ledger/v1"
    | HD_ApplicationPortabilityManifest => "riffdb.application-portability-manifest/v1"
    | HD_ApplicationReimportReceipt => "riffdb.application-reimport-receipt/v1"
    | HD_ExactResultCheckpoint => "riffdb.exact-result-checkpoint/v1"
    | HD_ColumnarProjectionSpec => "riffdb.columnar-projection-spec/v1"
    | HD_ProjectionSourceRows => "riffdb.projection-source-rows/v1"
    | HD_ProjectionSourceDescriptor => "riffdb.projection-source-descriptor/v1"
    | HD_ProjectionSourceOrigin => "riffdb.projection-source-origin/v1"
    | HD_ProjectionSourceCopyProgress => "riffdb.projection-source-copy-progress/v1"
    end.

Inductive KeyedHashDomain :=
  | KD_IdempotencyKey
  | KD_CapabilityToken
  | KD_ContextualCausation.

Definition KeyedHashDomain_ALL : list KeyedHashDomain :=
  [KD_IdempotencyKey; KD_CapabilityToken; KD_ContextualCausation].

Definition keyed_label (d : KeyedHashDomain) : list byte :=
  list_byte_of_string
    match d with
    | KD_IdempotencyKey => "riffdb.idempotency-key/v1"
    | KD_CapabilityToken => "riffdb.capability-token/v1"
    | KD_ContextualCausation => "riffdb.contextual-causation/v1"
    end.

(** ** Framing *)

(** [target] is the input absorbed so far. *)
Definition write_frame_header (target prefix domain : list byte) (payload_length : Z) : list byte :=
  target ++ prefix ++ [DIGEST_SCHEME_V1] ++ be_bytes 2 (zlen domain) ++ domain
    ++ be_bytes 8 payload_length.

Definition write_frame (target prefix domain payload : list byte) : list byte :=
  write_frame_header target prefix domain (zlen payload) ++ payload.

(** ** Digests *)

Record ContentDigest := mkContentDigest {
  cd_scheme : byte;
  cd_domain : HashDomain;
  cd_bytes : list byte;
}.

Definition content_digest_new (domain : HashDomain) (bytes : list byte) : ContentDigest :=
  mkContentDigest DIGEST_SCHEME_V1 domain bytes.

Definition content_digest_from_stored_parts (scheme : byte) (domain : HashDomain)
    (bytes : list byte) : option ContentDigest :=
  if negb (bool_decide (scheme = DIGEST_SCHEME_V1)) then None
  else Some (content_digest_new domain bytes).

Record KeyedDigest := mkKeyedDigest {
  kd_scheme : byte;
  kd_key_id : Z;
  kd_bytes : list byte;
}.

Definition keyed_digest_new (key_id : Z) (bytes : list byte) : KeyedDigest :=
  mkKeyedDigest DIGEST_SCHEME_V1 key_id bytes.

Record CapabilityTokenDigest := mkCapabilityTokenDigest {
  ct_key_id : Z;
  ct_bytes : list byte;
}.

Inductive HashLengthMismatch := mkHashLengthMismatch.

Record ContentHasher := mkContentHasher {
  ch_hasher : list byte;
  ch_domain : HashDomain;
  ch_remaining : option Z;
}.

Definition content_hasher_new (domain : HashDomain) (payload_length : Z) : ContentHasher :=
  mkContentHasher (write_frame_header [] HASH_PREFIX (label domain) payload_length)
    domain (Some payload_length).

Definition content_hasher_update (payload : list byte) : SE ContentHasher HashLengthMismatch unit :=
  fun self =>
    let remaining :=
      remaining ← ch_remaining self;
      length ← u_checked 64 (zlen payload);
      u_checked 64 (remaining - length) in
    match remaining with
    | None => (mkContentHasher (ch_hasher self) (ch_domain self) None, Err mkHashLengthMismatch)
    | Some _ => (mkContentHasher (ch_hasher self ++ payload) (ch_domain self) remaining, Ok tt)
    end.

Section digests.
Context (sha256 : list byte -> list byte) (hmac_sha256 : list byte -> list byte -> list byte).

Definition hash (domain : HashDomain) (payload : list byte) : ContentDigest :=
  content_digest_new domain (sha256 (write_frame [] HASH_PREFIX (label domain) payload)).

Definition content_hasher_finish (self : ContentHasher) : result HashLengthMismatch ContentDigest :=
  if negb (bool_decide (ch_remaining self = Some 0)) then Err mkHashLengthMismatch
  else Ok (content_digest_new (ch_domain self) (sha256 (ch_hasher self))).

(** [typed_hash_function!]: the digest bytes, under the purpose's own type. *)
Definition typed_hash (domain : HashDomain) (payload : list byte) : list byte :=
  cd_bytes (hash domain payload).

Definition hash_command_batch_document (payload : list byte) : ContentDigest :=
  hash HD_CommandBatch payload.

Definition hash_scheduled_attempt : list byte -> list byte := typed_hash HD_ScheduledAttempt.
Definition hash_command_input : list byte -> list byte := typed_hash HD_CommandInput.

Definition keyed_hash_secret (domain : KeyedHashDomain) (key_id : Z)
    (key_bytes payload : list byte) : KeyedDigest :=
  keyed_digest_new key_id
    (hmac_sha256 key_bytes (write_frame [] HMAC_PREFIX (keyed_label domain) payload)).

Definition hash_capability_token_secret (key_id : Z) (key_bytes raw_token : list byte) :
    CapabilityTokenDigest :=
  let digest := keyed_hash_secret KD_CapabilityToken key_id key_bytes raw_token in
  mkCapabilityTokenDigest key_id (kd_bytes digest).

(** Feeding a payload chunk by chunk, whatever each call answers. *)
Definition stream (chunks : list (list byte)) (self : ContentHasher) : ContentHasher :=
  fold_left (fun h chunk => (content_hasher_update chunk h).1) chunks self.

(** ** The registry is injective *)

Lemma HashDomain_ALL_complete d : d ∈ HashDomain_ALL.
Proof. destruct d; repeat constructor. Qed.

Lemma KeyedHashDomain_ALL_complete d : d ∈ KeyedHashDomain_ALL.
Proof. destruct d; repeat constructor. Qed.

Lemma labels_NoDup :
  NoDup (map label HashDomain_ALL ++ map keyed_label KeyedHashDomain_ALL).
Proof. apply (bool_decide_unpack _). vm_compute. exact I. Qed.

Lemma NoDup_map_inj {A B} (f : A -> B) l x y :
  NoDup (map f l) -> x ∈ l -> y ∈ l -> f x = f y -> x = y.
Proof.
  induction l as [|z l IH]; [by intros _ ?%elem_of_nil|]. cbn [map].
  rewrite NoDup_cons. intros [Hz Hl] Hx Hy E.
  assert (forall w, w ∈ l -> f w ∈ map f l) as Hin by (intros w; apply (list_elem_of_fmap_2 f)).
  apply elem_of_cons in Hx as [->|Hx], Hy as [->|Hy]; auto;
    exfalso; apply Hz; [rewrite E|rewrite <- E]; auto.
Qed.

Lemma label_inj d e : label d = label e -> d = e.
Proof.
  pose proof labels_NoDup as H. apply NoDup_app in H as [H _].
  eapply NoDup_map_inj; eauto using HashDomain_ALL_complete.
Qed.

Lemma keyed_label_inj d e : keyed_label d = keyed_label e -> d = e.
Proof.
  pose proof labels_NoDup as H. apply NoDup_app in H as (_ & _ & H).
  eapply NoDup_map_inj; eauto using KeyedHashDomain_ALL_complete.
Qed.

Lemma label_length d : u_range 16 (zlen (label d)).
Proof. destruct d; vm_compute; split; congruence. Qed.

Lemma keyed_label_length d : u_range 16 (zlen (keyed_label d)).
Proof. destruct d; vm_compute; split; congruence. Qed.

(** ** The frame is unambiguous *)

Lemma write_frame_fields prefix domain payload :
  write_frame [] prefix domain payload =
  prefix ++ [DIGEST_SCHEME_V1] ++ prefixed 2 domain ++ prefixed 8 payload.
Proof.
  unfold write_frame, write_frame_header, prefixed. by rewrite <- !app_assoc.
Qed.

Lemma write_frame_inj prefix d1 d2 p1 p2 :
  u_range 16 (zlen d1) -> u_range 16 (zlen d2) ->
  u_range 64 (zlen p1) -> u_range 64 (zlen p2) ->
  write_frame [] prefix d1 p1 = write_frame [] prefix d2 p2 -> d1 = d2 /\ p1 = p2.
Proof.
  intros Hd1 Hd2 Hp1 Hp2 E. rewrite !write_frame_fields in E.
  apply app_inv_head, app_inv_head in E.
  peel_prefixed 2%nat E Ed.
  apply (unambiguous_inj _ (prefixed 8)) in E; done.
Qed.

(** Two given messages collide.  Every function to 32 bytes has some collision;
    the theorems name the two messages, so that they exhibit one. *)
Definition collide (f : list byte -> list byte) (m m' : list byte) : Prop :=
  m <> m' /\ f m = f m'.

Lemma equal_or_collide f m m' : f m = f m' -> m = m' \/ collide f m m'.
Proof. intros E. destruct (decide (m = m')); [by left|by right]. Qed.

(** What is hashed for a payload. *)
Definition content_frame (d : HashDomain) (payload : list byte) : list byte :=
  write_frame [] HASH_PREFIX (label d) payload.
Definition keyed_frame (d : KeyedHashDomain) (payload : list byte) : list byte :=
  write_frame [] HMAC_PREFIX (keyed_label d) payload.

Lemma hash_bytes_separated d e p q :
  u_range 64 (zlen p) -> u_range 64 (zlen q) ->
  typed_hash d p = typed_hash e q ->
  (d = e /\ p = q) \/ collide sha256 (content_frame d p) (content_frame e q).
Proof.
  intros Hp Hq E. unfold typed_hash in E. cbn [hash cd_bytes content_digest_new] in E.
  apply equal_or_collide in E as [E|]; [left|by right].
  apply write_frame_inj in E as [Hd ->]; auto using label_length, label_inj.
Qed.

(** Content digests are separated by domain and by payload: two digests
    with the same 32 bytes come from the same domain and the same payload, or
    the two frames are a collision of SHA-256. *)
Theorem hash_domain_separated d e p q :
  u_range 64 (zlen p) -> u_range 64 (zlen q) ->
  cd_bytes (hash d p) = cd_bytes (hash e q) ->
  (d = e /\ p = q) \/ collide sha256 (content_frame d p) (content_frame e q).
Proof. apply hash_bytes_separated. Qed.

(** The same for keyed digests under one key. *)
Lemma keyed_hash_separated d e i j key p q :
  u_range 64 (zlen p) -> u_range 64 (zlen q) ->
  kd_bytes (keyed_hash_secret d i key p) = kd_bytes (keyed_hash_secret e j key q) ->
  (d = e /\ p = q) \/ collide (hmac_sha256 key) (keyed_frame d p) (keyed_frame e q).
Proof.
  intros Hp Hq E. apply equal_or_collide in E as [E|]; [left|by right].
  apply write_frame_inj in E as [Hd ->]; auto using keyed_label_length, keyed_label_inj.
Qed.

(** ** Streaming *)

Definition total (chunks : list (list byte)) : Z := zlen (concat chunks).

(** What [stream] does to a hasher that has absorbed [seen] and expects [n] more. *)
Lemma stream_poisoned chunks seen d :
  ch_remaining (stream chunks (mkContentHasher seen d None)) = None.
Proof. revert seen. induction chunks as [|c l IH]; intros seen; cbn; auto. Qed.

Lemma update_spec chunk seen d n :
  0 <= n < 2 ^ 64 ->
  content_hasher_update chunk (mkContentHasher seen d (Some n)) =
  if zlen chunk <=? n
  then (mkContentHasher (seen ++ chunk) d (Some (n - zlen chunk)), Ok tt)
  else (mkContentHasher seen d None, Err mkHashLengthMismatch).
Proof.
  intros Hn. unfold content_hasher_update. cbn [ch_remaining mbind option_bind].
  pose proof (zlen_nonneg chunk). unfold u_checked, u_inb.
  destruct (zlen chunk <=? n) eqn:E.
  - rewrite (proj2 (Z.leb_le 0 (zlen chunk))), (proj2 (Z.ltb_lt (zlen chunk) (2 ^ 64))) by lia.
    cbn [andb mbind option_bind].
    rewrite (proj2 (Z.leb_le 0 (n - zlen chunk))), (proj2 (Z.ltb_lt (n - zlen chunk) _)) by lia.
    done.
  - destruct (_ && _); cbn [mbind option_bind]; [|done].
    rewrite (proj2 (Z.leb_gt 0 (n - zlen chunk))) by lia. done.
Qed.

Lemma stream_spec chunks seen d n :
  0 <= n < 2 ^ 64 ->
  stream chunks (mkContentHasher seen d (Some n)) =
    mkContentHasher (seen ++ concat chunks) d (Some (n - total chunks)) /\ total chunks <= n
  \/ ch_remaining (stream chunks (mkContentHasher seen d (Some n))) = None /\ n < total chunks.
Proof.
  revert seen n. unfold total.
  induction chunks as [|c l IH]; intros seen n Hn; cbn [concat stream fold_left].
  - left. rewrite app_nil_r, zlen_nil, Z.sub_0_r. split; [done|lia].
  - rewrite update_spec by done. pose proof (zlen_nonneg c). pose proof (zlen_nonneg (concat l)).
    rewrite zlen_app. destruct (zlen c <=? n) eqn:E; cbn [fst];
      match goal with |- context [fold_left _ l ?h] => fold (stream l h) end.
    + destruct (IH (seen ++ c) (n - zlen c) ltac:(lia)) as [[-> Hle]|[Hr Hlt]].
      * left. rewrite app_assoc. split; [|lia]. f_equal. f_equal. lia.
      * right. split; [exact Hr|lia].
    + right. split; [apply stream_poisoned|lia].
Qed.

(** The streaming hasher refines the one-shot digest: whatever the chunk
    boundaries, [finish] returns a digest exactly when the chunks add up to the
    declared length, and that digest is the one-shot digest of the payload.
    A short, excessive or poisoned stream yields the length mismatch. *)
Theorem streaming_hash_exact d n chunks :
  u_range 64 n ->
  content_hasher_finish (stream chunks (content_hasher_new d n)) =
  if zlen (concat chunks) =? n then Ok (hash d (concat chunks)) else Err mkHashLengthMismatch.
Proof.
  intros Hn. unfold content_hasher_new.
  destruct (stream_spec chunks
    (write_frame_header [] HASH_PREFIX (label d) n) d n Hn) as [[-> Hle]|[Hr Hlt]];
    unfold content_hasher_finish, total in *.
  - cbn [ch_remaining ch_hasher ch_domain].
    destruct (Z.eqb_spec (zlen (concat chunks)) n) as [<-|Hne].
    + by rewrite Z.sub_diag.
    + rewrite bool_decide_eq_false_2; [done|]. intros [=]. lia.
  - rewrite Hr. rewrite (proj2 (Z.eqb_neq _ _)) by lia. done.
Qed.
End digests.

(** Witnesses: SHA-256 and HMAC are replaced by concrete functions. *)
Lemma hash_domain_separated_witness :
  collide (fun _ => []) (content_frame HD_Event [Byte.x07]) (content_frame HD_Schema [Byte.x07]).
Proof.
  destruct (hash_domain_separated (fun _ => []) HD_Event HD_Schema [Byte.x07] [Byte.x07])
    as [[E _]|H]; [vm_compute; split; congruence..|reflexivity|discriminate E|exact H].
Defined.

Lemma streaming_hash_exact_witness :
  content_hasher_finish (fun l => l)
    (stream [[Byte.x01; Byte.x02]; []; [Byte.x03]] (content_hasher_new HD_Schema 3)) =
  Ok (hash (fun l => l) HD_Schema [Byte.x01; Byte.x02; Byte.x03]).
Proof.
  rewrite (streaming_hash_exact (fun l => l) HD_Schema 3); [reflexivity|].
  vm_compute; split; congruence.
Defined.
