(* ===== verification/Interaction.v ===== *)
(** * Programs that call out

    Code that drives an adapter or a repository behind a trait
    ([SchedulerApplication], [OutboxRepository], ...) is a tree of calls: each
    node is one call, its children are indexed by the answer.  [runs p t r]
    relates a program to the traces of calls and answers it can produce, for
    every possible environment; [exec] runs it against one environment given as
    a stateful handler.  A panic is an outcome of its own. *)

From S2P Require Import Prelude.
From stdpp Require Import list.

Local Open Scope Z_scope.

(** A signature: the calls, what each answers, and the event a call leaves in
    the trace. *)
Class Calls (Q : Type) := {
  answer : Q -> Type;
  event : Type;
  record_call : forall q : Q, answer q -> event;
}.
Arguments event Q {_}.

Inductive outcome (A : Type) := Returned (a : A) | Panicked.
Arguments Returned {A} a.
Arguments Panicked {A}.

Inductive Prog (Q : Type) `{Calls Q} (A : Type) : Type :=
  | Ret (a : A)
  | Panic
  | Call (q : Q) (k : answer q -> Prog Q A).
Arguments Ret {Q _ A} a.
Arguments Panic {Q _ A}.
Arguments Call {Q _ A} q k.

Section programs.
Context {Q : Type} `{Calls Q}.

Fixpoint prog_bind {A B} (f : A -> Prog Q B) (p : Prog Q A) : Prog Q B :=
  match p with
  | Ret a => f a
  | Panic => Panic
  | Call q k => Call q (fun x => prog_bind f (k x))
  end.

#[global] Instance prog_mret : MRet (Prog Q) := fun A a => Ret a.
#[global] Instance prog_mbind : MBind (Prog Q) := @prog_bind.

(** One call, returning its answer. *)
Definition call (q : Q) : Prog Q (answer q) := Call q Ret.

(** [.expect(..)] and [.unwrap()]. *)
Definition expect {A} (o : option A) : Prog Q A :=
  match o with Some a => Ret a | None => Panic end.

Fixpoint runs {A} (p : Prog Q A) (t : list (event Q)) (r : outcome A) : Prop :=
  match p with
  | Ret a => t = [] /\ r = Returned a
  | Panic => t = [] /\ r = Panicked
  | Call q k => exists x t', t = record_call q x :: t' /\ runs (k x) t' r
  end.

(** Running against an environment. *)
Fixpoint exec {A S} (handle : forall q : Q, S -> S * answer q) (p : Prog Q A) (s : S) :
    S * list (event Q) * outcome A :=
  match p with
  | Ret a => (s, [], Returned a)
  | Panic => (s, [], Panicked)
  | Call q k =>
      let '(s1, x) := handle q s in
      let '(s2, t, r) := exec handle (k x) s1 in
      (s2, record_call q x :: t, r)
  end.

(** Every program reaches an outcome against every environment, and the trace
    it leaves is one of its traces. *)
Lemma exec_runs {A S} handle (p : Prog Q A) (s : S) :
  runs p (exec handle p s).1.2 (exec handle p s).2.
Proof.
  revert s. induction p as [a| |q k IH]; intros s; cbn; [done..|].
  destruct (handle q s) as [s1 x]. specialize (IH x s1).
  destruct (exec handle (k x) s1) as [[s2 t] r]. cbn in *. eauto.
Qed.

Lemma runs_bind {A B} (f : A -> Prog Q B) p t r :
  runs (p ≫= f) t r <->
  (exists t1 a t2, t = t1 ++ t2 /\ runs p t1 (Returned a) /\ runs (f a) t2 r)
  \/ runs p t Panicked /\ r = Panicked.
Proof.
  unfold mbind, prog_mbind. revert t.
  induction p as [a| |q k IH]; intros t; cbn.
  - split; [intros Hr; left; by exists [], a, t|]. intros [(t1 & b & t2 & -> & [-> [= ->]] & Hr)|[[_ ?] _]]; done.
  - split; [tauto|]. intros [(? & ? & ? & _ & [_ ?] & _)|[[-> _] ->]]; done.
  - split.
    + intros (x & t' & -> & [(t1 & a & t2 & -> & Hk & Hf)|[Hk ->]]%IH); [left|right; eauto].
      exists (record_call q x :: t1), a, t2. split_and!; eauto.
    + intros [(t1 & a & t2 & -> & (x & t' & -> & Hk) & Hf)|[(x & t' & -> & Hk) ->]];
        exists x; eexists; (split; [done|]); apply IH; eauto 10.
Qed.

Lemma runs_call q t r :
  runs (call q) t r <-> exists x, t = [record_call q x] /\ r = Returned x.
Proof. cbn. naive_solver. Qed.
End programs.

(** ** Safety against an environment

    [G] is a ghost state of the world.  [pre g q] is what the program owes when it
    makes a call, [next q x g g'] what the environment may do while answering
    it.  [safe] is the weakest precondition; [steps] is a run cut anywhere. *)
Section safety.
Context {Q : Type} `{Calls Q} {G : Type}.
Context (pre : G -> Q -> Prop) (next : forall q : Q, answer q -> G -> G -> Prop).

Fixpoint safe {A} (p : Prog Q A) (post : outcome A -> G -> Prop) (g : G) : Prop :=
  match p with
  | Ret a => post (Returned a) g
  | Panic => post Panicked g
  | Call q k => pre g q /\ forall x g', next q x g g' -> safe (k x) post g'
  end.

Inductive steps {A} : Prog Q A -> G -> Prog Q A -> G -> Prop :=
  | steps_refl p g : steps p g p g
  | steps_call q k g x g1 p' g' : next q x g g1 -> steps (k x) g1 p' g' -> steps (Call q k) g p' g'.

Lemma safe_mono {A} (p : Prog Q A) (post post' : outcome A -> G -> Prop) g :
  safe p post g -> (forall o g', post o g' -> post' o g') -> safe p post' g.
Proof. intros Hp Hpost. revert g Hp. induction p as [a| |q k IH]; cbn; intros g; [auto..|]. naive_solver. Qed.

Lemma safe_bind {A B} (f : A -> Prog Q B) p post g :
  safe p (fun o g' => match o with Returned a => safe (f a) post g' | Panicked => post Panicked g' end) g ->
  safe (p ≫= f) post g.
Proof.
  unfold mbind, prog_mbind. revert g. induction p as [a| |q k IH]; cbn; intros g; [done..|].
  intros [Hq Hk]. split; [done|]. intros x g' Hn. by apply IH, Hk.
Qed.

Lemma safe_steps {A} (p p' : Prog Q A) post g g' : safe p post g -> steps p g p' g' -> safe p' post g'.
Proof. intros Hp Hs. induction Hs as [|q k g x g1 p' g' Hn Hs IH]; [done|]. by apply IH, Hp. Qed.

Lemma safe_invariant {A} (I : G -> Prop) (p p' : Prog Q A) post g g' :
  (forall q x h h', pre h q -> next q x h h' -> I h -> I h') ->
  safe p post g -> steps p g p' g' -> I g -> I g'.
Proof.
  intros HI Hp Hs. induction Hs as [|q k g x g1 p' g' Hn Hs IH]; [done|].
  destruct Hp as [Hq Hk]. intros Hg. apply IH; eauto.
Qed.

(** A handler that stays within [next] gives a run. *)
Definition finished {A} (o : outcome A) : Prog Q A :=
  match o with Returned a => Ret a | Panicked => Panic end.

Lemma exec_steps {A} (handle : forall q : Q, G -> G * answer q) (p : Prog Q A) g :
  (forall q g, next q (handle q g).2 g (handle q g).1) ->
  steps p g (finished (exec handle p g).2) (exec handle p g).1.1.
Proof.
  intros Hh. revert g. induction p as [a| |q k IH]; intros g; cbn; [constructor..|].
  specialize (Hh q g). destruct (handle q g) as [g1 x]. cbn in *. specialize (IH x g1).
  destruct (exec handle (k x) g1) as [[g2 t] r]. cbn in *. by econstructor.
Qed.

(** The same for a handler that relies on an invariant and on what the program
    owes. *)
Lemma exec_steps_safe {A} (I : G -> Prop) (handle : forall q : Q, G -> G * answer q) (p : Prog Q A) post g :
  (forall q g, I g -> pre g q -> next q (handle q g).2 g (handle q g).1 /\ I (handle q g).1) ->
  safe p post g -> I g -> steps p g (finished (exec handle p g).2) (exec handle p g).1.1.
Proof.
  intros Hh. revert g. induction p as [a| |q k IH]; intros g Hp Hg; cbn; [constructor..|].
  destruct Hp as [Hq Hk]. destruct (Hh q g Hg Hq) as [Hn Hg']. destruct (handle q g) as [g1 x]. cbn in *.
  specialize (IH x g1 (Hk _ _ Hn) Hg'). destruct (exec handle (k x) g1) as [[g2 t] r]. cbn in *. by econstructor.
Qed.
End safety.

(** A program is as safe in an environment that does less. *)
Lemma safe_weaken {Q} `{Calls Q} {G A} (pre : G -> Q -> Prop) (next next' : forall q : Q, answer q -> G -> G -> Prop)
    (p : Prog Q A) post g : (forall q x h h', next' q x h h' -> next q x h h') ->
  safe pre next p post g -> safe pre next' p post g.
Proof. intros Hn. revert g. induction p as [a| |q k IH]; cbn; intros g; [done..|]. naive_solver. Qed.

Section everywhere.
Context {E : Type}.

(** [P] at every position of a trace: what came before, the event, what follows. *)
Fixpoint everywhere (P : list E -> E -> list E -> Prop) (before t : list E) : Prop :=
  match t with
  | [] => True
  | e :: t' => P before e t' /\ everywhere P (before ++ [e]) t'
  end.

Lemma everywhere_spec P before t :
  everywhere P before t <-> forall t1 e t2, t = t1 ++ e :: t2 -> P (before ++ t1) e t2.
Proof.
  revert before. induction t as [|e t IH]; intros before; cbn.
  - split; [|done]. by intros _ [|? ?].
  - rewrite IH. split.
    + intros [He Ht] [|x t1] y t2 Eq; cbn in Eq; injection Eq as -> ->.
      * by rewrite app_nil_r.
      * change (x :: t1) with ([x] ++ t1). rewrite app_assoc. by apply Ht.
    + intros Ht. split.
      * specialize (Ht [] e t eq_refl). by rewrite app_nil_r in Ht.
      * intros t1 y t2 ->. rewrite <- app_assoc. by apply (Ht (e :: t1)).
Qed.

End everywhere.

(** [run_steps H] takes [H : runs p t r] for a program given by its calls and
    splits it call by call and branch by branch. *)
Ltac run_steps H :=
  repeat match type of H with
  | runs (if ?b then _ else _) _ _ => destruct b eqn:?
  | runs (match ?x with _ => _ end) _ _ => destruct x eqn:?
  | exists _, _ =>
      let x := fresh "x" in let t := fresh "t" in
      destruct H as (x & t & -> & H)
  | _ = [] /\ _ = _ => destruct H as [-> ?]
  | runs _ _ _ => progress cbn in H
  end.
