(* ===== verification/Names.v ===== *)
(** * Bounded textual identifiers

    [riffdb-types/src/ids.rs]: the constructors of the textual identifiers.  A
    Rust [String] is its bytes; that they are UTF-8 is a property of the type
    and appears in the well-formedness predicates. *)

From S2P Require Import Prelude Value.
From stdpp Require Import list.

Local Open Scope Z_scope.

Definition MAX_ACTOR_ID_BYTES : Z := 256.
Definition MAX_IDEMPOTENCY_KEY_BYTES : Z := 128.
Definition MAX_CONTRACT_LINEAGE_BYTES : Z := 256.
Definition MAX_ENVIRONMENT_BYTES : Z := 64.
Definition MAX_TENANT_ID_BYTES : Z := 256.

Inductive TextIdError :=
  | TextEmpty
  | TextTooLong (maximum actual : Z)
  | TextInvalidCharacter (index : Z).

Definition is_ascii_alphabetic (b : byte) : bool :=
  let z := byte_to_Z b in (65 <=? z) && (z <=? 90) || (97 <=? z) && (z <=? 122).

Definition is_ascii_digit (b : byte) : bool :=
  let z := byte_to_Z b in (48 <=? z) && (z <=? 57).

(** The first index holding a byte that may not stand there. *)
Fixpoint find_invalid (index : Z) (l : list byte) : option Z :=
  match l with
  | [] => None
  | b :: l' =>
      if (byte_to_Z b =? 95) || is_ascii_alphabetic b || (0 <? index) && is_ascii_digit b
      then find_invalid (index + 1) l' else Some index
  end.

Definition validate_text_id (value : list byte) (maximum : Z) : result TextIdError unit :=
  if bool_decide (value = []) then Err TextEmpty
  else if maximum <? zlen value then Err (TextTooLong maximum (zlen value))
  else Ok tt.

Definition contract_lineage_new (value : list byte) : result TextIdError (list byte) :=
  _ ← validate_text_id value MAX_CONTRACT_LINEAGE_BYTES;
  Ok value.

Definition tenant_id_new (value : list byte) : result TextIdError (list byte) :=
  _ ← validate_text_id value MAX_TENANT_ID_BYTES;
  Ok value.

Definition actor_id_new (value : list byte) : result TextIdError (list byte) :=
  _ ← validate_text_id value MAX_ACTOR_ID_BYTES;
  Ok value.

Definition idempotency_key_new (value : list byte) : result TextIdError (list byte) :=
  _ ← validate_text_id value MAX_IDEMPOTENCY_KEY_BYTES;
  Ok value.

(** [.bytes().position(p)]: the index of the first byte satisfying [p]. *)
Fixpoint position (p : byte -> bool) (index : Z) (l : list byte) : option Z :=
  match l with
  | [] => None
  | b :: l' => if p b then Some index else position p (index + 1) l'
  end.

Definition not_environment_byte (b : byte) : bool :=
  negb (is_ascii_alphabetic b || is_ascii_digit b)
  && negb ((byte_to_Z b =? 46) || (byte_to_Z b =? 95) || (byte_to_Z b =? 45)).

Definition environment_new (value : list byte) : result TextIdError (list byte) :=
  _ ← validate_text_id value MAX_ENVIRONMENT_BYTES;
  match position not_environment_byte 0 value with
  | Some index => Err (TextInvalidCharacter index)
  | None => Ok value
  end.

Definition MAX_OPERATION_NAME_BYTES : Z := 256.

Definition query_operation_name_new (value : list byte) : result TextIdError (list byte) :=
  if bool_decide (value = []) then Err TextEmpty
  else if MAX_OPERATION_NAME_BYTES <? zlen value
  then Err (TextTooLong MAX_OPERATION_NAME_BYTES (zlen value))
  else match find_invalid 0 value with
       | Some index => Err (TextInvalidCharacter index)
       | None => Ok value
       end.

(** The same checks, written out again in the source for each of these types. *)
Definition reactive_operation_name_new : list byte -> result TextIdError (list byte) :=
  query_operation_name_new.
Definition query_module_name_new : list byte -> result TextIdError (list byte) :=
  query_operation_name_new.
Definition row_policy_name_new : list byte -> result TextIdError (list byte) :=
  query_operation_name_new.

Definition name_wf (n : list byte) : Prop := is_ok (query_operation_name_new n) = true.

Lemma name_wf_length n : name_wf n -> u_range 32 (zlen n).
Proof.
  unfold name_wf, query_operation_name_new, MAX_OPERATION_NAME_BYTES, u_range.
  case_bool_decide; [done|]. pose proof (zlen_nonneg n).
  destruct (Z.ltb_spec 256 (zlen n)); [done|]. lia.
Qed.

Lemma validate_text_id_ok value maximum :
  validate_text_id value maximum = Ok tt <-> value <> [] /\ zlen value <= maximum.
Proof.
  unfold validate_text_id. case_bool_decide; [split; [done|by intros [? _]]|].
  destruct (Z.ltb_spec maximum (zlen value)); split; intros; try done; lia.
Qed.

(** What an accepted identifier is: itself, within its bound. *)
Lemma text_new_ok value maximum x :
  (validate_text_id value maximum ≫= fun _ => Ok value) = Ok x <->
  x = value /\ value <> [] /\ zlen value <= maximum.
Proof.
  rewrite result_bind_ok, <- validate_text_id_ok. split.
  - intros ([] & Hv & [= ->]). done.
  - intros [-> Hv]. by exists tt.
Qed.

Lemma environment_new_ok value x :
  environment_new value = Ok x ->
  x = value /\ value <> [] /\ zlen value <= MAX_ENVIRONMENT_BYTES.
Proof.
  unfold environment_new. rewrite result_bind_ok.
  intros ([] & Hv%validate_text_id_ok & H). destruct (position _ 0 value); [done|].
  by injection H as ->.
Qed.
