(* ===== verification/Identity.v ===== *)
(** * Idempotency identities and their storage keys

    [riffdb-storage-api/src/identity.rs]: the scope-and-digest identity of a
    mutating command and [IdempotencyIdentityKey], the canonical byte key under
    which its admission is stored: the encoder with its length check and the
    strict decoder.

    The theorems: every well-formed identity has a key, which decodes to that
    identity; every key the decoder accepts is the key of the identity it
    returns.  So distinct identities never share a row. *)

From S2P Require Import Prelude Value Reader Key Names.
From stdpp Require Import list.

Local Open Scope Z_scope.

Definition IDEMPOTENCY_IDENTITY_KEY_V1_PREFIX : list byte := [Byte.x59; Byte.x01].
Definition MAX_IDEMPOTENCY_IDENTITY_KEY_V1_BYTES : Z := 908.
Definition KEYED_DIGEST_SCHEME_V1 : byte := Byte.x01.

Inductive TenantScope :=
  | Global
  | Tenant (tenant_id : list byte).

Record IdempotencyKeyDigest := mkIdempotencyKeyDigest {
  ikd_key_id : Z;
  ikd_bytes : list byte;
}.

Record IdempotencyIdentity := mkIdempotencyIdentity {
  ii_database_id : list byte;
  ii_environment : list byte;
  ii_tenant_scope : TenantScope;
  ii_principal_id : list byte;
  ii_contract_lineage : list byte;
  ii_command_id : Z;
  ii_caller_key_digest : IdempotencyKeyDigest;
}.

#[export] Instance TenantScope_eq_dec : EqDecision TenantScope.
Proof. solve_decision. Defined.
#[export] Instance IdempotencyKeyDigest_eq_dec : EqDecision IdempotencyKeyDigest.
Proof. solve_decision. Defined.
#[export] Instance IdempotencyIdentity_eq_dec : EqDecision IdempotencyIdentity.
Proof. solve_decision. Defined.

Inductive IdempotencyKeyError :=
  | KeyTooLong
  | UnsupportedEnvelope
  | InvalidComponent
  | UnsupportedDigestScheme
  | KeyTrailingBytes.

(** The caller has bounded the whole key by 908 bytes, so the length fits its
    four bytes ([key_lengths_fit] below). *)
Definition push_length_bytes (output value : list byte) : list byte :=
  output ++ be_bytes 4 (zlen value) ++ value.

Definition key_length (identity : IdempotencyIdentity) : option Z :=
  let tenant_bytes :=
    match ii_tenant_scope identity with
    | Global => 0
    | Tenant tenant_id => 4 + zlen tenant_id
    end in
  value ← usize_checked_add 2 16;
  value ← usize_checked_add value (4 + zlen (ii_environment identity));
  value ← usize_checked_add value (1 + tenant_bytes);
  value ← usize_checked_add value (4 + zlen (ii_principal_id identity));
  value ← usize_checked_add value (4 + zlen (ii_contract_lineage identity));
  usize_checked_add value (4 + 1 + 4 + 32).

Definition from_identity (identity : IdempotencyIdentity) :
    result IdempotencyKeyError (list byte) :=
  length ← ok_or (key_length identity) KeyTooLong;
  if (MAX_KEY_BYTES <? length) || (MAX_IDEMPOTENCY_IDENTITY_KEY_V1_BYTES <? length)
  then Err KeyTooLong
  else
    let bytes := IDEMPOTENCY_IDENTITY_KEY_V1_PREFIX in
    let bytes := bytes ++ ii_database_id identity in
    let bytes := push_length_bytes bytes (ii_environment identity) in
    let bytes :=
      match ii_tenant_scope identity with
      | Global => bytes ++ [Byte.x00]
      | Tenant tenant_id => push_length_bytes (bytes ++ [Byte.x01]) tenant_id
      end in
    let bytes := push_length_bytes bytes (ii_principal_id identity) in
    let bytes := push_length_bytes bytes (ii_contract_lineage identity) in
    let bytes := bytes ++ be_bytes 4 (ii_command_id identity) in
    let bytes := bytes ++ [KEYED_DIGEST_SCHEME_V1] in
    let bytes := bytes ++ be_bytes 4 (ikd_key_id (ii_caller_key_digest identity)) in
    let bytes := bytes ++ ikd_bytes (ii_caller_key_digest identity) in
    Ok bytes.

(** ** The decoder *)
Abbreviation Cur := (SE Decoder IdempotencyKeyError).

Definition cursor_take : Z -> Cur (list byte) := read_or InvalidComponent.
Definition cursor_byte : Cur byte := read_u8_or InvalidComponent.
Definition cursor_u32 : Cur Z := read_unsigned_or InvalidComponent 4.

Definition cursor_text : Cur (list byte) :=
  length ← cursor_u32;
  bytes ← cursor_take length;
  _ ← guard_err (negb (utf8_valid bytes)) InvalidComponent;
  mret bytes.

(** [.map_err(|_| InvalidComponent)] *)
Definition component {E A} (r : result E A) : Cur A := lift (map_err (fun _ => InvalidComponent) r).

Definition decode_tenant_scope (tag : byte) : Cur TenantScope :=
  match byte_to_Z tag with
  | 0 => mret Global
  | 1 =>
      text ← cursor_text;
      tenant_id ← component (tenant_id_new text);
      mret (Tenant tenant_id)
  | _ => raise InvalidComponent
  end.

Definition decode_identity : Cur IdempotencyIdentity :=
  prefix ← cursor_take 2;
  _ ← guard_err (negb (bool_decide (prefix = IDEMPOTENCY_IDENTITY_KEY_V1_PREFIX))) UnsupportedEnvelope;
  database_id ← cursor_take 16;
  _ ← component (validate_uuid_v7 database_id);
  text ← cursor_text;
  environment ← component (environment_new text);
  tag ← cursor_byte;
  tenant_scope ← decode_tenant_scope tag;
  text ← cursor_text;
  principal_id ← component (actor_id_new text);
  text ← cursor_text;
  contract_lineage ← component (contract_lineage_new text);
  raw ← cursor_u32;
  command_id ← lift (ok_or (nonzero_id_new raw) InvalidComponent);
  scheme ← cursor_byte;
  _ ← guard_err (negb (bool_decide (scheme = KEYED_DIGEST_SCHEME_V1))) UnsupportedDigestScheme;
  raw ← cursor_u32;
  key_id ← lift (ok_or (nonzero_id_new raw) InvalidComponent);
  digest ← cursor_take 32;
  mret (mkIdempotencyIdentity database_id environment tenant_scope principal_id contract_lineage
          command_id (mkIdempotencyKeyDigest key_id digest)).

Definition identity_key_decode (bytes : list byte) : result IdempotencyKeyError IdempotencyIdentity :=
  if (MAX_KEY_BYTES <? zlen bytes) || (MAX_IDEMPOTENCY_IDENTITY_KEY_V1_BYTES <? zlen bytes)
  then Err KeyTooLong
  else match decode_identity (mkDecoder bytes 0) with
       | (_, Err e) => Err e
       | (s, Ok identity) =>
           if negb (dec_position s =? zlen (dec_input s)) then Err KeyTrailingBytes
           else Ok identity
       end.

(** ** Well-formed identities: what the field types guarantee *)
Definition tenant_scope_wf (t : TenantScope) : Prop :=
  match t with
  | Global => True
  | Tenant tenant_id => utf8_valid tenant_id = true /\ tenant_id_new tenant_id = Ok tenant_id
  end.

Definition identity_wf (i : IdempotencyIdentity) : Prop :=
  length (ii_database_id i) = 16%nat /\ validate_uuid_v7 (ii_database_id i) = Ok tt /\
  utf8_valid (ii_environment i) = true /\
  environment_new (ii_environment i) = Ok (ii_environment i) /\
  tenant_scope_wf (ii_tenant_scope i) /\
  utf8_valid (ii_principal_id i) = true /\
  actor_id_new (ii_principal_id i) = Ok (ii_principal_id i) /\
  utf8_valid (ii_contract_lineage i) = true /\
  contract_lineage_new (ii_contract_lineage i) = Ok (ii_contract_lineage i) /\
  1 <= ii_command_id i < 2 ^ 32 /\
  1 <= ikd_key_id (ii_caller_key_digest i) < 2 ^ 32 /\
  length (ikd_bytes (ii_caller_key_digest i)) = 32%nat.

(** ** The key as a concatenation *)
Definition text_bytes (s : list byte) : list byte := be_bytes 4 (zlen s) ++ s.

Definition tenant_bytes (t : TenantScope) : list byte :=
  match t with Global => [Byte.x00] | Tenant id => Byte.x01 :: text_bytes id end.

Definition key_bytes (i : IdempotencyIdentity) : list byte :=
  IDEMPOTENCY_IDENTITY_KEY_V1_PREFIX ++ ii_database_id i ++ text_bytes (ii_environment i)
    ++ tenant_bytes (ii_tenant_scope i) ++ text_bytes (ii_principal_id i)
    ++ text_bytes (ii_contract_lineage i) ++ be_bytes 4 (ii_command_id i)
    ++ [KEYED_DIGEST_SCHEME_V1] ++ be_bytes 4 (ikd_key_id (ii_caller_key_digest i))
    ++ ikd_bytes (ii_caller_key_digest i).

Lemma tenant_id_bound t : tenant_id_new t = Ok t -> t <> [] /\ zlen t <= 256.
Proof. unfold tenant_id_new. rewrite text_new_ok. tauto. Qed.
Lemma actor_id_bound t : actor_id_new t = Ok t -> t <> [] /\ zlen t <= 256.
Proof. unfold actor_id_new. rewrite text_new_ok. tauto. Qed.
Lemma contract_lineage_bound t : contract_lineage_new t = Ok t -> t <> [] /\ zlen t <= 256.
Proof. unfold contract_lineage_new. rewrite text_new_ok. tauto. Qed.
Lemma environment_bound t : environment_new t = Ok t -> zlen t <= 64.
Proof. intros H%environment_new_ok. unfold MAX_ENVIRONMENT_BYTES in H. tauto. Qed.

Lemma usize_checked_add_small a b : 0 <= a + b < 2 ^ 64 -> usize_checked_add a b = Some (a + b).
Proof.
  intros H. unfold usize_checked_add, u_checked.
  by rewrite (proj2 (u_inb_spec 64 (a + b))).
Qed.

(** The declared length is the length of the key, and a well-formed identity's
    key never exceeds the limit. *)
Lemma key_length_exact i :
  identity_wf i -> key_length i = Some (zlen (key_bytes i)) /\ zlen (key_bytes i) <= 908.
Proof.
  intros (Hdb & _ & _ & He%environment_bound & Ht & _ & Hp%actor_id_bound & _ &
          Hl%contract_lineage_bound & _ & _ & Hd).
  assert (zlen (tenant_bytes (ii_tenant_scope i)) =
          1 + match ii_tenant_scope i with Global => 0 | Tenant t => 4 + zlen t end
          /\ zlen (tenant_bytes (ii_tenant_scope i)) <= 261) as [Htl Htb].
  { destruct (ii_tenant_scope i) as [|t]; [done|].
    destruct Ht as [_ Ht%tenant_id_bound]. unfold tenant_bytes, text_bytes.
    autorewrite with zlen. rewrite zlen_be_bytes. lia. }
  assert (zlen (key_bytes i) = 18 + (4 + zlen (ii_environment i))
            + zlen (tenant_bytes (ii_tenant_scope i)) + (4 + zlen (ii_principal_id i))
            + (4 + zlen (ii_contract_lineage i)) + 41) as Hk.
  { unfold key_bytes, text_bytes. autorewrite with zlen. rewrite !zlen_be_bytes.
    unfold zlen in *. cbn. lia. }
  pose proof (zlen_nonneg (ii_environment i)). pose proof (zlen_nonneg (ii_principal_id i)).
  pose proof (zlen_nonneg (ii_contract_lineage i)).
  pose proof (zlen_nonneg (tenant_bytes (ii_tenant_scope i))).
  split; [|lia]. unfold key_length. rewrite <- Htl.
  repeat (rewrite usize_checked_add_small by lia; cbn [mbind option_bind]).
  f_equal. lia.
Qed.

Lemma from_identity_bytes i : identity_wf i -> from_identity i = Ok (key_bytes i).
Proof.
  intros H. destruct (key_length_exact i H) as [Hl Hb]. unfold from_identity.
  rewrite Hl. cbn [ok_or mbind result_bind].
  unfold MAX_KEY_BYTES, MAX_IDEMPOTENCY_IDENTITY_KEY_V1_BYTES.
  rewrite (proj2 (Z.ltb_ge 4096 _)), (proj2 (Z.ltb_ge 908 _)) by lia. cbn [orb].
  unfold push_length_bytes, key_bytes, text_bytes.
  destruct (ii_tenant_scope i); cbn [tenant_bytes]; unfold text_bytes;
    by rewrite <- ?app_assoc.
Qed.

(** Nothing is pushed whose length does not fit four bytes. *)
Lemma key_lengths_fit i length :
  key_length i = Some length -> length <= MAX_IDEMPOTENCY_IDENTITY_KEY_V1_BYTES ->
  u_range 32 (zlen (ii_environment i)) /\ u_range 32 (zlen (ii_principal_id i)) /\
  u_range 32 (zlen (ii_contract_lineage i)) /\
  match ii_tenant_scope i with Global => True | Tenant t => u_range 32 (zlen t) end.
Proof.
  unfold key_length, MAX_IDEMPOTENCY_IDENTITY_KEY_V1_BYTES, u_range. intros E Hb.
  pose proof (zlen_nonneg (ii_environment i)). pose proof (zlen_nonneg (ii_principal_id i)).
  pose proof (zlen_nonneg (ii_contract_lineage i)).
  assert (0 <= match ii_tenant_scope i with Global => 0 | Tenant t => 4 + zlen t end)
    by (destruct (ii_tenant_scope i) as [|t]; [lia|pose proof (zlen_nonneg t); lia]).
  repeat (apply bind_Some in E as (? & [-> _]%u_checked_Some & E)).
  apply u_checked_Some in E as [-> _].
  split_and!; try lia.
  destruct (ii_tenant_scope i) as [|t]; [done|]. pose proof (zlen_nonneg t). lia.
Qed.

(** ** Reading it back *)
Lemma parses_text s :
  utf8_valid s = true -> u_range 32 (zlen s) -> parses cursor_text (text_bytes s) s.
Proof.
  intros Hu Hl. eapply parses_bind; [by apply parses_unsigned|].
  eapply parses_last; [by apply parses_read|].
  eapply parses_bind_nil; [apply parses_guard; by rewrite Hu|apply parses_ret].
Qed.

Lemma parses_component {E A} (r : result E A) a : r = Ok a -> parses (component r) [] a.
Proof. intros ->. by apply parses_lift. Qed.

Lemma parses_tenant_scope t b :
  tenant_scope_wf t -> tenant_bytes t = b ->
  exists tag rest, b = tag :: rest /\ parses (decode_tenant_scope tag) rest t.
Proof.
  intros Ht <-. destruct t as [|id]; cbn [tenant_bytes]; do 2 eexists; (split; [done|]).
  - apply parses_ret.
  - destruct Ht as [Hu Hn]. pose proof (tenant_id_bound _ Hn) as [_ Hb].
    eapply parses_last; [apply parses_text; [done|]|].
    { unfold u_range. pose proof (zlen_nonneg id). lia. }
    eapply parses_bind_nil; [by apply parses_component|apply parses_ret].
Qed.

Lemma nonzero_lift x : 1 <= x -> ok_or (nonzero_id_new x) InvalidComponent = Ok x.
Proof. intros H. unfold nonzero_id_new. destruct (Z.eqb_spec x 0); [lia|done]. Qed.

Lemma parses_identity i : identity_wf i -> parses decode_identity (key_bytes i) i.
Proof.
  intros (Hdb & Hv & Hue & He & Ht & Hup & Hp & Hul & Hl & Hc & Hk & Hd).
  pose proof (environment_bound _ He). pose proof (actor_id_bound _ Hp).
  pose proof (contract_lineage_bound _ Hl).
  assert (forall s : list byte, zlen s <= 256 -> u_range 32 (zlen s)) as Hsmall
    by (intros s; pose proof (zlen_nonneg s); unfold u_range; lia).
  destruct (parses_tenant_scope (ii_tenant_scope i) _ Ht eq_refl) as (tag & rest & Htb & Htp).
  unfold decode_identity, key_bytes. rewrite Htb.
  eapply parses_bind; [by apply parses_read|].
  eapply parses_bind_nil; [by apply parses_guard|].
  eapply parses_bind; [apply parses_read; unfold zlen; lia|].
  eapply parses_bind_nil; [by apply parses_component|].
  eapply parses_bind; [apply parses_text; [done|apply Hsmall; lia]|].
  eapply parses_bind_nil; [by apply parses_component|].
  change (tag :: rest) with ([tag] ++ rest). rewrite <- app_assoc.
  eapply parses_bind; [apply parses_u8|].
  eapply parses_bind; [exact Htp|].
  eapply parses_bind; [apply parses_text; [done|apply Hsmall; lia]|].
  eapply parses_bind_nil; [by apply parses_component|].
  eapply parses_bind; [apply parses_text; [done|apply Hsmall; lia]|].
  eapply parses_bind_nil; [by apply parses_component|].
  eapply parses_bind; [apply parses_unsigned; unfold u_range; lia|].
  eapply parses_bind_nil; [apply parses_lift, nonzero_lift; lia|].
  eapply parses_bind; [apply parses_u8|].
  eapply parses_bind_nil; [by apply parses_guard|].
  eapply parses_bind; [apply parses_unsigned; unfold u_range; lia|].
  eapply parses_bind_nil; [apply parses_lift, nonzero_lift; lia|].
  eapply parses_last; [apply parses_read; unfold zlen; lia|].
  destruct i as [? ? ? ? ? ? []]. apply parses_ret.
Qed.

Lemma nonzero_lift_inv x y :
  ok_or (nonzero_id_new x) InvalidComponent = Ok y -> y = x /\ x <> 0.
Proof. unfold nonzero_id_new. destruct (Z.eqb_spec x 0); [done|]. by intros [= ->]. Qed.

(** ** What the decoder accepts *)
Lemma inverts_text :
  inverts cursor_text (fun b s => b = text_bytes s /\ utf8_valid s = true).
Proof.
  eapply inverts_weaken; [unfold cursor_text, cursor_u32, cursor_take; inv_steps|].
  cbn. intros b s H. split_parse. unfold text_bytes. by rewrite negb_false_iff in *.
Qed.

Lemma inverts_component {E A} (r : result E A) :
  inverts (component r) (fun b a => b = [] /\ r = Ok a).
Proof.
  eapply inverts_weaken; [apply inverts_lift|]. intros b a [-> H]. split; [done|].
  destruct r; cbn in H; congruence.
Qed.

Ltac inv_hook ::= first [apply inverts_text | apply inverts_component].

Lemma inverts_tenant_scope tag :
  inverts (decode_tenant_scope tag)
    (fun b t => tag :: b = tenant_bytes t /\ tenant_scope_wf t).
Proof.
  unfold decode_tenant_scope.
  destruct (byte_to_Z tag) as [|[p|p|]|] eqn:Et; try apply inverts_raise.
  - eapply inverts_weaken; [apply inverts_ret|]. intros b t [-> ->]. cbn.
    assert (tag = Byte.x00) as -> by (by apply byte_to_Z_inj). done.
  - eapply inverts_weaken; [inv_steps|]. cbn. intros b t H. split_parse.
    assert (tag = Byte.x01) as -> by (by apply byte_to_Z_inj).
    unfold tenant_id_new in *. match goal with H : _ = Ok _ |- _ => apply text_new_ok in H as (-> & ? & ?) end.
    split; [done|]. cbn. split; [done|]. unfold tenant_id_new. by apply text_new_ok.
Qed.

Ltac inv_hook ::= first [apply inverts_tenant_scope | apply inverts_text | apply inverts_component].

Lemma inverts_identity :
  inverts decode_identity (fun b i => b = key_bytes i /\ identity_wf i).
Proof.
  eapply inverts_weaken;
    [unfold decode_identity, cursor_take, cursor_byte, cursor_u32; inv_steps|].
  cbv beta. intros b i H. split_parse.
  repeat match goal with
  | H : negb (bool_decide _) = false |- _ => apply negb_false_iff, bool_decide_eq_true_1 in H as ->
  | H : environment_new ?v = Ok ?x |- _ =>
      assert (x = v) as -> by (apply environment_new_ok in H; tauto); revert H
  | H : actor_id_new ?v = Ok ?x |- _ =>
      assert (x = v) as -> by (unfold actor_id_new in H; apply text_new_ok in H; tauto); revert H
  | H : contract_lineage_new ?v = Ok ?x |- _ =>
      assert (x = v) as -> by (unfold contract_lineage_new in H; apply text_new_ok in H; tauto);
      revert H
  | H : ok_or (nonzero_id_new ?v) _ = Ok ?x |- _ => apply nonzero_lift_inv in H as [-> ?]
  | H : validate_uuid_v7 _ = Ok ?x |- _ => destruct x; revert H
  end.
  intros. split.
  - unfold key_bytes. cbn [ii_database_id ii_environment ii_tenant_scope ii_principal_id
      ii_contract_lineage ii_command_id ii_caller_key_digest ikd_key_id ikd_bytes].
    by match goal with H : _ :: _ = tenant_bytes _ |- _ => rewrite <- H end.
  - repeat split; try done; unfold u_range in *; unfold zlen in *; cbn [ii_command_id
      ii_caller_key_digest ikd_key_id ikd_bytes ii_database_id]; lia.
Qed.

(** Identity keys are exact, encoding first: every well-formed identity has
    a storage key within the 908-byte bound, and decoding that key gives the
    identity back. *)
Theorem identity_key_roundtrip i :
  identity_wf i ->
  exists b, from_identity i = Ok b /\ zlen b <= MAX_IDEMPOTENCY_IDENTITY_KEY_V1_BYTES /\
    identity_key_decode b = Ok i.
Proof.
  intros H. destruct (key_length_exact i H) as [_ Hb].
  exists (key_bytes i). split_and!; [by apply from_identity_bytes|done|].
  unfold identity_key_decode, MAX_KEY_BYTES, MAX_IDEMPOTENCY_IDENTITY_KEY_V1_BYTES.
  rewrite (proj2 (Z.ltb_ge 4096 _)), (proj2 (Z.ltb_ge 908 _)) by lia. cbn [orb].
  pose proof (parses_identity i H [] []) as Hp. rewrite !app_nil_r, app_nil_l in Hp.
  change (mkDecoder (key_bytes i) 0) with (at_split [] (key_bytes i)).
  rewrite Hp; [|unfold usize_max; rewrite !zlen_nil; lia].
  cbn [at_split dec_position dec_input]. by rewrite app_nil_r, Z.eqb_refl.
Qed.

Lemma identity_key_decode_sound b i :
  identity_key_decode b = Ok i -> identity_wf i /\ b = key_bytes i.
Proof.
  unfold identity_key_decode. destruct (_ || _); [done|].
  destruct (decode_identity (mkDecoder b 0)) as [s [j|e]] eqn:E; [|done].
  change (mkDecoder b 0) with (at_split [] b) in E.
  apply inverts_identity in E as (b1 & r & -> & -> & -> & Hwf).
  cbn [app at_split dec_position dec_input]. rewrite zlen_app.
  destruct (Z.eqb_spec (zlen (key_bytes j)) (zlen (key_bytes j) + zlen r)) as [Hz|]; [|done].
  intros [= <-]. assert (r = []) as -> by (destruct r; [done|unfold zlen in Hz; cbn in Hz; lia]).
  by rewrite app_nil_r.
Qed.

(** Identity keys are exact, decoding first: whatever the decoder accepts is
    a well-formed identity whose storage key is exactly the bytes read, so an
    identity has one key and distinct identities have distinct keys. *)
Theorem identity_key_canonical b i :
  identity_key_decode b = Ok i -> identity_wf i /\ from_identity i = Ok b.
Proof.
  intros [Hwf ->]%identity_key_decode_sound. split; [done|]. by apply from_identity_bytes.
Qed.

(** Two well-formed identities with the same key are the same identity. *)
Lemma key_bytes_inj i j : identity_wf i -> identity_wf j -> key_bytes i = key_bytes j -> i = j.
Proof.
  intros Hi Hj E.
  pose proof (parses_identity i Hi [] []) as Pi. pose proof (parses_identity j Hj [] []) as Pj.
  destruct (key_length_exact i Hi) as [_ Hbi], (key_length_exact j Hj) as [_ Hbj].
  rewrite E in Pi. rewrite Pi in Pj by (unfold usize_max; rewrite !zlen_nil; lia).
  assert ((at_split ([] ++ key_bytes j) [], Ok i) = (at_split ([] ++ key_bytes j) [], @Ok IdempotencyKeyError _ j))
    as [= ->] by (apply Pj; unfold usize_max; rewrite !zlen_nil; lia). done.
Qed.

Definition sample_identity : IdempotencyIdentity :=
  mkIdempotencyIdentity
    [Byte.x01; Byte.x8f; Byte.x00; Byte.x00; Byte.x00; Byte.x00; Byte.x70; Byte.x01;
     Byte.x80; Byte.x02; Byte.x03; Byte.x04; Byte.x05; Byte.x06; Byte.x07; Byte.x08]
    [Byte.x70; Byte.x72; Byte.x6f; Byte.x64] (Tenant [Byte.x74]) [Byte.x61] [Byte.x63] 7
    (mkIdempotencyKeyDigest 1 (replicate 32 Byte.xab)).

Lemma sample_identity_wf : identity_wf sample_identity.
Proof. repeat split; try reflexivity; vm_compute; congruence. Qed.

Lemma identity_key_roundtrip_witness :
  exists b, from_identity sample_identity = Ok b /\ identity_key_decode b = Ok sample_identity.
Proof.
  destruct (identity_key_roundtrip sample_identity sample_identity_wf) as (b & H1 & _ & H2).
  exists b. exact (conj H1 H2).
Defined.

Lemma identity_key_canonical_witness :
  from_identity sample_identity = Ok (key_bytes sample_identity).
Proof.
  apply (identity_key_canonical (key_bytes sample_identity)). vm_compute. reflexivity.
Defined.
