(* ===== verification/StorageBase.v ===== *)
(** * What the storage interfaces share

    [riffdb-storage-api/src/error.rs]: the closed error kinds, and event
    identities as ordered keys of tables and indexes ([EventId] derives its
    order from its two fields). *)

From S2P Require Import Prelude Key.
From stdpp Require Import gmap list sorting.

Local Open Scope Z_scope.

Inductive StorageErrorKind :=
  | Unavailable_
  | CommitStatusUnknown
  | CorruptData
  | IncompatibleFormat
  | LimitExceeded
  | InvariantViolation
  | SequenceExhausted
  | HistoryPruned.

Inductive StorageValueError :=
  | SV_Empty
  | SV_LimitExceeded
  | SV_NonCanonicalOrder
  | SV_Duplicate
  | SV_IdentityMismatch
  | SV_InvalidShape
  | SV_SizeOverflow.

Abbreviation Storage := (result StorageErrorKind).

#[export] Instance EventId_eq_dec : EqDecision EventId.
Proof. solve_decision. Defined.

#[export] Instance EventId_countable : Countable EventId :=
  inj_countable' (fun e => (ev_commit_sequence e, ev_event_ordinal e))
    (fun p => mkEventId p.1 p.2) (fun e => match e with mkEventId _ _ => eq_refl end).

(** ** The order of event identities *)
Definition event_lt (a b : EventId) : Prop :=
  ev_commit_sequence a < ev_commit_sequence b \/
  ev_commit_sequence a = ev_commit_sequence b /\ ev_event_ordinal a < ev_event_ordinal b.

Definition event_le (a b : EventId) : Prop := event_lt a b \/ a = b.

#[export] Instance event_lt_dec a b : Decision (event_lt a b).
Proof. unfold event_lt. apply _. Defined.

#[export] Instance event_le_dec a b : Decision (event_le a b).
Proof. unfold event_le. apply _. Defined.

Ltac event_lia :=
  unfold event_le, event_lt in *;
  repeat match goal with e : EventId |- _ => destruct e end;
  cbn [ev_commit_sequence ev_event_ordinal] in *;
  repeat match goal with H : mkEventId _ _ = mkEventId _ _ |- _ => injection H as ? ?; subst end.

#[export] Instance event_lt_irrefl : Irreflexive event_lt.
Proof. intros e H. event_lia. lia. Qed.

#[export] Instance event_lt_trans : Transitive event_lt.
Proof. intros a b c H K. event_lia. lia. Qed.

#[export] Instance event_le_trans : Transitive event_le.
Proof. intros a b c [H| ->] [K| ->]; [left; by etrans|by left|by left|by right]. Qed.

#[export] Instance event_le_total : Total event_le.
Proof.
  intros [s o] [s' o']. unfold event_le, event_lt. cbn [ev_commit_sequence ev_event_ordinal].
  destruct (Ztrichotomy s s') as [?|[->|?]]; [left; left; lia| |right; left; lia].
  destruct (Ztrichotomy o o') as [?|[->|?]]; [left; left; lia|by left; right|right; left; lia].
Qed.

Lemma event_not_lt a b : ~ event_lt a b -> event_le b a.
Proof. intros H. destruct (total event_le a b) as [[?| ->]|?]; [by destruct H|by right|done]. Qed.

Lemma event_le_not_lt a b : event_le a b -> ~ event_lt b a.
Proof. intros H K. apply (irreflexivity event_lt b). destruct H as [H| ->]; [by etrans|done]. Qed.

(** [BTreeSet<EventId>]: iteration is in increasing order. *)
Definition in_order (s : gset EventId) : list EventId := merge_sort event_le (elements s).

Lemma elem_of_in_order e s : e ∈ in_order s <-> e ∈ s.
Proof. unfold in_order. by rewrite merge_sort_Permutation, elem_of_elements. Qed.

Lemma in_order_sorted s : StronglySorted event_lt (in_order s).
Proof.
  assert (NoDup (in_order s)) as Hnd
    by (unfold in_order; rewrite merge_sort_Permutation; apply NoDup_elements).
  assert (StronglySorted event_le (in_order s)) as Hs by (apply (StronglySorted_merge_sort event_le)).
  induction Hs as [|e l Hl IH He]; [constructor|]. inversion Hnd as [|? ? Hn Hd]; subst.
  constructor; [by apply IH|]. rewrite Forall_forall in He |- *. intros x Hx.
  destruct (He x Hx) as [?| ->]; done.
Qed.

Lemma sorted_NoDup l : StronglySorted event_lt l -> NoDup l.
Proof.
  induction 1 as [|e l _ IH He]; constructor; [|done]. rewrite Forall_forall in He.
  intros Hin. by apply (irreflexivity event_lt e), He.
Qed.

(** An increasing list is determined by its elements. *)
Lemma sorted_ext l k : StronglySorted event_lt l -> StronglySorted event_lt k ->
  (forall e, e ∈ l <-> e ∈ k) -> l = k.
Proof.
  intros Hl Hk He. apply (StronglySorted_unique_strong event_lt); [|done..|].
  - intros x y _ _ Hxy Hyx. exfalso. apply (irreflexivity event_lt x). by etrans.
  - apply NoDup_Permutation; [by apply sorted_NoDup..|done].
Qed.
