(* ===== verification/Schedule.v ===== *)
(** * Identity of scheduled attempts

    [riffdb-scheduler/src/lib.rs], the data: schedule definitions, bounded
    targets, attempt kinds and [ScheduledAttempt::derive], which turns them into
    the idempotency key of a generated command; and the worker's policy with
    its retry delay.  [.expect(..)] is an [option]: [None] is a panic.

    The theorems: deriving never panics on values the constructors produced,
    and equal idempotency keys mean equal schedule, due instant, target and
    purpose, unless SHA-256 collides; the retry delay is the capped doubling it
    is meant to be, for every attempt number a [u8] can hold. *)

From S2P Require Import Prelude Value Framing Hash Names.
From Stdlib Require Import Strings.String.
From stdpp Require Import list.

Local Open Scope string_scope.
Local Open Scope list_scope.
Local Open Scope Z_scope.

Definition MAX_SCHEDULE_TARGET_COMPONENTS : Z := 8.
Definition MAX_SCHEDULE_TARGET_TEXT_BYTES : Z := 256.
Definition MAX_SCHEDULE_TARGET_BYTES : Z := 1024.
Definition MAX_SCHEDULER_IN_FLIGHT : Z := 8.
Definition MAX_SCHEDULER_ATTEMPTS : Z := 10.
Definition MAX_SCHEDULER_RETRY_SECONDS : Z := 3600.
Definition MIN_SCHEDULER_LEASE_SECONDS : Z := 5.
Definition MAX_SCHEDULER_LEASE_SECONDS : Z := 900.

(** ** Schedules, targets and attempt kinds *)

Inductive ScheduleSource :=
  | NamedQuery (module_hash operation : list byte)
  | DurableEvents (module_hash operation : list byte).

Record ScheduleDefinition := mkScheduleDefinition {
  sd_name : list byte;
  sd_source : ScheduleSource;
}.

Inductive ScheduleTargetComponent :=
  | TC_Uuid (value : list byte)
  | TC_Text (value : list byte)
  | TC_U64 (value : Z).

#[export] Instance ScheduleTargetComponent_eq_dec : EqDecision ScheduleTargetComponent.
Proof. solve_decision. Defined.

Inductive ScheduleInputError :=
  | InvalidTarget
  | InvalidPolicy
  | AttemptsExhausted
  | InvalidRevisionEvidence.

Definition component_text (value : list byte) : result ScheduleInputError ScheduleTargetComponent :=
  if bool_decide (value = []) || (MAX_SCHEDULE_TARGET_TEXT_BYTES <? zlen value)
  then Err InvalidTarget else Ok (TC_Text value).

Definition encoded_len (c : ScheduleTargetComponent) : Z :=
  1 + match c with
      | TC_Uuid _ => 16
      | TC_Text value => 4 + zlen value
      | TC_U64 _ => 8
      end.

Definition append_bytes (output bytes : list byte) : option (list byte) :=
  length ← u_checked 32 (zlen bytes);
  Some (output ++ be_bytes 4 length ++ bytes).

Definition component_encode (c : ScheduleTargetComponent) (output : list byte) :
    option (list byte) :=
  match c with
  | TC_Uuid value => Some ((output ++ [Byte.x01]) ++ value)
  | TC_Text value => append_bytes (output ++ [Byte.x02]) value
  | TC_U64 value => Some ((output ++ [Byte.x03]) ++ be_bytes 8 value)
  end.

Record ScheduleTarget := mkScheduleTarget { st_components : list ScheduleTargetComponent }.

(** [try_fold] of checked additions. *)
Fixpoint sum_lengths (sum : Z) (l : list ScheduleTargetComponent) : option Z :=
  match l with
  | [] => Some sum
  | c :: l' => sum' ← usize_checked_add sum (encoded_len c); sum_lengths sum' l'
  end.

Definition schedule_target_new (partition : ScheduleTargetComponent)
    (key_suffix : list ScheduleTargetComponent) : result ScheduleInputError ScheduleTarget :=
  count ← ok_or (usize_checked_add (zlen key_suffix) 1) InvalidTarget;
  if MAX_SCHEDULE_TARGET_COMPONENTS <? count then Err InvalidTarget
  else match sum_lengths (encoded_len partition) key_suffix with
       | None => Err InvalidTarget
       | Some length =>
           if MAX_SCHEDULE_TARGET_BYTES <? length then Err InvalidTarget
           else Ok (mkScheduleTarget (partition :: key_suffix))
       end.

Fixpoint encode_components (l : list ScheduleTargetComponent) (output : list byte) :
    option (list byte) :=
  match l with
  | [] => Some output
  | c :: l' => output' ← component_encode c output; encode_components l' output'
  end.

Definition target_encode (t : ScheduleTarget) (output : list byte) : option (list byte) :=
  count ← u_checked 8 (zlen (st_components t));
  encode_components (st_components t) (output ++ [Z_to_byte count]).

Inductive ScheduleAttemptKind :=
  | K_Claim (delivery_attempt : Z)
  | K_Business (operation : list byte)
  | K_Release (delivery_attempt : Z).

Definition kind_encode (k : ScheduleAttemptKind) (output : list byte) : option (list byte) :=
  match k with
  | K_Claim delivery_attempt => Some ((output ++ [Byte.x01]) ++ [Z_to_byte delivery_attempt])
  | K_Business operation => append_bytes (output ++ [Byte.x02]) operation
  | K_Release delivery_attempt => Some ((output ++ [Byte.x03]) ++ [Z_to_byte delivery_attempt])
  end.

(** ** [ScheduledAttempt] *)

Record ScheduledAttempt := mkScheduledAttempt {
  sa_hash : list byte;
  sa_idempotency_key : list byte;
  sa_due : Timestamp;
  sa_kind : ScheduleAttemptKind;
}.

Definition encode_source (source : ScheduleSource) (bytes : list byte) : option (list byte) :=
  match source with
  | NamedQuery module_hash operation =>
      append_bytes ((bytes ++ [Byte.x01]) ++ module_hash) operation
  | DurableEvents module_hash operation =>
      append_bytes ((bytes ++ [Byte.x02]) ++ module_hash) operation
  end.

Definition attempt_bytes (schedule : ScheduleDefinition) (due : Timestamp)
    (target : ScheduleTarget) (kind : ScheduleAttemptKind) : option (list byte) :=
  bytes ← append_bytes [Byte.x01] (sd_name schedule);
  bytes ← encode_source (sd_source schedule) bytes;
  let bytes := bytes ++ be_bytes 8 (ts_seconds due) in
  let bytes := bytes ++ be_bytes 4 (ts_nanoseconds due) in
  bytes ← target_encode target bytes;
  kind_encode kind bytes.

(** ** [SchedulerPolicy] *)

(** Durations: whole seconds and nanoseconds, ordered as [std::time::Duration]. *)
Record Duration := mkDuration { dur_secs : Z; dur_nanos : Z }.

Definition duration_gt (a b : Duration) : bool :=
  (dur_secs b <? dur_secs a) || (dur_secs a =? dur_secs b) && (dur_nanos b <? dur_nanos a).

Definition from_secs (s : Z) : Duration := mkDuration s 0.

Record SchedulerPolicy := mkSchedulerPolicy {
  sp_maximum_in_flight : Z;
  sp_maximum_attempts : Z;
  sp_lease_seconds : Z;
  sp_base_retry_seconds : Z;
  sp_maximum_retry_seconds : Z;
  sp_maximum_wait : Duration;
}.

Definition scheduler_policy_new (maximum_in_flight maximum_attempts lease_seconds
    base_retry_seconds maximum_retry_seconds : Z) (maximum_wait : Duration) :
    result ScheduleInputError SchedulerPolicy :=
  if (MAX_SCHEDULER_IN_FLIGHT <? maximum_in_flight)
     || (MAX_SCHEDULER_ATTEMPTS <? maximum_attempts)
     || negb ((MIN_SCHEDULER_LEASE_SECONDS <=? lease_seconds)
              && (lease_seconds <=? MAX_SCHEDULER_LEASE_SECONDS))
     || (MAX_SCHEDULER_RETRY_SECONDS <? maximum_retry_seconds)
     || (maximum_retry_seconds <? base_retry_seconds)
     || duration_gt maximum_wait (from_secs 30)
  then Err InvalidPolicy
  else Ok (mkSchedulerPolicy maximum_in_flight maximum_attempts lease_seconds
             base_retry_seconds maximum_retry_seconds maximum_wait).

(** [1_u64.checked_shl(n)]: the shifted value, or [None] from 64 on. *)
Definition one_checked_shl (n : Z) : option Z :=
  if n <? 64 then Some (Z.shiftl 1 n mod 2 ^ 64) else None.

Definition u64_saturating_mul (a b : Z) : Z := Z.min (2 ^ 64 - 1) (a * b).

Definition retry_delay (p : SchedulerPolicy) (attempt : Z) : Duration :=
  let exponent := Z.min (saturating_sub attempt 1) 62 in
  let multiplier := default (2 ^ 64 - 1) (one_checked_shl exponent) in
  let seconds :=
    Z.min (u64_saturating_mul (sp_base_retry_seconds p) multiplier)
      (sp_maximum_retry_seconds p) in
  from_secs seconds.

Section derive.
Context (sha256 : list byte -> list byte).

Definition derive (schedule : ScheduleDefinition) (due : Timestamp) (target : ScheduleTarget)
    (kind : ScheduleAttemptKind) : option ScheduledAttempt :=
  bytes ← attempt_bytes schedule due target kind;
  let h := hash_scheduled_attempt sha256 bytes in
  Some (mkScheduledAttempt h (list_byte_of_string "sched_" ++ hex h) due kind).
End derive.

(** ** Well-formed inputs: what the constructors and field types guarantee *)

Definition component_wf (c : ScheduleTargetComponent) : Prop :=
  match c with
  | TC_Uuid value => length value = 16%nat
  | TC_Text value => u_range 32 (zlen value)
  | TC_U64 value => u_range 64 value
  end.

Definition target_wf (t : ScheduleTarget) : Prop :=
  exists partition key_suffix,
    Forall component_wf (partition :: key_suffix) /\
    schedule_target_new partition key_suffix = Ok t.

Definition source_wf (s : ScheduleSource) : Prop :=
  match s with
  | NamedQuery module_hash operation | DurableEvents module_hash operation =>
      length module_hash = 32%nat /\ name_wf operation
  end.

Definition schedule_wf (d : ScheduleDefinition) : Prop :=
  name_wf (sd_name d) /\ source_wf (sd_source d).

Definition kind_wf (k : ScheduleAttemptKind) : Prop :=
  match k with
  | K_Claim n | K_Release n => 1 <= n < 256
  | K_Business operation => name_wf operation
  end.

(** ** The preimage as one concatenation *)

Lemma append_bytes_prefixed output bytes :
  u_range 32 (zlen bytes) -> append_bytes output bytes = Some (output ++ prefixed 4 bytes).
Proof.
  intros H. unfold append_bytes.
  destruct (u_checked 32 (zlen bytes)) eqn:E.
  - apply u_checked_Some in E as [-> _]. done.
  - by apply u_checked_None in E.
Qed.

Definition component_bytes (c : ScheduleTargetComponent) : list byte :=
  match c with
  | TC_Uuid value => Byte.x01 :: value
  | TC_Text value => Byte.x02 :: prefixed 4 value
  | TC_U64 value => Byte.x03 :: be_bytes 8 value
  end.

Definition source_bytes (s : ScheduleSource) : list byte :=
  match s with
  | NamedQuery module_hash operation => Byte.x01 :: module_hash ++ prefixed 4 operation
  | DurableEvents module_hash operation => Byte.x02 :: module_hash ++ prefixed 4 operation
  end.

Definition kind_bytes (k : ScheduleAttemptKind) : list byte :=
  match k with
  | K_Claim n => [Byte.x01; Z_to_byte n]
  | K_Business operation => Byte.x02 :: prefixed 4 operation
  | K_Release n => [Byte.x03; Z_to_byte n]
  end.

Definition preimage (d : ScheduleDefinition) (due : Timestamp) (t : ScheduleTarget)
    (k : ScheduleAttemptKind) : list byte :=
  Byte.x01 :: prefixed 4 (sd_name d) ++ source_bytes (sd_source d)
    ++ be_bytes 8 (ts_seconds due) ++ be_bytes 4 (ts_nanoseconds due)
    ++ Z_to_byte (zlen (st_components t)) :: flat_map component_bytes (st_components t)
    ++ kind_bytes k.

Lemma encode_components_bytes l output :
  Forall component_wf l -> encode_components l output = Some (output ++ flat_map component_bytes l).
Proof.
  intros Hl. revert output. induction Hl as [|c l Hc Hl IH]; intros output;
    cbn [encode_components flat_map]; [by rewrite app_nil_r|].
  assert (component_encode c output = Some (output ++ component_bytes c)) as ->.
  { destruct c; cbn [component_encode component_bytes component_wf] in *;
      rewrite ?append_bytes_prefixed by done; by rewrite <- ?app_assoc. }
  cbn [mbind option_bind]. by rewrite IH, <- app_assoc.
Qed.

Lemma target_wf_components t :
  target_wf t -> Forall component_wf (st_components t) /\ 1 <= zlen (st_components t) <= 8.
Proof.
  intros (p & l & Hwf & E). unfold schedule_target_new, ok_or in E.
  destruct (usize_checked_add (zlen l) 1) as [count|] eqn:Ec; [|done].
  apply u_checked_Some in Ec as [-> _]. cbn [mbind result_bind] in E.
  pose proof (zlen_nonneg l). unfold MAX_SCHEDULE_TARGET_COMPONENTS in E.
  destruct (Z.ltb_spec 8 (zlen l + 1)); [done|].
  destruct (sum_lengths _ l) as [n|]; [|done].
  destruct (_ <? n); [done|]. injection E as <-. cbn [st_components].
  split; [done|]. rewrite zlen_cons. lia.
Qed.

Lemma attempt_bytes_preimage d due t k :
  schedule_wf d -> target_wf t -> kind_wf k -> attempt_bytes d due t k = Some (preimage d due t k).
Proof.
  intros [Hn Hs] [Ht Hc]%target_wf_components Hk. unfold attempt_bytes.
  rewrite append_bytes_prefixed by auto using name_wf_length. cbn [mbind option_bind].
  assert (forall o, encode_source (sd_source d) o = Some (o ++ source_bytes (sd_source d))) as Es.
  { intros o. destruct (sd_source d) as [h op|h op]; destruct Hs as [_ Hop];
      cbn [encode_source source_bytes];
      rewrite append_bytes_prefixed by auto using name_wf_length; by rewrite <- !app_assoc. }
  rewrite Es. cbn [mbind option_bind]. unfold target_encode.
  destruct (u_checked 8 (zlen (st_components t))) as [c|] eqn:E;
    [|apply u_checked_None in E; unfold u_range in E; lia].
  apply u_checked_Some in E as [-> _]. cbn [mbind option_bind].
  rewrite encode_components_bytes by done.
  assert (forall o, kind_encode k o = Some (o ++ kind_bytes k)) as Ek.
  { intros o. destruct k; cbn [kind_encode kind_bytes kind_wf] in *;
      rewrite ?append_bytes_prefixed by auto using name_wf_length; by rewrite <- ?app_assoc. }
  cbn [mbind option_bind]. rewrite Ek. unfold preimage. cbn [app]. by rewrite <- !app_assoc.
Qed.

(** ** ... which can be read in one way only *)

#[export] Instance component_bytes_unambiguous : Unambiguous component_wf component_bytes.
Proof.
  intros x y s t Hx Hy E.
  destruct x, y; cbn [component_bytes component_wf app] in *; try discriminate;
    apply cons_app_inj in E as [_ E].
  - peel_fixed 16%nat E Ev. by subst.
  - peel_prefixed 4%nat E Ev. by subst.
  - peel_be 8%nat E Ev. by subst.
Qed.

#[export] Instance source_bytes_unambiguous : Unambiguous source_wf source_bytes.
Proof.
  intros x y s t Hx Hy E.
  destruct x, y; destruct Hx as [Hx1 Hx2%name_wf_length], Hy as [Hy1 Hy2%name_wf_length];
    cbn [source_bytes app] in *; try discriminate; apply cons_app_inj in E as [_ E];
    peel_fixed 32%nat E Eh; peel_prefixed 4%nat E Eo; by subst.
Qed.

#[export] Instance kind_bytes_unambiguous : Unambiguous kind_wf kind_bytes.
Proof.
  intros x y s t Hx Hy E.
  destruct x, y; cbn [kind_bytes kind_wf app] in *; try discriminate;
    apply cons_app_inj in E as [_ E].
  - apply cons_app_inj in E as [E ->]. apply Z_to_byte_inj in E; [by subst|lia..].
  - apply name_wf_length in Hx, Hy. peel_prefixed 4%nat E Ev. by subst.
  - apply cons_app_inj in E as [E ->]. apply Z_to_byte_inj in E; [by subst|lia..].
Qed.

Lemma timestamp_wfb_ranges t :
  timestamp_wfb t = true -> i_range 64 (ts_seconds t) /\ u_range 32 (ts_nanoseconds t).
Proof.
  unfold timestamp_wfb, NANOS_PER_SECOND. rewrite !andb_true_iff, i_inb_spec.
  intros [[Hs Hn] Hm]. split; [done|]. unfold u_range. lia.
Qed.

Lemma preimage_inj d due t k d' due' t' k' :
  schedule_wf d -> timestamp_wfb due = true -> target_wf t -> kind_wf k ->
  schedule_wf d' -> timestamp_wfb due' = true -> target_wf t' -> kind_wf k' ->
  preimage d due t k = preimage d' due' t' k' ->
  d = d' /\ due = due' /\ t = t' /\ k = k'.
Proof.
  intros [Hn Hs] [Hts Htn]%timestamp_wfb_ranges [Ht Hc]%target_wf_components Hk
    [Hn' Hs'] [Hts' Htn']%timestamp_wfb_ranges [Ht' Hc']%target_wf_components Hk' E.
  apply name_wf_length in Hn, Hn'. unfold preimage in E. apply cons_app_inj in E as [_ E].
  peel_prefixed 4%nat E En. peel source_wf source_bytes E Es.
  pose proof (be_bytes_signed_unambiguous 8 ltac:(lia)) as Hsigned.
  peel (i_range (8 * Z.of_nat 8)) (be_bytes 8) E Esec. peel_be 4%nat E Enano.
  apply cons_app_inj in E as [Ec E]. apply Z_to_byte_inj in Ec; [|lia..].
  apply (flat_map_unambiguous component_wf component_bytes) in E as [Ecs E]; [|done|done|unfold zlen in Ec; lia].
  apply (unambiguous_inj kind_wf kind_bytes) in E; [|done..].
  destruct d, d', due, due', t, t'. cbn in *. by subst.
Qed.

(** ** Bounds of a preimage *)

Lemma encoded_len_exact c : component_wf c -> zlen (component_bytes c) = encoded_len c.
Proof.
  destruct c; cbn [component_bytes component_wf]; intros H;
    unfold prefixed, encoded_len; autorewrite with zlen; rewrite ?zlen_be_bytes;
    unfold zlen; lia.
Qed.

Lemma sum_lengths_exact l sum n :
  Forall component_wf l -> sum_lengths sum l = Some n ->
  n = sum + zlen (flat_map component_bytes l).
Proof.
  intros Hl. revert sum. induction Hl as [|c l Hc Hl IH]; intros sum; cbn [sum_lengths flat_map].
  - intros [= ->]. rewrite zlen_nil. lia.
  - destruct (usize_checked_add sum (encoded_len c)) as [s'|] eqn:E; [|done].
    apply u_checked_Some in E as [-> _]. cbn [mbind option_bind].
    intros ->%IH. rewrite zlen_app, encoded_len_exact by done. lia.
Qed.

Lemma target_bytes_bound t :
  target_wf t -> zlen (flat_map component_bytes (st_components t)) <= MAX_SCHEDULE_TARGET_BYTES.
Proof.
  intros (p & l & Hwf & E). unfold schedule_target_new, ok_or in E.
  destruct (usize_checked_add (zlen l) 1) as [count|] eqn:Ec; [|done].
  cbn [mbind result_bind] in E. destruct (_ <? count); [done|].
  destruct (sum_lengths (encoded_len p) l) as [n|] eqn:En; [|done].
  destruct (Z.ltb_spec MAX_SCHEDULE_TARGET_BYTES n); [done|].
  injection E as <-. cbn [st_components flat_map].
  inversion Hwf as [|? ? Hp Hl]; subst.
  apply sum_lengths_exact in En as ->; [|done]. rewrite zlen_app, encoded_len_exact by done. lia.
Qed.

Lemma preimage_length d due t k :
  schedule_wf d -> target_wf t -> kind_wf k -> u_range 64 (zlen (preimage d due t k)).
Proof.
  intros [Hn Hs] Ht Hk. pose proof (target_bytes_bound t Ht) as Hb.
  apply name_wf_length in Hn. unfold u_range, MAX_SCHEDULE_TARGET_BYTES in *.
  assert (zlen (source_bytes (sd_source d)) < 2 ^ 33).
  { destruct (sd_source d); destruct Hs as [Hh Ho%name_wf_length]; unfold u_range in Ho;
      cbn [source_bytes]; unfold prefixed; autorewrite with zlen; rewrite zlen_be_bytes;
      unfold zlen in *; lia. }
  assert (zlen (kind_bytes k) < 2 ^ 33).
  { destruct k; cbn [kind_bytes kind_wf] in *; [done| |done].
    apply name_wf_length in Hk. unfold u_range in Hk. unfold prefixed.
    autorewrite with zlen. rewrite zlen_be_bytes. lia. }
  unfold preimage, prefixed. autorewrite with zlen. rewrite !zlen_be_bytes.
  unfold zlen in *. lia.
Qed.

Section theorems.
Context (sha256 : list byte -> list byte).

(** The inputs of [derive] that the Rust types admit. *)
Definition inputs_wf (d : ScheduleDefinition) (due : Timestamp) (t : ScheduleTarget)
    (k : ScheduleAttemptKind) : Prop :=
  schedule_wf d /\ timestamp_wfb due = true /\ target_wf t /\ kind_wf k.

Lemma derive_some d due t k :
  inputs_wf d due t k ->
  derive sha256 d due t k =
    let h := hash_scheduled_attempt sha256 (preimage d due t k) in
    Some (mkScheduledAttempt h (list_byte_of_string "sched_" ++ hex h) due k).
Proof.
  intros (Hd & Hdue & Ht & Hk). unfold derive. by rewrite attempt_bytes_preimage.
Qed.

(** An attempt's idempotency key identifies it: deriving never panics on
    values the constructors admit, and two attempts share a key only if they
    have the same schedule definition, due instant, target and purpose (kind
    and delivery attempt or command), or else
    their framed preimages are two colliding messages of SHA-256. *)
Theorem attempt_identity d due t k d' due' t' k' :
  inputs_wf d due t k -> inputs_wf d' due' t' k' ->
  exists a a',
    derive sha256 d due t k = Some a /\ derive sha256 d' due' t' k' = Some a' /\
    (sa_idempotency_key a = sa_idempotency_key a' ->
     (d = d' /\ due = due' /\ t = t' /\ k = k') \/
     collide sha256 (content_frame HD_ScheduledAttempt (preimage d due t k))
       (content_frame HD_ScheduledAttempt (preimage d' due' t' k'))).
Proof.
  intros H H'. do 2 eexists. split_and!; [by apply derive_some|by apply derive_some|].
  cbn [sa_idempotency_key]. intros E%app_inv_head%hex_inj.
  destruct H as (Hd & Hdue & Ht & Hk), H' as (Hd' & Hdue' & Ht' & Hk').
  apply hash_bytes_separated in E as [[_ E]|]; [left|by right|by apply preimage_length..].
  by apply preimage_inj.
Qed.
End theorems.

(** Retry delays double and saturate: for a policy that passed its checks
    and any delivery attempt a nonzero [u8] can hold, the delay is
    [base * 2^(attempt-1)] seconds capped at the policy's maximum; the shift
    clamp and the saturating product never show. *)
Theorem retry_delay_exact inflight attempts lease base maximum wait p attempt :
  1 <= base < 2 ^ 64 -> 1 <= maximum < 2 ^ 64 -> 1 <= attempt < 256 ->
  scheduler_policy_new inflight attempts lease base maximum wait = Ok p ->
  retry_delay p attempt = from_secs (Z.min (base * 2 ^ (attempt - 1)) maximum) /\
  1 <= dur_secs (retry_delay p attempt) <= MAX_SCHEDULER_RETRY_SECONDS.
Proof.
  intros Hb Hm Ha. unfold scheduler_policy_new.
  destruct (_ || _) eqn:E; [done|]. intros [= <-].
  rewrite !orb_false_iff in E. destruct E as (((((_ & _) & _) & E4) & E5) & _).
  unfold MAX_SCHEDULER_RETRY_SECONDS in *. apply Z.ltb_ge in E4, E5.
  unfold retry_delay. cbn [sp_base_retry_seconds sp_maximum_retry_seconds].
  unfold saturating_sub, one_checked_shl, u64_saturating_mul.
  rewrite (proj2 (Z.ltb_lt _ 64)) by lia. cbn [default from_option id].
  rewrite Z.shiftl_1_l, (Z.max_r 0 (attempt - 1)) by lia.
  assert (2 ^ (Z.min (attempt - 1) 62) <= 2 ^ 62) by (apply Z.pow_le_mono_r; lia).
  rewrite Z.mod_small by lia.
  assert (Z.min (Z.min (2 ^ 64 - 1) (base * 2 ^ Z.min (attempt - 1) 62)) maximum
          = Z.min (base * 2 ^ (attempt - 1)) maximum) as Hmin.
  { destruct (Z.le_gt_cases (attempt - 1) 62) as [Hle|Hgt].
    - rewrite (Z.min_l (attempt - 1)) by lia. lia.
    - rewrite (Z.min_r (attempt - 1)) by lia.
      assert (2 ^ 62 <= 2 ^ (attempt - 1)) by (apply Z.pow_le_mono_r; lia). nia. }
  rewrite Hmin. split; [done|]. cbn [dur_secs from_secs].
  assert (0 < 2 ^ (attempt - 1)) by (apply Z.pow_pos_nonneg; lia). nia.
Qed.

Lemma retry_delay_exact_witness :
  exists p, scheduler_policy_new 1 10 60 5 3600 (from_secs 30) = Ok p /\
    retry_delay p 4 = from_secs 40.
Proof.
  eexists. split; [reflexivity|].
  refine (proj1 (retry_delay_exact 1 10 60 5 3600 (from_secs 30) _ 4 _ _ _ eq_refl)); lia.
Defined.

(** A schedule, its source, target and an attempt of each kind. *)
Definition sample_schedule : ScheduleDefinition :=
  mkScheduleDefinition (list_byte_of_string "renew_leases")
    (NamedQuery (replicate 32 Byte.x2a) (list_byte_of_string "due_leases")).

Definition sample_target : ScheduleTarget :=
  mkScheduleTarget [TC_Text (list_byte_of_string "tenant"); TC_U64 7].

Lemma sample_inputs_wf k : kind_wf k -> inputs_wf sample_schedule (mkTimestamp 60 0) sample_target k.
Proof.
  intros Hk. split_and!; [repeat split; vm_compute; reflexivity|reflexivity| |done].
  exists (TC_Text (list_byte_of_string "tenant")), [TC_U64 7].
  split; [|reflexivity]. repeat constructor; vm_compute; congruence.
Qed.

Lemma attempt_identity_witness :
  exists a a',
    derive (fun l => l) sample_schedule (mkTimestamp 60 0) sample_target (K_Claim 1) = Some a /\
    derive (fun l => l) sample_schedule (mkTimestamp 60 0) sample_target (K_Release 1) = Some a' /\
    sa_idempotency_key a <> sa_idempotency_key a'.
Proof.
  destruct (attempt_identity (fun l => l) sample_schedule (mkTimestamp 60 0) sample_target
    (K_Claim 1) sample_schedule (mkTimestamp 60 0) sample_target (K_Release 1))
    as (a & a' & Ha & Ha' & Hk);
    [apply sample_inputs_wf; cbn; lia..|].
  exists a, a'. split_and!; [exact Ha|exact Ha'|]. intros E.
  destruct (Hk E) as [(_ & _ & _ & ?)|[Hne Hm]]; [discriminate|].
  apply Hne, Hm.
Defined.
