(* ===== verification/Scheduler.v ===== *)
(** * The scheduler worker

    [riffdb-scheduler/src/lib.rs], [SchedulerWorker::run_once]: one bounded turn
    of the worker over a [SchedulerApplication], a trait implemented outside
    this repository.  The turn is a program over the trait's operations and the
    cancellation flag; the flag is read between operations and may answer
    differently each time, so it is a call too.  Nothing is assumed of the
    answers unless a theorem says so.

    The theorems hold for every environment: a turn makes at most twelve calls
    and panics only on work its types exclude; an observed cancellation or a
    failed operation ends the turn and is what it reports; acknowledgement comes
    only after the business outcome is known and the claimed fence is released
    at the right revision; and, over any sequence of turns against an
    application that remembers business outcomes, no piece of work is executed
    twice. *)

From S2P Require Import Prelude Value Framing Hash Schedule Interaction.
From stdpp Require Import list.

Local Open Scope Z_scope.

Record FencedClaim := mkFencedClaim {
  fc_owner_id : list byte;
  fc_fencing_token : Z;
  fc_successor_revision : Z;
}.

Inductive ClaimDisposition :=
  | Acquired (claim : FencedClaim)
  | Unavailable.

Record BusinessResolution := mkBusinessResolution {
  br_successor_revision : Z;
  br_replayed : bool;
}.

Inductive ReleaseDisposition := Released | AlreadyReleased.
Inductive CheckpointDisposition := Applied | StateChanged.

Inductive SchedulerStage :=
  | Selection
  | OutcomeRecovery
  | Claim
  | BusinessCommand
  | Release
  | Checkpoint.

Inductive SchedulerRunResult :=
  | Idle
  | Deferred (retry_after : Duration)
  | Completed (attempt : list byte) (replayed : bool)
  | Cancelled (stage : SchedulerStage).

Inductive SchedulerRunError (F : Type) :=
  | InvalidWork (error : ScheduleInputError)
  | Application (stage : SchedulerStage) (source : F).
Arguments InvalidWork {F} error.
Arguments Application {F} stage source.

(** The [ScheduledWork] trait. *)
Class ScheduledWork (W : Type) := {
  work_schedule : W -> ScheduleDefinition;
  work_due : W -> Timestamp;
  work_target : W -> ScheduleTarget;
  work_business_command : W -> list byte;
  work_attempt : W -> Z;
}.

(** ** Calls to the application *)
Inductive SchedCall (W F : Type) :=
  | QCancelled
  | QNext (maximum_wait : Duration)
  | QResolve (work : W) (attempt : ScheduledAttempt)
  | QClaim (work : W) (attempt : ScheduledAttempt) (lease_seconds : Z)
  | QExecute (work : W) (claim : FencedClaim) (attempt : ScheduledAttempt)
  | QRelease (work : W) (claim : FencedClaim) (expected_revision : Z) (attempt : ScheduledAttempt)
  | QAck (work : W)
  | QNack (work : W) (delay : Duration).
Arguments QCancelled {W F}.
Arguments QNext {W F} _.
Arguments QResolve {W F} _ _.
Arguments QClaim {W F} _ _ _.
Arguments QExecute {W F} _ _ _.
Arguments QRelease {W F} _ _ _ _.
Arguments QAck {W F} _.
Arguments QNack {W F} _ _.

Inductive SchedEvent (W F : Type) :=
  | EvCancelled (r : bool)
  | EvNext (maximum_wait : Duration) (r : result F (option W))
  | EvResolve (work : W) (attempt : ScheduledAttempt) (r : result F (option BusinessResolution))
  | EvClaim (work : W) (attempt : ScheduledAttempt) (lease_seconds : Z)
      (r : result F ClaimDisposition)
  | EvExecute (work : W) (claim : FencedClaim) (attempt : ScheduledAttempt)
      (r : result F BusinessResolution)
  | EvRelease (work : W) (claim : FencedClaim) (expected_revision : Z)
      (attempt : ScheduledAttempt) (r : result F ReleaseDisposition)
  | EvAck (work : W) (r : result F CheckpointDisposition)
  | EvNack (work : W) (delay : Duration) (r : result F CheckpointDisposition).
Arguments EvCancelled {W F} _.
Arguments EvNext {W F} _ _.
Arguments EvResolve {W F} _ _ _.
Arguments EvClaim {W F} _ _ _ _.
Arguments EvExecute {W F} _ _ _ _.
Arguments EvRelease {W F} _ _ _ _ _.
Arguments EvAck {W F} _ _.
Arguments EvNack {W F} _ _ _.

Definition sched_answer {W F} (q : SchedCall W F) : Type :=
  match q with
  | QCancelled => bool
  | QNext _ => result F (option W)
  | QResolve _ _ => result F (option BusinessResolution)
  | QClaim _ _ _ => result F ClaimDisposition
  | QExecute _ _ _ => result F BusinessResolution
  | QRelease _ _ _ _ => result F ReleaseDisposition
  | QAck _ => result F CheckpointDisposition
  | QNack _ _ => result F CheckpointDisposition
  end.

Definition sched_record {W F} (q : SchedCall W F) : sched_answer q -> SchedEvent W F :=
  match q with
  | QCancelled => EvCancelled
  | QNext wait => EvNext wait
  | QResolve w a => EvResolve w a
  | QClaim w a l => EvClaim w a l
  | QExecute w c a => EvExecute w c a
  | QRelease w c rev a => EvRelease w c rev a
  | QAck w => EvAck w
  | QNack w d => EvNack w d
  end.

#[export] Instance sched_calls W F : Calls (SchedCall W F) := {|
  answer := sched_answer;
  event := SchedEvent W F;
  record_call := sched_record;
|}.

Section worker.
Context {W F : Type} `{ScheduledWork W} (sha256 : list byte -> list byte).

Abbreviation Turn := (Prog (SchedCall W F) (result (SchedulerRunError F) SchedulerRunResult)).

(** One call, continued with its answer. *)
Definition ask (q : SchedCall W F) (rest : sched_answer q -> Turn) : Turn := Call q rest.

(** [if cancellation.is_cancelled() { return Ok(Cancelled { stage }) }] *)
Definition unless_cancelled (stage : SchedulerStage) (rest : Turn) : Turn :=
  ask QCancelled (fun cancelled : bool =>
    if cancelled then Ret (Ok (Cancelled stage)) else rest).

(** [.map_err(|source| Application { stage, source })?] *)
Definition or_fail {A} (stage : SchedulerStage) (rest : A -> Turn) (r : result F A) : Turn :=
  match r with
  | Ok a => rest a
  | Err source => Ret (Err (Application stage source))
  end.

(** [.expect(..)] inside [derive] *)
Definition expecting {A} (o : option A) (rest : A -> Turn) : Turn :=
  match o with Some a => rest a | None => Panic end.

Definition derive_for (work : W) (kind : ScheduleAttemptKind) : option ScheduledAttempt :=
  derive sha256 (work_schedule work) (work_due work) (work_target work) kind.

(** The last part of the turn, from the release on. *)
Definition finish_turn (work : W) (business_attempt : ScheduledAttempt) (claim : FencedClaim)
    (business : BusinessResolution) (release_revision : Z) : Turn :=
  unless_cancelled Release (
  expecting (derive_for work (K_Release (work_attempt work))) (fun release_attempt =>
  ask (QRelease work claim release_revision release_attempt) (or_fail Release (fun _ =>
  unless_cancelled Checkpoint (
  ask (QAck work) (or_fail Checkpoint (fun _ =>
  Ret (Ok (Completed (sa_hash business_attempt) (br_replayed business)))))))))).

Definition run_once (policy : SchedulerPolicy) : Turn :=
  unless_cancelled Selection (
  ask (QNext (sp_maximum_wait policy)) (or_fail Selection (fun next =>
  match next with
  | None => Ret (Ok Idle)
  | Some work =>
  if sp_maximum_attempts policy <? work_attempt work
  then Ret (Err (InvalidWork AttemptsExhausted))
  else
  unless_cancelled OutcomeRecovery (
  expecting (derive_for work (K_Business (work_business_command work))) (fun business_attempt =>
  ask (QResolve work business_attempt) (or_fail OutcomeRecovery (fun recovered_business =>
  unless_cancelled Claim (
  expecting (derive_for work (K_Claim (work_attempt work))) (fun claim_attempt =>
  ask (QClaim work claim_attempt (sp_lease_seconds policy)) (or_fail Claim (fun claim =>
  match claim with
  | Unavailable =>
      let retry_after := retry_delay policy (work_attempt work) in
      ask (QNack work retry_after) (or_fail Checkpoint (fun _ =>
      Ret (Ok (Deferred retry_after))))
  | Acquired claim =>
  unless_cancelled BusinessCommand
  match recovered_business with
  | Some business => finish_turn work business_attempt claim business (fc_successor_revision claim)
  | None =>
      ask (QExecute work claim business_attempt) (or_fail BusinessCommand (fun business =>
      match u_checked 64 (fc_successor_revision claim + 1) ≫= nonzero_id_new with
      | None => Ret (Err (InvalidWork InvalidRevisionEvidence))
      | Some expected_business_revision =>
          if negb (br_successor_revision business =? expected_business_revision)
          then Ret (Err (InvalidWork InvalidRevisionEvidence))
          else finish_turn work business_attempt claim business (br_successor_revision business)
      end))
  end
  end))))))))
  end))).

(** ** Observing a trace *)

Abbreviation Trace := (list (SchedEvent W F)).

Definition failed {A} (stage : SchedulerStage) (r : result F A) : option (SchedulerStage * F) :=
  match r with Ok _ => None | Err f => Some (stage, f) end.

(** The failure an event reports, with the stage it belongs to. *)
Definition failure_of (e : SchedEvent W F) : option (SchedulerStage * F) :=
  match e with
  | EvCancelled _ => None
  | EvNext _ r => failed Selection r
  | EvResolve _ _ r => failed OutcomeRecovery r
  | EvClaim _ _ _ r => failed Claim r
  | EvExecute _ _ _ r => failed BusinessCommand r
  | EvRelease _ _ _ _ r => failed Release r
  | EvAck _ r => failed Checkpoint r
  | EvNack _ _ r => failed Checkpoint r
  end.

Definition is_execute (e : SchedEvent W F) : bool :=
  match e with EvExecute _ _ _ _ => true | _ => false end.

(** What the types of the work guarantee. *)
Definition work_wf (w : W) : Prop :=
  inputs_wf (work_schedule w) (work_due w) (work_target w)
    (K_Business (work_business_command w)) /\ 1 <= work_attempt w < 256.

Lemma derive_for_wf w k :
  work_wf w -> kind_wf k -> derive_for w k <> None.
Proof.
  intros [(Hd & Hdue & Ht & _) _] Hk. unfold derive_for.
  by rewrite derive_some.
Qed.

Lemma derive_for_panics w k :
  derive_for w k = None ->
  k = K_Claim (work_attempt w) \/ k = K_Release (work_attempt w)
    \/ k = K_Business (work_business_command w) -> ~ work_wf w.
Proof.
  intros E Hk Hw. apply (derive_for_wf w k); [done| |done].
  destruct Hw as [(_ & _ & _ & Hb) Ha], Hk as [->|[->| ->]]; done.
Qed.

(** ** Theorems *)

(** Every trace of a turn, call by call.  The continuations are unfolded once
    here; the theorems consume the cases. *)
Ltac turn_cases Hr :=
  unfold run_once, finish_turn, unless_cancelled, or_fail, expecting, ask in Hr;
  run_steps Hr; subst.

Ltac in_trace := repeat first [apply list_elem_of_here | apply list_elem_of_further].
Ltac in_last :=
  lazymatch goal with
  | |- _ ∈ [_] => apply list_elem_of_here
  | |- _ => apply list_elem_of_further; in_last
  end.

(** A turn is bounded and total: against any application it makes at most
    twelve calls and returns; it can only panic if the application handed it
    work that the types of [ScheduledWork] exclude. *)
Theorem run_once_total {S} policy (handle : forall q : SchedCall W F, S -> S * answer q) s :
  let '(_, t, r) := exec handle (run_once policy) s in
  (length t <= 12)%nat /\
  (r = Panicked -> exists wait w, EvNext wait (Ok (Some w)) ∈ t /\ ~ work_wf w).
Proof.
  pose proof (exec_runs handle (run_once policy) s) as Hr.
  destruct (exec handle (run_once policy) s) as [[s' t] r]. cbn [fst snd] in Hr.
  turn_cases Hr.
  all: split; [cbn; lia|first [discriminate|intros _]].
  all: do 2 eexists; split; [in_trace|eapply derive_for_panics; eauto].
Qed.

(** The disposition of one event: it ends the turn or it does not. *)
Definition stops (r : outcome (result (SchedulerRunError F) SchedulerRunResult))
    (e : SchedEvent W F) (rest : Trace) : Prop :=
  match failure_of e, e with
  | Some (stage, f), _ => rest = [] /\ r = Returned (Err (Application stage f))
  | None, EvCancelled true => rest = [] /\ exists stage, r = Returned (Ok (Cancelled stage))
  | None, _ => True
  end.

Lemma run_once_stops policy t r :
  runs (run_once policy) t r -> everywhere (fun _ => stops r) [] t.
Proof. intros Hr. turn_cases Hr. all: cbn; repeat (split; eauto). Qed.

(** Failures and cancellation stop the turn at once and are what it
    reports: after an operation failed or cancellation was observed no further
    call is made, the turn fails with exactly that operation's stage and error,
    or returns [Cancelled]; and it returns an application error or [Cancelled]
    only for such an event. *)
Theorem run_once_error_exact policy t r :
  runs (run_once policy) t r ->
  (forall t1 e t2, t = t1 ++ e :: t2 -> stops r e t2) /\
  (forall stage f, r = Returned (Err (Application stage f)) ->
     exists e, e ∈ t /\ failure_of e = Some (stage, f)) /\
  (forall stage, r = Returned (Ok (Cancelled stage)) -> EvCancelled true ∈ t).
Proof.
  intros Hr. split_and!.
  - intros t1 e t2. apply (proj1 (everywhere_spec (fun _ => stops r) [] t)). eauto using run_once_stops.
  - intros stage f ->. turn_cases Hr; simplify_eq; eexists; (split; [in_last|done]).
  - intros stage ->. turn_cases Hr; simplify_eq; in_trace.
Qed.

(** What the worker knows when it calls [acknowledge]: the claim it holds, that
    it released it at revision [rev], and where the business outcome is from. *)
Definition ready_to_acknowledge (before : Trace) (w : W) : Prop :=
  exists claim rev claim_attempt release_attempt lease released business_attempt business,
    EvClaim w claim_attempt lease (Ok (Acquired claim)) ∈ before /\
    EvRelease w claim rev release_attempt (Ok released) ∈ before /\
    ((EvResolve w business_attempt (Ok (Some business)) ∈ before /\
      rev = fc_successor_revision claim) \/
     (EvExecute w claim business_attempt (Ok business) ∈ before /\
      rev = fc_successor_revision claim + 1 /\ rev = br_successor_revision business)).

Lemma expected_revision_some n m :
  u_checked 64 (n + 1) ≫= nonzero_id_new = Some m -> m = n + 1.
Proof.
  destruct (u_checked 64 (n + 1)) eqn:E; [|done]. apply u_checked_Some in E as [-> _].
  cbn. unfold nonzero_id_new. destruct (n + 1 =? 0); congruence.
Qed.

(** C28. Acknowledgement is last and earned: whenever a turn acknowledges a work
    item, it has acquired a claim for it, it has the business outcome, either
    recovered or from executing under that claim with the revision following
    the claim's, and it has released that claim at the matching revision. *)
Theorem acknowledge_earned policy t1 w x t2 r :
  runs (run_once policy) (t1 ++ EvAck w x :: t2) r -> t2 = [] /\ ready_to_acknowledge t1 w.
Proof.
  intros Hr.
  enough (everywhere (fun before e rest => forall w x, e = EvAck w x ->
            rest = [] /\ ready_to_acknowledge before w) [] (t1 ++ EvAck w x :: t2)) as He.
  { rewrite everywhere_spec in He. by eapply (He t1). }
  remember (t1 ++ EvAck w x :: t2) as t eqn:Et. clear Et t1 t2 w x.
  turn_cases Hr; cbn; split_and!; try done; intros; simplify_eq; (split; [done|]).
  all: do 8 eexists; (split; [in_trace|split; [in_trace|]]).
  all: first [left; split; [solve [in_trace]|done]|right; split; [in_trace|]].
  all: repeat match goal with
       | E : _ ≫= nonzero_id_new = Some _ |- _ => apply expected_revision_some in E
       | E : negb _ = false |- _ => apply negb_false_iff, Z.eqb_eq in E
       end; lia.
Qed.

(** What the worker knows when it executes the business command. *)
Definition may_execute (before : Trace) (w : W) (claim : FencedClaim) (a : ScheduledAttempt) : Prop :=
  derive_for w (K_Business (work_business_command w)) = Some a /\
  EvResolve w a (Ok None) ∈ before /\
  (exists claim_attempt lease, EvClaim w claim_attempt lease (Ok (Acquired claim)) ∈ before) /\
  Forall (fun e => is_execute e = false) before.

Lemma execute_guarded policy t1 w claim a x t2 r :
  runs (run_once policy) (t1 ++ EvExecute w claim a x :: t2) r -> may_execute t1 w claim a.
Proof.
  intros Hr.
  enough (everywhere (fun before e _ => forall w claim a x, e = EvExecute w claim a x ->
            may_execute before w claim a) [] (t1 ++ EvExecute w claim a x :: t2)) as He.
  { rewrite everywhere_spec in He. by eapply (He t1). }
  remember (t1 ++ EvExecute w claim a x :: t2) as t eqn:Et. clear Et t1 t2 w claim a x.
  turn_cases Hr; cbn; split_and!; try done; intros; simplify_eq.
  all: split_and!; [done|in_trace|do 2 eexists; in_trace|by repeat constructor].
Qed.

(** ** Many turns *)

(** A sequence of turns, of any workers and policies, one after another; each
    may end anywhere a turn can end, so crashes before the acknowledgement and
    redeliveries are included. *)
Inductive turns : Trace -> Prop :=
  | turns_nil : turns []
  | turns_snoc h policy t r : turns h -> runs (run_once policy) t r -> turns (h ++ t).

(** The contract of [resolve_business]: it answers [None] for an attempt only
    if no execution under that attempt's idempotency key has succeeded. *)
Definition remembers_outcomes (h : Trace) : Prop :=
  forall t1 w a t2, h = t1 ++ EvResolve w a (Ok None) :: t2 ->
  forall w' claim a' business, EvExecute w' claim a' (Ok business) ∈ t1 ->
  sa_idempotency_key a' <> sa_idempotency_key a.

(** What a work item is, apart from how often it was delivered. *)
Definition business_identity (w : W) :=
  (work_schedule w, work_due w, work_target w, work_business_command w).

Lemma business_identity_key w w' a a' :
  business_identity w = business_identity w' ->
  derive_for w (K_Business (work_business_command w)) = Some a ->
  derive_for w' (K_Business (work_business_command w')) = Some a' ->
  sa_idempotency_key a = sa_idempotency_key a'.
Proof. intros [= Hs Hd Ht Hc]. unfold derive_for. rewrite Hs, Hd, Ht, Hc. congruence. Qed.

Lemma turns_execute_derived h w claim a x :
  turns h -> EvExecute w claim a x ∈ h ->
  derive_for w (K_Business (work_business_command w)) = Some a.
Proof.
  intros Hh. induction Hh as [|h policy t r Hh IH Hr]; [by intros ?%elem_of_nil|].
  intros [?|(t1 & t2 & ->)%list_elem_of_split]%elem_of_app; [auto|].
  by apply execute_guarded in Hr as [? _].
Qed.

Lemma app_cons_split {A} (h t t1 : list A) e t2 :
  h ++ t = t1 ++ e :: t2 ->
  (exists k, h = t1 ++ e :: k) \/ (exists k, t1 = h ++ k /\ t = k ++ e :: t2).
Proof.
  revert t1. induction h as [|x h IH]; intros [|y t1] E; cbn in *; simplify_eq; eauto.
  destruct (IH t1) as [[k ->]|(k & -> & ->)]; eauto.
Qed.

Lemma remembers_outcomes_prefix h k : remembers_outcomes (h ++ k) -> remembers_outcomes h.
Proof.
  intros Hlaw t1 w a t2 -> w' claim a' b Hin. apply (Hlaw t1 w a (t2 ++ k)) in Hin; [done|].
  by rewrite <- app_assoc.
Qed.

(** In a history that remembers outcomes, an execution's key is new. *)
Lemma executed_key_fresh h t1 w' claim' a' x t3 w claim a b :
  turns h -> remembers_outcomes h -> h = t1 ++ EvExecute w' claim' a' x :: t3 ->
  EvExecute w claim a (Ok b) ∈ t1 -> sa_idempotency_key a <> sa_idempotency_key a'.
Proof.
  intros Hh. revert t1 t3.
  induction Hh as [|h policy t r Hh IH Hr]; intros t1 t3 Hlaw E Hin;
    [by destruct t1|].
  apply app_cons_split in E as [[k ->]|(k & -> & ->)].
  { eapply IH; eauto using remembers_outcomes_prefix. }
  apply execute_guarded in Hr as (_ & (k1 & k2 & ->)%list_elem_of_split & _ & Hnone).
  apply (Hlaw (h ++ k1) w' a' (k2 ++ EvExecute w' claim' a' x :: t3)) with w claim b;
    [by rewrite <- !app_assoc|].
  apply elem_of_app in Hin as [?|Hin]; [by apply elem_of_app; left|].
  rewrite Forall_forall in Hnone. by apply Hnone in Hin.
Qed.

(** C23. Work is executed at most once: over any sequence of turns, however they
    end and however often the work is redelivered, if the application remembers
    business outcomes then two successful executions are of work with different
    schedule, due instant, target or command. *)
Theorem executed_at_most_once h t1 t2 t3 w claim a b w' claim' a' b' :
  turns h -> remembers_outcomes h ->
  h = t1 ++ EvExecute w claim a (Ok b) :: t2 ++ EvExecute w' claim' a' (Ok b') :: t3 ->
  business_identity w <> business_identity w'.
Proof.
  intros Hh Hlaw -> Hid.
  assert (derive_for w (K_Business (work_business_command w)) = Some a) as Ha.
  { eapply turns_execute_derived; [done|]. apply elem_of_app. right. apply list_elem_of_here. }
  assert (derive_for w' (K_Business (work_business_command w')) = Some a') as Ha'.
  { eapply turns_execute_derived; [done|]. apply elem_of_app. right.
    apply list_elem_of_further, elem_of_app. right. apply list_elem_of_here. }
  eapply (executed_key_fresh _ (t1 ++ EvExecute w claim a (Ok b) :: t2)); [done|done| | |].
  - by rewrite <- app_assoc.
  - apply elem_of_app. right. apply list_elem_of_here.
  - by eapply business_identity_key.
Qed.
End worker.

(** ** An application that remembers outcomes, for concrete runs

    Work is a due instant and a delivery number; the application pops
    deliveries from a queue and keeps the keys of the commands it executed. *)
Record Delivery := mkDelivery { dl_due : Z; dl_attempt : Z }.

#[export] Instance delivery_work : ScheduledWork Delivery := {|
  work_schedule _ := sample_schedule;
  work_due w := mkTimestamp (dl_due w) 0;
  work_target _ := sample_target;
  work_business_command _ := [Byte.x72; Byte.x75; Byte.x6e];
  work_attempt := dl_attempt;
|}.

Record SampleApp := mkSampleApp {
  app_queue : list Delivery;
  app_executed : list (list byte);
}.

Definition sample_handle (q : SchedCall Delivery unit) (s : SampleApp) : SampleApp * answer q :=
  match q with
  | QCancelled => (s, false)
  | QNext _ =>
      match app_queue s with
      | [] => (s, Ok None)
      | w :: rest => (mkSampleApp rest (app_executed s), Ok (Some w))
      end
  | QResolve _ a =>
      (s, Ok (if bool_decide (sa_idempotency_key a ∈ app_executed s)
              then Some (mkBusinessResolution 2 true) else None))
  | QClaim _ _ _ => (s, Ok (Acquired (mkFencedClaim [] 1 1)))
  | QExecute _ _ a =>
      (mkSampleApp (app_queue s) (sa_idempotency_key a :: app_executed s),
       Ok (mkBusinessResolution 2 false))
  | QRelease _ _ _ _ => (s, Ok Released)
  | QAck _ => (s, Ok Applied)
  | QNack _ _ => (s, Ok Applied)
  end.

Definition sample_policy : SchedulerPolicy := mkSchedulerPolicy 1 10 60 5 3600 (from_secs 30).

Definition sample_turn (s : SampleApp) :=
  exec sample_handle (run_once (fun l => l) sample_policy) s.

(** Two deliveries of the same work, then one of other work. *)
Definition sample_queue : SampleApp :=
  mkSampleApp [mkDelivery 60 1; mkDelivery 60 2; mkDelivery 120 1] [].
Definition turn_1 := Eval vm_compute in sample_turn sample_queue.
Definition turn_2 := Eval vm_compute in sample_turn turn_1.1.1.
Definition turn_3 := Eval vm_compute in sample_turn turn_2.1.1.

Lemma turn_runs s o : sample_turn s = o -> runs (run_once (fun l => l) sample_policy) o.1.2 o.2.
Proof. intros <-. apply exec_runs. Qed.

Lemma turn_1_runs : runs (run_once (fun l => l) sample_policy) turn_1.1.2 turn_1.2.
Proof. apply (turn_runs sample_queue). vm_compute. reflexivity. Qed.
Lemma turn_2_runs : runs (run_once (fun l => l) sample_policy) turn_2.1.2 turn_2.2.
Proof. apply (turn_runs turn_1.1.1). vm_compute. reflexivity. Qed.
Lemma turn_3_runs : runs (run_once (fun l => l) sample_policy) turn_3.1.2 turn_3.2.
Proof. apply (turn_runs turn_2.1.1). vm_compute. reflexivity. Qed.

Definition claim_fails (q : SchedCall Delivery unit) (s : SampleApp) : SampleApp * answer q :=
  match q with
  | QClaim _ _ _ => (s, Err tt)
  | q => sample_handle q s
  end.

Definition turn_failed :=
  Eval vm_compute in exec claim_fails (run_once (fun l => l) sample_policy) sample_queue.

Lemma run_once_error_exact_witness :
  exists e, e ∈ turn_failed.1.2 /\ failure_of e = Some (Claim, tt).
Proof.
  apply (run_once_error_exact (fun l => l) sample_policy turn_failed.1.2
    (Returned (Err (Application Claim tt)))); [|reflexivity].
  exact (exec_runs claim_fails (run_once (fun l => l) sample_policy) sample_queue).
Defined.

Lemma acknowledge_earned_witness :
  ready_to_acknowledge (removelast turn_2.1.2) (mkDelivery 60 2).
Proof.
  apply (acknowledge_earned (fun l => l) sample_policy _ _ (Ok Applied) [] turn_2.2).
  exact turn_2_runs.
Defined.

(** [remembers_outcomes], decided: [seen] are the keys executed so far. *)
Fixpoint outcomes_remembered {W F} (seen : list (list byte)) (h : list (SchedEvent W F)) : bool :=
  match h with
  | [] => true
  | EvResolve _ a (Ok None) :: h' =>
      bool_decide (sa_idempotency_key a ∉ seen) && outcomes_remembered seen h'
  | EvExecute _ _ a (Ok _) :: h' => outcomes_remembered (sa_idempotency_key a :: seen) h'
  | _ :: h' => outcomes_remembered seen h'
  end.

Lemma outcomes_remembered_sound {W F} seen (h : list (SchedEvent W F)) :
  outcomes_remembered seen h = true ->
  forall t1 w a t2, h = t1 ++ EvResolve w a (Ok None) :: t2 ->
  sa_idempotency_key a ∉ seen /\
  forall w' claim a' b, EvExecute w' claim a' (Ok b) ∈ t1 ->
  sa_idempotency_key a' <> sa_idempotency_key a.
Proof.
  intros Hc t1. revert seen h Hc. induction t1 as [|e t1 IH]; intros seen h Hc w a t2 ->.
  - cbn in Hc. apply andb_true_iff in Hc as [Hc%bool_decide_eq_true_1 _].
    split; [done|]. by intros ? ? ? ? ?%elem_of_nil.
  - assert (exists seen', seen ⊆ seen' /\ outcomes_remembered seen' (t1 ++ EvResolve w a (Ok None) :: t2) = true
            /\ forall w' claim a' b, e = EvExecute w' claim a' (Ok b) -> sa_idempotency_key a' ∈ seen')
      as (seen' & Hsub & Hc' & Hin).
    { cbn in Hc. destruct e as [| |? ? [[]|]| |? ? a' []| | |]; try (by exists seen).
      - apply andb_true_iff in Hc as [_ Hc]. by exists seen.
      - exists (sa_idempotency_key a' :: seen). split_and!; [|done|].
        + by intros ? ?; apply list_elem_of_further.
        + intros ? ? ? ? [= -> -> -> ->]. apply list_elem_of_here. }
    destruct (IH _ _ Hc' w a t2 eq_refl) as [Hseen Hold]. split; [auto|].
    intros w' claim a' b [<-|Hel]%elem_of_cons; [|eauto].
    intros E. apply Hseen. rewrite <- E. eauto.
Qed.

Lemma executed_at_most_once_witness :
  business_identity (mkDelivery 60 1) <> business_identity (mkDelivery 120 1).
Proof.
  eapply (executed_at_most_once (fun l => l)
    ((turn_1.1.2 ++ turn_2.1.2) ++ turn_3.1.2) (take 7 turn_1.1.2)
    (drop 8 turn_1.1.2 ++ turn_2.1.2 ++ take 7 turn_3.1.2) (drop 8 turn_3.1.2)).
  - exact (turns_snoc _ _ _ _ _ (turns_snoc _ _ _ _ _
      (turns_snoc _ [] _ _ _ (turns_nil _) turn_1_runs) turn_2_runs) turn_3_runs).
  - intros t1 w a t2 E. refine (proj2 (outcomes_remembered_sound [] _ _ t1 w a t2 E)).
    vm_compute. reflexivity.
  - vm_compute. reflexivity.
Defined.
