(* ===== verification/Admission.v ===== *)
(** * Durable admission of commands

    [riffdb-storage-api/src/admission.rs], [command.rs], [records.rs] (the
    records of an idempotent command) and the admission part of
    [riffdb-storage-redb/src/application.rs]: looking up the durable state of a
    set of candidate identities, admitting a group of commands in one write
    transaction and turning a pending admission into a terminal failure.

    A table is a finite map from the physical key, the bytes of
    [IdempotencyIdentityKey], to the decoded record; record codecs and I/O
    failures are not modelled.  The transient index from a key to the committed
    segment holding its outcome is a table too. *)

From S2P Require Import Prelude Decimal Value Key Reader Names Identity StorageBase.
From stdpp Require Import gmap list.

Local Open Scope Z_scope.

Definition MAX_READABLE_DIGEST_KEYS : Z := 8.
Definition MAX_GROUPED_WRITE_TRANSITIONS : Z := 256.

#[export] Instance CanonicalValue_eq_dec : EqDecision CanonicalValue.
Proof.
  unfold EqDecision. fix go 1. intros x y.
  refine (
    match x, y with
    | VList l, VList k => cast_if (@list_eq_dec _ go l k)
    | VRecord l, VRecord k => cast_if (@list_eq_dec _ (@prod_eq_dec _ _ _ go) l k)
    | VNull, VNull => left eq_refl
    | VBool a, VBool b => cast_if (decide (a = b))
    | VI64 a, VI64 b => cast_if (decide (a = b))
    | VU64 a, VU64 b => cast_if (decide (a = b))
    | VDecimal a, VDecimal b => cast_if (decide (a = b))
    | VMoney a, VMoney b => cast_if (decide (a = b))
    | VString a, VString b => cast_if (decide (a = b))
    | VBytes a, VBytes b => cast_if (decide (a = b))
    | VTimestamp a, VTimestamp b => cast_if (decide (a = b))
    | VDate a, VDate b => cast_if (decide (a = b))
    | VUuid a, VUuid b => cast_if (decide (a = b))
    | VEnum a c, VEnum b d => cast_if_and (decide (a = b)) (decide (c = d))
    | VVector a, VVector b => cast_if (decide (a = b))
    | _, _ => right _
    end); abstract congruence.
Defined.

(** ** Records *)
Record ExecutablePlanRef := mkExecutablePlanRef {
  pr_contract_lineage : list byte;
  pr_contract_version : Z;
  pr_contract_bundle_hash : list byte;
  pr_command_id : Z;
  pr_command_plan_hash : list byte;
}.

Inductive ActorKind := Human | Agent | Service.

Record AdmittedActorContext := mkAdmittedActorContext {
  ac_principal_id : list byte;
  ac_actor_kind : ActorKind;
  ac_tenant_scope : TenantScope;
  ac_agent_session_id : option (list byte);
}.

Record StoredAdmittedProvenanceClaimsV1 := mkProvenanceClaims {
  pc_source_repository : option (list byte);
  pc_source_commit : option (list byte);
  pc_reason : option (list byte);
  pc_approval_id : option (list byte);
}.

Record StoredCommandCausationV1 := mkCausation {
  cc_causing_event_id : EventId;
  cc_root_request_id : list byte;
}.

Record StoredPendingAdmissionV1 := mkPending {
  pa_identity : IdempotencyIdentity;
  pa_canonical_input_hash : list byte;
  pa_admission_request_id : list byte;
  pa_plan : ExecutablePlanRef;
  pa_logical_time : Timestamp;
  pa_actor : AdmittedActorContext;
  pa_partition_key : list byte;
  pa_provenance_claims : StoredAdmittedProvenanceClaimsV1;
  pa_causation : option StoredCommandCausationV1;
  pa_service_values : list (Z * CanonicalValue);
}.

Inductive DurabilityMode := Sync | Group | Memory.

Record DeclaredOutcome := mkDeclaredOutcome {
  do_outcome_id : Z;
  do_value : list (Z * CanonicalValue);
}.

Record StoredOutcomeV1 := mkOutcome {
  so_identity : IdempotencyIdentity;
  so_commit_sequence : Z;
  so_admission_request_id : list byte;
  so_plan : ExecutablePlanRef;
  so_canonical_input_hash : list byte;
  so_actor : AdmittedActorContext;
  so_logical_time : Timestamp;
  so_partition_key : list byte;
  so_partition_hash : list byte;
  so_conflict_hashes : list (list byte);
  so_declared_outcome : DeclaredOutcome;
  so_admitted_claims : StoredAdmittedProvenanceClaimsV1;
  so_provenance_id : list byte;
  so_durability_mode : DurabilityMode;
  so_causation : option StoredCommandCausationV1;
  so_service_values : list (Z * CanonicalValue);
}.

Inductive ExecutionFailureCode := ArithmeticFault | ResourceLimit | UniqueConflict.

Record StoredExecutionFailedV1 := mkExecutionFailed {
  ef_pending : StoredPendingAdmissionV1;
  ef_code : ExecutionFailureCode;
}.

#[export] Instance ExecutablePlanRef_eq_dec : EqDecision ExecutablePlanRef.
Proof. solve_decision. Defined.
#[export] Instance ActorKind_eq_dec : EqDecision ActorKind.
Proof. solve_decision. Defined.
#[export] Instance AdmittedActorContext_eq_dec : EqDecision AdmittedActorContext.
Proof. solve_decision. Defined.
#[export] Instance ProvenanceClaims_eq_dec : EqDecision StoredAdmittedProvenanceClaimsV1.
Proof. solve_decision. Defined.
#[export] Instance Causation_eq_dec : EqDecision StoredCommandCausationV1.
Proof. solve_decision. Defined.
#[export] Instance Pending_eq_dec : EqDecision StoredPendingAdmissionV1.
Proof. solve_decision. Defined.
#[export] Instance DurabilityMode_eq_dec : EqDecision DurabilityMode.
Proof. solve_decision. Defined.
#[export] Instance DeclaredOutcome_eq_dec : EqDecision DeclaredOutcome.
Proof. solve_decision. Defined.
#[export] Instance Outcome_eq_dec : EqDecision StoredOutcomeV1.
Proof. solve_decision. Defined.
#[export] Instance ExecutionFailureCode_eq_dec : EqDecision ExecutionFailureCode.
Proof. solve_decision. Defined.
#[export] Instance ExecutionFailed_eq_dec : EqDecision StoredExecutionFailedV1.
Proof. solve_decision. Defined.

Inductive StoredAdmissionStateV1 :=
  | Pending (value : StoredPendingAdmissionV1)
  | StoredOutcome (value : StoredOutcomeV1)
  | ExecutionFailed (value : StoredExecutionFailedV1).

#[export] Instance StoredAdmissionState_eq_dec : EqDecision StoredAdmissionStateV1.
Proof. solve_decision. Defined.

Definition state_identity (s : StoredAdmissionStateV1) : IdempotencyIdentity :=
  match s with
  | Pending value => pa_identity value
  | StoredOutcome value => so_identity value
  | ExecutionFailed value => pa_identity (ef_pending value)
  end.

Definition state_input_hash (s : StoredAdmissionStateV1) : list byte :=
  match s with
  | Pending value => pa_canonical_input_hash value
  | StoredOutcome value => so_canonical_input_hash value
  | ExecutionFailed value => pa_canonical_input_hash (ef_pending value)
  end.

Inductive AdmissionResultV1 :=
  | Created (value : StoredPendingAdmissionV1)
  | Resumed (value : StoredPendingAdmissionV1)
  | ResultOutcome (value : StoredOutcomeV1)
  | ResultExecutionFailed (value : StoredExecutionFailedV1)
  | ResultInputMismatch
  | ResultMultipleMatches.

Inductive AdmissionLookupResultV1 :=
  | NotFound
  | Found (state : StoredAdmissionStateV1)
  | MultipleMatches.

(** ** Candidate identities *)

(** The six fields of an identity other than the caller-key digest. *)
Definition same_scope (a b : IdempotencyIdentity) : bool :=
  bool_decide (ii_database_id a = ii_database_id b)
  && bool_decide (ii_environment a = ii_environment b)
  && bool_decide (ii_tenant_scope a = ii_tenant_scope b)
  && bool_decide (ii_principal_id a = ii_principal_id b)
  && bool_decide (ii_contract_lineage a = ii_contract_lineage b)
  && (ii_command_id a =? ii_command_id b).

(** [enumerate().any(|(index, c)| candidates[..index].iter().any(..))] *)
Fixpoint repeated_digest (prior : list IdempotencyIdentity) (l : list IdempotencyIdentity) : bool :=
  match l with
  | [] => false
  | c :: l' =>
      existsb (fun p => bool_decide (ii_caller_key_digest p = ii_caller_key_digest c)) prior
      || repeated_digest (prior ++ [c]) l'
  end.

Definition lookup_candidates_new (candidates : list IdempotencyIdentity) :
    result StorageValueError (list IdempotencyIdentity) :=
  match candidates with
  | [] => Err SV_Empty
  | first :: rest =>
      if MAX_READABLE_DIGEST_KEYS <? zlen candidates then Err SV_LimitExceeded
      else if negb (forallb (fun candidate => same_scope candidate first) rest)
      then Err SV_IdentityMismatch
      else if repeated_digest [] candidates then Err SV_Duplicate
      else Ok candidates
  end.

Record AdmissionRequestV1 := mkAdmissionRequest {
  ar_lookup_candidates : list IdempotencyIdentity;
  ar_proposed_pending : StoredPendingAdmissionV1;
}.

Definition admission_request_new (lookup_candidates : list IdempotencyIdentity)
    (proposed_pending : StoredPendingAdmissionV1) : result StorageValueError AdmissionRequestV1 :=
  if negb (bool_decide (head lookup_candidates = Some (pa_identity proposed_pending)))
  then Err SV_IdentityMismatch
  else Ok (mkAdmissionRequest lookup_candidates proposed_pending).

(** ** Tables *)

Record CommandSegment := mkCommandSegment {
  seg_first_commit_sequence : Z;
  seg_last_commit_sequence : Z;
  seg_commands : list (Z * StoredOutcomeV1);
}.

Inductive CommandDerivedMember := MemberCommand | AuditStarted | AuditTerminal | MemberEvent.

Record CommandDerivedLocator := mkCommandDerivedLocator {
  loc_segment_first : Z;
  loc_command_ordinal : nat;
  loc_member_ordinal : Z;
  loc_member : CommandDerivedMember;
}.

Inductive IdempotencyRecordV1 :=
  | R_StoredOutcome (value : StoredOutcomeV1)
  | R_ExecutionFailed (value : StoredExecutionFailedV1)
  | R_CommandLocator (commit_sequence : Z).

Abbreviation PhysicalKey := (list byte).

(** A row of the commits table: a segment with the entries of its manifest
    (whether the entry is an idempotency entry, its exact key, its locator), a
    record of another type, or bytes that do not decode. *)
Inductive CommitRow :=
  | SegmentRow (segment : CommandSegment) (entries : list (bool * PhysicalKey * CommandDerivedLocator))
  | OtherRecordRow
  | UndecodableRow (error : StorageErrorKind).

Record AdmissionTables := mkAdmissionTables {
  at_pending : gmap PhysicalKey StoredPendingAdmissionV1;
  at_terminal : gmap PhysicalKey IdempotencyRecordV1;
  (** commit sequence to the capsule stored there: its own sequence and outcome *)
  at_members : gmap Z (Z * StoredOutcomeV1);
  at_index : gmap PhysicalKey (CommandSegment * CommandDerivedLocator);
  (** retired bundle hash to the parent the retirement names *)
  at_retirements : gmap PhysicalKey PhysicalKey;
  (** lineage and version to the bundle's lineage, version and hash *)
  at_bundles : gmap (PhysicalKey * Z) (PhysicalKey * Z * PhysicalKey);
  (** the last visible commit, the last checkpointed one, the last indexed one *)
  at_frontier : option Z;
  at_checkpoint_frontier : option Z;
  at_derived_frontier : option Z;
  (** the commits rows between two sequences *)
  at_commit_rows : Z -> Z -> Storage (list CommitRow);
}.

(** Replacing the pending and the terminal table. *)
Definition with_rows (t : AdmissionTables) (pending : gmap PhysicalKey StoredPendingAdmissionV1)
    (terminal : gmap PhysicalKey IdempotencyRecordV1) : AdmissionTables :=
  mkAdmissionTables pending terminal (at_members t) (at_index t) (at_retirements t) (at_bundles t)
    (at_frontier t) (at_checkpoint_frontier t) (at_derived_frontier t) (at_commit_rows t).

Definition identity_key (identity : IdempotencyIdentity) : Storage PhysicalKey :=
  map_err (fun _ => InvariantViolation) (from_identity identity).

Definition command_outcome_from_member (segment : CommandSegment) (locator : CommandDerivedLocator)
    (identity : IdempotencyIdentity) : Storage StoredOutcomeV1 :=
  match loc_member locator with
  | AuditStarted | AuditTerminal | MemberEvent => Err CorruptData
  | MemberCommand =>
      if negb (loc_member_ordinal locator =? 0) then Err CorruptData
      else match seg_commands segment !! loc_command_ordinal locator with
           | None => Err CorruptData
           | Some (commit_sequence, outcome) =>
               if negb (bool_decide (so_identity outcome = identity))
                  || (commit_sequence <? seg_first_commit_sequence segment)
                  || (seg_last_commit_sequence segment <? commit_sequence)
               then Err CorruptData
               else Ok outcome
           end
  end.

Definition command_outcome_from_write_indexes (t : AdmissionTables) (identity : IdempotencyIdentity) :
    Storage (option StoredOutcomeV1) :=
  key ← identity_key identity;
  match at_index t !! key with
  | None => Ok None
  | Some (segment, locator) => Some <$> command_outcome_from_member segment locator identity
  end.

Definition command_derived_index_covers (checkpoint derived : option Z) (captured : Z) : bool :=
  bool_decide (checkpoint = Some captured)
  || match derived with Some frontier => captured <=? frontier | None => false end.

(** The fallback: scan the commits between the checkpoint and the frontier; a
    second segment naming the key is corruption. *)
Fixpoint scan_commits (key : PhysicalKey) (identity : IdempotencyIdentity)
    (found : option StoredOutcomeV1) (rows : list CommitRow) : Storage (option StoredOutcomeV1) :=
  match rows with
  | [] => Ok found
  | OtherRecordRow :: rest => scan_commits key identity found rest
  | UndecodableRow error :: _ => Err error
  | SegmentRow segment entries :: rest =>
      match find (fun e => e.1.1 && bool_decide (e.1.2 = key)) entries with
      | None => scan_commits key identity found rest
      | Some (_, _, locator) =>
          outcome ← command_outcome_from_member segment locator identity;
          match found with
          | Some _ => Err CorruptData
          | None => scan_commits key identity (Some outcome) rest
          end
      end
  end.

(** [CommitSequence::checked_next], or the first sequence without a checkpoint. *)
Definition sequence_after (checkpoint : option Z) : Z :=
  default 1 (sequence ← checkpoint; u_checked 64 (sequence + 1)).

Definition command_outcome_from_operational_indexes (t : AdmissionTables)
    (identity : IdempotencyIdentity) : Storage (option StoredOutcomeV1) :=
  key ← identity_key identity;
  match at_frontier t with
  | None => Ok None
  | Some frontier =>
      let scan :=
        if command_derived_index_covers (at_checkpoint_frontier t) (at_derived_frontier t) frontier
        then Ok None
        else
          let first := sequence_after (at_checkpoint_frontier t) in
          if frontier <? first then Ok None
          else rows ← at_commit_rows t first frontier; scan_commits key identity None rows in
      match at_index t !! key with
      | Some (segment, locator) =>
          if loc_segment_first locator <=? frontier
          then Some <$> command_outcome_from_member segment locator identity
          else scan
      | None => scan
      end
  end.

(** The last two steps every lookup shares: the physical and the derived
    terminal record must agree, and at most one of pending and terminal may be
    present, for the identity asked for. *)
Definition merge_terminal (physical : option IdempotencyRecordV1) (derived : option StoredOutcomeV1) :
    Storage (option IdempotencyRecordV1) :=
  match physical, derived with
  | None, None => Ok None
  | None, Some value => Ok (Some (R_StoredOutcome value))
  | Some value, None => Ok (Some value)
  | Some (R_StoredOutcome physical), Some derived =>
      if bool_decide (physical = derived) then Ok (Some (R_StoredOutcome physical))
      else Err CorruptData
  | _, _ => Err CorruptData
  end.

Definition single_state (identity : IdempotencyIdentity) (pending : option StoredPendingAdmissionV1)
    (terminal : option IdempotencyRecordV1) : Storage (option StoredAdmissionStateV1) :=
  match pending, terminal with
  | None, None => Ok None
  | Some value, None =>
      if bool_decide (pa_identity value = identity) then Ok (Some (Pending value))
      else Err CorruptData
  | None, Some (R_StoredOutcome value) =>
      if bool_decide (so_identity value = identity) then Ok (Some (StoredOutcome value))
      else Err CorruptData
  | None, Some (R_ExecutionFailed value) =>
      if bool_decide (pa_identity (ef_pending value) = identity)
      then Ok (Some (ExecutionFailed value)) else Err CorruptData
  | _, _ => Err CorruptData
  end.

(** A locator row stands for the outcome of the capsule it points to. *)
Definition resolve_locator (t : AdmissionTables) (terminal : option IdempotencyRecordV1) :
    Storage (option IdempotencyRecordV1) :=
  match terminal with
  | Some (R_CommandLocator commit_sequence) =>
      match at_members t !! commit_sequence with
      | None => Err CorruptData
      | Some (capsule_sequence, outcome) =>
          if negb (capsule_sequence =? commit_sequence) then Err CorruptData
          else Ok (Some (R_StoredOutcome outcome))
      end
  | other => Ok other
  end.

Definition read_admission_from_tables (t : AdmissionTables) (identity : IdempotencyIdentity)
    (derived : option StoredOutcomeV1) : Storage (option StoredAdmissionStateV1) :=
  key ← identity_key identity;
  let pending := at_pending t !! key in
  physical ← resolve_locator t (at_terminal t !! key);
  terminal ← merge_terminal physical derived;
  single_state identity pending terminal.

(** Inside a write transaction: a locator row must be confirmed by the index. *)
Definition read_admission (t : AdmissionTables) (identity : IdempotencyIdentity) :
    Storage (option StoredAdmissionStateV1) :=
  key ← identity_key identity;
  let pending := at_pending t !! key in
  derived ← command_outcome_from_write_indexes t identity;
  terminal ←
    match at_terminal t !! key, derived with
    | Some (R_CommandLocator commit_sequence), Some value =>
        if commit_sequence =? so_commit_sequence value
        then Ok (Some (R_StoredOutcome value)) else Err CorruptData
    | physical, derived => merge_terminal physical derived
    end;
  single_state identity pending terminal.

(** [for identity in candidates { if let Some(value) = read(identity)? { push } }] *)
Fixpoint collect_matches (read : IdempotencyIdentity -> Storage (option StoredAdmissionStateV1))
    (candidates : list IdempotencyIdentity) : Storage (list StoredAdmissionStateV1) :=
  match candidates with
  | [] => Ok []
  | identity :: rest =>
      value ← read identity;
      matches ← collect_matches read rest;
      Ok (match value with Some v => v :: matches | None => matches end)
  end.

Definition matching_admissions (t : AdmissionTables) : list IdempotencyIdentity ->
    Storage (list StoredAdmissionStateV1) :=
  collect_matches (read_admission t).

Definition matching_admissions_from_tables (t : AdmissionTables) : list IdempotencyIdentity ->
    Storage (list StoredAdmissionStateV1) :=
  collect_matches (fun identity =>
    derived ← command_outcome_from_write_indexes t identity;
    read_admission_from_tables t identity derived).

(** Outside a write transaction: the same, with the index bounded by the
    frontier the reader captured. *)
Definition matching_admissions_from_access (t : AdmissionTables) : list IdempotencyIdentity ->
    Storage (list StoredAdmissionStateV1) :=
  collect_matches (fun identity =>
    key ← identity_key identity;
    let pending := at_pending t !! key in
    physical ← resolve_locator t (at_terminal t !! key);
    derived ← command_outcome_from_operational_indexes t identity;
    terminal ← merge_terminal physical derived;
    single_state identity pending terminal).

Definition admission_result (existing : StoredAdmissionStateV1) (proposed : StoredPendingAdmissionV1) :
    AdmissionResultV1 :=
  if negb (bool_decide (state_input_hash existing = pa_canonical_input_hash proposed))
  then ResultInputMismatch
  else match existing with
       | Pending value => Resumed value
       | StoredOutcome value => ResultOutcome value
       | ExecutionFailed value => ResultExecutionFailed value
       end.

Definition plan_bundle_exists (t : AdmissionTables) (plan : ExecutablePlanRef) : Storage bool :=
  match at_retirements t !! pr_contract_bundle_hash plan with
  | Some parent =>
      if negb (bool_decide (parent = pr_contract_bundle_hash plan)) then Err CorruptData
      else Ok false
  | None =>
      match at_bundles t !! (pr_contract_lineage plan, pr_contract_version plan) with
      | None => Ok false
      | Some (lineage, version, hash) =>
          Ok (bool_decide (lineage = pr_contract_lineage plan)
              && (version =? pr_contract_version plan)
              && bool_decide (hash = pr_contract_bundle_hash plan))
      end
  end.

(** ** Admitting a group *)

Record PreparedAdmission := mkPreparedAdmission {
  prep_result : AdmissionResultV1;
  prep_encoded : option (PhysicalKey * StoredPendingAdmissionV1);
}.

(** The pending admissions created earlier in the group that [request] names. *)
Definition prior_matches (prepared : list PreparedAdmission) (request : AdmissionRequestV1) :
    list StoredAdmissionStateV1 :=
  omap (fun prior =>
    match prep_result prior with
    | Created pending =>
        if bool_decide (pa_identity pending ∈ ar_lookup_candidates request)
        then Some (Pending pending) else None
    | _ => None
    end) prepared.

Definition prepare_admission (t : AdmissionTables) (prepared : list PreparedAdmission)
    (request : AdmissionRequestV1) : Storage PreparedAdmission :=
  stored ← matching_admissions_from_tables t (ar_lookup_candidates request);
  match stored ++ prior_matches prepared request with
  | _ :: _ :: _ => Ok (mkPreparedAdmission ResultMultipleMatches None)
  | [existing] =>
      Ok (mkPreparedAdmission (admission_result existing (ar_proposed_pending request)) None)
  | [] =>
      exists_ ← plan_bundle_exists t (pa_plan (ar_proposed_pending request));
      if negb exists_ then Err InvariantViolation
      else
        key ← identity_key (pa_identity (ar_proposed_pending request));
        Ok (mkPreparedAdmission (Created (ar_proposed_pending request))
              (Some (key, ar_proposed_pending request)))
  end.

Fixpoint prepare_group (t : AdmissionTables) (prepared : list PreparedAdmission)
    (requests : list AdmissionRequestV1) : Storage (list PreparedAdmission) :=
  match requests with
  | [] => Ok prepared
  | request :: rest =>
      result ← prepare_admission t prepared request;
      prepare_group t (prepared ++ [result]) rest
  end.

Definition insert_pending (t : AdmissionTables) (key : PhysicalKey)
    (value : StoredPendingAdmissionV1) : Storage AdmissionTables :=
  match at_pending t !! key with
  | Some _ => Err InvariantViolation
  | None =>
      Ok (with_rows t (<[key := value]> (at_pending t)) (at_terminal t))
  end.

Fixpoint insert_prepared (t : AdmissionTables) (prepared : list PreparedAdmission) :
    Storage AdmissionTables :=
  match prepared with
  | [] => Ok t
  | admission :: rest =>
      t' ← match prep_encoded admission with
           | Some (key, value) => insert_pending t key value
           | None => Ok t
           end;
      insert_prepared t' rest
  end.

Definition stage_admission_group (t : AdmissionTables) (requests : list AdmissionRequestV1) :
    Storage (AdmissionTables * list (AdmissionResultV1 * bool)) :=
  if bool_decide (requests = []) || (MAX_GROUPED_WRITE_TRANSITIONS <? zlen requests)
  then Err LimitExceeded
  else
    prepared ← prepare_group t [] requests;
    t' ← insert_prepared t prepared;
    Ok (t', map (fun a => (prep_result a, bool_decide (is_Some (prep_encoded a)))) prepared).

(** The write transaction around it: nothing is written when it fails or when
    nothing was created. *)
Definition admit_or_resolve_group (requests : list AdmissionRequestV1) :
    SE AdmissionTables StorageErrorKind (list AdmissionResultV1) := fun t =>
  if bool_decide (requests = []) || (MAX_GROUPED_WRITE_TRANSITIONS <? zlen requests)
  then (t, Err LimitExceeded)
  else match stage_admission_group t requests with
       | Err e => (t, Err e)
       | Ok (t', staged) =>
           let created_any := existsb snd staged in
           ((if created_any then t' else t), Ok (map fst staged))
       end.

(** [results.pop()] of a group of one. *)
Definition admit_or_resolve (request : AdmissionRequestV1) :
    SE AdmissionTables StorageErrorKind AdmissionResultV1 :=
  results ← admit_or_resolve_group [request];
  lift (ok_or (last results) InvariantViolation).

Definition lookup_result (matches : list StoredAdmissionStateV1) : AdmissionLookupResultV1 :=
  match matches with
  | [] => NotFound
  | [value] => Found value
  | _ :: _ :: _ => MultipleMatches
  end.

Fixpoint lookup_each (t : AdmissionTables) (group : list (list IdempotencyIdentity)) :
    Storage (list AdmissionLookupResultV1) :=
  match group with
  | [] => Ok []
  | candidates :: rest =>
      matches ← matching_admissions_from_access t candidates;
      results ← lookup_each t rest;
      Ok (lookup_result matches :: results)
  end.

Definition lookup_admission_group (t : AdmissionTables) (group : list (list IdempotencyIdentity)) :
    Storage (list AdmissionLookupResultV1) :=
  if bool_decide (group = []) || (MAX_GROUPED_WRITE_TRANSITIONS <? zlen group)
  then Err LimitExceeded
  else lookup_each t group.

Definition lookup_admission (t : AdmissionTables) (candidates : list IdempotencyIdentity) :
    Storage AdmissionLookupResultV1 :=
  results ← lookup_admission_group t [candidates];
  ok_or (last results) InvariantViolation.

(** ** Recording a deterministic failure *)

Inductive CommandAdmissionExpectationV1 :=
  | ExistingPending
  | Vacant (candidates : list IdempotencyIdentity).

(** [D] is the dependency evidence of the command's reads, compared as a whole. *)
Record ExecutionFailureTransitionRequestV1 (D : Type) := mkFailureRequest {
  fr_expected_pending : StoredPendingAdmissionV1;
  fr_admission_expectation : CommandAdmissionExpectationV1;
  fr_read_dependencies : D;
  fr_code : ExecutionFailureCode;
}.
Arguments mkFailureRequest {D}.
Arguments fr_expected_pending {D}.
Arguments fr_admission_expectation {D}.
Arguments fr_read_dependencies {D}.
Arguments fr_code {D}.

Definition terminal_record {D} (request : ExecutionFailureTransitionRequestV1 D) :
    StoredExecutionFailedV1 :=
  mkExecutionFailed (fr_expected_pending request) (fr_code request).

Inductive ExecutionFailureAdmissionResult :=
  | Rechecked
  | Missing
  | PendingMismatch
  | FailureStoredOutcome (value : StoredOutcomeV1)
  | FailureExecutionFailed (value : StoredExecutionFailedV1).

Section failures.
Context {D : Type} `{EqDecision D}.

Definition begin_execution_failure (t : AdmissionTables)
    (request : ExecutionFailureTransitionRequestV1 D) : Storage ExecutionFailureAdmissionResult :=
  let decide_state (state : option StoredAdmissionStateV1) :=
    match state with
    | None =>
        match fr_admission_expectation request with
        | Vacant _ => Rechecked
        | ExistingPending => Missing
        end
    | Some (Pending value) =>
        if bool_decide (value = fr_expected_pending request) then Rechecked else PendingMismatch
    | Some (StoredOutcome value) => FailureStoredOutcome value
    | Some (ExecutionFailed value) => FailureExecutionFailed value
    end in
  match fr_admission_expectation request with
  | ExistingPending =>
      state ← read_admission t (pa_identity (fr_expected_pending request));
      Ok (decide_state state)
  | Vacant candidates =>
      matches ← matching_admissions t candidates;
      match matches with
      | _ :: _ :: _ => Ok PendingMismatch
      | [] => Ok (decide_state None)
      | [state] => Ok (decide_state (Some state))
      end
  end.

(** The admission part of [terminalize_inner]; [current] is the evidence read in
    the same transaction.  A failing transaction is rolled back. *)
Definition terminalize (request : ExecutionFailureTransitionRequestV1 D) (current : Storage D) :
    SE AdmissionTables StorageErrorKind StoredExecutionFailedV1 := fun t =>
  let outcome :=
    current ← current;
    _ ← (if negb (bool_decide (current = fr_read_dependencies request))
         then Err InvariantViolation else Ok tt);
    let terminal := terminal_record request in
    exists_ ← plan_bundle_exists t (pa_plan (fr_expected_pending request));
    _ ← (if negb exists_ then Err InvariantViolation else Ok tt);
    _ ← match fr_admission_expectation request with
        | ExistingPending =>
            state ← read_admission t (pa_identity (fr_expected_pending request));
            if negb (bool_decide (state = Some (Pending (fr_expected_pending request))))
            then Err InvariantViolation else Ok tt
        | Vacant candidates =>
            matches ← matching_admissions t candidates;
            if negb (bool_decide (matches = [])) then Err InvariantViolation else Ok tt
        end;
    key ← identity_key (pa_identity (fr_expected_pending request));
    pending ← match fr_admission_expectation request with
              | ExistingPending =>
                  match at_pending t !! key with
                  | None => Err InvariantViolation
                  | Some _ => Ok (delete key (at_pending t))
                  end
              | Vacant _ => Ok (at_pending t)
              end;
    match at_terminal t !! key with
    | Some _ => Err InvariantViolation
    | None => Ok (with_rows t pending (<[key := R_ExecutionFailed terminal]> (at_terminal t)), terminal)
    end in
  match outcome with
  | Ok (t', terminal) => (t', Ok terminal)
  | Err e => (t, Err e)
  end.
End failures.
