(* ===== verification/AdmissionSpec.v ===== *)
(** * Admission is sequential and exact

    The tables of [Admission] under their invariant [tables_wf], against an
    abstract state: the function [admitted] from a key to the one admission
    state stored under it.

    The theorems: lookups return exactly the abstract states of the candidates
    and never meet corrupt data; staging a group does what admitting its
    requests one after another would, with the same result for each; recording
    a failure replaces exactly the pending state it expected. *)

From S2P Require Import Prelude Decimal Value Key Reader Names Identity StorageBase Admission.
From stdpp Require Import gmap list.

Local Open Scope Z_scope.

#[local] Opaque key_bytes.

(** ** Invariant of the tables *)

Definition keyed (identity : IdempotencyIdentity) (key : PhysicalKey) : Prop :=
  identity_wf identity /\ key = key_bytes identity.

Definition member_outcome (m : CommandSegment * CommandDerivedLocator) : option StoredOutcomeV1 :=
  snd <$> seg_commands m.1 !! loc_command_ordinal m.2.

Record tables_wf (t : AdmissionTables) : Prop := {
  tw_pending k p : at_pending t !! k = Some p -> keyed (pa_identity p) k;
  tw_exclusive k p : at_pending t !! k = Some p -> at_terminal t !! k = None /\ at_index t !! k = None;
  tw_outcome k o : at_terminal t !! k = Some (R_StoredOutcome o) -> keyed (so_identity o) k;
  tw_failed k f :
    at_terminal t !! k = Some (R_ExecutionFailed f) ->
    keyed (pa_identity (ef_pending f)) k /\ at_index t !! k = None;
  (** a locator row and the index point to the same committed outcome *)
  tw_locator k seq :
    at_terminal t !! k = Some (R_CommandLocator seq) ->
    exists m o, at_index t !! k = Some m /\ member_outcome m = Some o /\
      at_members t !! seq = Some (seq, o) /\ so_commit_sequence o = seq;
  tw_index k m :
    at_index t !! k = Some m ->
    exists o, member_outcome m = Some o /\ keyed (so_identity o) k /\
      command_outcome_from_member m.1 m.2 (so_identity o) = Ok o;
  tw_agree k m o :
    at_index t !! k = Some m -> at_terminal t !! k = Some (R_StoredOutcome o) ->
    member_outcome m = Some o;
  (** the index covers what a reader can see *)
  tw_frontier :
    match at_frontier t with
    | None => at_index t = ∅
    | Some f =>
        command_derived_index_covers (at_checkpoint_frontier t) (at_derived_frontier t) f = true /\
        forall k m, at_index t !! k = Some m -> loc_segment_first m.2 <= f
    end;
}.

(** The abstract state: what is admitted under a key. *)
Definition admitted (t : AdmissionTables) (key : PhysicalKey) : option StoredAdmissionStateV1 :=
  match at_pending t !! key with
  | Some p => Some (Pending p)
  | None =>
      match at_index t !! key with
      | Some m => StoredOutcome <$> member_outcome m
      | None =>
          match at_terminal t !! key with
          | Some (R_StoredOutcome o) => Some (StoredOutcome o)
          | Some (R_ExecutionFailed f) => Some (ExecutionFailed f)
          | _ => None
          end
      end
  end.

(** ** Reading well-formed tables *)
Section reading.
Context (t : AdmissionTables) (Ht : tables_wf t).

Lemma identity_key_wf i : identity_wf i -> identity_key i = Ok (key_bytes i).
Proof. intros H. unfold identity_key. by rewrite from_identity_bytes. Qed.

Lemma keyed_same i j k : keyed i k -> identity_wf j -> k = key_bytes j -> i = j.
Proof. intros [Hi ->] Hj E. by apply key_bytes_inj. Qed.

Lemma index_member i m :
  identity_wf i -> at_index t !! key_bytes i = Some m ->
  exists o, member_outcome m = Some o /\ so_identity o = i /\
    command_outcome_from_member m.1 m.2 i = Ok o.
Proof.
  intros Hi E. destruct (tw_index t Ht _ _ E) as (o & Ho & Hk & Hm).
  exists o. assert (so_identity o = i) as <- by (by eapply keyed_same). done.
Qed.

Lemma write_indexes_spec i :
  identity_wf i ->
  command_outcome_from_write_indexes t i = Ok (at_index t !! key_bytes i ≫= member_outcome).
Proof.
  intros Hi. unfold command_outcome_from_write_indexes. rewrite identity_key_wf by done.
  cbn [mbind result_bind]. destruct (at_index t !! key_bytes i) as [[seg loc]|] eqn:E; [|done].
  destruct (index_member i _ Hi E) as (o & Ho & _ & Hm). cbn in Hm. rewrite Hm. cbn. by rewrite Ho.
Qed.

Lemma operational_indexes_spec i :
  identity_wf i ->
  command_outcome_from_operational_indexes t i = Ok (at_index t !! key_bytes i ≫= member_outcome).
Proof.
  intros Hi. unfold command_outcome_from_operational_indexes. rewrite identity_key_wf by done.
  cbn [mbind result_bind]. pose proof (tw_frontier t Ht) as Hf.
  destruct (at_frontier t) as [f|]; [|by rewrite Hf, lookup_empty].
  destruct Hf as [-> Hle].
  destruct (at_index t !! key_bytes i) as [[seg loc]|] eqn:E; [|done].
  destruct (index_member i _ Hi E) as (o & Ho & _ & Hm). cbn in Hm.
  specialize (Hle _ _ E). cbn in Hle. rewrite (proj2 (Z.leb_le _ _) Hle), Hm. cbn. by rewrite Ho.
Qed.

Lemma state_of_rows i physical :
  identity_wf i -> resolve_locator t (at_terminal t !! key_bytes i) = Ok physical ->
  (terminal ← merge_terminal physical (at_index t !! key_bytes i ≫= member_outcome);
   single_state i (at_pending t !! key_bytes i) terminal) = Ok (admitted t (key_bytes i)).
Proof.
  intros Hi Hphys. unfold admitted.
  destruct (at_pending t !! key_bytes i) as [p|] eqn:Ep.
  { destruct (tw_exclusive t Ht _ _ Ep) as [Et Ei]. rewrite Et in Hphys. injection Hphys as <-.
    rewrite Ei. cbn. assert (pa_identity p = i) as <- by (eapply keyed_same; eauto using tw_pending).
    by rewrite bool_decide_eq_true_2. }
  destruct (at_index t !! key_bytes i) as [m|] eqn:Ei; cbn [mbind option_bind].
  - destruct (index_member i m Hi Ei) as (o & Hm & Ho & _). rewrite Hm. cbn [fmap option_fmap].
    assert (merge_terminal physical (Some o) = Ok (Some (R_StoredOutcome o))) as ->.
    { destruct (at_terminal t !! key_bytes i) as [[o'|f|seq]|] eqn:Et; cbn [resolve_locator] in Hphys.
      - injection Hphys as <-. pose proof (tw_agree t Ht _ _ _ Ei Et) as Ha.
        assert (o' = o) as -> by congruence. cbn. by rewrite bool_decide_eq_true_2.
      - destruct (tw_failed t Ht _ _ Et) as [_ ?]. congruence.
      - destruct (tw_locator t Ht _ _ Et) as (m' & o' & Hi' & Hm' & Hseq & _).
        assert (o' = o) as -> by congruence.
        rewrite Hseq, Z.eqb_refl in Hphys. injection Hphys as <-. cbn.
        by rewrite bool_decide_eq_true_2.
      - by injection Hphys as <-. }
    cbn. by rewrite bool_decide_eq_true_2.
  - destruct (at_terminal t !! key_bytes i) as [[o|f|seq]|] eqn:Et; cbn [resolve_locator] in Hphys.
    + injection Hphys as <-. cbn. rewrite bool_decide_eq_true_2; [done|].
      eapply keyed_same; eauto using tw_outcome.
    + injection Hphys as <-. cbn. rewrite bool_decide_eq_true_2; [done|].
      destruct (tw_failed t Ht _ _ Et) as [? _]. by eapply keyed_same.
    + destruct (tw_locator t Ht _ _ Et) as (? & ? & ? & _). congruence.
    + by injection Hphys as <-.
Qed.

Lemma resolve_locator_ok k : exists physical, resolve_locator t (at_terminal t !! k) = Ok physical.
Proof.
  destruct (at_terminal t !! k) as [[o|f|seq]|] eqn:Et; cbn; eauto.
  destruct (tw_locator t Ht _ _ Et) as (? & ? & _ & _ & -> & _). rewrite Z.eqb_refl. eauto.
Qed.

Lemma read_from_tables_spec i :
  identity_wf i ->
  (derived ← command_outcome_from_write_indexes t i; read_admission_from_tables t i derived) =
  Ok (admitted t (key_bytes i)).
Proof.
  intros Hi. rewrite write_indexes_spec by done. cbn [mbind result_bind].
  unfold read_admission_from_tables. rewrite identity_key_wf by done. cbn [mbind result_bind].
  destruct (resolve_locator_ok (key_bytes i)) as [physical Hp]. rewrite Hp.
  by apply state_of_rows.
Qed.

Lemma read_admission_spec i : identity_wf i -> read_admission t i = Ok (admitted t (key_bytes i)).
Proof.
  intros Hi. unfold read_admission. rewrite identity_key_wf, write_indexes_spec by done.
  cbn [mbind result_bind]. destruct (resolve_locator_ok (key_bytes i)) as [physical Hp].
  rewrite <- (state_of_rows i physical Hi Hp).
  destruct (at_terminal t !! key_bytes i) as [[o|f|seq]|] eqn:Et; cbn [resolve_locator] in Hp;
    try (injection Hp as <-; done).
  destruct (tw_locator t Ht _ _ Et) as (m & o & Ei & Hm & Hseq & Hc).
  rewrite Hseq, Z.eqb_refl in Hp. injection Hp as <-. rewrite Ei. cbn [mbind option_bind].
  rewrite Hm, Hc, Z.eqb_refl. cbn. by rewrite bool_decide_eq_true_2.
Qed.

(** The abstract lookup. *)
Definition states_of (candidates : list IdempotencyIdentity) : list StoredAdmissionStateV1 :=
  omap (fun i => admitted t (key_bytes i)) candidates.

Lemma collect_matches_spec read candidates :
  (forall i, identity_wf i -> read i = Ok (admitted t (key_bytes i))) ->
  Forall identity_wf candidates -> collect_matches read candidates = Ok (states_of candidates).
Proof.
  intros Hread. induction 1 as [|i l Hi Hl IH]; [done|].
  cbn [collect_matches]. rewrite Hread, IH by done. cbn.
  unfold states_of. cbn. by destruct (admitted t (key_bytes i)).
Qed.

Lemma matching_from_tables_spec candidates :
  Forall identity_wf candidates ->
  matching_admissions_from_tables t candidates = Ok (states_of candidates).
Proof. apply collect_matches_spec, read_from_tables_spec. Qed.

Lemma matching_admissions_spec candidates :
  Forall identity_wf candidates -> matching_admissions t candidates = Ok (states_of candidates).
Proof. apply collect_matches_spec, read_admission_spec. Qed.

Lemma matching_from_access_spec candidates :
  Forall identity_wf candidates ->
  matching_admissions_from_access t candidates = Ok (states_of candidates).
Proof.
  apply collect_matches_spec. intros i Hi. rewrite identity_key_wf by done.
  cbn [mbind result_bind]. destruct (resolve_locator_ok (key_bytes i)) as [physical Hp].
  rewrite Hp, operational_indexes_spec by done. cbn [mbind result_bind]. by apply state_of_rows.
Qed.
End reading.

(** ** One request after another *)

(** The contents of the tables as a function, and its update. *)
Abbreviation AdmissionView := (PhysicalKey -> option StoredAdmissionStateV1).

Definition update (f : AdmissionView) (key : PhysicalKey) (s : StoredAdmissionStateV1) : AdmissionView :=
  fun k => if decide (k = key) then Some s else f k.

Section sequential.
Context (plan_exists : ExecutablePlanRef -> Storage bool).

Definition admit_one (f : AdmissionView) (request : AdmissionRequestV1) :
    Storage (AdmissionView * AdmissionResultV1) :=
  let proposed := ar_proposed_pending request in
  match omap (fun i => f (key_bytes i)) (ar_lookup_candidates request) with
  | [] =>
      exists_ ← plan_exists (pa_plan proposed);
      if negb exists_ then Err InvariantViolation
      else Ok (update f (key_bytes (pa_identity proposed)) (Pending proposed), Created proposed)
  | [existing] => Ok (f, admission_result existing proposed)
  | _ => Ok (f, ResultMultipleMatches)
  end.

Fixpoint admit_each (f : AdmissionView) (requests : list AdmissionRequestV1) :
    Storage (AdmissionView * list AdmissionResultV1) :=
  match requests with
  | [] => Ok (f, [])
  | request :: rest =>
      '(f, result) ← admit_one f request;
      '(f, results) ← admit_each f rest;
      Ok (f, result :: results)
  end.
End sequential.

(** A request as its constructors build it. *)
Definition request_wf (r : AdmissionRequestV1) : Prop :=
  Forall identity_wf (ar_lookup_candidates r) /\
  lookup_candidates_new (ar_lookup_candidates r) = Ok (ar_lookup_candidates r) /\
  admission_request_new (ar_lookup_candidates r) (ar_proposed_pending r) = Ok r.

Lemma repeated_digest_false prior l :
  repeated_digest prior l = false ->
  NoDup l /\ forall c p, c ∈ l -> p ∈ prior -> ii_caller_key_digest p <> ii_caller_key_digest c.
Proof.
  revert prior. induction l as [|c l IH]; intros prior; cbn [repeated_digest].
  { intros _. split; [constructor|]. by intros ? ? ?%elem_of_nil. }
  intros [Hp Hl]%orb_false_iff. apply IH in Hl as [Hnd Hl]. split.
  - constructor; [|done]. intros Hin. apply (Hl c c Hin); [|done].
    apply elem_of_app. right. by apply list_elem_of_singleton.
  - intros c' p [->|Hc]%elem_of_cons Hin.
    + intros E. assert (existsb (fun p => bool_decide (ii_caller_key_digest p = ii_caller_key_digest c)) prior = true).
      { apply existsb_exists. exists p. rewrite bool_decide_eq_true_2 by done.
        split; [by apply list_elem_of_In|done]. }
      congruence.
    + apply Hl; [done|]. apply elem_of_app. by left.
Qed.

Lemma request_wf_facts r :
  request_wf r ->
  NoDup (ar_lookup_candidates r) /\
  pa_identity (ar_proposed_pending r) ∈ ar_lookup_candidates r /\
  identity_wf (pa_identity (ar_proposed_pending r)).
Proof.
  intros (Hwf & Hc & Hr). unfold admission_request_new in Hr.
  case_bool_decide as Hh; [|done]. clear Hr. unfold lookup_candidates_new in Hc.
  destruct (ar_lookup_candidates r) as [|first rest] eqn:E; [done|].
  injection Hh as ->.
  destruct (_ <? _); [done|]. destruct (negb _) in Hc; [done|].
  destruct (repeated_digest [] _) eqn:Hd; [done|].
  apply repeated_digest_false in Hd as [Hnd _].
  inversion Hwf; subst. split_and!; [done|apply list_elem_of_here|done].
Qed.

(** ** Groups *)

Definition created_by (a : PreparedAdmission) : option StoredPendingAdmissionV1 :=
  match prep_result a with Created p => Some p | _ => None end.
Definition created (l : list PreparedAdmission) : list StoredPendingAdmissionV1 := omap created_by l.

Definition pending_key (p : StoredPendingAdmissionV1) : PhysicalKey := key_bytes (pa_identity p).

Definition with_created (f : AdmissionView) (l : list StoredPendingAdmissionV1) : AdmissionView :=
  foldl (fun f p => update f (pending_key p) (Pending p)) f l.

Lemma with_created_snoc f l p :
  with_created f (l ++ [p]) = update (with_created f l) (pending_key p) (Pending p).
Proof. unfold with_created. by rewrite foldl_app. Qed.

Lemma with_created_other f l k : k ∉ pending_key <$> l -> with_created f l k = f k.
Proof.
  induction l as [|p l IH] using rev_ind; [done|].
  rewrite with_created_snoc, fmap_app. unfold update. intros Hk.
  rewrite not_elem_of_app in Hk. destruct Hk as [Hl Hp].
  rewrite decide_False; [by apply IH|]. intros ->. apply Hp. apply list_elem_of_here.
Qed.

Lemma omap_ext_in {A B} (f g : A -> option B) (l : list A) :
  (forall x, x ∈ l -> f x = g x) -> omap f l = omap g l.
Proof.
  induction l as [|x l IH]; intros H; [done|]. cbn.
  rewrite (H x (list_elem_of_here _ _)), IH; [done|].
  intros y Hy. apply H. by apply list_elem_of_further.
Qed.

Lemma update_eq f k s : update f k s k = Some s.
Proof. unfold update. by rewrite decide_True. Qed.

Lemma update_ne f k s k' : k' <> k -> update f k s k' = f k'.
Proof. intros H. unfold update. by rewrite decide_False. Qed.

(** Updating one undefined key adds its state to a lookup that names the key. *)
Lemma omap_update (f : AdmissionView) key s l :
  NoDup (key_bytes <$> l) -> f key = None ->
  omap (fun i => update f key s (key_bytes i)) l ≡ₚ
  omap (fun i => f (key_bytes i)) l ++ (if decide (key ∈ key_bytes <$> l) then [s] else []).
Proof.
  intros Hnd Hf. induction l as [|i l IH]; [done|].
  rewrite fmap_cons in Hnd. apply NoDup_cons in Hnd as [Hi Hnd].
  cbn [omap list_omap fmap list_fmap].
  destruct (decide (key_bytes i = key)) as [<-|Hne].
  - rewrite update_eq, Hf, decide_True by apply list_elem_of_here.
    rewrite <- Permutation_cons_append. apply perm_skip.
    rewrite (omap_ext_in _ (fun i => f (key_bytes i))); [done|].
    intros j Hj. apply update_ne. intros E. apply Hi.
    rewrite <- E. by apply (list_elem_of_fmap_2 key_bytes).
  - rewrite update_ne by done.
    assert (key ∈ key_bytes i :: (key_bytes <$> l) <-> key ∈ key_bytes <$> l) as Hiff.
    { rewrite elem_of_cons. naive_solver. }
    rewrite (decide_ext _ _ _ _ Hiff). specialize (IH Hnd).
    destruct (f (key_bytes i)); [by apply perm_skip|done].
Qed.

Definition named_by (l : list IdempotencyIdentity) (p : StoredPendingAdmissionV1) :
    option StoredAdmissionStateV1 :=
  if bool_decide (pa_identity p ∈ l) then Some (Pending p) else None.

Lemma prior_matches_created prepared r :
  prior_matches prepared r = omap (named_by (ar_lookup_candidates r)) (created prepared).
Proof.
  unfold prior_matches, created. induction prepared as [|a l IH]; [done|]. cbn.
  unfold created_by at 1. destruct (prep_result a) as [p| | | | |]; cbn; rewrite IH; [|done..].
  unfold named_by at 3. by destruct (bool_decide _).
Qed.

Lemma key_member i l :
  identity_wf i -> Forall identity_wf l -> key_bytes i ∈ key_bytes <$> l <-> i ∈ l.
Proof.
  intros Hi Hl. rewrite list_elem_of_fmap. split; [|eauto].
  intros (j & E & Hj). rewrite Forall_forall in Hl.
  by rewrite (key_bytes_inj i j) by auto.
Qed.

Lemma NoDup_keys l : Forall identity_wf l -> NoDup l -> NoDup (key_bytes <$> l).
Proof.
  intros Hl. induction 1 as [|i l Hi Hnd IH]; [constructor|].
  inversion Hl; subst. rewrite fmap_cons. constructor; [|by apply IH].
  by rewrite key_member.
Qed.

Lemma lookup_with_created (f : AdmissionView) l c :
  Forall identity_wf l -> NoDup l ->
  Forall (fun p => identity_wf (pa_identity p) /\ f (pending_key p) = None) c ->
  NoDup (pending_key <$> c) ->
  omap (fun i => with_created f c (key_bytes i)) l ≡ₚ
  omap (fun i => f (key_bytes i)) l ++ omap (named_by l) c.
Proof.
  intros Hl Hnd Hc. induction c as [|p c IH] using rev_ind; intros Hk.
  { cbn. by rewrite app_nil_r. }
  apply Forall_app in Hc as [Hc [Hp _]%Forall_cons]. rewrite fmap_app in Hk.
  apply NoDup_app in Hk as (Hk & Hdis & _).
  rewrite with_created_snoc, omap_app.
  rewrite omap_update; [|by apply NoDup_keys|].
  2:{ rewrite with_created_other; [tauto|]. intros Hin. apply (Hdis _ Hin), list_elem_of_here. }
  rewrite IH by done. rewrite <- app_assoc. apply Permutation_app_head.
  apply Permutation_app_head. cbn. unfold named_by.
  destruct Hp as [Hp _]. unfold pending_key.
  destruct (decide (key_bytes (pa_identity p) ∈ key_bytes <$> l)) as [H|H];
    rewrite key_member in H by done.
  - by rewrite bool_decide_eq_true_2.
  - by rewrite bool_decide_eq_false_2.
Qed.

Lemma created_defined f l p : p ∈ l -> with_created f l (pending_key p) <> None.
Proof.
  induction l as [|q l IH] using rev_ind; [by intros ?%elem_of_nil|].
  rewrite with_created_snoc. unfold update. intros Hin.
  destruct (decide (pending_key p = pending_key q)); [done|].
  apply elem_of_app in Hin as [Hin| ->%list_elem_of_singleton]; [by apply IH|done].
Qed.

Lemma omap_nil_inv {A B} (f : A -> option B) (l : list A) x : omap f l = [] -> x ∈ l -> f x = None.
Proof.
  intros E Hx. destruct (f x) as [y|] eqn:Ey; [|done].
  assert (y ∈ omap f l) as Hy by (apply list_elem_of_omap; eauto). rewrite E in Hy.
  by apply elem_of_nil in Hy.
Qed.

Lemma Forall_and_mem {A} (P : A -> Prop) (l : list A) : Forall P l -> Forall (fun x => P x /\ x ∈ l) l.
Proof. rewrite !Forall_forall. auto. Qed.

(** What staging has prepared so far. *)
Record prepared_wf (t : AdmissionTables) (l : list PreparedAdmission) : Prop := {
  pw_vacant : Forall (fun p => identity_wf (pa_identity p) /\ admitted t (pending_key p) = None) (created l);
  pw_keys : NoDup (pending_key <$> created l);
  pw_encoded : Forall (fun a => prep_encoded a = (fun p => (pending_key p, p)) <$> created_by a) l;
}.

Lemma created_snoc l a : created (l ++ [a]) = created l ++ option_list (created_by a).
Proof. unfold created. rewrite omap_app. cbn. by destruct (created_by a). Qed.

Lemma admission_result_not_created s p q : admission_result s p <> Created q.
Proof. unfold admission_result. destruct (negb _); [done|]. by destruct s. Qed.

Section group.
Context (t : AdmissionTables) (Ht : tables_wf t).

Lemma prepared_wf_skip l r :
  prepared_wf t l -> (forall p, r <> Created p) -> prepared_wf t (l ++ [mkPreparedAdmission r None]).
Proof.
  intros [Hv Hk He] Hr.
  assert (created_by (mkPreparedAdmission r None) = None) as Hn.
  { unfold created_by. cbn. destruct r; [by destruct (Hr value)|done..]. }
  split.
  - by rewrite created_snoc, Hn, app_nil_r.
  - by rewrite created_snoc, Hn, app_nil_r.
  - apply Forall_app. split; [done|]. constructor; [|done]. by rewrite Hn.
Qed.

Lemma prepared_wf_create l p :
  prepared_wf t l -> identity_wf (pa_identity p) ->
  with_created (admitted t) (created l) (pending_key p) = None ->
  prepared_wf t (l ++ [mkPreparedAdmission (Created p) (Some (pending_key p, p))]).
Proof.
  intros [Hv Hk He] Hp Hn.
  assert (pending_key p ∉ pending_key <$> created l) as Hnew.
  { intros (q & E & Hq)%list_elem_of_fmap. apply (created_defined (admitted t)) in Hq. by rewrite <- E, Hn in Hq. }
  split.
  - rewrite created_snoc. apply Forall_app. split; [done|]. constructor; [|done].
    split; [done|]. by rewrite with_created_other in Hn.
  - rewrite created_snoc, fmap_app. apply NoDup_app. split_and!; [done| |apply NoDup_singleton].
    intros k Hin ->%list_elem_of_singleton. done.
  - apply Forall_app. split; [done|]. by constructor.
Qed.

Lemma prepare_one l request :
  prepared_wf t l -> request_wf request ->
  match admit_one (plan_bundle_exists t) (with_created (admitted t) (created l)) request with
  | Ok (f, result) => exists a,
      prepare_admission t l request = Ok a /\ prep_result a = result /\
      f = with_created (admitted t) (created (l ++ [a])) /\ prepared_wf t (l ++ [a])
  | Err e => prepare_admission t l request = Err e
  end.
Proof.
  intros Hl Hr. destruct (request_wf_facts request Hr) as (Hnd & Hin & Hi).
  destruct Hr as [Hwf _].
  unfold prepare_admission, admit_one. rewrite matching_from_tables_spec by done.
  cbn [mbind result_bind]. rewrite prior_matches_created.
  pose proof (lookup_with_created (admitted t) (ar_lookup_candidates request) (created l)
    Hwf Hnd (pw_vacant t l Hl) (pw_keys t l Hl)) as Hperm.
  unfold states_of. remember (omap _ _ ++ _) as impl eqn:Ei.
  destruct (omap (fun i => with_created _ _ _) _) as [|s [|s' rest]] eqn:Es.
  - apply Permutation_nil_l in Hperm as <-.
    destruct (plan_bundle_exists t _) as [[]|e]; cbn [mbind result_bind negb]; [|done|done].
    rewrite identity_key_wf by done. cbn [mbind result_bind].
    eexists. split_and!; [done|done| |].
    + rewrite created_snoc. cbn. by rewrite with_created_snoc.
    + apply prepared_wf_create; [done|done|].
      apply (omap_nil_inv _ _ _ Es). done.
  - apply Permutation_singleton_l in Hperm as <-. eexists. split_and!; [done|done| |].
    + rewrite created_snoc. unfold created_by. cbn.
      destruct (admission_result s _) eqn:E; cbn; rewrite ?app_nil_r; try done.
      by apply admission_result_not_created in E.
    + apply prepared_wf_skip; [done|]. intros p. apply admission_result_not_created.
  - apply Permutation_length in Hperm. destruct impl as [|x [|y impl]]; [done|done|].
    eexists. split_and!; [done|done| |].
    + rewrite created_snoc. cbn. by rewrite app_nil_r.
    + by apply prepared_wf_skip.
Qed.

Lemma prepare_group_spec l requests :
  prepared_wf t l -> Forall request_wf requests ->
  match admit_each (plan_bundle_exists t) (with_created (admitted t) (created l)) requests with
  | Ok (f, results) => exists new,
      prepare_group t l requests = Ok (l ++ new) /\ map prep_result new = results /\
      f = with_created (admitted t) (created (l ++ new)) /\ prepared_wf t (l ++ new)
  | Err e => prepare_group t l requests = Err e
  end.
Proof.
  intros Hl Hreq. revert l Hl. induction Hreq as [|r rest Hr Hrest IH]; intros l Hl.
  { exists []. by rewrite app_nil_r. }
  cbn [admit_each prepare_group]. pose proof (prepare_one l r Hl Hr) as H1.
  destruct (admit_one _ _ r) as [[f result]|e]; cbn [mbind result_bind]; [|by rewrite H1].
  destruct H1 as (a & -> & <- & -> & Ha). cbn [mbind result_bind].
  specialize (IH (l ++ [a]) Ha).
  destruct (admit_each _ _ rest) as [[f' results]|e]; cbn [mbind result_bind]; [|done].
  destruct IH as (new & -> & <- & -> & Hn). exists (a :: new).
  by rewrite <- app_assoc in *.
Qed.
End group.

(** ** Writing *)

Lemma admitted_none t k :
  tables_wf t -> admitted t k = None ->
  at_pending t !! k = None /\ at_index t !! k = None /\ at_terminal t !! k = None.
Proof.
  intros Ht. unfold admitted. destruct (at_pending t !! k); [done|].
  destruct (at_index t !! k) as [m|] eqn:Ei.
  { destruct (tw_index t Ht _ _ Ei) as (o & -> & _). done. }
  destruct (at_terminal t !! k) as [[]|] eqn:Et; try done.
  destruct (tw_locator t Ht _ _ Et) as (? & ? & ? & _). congruence.
Qed.

(** The rows that a write may change: at one key, where nothing is indexed. *)
Lemma tables_wf_rows t key pending terminal :
  tables_wf t -> at_index t !! key = None ->
  (forall k, k <> key -> pending !! k = at_pending t !! k /\ terminal !! k = at_terminal t !! k) ->
  match pending !! key, terminal !! key with
  | Some p, None => keyed (pa_identity p) key
  | None, Some (R_ExecutionFailed f) => keyed (pa_identity (ef_pending f)) key
  | None, None => True
  | _, _ => False
  end ->
  tables_wf (with_rows t pending terminal).
Proof.
  intros Ht Hi Hold Hnew.
  split; cbn [with_rows at_pending at_terminal at_members at_index at_frontier
              at_checkpoint_frontier at_derived_frontier]; [..|apply Ht].
  1-7: intros k; destruct (decide (k = key)) as [->|Hk];
    [|destruct (Hold k Hk) as [Ep Et]; rewrite ?Ep, ?Et; apply Ht].
  all: destruct (pending !! key), (terminal !! key) as [[]|]; try done; naive_solver.
Qed.

Lemma admitted_rows t key pending terminal k :
  (k <> key -> pending !! k = at_pending t !! k /\ terminal !! k = at_terminal t !! k) ->
  k <> key -> admitted (with_rows t pending terminal) k = admitted t k.
Proof. intros Hold Hk. destruct (Hold Hk) as [Ep Et]. unfold admitted. cbn. by rewrite Ep, Et. Qed.

Lemma insert_pending_spec t p :
  tables_wf t -> identity_wf (pa_identity p) -> admitted t (pending_key p) = None ->
  exists t', insert_pending t (pending_key p) p = Ok t' /\ tables_wf t' /\
    forall k, admitted t' k = update (admitted t) (pending_key p) (Pending p) k.
Proof.
  intros Ht Hp Hn. destruct (admitted_none _ _ Ht Hn) as (Ep & Ei & Et).
  unfold insert_pending. rewrite Ep. eexists. split; [done|]. split.
  - apply (tables_wf_rows t (pending_key p)); [done|done| |].
    + intros k Hk. by rewrite lookup_insert_ne.
    + by rewrite lookup_insert_eq, Et.
  - intros k. destruct (decide (k = pending_key p)) as [->|Hk].
    + rewrite update_eq. unfold admitted. cbn. by rewrite lookup_insert_eq.
    + rewrite update_ne by done. apply (admitted_rows t (pending_key p)); [|done].
      intros _. by rewrite lookup_insert_ne.
Qed.

Lemma with_created_cons f p l :
  with_created f (p :: l) = with_created (update f (pending_key p) (Pending p)) l.
Proof. done. Qed.

Lemma with_created_ext f g l : (forall k, f k = g k) -> forall k, with_created f l k = with_created g l k.
Proof.
  revert f g. induction l as [|p l IH]; intros f g H k; [apply H|].
  rewrite !with_created_cons. apply IH. intros k'. unfold update. by destruct (decide _).
Qed.

Lemma insert_prepared_spec l t :
  tables_wf t ->
  Forall (fun p => identity_wf (pa_identity p) /\ admitted t (pending_key p) = None) (created l) ->
  NoDup (pending_key <$> created l) ->
  Forall (fun a => prep_encoded a = (fun p => (pending_key p, p)) <$> created_by a) l ->
  exists t', insert_prepared t l = Ok t' /\ tables_wf t' /\
    forall k, admitted t' k = with_created (admitted t) (created l) k.
Proof.
  revert t. induction l as [|a l IH]; intros t Ht Hv Hk He; [by exists t|].
  apply Forall_cons in He as [Ea He]. cbn [insert_prepared]. rewrite Ea.
  unfold created in Hv, Hk |- *. cbn [omap list_omap] in Hv, Hk |- *.
  destruct (created_by a) as [p|]; cbn [fmap option_fmap option_map mbind result_bind];
    [|by apply IH].
  apply Forall_cons in Hv as [[Hp Hn] Hv]. rewrite fmap_cons in Hk. apply NoDup_cons in Hk as [Hnot Hk].
  destruct (insert_pending_spec t p Ht Hp Hn) as (t1 & -> & Ht1 & Hadm). cbn [mbind result_bind].
  destruct (IH t1 Ht1) as (t' & -> & Ht' & Hadm'); [|done|done|].
  { eapply Forall_impl; [exact (Forall_and_mem _ _ Hv)|]. cbn. intros q [[Hq Hqn] Hin].
    split; [done|]. rewrite Hadm, update_ne; [done|]. intros E. apply Hnot. rewrite <- E.
    by apply (list_elem_of_fmap_2 pending_key). }
  exists t'. split_and!; [done|done|]. intros k. rewrite Hadm', with_created_cons.
  by apply with_created_ext.
Qed.

Lemma created_any l :
  Forall (fun a => prep_encoded a = (fun p => (pending_key p, p)) <$> created_by a) l ->
  existsb snd (map (fun a => (prep_result a, bool_decide (is_Some (prep_encoded a)))) l) = false ->
  created l = [].
Proof.
  induction 1 as [|a l Ea Hl IH]; [done|]. cbn. rewrite Ea. intros [Ha Hr]%orb_false_iff.
  unfold created. cbn. destruct (created_by a); [|by apply IH].
  rewrite bool_decide_eq_true_2 in Ha; [done|]. cbn. eauto.
Qed.

Lemma admission_group_refines t requests :
  tables_wf t -> Forall request_wf requests ->
  requests <> [] -> zlen requests <= MAX_GROUPED_WRITE_TRANSITIONS ->
  match admit_each (plan_bundle_exists t) (admitted t) requests with
  | Ok (f, results) => exists t',
      admit_or_resolve_group requests t = (t', Ok results) /\ tables_wf t' /\
      forall k, admitted t' k = f k
  | Err e => admit_or_resolve_group requests t = (t, Err e)
  end.
Proof.
  intros Ht Hreq Hne Hlen. unfold admit_or_resolve_group, stage_admission_group.
  rewrite bool_decide_eq_false_2 by done. rewrite (proj2 (Z.ltb_ge _ _) Hlen). cbn [orb].
  pose proof (prepare_group_spec t Ht [] requests) as Hg.
  assert (prepared_wf t []) as H0 by (split; constructor).
  specialize (Hg H0 Hreq). cbn [created omap list_omap with_created foldl] in Hg.
  change (created []) with (@nil StoredPendingAdmissionV1) in Hg. cbn [with_created foldl] in Hg.
  destruct (admit_each _ _ requests) as [[f results]|e]; [|by rewrite Hg].
  destruct Hg as (new & -> & <- & -> & [Hv Hk He]). cbn [app mbind result_bind] in *.
  destruct (insert_prepared_spec new t Ht Hv Hk He) as (t' & -> & Ht' & Hadm).
  cbn [mbind result_bind]. rewrite map_map. cbn [fst].
  destruct (existsb snd _) eqn:Ec.
  - by exists t'.
  - exists t. split_and!; [done|done|]. intros k. by rewrite (created_any new He Ec).
Qed.

Lemma admission_group_steps t requests :
  tables_wf t -> Forall request_wf requests ->
  requests <> [] -> zlen requests <= MAX_GROUPED_WRITE_TRANSITIONS ->
  (exists f results t', admit_each (plan_bundle_exists t) (admitted t) requests = Ok (f, results) /\
     admit_or_resolve_group requests t = (t', Ok results) /\ tables_wf t' /\
     forall k, admitted t' k = f k) \/
  (exists e, admit_or_resolve_group requests t = (t, Err e)).
Proof.
  intros Ht Hreq Hne Hlen. pose proof (admission_group_refines t requests Ht Hreq Hne Hlen) as H.
  destruct (admit_each _ _ requests) as [[f results]|e]; [left|right; eauto].
  destruct H as (t' & H). by exists f, results, t'.
Qed.

(** C9. Admitting a group is admitting one request after another: on
    well-formed tables a group of 1 to 256 requests returns, for each request,
    the result it would have had alone after the earlier ones (created, resumed,
    replayed, mismatched or ambiguous), and leaves exactly the admissions that
    sequence leaves; if some request fails, nothing is written.  Nothing is
    reported corrupt and the tables stay well formed. *)
Theorem admission_group_sequential t requests :
  tables_wf t -> Forall request_wf requests ->
  requests <> [] -> zlen requests <= MAX_GROUPED_WRITE_TRANSITIONS ->
  match admit_each (plan_bundle_exists t) (admitted t) requests with
  | Ok (f, results) => exists t',
      admit_or_resolve_group requests t = (t', Ok results) /\ tables_wf t' /\
      forall k, admitted t' k = f k
  | Err e => admit_or_resolve_group requests t = (t, Err e)
  end.
Proof. apply admission_group_refines. Qed.

Lemma lookup_admission_spec t candidates :
  tables_wf t -> Forall identity_wf candidates ->
  lookup_admission t candidates = Ok (lookup_result (states_of t candidates)).
Proof.
  intros Ht Hc. unfold lookup_admission, lookup_admission_group. cbn.
  by rewrite matching_from_access_spec.
Qed.

Lemma admitted_identity t i s :
  tables_wf t -> identity_wf i -> admitted t (key_bytes i) = Some s -> state_identity s = i.
Proof.
  intros Ht Hi. unfold admitted. destruct (at_pending t !! _) as [p|] eqn:Ep.
  { intros [= <-]. eapply keyed_same; [by eapply tw_pending|done|done]. }
  destruct (at_index t !! _) as [m|] eqn:Em.
  { destruct (tw_index t Ht _ _ Em) as (o & -> & Hk & _). intros [= <-]. by eapply keyed_same. }
  destruct (at_terminal t !! _) as [[o|f|seq]|] eqn:Et; [| |done..]; intros [= <-].
  - eapply keyed_same; [by eapply tw_outcome|done|done].
  - eapply keyed_same; [by eapply tw_failed|done|done].
Qed.

(** Lookups are exact: on well-formed tables a lookup never fails and
    answers with the states admitted under its candidates: none, the one, or
    that several match. *)
Theorem lookup_admission_exact t candidates :
  tables_wf t -> Forall identity_wf candidates ->
  lookup_admission t candidates = Ok (lookup_result (states_of t candidates)).
Proof. apply lookup_admission_spec. Qed.

(** ** Failures *)
Section failures.
Context {D : Type} `{EqDecision D}.

Definition failure_request_wf (request : ExecutionFailureTransitionRequestV1 D) : Prop :=
  identity_wf (pa_identity (fr_expected_pending request)) /\
  match fr_admission_expectation request with
  | ExistingPending => True
  | Vacant candidates =>
      Forall identity_wf candidates /\ pa_identity (fr_expected_pending request) ∈ candidates
  end.

(** The admission condition under which the failure may be recorded. *)
Definition failure_expected (t : AdmissionTables) (request : ExecutionFailureTransitionRequestV1 D) :
    Prop :=
  match fr_admission_expectation request with
  | ExistingPending =>
      admitted t (pending_key (fr_expected_pending request)) =
      Some (Pending (fr_expected_pending request))
  | Vacant candidates => states_of t candidates = []
  end.

Definition failure_allowed t (request : ExecutionFailureTransitionRequestV1 D) (current : Storage D) :
    Prop :=
  current = Ok (fr_read_dependencies request) /\
  plan_bundle_exists t (pa_plan (fr_expected_pending request)) = Ok true /\
  failure_expected t request.

Lemma admitted_pending_row t k p :
  tables_wf t -> admitted t k = Some (Pending p) ->
  at_pending t !! k = Some p /\ at_index t !! k = None /\ at_terminal t !! k = None.
Proof.
  intros Ht. unfold admitted. destruct (at_pending t !! k) as [q|] eqn:Ep.
  - intros [= ->]. destruct (tw_exclusive t Ht _ _ Ep). done.
  - destruct (at_index t !! k) as [m|]; [by destruct (member_outcome m)|].
    destruct (at_terminal t !! k) as [[]|]; done.
Qed.

(** The write itself, once the checks have passed. *)
Lemma record_failure_wf t p code pending :
  tables_wf t -> identity_wf (pa_identity p) ->
  at_index t !! pending_key p = None -> pending !! pending_key p = None ->
  (forall k, k <> pending_key p -> pending !! k = at_pending t !! k) ->
  let t' := with_rows t pending
    (<[pending_key p := R_ExecutionFailed (mkExecutionFailed p code)]> (at_terminal t)) in
  tables_wf t' /\
  forall k, admitted t' k =
    update (admitted t) (pending_key p) (ExecutionFailed (mkExecutionFailed p code)) k.
Proof.
  intros Ht Hp Hi Hn Hold t'. split.
  - apply (tables_wf_rows t (pending_key p)); [done|done| |].
    + intros k Hk. by rewrite lookup_insert_ne, Hold.
    + by rewrite Hn, lookup_insert_eq.
  - intros k. destruct (decide (k = pending_key p)) as [->|Hk].
    + rewrite update_eq. unfold admitted, t'. cbn. by rewrite Hn, Hi, lookup_insert_eq.
    + rewrite update_ne by done. apply (admitted_rows t (pending_key p)); [|done].
      intros _. by rewrite lookup_insert_ne, Hold.
Qed.

Lemma terminalize_step t request current :
  tables_wf t -> failure_request_wf request ->
  match terminalize request current t with
  | (t', Ok f) =>
      failure_allowed t request current /\ f = terminal_record request /\ tables_wf t' /\
      forall k, admitted t' k =
        update (admitted t) (pending_key (fr_expected_pending request)) (ExecutionFailed f) k
  | (t', Err _) => t' = t /\ ~ failure_allowed t request current
  end.
Proof.
  intros Ht [Hp Hc]. unfold terminalize, failure_allowed, failure_expected.
  destruct current as [d|e]; cbn [mbind result_bind]; [|naive_solver].
  case_bool_decide as Hd; cbn [negb mbind result_bind]; [subst d|naive_solver].
  destruct (plan_bundle_exists t _) as [[]|e]; cbn [negb mbind result_bind]; [|naive_solver..].
  rewrite identity_key_wf by done.
  destruct (fr_admission_expectation request) as [|candidates] eqn:Ex.
  - rewrite read_admission_spec by done. cbn [mbind result_bind].
    fold (pending_key (fr_expected_pending request)).
    case_bool_decide as Hs; cbn [negb mbind result_bind]; [|naive_solver].
    destruct (admitted_pending_row _ _ _ Ht Hs) as (Ep & Ei & Et).
    rewrite Ep. cbn [mbind result_bind]. rewrite Et.
    destruct (record_failure_wf t (fr_expected_pending request) (fr_code request)
      (delete (pending_key (fr_expected_pending request)) (at_pending t)) Ht Hp Ei) as [Hwf Hadm].
    { apply lookup_delete_eq. }
    { intros k Hk. by rewrite lookup_delete_ne. }
    split_and!; [done|done|done|done|exact Hwf|exact Hadm].
  - destruct Hc as [Hc Hin]. rewrite matching_admissions_spec by done. cbn [mbind result_bind].
    case_bool_decide as Hs; cbn [negb mbind result_bind]; [|naive_solver].
    assert (admitted t (pending_key (fr_expected_pending request)) = None) as Hn
      by (exact (omap_nil_inv _ _ _ Hs Hin)).
    destruct (admitted_none _ _ Ht Hn) as (Ep & Ei & Et).
    fold (pending_key (fr_expected_pending request)). rewrite Et.
    destruct (record_failure_wf t (fr_expected_pending request) (fr_code request) (at_pending t)
      Ht Hp Ei Ep) as [Hwf Hadm]; [done|].
    split_and!; [done|done|done|done|exact Hwf|exact Hadm].
Qed.

(** Recording a deterministic failure is exact: it succeeds exactly when the
    dependency evidence is unchanged, the plan's bundle is live and the expected
    admission condition holds; then the identity's state becomes that failure
    and every other state is untouched.  Otherwise nothing changes. *)
Theorem execution_failure_exact t request current :
  tables_wf t -> failure_request_wf request ->
  match terminalize request current t with
  | (t', Ok f) =>
      failure_allowed t request current /\ f = terminal_record request /\ tables_wf t' /\
      forall k, admitted t' k =
        update (admitted t) (pending_key (fr_expected_pending request)) (ExecutionFailed f) k
  | (t', Err _) => t' = t /\ ~ failure_allowed t request current
  end.
Proof. apply terminalize_step. Qed.
End failures.

(** ** Concrete tables and requests *)
Definition sample_plan : ExecutablePlanRef :=
  mkExecutablePlanRef [Byte.x63] 1 (replicate 32 Byte.x11) 7 (replicate 32 Byte.x22).

Definition sample_pending : StoredPendingAdmissionV1 :=
  mkPending sample_identity (replicate 32 Byte.x33) (replicate 16 Byte.x44) sample_plan
    (mkTimestamp 60 0) (mkAdmittedActorContext [Byte.x61] Human (Tenant [Byte.x74]) None) [Byte.x50]
    (mkProvenanceClaims None None None None) None [].

Definition sample_tables : AdmissionTables :=
  mkAdmissionTables ∅ ∅ ∅ ∅ ∅ {[ ([Byte.x63], 1) := ([Byte.x63], 1, replicate 32 Byte.x11) ]}
    None None None (fun _ _ => Ok []).

Definition sample_request : AdmissionRequestV1 :=
  mkAdmissionRequest [sample_identity] sample_pending.

Lemma sample_tables_wf : tables_wf sample_tables.
Proof. split; cbn; intros *; rewrite ?lookup_empty; done. Qed.

Lemma sample_request_wf : request_wf sample_request.
Proof.
  split; [|split; vm_compute; reflexivity].
  apply Forall_singleton, sample_identity_wf.
Qed.

Lemma admission_group_sequential_witness :
  exists t', admit_or_resolve_group [sample_request; sample_request] sample_tables =
    (t', Ok [Created sample_pending; Resumed sample_pending]) /\ tables_wf t'.
Proof.
  pose proof (admission_group_sequential sample_tables [sample_request; sample_request]
    sample_tables_wf) as H.
  destruct H as (t' & H1 & H2 & _).
  - by repeat apply Forall_cons_2; try apply sample_request_wf.
  - discriminate.
  - vm_compute. discriminate.
  - exists t'. split; [exact H1|exact H2].
Defined.

Lemma lookup_admission_exact_witness : lookup_admission sample_tables [sample_identity] = Ok NotFound.
Proof.
  apply (lookup_admission_exact sample_tables [sample_identity] sample_tables_wf).
  apply Forall_singleton, sample_identity_wf.
Defined.

Definition sample_failure : ExecutionFailureTransitionRequestV1 unit :=
  mkFailureRequest sample_pending (Vacant [sample_identity]) tt ArithmeticFault.

Lemma execution_failure_exact_witness :
  exists t', terminalize sample_failure (Ok tt) sample_tables = (t', Ok (terminal_record sample_failure))
    /\ tables_wf t'.
Proof.
  assert (failure_request_wf sample_failure) as Hwf.
  { split; [apply sample_identity_wf|]. split.
    - apply Forall_singleton, sample_identity_wf.
    - apply list_elem_of_here. }
  pose proof (execution_failure_exact sample_tables sample_failure (Ok tt) sample_tables_wf Hwf) as H.
  destruct (terminalize sample_failure (Ok tt) sample_tables) as [t' [f|e]] eqn:E.
  - destruct H as (_ & -> & Ht & _). by exists t'.
  - destruct H as [_ H]. exfalso. apply H. split_and!; reflexivity.
Defined.
