(* ===== verification/IdempotencyReplay.v ===== *)
(** * Replays over a store that moves on

    A command is inspected, confirmed and bound to a plan, and rechecked later,
    when other commands may have been admitted, completed or failed.  The store
    moves by [store_step]: admitting a group, recording a failure (both the
    operations of [Admission]) or a commit, which is given by its effect on the
    admitted states because the commit path itself is not modelled.

    The theorems: what a recheck replays was admitted for the same canonical
    input; and after any sequence of steps the recheck answers with what the
    store then holds and never reports an impossible transition. *)

From S2P Require Import Prelude Decimal Value Reader Codec CodecEncode CodecDecode.
From S2P Require Import Key Names Framing Hash Identity StorageBase Admission AdmissionSpec Idempotency.
From stdpp Require Import gmap list relations.

Local Open Scope Z_scope.

#[local] Opaque key_bytes.

(** The stored state a recheck hands back for resumption or replay. *)
Definition replayed (r : IdempotencyRecheckResultV1) : option StoredAdmissionStateV1 :=
  match r with
  | RecheckPending p _ => Some (Pending p)
  | RecheckOutcome o => Some (StoredOutcome o)
  | RecheckExecutionFailed f => Some (ExecutionFailed f)
  | _ => None
  end.

(** Whatever the repository, a replayed state is the one observed, of a
    candidate identity, of the selected plan and of this input. *)
Lemma recheck_replay {R} `{AdmissionLookupRepository R} (repository : R) prepared result s :
  recheck repository prepared = Ok result -> replayed result = Some s ->
  repo_lookup_admission repository (pcmd_lookup_candidates (re_prepared_command prepared)) =
    Ok (Found s) /\
  state_identity s ∈ pcmd_lookup_candidates (re_prepared_command prepared) /\
  state_plan s = re_selected_plan prepared /\
  state_input_hash s = pcmd_canonical_input_hash (re_prepared_command prepared).
Proof.
  destruct prepared as [command input plan original]. unfold recheck, integrity.
  cbn [re_prepared_command re_selected_plan].
  destruct (repo_lookup_admission _ _) as [[|current|]|e]; cbn [map_err mbind result_bind];
    [by destruct original; intros [= <-]| |done|done].
  case_bool_decide as Hin; cbn [negb]; [|done].
  assert (forall b : bool, (if b then integrity ImpossibleTransition else
     if negb (bool_decide (state_input_hash current = pcmd_canonical_input_hash command))
     then Ok RecheckInputMismatch
     else Ok match current with
             | Pending pending => RecheckPending pending input
             | StoredOutcome outcome => RecheckOutcome outcome
             | ExecutionFailed failure => RecheckExecutionFailed failure
             end) = Ok result -> replayed result = Some s ->
     s = current /\ state_input_hash current = pcmd_canonical_input_hash command) as Hend.
  { intros [|]; [done|]. case_bool_decide as Hh; cbn [negb]; [|by intros [= <-]].
    by destruct current; intros [= <-] [= <-]. }
  destruct original as [|o|]; cbn [mbind result_bind]; [| |done].
  - destruct (bool_decide (state_plan _ = _)) eqn:Hp; cbn [negb]; [|by intros [= <-]].
    apply bool_decide_eq_true in Hp. intros Hr Hs. by destruct (Hend false Hr Hs) as [-> ?].
  - destruct (bool_decide (state_identity o = _)); cbn [negb]; [|done].
    destruct (bool_decide (state_plan _ = _)) eqn:Hp; cbn [negb]; [|done].
    apply bool_decide_eq_true in Hp. intros Hr Hs. by destruct (Hend _ Hr Hs) as [-> ?].
Qed.

(** C30. A replay is only given to a command with the stored input: if a recheck
    hands back a pending, completed or failed admission, that admission has one
    of the command's candidate identities and its selected plan, and the
    normalized input it was admitted for equals the command's own, the declared
    caller-key field aside, or the two framed inputs are colliding messages of
    SHA-256. *)
Theorem replay_same_input sha256 {R} `{AdmissionLookupRepository R} (repository : R)
    prepared result s lookup lookup' r r' field key key' admitted_command :
  recheck repository prepared = Ok result -> replayed result = Some s ->
  record_wf r -> record_wf r' ->
  confirm_command_idempotency sha256 lookup r field key = Ok (re_prepared_command prepared) ->
  confirm_command_idempotency sha256 lookup' r' field key' = Ok admitted_command ->
  state_input_hash s = pcmd_canonical_input_hash admitted_command ->
  state_identity s ∈ pl_lookup_candidates lookup /\ state_plan s = re_selected_plan prepared /\
  (without_field field r = without_field field r' \/
   collide sha256 (input_frame field r) (input_frame field r')).
Proof.
  intros Hr Hs Hwf Hwf' (E1 & L1 & Ec)%confirm_hash (E2 & L2 & _)%confirm_hash Hh; [|done..].
  destruct (recheck_replay _ _ _ _ Hr Hs) as (_ & Hin & Hp & Hsame).
  rewrite Ec in Hin. split_and!; [done|done|].
  apply record_hash_inj; [by eapply record_wf_sublist; [apply sublist_filter|]..|done|done|].
  congruence.
Qed.

(** ** Legal histories *)

Inductive store_step : AdmissionTables -> AdmissionTables -> Prop :=
  | step_admit requests t results t' :
      Forall request_wf requests ->
      admit_or_resolve_group requests t = (t', Ok results) -> store_step t t'
  | step_fail {D} `{EqDecision D} (request : ExecutionFailureTransitionRequestV1 D) current t f t' :
      failure_request_wf request -> terminalize request current t = (t', Ok f) -> store_step t t'
  | step_commit p o t t' :
      admitted t (pending_key p) = Some (Pending p) \/ admitted t (pending_key p) = None ->
      outcome_preserves_pending o p = true -> tables_wf t' ->
      (forall k, admitted t' k = update (admitted t) (pending_key p) (StoredOutcome o) k) ->
      store_step t t'.

(** A state stays, or moves to a terminal state that keeps what was admitted. *)
Definition evolves (f g : AdmissionView) : Prop :=
  forall k s, f k = Some s -> exists s', g k = Some s' /\ is_valid_transition s s' = true.

Lemma is_valid_transition_refl s : is_valid_transition s s = true.
Proof. destruct s; cbn; by apply bool_decide_eq_true_2. Qed.

Lemma is_valid_transition_trans a b c :
  is_valid_transition a b = true -> is_valid_transition b c = true ->
  is_valid_transition a c = true.
Proof.
  destruct a, b, c; cbn; try done; rewrite ?bool_decide_eq_true; intros; subst; try done.
Qed.

Lemma outcome_preserves_facts o p :
  outcome_preserves_pending o p = true ->
  so_identity o = pa_identity p /\ so_plan o = pa_plan p /\
  so_canonical_input_hash o = pa_canonical_input_hash p.
Proof. unfold outcome_preserves_pending. rewrite !andb_true_iff, !bool_decide_eq_true. tauto. Qed.

(** A legal transition keeps identity, plan and input. *)
Lemma is_valid_transition_keeps a b :
  is_valid_transition a b = true ->
  state_identity b = state_identity a /\ state_plan b = state_plan a /\
  state_input_hash b = state_input_hash a.
Proof.
  destruct a, b; cbn; try done; rewrite ?bool_decide_eq_true; [by intros ->| | |by intros ->..].
  - apply outcome_preserves_facts.
  - by intros ->.
Qed.

Lemma evolves_refl f : evolves f f.
Proof. intros k s E. exists s. split; [done|apply is_valid_transition_refl]. Qed.

Lemma evolves_trans f g h : evolves f g -> evolves g h -> evolves f h.
Proof.
  intros Hfg Hgh k s (s' & E' & V)%Hfg. apply Hgh in E' as (s'' & E'' & V').
  exists s''. split; [done|]. by eapply is_valid_transition_trans.
Qed.

Lemma evolves_update f g k s :
  (forall k', g k' = update f k s k') ->
  (forall s0, f k = Some s0 -> is_valid_transition s0 s = true) -> evolves f g.
Proof.
  intros Hg Hk k' s0 E. rewrite Hg. destruct (decide (k' = k)) as [->|Hne].
  - rewrite update_eq. eauto.
  - rewrite update_ne by done. exists s0. split; [done|apply is_valid_transition_refl].
Qed.

Lemma admit_each_evolves plan_exists f requests g results :
  admit_each plan_exists f requests = Ok (g, results) -> Forall request_wf requests -> evolves f g.
Proof.
  intros E Hreq. revert f results E.
  induction Hreq as [|r rest Hr Hrest IH]; intros f results; cbn [admit_each].
  { intros [= -> _]. apply evolves_refl. }
  destruct (admit_one plan_exists f r) as [[f1 r1]|e] eqn:E1; cbn [mbind result_bind]; [|done].
  destruct (admit_each _ f1 rest) as [[f2 r2]|e] eqn:E2; cbn [mbind result_bind]; [|done].
  intros [= -> _]. eapply evolves_trans; [|by eapply IH].
  unfold admit_one in E1. destruct (omap _ _) as [|s [|]] eqn:Em; [|injection E1 as -> _; apply evolves_refl..].
  destruct (plan_exists _) as [[]|]; cbn in E1; [|done..]. injection E1 as <- _.
  eapply evolves_update; [done|]. intros s0 E0.
  destruct (request_wf_facts r Hr) as (_ & Hin & _).
  pose proof (omap_nil_inv _ _ _ Em Hin) as Hn. cbn in Hn. congruence.
Qed.

Lemma store_step_evolves t t' :
  tables_wf t -> store_step t t' -> tables_wf t' /\ evolves (admitted t) (admitted t').
Proof.
  intros Ht. destruct 1 as [requests t results t' Hreq E|D ? request current t f t' Hwf E|
    p o t t' Hbefore Ho Ht' Hadm].
  - assert (requests <> [] /\ zlen requests <= MAX_GROUPED_WRITE_TRANSITIONS) as [Hne Hlen].
    { unfold admit_or_resolve_group in E. case_bool_decide; [done|].
      destruct (Z.ltb_spec MAX_GROUPED_WRITE_TRANSITIONS (zlen requests)); [done|]. done. }
    destruct (admission_group_steps t requests Ht Hreq Hne Hlen) as [H|[e H]]; [|congruence].
    destruct H as (g & results' & t1 & Hg & E1 & Ht1 & Hadm).
    assert (t1 = t') as -> by congruence. split; [done|].
    intros k s Hs. destruct (admit_each_evolves _ _ _ _ _ Hg Hreq k s Hs) as (s' & Hs' & V).
    exists s'. by rewrite Hadm.
  - pose proof (terminalize_step t request current Ht Hwf) as H. rewrite E in H.
    destruct H as ((_ & _ & Hex) & -> & Ht' & Hadm). split; [done|].
    eapply evolves_update; [exact Hadm|]. intros s0 E0. unfold failure_expected in Hex.
    destruct Hwf as [_ Hc]. destruct (fr_admission_expectation request) as [|cs].
    + rewrite Hex in E0. injection E0 as <-. cbn. by rewrite bool_decide_eq_true_2.
    + destruct Hc as [_ Hin]. pose proof (omap_nil_inv _ _ _ Hex Hin) as Hn. cbn in Hn.
      unfold pending_key in E0. congruence.
  - split; [done|]. eapply evolves_update; [done|]. intros s0 E0.
    destruct Hbefore as [Hb|Hb]; rewrite Hb in E0; [|done]. by injection E0 as <-.
Qed.

Lemma store_steps_evolve t t' :
  tables_wf t -> rtc store_step t t' -> tables_wf t' /\ evolves (admitted t) (admitted t').
Proof.
  intros Ht. induction 1 as [t|t t1 t' H1 _ IH]; [split; [done|apply evolves_refl]|].
  destruct (store_step_evolves t t1 Ht H1) as [Ht1 He1].
  destruct (IH Ht1) as [Ht' He']. split; [done|]. by eapply evolves_trans.
Qed.

(** ** Rechecking after a history *)

(** The answer for what the store holds at the time of the recheck. *)
Definition recheck_answer (prepared : PreparedIdempotencyRecheckV1)
    (states : list StoredAdmissionStateV1) :
    result IdempotencyRecheckError IdempotencyRecheckResultV1 :=
  match states with
  | [] => Ok (RecheckVacant (re_selected_plan prepared) (re_normalized_input prepared)
                (re_prepared_command prepared))
  | [s] =>
      Ok (if decide (state_plan s <> re_selected_plan prepared) then PreparationChanged
          else if decide (state_input_hash s <>
                          pcmd_canonical_input_hash (re_prepared_command prepared))
          then RecheckInputMismatch
          else match s with
               | Pending p => RecheckPending p (re_normalized_input prepared)
               | StoredOutcome o => RecheckOutcome o
               | ExecutionFailed f => RecheckExecutionFailed f
               end)
  | _ => Err (RecheckIntegrity IntegrityMultipleMatches)
  end.

(** What a recheck relies on: its first observation is one the store can have
    reached its present state from. *)
Definition consistent_observation (t : AdmissionTables) (prepared : PreparedIdempotencyRecheckV1) :
    Prop :=
  match re_original_observation prepared with
  | NotFound => True
  | MultipleMatches => False
  | Found s0 => state_plan s0 = re_selected_plan prepared /\
      exists s, s ∈ states_of t (pcmd_lookup_candidates (re_prepared_command prepared)) /\
        is_valid_transition s0 s = true
  end.

Lemma states_of_identity t candidates s :
  tables_wf t -> Forall identity_wf candidates -> s ∈ states_of t candidates ->
  state_identity s ∈ candidates.
Proof.
  rewrite Forall_forall. intros Ht Hc (i & Hi & E)%list_elem_of_omap.
  by rewrite (admitted_identity t i s Ht (Hc i Hi) E).
Qed.

Lemma recheck_consistent t prepared :
  tables_wf t -> Forall identity_wf (pcmd_lookup_candidates (re_prepared_command prepared)) ->
  consistent_observation t prepared ->
  recheck t prepared =
    recheck_answer prepared (states_of t (pcmd_lookup_candidates (re_prepared_command prepared))).
Proof.
  destruct prepared as [command input plan original]. unfold recheck, consistent_observation.
  cbn [repo_lookup_admission tables_repository re_prepared_command re_original_observation
       re_selected_plan].
  intros Ht Hc Hobs. rewrite lookup_admission_spec by done. cbn [map_err mbind result_bind].
  pose proof (states_of_identity t (pcmd_lookup_candidates command)) as Hid.
  destruct (states_of t _) as [|s [|s' rest]]; cbn [lookup_result recheck_answer].
  - destruct original as [|s0|]; [done| |done]. destruct Hobs as (_ & s & []%elem_of_nil & _).
  - rewrite bool_decide_eq_true_2 by (apply Hid; [done..|apply list_elem_of_here]). cbn [negb].
    cbn [re_selected_plan re_normalized_input re_prepared_command].
    destruct original as [|s0|]; cbn [mbind result_bind]; [| |done].
    + destruct (decide (state_plan s = plan)) as [Hp|Hp].
      * rewrite (bool_decide_eq_true_2 _ Hp), decide_False by tauto. cbn [negb].
        destruct (decide (state_input_hash s = pcmd_canonical_input_hash command)) as [Hh|Hh].
        -- by rewrite (bool_decide_eq_true_2 _ Hh), decide_False by tauto.
        -- by rewrite (bool_decide_eq_false_2 _ Hh), decide_True by tauto.
      * by rewrite (bool_decide_eq_false_2 _ Hp), decide_True by tauto.
    + destruct Hobs as (Hp0 & s1 & ->%list_elem_of_singleton & Hv).
      destruct (is_valid_transition_keeps _ _ Hv) as (Hi & Hp & _).
      assert (state_plan s = plan) as Hplan by congruence.
      rewrite (bool_decide_eq_true_2 (state_identity s0 = _)) by done.
      rewrite (bool_decide_eq_true_2 _ Hplan), Hv, decide_False by tauto. cbn [negb].
      destruct (decide (state_input_hash s = pcmd_canonical_input_hash command)) as [Hh|Hh].
      -- by rewrite (bool_decide_eq_true_2 _ Hh), decide_False by tauto.
      -- by rewrite (bool_decide_eq_false_2 _ Hh), decide_True by tauto.
  - done.
Qed.

(** What each stage before the recheck establishes. *)
Lemma lookup_result_found states s : lookup_result states = Found s -> s ∈ states.
Proof. destruct states as [|s' [|]]; cbn; intros [=]; subst. apply list_elem_of_here. Qed.

Lemma inspect_facts t lookup inspected :
  tables_wf t -> Forall identity_wf (pl_lookup_candidates lookup) ->
  inspect t lookup = Ok inspected ->
  in_prepared_lookup inspected = lookup /\
  in_observation inspected = lookup_result (states_of t (pl_lookup_candidates lookup)).
Proof.
  intros Ht Hc. unfold inspect, inspect_observation. cbn [repo_lookup_admission tables_repository].
  rewrite lookup_admission_spec by done. cbn [map_err mbind result_bind].
  destruct (lookup_result _) as [|s|]; cbn [mbind result_bind]; [by intros [= <-]| |done].
  destruct (negb _); cbn [mbind result_bind]; [done|by intros [= <-]].
Qed.

Lemma confirm_input_facts sha256 inspected r field key confirmed :
  confirm_input sha256 inspected r field key = Ok confirmed ->
  pcmd_lookup_candidates (cf_prepared_command confirmed) =
    pl_lookup_candidates (in_prepared_lookup inspected) /\
  cf_observation confirmed = in_observation inspected.
Proof.
  unfold confirm_input. destruct (confirm_command_idempotency _ _ _ _ _) as [p|e] eqn:E; [|done].
  cbn [mbind result_bind]. intros [= <-]. cbn. split; [|done].
  by eapply confirm_candidates.
Qed.

Lemma bind_selected_plan_facts confirmed plan prepared :
  bind_selected_plan confirmed plan = Ok prepared ->
  re_prepared_command prepared = cf_prepared_command confirmed /\
  re_original_observation prepared = cf_observation confirmed /\
  match cf_observation confirmed with
  | NotFound => True
  | MultipleMatches => False
  | Found s => state_plan s = re_selected_plan prepared
  end.
Proof.
  unfold bind_selected_plan. destruct (cf_observation confirmed) as [|s|]; [by intros [= <-]| |done].
  case_bool_decide; cbn [mbind result_bind]; [by intros [= <-]|done].
Qed.

Lemma states_of_evolves t t' candidates s :
  evolves (admitted t) (admitted t') -> Found s = lookup_result (states_of t candidates) ->
  exists s', s' ∈ states_of t' candidates /\ is_valid_transition s s' = true.
Proof.
  intros Hev E. symmetry in E. apply lookup_result_found in E.
  apply list_elem_of_omap in E as (i & Hi & E). destruct (Hev _ _ E) as (s' & E' & V).
  exists s'. split; [|done]. apply list_elem_of_omap. eauto.
Qed.

(** C22. Between inspection and recheck the store may take any steps: the recheck
    then answers exactly from the states the store now holds for the command's
    candidates, so the only integrity error left is several candidates being
    admitted at once; and a state seen at inspection is still there, unchanged
    or moved to a terminal state of the same admission. *)
Theorem recheck_follows_store sha256 t0 t1 lookup inspected r field key confirmed plan prepared :
  tables_wf t0 -> rtc store_step t0 t1 -> Forall identity_wf (pl_lookup_candidates lookup) ->
  inspect t0 lookup = Ok inspected ->
  confirm_input sha256 inspected r field key = Ok confirmed ->
  bind_selected_plan confirmed plan = Ok prepared ->
  recheck t1 prepared = recheck_answer prepared (states_of t1 (pl_lookup_candidates lookup)) /\
  (forall s0, in_observation inspected = Found s0 ->
     exists s, s ∈ states_of t1 (pl_lookup_candidates lookup) /\ is_valid_transition s0 s = true).
Proof.
  intros Ht0 Hsteps Hc Hi Hf Hb. destruct (store_steps_evolve _ _ Ht0 Hsteps) as [Ht1 Hev].
  destruct (inspect_facts t0 lookup inspected Ht0 Hc Hi) as [<- Hobs].
  destruct (confirm_input_facts _ _ _ _ _ _ Hf) as [Hcand Hco].
  destruct (bind_selected_plan_facts _ _ _ Hb) as (Hcmd & Hpo & Hfit).
  assert (forall s0, in_observation inspected = Found s0 ->
    exists s, s ∈ states_of t1 (pl_lookup_candidates (in_prepared_lookup inspected)) /\
      is_valid_transition s0 s = true) as Hfound.
  { intros s0 E. rewrite E in Hobs. by eapply states_of_evolves. }
  split; [|done]. rewrite <- Hcand, <- Hcmd. apply recheck_consistent; [done|congruence|].
  unfold consistent_observation. rewrite Hpo, Hcmd, Hcand, Hco in *.
  destruct (in_observation inspected); [done| |done]. split; [done|by apply Hfound].
Qed.

(** ** A command admitted between inspection and recheck *)

(** The command hash of [sample_input], for an identity digest function. *)
Definition sample_input_hash : list byte :=
  match confirm_command_idempotency (fun l => l) sample_lookup (sample_input Byte.x61) 1
    [Byte.x61] with
  | Ok p => pcmd_canonical_input_hash p
  | Err _ => []
  end.

Definition sample_command : PreparedCommandIdempotencyV1 :=
  mkPreparedCommand (DeclaredField 1) sample_input_hash [sample_identity].

Definition sample_admission : StoredPendingAdmissionV1 :=
  mkPending sample_identity sample_input_hash (replicate 16 Byte.x44) sample_plan
    (mkTimestamp 60 0) (mkAdmittedActorContext [Byte.x61] Human (Tenant [Byte.x74]) None) [Byte.x50]
    (mkProvenanceClaims None None None None) None [].

Definition sample_after : AdmissionTables :=
  fst (admit_or_resolve_group [mkAdmissionRequest [sample_identity] sample_admission] sample_tables).

Definition sample_recheck : PreparedIdempotencyRecheckV1 :=
  mkRecheck sample_command (sample_input Byte.x61) sample_plan NotFound.

Lemma replay_same_input_witness :
  sample_identity ∈ [sample_identity] /\ sample_plan = sample_plan /\
  (without_field 1 (sample_input Byte.x61) = without_field 1 (sample_input Byte.x61) \/
   collide (fun l => l) (input_frame 1 (sample_input Byte.x61)) (input_frame 1 (sample_input Byte.x61))).
Proof.
  eapply (replay_same_input (fun l => l) sample_after sample_recheck
    (RecheckPending sample_admission (sample_input Byte.x61)) (Pending sample_admission)
    sample_lookup sample_lookup (sample_input Byte.x61) (sample_input Byte.x61) 1
    [Byte.x61] [Byte.x61] sample_command); vm_compute; reflexivity.
Defined.

Lemma recheck_follows_store_witness :
  recheck sample_after sample_recheck =
    Ok (RecheckPending sample_admission (sample_input Byte.x61)).
Proof.
  eapply (recheck_follows_store (fun l => l) sample_tables sample_after sample_lookup
    (mkInspected SelectionAbsent sample_lookup NotFound) (sample_input Byte.x61) 1 [Byte.x61]
    (mkConfirmed sample_command (sample_input Byte.x61) NotFound) sample_plan sample_recheck).
  - apply sample_tables_wf.
  - apply rtc_once. eapply (step_admit [mkAdmissionRequest [sample_identity] sample_admission]).
    + apply Forall_singleton. split; [apply Forall_singleton, sample_identity_wf|].
      split; vm_compute; reflexivity.
    + vm_compute. reflexivity.
  - apply Forall_singleton, sample_identity_wf.
  - vm_compute. reflexivity.
  - vm_compute. reflexivity.
  - reflexivity.
Defined.
