(* ===== verification/OutboxStatus.v ===== *)
(** * Outbox delivery states and transitions

    [riffdb-storage-api/src/outbox.rs], [outbox_claim_group.rs] and
    [outbox_success_group.rs]: the derived delivery status of an outbox event,
    the checked pages of the two scans, the five checked transitions and the two
    checked groups.

    The five transition structs have one shape, the required prior observation
    and the post-image, and one macro for their accessors; here they are one
    record, and a prior that the source keeps as a bare status is its
    [Present] observation.  The protobuf codec of a status row is an argument of
    the definitions that use it. *)

From S2P Require Import Prelude Value Key StorageBase.
From stdpp Require Import gmap list.

Local Open Scope Z_scope.

Abbreviation MAX_OUTBOX_DESTINATION_ID_BYTES := 512.
Abbreviation MAX_OUTBOX_SAFE_ERROR_BYTES := 1024.
Abbreviation MAX_SCAN_PAGE_ENTRIES := 500.
Abbreviation MAX_SCAN_PAGE_BYTES := 4194304.
Abbreviation MAX_OUTBOX_CLAIM_GROUP_ENTRIES := 16.
Abbreviation MAX_OUTBOX_SUCCESS_GROUP_ENTRIES := 16.
Abbreviation MAX_DURABLE_ENCODED_CONTENT_BYTES := 16777216.
Abbreviation MAX_CHANGELOG_FRAME_ENTRIES := 262144.
Abbreviation MAX_CHANGELOG_FRAME_BYTES := 33554432.

Definition page_limit_new (value : Z) : result StorageValueError Z :=
  if MAX_SCAN_PAGE_ENTRIES <? value then Err SV_LimitExceeded else Ok value.

Definition destination_id_new (value : list byte) : result StorageValueError (list byte) :=
  if bool_decide (value = []) then Err SV_Empty
  else if MAX_OUTBOX_DESTINATION_ID_BYTES <? zlen value then Err SV_LimitExceeded
  else if existsb (fun b => negb ((33 <=? byte_to_Z b) && (byte_to_Z b <=? 126))) value
  then Err SV_InvalidShape
  else Ok value.

Definition safe_error_new (value : list byte) : result StorageValueError (list byte) :=
  if bool_decide (value = []) then Err SV_Empty
  else if MAX_OUTBOX_SAFE_ERROR_BYTES <? zlen value then Err SV_LimitExceeded
  else Ok value.

(** ** Delivery states *)
Record OutboxRetryMetadataV1 := mkRetryMetadata {
  rm_attempts : Z;
  rm_last_attempt_at : Timestamp;
  rm_next_attempt_at : option Timestamp;
  rm_destination_id : list byte;
  rm_last_safe_error : option (list byte);
}.

Inductive OutboxDeliveryStateV1 :=
  | DS_Pending (metadata : OutboxRetryMetadataV1)
  | Delivering (attempt : Z) (destination_id : list byte) (started_at lease_deadline : Timestamp)
  | Delivered (attempts : Z) (destination_id : list byte) (delivered_at : Timestamp)
  | DeadLetter (attempts : Z) (destination_id : list byte) (failed_at : Timestamp)
      (last_safe_error : option (list byte)).

Record StoredOutboxStatusV1 := mkOutboxStatus {
  st_event_id : EventId;
  st_state : OutboxDeliveryStateV1;
}.

Inductive OutboxStatusObservationV1 :=
  | AbsentInitialPending
  | Present (status : StoredOutboxStatusV1).

#[export] Instance RetryMetadata_eq_dec : EqDecision OutboxRetryMetadataV1.
Proof. solve_decision. Defined.
#[export] Instance DeliveryState_eq_dec : EqDecision OutboxDeliveryStateV1.
Proof. solve_decision. Defined.
#[export] Instance OutboxStatus_eq_dec : EqDecision StoredOutboxStatusV1.
Proof. solve_decision. Defined.
#[export] Instance Observation_eq_dec : EqDecision OutboxStatusObservationV1.
Proof. solve_decision. Defined.

Definition state_is_pending (s : OutboxDeliveryStateV1) : bool :=
  match s with DS_Pending _ => true | _ => false end.

Definition state_attempts (s : OutboxDeliveryStateV1) : Z :=
  match s with
  | DS_Pending metadata => rm_attempts metadata
  | Delivering attempt _ _ _ => attempt
  | Delivered attempts _ _ => attempts
  | DeadLetter attempts _ _ _ => attempts
  end.

Definition is_pending (o : OutboxStatusObservationV1) : bool :=
  match o with
  | AbsentInitialPending => true
  | Present status => state_is_pending (st_state status)
  end.

Definition attempts (o : OutboxStatusObservationV1) : Z :=
  match o with
  | AbsentInitialPending => 0
  | Present status => state_attempts (st_state status)
  end.

Definition validate_event_id (o : OutboxStatusObservationV1) (event_id : EventId) :
    result StorageValueError unit :=
  match o with
  | Present status =>
      if bool_decide (st_event_id status = event_id) then Ok tt else Err SV_IdentityMismatch
  | AbsentInitialPending => Ok tt
  end.

(** ** Transitions *)
Record OutboxTransition := mkTransition {
  tr_expected : OutboxStatusObservationV1;
  tr_updated : StoredOutboxStatusV1;
}.

Definition tr_event_id (t : OutboxTransition) : EventId := st_event_id (tr_updated t).

(** [OutboxClaimV1::new] *)
Definition claim_new (event_id : EventId) (expected : OutboxStatusObservationV1)
    (destination_id : list byte) (started_at lease_deadline : Timestamp) :
    result StorageValueError OutboxTransition :=
  _ ← validate_event_id expected event_id;
  if negb (is_pending expected) then Err SV_InvalidShape
  else
    attempt ← ok_or (u_checked 32 (attempts expected + 1) ≫= nonzero_id_new) SV_SizeOverflow;
    Ok (mkTransition expected
          (mkOutboxStatus event_id (Delivering attempt destination_id started_at lease_deadline))).

(** [OutboxRenewV1::new] *)
Definition renew_new (expected : StoredOutboxStatusV1) (lease_deadline : Timestamp) :
    result StorageValueError OutboxTransition :=
  match st_state expected with
  | Delivering attempt destination_id started_at _ =>
      Ok (mkTransition (Present expected)
            (mkOutboxStatus (st_event_id expected)
               (Delivering attempt destination_id started_at lease_deadline)))
  | _ => Err SV_InvalidShape
  end.

(** [OutboxSucceedV1::new] *)
Definition succeed_new (expected : StoredOutboxStatusV1) (delivered_at : Timestamp) :
    result StorageValueError OutboxTransition :=
  match st_state expected with
  | Delivering attempt destination_id _ _ =>
      Ok (mkTransition (Present expected)
            (mkOutboxStatus (st_event_id expected) (Delivered attempt destination_id delivered_at)))
  | _ => Err SV_InvalidShape
  end.

(** [OutboxRetryV1::new] *)
Definition retry_new (expected : StoredOutboxStatusV1) (next_attempt_at : option Timestamp)
    (last_safe_error : option (list byte)) : result StorageValueError OutboxTransition :=
  match st_state expected with
  | Delivering attempt destination_id started_at _ =>
      Ok (mkTransition (Present expected)
            (mkOutboxStatus (st_event_id expected)
               (DS_Pending (mkRetryMetadata attempt started_at next_attempt_at destination_id
                              last_safe_error))))
  | _ => Err SV_InvalidShape
  end.

(** [OutboxDeadLetterV1::new] *)
Definition dead_letter_new (event_id : EventId) (expected : OutboxStatusObservationV1)
    (initial_destination : option (list byte)) (failed_at : Timestamp)
    (last_safe_error : option (list byte)) : result StorageValueError OutboxTransition :=
  _ ← validate_event_id expected event_id;
  let expected_is_absent := match expected with AbsentInitialPending => true | _ => false end in
  if negb (Bool.eqb expected_is_absent (bool_decide (is_Some initial_destination)))
  then Err SV_InvalidShape
  else
    destination_id ←
      match expected with
      | AbsentInitialPending => ok_or initial_destination SV_InvalidShape
      | Present status =>
          match st_state status with
          | DS_Pending metadata => Ok (rm_destination_id metadata)
          | Delivering _ destination_id _ _ => Ok destination_id
          | Delivered _ _ _ | DeadLetter _ _ _ _ => Err SV_InvalidShape
          end
      end;
    Ok (mkTransition expected
          (mkOutboxStatus event_id
             (DeadLetter (attempts expected) destination_id failed_at last_safe_error))).

Inductive OutboxTransitionResultV1 :=
  | Applied (status : StoredOutboxStatusV1)
  | StateChanged (observed : OutboxStatusObservationV1)
  | AuthoritativeIntentMissing.

(** ** Groups *)

(** [for pair in transitions.windows(2)] *)
Fixpoint check_order (l : list OutboxTransition) : result StorageValueError unit :=
  match l with
  | a :: ((b :: _) as rest) =>
      if bool_decide (tr_event_id a = tr_event_id b) then Err SV_Duplicate
      else if bool_decide (event_lt (tr_event_id b) (tr_event_id a)) then Err SV_NonCanonicalOrder
      else check_order rest
  | _ => Ok tt
  end.

(** The protobuf codec of a status row, and what is documented of it: a row
    decodes to the status it encodes, charged with its length, and the length of
    an envelope is a valid charge. *)
Class StatusCodec := {
  encode_outbox_status_v1 : StoredOutboxStatusV1 -> Storage (list byte);
  decode_outbox_status_v1 : list byte -> Storage (StoredOutboxStatusV1 * Z);
}.

Class StatusCodecLaws `{StatusCodec} := {
  decode_encoded_status s b :
    encode_outbox_status_v1 s = Ok b -> decode_outbox_status_v1 b = Ok (s, zlen b);
  encoded_status_length s b :
    encode_outbox_status_v1 s = Ok b -> 0 < zlen b <= MAX_DURABLE_ENCODED_CONTENT_BYTES;
}.

Section groups.
Context `{StatusCodec}.

(** [AuthoritativeMutationV3::put] and [replace] followed by [encoded_len], for
    the 12-byte key of an event. *)
Definition mutation_encoded_len (before : option (list byte)) (after : list byte) :
    result StorageValueError Z :=
  let validate (value_len : Z) :=
    match usize_checked_add (44 + 12) value_len with
    | None => false
    | Some bytes => negb (MAX_CHANGELOG_FRAME_BYTES <? bytes)
    end in
  if match before with Some b => validate (zlen b) | None => true end && validate (zlen after)
  then Ok (44 + 12 + zlen after) else Err SV_LimitExceeded.

(** The receipt size of one transition. *)
Definition transition_encoded_len (t : OutboxTransition) : result StorageValueError Z :=
  let encode s := map_err (fun _ => SV_InvalidShape) (encode_outbox_status_v1 s) in
  after ← encode (tr_updated t);
  before ← match tr_expected t with
           | AbsentInitialPending => Ok None
           | Present expected => Some <$> encode expected
           end;
  mutation_encoded_len before after.

Fixpoint check_sizes (encoded_bytes : Z) (l : list OutboxTransition) : result StorageValueError Z :=
  match l with
  | [] => Ok encoded_bytes
  | t :: rest =>
      length ← transition_encoded_len t;
      encoded_bytes ← ok_or (usize_checked_add encoded_bytes length) SV_SizeOverflow;
      check_sizes encoded_bytes rest
  end.

Definition check_group (maximum : Z) (l : list OutboxTransition) : result StorageValueError unit :=
  if bool_decide (l = []) then Err SV_Empty
  else if (maximum <? zlen l) || (MAX_CHANGELOG_FRAME_ENTRIES <? zlen l) then Err SV_LimitExceeded
  else check_order l.

(** [OutboxClaimGroupV1::new]; the size of a claim is taken after the check that
    its prior is pending, claim by claim. *)
Fixpoint check_claim_sizes (encoded_bytes : Z) (l : list OutboxTransition) :
    result StorageValueError Z :=
  match l with
  | [] => Ok encoded_bytes
  | claim :: rest =>
      if negb (is_pending (tr_expected claim)) then Err SV_InvalidShape
      else
        length ← transition_encoded_len claim;
        encoded_bytes ← ok_or (usize_checked_add encoded_bytes length) SV_SizeOverflow;
        check_claim_sizes encoded_bytes rest
  end.

Definition claim_group_new (claims : list OutboxTransition) :
    result StorageValueError (list OutboxTransition) :=
  _ ← check_group MAX_OUTBOX_CLAIM_GROUP_ENTRIES claims;
  encoded_bytes ← check_claim_sizes 4096 claims;
  if MAX_CHANGELOG_FRAME_BYTES <? encoded_bytes then Err SV_LimitExceeded else Ok claims.

(** [OutboxSucceedGroupV1::new] *)
Definition succeed_group_new (transitions : list OutboxTransition) :
    result StorageValueError (list OutboxTransition) :=
  _ ← check_group MAX_OUTBOX_SUCCESS_GROUP_ENTRIES transitions;
  encoded_bytes ← check_sizes 4096 transitions;
  if MAX_CHANGELOG_FRAME_BYTES <? encoded_bytes then Err SV_LimitExceeded else Ok transitions.
End groups.

Definition result_matches (t : OutboxTransition) (r : OutboxTransitionResultV1) : bool :=
  match r with
  | Applied status => bool_decide (status = tr_updated t)
  | StateChanged AbsentInitialPending => true
  | StateChanged (Present status) => bool_decide (st_event_id status = tr_event_id t)
  | AuthoritativeIntentMissing => false
  end.

(** [OutboxClaimGroupCompletionV1::new] and [OutboxSucceedGroupCompletionV1::new] *)
Definition group_completion_new (group : list OutboxTransition)
    (results : list OutboxTransitionResultV1) :
    result StorageValueError (list OutboxTransitionResultV1) :=
  if negb (bool_decide (length results = length group)) then Err SV_InvalidShape
  else if forallb (fun p => result_matches p.1 p.2) (zip group results)
  then Ok results else Err SV_IdentityMismatch.

Inductive OutboxGroupResultV1 :=
  | GroupComplete (results : list OutboxTransitionResultV1)
  | GroupAuthoritativeIntentMissing.

(** ** Scans *)

(** The event as the outbox sees it; the decoded payload and the policy anchor
    are not used by delivery. *)
Record StoredDurableEventV1 := mkDurableEvent {
  de_event_id : EventId;
  de_event_type_id : Z;
  de_payload_encoded : list byte;
  de_event_hash : list byte;
}.

#[export] Instance DurableEvent_eq_dec : EqDecision StoredDurableEventV1.
Proof. solve_decision. Defined.

(** The intent of an event freezes the event itself. *)
Record PendingOutboxItemV1 := mkPendingItem {
  pi_event : StoredDurableEventV1;
  pi_intent : StoredDurableEventV1;
  pi_status : OutboxStatusObservationV1;
}.

Definition pending_item_new (event intent : StoredDurableEventV1)
    (status : OutboxStatusObservationV1) : result StorageValueError PendingOutboxItemV1 :=
  if negb (bool_decide (intent = event)) || negb (is_pending status) then Err SV_IdentityMismatch
  else
    _ ← validate_event_id status (de_event_id event);
    Ok (mkPendingItem event intent status).

Definition pi_event_id (item : PendingOutboxItemV1) : EventId := de_event_id (pi_event item).

(** [checked_encoded_page_content]: the sum of the charges of the items. *)
Fixpoint page_content {A} (total : Z) (items : list (A * Z)) : result StorageValueError Z :=
  match items with
  | [] => if MAX_SCAN_PAGE_BYTES <? total then Err SV_LimitExceeded else Ok total
  | (_, charge) :: rest =>
      total ← ok_or (usize_checked_add total charge) SV_SizeOverflow;
      page_content total rest
  end.

(** [items.windows(2).any(|pair| pair[0] >= pair[1])] *)
Fixpoint increasing (l : list EventId) : bool :=
  match l with
  | a :: ((b :: _) as rest) => bool_decide (event_lt a b) && increasing rest
  | _ => true
  end.

Inductive PendingOutboxScanV1 :=
  | PendingPage (items : list (PendingOutboxItemV1 * Z)) (next_after : EventId)
  | PendingExactEnd (items : list (PendingOutboxItemV1 * Z)).

Definition pending_scan_page (items : list (PendingOutboxItemV1 * Z)) (has_more : bool) :
    result StorageValueError PendingOutboxScanV1 :=
  if MAX_SCAN_PAGE_ENTRIES <? zlen items then Err SV_LimitExceeded
  else if negb (increasing (map (fun i => pi_event_id i.1) items)) then Err SV_NonCanonicalOrder
  else
    _ ← page_content 0 items;
    if has_more then
      item ← ok_or (last items) SV_InvalidShape;
      Ok (PendingPage items (pi_event_id item.1))
    else Ok (PendingExactEnd items).

Record UndeliveredOutboxStatusV1 := mkUndelivered {
  ud_event_id : EventId;
  ud_status : OutboxStatusObservationV1;
}.

Definition undelivered_new (event_id : EventId) (status : OutboxStatusObservationV1) :
    result StorageValueError UndeliveredOutboxStatusV1 :=
  _ ← validate_event_id status event_id;
  match status with
  | Present (mkOutboxStatus _ (Delivered _ _ _)) => Err SV_InvalidShape
  | _ => Ok (mkUndelivered event_id status)
  end.

Inductive UndeliveredOutboxStatusScanRequestV1 :=
  | ScanInitial (after : option EventId) (limit : Z)
  | ScanContinue (after inclusive_upper : EventId) (limit : Z).

Definition request_after (r : UndeliveredOutboxStatusScanRequestV1) : option EventId :=
  match r with ScanInitial after _ => after | ScanContinue after _ _ => Some after end.
Definition request_inclusive_upper (r : UndeliveredOutboxStatusScanRequestV1) : option EventId :=
  match r with ScanInitial _ _ => None | ScanContinue _ upper _ => Some upper end.
Definition request_limit (r : UndeliveredOutboxStatusScanRequestV1) : Z :=
  match r with ScanInitial _ limit => limit | ScanContinue _ _ limit => limit end.

(** A page carries its continuation, the exact end its upper fence. *)
Inductive UndeliveredOutboxStatusScanV1 :=
  | UndeliveredPage (items : list (UndeliveredOutboxStatusV1 * Z)) (after inclusive_upper : EventId)
  | UndeliveredExactEnd (items : list (UndeliveredOutboxStatusV1 * Z))
      (inclusive_upper : option EventId).

Definition validate_undelivered_scan_items (request : UndeliveredOutboxStatusScanRequestV1)
    (inclusive_upper : EventId) (items : list (UndeliveredOutboxStatusV1 * Z)) :
    result StorageValueError unit :=
  if match request_inclusive_upper request with
     | Some expected => negb (bool_decide (expected = inclusive_upper))
     | None => false
     end
  then Err SV_IdentityMismatch
  else if request_limit request <? zlen items then Err SV_LimitExceeded
  else if negb (increasing (map (fun i => ud_event_id i.1) items)) then Err SV_NonCanonicalOrder
  else if existsb (fun i =>
      match request_after request with
      | Some after => bool_decide (event_le (ud_event_id i.1) after)
      | None => false
      end || bool_decide (event_lt inclusive_upper (ud_event_id i.1))) items
  then Err SV_InvalidShape
  else
    _ ← page_content 0 items;
    Ok tt.

Definition undelivered_page (request : UndeliveredOutboxStatusScanRequestV1)
    (inclusive_upper : EventId) (items : list (UndeliveredOutboxStatusV1 * Z)) :
    result StorageValueError UndeliveredOutboxStatusScanV1 :=
  _ ← validate_undelivered_scan_items request inclusive_upper items;
  item ← ok_or (last items) SV_InvalidShape;
  let after := ud_event_id item.1 in
  if bool_decide (event_le inclusive_upper after) then Err SV_InvalidShape
  else Ok (UndeliveredPage items after inclusive_upper).

Definition undelivered_exact_end (request : UndeliveredOutboxStatusScanRequestV1)
    (inclusive_upper : option EventId) (items : list (UndeliveredOutboxStatusV1 * Z)) :
    result StorageValueError UndeliveredOutboxStatusScanV1 :=
  _ ← match inclusive_upper with
      | None =>
          if negb (match request with ScanInitial _ _ => true | _ => false end)
             || negb (bool_decide (items = []))
          then Err SV_InvalidShape else Ok tt
      | Some upper => validate_undelivered_scan_items request upper items
      end;
  Ok (UndeliveredExactEnd items inclusive_upper).

Definition scan_items (s : UndeliveredOutboxStatusScanV1) : list (UndeliveredOutboxStatusV1 * Z) :=
  match s with UndeliveredPage items _ _ => items | UndeliveredExactEnd items _ => items end.
Definition scan_continuation (s : UndeliveredOutboxStatusScanV1) : option (EventId * EventId) :=
  match s with
  | UndeliveredPage _ after upper => Some (after, upper)
  | UndeliveredExactEnd _ _ => None
  end.
