(* ===== verification/OutboxStore.v ===== *)
(** * The outbox of the redb store

    [riffdb-storage-redb/src/derived.rs] (the [OutboxRepository] of the
    operational ports), [derived/outbox_claim_group.rs],
    [derived/outbox_success_group.rs], and the outbox parts of [transient.rs]
    and [store.rs]: the status table, the proof that an event has its
    authoritative intent, the two scans, the compare-and-transition operations,
    and the transient membership index that the scans page through.

    The rows of the authoritative tables are a record of reads, whose decoding
    is the protobuf codec's.  What the database engine does during an operation
    (a refused transaction, a commit whose outcome is an error) is an argument,
    a [Faults]. *)

From S2P Require Import Prelude Value Key StorageBase OutboxStatus.
From stdpp Require Import gmap list.

Local Open Scope Z_scope.

(** ** The authoritative rows *)

(** The part of a commit record that reciprocal checks read. *)
Record CommitRecord := mkCommitRecord {
  cr_events : list StoredDurableEventV1;
  cr_outbox_event_ids : list EventId;
}.

Record Authority := mkAuthority {
  command_member_at : Z -> Storage (option CommitRecord);
  indexed_command_at : Z -> Storage (option (list StoredDurableEventV1));
  event_row : EventId -> Storage (option (StoredDurableEventV1 * Z));
  intent_row : EventId -> Storage (option (list byte));
  decode_outbox_intent : list byte -> StoredDurableEventV1 -> Storage (StoredDurableEventV1 * Z);
  commit_at : Z -> Storage (option CommitRecord);
  durable_event_bytes : StoredDurableEventV1 -> Storage Z;
  outbox_intent_bytes : StoredDurableEventV1 -> Storage Z;
  (** What an index rebuild iterates: the event ids of the command segments and
      of the standalone intent rows. *)
  segment_event_ids : list EventId;
  intent_keys : list EventId;
}.

(** ** The transient index *)
Record TransientIndexes := mkTransientIndexes {
  command_derived : bool;
  event_routes : option (gset (list byte * EventId));
  outbox_intents : option (gset EventId);
  pending_outbox : option (gset EventId);
  undelivered_outbox : option (gset EventId);
}.

Inductive TransientIndexState :=
  | Dormant
  | Ready (indexes : TransientIndexes)
  | Invalid.

Inductive TransientIndexDelta :=
  | PendingOutboxInserted (events : list EventId)
  | OutboxSucceeded (events : list EventId)
  | OutboxClaimed (events : list EventId)
  | CommandSegmentPublished (events : list (list byte * EventId))
  | D_HistoryPruned (through : Z)
  | PendingOutboxMembership (event_id : EventId)
      (was_pending pending was_undelivered undelivered : bool).

Definition invalidate_outbox (ix : TransientIndexes) : TransientIndexes :=
  mkTransientIndexes (command_derived ix) (event_routes ix) None None None.

Definition with_outbox (ix : TransientIndexes) (pending undelivered : gset EventId) :
    TransientIndexes :=
  mkTransientIndexes (command_derived ix) (event_routes ix) (outbox_intents ix)
    (Some pending) (Some undelivered).

Definition update_event_membership (index : gset EventId) (event_id : EventId)
    (expected updated : bool) : option (gset EventId) :=
  if negb (Bool.eqb (bool_decide (event_id ∈ index)) expected) then None
  else if updated then Some ({[event_id]} ∪ index) else Some (index ∖ {[event_id]}).

Definition apply_membership (ix : TransientIndexes) (event_id : EventId)
    (was_pending pending was_undelivered undelivered : bool) : TransientIndexes :=
  match pending_outbox ix, undelivered_outbox ix with
  | Some pending_index, Some undelivered_index =>
      match update_event_membership pending_index event_id was_pending pending with
      | None => invalidate_outbox ix
      | Some pending_index =>
          match update_event_membership undelivered_index event_id was_undelivered undelivered with
          | None => invalidate_outbox ix
          | Some undelivered_index => with_outbox ix pending_index undelivered_index
          end
      end
  | _, _ => ix
  end.

(** [BTreeSet::insert] of every event, failing at the first that is present. *)
Fixpoint insert_new {A} `{Countable A} (l : list A) (s : gset A) : option (gset A) :=
  match l with
  | [] => Some s
  | e :: l' => if bool_decide (e ∈ s) then None else insert_new l' ({[e]} ∪ s)
  end.

Definition publish_outbox (ix : TransientIndexes) (events : list EventId) : TransientIndexes :=
  match outbox_intents ix, pending_outbox ix, undelivered_outbox ix with
  | Some intents, Some pending, Some undelivered =>
      match insert_new events intents, insert_new events pending, insert_new events undelivered with
      | Some intents, Some pending, Some undelivered =>
          mkTransientIndexes (command_derived ix) (event_routes ix) (Some intents) (Some pending)
            (Some undelivered)
      | _, _, _ => invalidate_outbox ix
      end
  | _, _, _ => ix
  end.

Definition prune_history (ix : TransientIndexes) (through : Z) : TransientIndexes :=
  match u_checked 64 (through + 1) with
  | None => invalidate_outbox ix
  | Some after =>
      let boundary := mkEventId after 0 in
      let split_off (s : gset EventId) := filter (event_le boundary) s in
      mkTransientIndexes (command_derived ix) (event_routes ix) (split_off <$> outbox_intents ix)
        (split_off <$> pending_outbox ix) (split_off <$> undelivered_outbox ix)
  end.

Definition apply_disposable_delta (ix : TransientIndexes) (delta : TransientIndexDelta) :
    TransientIndexes :=
  match delta with
  | OutboxSucceeded events =>
      foldl (fun ix e => apply_membership ix e false false true false) ix events
  | OutboxClaimed events =>
      foldl (fun ix e => apply_membership ix e true false true true) ix events
  | PendingOutboxInserted events =>
      match pending_outbox ix, undelivered_outbox ix with
      | Some pending, Some undelivered =>
          match insert_new events pending, insert_new events undelivered with
          | Some pending, Some undelivered => with_outbox ix pending undelivered
          | _, _ => invalidate_outbox ix
          end
      | _, _ => ix
      end
  | CommandSegmentPublished events =>
      if negb (command_derived ix) then ix
      else
        match event_routes ix with
        | Some routes =>
            match insert_new events routes with
            | None =>
                invalidate_outbox (mkTransientIndexes (command_derived ix) None (outbox_intents ix)
                                     (pending_outbox ix) (undelivered_outbox ix))
            | Some routes =>
                publish_outbox (mkTransientIndexes (command_derived ix) (Some routes)
                                  (outbox_intents ix) (pending_outbox ix) (undelivered_outbox ix))
                  (map snd events)
            end
        | None => publish_outbox ix (map snd events)
        end
  | D_HistoryPruned through => prune_history ix through
  | PendingOutboxMembership event_id was_pending pending was_undelivered undelivered =>
      apply_membership ix event_id was_pending pending was_undelivered undelivered
  end.

(** The ids of a set after an exclusive bound, in order. *)
Definition range_after (s : gset EventId) (after : option EventId) : list EventId :=
  match after with
  | Some a => filter (fun e => event_lt a e) (in_order s)
  | None => in_order s
  end.

(** [take(limit + 1)], [len() > limit], [truncate(limit)] *)
Definition page_event_index (index : gset EventId) (after : option EventId) (limit : nat) :
    list EventId * bool :=
  let events := take (S limit) (range_after index after) in
  (take limit events, (limit <? length events)%nat).

Definition indexes_pending_outbox_page (ix : TransientIndexes) (after : option EventId)
    (limit : nat) : option (list EventId * bool) :=
  s ← pending_outbox ix; Some (page_event_index s after limit).

Definition indexes_undelivered_outbox_page (ix : TransientIndexes) (after : option EventId)
    (limit : nat) : option (list EventId * bool) :=
  s ← undelivered_outbox ix; Some (page_event_index s after limit).

Definition indexes_outbox_intent_last (ix : TransientIndexes) : option (option EventId) :=
  s ← outbox_intents ix; Some (last (in_order s)).

(** ** The store *)
Record OutboxStore := mkOutboxStore {
  os_authority : Authority;
  os_statuses : gmap EventId (list byte);
  os_indexes : TransientIndexState;
}.

Inductive CommitFate :=
  | Committed
  (** The commit returned an error; the rows may or may not have landed. *)
  | CommitFailed (landed : bool) (error : StorageErrorKind)
  (** The rows are durable, the refresh that follows failed. *)
  | RefreshFailed (error : StorageErrorKind).

Record Faults := mkFaults {
  f_dormant : StorageErrorKind;
  f_lease : Storage unit;
  f_read : Storage unit;
  f_begin_write : Storage unit;
  f_abort : Storage unit;
  f_prepare : Storage unit;
  f_commit : CommitFate;
}.

Definition no_faults : Faults :=
  mkFaults Unavailable_ (Ok tt) (Ok tt) (Ok tt) (Ok tt) (Ok tt) Committed.

Definition ensure_transient_indexes_ready (f : Faults) (s : OutboxStore) : Storage unit :=
  match os_indexes s with
  | Ready _ => Ok tt
  | Invalid => Err Unavailable_
  | Dormant => Err (f_dormant f)
  end.

Definition with_ready {A} (f : Faults) (s : OutboxStore) (k : TransientIndexes -> option A) :
    Storage A :=
  _ ← ensure_transient_indexes_ready f s;
  match os_indexes s with
  | Ready indexes => ok_or (k indexes) Unavailable_
  | Dormant | Invalid => Err Unavailable_
  end.

Definition pending_outbox_page (f : Faults) (s : OutboxStore) (after : option EventId)
    (limit : nat) : Storage (list EventId * bool) :=
  if (limit =? 0)%nat then Ok ([], false)
  else with_ready f s (fun ix => indexes_pending_outbox_page ix after limit).

Definition undelivered_outbox_page (f : Faults) (s : OutboxStore) (after : option EventId)
    (limit : nat) : Storage (list EventId * bool) :=
  if (limit =? 0)%nat then Ok ([], false)
  else with_ready f s (fun ix => indexes_undelivered_outbox_page ix after limit).

Definition outbox_intent_last (f : Faults) (s : OutboxStore) : Storage (option EventId) :=
  with_ready f s indexes_outbox_intent_last.

Definition ensure_outbox_indexes_available (f : Faults) (s : OutboxStore) : Storage unit :=
  _ ← pending_outbox_page f s None 0;
  _ ← undelivered_outbox_page f s None 0;
  Ok tt.

Section codec.
Context `{StatusCodec}.

(** ** Reciprocal items *)
Record ReciprocalOutboxItem := mkReciprocal {
  ri_event : StoredDurableEventV1;
  ri_intent : StoredDurableEventV1;
  ri_status : OutboxStatusObservationV1;
  ri_encoded_bytes : Z;
}.

Definition read_status (statuses : gmap EventId (list byte)) (event_id : EventId) :
    Storage (option (StoredOutboxStatusV1 * Z)) :=
  match statuses !! event_id with
  | None => Ok None
  | Some encoded =>
      status ← decode_outbox_status_v1 encoded;
      if negb (bool_decide (st_event_id status.1 = event_id)) then Err CorruptData
      else Ok (Some status)
  end.

Definition reciprocal_of (event intent : StoredDurableEventV1) (event_bytes intent_bytes : Z)
    (status : option (StoredOutboxStatusV1 * Z)) : Storage ReciprocalOutboxItem :=
  encoded_bytes ←
    ok_or (bytes ← usize_checked_add event_bytes intent_bytes;
           match status with
           | None => Some bytes
           | Some (_, charge) => usize_checked_add bytes charge
           end) CorruptData;
  Ok (mkReciprocal event intent
        (match status with None => AbsentInitialPending | Some (s, _) => Present s end)
        encoded_bytes).

(** An event owned by a command segment, whose intent is itself. *)
Definition segment_item (a : Authority) (statuses : gmap EventId (list byte)) (event_id : EventId)
    (event : StoredDurableEventV1) : Storage ReciprocalOutboxItem :=
  status ← read_status statuses event_id;
  event_bytes ← durable_event_bytes a event;
  intent_bytes ← outbox_intent_bytes a event;
  reciprocal_of event event event_bytes intent_bytes status.

(** An event with standalone rows. *)
Definition physical_item (a : Authority) (statuses : gmap EventId (list byte))
    (event_id : EventId) : Storage (option ReciprocalOutboxItem) :=
  let ordinal := Z.to_nat (ev_event_ordinal event_id) in
  event ← event_row a event_id;
  encoded_intent ← intent_row a event_id;
  intent ← match encoded_intent, event with
           | Some encoded, Some (event, _) => Some <$> decode_outbox_intent a encoded event
           | Some _, None => Err CorruptData
           | None, _ => Ok None
           end;
  status ← read_status statuses event_id;
  commit ← commit_at a (ev_commit_sequence event_id);
  match event, intent with
  | None, None =>
      if bool_decide (is_Some status)
         || match commit with
            | Some commit => bool_decide (is_Some (cr_events commit !! ordinal))
                             || bool_decide (is_Some (cr_outbox_event_ids commit !! ordinal))
            | None => false
            end
      then Err CorruptData else Ok None
  | Some (event, event_bytes), Some (intent, intent_bytes) =>
      if negb (bool_decide (de_event_id event = event_id))
         || negb (bool_decide (de_event_id intent = event_id))
         || negb (bool_decide (intent = event))
      then Err CorruptData
      else
        commit ← ok_or commit CorruptData;
        if negb (bool_decide (cr_events commit !! ordinal = Some event))
           || negb (bool_decide (cr_outbox_event_ids commit !! ordinal = Some event_id))
        then Err CorruptData
        else Some <$> reciprocal_of event intent event_bytes intent_bytes status
  | _, _ => Err CorruptData
  end.

Definition reciprocal_outbox_item_access (a : Authority) (statuses : gmap EventId (list byte))
    (event_id : EventId) : Storage (option ReciprocalOutboxItem) :=
  let ordinal := Z.to_nat (ev_event_ordinal event_id) in
  command ← command_member_at a (ev_commit_sequence event_id);
  match command with
  | Some commit =>
      event ← ok_or (cr_events commit !! ordinal) CorruptData;
      if negb (bool_decide (de_event_id event = event_id))
         || negb (bool_decide (cr_outbox_event_ids commit !! ordinal = Some event_id))
      then Err CorruptData
      else Some <$> segment_item a statuses event_id event
  | None => physical_item a statuses event_id
  end.

(** The lookup of the write path, which consults the index of commands first. *)
Definition reciprocal_outbox_item (a : Authority) (statuses : gmap EventId (list byte))
    (event_id : EventId) : Storage (option ReciprocalOutboxItem) :=
  let ordinal := Z.to_nat (ev_event_ordinal event_id) in
  indexed ← indexed_command_at a (ev_commit_sequence event_id);
  command_event ←
    match indexed with
    | Some events => Some <$> ok_or (events !! ordinal) CorruptData
    | None =>
        command ← command_member_at a (ev_commit_sequence event_id);
        match command with
        | Some commit =>
            if negb (bool_decide (cr_outbox_event_ids commit !! ordinal = Some event_id))
            then Err CorruptData
            else Some <$> ok_or (cr_events commit !! ordinal) CorruptData
        | None => Ok None
        end
    end;
  match command_event with
  | Some event =>
      if negb (bool_decide (de_event_id event = event_id)) then Err CorruptData
      else Some <$> segment_item a statuses event_id event
  | None => physical_item a statuses event_id
  end.

Definition status_is_undelivered (o : OutboxStatusObservationV1) : bool :=
  match o with Present (mkOutboxStatus _ (Delivered _ _ _)) => false | _ => true end.

Definition request_value_error (e : StorageValueError) : StorageErrorKind :=
  match e with
  | SV_LimitExceeded | SV_SizeOverflow => LimitExceeded
  | _ => InvariantViolation
  end.

Definition stored_value_error (e : StorageValueError) : StorageErrorKind :=
  match e with
  | SV_LimitExceeded | SV_SizeOverflow => LimitExceeded
  | _ => CorruptData
  end.

(** ** Reads *)
Definition read_outbox_status (f : Faults) (s : OutboxStore) (event_id : EventId) :
    Storage (option OutboxStatusObservationV1) :=
  _ ← f_read f;
  item ← reciprocal_outbox_item_access (os_authority s) (os_statuses s) event_id;
  Ok (match item with Some item => Some (ri_status item) | None => None end).

Definition has_undelivered_outbox (f : Faults) (s : OutboxStore) : Storage bool :=
  _ ← ensure_transient_indexes_ready f s;
  _ ← f_lease f;
  page ← undelivered_outbox_page f s None 1;
  Ok (negb (bool_decide (page.1 = []))).

Definition content_charge (bytes : Z) : option Z :=
  if (bytes =? 0) || (MAX_DURABLE_ENCODED_CONTENT_BYTES <? bytes) then None else Some bytes.

(** The loop of the pending scan: the items pushed and whether it stopped at the
    page's byte bound. *)
Fixpoint pending_items (a : Authority) (statuses : gmap EventId (list byte))
    (items : list (PendingOutboxItemV1 * Z)) (encoded_bytes : Z) (event_ids : list EventId) :
    Storage (list (PendingOutboxItemV1 * Z) * bool) :=
  match event_ids with
  | [] => Ok (items, false)
  | event_id :: rest =>
      item ← reciprocal_outbox_item_access a statuses event_id;
      item ← ok_or item CorruptData;
      if negb (is_pending (ri_status item)) then Err CorruptData
      else
        next_bytes ← ok_or (usize_checked_add encoded_bytes (ri_encoded_bytes item)) CorruptData;
        if MAX_SCAN_PAGE_BYTES <? next_bytes then
          if bool_decide (items = []) then Err LimitExceeded else Ok (items, true)
        else
          charge ← ok_or (content_charge (ri_encoded_bytes item)) CorruptData;
          pending ← map_err stored_value_error
                      (pending_item_new (ri_event item) (ri_intent item) (ri_status item));
          pending_items a statuses (items ++ [(pending, charge)]) next_bytes rest
  end.

Definition scan_pending_outbox (f : Faults) (s : OutboxStore) (after : option EventId)
    (limit : Z) : Storage PendingOutboxScanV1 :=
  _ ← ensure_transient_indexes_ready f s;
  _ ← f_lease f;
  let wanted := Z.to_nat limit in
  page ← pending_outbox_page f s after wanted;
  _ ← f_read f;
  loop ← pending_items (os_authority s) (os_statuses s) [] 0 page.1;
  map_err stored_value_error (pending_scan_page loop.1 (page.2 || loop.2)).

Fixpoint undelivered_items (a : Authority) (statuses : gmap EventId (list byte))
    (inclusive_upper : EventId) (wanted : nat) (items : list (UndeliveredOutboxStatusV1 * Z))
    (encoded_bytes : Z) (source : list EventId) :
    Storage (list (UndeliveredOutboxStatusV1 * Z) * bool) :=
  match source with
  | [] => Ok (items, false)
  | event_id :: rest =>
      if bool_decide (event_lt inclusive_upper event_id) then Ok (items, false)
      else
        item ← reciprocal_outbox_item_access a statuses event_id;
        item ← ok_or item CorruptData;
        if negb (status_is_undelivered (ri_status item))
        then undelivered_items a statuses inclusive_upper wanted items encoded_bytes rest
        else
          next_bytes ← ok_or (usize_checked_add encoded_bytes (ri_encoded_bytes item)) CorruptData;
          if (length items =? wanted)%nat || (MAX_SCAN_PAGE_BYTES <? next_bytes) then
            if bool_decide (items = []) then Err LimitExceeded else Ok (items, true)
          else
            charge ← ok_or (content_charge (ri_encoded_bytes item)) CorruptData;
            status ← map_err stored_value_error (undelivered_new event_id (ri_status item));
            undelivered_items a statuses inclusive_upper wanted (items ++ [(status, charge)])
              next_bytes rest
  end.

Definition scan_undelivered_outbox_statuses (f : Faults) (s : OutboxStore)
    (request : UndeliveredOutboxStatusScanRequestV1) : Storage UndeliveredOutboxStatusScanV1 :=
  _ ← ensure_transient_indexes_ready f s;
  _ ← f_lease f;
  _ ← undelivered_outbox_page f s None 0;
  _ ← f_read f;
  last_intent ← outbox_intent_last f s;
  match match request_inclusive_upper request with Some u => Some u | None => last_intent end with
  | None =>
      if negb (bool_decide (os_statuses s = ∅)) then Err CorruptData
      else map_err stored_value_error (undelivered_exact_end request None [])
  | Some inclusive_upper =>
      if match request_after request with
         | Some after => bool_decide (event_lt inclusive_upper after)
         | None => false
         end
      then Err InvariantViolation
      else
        let wanted := Z.to_nat (request_limit request) in
        page ← undelivered_outbox_page f s (request_after request) (S wanted);
        loop ← undelivered_items (os_authority s) (os_statuses s) inclusive_upper wanted [] 0 page.1;
        map_err stored_value_error
          (if (page.2 || loop.2 : bool)
           then undelivered_page request inclusive_upper loop.1
           else undelivered_exact_end request (Some inclusive_upper) loop.1)
  end.

(** ** Transitions *)

(** [commit_for_with_delta]: the transaction's rows become durable, then the
    index follows. *)
Definition commit_for_with_delta (f : Faults) (statuses : gmap EventId (list byte))
    (delta : TransientIndexDelta) : SE OutboxStore StorageErrorKind unit := fun s =>
  match os_indexes s with
  | Ready indexes =>
      match f_prepare f with
      | Err e => (s, Err e)
      | Ok _ =>
          match f_commit f with
          | Committed =>
              (mkOutboxStore (os_authority s) statuses
                 (Ready (apply_disposable_delta indexes delta)), Ok tt)
          | CommitFailed landed e =>
              (mkOutboxStore (os_authority s) (if landed then statuses else os_statuses s) Invalid,
               Err e)
          | RefreshFailed e => (mkOutboxStore (os_authority s) statuses Invalid, Err e)
          end
      end
  | Dormant | Invalid => (s, Err Unavailable_)
  end.

(** The insert of the post-image, with the check of the row it replaced; the two
    call sites report a missing or surplus row with different errors. *)
Definition insert_status (mismatch : StorageErrorKind) (statuses : gmap EventId (list byte))
    (t : OutboxTransition) (encoded : list byte) : Storage (gmap EventId (list byte)) :=
  let event_id := tr_event_id t in
  _ ← match tr_expected t, statuses !! event_id with
      | AbsentInitialPending, None => Ok tt
      | Present expected, Some previous =>
          prior ← decode_outbox_status_v1 previous;
          if negb (bool_decide (prior.1 = expected))
             || negb (bool_decide (st_event_id prior.1 = event_id))
          then Err CorruptData else Ok tt
      | _, _ => Err mismatch
      end;
  Ok (<[event_id := encoded]> statuses).

(** [transition_outbox], called with the event, the expected observation and the
    post-image of a checked transition. *)
Definition transition_outbox (f : Faults) (t : OutboxTransition) :
    SE OutboxStore StorageErrorKind OutboxTransitionResultV1 := fun s =>
  let event_id := tr_event_id t in
  match (_ ← f_begin_write f;
         _ ← ensure_outbox_indexes_available f s;
         reciprocal_outbox_item (os_authority s) (os_statuses s) event_id) with
  | Err e => (s, Err e)
  | Ok None => (s, _ ← f_abort f; Ok AuthoritativeIntentMissing)
  | Ok (Some current) =>
      if negb (bool_decide (ri_status current = tr_expected t))
      then (s, _ ← f_abort f; Ok (StateChanged (ri_status current)))
      else
        match (encoded ← encode_outbox_status_v1 (tr_updated t);
               insert_status InvariantViolation (os_statuses s) t encoded) with
        | Err e => (s, Err e)
        | Ok statuses =>
            (_ ← commit_for_with_delta f statuses
                   (PendingOutboxMembership event_id (is_pending (tr_expected t))
                      (state_is_pending (st_state (tr_updated t)))
                      (status_is_undelivered (tr_expected t))
                      (status_is_undelivered (Present (tr_updated t))));
             mret (Applied (tr_updated t))) s
        end
  end.

(** The read loop of a group: one result per transition, [None] when some event
    has no authoritative intent. *)
Fixpoint group_results (a : Authority) (statuses : gmap EventId (list byte))
    (l : list OutboxTransition) : Storage (option (list OutboxTransitionResultV1)) :=
  match l with
  | [] => Ok (Some [])
  | t :: rest =>
      current ← reciprocal_outbox_item a statuses (tr_event_id t);
      match current with
      | None => Ok None
      | Some current =>
          let r := if negb (bool_decide (ri_status current = tr_expected t))
                   then StateChanged (ri_status current) else Applied (tr_updated t) in
          results ← group_results a statuses rest;
          Ok (option_map (cons r) results)
      end
  end.

Definition is_applied (r : OutboxTransitionResultV1) : bool :=
  match r with Applied _ => true | _ => false end.

(** The write loop over the matched transitions with their encodings. *)
Fixpoint group_write (statuses : gmap EventId (list byte))
    (l : list (OutboxTransition * list byte)) : Storage (gmap EventId (list byte)) :=
  match l with
  | [] => Ok statuses
  | (t, encoded) :: rest =>
      statuses ← insert_status CorruptData statuses t encoded;
      group_write statuses rest
  end.

Fixpoint encode_all (l : list OutboxTransition) : Storage (list (OutboxTransition * list byte)) :=
  match l with
  | [] => Ok []
  | t :: rest =>
      encoded ← encode_outbox_status_v1 (tr_updated t);
      rest ← encode_all rest;
      Ok ((t, encoded) :: rest)
  end.

Definition transition_group (f : Faults) (delta : list EventId -> TransientIndexDelta)
    (group : list OutboxTransition) : SE OutboxStore StorageErrorKind OutboxGroupResultV1 := fun s =>
  match (encoded ← encode_all group;
         _ ← f_begin_write f;
         _ ← ensure_outbox_indexes_available f s;
         results ← group_results (os_authority s) (os_statuses s) group;
         Ok (encoded, results)) with
  | Err e => (s, Err e)
  | Ok (_, None) => (s, _ ← f_abort f; Ok GroupAuthoritativeIntentMissing)
  | Ok (encoded, Some results) =>
      match map_err request_value_error (group_completion_new group results) with
      | Err e => (s, Err e)
      | Ok completion =>
          let matched := map fst (filter (fun p => is_applied p.2) (zip encoded completion)) in
          if bool_decide (matched = []) then (s, _ ← f_abort f; Ok (GroupComplete completion))
          else
            match group_write (os_statuses s) matched with
            | Err e => (s, Err e)
            | Ok statuses =>
                (_ ← commit_for_with_delta f statuses
                       (delta (map (fun p => tr_event_id p.1) matched));
                 mret (GroupComplete completion)) s
            end
      end
  end.

(** [outbox_claim_group::claim] *)
Definition claim_outbox_group (f : Faults) (group : list OutboxTransition) :
    SE OutboxStore StorageErrorKind OutboxGroupResultV1 :=
  _ ← lift (map_err request_value_error (claim_group_new group));
  transition_group f OutboxClaimed group.

(** [outbox_success_group::complete] *)
Definition succeed_outbox_group (f : Faults) (group : list OutboxTransition) :
    SE OutboxStore StorageErrorKind OutboxGroupResultV1 :=
  _ ← lift (map_err request_value_error (succeed_group_new group));
  transition_group f OutboxSucceeded group.

(** ** Rebuilding the index *)
Fixpoint rebuild_statuses (intents pending undelivered : gset EventId)
    (rows : list (EventId * list byte)) : option (gset EventId * gset EventId) :=
  match rows with
  | [] => Some (pending, undelivered)
  | (event_id, value) :: rest =>
      if negb (bool_decide (event_id ∈ intents)) then None
      else
        match decode_outbox_status_v1 value with
        | Err _ => None
        | Ok (status, _) =>
            if negb (bool_decide (st_event_id status = event_id)) then None
            else
              rebuild_statuses intents
                (if state_is_pending (st_state status) then pending else pending ∖ {[event_id]})
                (match st_state status with
                 | Delivered _ _ _ => undelivered ∖ {[event_id]}
                 | _ => undelivered
                 end) rest
        end
  end.

Definition rebuild_outbox_indexes (a : Authority) (statuses : gmap EventId (list byte)) :
    Storage (option (gset EventId * gset EventId * gset EventId)) :=
  segments ← ok_or (insert_new (segment_event_ids a) (∅ : gset EventId)) CorruptData;
  let all_intents := segments ∪ list_to_set (intent_keys a) in
  Ok (p ← rebuild_statuses all_intents all_intents all_intents (map_to_list statuses);
      Some (all_intents, p.1, p.2)).
End codec.
