(* ===== verification/OutboxStoreSpec.v ===== *)
(** * What the store promises of the outbox

    The specification is a map of statuses under compare-and-transition over a
    set of events with authoritative intents ([cas], [cas_group]).  The redb
    operations implement it, leave the transient index exact whenever it is in
    use, and the scans return what the map holds. *)

From S2P Require Import Prelude Value Key StorageBase OutboxStatus OutboxStore.
From stdpp Require Import gmap list sorting.

Local Open Scope Z_scope.

(** ** The specification *)
Abbreviation Statuses := (gmap EventId StoredOutboxStatusV1).

Definition observe (m : Statuses) (e : EventId) : OutboxStatusObservationV1 :=
  match m !! e with Some s => Present s | None => AbsentInitialPending end.

Definition cas (S : gset EventId) (m : Statuses) (t : OutboxTransition) :
    Statuses * OutboxTransitionResultV1 :=
  let e := tr_event_id t in
  if bool_decide (e ∈ S) then
    if bool_decide (observe m e = tr_expected t)
    then (<[e := tr_updated t]> m, Applied (tr_updated t))
    else (m, StateChanged (observe m e))
  else (m, AuthoritativeIntentMissing).

Fixpoint cas_all (S : gset EventId) (m : Statuses) (l : list OutboxTransition) :
    Statuses * list OutboxTransitionResultV1 :=
  match l with
  | [] => (m, [])
  | t :: l' =>
      let '(m1, r) := cas S m t in
      let '(m2, rs) := cas_all S m1 l' in (m2, r :: rs)
  end.

(** A group is its transitions one after the other, all of them or none. *)
Definition cas_group (S : gset EventId) (m : Statuses) (l : list OutboxTransition) :
    Statuses * OutboxGroupResultV1 :=
  if bool_decide (Forall (fun t => tr_event_id t ∈ S) l)
  then let '(m', rs) := cas_all S m l in (m', GroupComplete rs)
  else (m, GroupAuthoritativeIntentMissing).

(** What an answer says of the statuses [m'] that an operation leaves: an answer
    is that of the specification, an error leaves its map or the old one. *)
Definition answered {A} (m : Statuses) (r : Storage A) (spec : Statuses * A) (m' : Statuses) : Prop :=
  match r with
  | Ok a => (m', a) = spec
  | Err _ => m' = m \/ m' = spec.1
  end.

Lemma filter_map_fst {A B} (P : A -> Prop) `{!forall x, Decision (P x)} (l : list (A * B)) :
  filter P (map fst l) = map fst (filter (fun q => P q.1) l).
Proof.
  induction l as [|[a b] l IH]; [done|]. cbn [map fst]. rewrite !filter_cons, IH. cbn [fst].
  by case_decide.
Qed.

(** ** Membership sets *)
Lemma update_membership_filter (p q : EventId -> bool) (S : gset EventId) e :
  e ∈ S -> (forall x, x <> e -> q x = p x) ->
  update_event_membership (filter (fun x => p x = true) S) e (p e) (q e)
    = Some (filter (fun x => q x = true) S).
Proof.
  intros He Hq. unfold update_event_membership.
  assert (bool_decide (e ∈ filter (fun x => p x = true) S) = p e) as ->.
  { apply eq_true_iff_eq. rewrite bool_decide_eq_true, elem_of_filter. tauto. }
  rewrite eqb_reflx. cbn. destruct (q e) eqn:Eq; f_equal; apply leibniz_equiv; intros x;
    rewrite ?elem_of_union, ?elem_of_difference, !elem_of_filter, elem_of_singleton;
    (destruct (decide (x = e)) as [->|Hx]; [rewrite Eq; naive_solver|rewrite (Hq x Hx); naive_solver]).
Qed.

Lemma insert_new_spec {A} `{Countable A} (l : list A) (s : gset A) :
  NoDup l -> (forall x, x ∈ l -> x ∉ s) -> insert_new l s = Some (list_to_set l ∪ s).
Proof.
  revert s. induction l as [|x l IH]; intros s Hnd Hs; cbn; [f_equal; set_solver|].
  inversion Hnd; subst. rewrite bool_decide_false by set_solver.
  rewrite IH; [f_equal; set_solver|done|set_solver].
Qed.

Lemma observe_insert m e u x :
  observe (<[e := u]> m) x = if bool_decide (x = e) then Present u else observe m x.
Proof.
  unfold observe. case_bool_decide as Hx; [subst; by rewrite lookup_insert_eq|].
  by rewrite lookup_insert_ne by done.
Qed.

Section spec.
Context `{StatusCodecLaws}.

(** ** Well-formed stores *)

(** Where the rows of an event are, with the charges of the event and of its
    intent. *)
Inductive located (a : Authority) (e : EventId) : option (StoredDurableEventV1 * Z * Z) -> Prop :=
  | loc_segment c ev n m :
      command_member_at a (ev_commit_sequence e) = Ok (Some c) ->
      indexed_command_at a (ev_commit_sequence e) ∈ [Ok None; Ok (Some (cr_events c))] ->
      cr_events c !! Z.to_nat (ev_event_ordinal e) = Some ev ->
      cr_outbox_event_ids c !! Z.to_nat (ev_event_ordinal e) = Some e ->
      de_event_id ev = e ->
      durable_event_bytes a ev = Ok n -> outbox_intent_bytes a ev = Ok m ->
      located a e (Some (ev, n, m))
  | loc_physical c ev n b m :
      command_member_at a (ev_commit_sequence e) = Ok None ->
      indexed_command_at a (ev_commit_sequence e) = Ok None ->
      event_row a e = Ok (Some (ev, n)) -> intent_row a e = Ok (Some b) ->
      decode_outbox_intent a b ev = Ok (ev, m) ->
      commit_at a (ev_commit_sequence e) = Ok (Some c) ->
      cr_events c !! Z.to_nat (ev_event_ordinal e) = Some ev ->
      cr_outbox_event_ids c !! Z.to_nat (ev_event_ordinal e) = Some e ->
      de_event_id ev = e ->
      located a e (Some (ev, n, m))
  | loc_none oc :
      command_member_at a (ev_commit_sequence e) = Ok None ->
      indexed_command_at a (ev_commit_sequence e) = Ok None ->
      event_row a e = Ok None -> intent_row a e = Ok None ->
      commit_at a (ev_commit_sequence e) = Ok oc ->
      (forall c, oc = Some c -> cr_events c !! Z.to_nat (ev_event_ordinal e) = None /\
                                cr_outbox_event_ids c !! Z.to_nat (ev_event_ordinal e) = None) ->
      located a e None.

(** An event that the command of its sequence does not have. *)
Inductive beyond (a : Authority) (e : EventId) : Prop :=
  | beyond_segment c :
      command_member_at a (ev_commit_sequence e) = Ok (Some c) ->
      indexed_command_at a (ev_commit_sequence e) ∈ [Ok None; Ok (Some (cr_events c))] ->
      (forall ev, cr_events c !! Z.to_nat (ev_event_ordinal e) = Some ev -> de_event_id ev <> e) ->
      beyond a e.

Definition charge_ok (n : Z) : Prop := 0 < n <= MAX_DURABLE_ENCODED_CONTENT_BYTES.

(** [S] is the set of events with their authoritative intents. *)
Record authority_ok (a : Authority) (S : gset EventId) : Prop := {
  ao_in e : e ∈ S -> exists ev n m, located a e (Some (ev, n, m)) /\ charge_ok n /\ charge_ok m;
  ao_out e : e ∉ S -> located a e None \/ beyond a e;
  ao_segments : NoDup (segment_event_ids a);
  ao_listed e : e ∈ S <-> e ∈ segment_event_ids a \/ e ∈ intent_keys a;
}.

(** Every row decodes to a status of its event. *)
Definition rows_ok (S : gset EventId) (rows : gmap EventId (list byte)) : Prop :=
  forall e b, rows !! e = Some b ->
    e ∈ S /\ exists s c, decode_outbox_status_v1 b = Ok (s, c) /\ st_event_id s = e /\ charge_ok c.

Definition view (rows : gmap EventId (list byte)) : Statuses :=
  omap (fun b => match decode_outbox_status_v1 b with Ok (s, _) => Some s | Err _ => None end) rows.

Definition exact (S : gset EventId) (m : Statuses) (ix : TransientIndexes) : Prop :=
  outbox_intents ix = Some S /\
  pending_outbox ix = Some (filter (fun e => is_pending (observe m e) = true) S) /\
  undelivered_outbox ix = Some (filter (fun e => status_is_undelivered (observe m e) = true) S).

Definition unused (ix : TransientIndexes) : Prop :=
  outbox_intents ix = None /\ pending_outbox ix = None /\ undelivered_outbox ix = None.

Definition index_ok (S : gset EventId) (m : Statuses) (i : TransientIndexState) : Prop :=
  match i with Ready ix => exact S m ix \/ unused ix | Dormant | Invalid => True end.

Record tables_ok (S : gset EventId) (s : OutboxStore) : Prop := {
  so_authority : authority_ok (os_authority s) S;
  so_rows : rows_ok S (os_statuses s);
}.

Record store_ok (S : gset EventId) (s : OutboxStore) : Prop := {
  so_tables :> tables_ok S s;
  so_index : index_ok S (view (os_statuses s)) (os_indexes s);
}.

(** ** Rows and lookups *)
Lemma view_lookup rows e : view rows !! e =
  b ← rows !! e; match decode_outbox_status_v1 b with Ok (s, _) => Some s | Err _ => None end.
Proof. unfold view. apply lookup_omap. Qed.

Lemma read_status_ok S rows e : rows_ok S rows ->
  exists o, read_status rows e = Ok o /\
    match o with Some (s, _) => Present s | None => AbsentInitialPending end = observe (view rows) e /\
    (forall s c, o = Some (s, c) -> st_event_id s = e /\ charge_ok c) /\
    (e ∉ S -> o = None).
Proof.
  intros Hr. unfold read_status, observe. rewrite view_lookup.
  destruct (rows !! e) as [b|] eqn:Eb; cbn; [|by exists None].
  destruct (Hr e b Eb) as (HS & s & c & -> & Hid & Hc). cbn. rewrite Hid, bool_decide_true by done.
  exists (Some (s, c)). split_and!; [done..| |done]. by intros ? ? [= <- <-].
Qed.

Lemma view_insert rows e b s : encode_outbox_status_v1 s = Ok b ->
  view (<[e := b]> rows) = <[e := s]> (view rows).
Proof.
  intros He. apply map_eq. intros e'. rewrite view_lookup.
  destruct (decide (e = e')) as [->|Hn].
  - rewrite !lookup_insert_eq. cbn. by rewrite (decode_encoded_status s b He).
  - rewrite !lookup_insert_ne by done. by rewrite view_lookup.
Qed.

Lemma reciprocal_of_ok ev n m o : charge_ok n -> charge_ok m ->
  (forall s c, o = Some (s, c) -> charge_ok c) ->
  exists k, 0 < k < 2 ^ 63 /\ reciprocal_of ev ev n m o =
    Ok (mkReciprocal ev ev
          (match o with None => AbsentInitialPending | Some (s, _) => Present s end) k).
Proof.
  unfold charge_ok. intros Hn Hm Ho. unfold reciprocal_of, usize_checked_add.
  assert (forall x y, 0 < x < 2 ^ 32 -> 0 < y < 2 ^ 32 -> u_checked 64 (x + y) = Some (x + y)) as Hadd.
  { intros x y Hx Hy. apply u_checked_Some. unfold u_range. lia. }
  rewrite Hadd by lia. cbn. destruct o as [[s c]|]; cbn; [|exists (n + m); split; [lia|done]].
  specialize (Ho s c eq_refl). rewrite Hadd by lia. exists (n + m + c). split; [lia|done].
Qed.

(** The lookup of an event, on the read path and on the write path. *)
Lemma lookup_located S a rows e ev n m : rows_ok S rows -> located a e (Some (ev, n, m)) ->
  charge_ok n -> charge_ok m ->
  exists k, 0 < k < 2 ^ 63 /\
    reciprocal_outbox_item_access a rows e = Ok (Some (mkReciprocal ev ev (observe (view rows) e) k)) /\
    reciprocal_outbox_item a rows e = Ok (Some (mkReciprocal ev ev (observe (view rows) e) k)).
Proof.
  intros Hr Hl Hn Hm. destruct (read_status_ok S rows e Hr) as (o & Ho & Hobs & Hc & _).
  destruct (reciprocal_of_ok ev n m o Hn Hm) as (k & Hk & Hrec); [intros s c E; apply (Hc s c E)|].
  exists k. split; [done|]. rewrite <- Hobs.
  unfold reciprocal_outbox_item_access, reciprocal_outbox_item.
  inversion Hl as [c ? ? ? Hcm Hix Hev Hid Hde Hn' Hm'|c ? ? b ? Hcm Hix Her Hir Hdec Hco Hev Hid Hde|]; subst.
  - assert (segment_item a rows (de_event_id ev) ev = Ok (mkReciprocal ev ev
          (match o with None => AbsentInitialPending | Some (s, _) => Present s end) k)) as Hseg.
    { unfold segment_item. rewrite Ho. cbn. rewrite Hn'. cbn. rewrite Hm'. cbn. apply Hrec. }
    split.
    { rewrite Hcm. cbn. rewrite Hev. cbn. rewrite Hid, !bool_decide_true by done. cbn. by rewrite Hseg. }
    set_unfold in Hix. destruct Hix as [->|[->|[]]]; cbn.
    + rewrite Hcm. cbn. rewrite Hid, Hev, bool_decide_true by done. cbn.
      by rewrite bool_decide_true, Hseg by done.
    + rewrite Hev. cbn. by rewrite bool_decide_true, Hseg by done.
  - assert (physical_item a rows (de_event_id ev) = Ok (Some (mkReciprocal ev ev
          (match o with None => AbsentInitialPending | Some (s, _) => Present s end) k))) as Hph.
    { unfold physical_item. rewrite Her. cbn. rewrite Hir. cbn. rewrite Hdec. cbn. rewrite Ho. cbn.
      rewrite Hco. cbn. rewrite !bool_decide_true by done. cbn. by rewrite Hrec. }
    rewrite Hcm, Hix. cbn. by rewrite Hph.
Qed.

Lemma lookup_none S a rows e : rows_ok S rows -> e ∉ S -> located a e None ->
  reciprocal_outbox_item a rows e = Ok None.
Proof.
  intros Hr He Hl. destruct (read_status_ok S rows e Hr) as (o & Ho & _ & _ & Hn).
  rewrite (Hn He) in Ho. inversion Hl as [| |oc Hcm Hix Her Hir Hco Hc]; subst.
  unfold reciprocal_outbox_item, physical_item. rewrite Hix. cbn. rewrite Hcm. cbn.
  rewrite Her. cbn. rewrite Hir. cbn. rewrite Ho. cbn. rewrite Hco. cbn.
  destruct oc as [c|]; [|done]. destruct (Hc c eq_refl) as [-> ->]. done.
Qed.

Lemma lookup_beyond a rows e : beyond a e -> exists k, reciprocal_outbox_item a rows e = Err k.
Proof.
  intros [c Hcm Hix Hev]. unfold reciprocal_outbox_item.
  assert (forall X (k : StoredDurableEventV1 -> Storage X), exists x,
    (ev ← ok_or (cr_events c !! Z.to_nat (ev_event_ordinal e)) CorruptData;
     if negb (bool_decide (de_event_id ev = e)) then Err CorruptData else k ev) = Err x) as Hget.
  { intros X k. destruct (_ !! _) as [ev|]; cbn; [|by eexists].
    rewrite bool_decide_false by auto. by eexists. }
  destruct (Hget _ (fun ev => Some <$> segment_item a rows e ev)) as [x Hx].
  set_unfold in Hix. destruct Hix as [->|[->|[]]]; cbn.
  - rewrite Hcm. cbn. destruct (bool_decide (_ = Some e)); cbn; [|by eexists].
    destruct (_ !! _); cbn in *; eauto.
  - destruct (_ !! _); cbn in *; eauto.
Qed.

(** What the write path sees of an event in a well-formed store. *)
Lemma lookup_cases S s e : tables_ok S s ->
  let r := reciprocal_outbox_item (os_authority s) (os_statuses s) e in
  (e ∈ S /\ exists i, r = Ok (Some i) /\ ri_status i = observe (view (os_statuses s)) e) \/
  (e ∉ S /\ (r = Ok None \/ exists k, r = Err k)).
Proof.
  intros [Ha Hr] r. subst r. destruct (decide (e ∈ S)) as [He|He].
  - left. split; [done|]. destruct (ao_in _ _ Ha e He) as (ev & n & m & Hl & Hn & Hm).
    destruct (lookup_located S _ _ _ _ _ _ Hr Hl Hn Hm) as (k & _ & _ & ->). by eexists.
  - right. split; [done|]. destruct (ao_out _ _ Ha e He) as [Hl|Hb].
    + left. by eapply lookup_none.
    + right. by apply lookup_beyond.
Qed.

(** ** The index follows the rows *)
Lemma exact_membership S m ix e u : exact S m ix -> e ∈ S ->
  exact S (<[e := u]> m)
    (apply_membership ix e (is_pending (observe m e)) (state_is_pending (st_state u))
       (status_is_undelivered (observe m e)) (status_is_undelivered (Present u))).
Proof.
  intros (Hi & Hp & Hu) He. unfold apply_membership. rewrite Hp, Hu.
  pose proof (fun g => update_membership_filter (fun x => g (observe m x))
    (fun x => g (observe (<[e := u]> m) x)) S e He) as Hupd. cbv beta in Hupd.
  assert (forall (g : OutboxStatusObservationV1 -> bool) x, x <> e ->
    g (observe (<[e := u]> m) x) = g (observe m x)) as Hne.
  { intros g x Hx. by rewrite observe_insert, bool_decide_false. }
  assert (observe (<[e := u]> m) e = Present u) as He' by by rewrite observe_insert, bool_decide_true.
  pose proof (Hupd is_pending (Hne _)) as H1. pose proof (Hupd status_is_undelivered (Hne _)) as H2.
  rewrite He' in H1, H2. cbn [is_pending] in H1. rewrite H1, H2. done.
Qed.

Lemma unused_membership ix e p p' u u' : unused ix -> apply_membership ix e p p' u u' = ix.
Proof. intros (_ & Hp & _). unfold apply_membership. by rewrite Hp. Qed.

Lemma rows_insert S rows e u b : rows_ok S rows -> e ∈ S -> st_event_id u = e ->
  encode_outbox_status_v1 u = Ok b -> rows_ok S (<[e := b]> rows).
Proof.
  intros Hr He Hu Hb x bx Hx. destruct (decide (x = e)) as [->|Hn].
  - rewrite lookup_insert_eq in Hx. injection Hx as <-. split; [done|].
    exists u, (zlen b). split_and!; [by apply decode_encoded_status|done|].
    unfold charge_ok. by apply encoded_status_length with u.
  - rewrite lookup_insert_ne in Hx by done. by apply Hr.
Qed.

(** Once the expected observation matched, the checked insert succeeds. *)
Lemma insert_status_ok k S rows t b : rows_ok S rows ->
  observe (view rows) (tr_event_id t) = tr_expected t ->
  insert_status k rows t b = Ok (<[tr_event_id t := b]> rows).
Proof.
  intros Hr Ho. unfold insert_status. rewrite <- Ho. unfold observe. rewrite view_lookup.
  destruct (rows !! tr_event_id t) as [b'|] eqn:Eb; cbn; [|done].
  destruct (Hr _ _ Eb) as (_ & s & c & -> & Hid & _). cbn.
  by rewrite Hid, !bool_decide_true by done.
Qed.

Lemma commit_ok S s rows delta f : store_ok S s -> rows_ok S rows ->
  (forall ix, exact S (view (os_statuses s)) ix -> exact S (view rows) (apply_disposable_delta ix delta)) ->
  (forall ix, unused ix -> unused (apply_disposable_delta ix delta)) ->
  let '(s', r) := commit_for_with_delta f rows delta s in
  store_ok S s' /\ os_authority s' = os_authority s /\
  match r with
  | Ok _ => os_statuses s' = rows
  | Err _ => os_statuses s' = os_statuses s \/ os_statuses s' = rows
  end.
Proof.
  intros [[Ha Hr] Hi] Hrows Hex Hun. unfold commit_for_with_delta.
  destruct (os_indexes s) as [|ix|] eqn:Ei; [by split_and!; [split| |left]; rewrite ?Ei| |
    by split_and!; [split| |left]; rewrite ?Ei].
  destruct (f_prepare f); [|by split_and!; [split| |left]; rewrite ?Ei].
  destruct (f_commit f) as [|[] e|e]; split_and!; cbn; auto;
    split; try (by split); cbn; auto.
  cbn in Hi. naive_solver.
Qed.

(** ** Compare-and-transition *)

(** An operation that answered [r] implements [spec]. *)
Definition implements {A} (S : gset EventId) (s s' : OutboxStore) (r : Storage A)
    (spec : Statuses * A) : Prop :=
  store_ok S s' /\ os_authority s' = os_authority s /\
  answered (view (os_statuses s)) r spec (view (os_statuses s')).

Lemma implements_refused {A} S s (r : Storage A) spec : store_ok S s ->
  (forall a, r = Ok a -> spec = (view (os_statuses s), a)) -> implements S s s r spec.
Proof. intros Hs Hr. split_and!; [done..|]. destruct r as [a|e]; cbn; [by rewrite (Hr a eq_refl)|by left]. Qed.

Lemma after_abort {A} f (a b : A) : (_ ← f_abort f; Ok a) = Ok b -> a = b.
Proof. destruct (f_abort f); cbn; congruence. Qed.

Lemma commit_implements {A} S s rows delta f (a : A) spec : store_ok S s -> rows_ok S rows ->
  (forall ix, exact S (view (os_statuses s)) ix -> exact S (view rows) (apply_disposable_delta ix delta)) ->
  (forall ix, unused ix -> unused (apply_disposable_delta ix delta)) ->
  spec = (view rows, a) ->
  let '(s', r) := (_ ← commit_for_with_delta f rows delta; mret a) s in
  implements S s s' r spec.
Proof.
  intros Hs Hr Hex Hun ->. pose proof (commit_ok S s rows delta f Hs Hr Hex Hun) as Hc.
  unfold mbind, SE_bind. destruct (commit_for_with_delta f rows delta s) as [s' [u|e]]; cbn in *.
  - destruct Hc as (? & ? & <-). by split_and!.
  - destruct Hc as (? & ? & [E|E]); split_and!; try done; cbn; rewrite E; auto.
Qed.

Lemma transition_implements S s f t : store_ok S s ->
  let '(s', r) := transition_outbox f t s in
  implements S s s' r (cas S (view (os_statuses s)) t).
Proof.
  intros Hs. unfold transition_outbox, cas. set (e := tr_event_id t).
  destruct (f_begin_write f); [cbn [mbind result_bind]|by apply implements_refused].
  change (ensure_outbox_indexes_available f s) with (Ok tt : Storage unit). cbn [mbind result_bind].
  destruct (lookup_cases S s e Hs) as [(He & i & -> & Hi)|(He & [->|(k & ->)])];
    [rewrite (bool_decide_true (e ∈ S)) by done|rewrite (bool_decide_false (e ∈ S)) by done..]; cbn.
  - rewrite Hi. case_bool_decide as Ho; cbn;
      [|apply implements_refused; [done|]; by intros ? <-%after_abort].
    destruct (encode_outbox_status_v1 (tr_updated t)) as [b|] eqn:Eb; cbn [mbind result_bind];
      [|by apply implements_refused].
    rewrite (insert_status_ok InvariantViolation S) by (done || apply Hs).
    apply commit_implements; [done| | | |].
    + apply rows_insert with (tr_updated t); [apply Hs|done..].
    + intros ix Hix. rewrite (view_insert _ _ _ _ Eb), <- Ho. by apply exact_membership.
    + intros ix Hix. cbn. by rewrite unused_membership.
    + by rewrite (view_insert _ _ _ _ Eb).
  - apply implements_refused; [done|]. by intros ? <-%after_abort.
  - by apply implements_refused.
Qed.

Lemma transition_completes S s t ix b : store_ok S s -> os_indexes s = Ready ix ->
  tr_event_id t ∈ S -> encode_outbox_status_v1 (tr_updated t) = Ok b ->
  exists x, (transition_outbox no_faults t s).2 = Ok x.
Proof.
  intros Hs Hix He Hb. unfold transition_outbox.
  change (ensure_outbox_indexes_available no_faults s) with (Ok tt : Storage unit). cbn [mbind result_bind f_begin_write no_faults].
  destruct (lookup_cases S s (tr_event_id t) Hs) as [(_ & i & -> & Hi)|(? & _)]; [|done].
  rewrite Hi. case_bool_decide as Ho; cbn; [|by eexists].
  rewrite Hb. cbn [mbind result_bind]. rewrite (insert_status_ok InvariantViolation S) by (done || apply Hs).
  unfold mbind, SE_bind, commit_for_with_delta. rewrite Hix. by eexists.
Qed.

(** ** Groups *)
Definition matched (m : Statuses) (t : OutboxTransition) : bool :=
  bool_decide (observe m (tr_event_id t) = tr_expected t).

Definition result_of (m : Statuses) (t : OutboxTransition) : OutboxTransitionResultV1 :=
  if matched m t then Applied (tr_updated t) else StateChanged (observe m (tr_event_id t)).

Definition put_all (m : Statuses) (l : list OutboxTransition) : Statuses :=
  foldl (fun m t => <[tr_event_id t := tr_updated t]> m) m l.

Definition distinct (l : list OutboxTransition) : Prop := NoDup (map tr_event_id l).

Lemma distinct_cons t l : distinct (t :: l) <->
  (forall t', t' ∈ l -> tr_event_id t' <> tr_event_id t) /\ distinct l.
Proof.
  unfold distinct. cbn. rewrite NoDup_cons, list_elem_of_fmap. naive_solver.
Qed.

(** A write to one event leaves the others as they were. *)
Lemma observe_put m t t' : tr_event_id t' <> tr_event_id t ->
  observe (<[tr_event_id t := tr_updated t]> m) (tr_event_id t') = observe m (tr_event_id t').
Proof. intros Hn. by rewrite observe_insert, bool_decide_false. Qed.

Lemma filter_matched_put m t l : (forall t', t' ∈ l -> tr_event_id t' <> tr_event_id t) ->
  filter (fun x => matched (<[tr_event_id t := tr_updated t]> m) x) l = filter (fun x => matched m x) l
  /\ map (result_of (<[tr_event_id t := tr_updated t]> m)) l = map (result_of m) l.
Proof.
  intros Hl. split.
  - apply filter_ext_elem. intros x Hx. unfold matched. by rewrite observe_put by auto.
  - apply map_ext_Forall, Forall_forall. intros x Hx. unfold result_of, matched.
    by rewrite !observe_put by auto.
Qed.

Lemma cas_in S m t : tr_event_id t ∈ S ->
  cas S m t = (if matched m t then <[tr_event_id t := tr_updated t]> m else m, result_of m t).
Proof. intros He. unfold cas, result_of, matched. rewrite bool_decide_true by done. by case_bool_decide. Qed.

Lemma cas_all_spec S m l : distinct l -> Forall (fun t => tr_event_id t ∈ S) l ->
  cas_all S m l = (put_all m (filter (fun t => matched m t) l), map (result_of m) l).
Proof.
  revert m. induction l as [|t l IH]; intros m Hd HS; [done|].
  apply distinct_cons in Hd as [Hn Hd]. inversion HS; subst. cbn [cas_all map].
  rewrite cas_in, IH, filter_cons by done.
  destruct (matched m t); [|done]. by destruct (filter_matched_put m t l Hn) as [-> ->].
Qed.

Lemma encode_all_ok l enc : encode_all l = Ok enc ->
  map fst enc = l /\ Forall (fun p => encode_outbox_status_v1 (tr_updated p.1) = Ok p.2) enc.
Proof.
  revert enc. induction l as [|t l IH]; intros enc; cbn; [by intros [= <-]|].
  destruct (encode_outbox_status_v1 (tr_updated t)) as [b|] eqn:Eb; [|done]. cbn.
  destruct (encode_all l) as [enc'|]; [|done]. intros [= <-].
  destruct (IH enc' eq_refl) as [<- Hf]. split; [done|]. by constructor.
Qed.

Lemma matched_pairs m (enc : list (OutboxTransition * list byte)) :
  map fst (filter (fun p => is_applied p.2) (zip enc (map (result_of m) (map fst enc))))
    = filter (fun p => matched m p.1) enc.
Proof.
  induction enc as [|[t b] enc IH]; [done|]. cbn [map zip fst zip_with]. rewrite !filter_cons.
  cbn [fst snd]. rewrite (decide_ext (is_applied (result_of m t)) (matched m t)).
  - destruct (decide (matched m t)); cbn; by rewrite IH.
  - unfold result_of. by destruct (matched m t).
Qed.

Lemma group_write_ok S rows enc : rows_ok S rows ->
  Forall (fun p => encode_outbox_status_v1 (tr_updated p.1) = Ok p.2) enc ->
  distinct (map fst enc) -> Forall (fun p => tr_event_id p.1 ∈ S) enc ->
  Forall (fun p => observe (view rows) (tr_event_id p.1) = tr_expected p.1) enc ->
  exists rows', group_write rows enc = Ok rows' /\ rows_ok S rows' /\
    view rows' = put_all (view rows) (map fst enc).
Proof.
  revert rows. induction enc as [|[t b] enc IH]; intros rows Hr Hb Hd HS Ho; [by exists rows|].
  inversion Hb as [|? ? Eb Hb']; inversion HS as [|? ? Et HS']; inversion Ho as [|? ? Eo Ho']; subst.
  cbn in *. apply distinct_cons in Hd as [Hn Hd].
  rewrite (insert_status_ok CorruptData S) by done. cbn [mbind result_bind].
  destruct (IH (<[tr_event_id t := b]> rows)) as (rows' & Hw & Hr' & Hv); try done.
  - by apply rows_insert with (tr_updated t).
  - rewrite Forall_forall in Ho' |- *. intros p Hp. rewrite (view_insert _ _ _ _ Eb), observe_put; [auto|].
    apply Hn, list_elem_of_fmap. by exists p.
  - exists rows'. split_and!; [done..|]. by rewrite Hv, (view_insert _ _ _ _ Eb).
Qed.

(** The loop of [group_results] answers what the specification answers. *)
Lemma group_results_ok S s l r : store_ok S s ->
  group_results (os_authority s) (os_statuses s) l = Ok r ->
  match r with
  | Some rs => Forall (fun t => tr_event_id t ∈ S) l /\ rs = map (result_of (view (os_statuses s))) l
  | None => ~ Forall (fun t => tr_event_id t ∈ S) l
  end.
Proof.
  intros Hs. revert r. induction l as [|t l IH]; intros r; cbn; [by intros [= <-]|].
  destruct (lookup_cases S s (tr_event_id t) Hs) as [(He & i & -> & Hi)|(He & [->|(k & ->)])]; [| |done]; cbn.
  - destruct (group_results _ _ l) as [[rs|]|] eqn:Eg; [| |done]; cbn; intros [= <-];
      specialize (IH _ eq_refl); cbn in IH; [|intros Hf; apply IH; by inversion Hf].
    destruct IH as [HS ->]. split; [by constructor|].
    unfold result_of at 2, matched. rewrite Hi. by case_bool_decide.
  - intros [= <-] Hf. inversion Hf. done.
Qed.

Lemma group_results_total S s l : store_ok S s -> Forall (fun t => tr_event_id t ∈ S) l ->
  group_results (os_authority s) (os_statuses s) l = Ok (Some (map (result_of (view (os_statuses s))) l)).
Proof.
  intros Hs HS. assert (exists r, group_results (os_authority s) (os_statuses s) l = Ok r) as [r Hr].
  { induction HS as [|t l He HS IH]; cbn; [by eexists|].
    destruct (lookup_cases S s (tr_event_id t) Hs) as [(_ & i & -> & Hi)|[? _]]; [|done]. cbn.
    destruct IH as [r ->]. by eexists. }
  pose proof (group_results_ok S s l r Hs Hr) as Hok. rewrite Hr. destruct r as [rs|]; [|done].
  by destruct Hok as [_ ->].
Qed.

Lemma completion_ok S s l : store_ok S s ->
  group_completion_new l (map (result_of (view (os_statuses s))) l)
    = Ok (map (result_of (view (os_statuses s))) l).
Proof.
  intros Hs. unfold group_completion_new. rewrite length_map, bool_decide_true by done. cbn [negb].
  assert (forallb (fun p => result_matches p.1 p.2)
    (zip l (map (result_of (view (os_statuses s))) l)) = true) as ->; [|done].
  induction l as [|t l IH]; [done|]. cbn [map zip zip_with forallb fst snd]. rewrite IH, andb_true_r.
  unfold result_of. destruct (matched _ t); cbn; [by apply bool_decide_eq_true|].
  destruct (read_status_ok S (os_statuses s) (tr_event_id t)) as (o & _ & <- & Hc & _); [apply Hs|].
  destruct o as [[st c]|]; [|done]. cbn. apply bool_decide_eq_true. by destruct (Hc st c eq_refl).
Qed.

(** How a transition moves its event between the two sets of the index. *)
Definition moves (was_pending pending was_undelivered undelivered : bool) (t : OutboxTransition) : Prop :=
  is_pending (tr_expected t) = was_pending /\
  state_is_pending (st_state (tr_updated t)) = pending /\
  status_is_undelivered (tr_expected t) = was_undelivered /\
  status_is_undelivered (Present (tr_updated t)) = undelivered.

Lemma exact_fold wp p wu u S m ix l : exact S m ix ->
  Forall (moves wp p wu u) l -> distinct l -> Forall (fun t => tr_event_id t ∈ S) l ->
  Forall (fun t => observe m (tr_event_id t) = tr_expected t) l ->
  exact S (put_all m l)
    (foldl (fun ix e => apply_membership ix e wp p wu u) ix (map tr_event_id l)).
Proof.
  revert m ix. induction l as [|t l IH]; intros m ix Hx Hm Hd HS Ho; [done|].
  inversion Hm as [|? ? (<- & <- & <- & <-) Hm']; inversion HS; inversion Ho as [|? ? Eo Ho']; subst.
  apply distinct_cons in Hd as [Hn Hd]. cbn [foldl map put_all]. apply IH; try done.
  - rewrite <- Eo. by apply exact_membership.
  - rewrite Forall_forall in Ho' |- *. intros x Hxl. rewrite observe_put by auto. auto.
Qed.

Lemma unused_fold wp p wu u ix l : unused ix ->
  foldl (fun ix e => apply_membership ix e wp p wu u) ix l = ix.
Proof. intros Hu. induction l as [|e l IH]; cbn; [done|]. by rewrite unused_membership. Qed.

Lemma group_implements wp p wu u delta S s f l : store_ok S s -> distinct l ->
  (forall ix es, apply_disposable_delta ix (delta es)
    = foldl (fun ix e => apply_membership ix e wp p wu u) ix es) ->
  Forall (moves wp p wu u) l ->
  let '(s', r) := transition_group f delta l s in
  implements S s s' r (cas_group S (view (os_statuses s)) l).
Proof.
  intros Hs Hd Hdelta Hm. unfold transition_group.
  destruct (encode_all l) as [enc|] eqn:Ee; cbn [mbind result_bind]; [|by apply implements_refused].
  destruct (encode_all_ok l enc Ee) as [<- Hb].
  destruct (f_begin_write f); cbn [mbind result_bind]; [|by apply implements_refused].
  change (ensure_outbox_indexes_available f s) with (Ok tt : Storage unit). cbn [mbind result_bind].
  destruct (group_results _ _ (map fst enc)) as [r|] eqn:Eg; cbn [mbind result_bind];
    [|by apply implements_refused].
  pose proof (group_results_ok S s _ r Hs Eg) as Hr. unfold cas_group.
  destruct r as [rs|]; [|rewrite bool_decide_false by done; apply implements_refused; [done|];
                         by intros ? <-%after_abort].
  destruct Hr as [HS ->]. rewrite bool_decide_true, cas_all_spec, (completion_ok S) by done. cbn [map_err].
  rewrite matched_pairs. set (m := view (os_statuses s)).
  rewrite filter_map_fst. set (hits := filter _ enc). case_bool_decide as Eh.
  { apply implements_refused; [done|]. intros ? <-%after_abort. by rewrite Eh. }
  assert (hits `sublist_of` enc) as Hsub by apply sublist_filter.
  assert (map fst hits `sublist_of` map fst enc) as Hsubt by by apply sublist_map.
  assert (distinct (map fst hits)) as Hdh by (eapply sublist_NoDup; [exact Hd|by apply sublist_map]).
  assert (Forall (fun q => observe m (tr_event_id q.1) = tr_expected q.1) hits) as Ho.
  { apply Forall_forall. intros q [Hq _]%list_elem_of_filter. by apply bool_decide_unpack in Hq. }
  pose proof (Forall_sublist _ _ _ Hsub (proj1 (Forall_map _ _ _) HS)) as HSh.
  destruct (group_write_ok S (os_statuses s) hits) as (rows & -> & Hrows & Hv); try done.
  { apply Hs. } { by eapply Forall_sublist. }
  apply commit_implements; [done..| | |by rewrite Hv].
  - intros ix Hix. rewrite Hdelta, Hv, <- (map_map fst tr_event_id). apply exact_fold; try done.
    + by eapply Forall_sublist.
    + by eapply Forall_sublist.
    + by apply Forall_map.
  - intros ix Hix. rewrite Hdelta, unused_fold; done.
Qed.

Lemma group_completes delta S s l ix : store_ok S s -> os_indexes s = Ready ix -> distinct l ->
  Forall (fun t => tr_event_id t ∈ S /\ exists b, encode_outbox_status_v1 (tr_updated t) = Ok b) l ->
  exists r, (transition_group no_faults delta l s).2 = Ok r.
Proof.
  intros Hs Hix Hd Hl. apply Forall_and in Hl as [HS Henc]. unfold transition_group.
  assert (exists enc, encode_all l = Ok enc) as [enc Ee].
  { clear -Henc. induction Henc as [|t l [b Hb] _ [enc IH]]; cbn; [by eexists|].
    rewrite Hb. cbn. rewrite IH. by eexists. }
  destruct (encode_all_ok l enc Ee) as [<- Hb]. rewrite Ee. cbn [mbind result_bind f_begin_write no_faults].
  change (ensure_outbox_indexes_available no_faults s) with (Ok tt : Storage unit). cbn [mbind result_bind].
  rewrite (group_results_total S) by done. cbn [mbind result_bind].
  rewrite (completion_ok S) by done. cbn [map_err].
  rewrite matched_pairs. set (hits := filter _ enc). case_bool_decide as Eh; [by eexists|].
  assert (hits `sublist_of` enc) as Hsub by apply sublist_filter.
  destruct (group_write_ok S (os_statuses s) hits) as (rows & -> & _ & _).
  - apply Hs.
  - by eapply Forall_sublist.
  - eapply sublist_NoDup; [exact Hd|]. by apply sublist_map, sublist_map.
  - eapply Forall_sublist; [done|]. by apply Forall_map in HS.
  - apply Forall_forall. intros q [Hq _]%list_elem_of_filter. by apply bool_decide_unpack in Hq.
  - unfold mbind, SE_bind, commit_for_with_delta. rewrite Hix. by eexists.
Qed.

(** ** Checked groups *)
Lemma check_order_distinct l : check_order l = Ok tt -> distinct l.
Proof.
  intros Hc. assert (Sorted event_lt (map tr_event_id l)) as Hs.
  { induction l as [|a l IH]; [constructor|]. destruct l as [|b l]; [by repeat constructor|].
    cbn [check_order] in Hc. case_bool_decide as E1; [done|]. case_bool_decide as E2; [done|].
    constructor; [by apply IH|]. cbn. constructor.
    destruct (event_not_lt _ _ E2) as [?|?]; done. }
  apply Sorted_StronglySorted in Hs; [|apply _]. by apply sorted_NoDup.
Qed.

Lemma check_group_distinct n l : check_group n l = Ok tt -> distinct l.
Proof. unfold check_group. case_bool_decide; [done|]. case_match; [done|]. apply check_order_distinct. Qed.

Lemma claim_new_moves e o d x y t : claim_new e o d x y = Ok t ->
  moves true false true true t /\ tr_event_id t = e /\ tr_expected t = o.
Proof.
  unfold claim_new. destruct (validate_event_id o e); [cbn|done].
  destruct (is_pending o) eqn:Ep; cbn; [|done].
  destruct (u_checked 32 _ ≫= _); cbn; [|done]. intros [= <-]. unfold moves. cbn.
  split_and!; try done. destruct o as [|[? []]]; done.
Qed.

Lemma succeed_new_moves st x t : succeed_new st x = Ok t -> moves false false true false t.
Proof. unfold succeed_new. destruct st as [i []]; try done. by intros [= <-]. Qed.

(** The groups that the constructors of claims and successes can build. *)
Definition claims (l : list OutboxTransition) : Prop :=
  Forall (fun t => exists e o d x y, claim_new e o d x y = Ok t) l.
Definition successes (l : list OutboxTransition) : Prop :=
  Forall (fun t => exists st x, succeed_new st x = Ok t) l.

Lemma claim_group_implements S s f l : store_ok S s -> claims l ->
  let '(s', r) := claim_outbox_group f l s in
  implements S s s' r (cas_group S (view (os_statuses s)) l).
Proof.
  intros Hs Hl. unfold claim_outbox_group, mbind, SE_bind, lift.
  destruct (claim_group_new l) as [l'|] eqn:Eg; cbn; [|by apply implements_refused].
  unfold claim_group_new in Eg. apply result_bind_ok in Eg as ([] & Hc & _).
  apply (group_implements true false true true); [done|by apply check_group_distinct in Hc|done|].
  eapply Forall_impl; [exact Hl|]. intros t (? & ? & ? & ? & ? & Ht). by apply claim_new_moves in Ht as [? _].
Qed.

Lemma succeed_group_implements S s f l : store_ok S s -> successes l ->
  let '(s', r) := succeed_outbox_group f l s in
  implements S s s' r (cas_group S (view (os_statuses s)) l).
Proof.
  intros Hs Hl. unfold succeed_outbox_group, mbind, SE_bind, lift.
  destruct (succeed_group_new l) as [l'|] eqn:Eg; cbn; [|by apply implements_refused].
  unfold succeed_group_new in Eg. apply result_bind_ok in Eg as ([] & Hc & _).
  apply (group_implements false false true false); [done|by apply check_group_distinct in Hc|done|].
  eapply Forall_impl; [exact Hl|]. intros t (? & ? & Ht). by apply succeed_new_moves in Ht.
Qed.
End spec.

(** ** A concrete store

    Events of one command segment, a codec that knows a list of statuses, and an
    index in use; the witnesses run on it. *)
Module Example.
Definition ev (n : Z) : EventId := mkEventId 1 n.
Definition durable (n : Z) : StoredDurableEventV1 := mkDurableEvent (ev n) 1 [] [].
Definition events (n : Z) : gset EventId := list_to_set (ev <$> seqZ 0 n).

Definition authority (n : Z) : Authority :=
  let c := mkCommitRecord (durable <$> seqZ 0 n) (ev <$> seqZ 0 n) in
  {| command_member_at seq := Ok (if seq =? 1 then Some c else None);
     indexed_command_at seq := Ok (if seq =? 1 then Some (cr_events c) else None);
     event_row _ := Ok None;
     intent_row _ := Ok None;
     decode_outbox_intent _ _ := Err CorruptData;
     commit_at _ := Ok None;
     durable_event_bytes _ := Ok 100;
     outbox_intent_bytes _ := Ok 60;
     segment_event_ids := ev <$> seqZ 0 n;
     intent_keys := [] |}.

Definition codec (table : list StoredOutboxStatusV1) : StatusCodec := {|
  encode_outbox_status_v1 s :=
    match list_find (fun x => x = s) table with
    | Some (i, _) => if (i <? 256)%nat then Ok [Z_to_byte (Z.of_nat i)] else Err LimitExceeded
    | None => Err LimitExceeded
    end;
  decode_outbox_status_v1 b :=
    match b with
    | [x] => match table !! Z.to_nat (byte_to_Z x) with
             | Some s => Ok (s, 1)
             | None => Err CorruptData
             end
    | _ => Err CorruptData
    end;
|}.

Lemma codec_laws table : @StatusCodecLaws (codec table).
Proof.
  split; cbn -[Nat.ltb]; intros s b; destruct (list_find _ table) as [[i x]|] eqn:E; try done;
    destruct (Nat.ltb_spec i 256); try done; intros [= <-]; [|done].
  apply list_find_Some in E as (Hi & -> & _). cbn. rewrite byte_to_Z_to_byte, Z.mod_small, Nat2Z.id by lia.
  by rewrite Hi.
Qed.

Lemma elem_of_events n k : ev k ∈ events n <-> 0 <= k < n.
Proof.
  unfold events. rewrite elem_of_list_to_set, list_elem_of_fmap. split.
  - intros (j & [= ->] & Hj%elem_of_seqZ). lia.
  - intros Hk. exists k. split; [done|]. apply elem_of_seqZ. lia.
Qed.

Lemma seqZ_nth n k : 0 <= k < n -> seqZ 0 n !! Z.to_nat k = Some k.
Proof. intros Hk. apply lookup_seqZ. lia. Qed.

Lemma authority_fine n : authority_ok (authority n) (events n).
Proof.
  split.
  - intros e He. unfold events in He. rewrite elem_of_list_to_set in He.
    apply list_elem_of_fmap in He as (k & -> & Hk%elem_of_seqZ).
    exists (durable k), 100, 60. split; [|unfold charge_ok; lia].
    eapply loc_segment; try done; cbn; [set_solver| |]; rewrite list_lookup_fmap, seqZ_nth by lia; done.
  - intros [q k] He. destruct (decide (q = 1)) as [->|Hq].
    + right. eapply beyond_segment; [done|set_solver|]. cbn [cr_events ev_event_ordinal].
      intros d. rewrite list_lookup_fmap. intros (j & Hj%lookup_seqZ & ->)%fmap_Some [= ->].
      apply He. apply (elem_of_events n). lia.
    + left. apply loc_none with None; cbn; try done; destruct (Z.eqb_spec q 1); done.
  - apply NoDup_fmap_2; [intros ? ? [= ->]; done|]. apply NoDup_seqZ.
  - intros e. unfold events. rewrite elem_of_list_to_set. cbn. set_solver.
Qed.

(** The index of [n] events none of which was attempted. *)
Definition indexes (n : Z) : TransientIndexes :=
  mkTransientIndexes true None (Some (events n)) (Some (events n)) (Some (events n)).

Definition store (n : Z) : OutboxStore := mkOutboxStore (authority n) ∅ (Ready (indexes n)).

Lemma view_empty `{StatusCodec} : view ∅ = ∅.
Proof. apply omap_empty. Qed.

Lemma filter_pending_all (S : gset EventId) (g : OutboxStatusObservationV1 -> bool) : g AbsentInitialPending = true ->
  filter (fun e => g (observe ∅ e) = true) S = S.
Proof. intros Hg. apply leibniz_equiv. intros x. rewrite elem_of_filter. unfold observe. rewrite lookup_empty. tauto. Qed.

Lemma indexes_exact n : exact (events n) ∅ (indexes n).
Proof. unfold exact. rewrite !filter_pending_all by done. done. Qed.

Lemma store_fine `{StatusCodec} n : store_ok (events n) (store n).
Proof.
  split; [split; [apply authority_fine|done]|]. left. unfold view. cbn. rewrite omap_empty. apply indexes_exact.
Qed.

Definition at_time (n : Z) : Timestamp := mkTimestamp n 0.
Definition claimed (n : Z) : StoredOutboxStatusV1 :=
  mkOutboxStatus (ev n) (Delivering 1 [] (at_time 0) (at_time 10)).
Definition claim (n : Z) : OutboxTransition := mkTransition AbsentInitialPending (claimed n).
Definition table : list StoredOutboxStatusV1 := map claimed (seqZ 0 4).
End Example.

(** ** The refinement *)
Section refinement.
Context `{StatusCodecLaws}.

(** C4. The transition operations of the store (claim, renew, succeed, retry and
    dead-letter) implement compare-and-transition on the map of statuses,
    whatever the database engine does meanwhile: an answer is the answer of the
    specification and leaves its map, an error leaves the old map or the map of
    the specification, and the transient index stays exact or out of use.  With
    no fault of the engine, an event with its intent and an encodable post-image,
    the operation answers. *)
Theorem transition_outbox_refines S s f t : store_ok S s ->
  (let '(s', r) := transition_outbox f t s in
   implements S s s' r (cas S (view (os_statuses s)) t)) /\
  (f = no_faults -> (exists ix, os_indexes s = Ready ix) -> tr_event_id t ∈ S ->
   (exists b, encode_outbox_status_v1 (tr_updated t) = Ok b) ->
   exists x, (transition_outbox f t s).2 = Ok x).
Proof.
  intros Hs. split; [by apply transition_implements|].
  intros -> [ix Hix] He [b Hb]. by eapply transition_completes.
Qed.

(** C10. A claim group and a success group act as their transitions one after the
    other, all of them or none: the answer holds one compare-and-transition
    result per member, in order, unless some event has no authoritative intent,
    and then nothing changes.  An error leaves the statuses untouched or the
    whole group applied, never a part of it, and the index stays exact.  With no
    fault, a group whose check passes, whose events have their intents and whose
    rows encode, is answered. *)
Theorem outbox_group_atomic S s f l : store_ok S s ->
  (claims l -> let '(s', r) := claim_outbox_group f l s in
    implements S s s' r (cas_group S (view (os_statuses s)) l)) /\
  (successes l -> let '(s', r) := succeed_outbox_group f l s in
    implements S s s' r (cas_group S (view (os_statuses s)) l)) /\
  (f = no_faults -> (exists ix, os_indexes s = Ready ix) ->
   Forall (fun t => tr_event_id t ∈ S /\ exists b, encode_outbox_status_v1 (tr_updated t) = Ok b) l ->
   (claim_group_new l = Ok l -> exists r, (claim_outbox_group f l s).2 = Ok r) /\
   (succeed_group_new l = Ok l -> exists r, (succeed_outbox_group f l s).2 = Ok r)).
Proof.
  intros Hs. split_and!; [by apply claim_group_implements|by apply succeed_group_implements|].
  intros -> [ix Hix] Hl. split; intros Hg; pose proof Hg as Hg';
    [unfold claim_group_new in Hg'|unfold succeed_group_new in Hg'];
    apply result_bind_ok in Hg' as ([] & Hc%check_group_distinct & _);
    [unfold claim_outbox_group|unfold succeed_outbox_group]; unfold mbind, SE_bind, lift;
    rewrite Hg; cbn; by eapply group_completes.
Qed.
End refinement.

Lemma transition_outbox_refines_witness :
  let C := Example.codec Example.table in
  (let '(s', r) := transition_outbox no_faults (Example.claim 1) (Example.store 3) in
   implements (Example.events 3) (Example.store 3) s' r
     (cas (Example.events 3) (view (os_statuses (Example.store 3))) (Example.claim 1))) /\
  exists x, (transition_outbox no_faults (Example.claim 1) (Example.store 3)).2 = Ok x.
Proof.
  intros C.
  destruct (@transition_outbox_refines C (Example.codec_laws Example.table) (Example.events 3)
    (Example.store 3) no_faults (Example.claim 1) (Example.store_fine 3)) as [Himp Hans].
  split; [exact Himp|]. apply Hans; [reflexivity|eexists; reflexivity| |eexists; vm_compute; reflexivity].
  by apply (Example.elem_of_events 3 1).
Defined.

Lemma outbox_group_atomic_witness :
  let C := Example.codec Example.table in
  let group := [Example.claim 0; Example.claim 2] in
  (let '(s', r) := claim_outbox_group no_faults group (Example.store 3) in
   implements (Example.events 3) (Example.store 3) s' r
     (cas_group (Example.events 3) (view (os_statuses (Example.store 3))) group)) /\
  exists r, (claim_outbox_group no_faults group (Example.store 3)).2 = Ok r.
Proof.
  intros C group.
  destruct (@outbox_group_atomic C (Example.codec_laws Example.table) (Example.events 3)
    (Example.store 3) no_faults group (Example.store_fine 3)) as (Himp & _ & Hans).
  split.
  - apply Himp. repeat constructor;
      eexists _, AbsentInitialPending, [], (Example.at_time 0), (Example.at_time 10); vm_compute; reflexivity.
  - apply Hans; [reflexivity|eexists; reflexivity| |vm_compute; reflexivity].
    repeat constructor; (by apply Example.elem_of_events) || (eexists; vm_compute; reflexivity).
Defined.
