(* ===== verification/OutboxScan.v ===== *)
(** * The scans of the outbox are exact

    On a well-formed store whose index is in use, a page of the pending scan and
    of the undelivered scan is a prefix of the events that qualify, in order and
    with their current statuses, and an exact end is all of them.  The frozen
    upper fence of the undelivered scan is where this fails: a continuation
    reports corruption when events beyond the fence fill the page. *)

From S2P Require Import Prelude Value Key StorageBase OutboxStatus OutboxStore OutboxStoreSpec.
From stdpp Require Import gmap list sorting.

Local Open Scope Z_scope.

(** ** Ordered pages *)
Lemma StronglySorted_filter {A} (R : A -> A -> Prop) (P : A -> Prop) `{!forall x, Decision (P x)} l :
  StronglySorted R l -> StronglySorted R (filter P l).
Proof.
  induction 1 as [|x l Hl IH Hx]; [constructor|]. rewrite filter_cons. case_decide; [|done].
  constructor; [done|]. eapply Forall_sublist; [apply sublist_filter|done].
Qed.

Lemma range_after_sorted s a : StronglySorted event_lt (range_after s a).
Proof.
  unfold range_after. destruct a; [apply StronglySorted_filter|]; apply in_order_sorted.
Qed.

Lemma elem_of_range_after s a e :
  e ∈ range_after s a <-> e ∈ s /\ match a with Some a => event_lt a e | None => True end.
Proof.
  unfold range_after. destruct a as [a|].
  - rewrite list_elem_of_filter, elem_of_in_order. tauto.
  - rewrite elem_of_in_order. tauto.
Qed.

Lemma page_event_index_eq s a n :
  page_event_index s a n = (take n (range_after s a), (n <? length (range_after s a))%nat).
Proof.
  unfold page_event_index. rewrite take_take, length_take. f_equal; [f_equal; lia|].
  apply eq_true_iff_eq. rewrite !Nat.ltb_lt. lia.
Qed.

Lemma StronglySorted_take {A} (R : A -> A -> Prop) n l :
  StronglySorted R l -> StronglySorted R (take n l).
Proof.
  intros Hs. revert n. induction Hs as [|x l Hl IH Hx]; intros [|n]; cbn; try constructor; [done|].
  by apply Forall_take.
Qed.

Lemma increasing_sorted l : StronglySorted event_lt l -> increasing l = true.
Proof.
  induction 1 as [|e l Hl IH He]; [done|]. destruct l as [|e' l]; [done|]. 
  apply andb_true_iff. split; [|exact IH]. apply bool_decide_eq_true. by inversion He.
Qed.

Section scan.
Context `{StatusCodec}.

(** The item that a lookup returns for an event, and its charge. *)
Definition charge_of (a : Authority) (rows : gmap EventId (list byte)) (e : EventId) : Z :=
  match reciprocal_outbox_item_access a rows e with
  | Ok (Some i) => ri_encoded_bytes i
  | _ => 0
  end.

Definition event_of (a : Authority) (rows : gmap EventId (list byte)) (e : EventId) :
    option StoredDurableEventV1 :=
  match reciprocal_outbox_item_access a rows e with Ok (Some i) => Some (ri_event i) | _ => None end.

Definition charges (a : Authority) (rows : gmap EventId (list byte)) (l : list EventId) : Z :=
  foldr (fun e n => charge_of a rows e + n) 0 l.

Lemma charges_take a rows l k : Forall (fun e => 0 <= charge_of a rows e) l ->
  0 <= charges a rows (take k l) <= charges a rows l.
Proof.
  intros Hl. revert k. induction Hl as [|e l He Hl IH]; intros [|k]; cbn; unfold charges in *;
    [lia..| |]; [specialize (IH 0%nat)|specialize (IH k)]; cbn in *; lia.
Qed.

Lemma lookup_read S s e : tables_ok S s -> e ∈ S ->
  exists ev k, reciprocal_outbox_item_access (os_authority s) (os_statuses s) e
      = Ok (Some (mkReciprocal ev ev (observe (view (os_statuses s)) e) k)) /\
    0 < k < 2 ^ 63 /\ charge_of (os_authority s) (os_statuses s) e = k /\
    event_of (os_authority s) (os_statuses s) e = Some ev /\ de_event_id ev = e.
Proof.
  intros [Ha Hr] He. destruct (ao_in _ _ Ha e He) as (ev & n & m & Hl & Hn & Hm).
  destruct (lookup_located S _ _ _ _ _ _ Hr Hl Hn Hm) as (k & Hk & Hacc & _).
  exists ev, k. unfold charge_of, event_of. rewrite Hacc. split_and!; try done; try lia.
  by inversion Hl.
Qed.

Lemma observe_identity S s e : tables_ok S s ->
  validate_event_id (observe (view (os_statuses s)) e) e = Ok tt.
Proof.
  intros Hs. destruct (read_status_ok S (os_statuses s) e) as (o & _ & <- & Hc & _); [apply Hs|].
  destruct o as [[st c]|]; [|done]. cbn. destruct (Hc st c eq_refl) as [-> _].
  by rewrite bool_decide_true.
Qed.

Lemma content_charge_small k : 0 < k <= MAX_SCAN_PAGE_BYTES -> content_charge k = Some k.
Proof. intros Hk. unfold content_charge. case_match; [lia|done]. Qed.

Lemma checked_small b k : 0 <= b <= MAX_SCAN_PAGE_BYTES -> 0 < k < 2 ^ 63 ->
  usize_checked_add b k = Some (b + k).
Proof. intros Hb Hk. apply u_checked_Some. unfold u_range. lia. Qed.

(** ** The pending scan *)
Definition pending_entry (s : OutboxStore) (e : EventId) (i : PendingOutboxItemV1 * Z) : Prop :=
  pi_event_id i.1 = e /\ pi_status i.1 = observe (view (os_statuses s)) e /\
  event_of (os_authority s) (os_statuses s) e = Some (pi_event i.1) /\ pi_intent i.1 = pi_event i.1 /\
  i.2 = charge_of (os_authority s) (os_statuses s) e.

Lemma pending_items_spec S s l acc b : tables_ok S s ->
  Forall (fun e => e ∈ S /\ is_pending (observe (view (os_statuses s)) e) = true) l ->
  0 <= b <= MAX_SCAN_PAGE_BYTES ->
  let a := os_authority s in let rows := os_statuses s in
  (exists k its, pending_items a rows acc b l = Ok (acc ++ its, negb (k =? length l)%nat) /\
     (k <= length l)%nat /\ Forall2 (pending_entry s) (take k l) its /\
     b + charges a rows (take k l) <= MAX_SCAN_PAGE_BYTES /\ (acc = [] -> l <> [] -> (0 < k)%nat)) \/
  (pending_items a rows acc b l = Err LimitExceeded /\ acc = [] /\
   exists e l', l = e :: l' /\ MAX_SCAN_PAGE_BYTES < b + charge_of a rows e).
Proof.
  intros Hs Hl Hb a rows. subst a rows. revert acc b Hb.
  induction Hl as [|e l [He Hp] Hl IH]; intros acc b Hb.
  { left. exists 0%nat, []. cbn. rewrite app_nil_r. split_and!; try done; lia. }
  destruct (lookup_read S s e Hs He) as (ev & k & Hacc & Hk & Hch & Hev & Hid).
  cbn [pending_items]. rewrite Hacc. cbn [mbind result_bind ok_or ri_status ri_encoded_bytes].
  rewrite Hp, checked_small by done. cbn [mbind result_bind ok_or negb].
  destruct (Z.ltb_spec MAX_SCAN_PAGE_BYTES (b + k)).
  - destruct (bool_decide_reflect (acc = [])) as [->|Hne].
    + right. split_and!; [done..|]. exists e, l. split; [done|lia].
    + left. exists 0%nat, []. cbn. rewrite app_nil_r. split_and!; try done; lia.
  - rewrite content_charge_small by lia. cbn [mbind result_bind ok_or ri_event ri_intent].
    unfold pending_item_new. rewrite bool_decide_true, Hp by done. cbn [negb orb].
    rewrite Hid, (observe_identity S) by done. cbn [mbind result_bind map_err].
    destruct (IH (acc ++ [(mkPendingItem ev ev (observe (view (os_statuses s)) e), k)]) (b + k) ltac:(lia))
      as [(n & its & Hp' & Hn & Hf & Hc & _)|(_ & Hnil & _)]; [|by destruct acc].
    left. exists (Datatypes.S n), ((mkPendingItem ev ev (observe (view (os_statuses s)) e), k) :: its). rewrite Hp'.
    rewrite <- app_assoc. split_and!; [done|cbn [length]; lia| | |lia].
    + cbn [take]. constructor; [|done]. by split_and!.
    + unfold charges in *. cbn [take foldr]. lia.
Qed.

Lemma page_content_ok {A} total (items : list (A * Z)) : 0 <= total ->
  Forall (fun i => 0 <= i.2) items ->
  total + foldr (fun i n => i.2 + n) 0 items <= MAX_SCAN_PAGE_BYTES ->
  exists n, page_content total items = Ok n.
Proof.
  intros Ht Hi. revert total Ht. induction Hi as [|[x k] items Hk Hi IH]; intros total Ht Hs; cbn in *.
  - destruct (Z.ltb_spec MAX_SCAN_PAGE_BYTES total); [lia|by eexists].
  - assert (0 <= foldr (fun i n => i.2 + n) 0 items) as Hpos.
    { clear -Hi. induction Hi; cbn; lia. }
    assert (usize_checked_add total k = Some (total + k)) as ->.
    { apply u_checked_Some. unfold u_range. lia. }
    apply IH; lia.
Qed.

Section entries.
Context {A : Type} (R : EventId -> A * Z -> Prop) (key : A -> EventId) (S : gset EventId) (s : OutboxStore).
Hypothesis (Hs : tables_ok S s).
Hypothesis (R_key : forall e i, R e i -> key i.1 = e).
Hypothesis (R_charge : forall e i, R e i -> i.2 = charge_of (os_authority s) (os_statuses s) e).

Lemma entries_keys l its : Forall2 R l its -> map (fun i => key i.1) its = l.
Proof. induction 1; cbn; [done|]. f_equal; eauto. Qed.

Lemma entries_content l its : Forall2 R l its -> Forall (fun e => e ∈ S) l ->
  charges (os_authority s) (os_statuses s) l <= MAX_SCAN_PAGE_BYTES ->
  exists n, page_content 0 its = Ok n.
Proof.
  intros Hf HS Hc. apply page_content_ok; [lia| |].
  - clear Hc. induction Hf as [|e i l its Hei Hf IH]; [constructor|].
    inversion HS as [|? ? He HS']; subst. constructor; [|by apply IH]. rewrite (R_charge _ _ Hei).
    destruct (lookup_read S s e Hs He) as (? & ? & _ & ? & -> & _). lia.
  - enough (foldr (fun i n => i.2 + n) 0 its = charges (os_authority s) (os_statuses s) l) as -> by lia.
    clear Hc HS. induction Hf as [|e i l its Hei Hf IH]; cbn; [done|]. by rewrite IH, (R_charge _ _ Hei).
Qed.

Lemma entries_last l its : Forall2 R l its -> key ∘ fst <$> last its = last l.
Proof. intros Hf. rewrite <- fmap_last. f_equal. by apply entries_keys. Qed.
End entries.

(** What a page of [ids] can hold: all of them, a proper prefix, or an error
    when already the first does not fit the byte bound of a page. *)
Definition pending_answer (s : OutboxStore) (ids : list EventId) (r : Storage PendingOutboxScanV1) : Prop :=
  match r with
  | Ok (PendingExactEnd items) => Forall2 (pending_entry s) ids items
  | Ok (PendingPage items next_after) =>
      exists k, (k < length ids)%nat /\ Forall2 (pending_entry s) (take k ids) items /\
        last (take k ids) = Some next_after
  | Err e => e = LimitExceeded /\
      exists e0 l, ids = e0 :: l /\ MAX_SCAN_PAGE_BYTES < charge_of (os_authority s) (os_statuses s) e0
  end.

Lemma scan_pending_ok S s ix f after limit : store_ok S s ->
  os_indexes s = Ready ix -> exact S (view (os_statuses s)) ix ->
  0 < limit <= MAX_SCAN_PAGE_ENTRIES -> f_lease f = Ok tt -> f_read f = Ok tt ->
  pending_answer s
    (range_after (filter (fun e => is_pending (observe (view (os_statuses s)) e) = true) S) after)
    (scan_pending_outbox f s after limit).
Proof.
  intros Hs Hix (_ & Hpend & _) Hlim Hl Hr. set (ids := range_after _ after).
  unfold scan_pending_outbox, pending_outbox_page, with_ready, ensure_transient_indexes_ready.
  rewrite Hix, Hl, Hr. cbn [mbind result_bind].
  destruct (Nat.eqb_spec (Z.to_nat limit) 0) as [?|_]; [lia|]. cbn [mbind result_bind].
  unfold indexes_pending_outbox_page. rewrite Hpend. cbn [mbind option_bind ok_or result_bind].
  rewrite page_event_index_eq. fold ids. cbn [fst snd]. set (n := Z.to_nat limit).
  assert (Forall (fun e => e ∈ S /\ is_pending (observe (view (os_statuses s)) e) = true) ids) as Hids.
  { apply Forall_forall. intros e [He _]%elem_of_range_after. apply elem_of_filter in He. tauto. }
  destruct (pending_items_spec S s (take n ids) [] 0 Hs) as [(k & its & -> & Hk & Hf & Hc & Hpos)|(-> & _ & Herr)];
    [by apply Forall_take|lia| |].
  2:{ cbn. split; [done|]. destruct Herr as (e & l' & He & Hb). exists e, (drop 1 ids).
      destruct ids; [by rewrite take_nil in He|]. destruct n; [done|]. cbn in He |- *.
      injection He as -> _. done. }
  cbn [mbind result_bind app fst snd]. rewrite take_take, length_take in *.
  set (j := (k `min` n)%nat) in *. unfold pending_scan_page.
  assert (length its = j `min` length ids)%nat as Hlen by (rewrite <- (Forall2_length _ _ _ Hf), length_take; lia).
  destruct (Z.ltb_spec MAX_SCAN_PAGE_ENTRIES (zlen its)); [unfold zlen in *; lia|].
  rewrite (entries_keys (pending_entry s) pi_event_id) with (l := take j ids) by (done || by intros ? ? (<- & _)).
  rewrite increasing_sorted by apply StronglySorted_take, range_after_sorted. cbn [negb].
  destruct (entries_content (pending_entry s) S s Hs) with (l := take j ids) (its := its) as [c ->];
    [by intros ? ? (_ & _ & _ & _ & ?)|done| |lia|].
  { apply Forall_take. eapply Forall_impl; [exact Hids|]. naive_solver. }
  cbn [mbind result_bind].
  destruct (_ || negb _) eqn:Emore.
  - assert (j < length ids)%nat as Hj
      by (apply orb_true_iff in Emore as [?%Nat.ltb_lt|?%negb_true_iff%Nat.eqb_neq]; lia).
    assert (0 < k)%nat as Hk0.
    { apply Hpos; [done|]. intros E%(f_equal length). rewrite length_take in E. cbn in E. lia. }
    pose proof (entries_last (pending_entry s) pi_event_id ltac:(by intros ? ? (<- & _)) _ _ Hf) as Hlast.
    destruct (last its) as [i|] eqn:Ei; cbn in Hlast |- *; [by exists j|].
    apply last_None in Ei. subst its. cbn in Hlen. lia.
  - cbn. apply orb_false_iff in Emore as [?%Nat.ltb_ge ?%negb_false_iff%Nat.eqb_eq].
    by rewrite take_ge in Hf by lia.
Qed.

(** ** The undelivered scan *)
Definition undelivered_entry (s : OutboxStore) (e : EventId) (i : UndeliveredOutboxStatusV1 * Z) : Prop :=
  ud_event_id i.1 = e /\ ud_status i.1 = observe (view (os_statuses s)) e /\
  i.2 = charge_of (os_authority s) (os_statuses s) e.

(** The events of a list up to a fence. *)
Definition upto (u : EventId) (l : list EventId) : list EventId := filter (fun e => event_le e u) l.

Lemma upto_nil u l : Forall (event_lt u) l -> upto u l = [].
Proof.
  induction 1 as [|e l He _ IH]; [done|]. unfold upto in *. rewrite filter_cons, decide_False; [done|].
  intros Hle. by apply event_le_not_lt in Hle.
Qed.

Lemma upto_beyond u e l : StronglySorted event_lt (e :: l) -> event_lt u e -> upto u (e :: l) = [].
Proof.
  intros Hs Hu. inversion Hs as [|? ? _ He]; subst. apply upto_nil. constructor; [done|].
  eapply Forall_impl; [exact He|]. intros x Hx. by etrans.
Qed.

Lemma upto_cons u e l : ~ event_lt u e -> upto u (e :: l) = e :: upto u l.
Proof. intros Hu. unfold upto. rewrite filter_cons, decide_True; [done|]. by apply event_not_lt. Qed.

Lemma upto_take u n l : StronglySorted event_lt l -> upto u (take n l) = take n (upto u l).
Proof.
  intros Hs. revert n. induction Hs as [|e l Hl IH He]; intros [|n]; [done..|]. cbn [take].
  destruct (decide (event_lt u e)) as [Hu|Hu].
  - rewrite (upto_beyond u e l) by (done || by constructor).
    apply upto_beyond; [|done]. constructor; [by apply StronglySorted_take|by apply Forall_take].
  - rewrite !upto_cons by done. cbn [take]. by rewrite IH.
Qed.

Lemma undelivered_items_spec S s u wanted l acc b : tables_ok S s -> (0 < wanted)%nat ->
  Forall (fun e => e ∈ S /\ status_is_undelivered (observe (view (os_statuses s)) e) = true) l ->
  StronglySorted event_lt l -> 0 <= b <= MAX_SCAN_PAGE_BYTES -> (length acc <= wanted)%nat ->
  let a := os_authority s in let rows := os_statuses s in
  (exists k its, undelivered_items a rows u wanted acc b l
       = Ok (acc ++ its, negb (k =? length (upto u l))%nat) /\
     (k <= length (upto u l))%nat /\ (length acc + k <= wanted)%nat /\
     Forall2 (undelivered_entry s) (take k (upto u l)) its /\
     b + charges a rows (take k (upto u l)) <= MAX_SCAN_PAGE_BYTES /\
     (acc = [] -> upto u l <> [] -> (0 < k)%nat) /\
     ((k < length (upto u l))%nat -> (length acc + k = wanted)%nat \/
        MAX_SCAN_PAGE_BYTES < b + charges a rows (take (Datatypes.S k) (upto u l)))) \/
  (undelivered_items a rows u wanted acc b l = Err LimitExceeded /\ acc = [] /\
   exists e l', upto u l = e :: l' /\ MAX_SCAN_PAGE_BYTES < b + charge_of a rows e).
Proof.
  intros Hs Hw Hl Hsort Hb Hlen a rows. subst a rows. revert acc b Hb Hlen.
  induction Hl as [|e l [He Hp] Hl IH]; intros acc b Hb Hlen.
  { left. exists 0%nat, []. cbn. rewrite app_nil_r. split_and!; try done; lia. }
  cbn [undelivered_items]. case_bool_decide as Hu.
  { rewrite upto_beyond by done. left. exists 0%nat, []. cbn. rewrite app_nil_r. split_and!; try done; lia. }
  rewrite upto_cons by done. inversion Hsort; subst.
  destruct (lookup_read S s e Hs He) as (ev & k & Hacc & Hk & Hch & Hev & Hid).
  rewrite Hacc. cbn [mbind result_bind ok_or ri_status ri_encoded_bytes].
  rewrite Hp, checked_small by done. cbn [mbind result_bind ok_or negb].
  destruct (_ || _) eqn:Estop.
  - apply orb_true_iff in Estop as Hstop. rewrite Nat.eqb_eq, Z.ltb_lt in Hstop.
    destruct (bool_decide_reflect (acc = [])) as [->|Hne].
    + right. split_and!; [done..|]. exists e, (upto u l). split; [done|]. cbn [length] in *. destruct Hstop; lia.
    + left. exists 0%nat, []. cbn. rewrite app_nil_r. split_and!; try done; try lia.
      intros _. rewrite take_0. cbn. destruct Hstop; [left|right]; lia.
  - apply orb_false_iff in Estop as [Hne%Nat.eqb_neq Hle%Z.ltb_ge].
    rewrite content_charge_small by lia. cbn [mbind result_bind ok_or].
    unfold undelivered_new. rewrite (observe_identity S) by done. cbn [mbind result_bind map_err].
    assert (forall X (g h : X), match observe (view (os_statuses s)) e with
      | Present (mkOutboxStatus _ (Delivered _ _ _)) => g | _ => h end = h) as Hmatch.
    { intros X g h. destruct (observe _ e) as [|[? []]]; done. }
    rewrite Hmatch. cbn [mbind result_bind map_err].
    destruct (IH ltac:(done) (acc ++ [(mkUndelivered e (observe (view (os_statuses s)) e), k)]) (b + k)
       ltac:(lia) ltac:(rewrite length_app; cbn; lia))
      as [(n & its & Hp' & Hn & Hwn & Hf & Hc & _ & Hst)|(_ & Hnil & _)]; [|by destruct acc].
    rewrite length_app in *. cbn [length] in *. unfold charges in *. left.
    exists (Datatypes.S n), ((mkUndelivered e (observe (view (os_statuses s)) e), k) :: its). rewrite Hp'.
    rewrite <- app_assoc. split_and!; [done|cbn [length]; lia|lia| | |lia|].
    + cbn [take]. constructor; [|done]. by split_and!.
    + cbn [take foldr]. lia.
    + cbn [take foldr length] in *. intros Hlt. destruct (Hst ltac:(lia)); [left|right]; lia.
Qed.

Lemma validate_ok S s request u l its : tables_ok S s -> Forall2 (undelivered_entry s) l its ->
  match request_inclusive_upper request with Some v => v = u | None => True end ->
  zlen its <= request_limit request -> StronglySorted event_lt l ->
  Forall (fun e => e ∈ S /\ match request_after request with Some a => event_lt a e | None => True end /\
                   event_le e u) l ->
  charges (os_authority s) (os_statuses s) l <= MAX_SCAN_PAGE_BYTES ->
  validate_undelivered_scan_items request u its = Ok tt.
Proof.
  intros Hs Hf Hup Hlim Hsort Hl Hc. unfold validate_undelivered_scan_items.
  assert (match request_inclusive_upper request with
     | Some expected => negb (bool_decide (expected = u)) | None => false end = false) as ->.
  { destruct (request_inclusive_upper request); [|done]. by rewrite bool_decide_true. }
  destruct (Z.ltb_spec (request_limit request) (zlen its)); [lia|].
  assert (map (fun i => ud_event_id i.1) its = l) as Hkeys
    by (eapply (entries_keys (undelivered_entry s)); [by intros ? ? (<- & _)|done]).
  rewrite Hkeys, increasing_sorted by done. cbn [negb].
  match goal with |- context [existsb ?g its] => assert (existsb g its = false) as -> end.
  { apply not_true_iff_false. intros (i & Hi & Hbad)%existsb_exists.
    assert (ud_event_id i.1 ∈ l) as Hin by (rewrite <- Hkeys; apply list_elem_of_fmap; eexists; split;
      [done|by apply list_elem_of_In]).
    rewrite Forall_forall in Hl. destruct (Hl _ Hin) as (_ & Ha & Hle).
    apply orb_true_iff in Hbad as [Hbad|Hbad%bool_decide_eq_true]; [|by apply event_le_not_lt in Hle].
    destruct (request_after request) as [a|]; [|done]. apply bool_decide_eq_true in Hbad.
    by apply event_le_not_lt in Hbad. }
  destruct (entries_content (undelivered_entry s) S s Hs) with (l := l) (its := its) as [c ->];
    [by intros ? ? (_ & _ & ?)|done| |lia|done].
  eapply Forall_impl; [exact Hl|]. naive_solver.
Qed.

(** The fence of a request: the frozen one, or the last intent. *)
Definition fence (S : gset EventId) (request : UndeliveredOutboxStatusScanRequestV1) : option EventId :=
  match request_inclusive_upper request with Some u => Some u | None => last (in_order S) end.

Definition undelivered_after (S : gset EventId) (s : OutboxStore) (after : option EventId) : list EventId :=
  range_after (filter (fun e => status_is_undelivered (observe (view (os_statuses s)) e) = true) S) after.

Lemma elem_of_undelivered_after S s after e : e ∈ undelivered_after S s after <->
  e ∈ S /\ status_is_undelivered (observe (view (os_statuses s)) e) = true /\
  match after with Some a => event_lt a e | None => True end.
Proof. unfold undelivered_after. rewrite elem_of_range_after, elem_of_filter. tauto. Qed.

Section request.
Context (S intents : gset EventId) (s : OutboxStore) (ix : TransientIndexes) (f : Faults).
Context (request : UndeliveredOutboxStatusScanRequestV1) (u : EventId).
Hypothesis (Hs : tables_ok S s).
Hypothesis (Hix : os_indexes s = Ready ix).
Hypothesis (Hint : outbox_intents ix = Some intents).
Hypothesis (Hund : undelivered_outbox ix
  = Some (filter (fun e => status_is_undelivered (observe (view (os_statuses s)) e) = true) S)).
Hypothesis (Hlim : 0 < request_limit request <= MAX_SCAN_PAGE_ENTRIES).
Hypothesis (Hlease : f_lease f = Ok tt).
Hypothesis (Hread : f_read f = Ok tt).
Hypothesis (Hfence : fence intents request = Some u).
Hypothesis (Hafter : match request_after request with Some a => event_le a u | None => True end).

Let wanted : nat := Z.to_nat (request_limit request).
Let ids : list EventId := undelivered_after S s (request_after request).
Let below : list EventId := upto u ids.

(** What the scan read, before the answer is built. *)
Lemma scan_undelivered_loop :
  (exists k its,
     scan_undelivered_outbox_statuses f s request
       = map_err stored_value_error
           (if (Datatypes.S wanted <? length ids)%nat
               || negb (k =? Datatypes.S wanted `min` length below)%nat
            then undelivered_page request u its
            else undelivered_exact_end request (Some u) its) /\
     (k <= length below)%nat /\ (k <= wanted)%nat /\ Forall2 (undelivered_entry s) (take k below) its /\
     (below <> [] -> 0 < k)%nat /\ validate_undelivered_scan_items request u its = Ok tt /\
     ((k < length below)%nat -> k = wanted \/
        MAX_SCAN_PAGE_BYTES < charges (os_authority s) (os_statuses s) (take (Datatypes.S k) below))) \/
  (scan_undelivered_outbox_statuses f s request = Err LimitExceeded /\
   exists e l, below = e :: l /\ MAX_SCAN_PAGE_BYTES < charge_of (os_authority s) (os_statuses s) e).
Proof.
  unfold scan_undelivered_outbox_statuses, outbox_intent_last.
  unfold undelivered_outbox_page, with_ready, ensure_transient_indexes_ready.
  rewrite Hix, Hlease, Hread. cbn [mbind result_bind Nat.eqb].
  unfold indexes_outbox_intent_last. rewrite Hint. cbn [mbind option_bind ok_or result_bind].
  fold (fence intents request). rewrite Hfence.
  assert (match request_after request with Some a => bool_decide (event_lt u a) | None => false end = false) as ->.
  { destruct (request_after request); [|done]. apply bool_decide_eq_false. by apply event_le_not_lt. }
  unfold indexes_undelivered_outbox_page. rewrite Hund. cbn [mbind option_bind ok_or result_bind].
  rewrite page_event_index_eq. fold wanted. fold (undelivered_after S s (request_after request)). fold ids.
  cbn [fst snd].
  assert (StronglySorted event_lt ids) as Hsort by apply range_after_sorted.
  assert (Forall (fun e => e ∈ S /\ status_is_undelivered (observe (view (os_statuses s)) e) = true) ids) as Hids.
  { apply Forall_forall. intros e He%elem_of_undelivered_after. tauto. }
  destruct (undelivered_items_spec S s u wanted (take (Datatypes.S wanted) ids) [] 0 Hs)
    as [(k & its & -> & Hk & Hw & Hf & Hc & Hpos & Hst)|(-> & _ & e & l & He & Hb)];
    [lia|by apply Forall_take|by apply StronglySorted_take|lia|cbn; lia| |].
  - rewrite upto_take in * by done. fold below in Hk, Hf, Hc, Hpos, Hst |- *.
    rewrite length_take in *. rewrite take_take in Hf, Hc. cbn [length] in Hw.
    replace (k `min` Datatypes.S wanted)%nat with k in * by lia.
    left. exists k, its. cbn [mbind result_bind app fst snd]. split_and!; [done|lia|lia|done| | |].
    + intros Hne. apply Hpos; [done|]. by destruct below.
    + eapply validate_ok; [exact Hs|exact Hf| | | | |lia].
      * unfold fence in Hfence. by destruct (request_inclusive_upper request); [injection Hfence|].
      * unfold zlen. rewrite <- (Forall2_length _ _ _ Hf), length_take. lia.
      * by apply StronglySorted_take, StronglySorted_filter.
      * apply Forall_take, Forall_forall. intros e [Hle He%elem_of_undelivered_after]%list_elem_of_filter. tauto.
    + intros Hlt. rewrite take_take in Hst.
      destruct (decide (k = wanted)) as [->|Hn]; [by left|].
      replace (Datatypes.S k `min` Datatypes.S wanted)%nat with (Datatypes.S k) in Hst by lia.
      destruct Hst; [lia| cbn in *; lia|right; lia].
  - right. split; [done|]. rewrite upto_take in He by done. fold below in He.
    destruct below as [|e0 l0]; [done|]. cbn in He. injection He as -> _. by exists e, l0.
Qed.

(** What a page of [l] up to the fence can hold. *)
Definition undelivered_answer (l : list EventId) (r : Storage UndeliveredOutboxStatusScanV1) : Prop :=
  match r with
  | Ok (UndeliveredExactEnd items upper) => upper = Some u /\ Forall2 (undelivered_entry s) l items
  | Ok (UndeliveredPage items after upper) => upper = u /\
      exists k, (0 < k < length l)%nat /\ Forall2 (undelivered_entry s) (take k l) items /\
        last (take k l) = Some after
  | Err e => e = LimitExceeded /\
      exists e0 l', l = e0 :: l' /\ MAX_SCAN_PAGE_BYTES < charge_of (os_authority s) (os_statuses s) e0
  end.

Lemma below_last_lt k e : (k < length below)%nat -> last (take k below) = Some e -> event_lt e u.
Proof.
  intros Hk Hl.
  assert (StronglySorted event_lt below) as Hsort by apply StronglySorted_filter, range_after_sorted.
  rewrite <- (take_drop k below) in Hsort. apply StronglySorted_app in Hsort as (Hlt & _ & _).
  destruct (drop k below) as [|x r] eqn:Ed; [apply (f_equal length) in Ed; rewrite length_drop in Ed; cbn in Ed; lia|].
  assert (event_lt e x) as Hx' by (apply Hlt; [by apply last_Some_elem_of|set_solver]).
  assert (x ∈ below) as Hx by (rewrite <- (take_drop k below), Ed; set_solver).
  apply list_elem_of_filter in Hx as [[Hxu| ->] _]; [by etrans|done].
Qed.

Lemma scan_undelivered_within : Forall (fun e => event_le e u) ids ->
  undelivered_answer ids (scan_undelivered_outbox_statuses f s request).
Proof.
  intros Hall. assert (below = ids) as Hb.
  { subst below. unfold upto. clear -Hall. induction Hall; [done|]. by rewrite filter_cons, decide_True, IHHall. }
  destruct scan_undelivered_loop as [(k & its & -> & Hk & Hw & Hf & Hpos & Hv & Hst)|(-> & e & l & He & Hc)].
  2:{ cbn. split; [done|]. rewrite <- Hb. eauto. }
  destruct (_ || _) eqn:Emore.
  - assert (k < length ids)%nat as Hlt.
    { rewrite Hb in *. apply orb_true_iff in Emore as [?%Nat.ltb_lt|?%negb_true_iff%Nat.eqb_neq]; lia. }
    assert (0 < k)%nat as Hk0 by (apply Hpos; rewrite Hb; by destruct ids; [cbn in Hlt; lia|]).
    pose proof (entries_last (undelivered_entry s) ud_event_id ltac:(by intros ? ? (<- & _)) _ _ Hf) as Hlast.
    unfold undelivered_page. rewrite Hv. cbn [mbind result_bind].
    destruct (last its) as [i|] eqn:Ei; cbn [mbind result_bind ok_or] in *.
    + cbn in Hlast. rewrite bool_decide_false.
      * cbn. split; [done|]. exists k. rewrite <- Hb. split_and!; [lia|rewrite Hb; lia|done..].
      * intros Hle. apply event_le_not_lt in Hle. apply Hle. eapply below_last_lt; [|by symmetry]. by rewrite Hb.
    + apply last_None in Ei. subst its. apply Forall2_length in Hf. rewrite length_take, Hb in Hf. cbn in Hf. lia.
  - apply orb_false_iff in Emore as [?%Nat.ltb_ge ?%negb_false_iff%Nat.eqb_eq].
    unfold undelivered_exact_end. rewrite Hv. cbn. split; [done|].
    rewrite Hb in *. by rewrite take_ge in Hf by lia.
Qed.

(** The loop reaches the fence when what lies below fits the page. *)
Lemma scan_undelivered_fits : (length below <= wanted)%nat ->
  charges (os_authority s) (os_statuses s) below <= MAX_SCAN_PAGE_BYTES ->
  exists its, Forall2 (undelivered_entry s) below its /\
    validate_undelivered_scan_items request u its = Ok tt /\
    scan_undelivered_outbox_statuses f s request
      = map_err stored_value_error
          (if (Datatypes.S wanted <? length ids)%nat
           then undelivered_page request u its
           else undelivered_exact_end request (Some u) its).
Proof.
  intros Hle Hc.
  assert (Forall (fun e => 0 <= charge_of (os_authority s) (os_statuses s) e) below) as Hpos0.
  { apply Forall_forall. intros e [_ (He & _)%elem_of_undelivered_after]%list_elem_of_filter.
    destruct (lookup_read S s e Hs He) as (? & ? & _ & ? & -> & _). lia. }
  pose proof (fun k => charges_take _ _ below k Hpos0) as Htake.
  destruct scan_undelivered_loop as [(k & its & -> & Hk & Hw & Hf & Hpos & Hv & Hst)|(_ & e & l & He & Hb)].
  2:{ specialize (Htake 1%nat). rewrite He in Htake, Hc. unfold charges in *. cbn [take foldr] in *. rewrite take_0 in Htake. cbn [foldr] in Htake. exfalso. lia. }
  assert (k = length below) as ->.
  { destruct (decide (k < length below)%nat) as [Hlt|]; [|lia].
    destruct (Hst Hlt); [lia|]. specialize (Htake (Datatypes.S k)). lia. }
  rewrite take_ge in Hf by lia. exists its. split_and!; [done..|].
  replace (length below =? Datatypes.S wanted `min` length below)%nat with true
    by (symmetry; apply Nat.eqb_eq; lia).
  by rewrite orb_false_r.
Qed.

Lemma scan_undelivered_frozen : (Datatypes.S wanted < length ids)%nat -> (length below <= wanted)%nat ->
  charges (os_authority s) (os_statuses s) below <= MAX_SCAN_PAGE_BYTES ->
  below = [] \/ last below = Some u ->
  scan_undelivered_outbox_statuses f s request = Err CorruptData.
Proof.
  intros Hmore Hle Hc Hend.
  destruct scan_undelivered_fits as (its & Hf & Hv & ->); [done..|].
  apply Nat.ltb_lt in Hmore as ->. unfold undelivered_page. rewrite Hv. cbn [mbind result_bind].
  pose proof (entries_last (undelivered_entry s) ud_event_id ltac:(by intros ? ? (<- & _)) _ _ Hf) as Hlast.
  destruct (last its) as [i|]; [|done]. cbn in Hlast |- *.
  destruct Hend as [Hnil|Hu]; [by rewrite Hnil in Hlast|]. rewrite Hu in Hlast. injection Hlast as ->.
  rewrite bool_decide_true by by right. done.
Qed.
(** Any answer is a prefix of what lies below the fence, and an exact end all of it. *)
Lemma scan_undelivered_shape scan : scan_undelivered_outbox_statuses f s request = Ok scan ->
  exists k its, Forall2 (undelivered_entry s) (take k below) its /\
  match scan with
  | UndeliveredPage items after v => items = its /\ v = u /\ last (take k below) = Some after
  | UndeliveredExactEnd items _ => items = its /\ (length below <= k)%nat
  end.
Proof.
  destruct scan_undelivered_loop as [(k & its & -> & Hk & Hw & Hf & _ & Hv & _)|(-> & _)]; [|done].
  intros Hscan. exists k, its. split; [done|].
  pose proof (entries_last (undelivered_entry s) ud_event_id ltac:(by intros ? ? (<- & _)) _ _ Hf) as Hlast.
  destruct (_ || _) eqn:Emore.
  - unfold undelivered_page in Hscan. rewrite Hv in Hscan. cbn [mbind result_bind] in Hscan.
    destruct (last its) as [i|]; [|done]. cbn in Hscan, Hlast. case_bool_decide; [done|].
    injection Hscan as <-. by rewrite <- Hlast.
  - unfold undelivered_exact_end in Hscan. rewrite Hv in Hscan. injection Hscan as <-. split; [done|].
    apply orb_false_iff in Emore as [_ ?%negb_false_iff%Nat.eqb_eq]. lia.
Qed.
End request.

(** ** Coverage

    What recovery needs of an answer, also when events lie beyond the fence: every
    delivery in flight between the start of a page and its end is in the page. *)
Definition in_flight (m : Statuses) (e : EventId) (st : StoredOutboxStatusV1) : Prop :=
  m !! e = Some st /\ exists a d x y, st_state st = Delivering a d x y.

Definition after_lt (after : option EventId) (e : EventId) : Prop :=
  match after with Some a => event_lt a e | None => True end.

Definition up_to (upper : option EventId) (e : EventId) : Prop :=
  match upper with Some u => event_le e u | None => True end.

Definition scan_covers (universe : gset EventId) (m : Statuses)
    (request : UndeliveredOutboxStatusScanRequestV1) (scan : UndeliveredOutboxStatusScanV1) : Prop :=
  match scan with
  | UndeliveredPage items after u =>
      (forall e st, in_flight m e st -> up_to (request_inclusive_upper request) e -> event_le e u) /\
      after_lt (request_after request) after /\ after ∈ universe /\
      forall e st, in_flight m e st -> after_lt (request_after request) e -> event_le e after ->
        Present st ∈ map (fun i => ud_status i.1) items
  | UndeliveredExactEnd items _ =>
      forall e st, in_flight m e st -> after_lt (request_after request) e ->
        up_to (request_inclusive_upper request) e -> Present st ∈ map (fun i => ud_status i.1) items
  end.

Lemma last_in_order S u e : last (in_order S) = Some u -> e ∈ S -> event_le e u.
Proof.
  intros Hl He%elem_of_in_order. pose proof (in_order_sorted S) as Hs. revert Hl He.
  induction Hs as [|x l Hl IH Hx]; [done|]. intros Hlast He. destruct l as [|y l].
  - cbn in Hlast. injection Hlast as ->. right. set_solver.
  - rewrite last_cons_cons in Hlast. apply elem_of_cons in He as [->|He]; [|by apply IH].
    rewrite Forall_forall in Hx. left. apply Hx. by apply last_Some_elem_of.
Qed.

Lemma in_flight_undelivered S s e st after : tables_ok S s -> in_flight (view (os_statuses s)) e st ->
  after_lt after e -> e ∈ undelivered_after S s after /\ observe (view (os_statuses s)) e = Present st.
Proof.
  intros Ht [Hm (a & d & x & y & Hst)] Ha. assert (observe (view (os_statuses s)) e = Present st) as Hobs
    by (unfold observe; by rewrite Hm).
  split; [|done]. apply elem_of_undelivered_after. split_and!; [| |done].
  - rewrite view_lookup in Hm. destruct (os_statuses s !! e) as [b|] eqn:Eb; [|done]. by apply (so_rows _ _ Ht e b).
  - rewrite Hobs. destruct st as [i []]; done.
Qed.

Lemma entries_statuses s l its e st : Forall2 (undelivered_entry s) l its -> e ∈ l ->
  observe (view (os_statuses s)) e = Present st -> Present st ∈ map (fun i => ud_status i.1) its.
Proof.
  intros Hf He Ho. induction Hf as [|x i l its (_ & Hi & _) Hf IH]; [set_solver|].
  cbn [map]. apply elem_of_cons. apply elem_of_cons in He as [->|He]; [left; congruence|right; auto].
Qed.

Lemma sorted_take_elem l k a e : StronglySorted event_lt l -> last (take k l) = Some a -> e ∈ l ->
  event_le e a -> e ∈ take k l.
Proof.
  intros Hs Hl He Hle. rewrite <- (take_drop k l) in Hs, He. apply elem_of_app in He as [?|He]; [done|].
  apply StronglySorted_app in Hs as (Hlt & _ & _). apply event_le_not_lt in Hle. destruct Hle.
  apply Hlt; [by apply last_Some_elem_of|done].
Qed.

(** An answer tells that the index is in use and that the engine did not fail. *)
Lemma scan_undelivered_used S s f request scan : store_ok S s ->
  scan_undelivered_outbox_statuses f s request = Ok scan ->
  f_lease f = Ok tt /\ f_read f = Ok tt /\
  (forall u, fence S request = Some u -> match request_after request with Some a => event_le a u | None => True end) /\
  exists ix, os_indexes s = Ready ix /\ exact S (view (os_statuses s)) ix.
Proof.
  intros Hs Hscan. pose proof (so_index _ _ Hs) as Hi. unfold scan_undelivered_outbox_statuses in Hscan.
  unfold outbox_intent_last, undelivered_outbox_page, with_ready, ensure_transient_indexes_ready in Hscan.
  destruct (os_indexes s) as [|ix|]; [done| |done]. cbn [mbind result_bind Nat.eqb] in Hscan.
  destruct (f_lease f) as [[]|]; [|done]. cbn [mbind result_bind] in Hscan.
  destruct (f_read f) as [[]|]; [|done]. cbn [mbind result_bind] in Hscan.
  assert (exact S (view (os_statuses s)) ix) as Hex.
  { destruct Hi as [?|(Hnone & _)]; [done|]. unfold indexes_outbox_intent_last in Hscan. by rewrite Hnone in Hscan. }
  split_and!; [done..| |by exists ix]. intros u Hu. destruct (request_after request) as [a|]; [|done].
  destruct Hex as (Hint & _). unfold indexes_outbox_intent_last in Hscan. rewrite Hint in Hscan.
  cbn [mbind option_bind result_bind ok_or] in Hscan. fold (fence S request) in Hscan. rewrite Hu in Hscan.
  case_bool_decide as Hlt; [done|]. by apply event_not_lt.
Qed.

(** An answer of the scan covers what it should, with or without events beyond
    the fence. *)
Lemma scan_undelivered_covers S s f request scan : store_ok S s ->
  0 < request_limit request <= MAX_SCAN_PAGE_ENTRIES ->
  scan_undelivered_outbox_statuses f s request = Ok scan ->
  scan_covers S (view (os_statuses s)) request scan.
Proof.
  intros Hs Hlim Hscan. pose proof (so_tables _ _ Hs) as Ht.
  destruct (scan_undelivered_used S s f request scan Hs Hscan) as (Hl & Hr & Ha & ix & Hix & Hint & _ & Hund).
  destruct (fence S request) as [u|] eqn:Hf.
  2:{ unfold fence in Hf. destruct request as [after limit|]; cbn in Hf; [|done]. apply last_None in Hf.
      assert (forall e st, ~ in_flight (view (os_statuses s)) e st) as Hno.
      { intros e st Hfl. destruct (in_flight_undelivered S s e st None Ht Hfl) as [He _]; [done|].
        apply elem_of_undelivered_after in He as [He _]. apply elem_of_in_order in He. rewrite Hf in He. set_solver. }
      unfold scan_undelivered_outbox_statuses, outbox_intent_last, with_ready, ensure_transient_indexes_ready in Hscan.
      rewrite Hix, Hl, Hr in Hscan. cbn in Hscan. unfold indexes_outbox_intent_last in Hscan.
      rewrite Hint in Hscan. cbn in Hscan. rewrite Hf in Hscan. cbn in Hscan. case_bool_decide; [|done].
      injection Hscan as <-. intros e st Hfl. by apply Hno in Hfl. }
  assert (forall e st, in_flight (view (os_statuses s)) e st ->
    up_to (request_inclusive_upper request) e -> event_le e u) as Hup.
  { intros e st Hfl Hu. destruct (in_flight_undelivered S s e st None Ht Hfl I) as [He _].
    apply elem_of_undelivered_after in He as [He _]. unfold fence in Hf.
    destruct (request_inclusive_upper request); [by injection Hf as <-|]. by apply (last_in_order S). }
  destruct (scan_undelivered_shape S S s ix f request u Ht Hix Hint Hund Hlim Hl Hr Hf (Ha u eq_refl) scan Hscan)
    as (k & its & Hits & Hcase).
  set (below := upto u (undelivered_after S s (request_after request))) in *.
  assert (forall e st, in_flight (view (os_statuses s)) e st -> after_lt (request_after request) e ->
    event_le e u -> e ∈ below /\ observe (view (os_statuses s)) e = Present st) as Hin.
  { intros e st Hfl Hae Hle. destruct (in_flight_undelivered S s e st _ Ht Hfl Hae). split; [|done].
    by apply list_elem_of_filter. }
  destruct scan as [items after v|items v]; cbn [scan_covers].
  - destruct Hcase as (-> & -> & Hlast). assert (after ∈ below) as Hafter
      by (pose proof (last_Some_elem_of _ _ Hlast) as Hl2; by apply (subseteq_take k)).
    apply list_elem_of_filter in Hafter as [Hau (HS & _ & Hlt)%elem_of_undelivered_after].
    split_and!; [done..|]. intros e st Hfl Hae Hle. destruct (Hin e st Hfl Hae) as [Hb Ho]; [by etrans|].
    eapply entries_statuses; [exact Hits| |exact Ho].
    eapply sorted_take_elem; [by apply StronglySorted_filter, range_after_sorted|exact Hlast|done..].
  - destruct Hcase as [-> Hk]. rewrite take_ge in Hits by lia. intros e st Hfl Hae Hue.
    destruct (Hin e st Hfl Hae) as [Hb Ho]; [by eapply Hup|]. by eapply entries_statuses.
Qed.

(** On a well-formed store whose index is in use, a page of the pending scan
    is a prefix of the pending events after the given one, in order, each with
    its authoritative event and current status, together with the last id as the
    place to continue; an exact end holds all of them; and the only error is the
    byte bound, when already the first event exceeds a page. *)
Theorem scan_pending_exact S s ix f after limit : store_ok S s ->
  os_indexes s = Ready ix -> exact S (view (os_statuses s)) ix ->
  0 < limit <= MAX_SCAN_PAGE_ENTRIES -> f_lease f = Ok tt -> f_read f = Ok tt ->
  pending_answer s
    (range_after (filter (fun e => is_pending (observe (view (os_statuses s)) e) = true) S) after)
    (scan_pending_outbox f s after limit).
Proof. apply scan_pending_ok. Qed.

Lemma scan_undelivered_ok S s ix f request u : store_ok S s ->
  os_indexes s = Ready ix -> exact S (view (os_statuses s)) ix ->
  0 < request_limit request <= MAX_SCAN_PAGE_ENTRIES -> f_lease f = Ok tt -> f_read f = Ok tt ->
  fence S request = Some u ->
  match request_after request with Some a => event_le a u | None => True end ->
  request_inclusive_upper request = None \/
    Forall (fun e => event_le e u) (undelivered_after S s (request_after request)) ->
  undelivered_answer s u (undelivered_after S s (request_after request))
    (scan_undelivered_outbox_statuses f s request).
Proof.
  intros Hs Hix (Hint & _ & Hund) Hlim Hl Hr Hf Ha Hfresh.
  apply (scan_undelivered_within S S s ix f request u); try done; [apply Hs|].
  destruct Hfresh as [Hini|?]; [|done]. unfold fence in Hf. rewrite Hini in Hf.
  apply Forall_forall. intros e (He & _)%elem_of_undelivered_after. by apply (last_in_order S).
Qed.

(** On a well-formed store whose index is in use, the undelivered scan up to a
    fence (the last intent for a first page, the frozen one for a continuation)
    is exact as long as no undelivered event lies beyond the fence: a page is a
    proper non-empty prefix of the undelivered events after the given one with
    their current statuses, its continuation is its last id under the same
    fence, and an exact end holds all of them; an empty store answers an empty
    exact end.  The only error is the byte bound. *)
Theorem scan_undelivered_exact S s ix f request : store_ok S s ->
  os_indexes s = Ready ix -> exact S (view (os_statuses s)) ix ->
  0 < request_limit request <= MAX_SCAN_PAGE_ENTRIES -> f_lease f = Ok tt -> f_read f = Ok tt ->
  match fence S request with
  | None => scan_undelivered_outbox_statuses f s request = Ok (UndeliveredExactEnd [] None)
  | Some u =>
      match request_after request with Some a => event_le a u | None => True end ->
      request_inclusive_upper request = None \/
        Forall (fun e => event_le e u) (undelivered_after S s (request_after request)) ->
      undelivered_answer s u (undelivered_after S s (request_after request))
        (scan_undelivered_outbox_statuses f s request)
  end.
Proof.
  intros Hs Hix Hex Hlim Hl Hr. destruct (fence S request) as [u|] eqn:Hf.
  { intros Ha Hfresh. by eapply scan_undelivered_ok. }
  unfold fence in Hf. destruct request as [after limit|]; cbn in Hf; [|done].
  apply last_None in Hf. destruct Hex as (Hint & _ & _).
  assert (S = ∅) as -> by (apply leibniz_equiv; intros e; rewrite <- elem_of_in_order, Hf; set_solver).
  assert (os_statuses s = ∅) as Hempty.
  { apply map_empty. intros e. destruct (os_statuses s !! e) as [b|] eqn:Eb; [|done].
    destruct (so_rows _ _ Hs e b Eb). set_solver. }
  unfold scan_undelivered_outbox_statuses, outbox_intent_last, with_ready, ensure_transient_indexes_ready.
  rewrite Hix, Hl, Hr. cbn. unfold indexes_outbox_intent_last. rewrite Hint. cbn.
  by rewrite Hempty, bool_decide_true.
Qed.

(** C35. A continuation of the undelivered scan reports corrupt data on a
    well-formed store whenever more than a page of undelivered events follows
    the continuation point while those up to the frozen fence fit the page and
    end at the fence (or there are none): events committed after the fence was
    frozen make the scan claim that more remains, and the page is then refused. *)
Theorem frozen_fence_reports_corruption S s ix f request u : store_ok S s ->
  os_indexes s = Ready ix -> exact S (view (os_statuses s)) ix ->
  0 < request_limit request <= MAX_SCAN_PAGE_ENTRIES -> f_lease f = Ok tt -> f_read f = Ok tt ->
  fence S request = Some u ->
  match request_after request with Some a => event_le a u | None => True end ->
  request_limit request + 1 < zlen (undelivered_after S s (request_after request)) ->
  let below := upto u (undelivered_after S s (request_after request)) in
  zlen below <= request_limit request ->
  charges (os_authority s) (os_statuses s) below <= MAX_SCAN_PAGE_BYTES ->
  below = [] \/ last below = Some u ->
  scan_undelivered_outbox_statuses f s request = Err CorruptData.
Proof.
  intros Hs Hix (Hint & _ & Hund) Hlim Hl Hr Hf Ha Hmore below Hb Hc Hend. unfold zlen in *.
  apply (scan_undelivered_frozen S S s ix f request u); try done; fold below; [apply Hs|lia..].
Qed.
End scan.

Lemma scan_pending_exact_witness :
  let C := Example.codec Example.table in
  let s := Example.store 3 in
  pending_answer s (map Example.ev [1; 2]) (scan_pending_outbox no_faults s (Some (Example.ev 0)) 1).
Proof.
  intros C s.
  pose proof (@scan_pending_exact C (Example.events 3) s
    (Example.indexes 3) no_faults (Some (Example.ev 0)) 1 (Example.store_fine 3) eq_refl) as Hscan.
  replace (range_after _ _) with (map Example.ev [1; 2]) in Hscan by (vm_compute; reflexivity).
  apply Hscan; [|lia|reflexivity..]. cbn. rewrite Example.view_empty. apply Example.indexes_exact.
Defined.

Lemma scan_undelivered_exact_witness :
  let C := Example.codec Example.table in
  let s := Example.store 3 in
  undelivered_answer s (Example.ev 2) (map Example.ev [1; 2])
    (scan_undelivered_outbox_statuses no_faults s (ScanInitial (Some (Example.ev 0)) 1)).
Proof.
  intros C s.
  pose proof (@scan_undelivered_exact C (Example.events 3) s
    (Example.indexes 3) no_faults (ScanInitial (Some (Example.ev 0)) 1) (Example.store_fine 3) eq_refl) as Hscan.
  replace (fence _ _) with (Some (Example.ev 2)) in Hscan by (vm_compute; reflexivity).
  replace (undelivered_after _ _ _) with (map Example.ev [1; 2]) in Hscan by (vm_compute; reflexivity).
  apply Hscan; [|cbn; lia|reflexivity..| |left; reflexivity].
  - cbn. rewrite Example.view_empty. apply Example.indexes_exact.
  - left. right. cbn. lia.
Defined.

(** Six events are pending; the recovery scan froze its fence at the second when
    there were two, and continues after the first with a page of two. *)
Lemma frozen_fence_reports_corruption_witness :
  let C := Example.codec Example.table in
  scan_undelivered_outbox_statuses no_faults (Example.store 6)
    (ScanContinue (Example.ev 0) (Example.ev 1) 2) = Err CorruptData.
Proof.
  intros C.
  apply (@frozen_fence_reports_corruption C (Example.events 6)
    (Example.store 6) (Example.indexes 6) no_faults (ScanContinue (Example.ev 0) (Example.ev 1) 2) (Example.ev 1)
    (Example.store_fine 6) eq_refl).
  - cbn. rewrite Example.view_empty. apply Example.indexes_exact.
  - cbn. lia.
  - reflexivity.
  - reflexivity.
  - reflexivity.
  - left. right. cbn. lia.
  - vm_compute. reflexivity.
  - vm_compute. discriminate.
  - vm_compute. discriminate.
  - right. vm_compute. reflexivity.
Defined.
