(* ===== verification/OutboxIndex.v ===== *)
(** * The life of the outbox index

    [life] is what can happen to the store and its transient index: rebuilds and
    losses of the index, status transitions and groups of them, publications of
    command segments and prunings of history, each with the failures of its commit.
    In every state reached the index is exact for the tables or out of use.  The
    delta of the storage-only batch is apart: it leaves the intents behind. *)

From S2P Require Import Prelude Value Key StorageBase OutboxStatus OutboxStore OutboxStoreSpec OutboxScan.
From stdpp Require Import gmap list sorting.

Local Open Scope Z_scope.

Section index.
Context `{StatusCodec}.

(** ** Rebuilding *)
Lemma rebuild_statuses_ok S p u rows l : rows_ok S rows ->
  (forall e b, (e, b) ∈ l -> rows !! e = Some b) ->
  exists p' u', rebuild_statuses S p u l = Some (p', u') /\
    (forall x, x ∈ p' <-> x ∈ p /\ (x ∈ map fst l -> is_pending (observe (view rows) x) = true)) /\
    (forall x, x ∈ u' <-> x ∈ u /\ (x ∈ map fst l -> status_is_undelivered (observe (view rows) x) = true)).
Proof.
  intros Hr. revert p u. induction l as [|[e b] l IH]; intros p u Hl.
  { exists p, u. split_and!; [done|set_solver..]. }
  assert (rows !! e = Some b) as Hb by (apply Hl; set_solver).
  destruct (Hr e b Hb) as (HS & s & c & Hd & Hid & _). cbn [rebuild_statuses map fst].
  rewrite bool_decide_true, Hd by done. cbn [negb]. rewrite bool_decide_true by done. cbn [negb].
  assert (observe (view rows) e = Present s) as Hobs.
  { unfold observe. rewrite view_lookup, Hb. cbn. by rewrite Hd. }
  destruct (IH (if state_is_pending (st_state s) then p else p ∖ {[e]})
    (match st_state s with Delivered _ _ _ => u ∖ {[e]} | _ => u end)) as (p' & u' & Hreb & Hp & Hu).
  { set_solver. }
  exists p', u'. split_and!; [done|intros x; rewrite Hp|intros x; rewrite Hu]; rewrite elem_of_cons;
    destruct (decide (x = e)) as [->|Hne]; rewrite ?Hobs; destruct s as [i []]; cbn; set_solver.
Qed.

Lemma rebuild_ok S a rows : authority_ok a S -> rows_ok S rows ->
  rebuild_outbox_indexes a rows
    = Ok (Some (S, filter (fun e => is_pending (observe (view rows) e) = true) S,
                filter (fun e => status_is_undelivered (observe (view rows) e) = true) S)).
Proof.
  intros Ha Hr. unfold rebuild_outbox_indexes.
  rewrite insert_new_spec; [|apply Ha|set_solver]. cbn [mbind result_bind ok_or].
  assert (list_to_set (segment_event_ids a) ∪ ∅ ∪ list_to_set (intent_keys a) = S) as ->.
  { apply leibniz_equiv. intros e. rewrite (ao_listed _ _ Ha e). set_solver. }
  destruct (rebuild_statuses_ok S S S rows (map_to_list rows) Hr) as (p & u & -> & Hp & Hu).
  { intros e b He. by apply elem_of_map_to_list. }
  cbn [mbind option_bind fst snd]. do 2 f_equal.
  assert (forall x (g : OutboxStatusObservationV1 -> bool), g AbsentInitialPending = true ->
    ((x ∈ map fst (map_to_list rows) -> g (observe (view rows) x) = true) <-> g (observe (view rows) x) = true)) as Hg.
  { intros x g Hg. split; [|done]. intros Hx. destruct (rows !! x) as [b|] eqn:Eb.
    - apply Hx. apply list_elem_of_fmap. exists (x, b). split; [done|by apply elem_of_map_to_list].
    - unfold observe. by rewrite view_lookup, Eb. }
  f_equal; [f_equal|]; apply leibniz_equiv; intros x; rewrite elem_of_filter.
  - rewrite Hp, (Hg x is_pending) by done. tauto.
  - rewrite Hu, (Hg x status_is_undelivered) by done. tauto.
Qed.

(** ** Publishing and pruning *)
Lemma insert_fresh (p : EventId -> bool) (S : gset EventId) (l : list EventId) : NoDup l ->
  (forall e, e ∈ l -> e ∉ S /\ p e = true) ->
  insert_new l (filter (fun e => p e = true) S)
    = Some (filter (fun e => p e = true) (list_to_set l ∪ S)).
Proof.
  intros Hnd Hl. rewrite insert_new_spec; [|done|].
  - f_equal. apply leibniz_equiv. intros x. rewrite elem_of_union, !elem_of_filter, elem_of_union, elem_of_list_to_set.
    naive_solver.
  - intros x Hx [_ ?]%elem_of_filter. by apply (Hl x Hx).
Qed.

Lemma observe_fresh (S : gset EventId) (m : Statuses) e : (forall x, x ∈ dom m -> x ∈ S) -> e ∉ S -> observe m e = AbsentInitialPending.
Proof. intros Hm He. unfold observe. destruct (m !! e) eqn:E; [|done]. destruct He. apply Hm. by apply elem_of_dom. Qed.

Lemma publish_outbox_exact (S : gset EventId) (m : Statuses) ix l : exact S m ix -> (forall x, x ∈ dom m -> x ∈ S) -> NoDup l ->
  (forall e, e ∈ l -> e ∉ S) -> exact (list_to_set l ∪ S) m (publish_outbox ix l).
Proof.
  intros (Hi & Hp & Hu) Hm Hnd Hl. unfold publish_outbox. rewrite Hi, Hp, Hu.
  assert (forall g : OutboxStatusObservationV1 -> bool, g AbsentInitialPending = true ->
    forall e, e ∈ l -> e ∉ S /\ g (observe m e) = true) as Hg.
  { intros g Hg e He. split; [by apply Hl|]. by rewrite (observe_fresh S) by auto. }
  rewrite insert_new_spec, (insert_fresh (fun e => is_pending (observe m e))),
    (insert_fresh (fun e => status_is_undelivered (observe m e))) by (done || by apply Hg). done.
Qed.

Lemma publish_exact (S : gset EventId) (m : Statuses) ix l : exact S m ix -> (forall x, x ∈ dom m -> x ∈ S) -> command_derived ix = true ->
  NoDup (map snd l) -> (forall e, e ∈ map snd l -> e ∉ S) ->
  (forall routes r, event_routes ix = Some routes -> r ∈ l -> r ∉ routes) ->
  exact (list_to_set (map snd l) ∪ S) m (apply_disposable_delta ix (CommandSegmentPublished l)).
Proof.
  intros Hx Hm Hc Hnd Hl Hr. cbn. rewrite Hc. cbn. destruct (event_routes ix) as [routes|].
  - rewrite insert_new_spec.
    + by apply publish_outbox_exact.
    + eapply NoDup_fmap_1. exact Hnd.
    + eauto.
  - by apply publish_outbox_exact.
Qed.

Lemma prune_exact S m ix through : exact S m ix -> 0 <= through < 2 ^ 64 - 1 ->
  exact (filter (event_le (mkEventId (through + 1) 0)) S) m
    (apply_disposable_delta ix (D_HistoryPruned through)).
Proof.
  intros (Hi & Hp & Hu) Ht. cbn. unfold prune_history.
  assert (u_checked 64 (through + 1) = Some (through + 1)) as -> by (apply u_checked_Some; unfold u_range; lia).
  unfold exact. cbn. rewrite Hi, Hp, Hu. cbn. split_and!; [done|f_equal..]; apply leibniz_equiv; intros x;
    rewrite !elem_of_filter; tauto.
Qed.

(** ** The life of the index *)
Lemma insert_new_inv {A} `{Countable A} (l : list A) (s s' : gset A) : insert_new l s = Some s' ->
  NoDup l /\ (forall x, x ∈ l -> x ∉ s).
Proof.
  revert s. induction l as [|x l IH]; intros s; cbn [insert_new]; [split; [apply NoDup_nil_2|set_solver]|].
  case_bool_decide as Hx; [done|]. intros (Hnd & Hl)%IH. split; [constructor; set_solver|set_solver].
Qed.

Lemma invalidated_unused ix : unused (invalidate_outbox ix).
Proof. done. Qed.

(** A publication keeps an exact index exact or puts it out of use. *)
Lemma publish_outbox_ok (S : gset EventId) (m : Statuses) ix l : exact S m ix \/ unused ix -> (forall x, x ∈ dom m -> x ∈ S) ->
  exact (list_to_set l ∪ S) m (publish_outbox ix l) \/ unused (publish_outbox ix l).
Proof.
  intros [Hx|Hu] Hm; [|right; unfold publish_outbox; by destruct (Hu) as (-> & _)].
  destruct (insert_new l S) as [S'|] eqn:E.
  - left. apply insert_new_inv in E as [Hnd Hl]. by apply publish_outbox_exact.
  - right. destruct Hx as (Hi & Hp & Hu). unfold publish_outbox. rewrite Hi, Hp, Hu, E. apply invalidated_unused.
Qed.

Lemma publish_ok (S : gset EventId) (m : Statuses) ix l : exact S m ix \/ unused ix -> (forall x, x ∈ dom m -> x ∈ S) ->
  command_derived ix = true ->
  let ix' := apply_disposable_delta ix (CommandSegmentPublished l) in
  exact (list_to_set (map snd l) ∪ S) m ix' \/ unused ix'.
Proof.
  intros Hx Hm Hc. cbn. rewrite Hc. cbn [negb]. destruct (event_routes ix) as [routes|]; [|by apply publish_outbox_ok].
  destruct (insert_new l routes) as [routes'|]; [|right; apply invalidated_unused]. by apply publish_outbox_ok.
Qed.

Lemma exact_ext (S : gset EventId) (m m' : Statuses) ix : (forall e, e ∈ S -> observe m e = observe m' e) ->
  exact S m ix -> exact S m' ix.
Proof.
  intros Hm (Hi & Hp & Hu). split_and!; [done|rewrite Hp|rewrite Hu]; f_equal; apply leibniz_equiv; intros x;
    rewrite !elem_of_filter; split; intros [? ?]; rewrite ?Hm in *; auto; by rewrite <- Hm.
Qed.

(** The rows that pruning leaves. *)
Definition after_history (through : Z) (e : EventId) : Prop := event_le (mkEventId (through + 1) 0) e.

#[global] Instance after_history_dec through e : Decision (after_history through e).
Proof. unfold after_history. apply _. Defined.

Definition kept_events (through : Z) (S : gset EventId) : gset EventId := filter (after_history through) S.
Definition kept_rows (through : Z) (rows : gmap EventId (list byte)) : gmap EventId (list byte) :=
  filter (fun p => after_history through p.1) rows.

Lemma kept_rows_ok S rows through : rows_ok S rows -> rows_ok (kept_events through S) (kept_rows through rows).
Proof.
  intros Hr e b [Hb He]%map_lookup_filter_Some. destruct (Hr e b Hb) as [HS Hs]. split; [|done].
  by apply elem_of_filter.
Qed.

Lemma kept_observe S rows through e : e ∈ kept_events through S ->
  observe (view rows) e = observe (view (kept_rows through rows)) e.
Proof.
  intros [He _]%elem_of_filter. unfold observe. rewrite !view_lookup. unfold kept_rows.
  rewrite map_lookup_filter. destruct (rows !! e); cbn; [|done]. by rewrite option_guard_True.
Qed.

Lemma prune_ok S rows ix through : 0 <= through -> exact S (view rows) ix \/ unused ix ->
  let ix' := apply_disposable_delta ix (D_HistoryPruned through) in
  exact (kept_events through S) (view (kept_rows through rows)) ix' \/ unused ix'.
Proof.
  intros Ht Hx. destruct (decide (through < 2 ^ 64 - 1)) as [Hlt|Hge].
  - destruct Hx as [Hx|(Hi & Hp & Hu)].
    + left. eapply exact_ext; [apply kept_observe|]. by apply prune_exact.
    + right. cbn. unfold prune_history. destruct (u_checked 64 (through + 1)); [|done].
      unfold unused. cbn. by rewrite Hi, Hp, Hu.
  - right. cbn. unfold prune_history. destruct (u_checked 64 (through + 1)) eqn:E; [|done].
    apply u_checked_Some in E as [_ [_ E]]. lia.
Qed.

(** A rebuilt index: the command-derived part is always there. *)
Definition rebuilt (routes : gset (list byte * EventId))
    (r : option (gset EventId * gset EventId * gset EventId)) : TransientIndexes :=
  match r with
  | Some (intents, pending, undelivered) =>
      mkTransientIndexes true (Some routes) (Some intents) (Some pending) (Some undelivered)
  | None => mkTransientIndexes true (Some routes) None None None
  end.

(** What the index shows after a commit that carried a delta: the commit may also
    fail or be refreshed in vain, and then the index is invalid. *)
Definition follows (ix : TransientIndexes) (delta : TransientIndexDelta) (i : TransientIndexState) : Prop :=
  i = Ready (apply_disposable_delta ix delta) \/ i = Invalid.

(** What happens to the store, with its set of events: the index is built or lost,
    a status moves or a group of them does, a command segment is published, and
    history is pruned, with its events and status rows. *)
Inductive life : gset EventId * OutboxStore -> gset EventId * OutboxStore -> Prop :=
  | life_rebuild S s routes r : rebuild_outbox_indexes (os_authority s) (os_statuses s) = Ok r ->
      life (S, s) (S, mkOutboxStore (os_authority s) (os_statuses s) (Ready (rebuilt routes r)))
  | life_lost S s i : i = Dormant \/ i = Invalid ->
      life (S, s) (S, mkOutboxStore (os_authority s) (os_statuses s) i)
  | life_transition S s f t : life (S, s) (S, (transition_outbox f t s).1)
  | life_claims S s f l : claims l -> life (S, s) (S, (claim_outbox_group f l s).1)
  | life_successes S s f l : successes l -> life (S, s) (S, (succeed_outbox_group f l s).1)
  | life_publish S s a l ix i : authority_ok a (list_to_set (map snd l) ∪ S) ->
      os_indexes s = Ready ix -> follows ix (CommandSegmentPublished l) i ->
      life (S, s) (list_to_set (map snd l) ∪ S, mkOutboxStore a (os_statuses s) i)
  | life_prune S s a through ix i : 0 <= through -> authority_ok a (kept_events through S) ->
      os_indexes s = Ready ix -> follows ix (D_HistoryPruned through) i ->
      life (S, s) (kept_events through S, mkOutboxStore a (kept_rows through (os_statuses s)) i).

Definition derived (i : TransientIndexState) : Prop :=
  match i with Ready ix => command_derived ix = true | Dormant | Invalid => True end.

Lemma membership_derived ix e p p' u u' : command_derived (apply_membership ix e p p' u u') = command_derived ix.
Proof. unfold apply_membership. by repeat case_match. Qed.

Lemma fold_derived p p' u u' l ix :
  command_derived (foldl (fun ix e => apply_membership ix e p p' u u') ix l) = command_derived ix.
Proof. revert ix. induction l as [|e l IH]; intros ix; cbn; [done|]. by rewrite IH, membership_derived. Qed.

Lemma delta_derived ix delta : command_derived (apply_disposable_delta ix delta) = command_derived ix.
Proof.
  destruct delta; cbn; rewrite ?fold_derived, ?membership_derived; try done; unfold publish_outbox, prune_history;
    by repeat case_match.
Qed.

Lemma commit_derived f rows delta s : derived (os_indexes s) -> derived (os_indexes (commit_for_with_delta f rows delta s).1).
Proof.
  intros Hd. unfold commit_for_with_delta. destruct (os_indexes s) as [|ix|] eqn:E; cbn; rewrite ?E; try done.
  destruct (f_prepare f); cbn; [|by rewrite E]. destruct (f_commit f); cbn; [|done..]. cbn in Hd. by rewrite delta_derived.
Qed.

Lemma commit_bind_derived {A} f rows delta (a : A) s : derived (os_indexes s) ->
  derived (os_indexes ((_ ← commit_for_with_delta f rows delta; mret a) s).1).
Proof.
  intros Hd. apply (commit_derived f rows delta) in Hd. unfold mbind, SE_bind.
  by destruct (commit_for_with_delta f rows delta s) as [s' []].
Qed.

Lemma transition_derived f t s : derived (os_indexes s) -> derived (os_indexes (transition_outbox f t s).1).
Proof.
  intros Hd. unfold transition_outbox. repeat case_match; try done. by apply commit_bind_derived.
Qed.

Lemma group_derived f delta l s : derived (os_indexes s) -> derived (os_indexes (transition_group f delta l s).1).
Proof.
  intros Hd. unfold transition_group. repeat case_match; try done. by apply commit_bind_derived.
Qed.

Lemma claims_derived f l s : derived (os_indexes s) -> derived (os_indexes (claim_outbox_group f l s).1).
Proof.
  intros Hd. unfold claim_outbox_group, mbind, SE_bind, lift. destruct (claim_group_new l); [|done]. by apply group_derived.
Qed.

Lemma successes_derived f l s : derived (os_indexes s) -> derived (os_indexes (succeed_outbox_group f l s).1).
Proof.
  intros Hd. unfold succeed_outbox_group, mbind, SE_bind, lift. destruct (succeed_group_new l); [|done]. by apply group_derived.
Qed.

Lemma rows_dom S rows x : rows_ok S rows -> x ∈ dom (view rows) -> x ∈ S.
Proof.
  intros Hr [st Hs]%elem_of_dom. rewrite view_lookup in Hs. destruct (rows !! x) as [b|] eqn:Eb; [|done].
  by apply (Hr x b).
Qed.

Lemma rows_wider S S' rows : S ⊆ S' -> rows_ok S rows -> rows_ok S' rows.
Proof. intros Hsub Hr e b Hb. destruct (Hr e b Hb) as [He Hs]. split; [by apply Hsub|done]. Qed.

End index.

(** ** The life of the index keeps it exact *)
Section lives.
Context `{StatusCodecLaws}.

(** A reached store: its tables are fine, the index is exact or out of use, and its
    command-derived part is there. *)
Definition alive (x : gset EventId * OutboxStore) : Prop := store_ok x.1 x.2 /\ derived (os_indexes x.2).

Lemma life_alive x y : alive x -> life x y -> alive y.
Proof.
  intros [Hs Hd] Hl. pose proof (so_authority _ _ (so_tables _ _ Hs)) as Ha. pose proof (so_rows _ _ (so_tables _ _ Hs)) as Hr.
  destruct Hl as [S s routes r Hreb|S s i Hi|S s f t|S s f l Hl|S s f l Hl|S s a l ix i Hau Hix Hf|S s a n ix i Hn Hau Hix Hf];
    unfold alive in *; cbn [fst snd os_indexes] in *.
  - rewrite (rebuild_ok S _ _ Ha Hr) in Hreb. injection Hreb as <-. split; [|done]. split; [by split|]. by left.
  - split; [split; [by split|]|]; by destruct Hi as [-> | ->].
  - split; [|by apply transition_derived]. pose proof (transition_implements S s f t Hs) as Hi.
    by destruct (transition_outbox f t s) as [s' r]; destruct Hi.
  - split; [|by apply claims_derived]. pose proof (claim_group_implements S s f l Hs Hl) as Hi.
    by destruct (claim_outbox_group f l s) as [s' r]; destruct Hi.
  - split; [|by apply successes_derived]. pose proof (succeed_group_implements S s f l Hs Hl) as Hi.
    by destruct (succeed_outbox_group f l s) as [s' r]; destruct Hi.
  - pose proof (so_index _ _ Hs) as Hx. rewrite Hix in Hx, Hd. cbn in Hx, Hd.
    split; [split; [split; [done|eapply rows_wider; [|done]; set_solver]|]|]; destruct Hf as [-> | ->]; cbn [index_ok derived]; try done.
    + apply publish_ok; [done| |done]. intros x. by apply rows_dom.
    + by rewrite delta_derived.
  - pose proof (so_index _ _ Hs) as Hx. rewrite Hix in Hx, Hd. cbn in Hx, Hd.
    split; [split; [split; [done|by apply kept_rows_ok]|]|]; destruct Hf as [-> | ->]; cbn [index_ok derived]; try done.
    + by apply prune_ok.
    + by rewrite delta_derived.
Qed.

Lemma lives_alive x y : alive x -> rtc life x y -> alive y.
Proof. intros Hx Hl. induction Hl as [|x y z Hl _ IH]; [done|]. by apply IH, (life_alive x). Qed.

(** An answer read from the index comes from an exact one. *)
Lemma with_ready_exact {A} S s f (k : TransientIndexes -> option A) r : store_ok S s -> with_ready f s k = Ok r ->
  (forall ix, unused ix -> k ix = None) ->
  exists ix, os_indexes s = Ready ix /\ exact S (view (os_statuses s)) ix /\ k ix = Some r.
Proof.
  intros Hs Hk Hun. unfold with_ready, ensure_transient_indexes_ready in Hk. pose proof (so_index _ _ Hs) as Hi.
  destruct (os_indexes s) as [|ix|]; cbn in Hk; try done. exists ix. destruct (k ix) as [a|] eqn:E; [|done].
  injection Hk as ->. destruct Hi as [Hi|Hi]; [done|]. by rewrite Hun in E.
Qed.

(** C29. The transient index of the outbox is exact through its whole life.  Start
    from any tables with no index built yet, and let happen, in any order and with
    any failure of the database engine: rebuilds of the index and losses of it,
    transitions and claim and success groups, publications of command segments, and
    prunings of history.  In every state reached, a page of the pending or of the
    undelivered set that the index answers is that page of the events whose status
    row says so, and the last intent it answers is the last event; a rebuild
    succeeds with exactly those sets; and an index in use stays in use, and exact
    for the new tables, when a segment of new events is published or history is
    pruned.  (The insertion of the storage-only batch is not among these steps.) *)
Theorem outbox_index_life S0 s0 S s : tables_ok S0 s0 -> os_indexes s0 = Dormant -> rtc life (S0, s0) (S, s) ->
  let rows := os_statuses s in
  let pending := filter (fun e => is_pending (observe (view rows) e) = true) S in
  let undelivered := filter (fun e => status_is_undelivered (observe (view rows) e) = true) S in
  tables_ok S s /\
  (forall f after limit page, limit <> 0%nat ->
    (pending_outbox_page f s after limit = Ok page ->
       page = (take limit (range_after pending after), (limit <? length (range_after pending after))%nat)) /\
    (undelivered_outbox_page f s after limit = Ok page ->
       page = (take limit (range_after undelivered after), (limit <? length (range_after undelivered after))%nat))) /\
  (forall f l, outbox_intent_last f s = Ok l -> l = last (in_order S)) /\
  rebuild_outbox_indexes (os_authority s) rows = Ok (Some (S, pending, undelivered)) /\
  (forall ix, os_indexes s = Ready ix -> outbox_intents ix <> None ->
    (forall l, NoDup (map snd l) -> (forall e, e ∈ map snd l -> e ∉ S) ->
       (forall routes r, event_routes ix = Some routes -> r ∈ l -> r ∉ routes) ->
       exact (list_to_set (map snd l) ∪ S) (view rows) (apply_disposable_delta ix (CommandSegmentPublished l))) /\
    (forall through, 0 <= through < 2 ^ 64 - 1 ->
       exact (kept_events through S) (view (kept_rows through rows)) (apply_disposable_delta ix (D_HistoryPruned through)))).
Proof.
  intros Ht Hidle Hl rows pending undelivered. destruct (lives_alive (S0, s0) (S, s)) as [Hs Hd]; [|done|].
  { split; cbn; [split; [done|]|]; by rewrite Hidle. }
  cbn [fst snd] in Hs, Hd. pose proof (so_tables _ _ Hs) as [Ha Hr].
  split_and!; [done| | |by apply rebuild_ok|].
  - intros f after limit page Hlim. unfold pending_outbox_page, undelivered_outbox_page.
    rewrite (proj2 (Nat.eqb_neq limit 0)) by done.
    unfold indexes_pending_outbox_page, indexes_undelivered_outbox_page. split; intros Hk.
    + destruct (with_ready_exact S s f _ page Hs Hk) as (ix & _ & (_ & Hp & _) & Hpage); [by intros ? (_ & -> & _)|].
      rewrite Hp in Hpage. injection Hpage as <-. apply page_event_index_eq.
    + destruct (with_ready_exact S s f _ page Hs Hk) as (ix & _ & (_ & _ & Hu) & Hpage); [by intros ? (_ & _ & ->)|].
      rewrite Hu in Hpage. injection Hpage as <-. apply page_event_index_eq.
  - intros f l (ix & _ & (Hi & _) & Hk)%(with_ready_exact S); [|done|].
    + unfold indexes_outbox_intent_last in Hk. rewrite Hi in Hk. by injection Hk as <-.
    + intros ix (Hi & _). unfold indexes_outbox_intent_last. by rewrite Hi.
  - intros ix Hix Hin. pose proof (so_index _ _ Hs) as Hx. rewrite Hix in Hx, Hd. destruct Hx as [Hx|[]]; [|done]. split.
    + intros l Hnd Hfresh Hroutes. apply publish_exact; try done. intros x. by apply rows_dom.
    + intros through Hth. eapply exact_ext; [apply kept_observe|]. by apply prune_exact.
Qed.
End lives.

(** An index is built over two events, the first is claimed, and a third event is
    published. *)
Module Lived.
Definition codec : StatusCodec := Example.codec Example.table.

Definition idle : OutboxStore := mkOutboxStore (Example.authority 2) ∅ Dormant.

Definition built : OutboxStore :=
  mkOutboxStore (Example.authority 2) ∅
    (Ready (rebuilt ∅ match @rebuild_outbox_indexes codec (Example.authority 2) ∅ with Ok r => r | Err _ => None end)).

Definition claimed : OutboxStore := (@transition_outbox codec no_faults (Example.claim 0) built).1.

Definition claimed_index : TransientIndexes :=
  match os_indexes claimed with Ready ix => ix | _ => Example.indexes 0 end.

Definition published : OutboxStore :=
  mkOutboxStore (Example.authority 3) (os_statuses claimed)
    (Ready (apply_disposable_delta claimed_index (CommandSegmentPublished [([], Example.ev 2)]))).

Definition events : gset EventId := list_to_set (map snd [([] : list byte, Example.ev 2)]) ∪ Example.events 2.

Lemma lived : rtc (@life codec) (Example.events 2, idle) (events, published).
Proof.
  eapply rtc_l; [apply (@life_rebuild codec (Example.events 2) idle ∅); vm_compute; reflexivity|].
  eapply rtc_l; [apply (@life_transition codec _ _ no_faults (Example.claim 0))|].
  eapply rtc_l; [|apply rtc_refl].
  apply (@life_publish codec (Example.events 2) claimed (Example.authority 3) [([], Example.ev 2)] claimed_index).
  - replace (list_to_set (map snd [([] : list byte, Example.ev 2)]) ∪ Example.events 2) with (Example.events 3)
      by (vm_compute; reflexivity). apply Example.authority_fine.
  - vm_compute. reflexivity.
  - left. reflexivity.
Qed.
End Lived.

Lemma outbox_index_life_witness :
  let C := Lived.codec in
  let rows := os_statuses Lived.published in
  pending_outbox_page no_faults Lived.published None 5 = Ok ([Example.ev 1; Example.ev 2], false) /\
  [Example.ev 1; Example.ev 2]
    = take 5 (range_after (filter (fun e => is_pending (observe (view rows) e) = true) Lived.events) None) /\
  rebuild_outbox_indexes (os_authority Lived.published) rows
    = Ok (Some (Lived.events,
                filter (fun e => is_pending (observe (view rows) e) = true) Lived.events,
                filter (fun e => status_is_undelivered (observe (view rows) e) = true) Lived.events)).
Proof.
  intros C rows.
  assert (pending_outbox_page no_faults Lived.published None 5 = Ok ([Example.ev 1; Example.ev 2], false)) as Hpage
    by (vm_compute; reflexivity).
  destruct (@outbox_index_life C (Example.codec_laws Example.table) (Example.events 2) Lived.idle Lived.events Lived.published)
    as (_ & Hpages & _ & Hrebuild & _).
  - split; [apply Example.authority_fine|done].
  - reflexivity.
  - apply Lived.lived.
  - split; [exact Hpage|]. split; [|exact Hrebuild].
    destruct (Hpages no_faults None 5%nat ([Example.ev 1; Example.ev 2], false)) as [Hp _]; [done|].
    specialize (Hp Hpage). exact (f_equal fst Hp).
Defined.

