(* ===== verification/OutboxWorker.v ===== *)
(** * The outbox dispatcher

    [riffdb-outbox/src/policy.rs], [worker.rs], [connector.rs], [error.rs],
    [failpoint.rs]: the delivery policy and one pass of the dispatcher over a
    page of pending events: claim, renewal of an expired lease, delivery, and
    the durable outcome.

    The repository, the connector, the clock and the failpoints are traits; a
    pass is a program that calls them ([Interaction.v]).  Telemetry records
    nothing that the pass reads back and is left out. *)

From S2P Require Import Prelude Value Key StorageBase OutboxStatus Interaction.
From Stdlib Require Import Strings.String.
From stdpp Require Import gmap list.

Local Open Scope string_scope.
Local Open Scope list_scope.
Local Open Scope Z_scope.

(** ** Policy *)
Abbreviation MAX_OUTBOX_DELIVERY_ATTEMPTS := 32.
Abbreviation MAX_OUTBOX_DELIVERY_TIMEOUT_SECONDS := 3600.
Abbreviation MAX_OUTBOX_POLICY_DELAY_SECONDS := 86400.

Inductive OutboxClockError := ClockUnavailable | InvalidValue.

Inductive DeliveryPolicyError :=
  | PolicyLimitExceeded
  | RetryScheduleMismatch
  | LeaseShorterThanTimeout.

Record DeliveryPolicy := mkDeliveryPolicy {
  destination_id : list byte;
  delivery_timeout_seconds : Z;
  lease_seconds : Z;
  max_attempts : Z;
  retry_delays_seconds : list Z;
  scan_limit : Z;
}.

Definition delivery_policy_new (destination_id : list byte)
    (delivery_timeout_seconds lease_seconds max_attempts : Z) (retry_delays_seconds : list Z)
    (scan_limit : Z) : result DeliveryPolicyError DeliveryPolicy :=
  if (MAX_OUTBOX_DELIVERY_TIMEOUT_SECONDS <? delivery_timeout_seconds)
     || (MAX_OUTBOX_POLICY_DELAY_SECONDS <? lease_seconds)
     || (MAX_OUTBOX_DELIVERY_ATTEMPTS <? max_attempts)
     || existsb (fun delay => MAX_OUTBOX_POLICY_DELAY_SECONDS <? delay) retry_delays_seconds
  then Err PolicyLimitExceeded
  else if negb (zlen retry_delays_seconds =? max_attempts - 1) then Err RetryScheduleMismatch
  else if lease_seconds <? delivery_timeout_seconds then Err LeaseShorterThanTimeout
  else Ok (mkDeliveryPolicy destination_id delivery_timeout_seconds lease_seconds max_attempts
             retry_delays_seconds scan_limit).

Definition permits_attempt_after (p : DeliveryPolicy) (attempts : Z) : bool :=
  attempts <? max_attempts p.

Definition add_seconds (timestamp : Timestamp) (seconds : Z) : result OutboxClockError Timestamp :=
  seconds ← ok_or (i_checked 64 (ts_seconds timestamp + seconds)) InvalidValue;
  map_err (fun _ => InvalidValue) (timestamp_new seconds (ts_nanoseconds timestamp)).

Definition retry_at (p : DeliveryPolicy) (from : Timestamp) (failed_attempt : Z) :
    result OutboxClockError (option Timestamp) :=
  if negb (permits_attempt_after p failed_attempt) then Ok None
  else
    delay ← ok_or (retry_delays_seconds p !! Z.to_nat (failed_attempt - 1)) InvalidValue;
    Some <$> add_seconds from delay.

Definition lease_deadline (p : DeliveryPolicy) (started_at : Timestamp) :
    result OutboxClockError Timestamp :=
  add_seconds started_at (lease_seconds p).

(** ** Errors and failpoints *)
Inductive OutboxTransitionPhase := P_Claim | P_Renew | P_Succeed | P_Retry | P_DeadLetter | P_Recovery.

Inductive OutboxFailpoint :=
  | RecoveryAfterScanBeforeNormalize
  | RecoveryAfterNormalize
  | RecoveryBeforeReady
  | DeliveryAfterClaimBeforeConnector
  | DeliveryAfterConnectorAcceptedBeforeSuccess
  | DeliveryAfterConnectorRetryableBeforeRetry
  | DeliveryAfterConnectorRejectedBeforeDeadLetter.

Inductive OutboxWorkerError :=
  | E_Storage (error : StorageErrorKind)
  | InvalidWorkerValue (error : StorageValueError)
  | E_Clock (error : OutboxClockError)
  | E_StateChanged (phase : OutboxTransitionPhase)
  | E_AuthoritativeIntentMissing
  | Interrupted (failpoint : OutboxFailpoint).

(** ** The traits the worker calls *)
Record DeliveryAttempt := mkDeliveryAttempt {
  da_event : StoredDurableEventV1;
  da_attempt : Z;
  da_destination_id : list byte;
  da_timeout_seconds : Z;
}.

Inductive ConnectorDisposition :=
  | Accepted
  | Retryable (safe_error : option (list byte))
  | PermanentFailure (safe_error : option (list byte)).

Inductive OutboxCall :=
  | Now
  | ScanPending (after : option EventId) (limit : Z)
  | ScanUndelivered (request : UndeliveredOutboxStatusScanRequestV1)
  | SupportsClaimGroups
  | SupportsSucceedGroups
  | ReadyToDeliver (event : StoredDurableEventV1)
  | AdmissibleRun (events : list StoredDurableEventV1)
  | Transition (phase : OutboxTransitionPhase) (t : OutboxTransition)
  | ClaimGroup (claims : list OutboxTransition)
  | SucceedGroup (transitions : list OutboxTransition)
  | Deliver (attempt : DeliveryAttempt)
  | ShouldInterrupt (failpoint : OutboxFailpoint) (event_id : option EventId)
  | AdmitPage.

Definition outbox_answer (q : OutboxCall) : Type :=
  match q with
  | Now => result OutboxClockError Timestamp
  | ScanPending _ _ => Storage PendingOutboxScanV1
  | ScanUndelivered _ => Storage UndeliveredOutboxStatusScanV1
  | SupportsClaimGroups | SupportsSucceedGroups | ReadyToDeliver _ | ShouldInterrupt _ _ | AdmitPage => bool
  | AdmissibleRun _ => nat
  | Transition _ _ => Storage OutboxTransitionResultV1
  | ClaimGroup _ | SucceedGroup _ => Storage OutboxGroupResultV1
  | Deliver _ => ConnectorDisposition
  end.

#[export] Instance outbox_calls : Calls OutboxCall := {
  answer := outbox_answer;
  event := {q : OutboxCall & outbox_answer q};
  record_call q x := existT q x;
}.

(** ** Worker steps

    A step over the local state [S] of a worker: it calls, and returns early with
    [?]. *)
Definition Worker (S A : Type) : Type := S -> Prog OutboxCall (S * result OutboxWorkerError A).

#[export] Instance Worker_ret S : MRet (Worker S) := fun A a w => Ret (w, Ok a).
#[export] Instance Worker_bind S : MBind (Worker S) := fun A B k m w =>
  m w ≫= fun x => match x with (w', Ok a) => k a w' | (w', Err e) => Ret (w', Err e) end.

Section calls.
Context {S : Type}.
Definition ask (q : OutboxCall) : Worker S (outbox_answer q) := fun w =>
  Call q (fun x => Ret (w, Ok x)).
Definition of_result {A} (r : result OutboxWorkerError A) : Worker S A := fun w => Ret (w, r).
Definition fail {A} (e : OutboxWorkerError) : Worker S A := of_result (Err e).
Definition checked {A} (r : result StorageValueError A) : Worker S A :=
  of_result (map_err InvalidWorkerValue r).
Definition clocked {A} (r : result OutboxClockError A) : Worker S A := of_result (map_err E_Clock r).
Definition modify (f : S -> result OutboxWorkerError S) : Worker S unit := fun w =>
  Ret (match f w with Ok w' => (w', Ok tt) | Err e => (w, Err e) end).

(** [let outcome = m;] without [?]: the error is a value. *)
Definition attempt {A} (m : Worker S A) : Worker S (result OutboxWorkerError A) := fun w =>
  m w ≫= fun x => Ret (x.1, Ok x.2).

Definition now : Worker S Timestamp := r ← ask Now; clocked r.
End calls.

(** ** The state of a pass *)
Record OutboxDispatchReport := mkDispatchReport {
  r_scanned : Z;
  r_deferred : Z;
  r_claims : Z;
  r_delivered : Z;
  r_retries_scheduled : Z;
  r_dead_lettered : Z;
  r_state_changes : Z;
  r_next_after : option EventId;
}.

Inductive Counter :=
  | C_scanned | C_deferred | C_claims | C_delivered | C_retries_scheduled | C_dead_lettered
  | C_state_changes.

Definition checked_count (n : Z) : result OutboxWorkerError Z :=
  ok_or (u_checked 16 (n + 1)) (InvalidWorkerValue SV_SizeOverflow).

(** [OutboxDispatchReport::increment(&mut report.<field>)] *)
Definition report_increment (c : Counter) (r : OutboxDispatchReport) :
    result OutboxWorkerError OutboxDispatchReport :=
  let '(mkDispatchReport a b d e f g h n) := r in
  match c with
  | C_scanned => a ← checked_count a; Ok (mkDispatchReport a b d e f g h n)
  | C_deferred => b ← checked_count b; Ok (mkDispatchReport a b d e f g h n)
  | C_claims => d ← checked_count d; Ok (mkDispatchReport a b d e f g h n)
  | C_delivered => e ← checked_count e; Ok (mkDispatchReport a b d e f g h n)
  | C_retries_scheduled => f ← checked_count f; Ok (mkDispatchReport a b d e f g h n)
  | C_dead_lettered => g ← checked_count g; Ok (mkDispatchReport a b d e f g h n)
  | C_state_changes => h ← checked_count h; Ok (mkDispatchReport a b d e f g h n)
  end.

(** The report and the unflushed successes are local to a pass, the scan
    position belongs to the dispatcher. *)
Record Pass := mkPass {
  w_report : OutboxDispatchReport;
  w_successes : list OutboxTransition;
  w_scan_after : option EventId;
}.

Abbreviation W := (Worker Pass).

Section steps.
Context `{StatusCodec} (policy : DeliveryPolicy).

Definition increment (c : Counter) : W unit :=
  modify (fun w => r ← report_increment c (w_report w); Ok (mkPass r (w_successes w) (w_scan_after w))).
Definition get_successes : W (list OutboxTransition) := fun w => Ret (w, Ok (w_successes w)).
Definition put_successes (l : list OutboxTransition) : W unit :=
  modify (fun w => Ok (mkPass (w_report w) l (w_scan_after w))).
Definition put_scan_after (a : option EventId) : W unit :=
  modify (fun w => Ok (mkPass (w_report w) (w_successes w) a)).

Definition delivering_attempt (delivering : StoredOutboxStatusV1) : W Z :=
  match st_state delivering with
  | Delivering attempt _ _ _ => mret attempt
  | _ => fail (InvalidWorkerValue SV_InvalidShape)
  end.

Definition timestamp_le (a b : Timestamp) : bool :=
  match timestamp_cmp a b with Gt => false | _ => true end.

Definition is_eligible (status : OutboxStatusObservationV1) (now : Timestamp) : bool :=
  match status with
  | AbsentInitialPending => true
  | Present status =>
      match st_state status with
      | DS_Pending metadata =>
          match rm_next_attempt_at metadata with
          | None => true
          | Some retry_at => timestamp_le retry_at now
          end
      | _ => false
      end
  end.

Definition stop_at (failpoint : OutboxFailpoint) (event_id : EventId) : W unit :=
  stop ← ask (ShouldInterrupt failpoint (Some event_id));
  if (stop : bool) then fail (Interrupted failpoint) else mret tt.

Definition completion_state_changed (phase : OutboxTransitionPhase) : W unit :=
  _ ← increment C_state_changes;
  fail (E_StateChanged phase).

(** The loop over the results of a success group. *)
Fixpoint record_successes (state_changed : bool)
    (l : list (OutboxTransition * OutboxTransitionResultV1)) : W bool :=
  match l with
  | [] => mret state_changed
  | (transition, r) :: rest =>
      match r with
      | Applied _ =>
          _ ← increment C_delivered;
          _ ← match tr_expected transition with
              | Present expected => delivering_attempt expected
              | AbsentInitialPending => fail (InvalidWorkerValue SV_InvalidShape)
              end;
          record_successes state_changed rest
      | StateChanged _ =>
          _ ← increment C_state_changes;
          record_successes true rest
      | AuthoritativeIntentMissing => fail E_AuthoritativeIntentMissing
      end
  end.

Definition flush_successes : W unit :=
  successes ← get_successes;
  if bool_decide (successes = []) then mret tt
  else
    _ ← put_successes [];
    group ← checked (succeed_group_new successes);
    answer ← ask (SucceedGroup group);
    match answer with
    | Err e => fail (E_Storage e)
    | Ok GroupAuthoritativeIntentMissing => fail E_AuthoritativeIntentMissing
    | Ok (GroupComplete results) =>
        if negb (is_ok (group_completion_new group results)) then fail (E_Storage InvariantViolation)
        else
          state_changed ← record_successes false (zip group results);
          if (state_changed : bool) then fail (E_StateChanged P_Succeed) else mret tt
    end.

Definition complete_success (delivering : StoredOutboxStatusV1) : W unit :=
  delivered_at ← now;
  transition ← checked (succeed_new delivering delivered_at);
  groups ← ask SupportsSucceedGroups;
  if (groups : bool) then
    successes ← get_successes;
    _ ← put_successes (successes ++ [transition]);
    if zlen (successes ++ [transition]) =? MAX_OUTBOX_SUCCESS_GROUP_ENTRIES
    then flush_successes else mret tt
  else
    answer ← ask (Transition P_Succeed transition);
    match answer with
    | Ok (Applied _) => increment C_delivered
    | Ok (StateChanged _) => completion_state_changed P_Succeed
    | Ok AuthoritativeIntentMissing => fail E_AuthoritativeIntentMissing
    | Err e => fail (E_Storage e)
    end.

Definition complete_dead_letter (delivering : StoredOutboxStatusV1)
    (safe_error : option (list byte)) : W unit :=
  failed_at ← now;
  transition ← checked (dead_letter_new (st_event_id delivering) (Present delivering) None failed_at
                          safe_error);
  answer ← ask (Transition P_DeadLetter transition);
  match answer with
  | Ok (Applied _) => increment C_dead_lettered
  | Ok (StateChanged _) => completion_state_changed P_DeadLetter
  | Ok AuthoritativeIntentMissing => fail E_AuthoritativeIntentMissing
  | Err e => fail (E_Storage e)
  end.

Definition complete_retry (delivering : StoredOutboxStatusV1) (attempt : Z)
    (safe_error : option (list byte)) : W unit :=
  from ← now;
  next_attempt_at ← clocked (retry_at policy from attempt);
  match next_attempt_at with
  | None => complete_dead_letter delivering safe_error
  | Some _ =>
      transition ← checked (retry_new delivering next_attempt_at safe_error);
      answer ← ask (Transition P_Retry transition);
      match answer with
      | Ok (Applied _) => increment C_retries_scheduled
      | Ok (StateChanged _) => completion_state_changed P_Retry
      | Ok AuthoritativeIntentMissing => fail E_AuthoritativeIntentMissing
      | Err e => fail (E_Storage e)
      end
  end.

Definition ATTEMPT_LIMIT_SAFE_ERROR : list byte :=
  list_byte_of_string "delivery attempt limit exhausted".

Definition dead_letter_pending (item : PendingOutboxItemV1) (failed_at : Timestamp) : W unit :=
  safe_error ← checked (safe_error_new ATTEMPT_LIMIT_SAFE_ERROR);
  let initial_destination :=
    match pi_status item with
    | AbsentInitialPending => Some (destination_id policy)
    | Present _ => None
    end in
  transition ← checked (dead_letter_new (pi_event_id item) (pi_status item) initial_destination failed_at
                          (Some safe_error));
  answer ← ask (Transition P_DeadLetter transition);
  match answer with
  | Ok (Applied _) => increment C_dead_lettered
  | Ok (StateChanged _) => increment C_state_changes
  | Ok AuthoritativeIntentMissing => fail E_AuthoritativeIntentMissing
  | Err e => fail (E_Storage e)
  end.

Definition renew_if_expired (delivering : StoredOutboxStatusV1) : W StoredOutboxStatusV1 :=
  match st_state delivering with
  | Delivering _ _ _ deadline =>
      t ← now;
      if timestamp_le t deadline then mret delivering
      else
        deadline ← clocked (lease_deadline policy t);
        renewal ← checked (renew_new delivering deadline);
        answer ← ask (Transition P_Renew renewal);
        match answer with
        | Ok (Applied renewed) => mret renewed
        | Ok (StateChanged _) =>
            _ ← flush_successes;
            _ ← increment C_state_changes;
            fail (E_StateChanged P_Renew)
        | Ok AuthoritativeIntentMissing => fail E_AuthoritativeIntentMissing
        | Err e => fail (E_Storage e)
        end
  | _ => fail (InvalidWorkerValue SV_InvalidShape)
  end.

Definition deliver_claimed (item : PendingOutboxItemV1) (delivering : StoredOutboxStatusV1) : W unit :=
  let event_id := pi_event_id item in
  attempt ← delivering_attempt delivering;
  _ ← increment C_claims;
  _ ← stop_at DeliveryAfterClaimBeforeConnector event_id;
  delivering ← renew_if_expired delivering;
  disposition ← ask (Deliver (mkDeliveryAttempt (pi_event item) attempt (destination_id policy)
                                (delivery_timeout_seconds policy)));
  match disposition with
  | Accepted =>
      _ ← stop_at DeliveryAfterConnectorAcceptedBeforeSuccess event_id;
      complete_success delivering
  | Retryable safe_error =>
      _ ← flush_successes;
      _ ← stop_at DeliveryAfterConnectorRetryableBeforeRetry event_id;
      complete_retry delivering attempt safe_error
  | PermanentFailure safe_error =>
      _ ← flush_successes;
      _ ← stop_at DeliveryAfterConnectorRejectedBeforeDeadLetter event_id;
      complete_dead_letter delivering safe_error
  end.

Definition dispatch_item (item : PendingOutboxItemV1) : W unit :=
  started_at ← now;
  if negb (is_eligible (pi_status item) started_at) then
    _ ← flush_successes; increment C_deferred
  else
    ready ← ask (ReadyToDeliver (pi_event item));
    if negb ready then
      _ ← flush_successes; increment C_deferred
    else if negb (permits_attempt_after policy (attempts (pi_status item))) then
      _ ← flush_successes; dead_letter_pending item started_at
    else
      deadline ← clocked (lease_deadline policy started_at);
      claim ← checked (claim_new (pi_event_id item) (pi_status item) (destination_id policy) started_at
                         deadline);
      answer ← ask (Transition P_Claim claim);
      match answer with
      | Ok (Applied status) => deliver_claimed item status
      | Ok (StateChanged _) => _ ← flush_successes; increment C_state_changes
      | Ok AuthoritativeIntentMissing => fail E_AuthoritativeIntentMissing
      | Err e => fail (E_Storage e)
      end.

(** [take_while] *)
Fixpoint take_while {A} (p : A -> bool) (l : list A) : list A :=
  match l with
  | [] => []
  | x :: rest => if p x then x :: take_while p rest else []
  end.

Definition claimable_run (items : list PendingOutboxItemV1) : W nat :=
  groups ← ask SupportsClaimGroups;
  if negb groups then mret 0%nat
  else
    t ← now;
    let candidates :=
      take_while (fun item => is_eligible (pi_status item) t
                              && permits_attempt_after policy (attempts (pi_status item)))
        (take (Z.to_nat MAX_OUTBOX_CLAIM_GROUP_ENTRIES) items) in
    if bool_decide (candidates = []) then mret 0%nat
    else
      run ← ask (AdmissibleRun (map pi_event candidates));
      mret (Nat.min run (length candidates)).

Fixpoint build_claims (run : list PendingOutboxItemV1) (started_at deadline : Timestamp) :
    result StorageValueError (list OutboxTransition) :=
  match run with
  | [] => Ok []
  | item :: rest =>
      claim ← claim_new (pi_event_id item) (pi_status item) (destination_id policy) started_at deadline;
      claims ← build_claims rest started_at deadline;
      Ok (claim :: claims)
  end.

Fixpoint deliver_run (l : list (PendingOutboxItemV1 * OutboxTransitionResultV1)) : W unit :=
  match l with
  | [] => mret tt
  | (item, r) :: rest =>
      _ ← match r with
          | Applied delivering => deliver_claimed item delivering
          | StateChanged _ => _ ← flush_successes; increment C_state_changes
          | AuthoritativeIntentMissing => fail E_AuthoritativeIntentMissing
          end;
      deliver_run rest
  end.

Definition dispatch_run (run : list PendingOutboxItemV1) : W unit :=
  started_at ← now;
  deadline ← clocked (lease_deadline policy started_at);
  claims ← checked (build_claims run started_at deadline);
  group ← checked (claim_group_new claims);
  answer ← ask (ClaimGroup group);
  match answer with
  | Err e => fail (E_Storage e)
  | Ok GroupAuthoritativeIntentMissing => fail E_AuthoritativeIntentMissing
  | Ok (GroupComplete results) =>
      if negb (is_ok (group_completion_new group results)) then fail (E_Storage InvariantViolation)
      else deliver_run (zip run results)
  end.

Fixpoint increments (n : nat) (c : Counter) : W unit :=
  match n with O => mret tt | S n' => _ ← increment c; increments n' c end.

Definition flushes_before_stop (e : OutboxWorkerError) : bool :=
  match e with
  | E_Clock _ | InvalidWorkerValue _ | E_StateChanged _ => true
  | _ => false
  end.

(** The [while] loop over the page; [items] is what remains.  An index out of
    range panics, and so does running out of fuel. *)
Fixpoint dispatch_items (fuel : nat) (items : list PendingOutboxItemV1) : W unit :=
  match items with
  | [] => mret tt
  | first :: _ =>
      match fuel with
      | O => fun _ => Panic
      | S fuel =>
          run ← attempt (claimable_run items);
          outcome ←
            match run with
            | Err error => mret (Err error)
            | Ok O =>
                _ ← increment C_scanned;
                r ← attempt (dispatch_item first);
                mret (r ≫= fun _ => Ok 1%nat)
            | Ok run =>
                _ ← increments run C_scanned;
                r ← attempt (dispatch_run (take run items));
                mret (r ≫= fun _ => Ok run)
            end;
          match outcome with
          | Ok consumed =>
              match items !! (consumed - 1)%nat with
              | Some last => _ ← put_scan_after (Some (pi_event_id last));
                             dispatch_items fuel (drop consumed items)
              | None => fun _ => Panic
              end
          | Err error =>
              _ ← if flushes_before_stop error then flush_successes else mret tt;
              fail error
          end
      end
  end.

(** [dispatch_once], from the dispatcher's scan position to the next one. *)
Definition dispatch_once (scan_after : option EventId) :
    Prog OutboxCall (option EventId * result OutboxWorkerError OutboxDispatchReport) :=
  scan ← call (ScanPending scan_after (scan_limit policy));
  match scan with
  | Err e => Ret (scan_after, Err (E_Storage e))
  | Ok scan =>
      let '(items, next_after) :=
        match scan with
        | PendingPage items next_after => (items, Some next_after)
        | PendingExactEnd items => (items, None)
        end in
      let items := map fst items in
      x ← (_ ← dispatch_items (length items) items;
           _ ← flush_successes;
           put_scan_after next_after)
          (mkPass (mkDispatchReport 0 0 0 0 0 0 0 next_after) [] scan_after);
      Ret (w_scan_after x.1, _ ← x.2; Ok (w_report x.1))
  end.
End steps.
