(* ===== verification/OutboxRecovery.v ===== *)
(** * Recovery of interrupted deliveries

    [riffdb-outbox/src/recovery.rs] and [status.rs]: the normalization of
    interrupted deliveries that precedes dispatching, and the summary of
    undelivered events for administration. *)

From S2P Require Import Prelude Value Key StorageBase OutboxStatus Interaction OutboxWorker.
From Stdlib Require Import Strings.String.
From stdpp Require Import gmap list.

Local Open Scope string_scope.
Local Open Scope list_scope.
Local Open Scope Z_scope.

Abbreviation MAX_OUTBOX_RECOVERY_FINDINGS := 256.

Definition INTERRUPTED_SAFE_ERROR : list byte :=
  list_byte_of_string "delivery interrupted before durable completion".

Inductive OutboxRecoveryFindingCode :=
  | F_StateChanged | F_AuthoritativeIntentMissing | F_StorageFailure | F_Interrupted.

Record OutboxRecoveryFinding := mkRecoveryFinding {
  rf_event_id : option EventId;
  rf_code : OutboxRecoveryFindingCode;
}.

Record OutboxRecoveryReport := mkRecoveryReport {
  rr_scanned : Z;
  rr_normalized : Z;
  rr_findings : list OutboxRecoveryFinding;
  rr_findings_truncated : bool;
}.

Definition empty_recovery_report : OutboxRecoveryReport := mkRecoveryReport 0 0 [] false.

Abbreviation R := (Worker OutboxRecoveryReport).

Definition count64 (n : Z) : result OutboxWorkerError Z :=
  ok_or (u_checked 64 (n + 1)) (InvalidWorkerValue SV_SizeOverflow).

Definition observe_scan : R unit := modify (fun r =>
  n ← count64 (rr_scanned r);
  Ok (mkRecoveryReport n (rr_normalized r) (rr_findings r) (rr_findings_truncated r))).

Definition observe_normalized : R unit := modify (fun r =>
  n ← count64 (rr_normalized r);
  Ok (mkRecoveryReport (rr_scanned r) n (rr_findings r) (rr_findings_truncated r))).

Definition observe_finding (f : OutboxRecoveryFinding) : R unit := modify (fun r =>
  Ok (if zlen (rr_findings r) <? MAX_OUTBOX_RECOVERY_FINDINGS
      then mkRecoveryReport (rr_scanned r) (rr_normalized r) (rr_findings r ++ [f])
             (rr_findings_truncated r)
      else mkRecoveryReport (rr_scanned r) (rr_normalized r) (rr_findings r) true)).

(** [report.observe_finding(..); return degraded(self, report, error)] *)
Definition degraded {A} (event_id : option EventId) (code : OutboxRecoveryFindingCode)
    (error : OutboxWorkerError) : R A :=
  _ ← observe_finding (mkRecoveryFinding event_id code);
  fail error.

Definition delivering_status (status : UndeliveredOutboxStatusV1) : option StoredOutboxStatusV1 :=
  match ud_status status with
  | Present stored =>
      match st_state stored with Delivering _ _ _ _ => Some stored | _ => None end
  | AbsentInitialPending => None
  end.

Definition interrupt (failpoint : OutboxFailpoint) (event_id : option EventId) : R unit :=
  stop ← ask (ShouldInterrupt failpoint event_id);
  if (stop : bool) then degraded event_id F_Interrupted (Interrupted failpoint) else mret tt.

Section recovery.
Context (policy : DeliveryPolicy).

Definition recover_item (item : UndeliveredOutboxStatusV1) : R unit :=
  _ ← observe_scan;
  match delivering_status item with
  | None => mret tt
  | Some delivering =>
      let event_id := st_event_id delivering in
      _ ← interrupt RecoveryAfterScanBeforeNormalize (Some event_id);
      match st_state delivering with
      | Delivering attempt _ _ _ =>
          from ← now;
          next_attempt_at ← clocked (retry_at policy from attempt);
          safe_error ← checked (safe_error_new INTERRUPTED_SAFE_ERROR);
          retry ← checked (retry_new delivering next_attempt_at (Some safe_error));
          answer ← ask (Transition P_Recovery retry);
          _ ← match answer with
              | Ok (Applied _) => observe_normalized
              | Ok (StateChanged _) =>
                  degraded (Some event_id) F_StateChanged (E_StateChanged P_Recovery)
              | Ok AuthoritativeIntentMissing =>
                  degraded (Some event_id) F_AuthoritativeIntentMissing E_AuthoritativeIntentMissing
              | Err e => degraded (Some event_id) F_StorageFailure (E_Storage e)
              end;
          interrupt RecoveryAfterNormalize (Some event_id)
      | _ => fail (E_StateChanged P_Recovery)
      end
  end.

Fixpoint recover_items (items : list UndeliveredOutboxStatusV1) : R unit :=
  match items with
  | [] => mret tt
  | item :: rest => _ ← recover_item item; recover_items rest
  end.

(** The [loop] over the pages; running out of fuel panics. *)
Fixpoint recover_pages (fuel : nat) (request : UndeliveredOutboxStatusScanRequestV1) : R unit :=
  match fuel with
  | O => fun _ => Panic
  | S fuel =>
      admitted ← ask AdmitPage;
      if negb admitted then fail (E_Storage Unavailable_)
      else
        scan ← ask (ScanUndelivered request);
        match scan with
        | Err e => degraded None F_StorageFailure (E_Storage e)
        | Ok scan =>
            _ ← recover_items (map fst (scan_items scan));
            match scan_continuation scan with
            | Some (after, upper) => recover_pages fuel (ScanContinue after upper (scan_limit policy))
            | None => mret tt
            end
        end
  end.

(** [recover_with_page_admission]: [Ok] is [Ready], an error is [Degraded]. *)
Definition recover_with_page_admission (fuel : nat) :
    Prog OutboxCall (OutboxRecoveryReport * result OutboxWorkerError unit) :=
  (_ ← recover_pages fuel (ScanInitial None (scan_limit policy));
   interrupt RecoveryBeforeReady None) empty_recovery_report.
End recovery.

(** ** The status page *)
Inductive OutboxStatusState := SS_Pending | SS_RetryScheduled | SS_Delivering | SS_DeadLetter.

Record OutboxStatusSummary := mkStatusSummary {
  ss_event_id : EventId;
  ss_state : OutboxStatusState;
  ss_attempts : Z;
  ss_next_attempt_at : option Timestamp;
}.

(** [None] is the [unreachable!] of a delivered status. *)
Definition summary_from_status (status : UndeliveredOutboxStatusV1) : option OutboxStatusSummary :=
  let e := ud_event_id status in
  match ud_status status with
  | AbsentInitialPending => Some (mkStatusSummary e SS_Pending 0 None)
  | Present stored =>
      match st_state stored with
      | DS_Pending metadata =>
          Some (mkStatusSummary e
                  (match rm_next_attempt_at metadata with Some _ => SS_RetryScheduled | None => SS_Pending end)
                  (rm_attempts metadata) (rm_next_attempt_at metadata))
      | Delivering attempt _ _ _ => Some (mkStatusSummary e SS_Delivering attempt None)
      | DeadLetter attempts _ _ _ => Some (mkStatusSummary e SS_DeadLetter attempts None)
      | Delivered _ _ _ => None
      end
  end.

Definition status_page_from_scan (scan : UndeliveredOutboxStatusScanV1) :
    option (list OutboxStatusSummary * option EventId) :=
  items ← mapM summary_from_status (map fst (scan_items scan));
  Some (items, match scan_continuation scan with Some (after, _) => Some after | None => None end).
