(* ===== verification/OutboxSafety.v ===== *)
(** * What the outbox worker guarantees

    The world of the worker is the map of statuses under compare-and-transition
    ([cas]), the log of connector calls with their dispositions, and the claims
    that were granted and not yet used.  Passes of the dispatcher and recoveries
    follow one another, each cut anywhere by a crash.  In every world they reach,
    a connector call belongs to a durable claim of its own, and a terminal status
    is one that the connector or the attempt limit justifies. *)

From S2P Require Import Prelude Value Key StorageBase OutboxStatus OutboxStore OutboxStoreSpec.
From S2P Require Import Interaction OutboxWorker OutboxRecovery.
From stdpp Require Import gmap list.

Local Open Scope Z_scope.

#[export] Instance ConnectorDisposition_eq_dec : EqDecision ConnectorDisposition.
Proof. solve_decision. Defined.

(** ** Worlds *)
Abbreviation attempt_key := (EventId * Z)%type.

Record World := mkWorld {
  g_rows : Statuses;
  g_tokens : gset attempt_key;
  g_log : list (attempt_key * ConnectorDisposition);
}.

Definition keys (l : list (attempt_key * ConnectorDisposition)) : list attempt_key := map fst l.

(** The attempts that the answer to a claim grants. *)
Definition grants (t : OutboxTransition) (r : OutboxTransitionResultV1) : gset attempt_key :=
  match r with
  | Applied s => {[(tr_event_id t, state_attempts (st_state s))]}
  | _ => ∅
  end.

Definition granted (l : list OutboxTransition) (rs : list OutboxTransitionResultV1) : gset attempt_key :=
  ⋃ (map (fun p => grants p.1 p.2) (zip l rs)).

(** What the environment may do while it answers a call.  The set of events with
    authoritative intents is arbitrary at each call: commands and pruning change
    it meanwhile. *)
Definition next (q : OutboxCall) : outbox_answer q -> World -> World -> Prop :=
  match q with
  | Transition phase t => fun r g g' => exists S,
      answered (g_rows g) r (cas S (g_rows g) t) (g_rows g') /\ g_log g' = g_log g /\
      g_tokens g' = match phase, r with
                    | P_Claim, Ok r => grants t r ∪ g_tokens g
                    | _, _ => g_tokens g
                    end
  | ClaimGroup l => fun r g g' => exists S,
      answered (g_rows g) r (cas_group S (g_rows g) l) (g_rows g') /\ g_log g' = g_log g /\
      g_tokens g' = match r with
                    | Ok (GroupComplete rs) => granted l rs ∪ g_tokens g
                    | _ => g_tokens g
                    end
  | SucceedGroup l => fun r g g' => exists S,
      answered (g_rows g) r (cas_group S (g_rows g) l) (g_rows g') /\ g_log g' = g_log g /\
      g_tokens g' = g_tokens g
  | Deliver a => fun d g g' =>
      let k := (de_event_id (da_event a), da_attempt a) in
      g' = mkWorld (g_rows g) (g_tokens g ∖ {[k]}) (g_log g ++ [(k, d)])
  | _ => fun _ g g' => g' = g
  end.

Section policy.
Context (policy : DeliveryPolicy).

(** ** What the worker owes at each call *)
Definition claim_pre (t : OutboxTransition) : Prop :=
  exists e o d x y, claim_new e o d x y = Ok t /\ attempts o < max_attempts policy.

Definition succeed_pre (log : list (attempt_key * ConnectorDisposition)) (t : OutboxTransition) : Prop :=
  exists s x, succeed_new s x = Ok t /\ ((st_event_id s, state_attempts (st_state s)), Accepted) ∈ log.

Definition dead_letter_pre (log : list (attempt_key * ConnectorDisposition)) (t : OutboxTransition) : Prop :=
  exists e o i x m, dead_letter_new e o i x m = Ok t /\
    (max_attempts policy <= attempts o \/ exists m', ((e, attempts o), PermanentFailure m') ∈ log).

Definition transition_pre (log : list (attempt_key * ConnectorDisposition))
    (phase : OutboxTransitionPhase) (t : OutboxTransition) : Prop :=
  match phase with
  | P_Claim => claim_pre t
  | P_Renew => exists s x, renew_new s x = Ok t
  | P_Succeed => succeed_pre log t
  | P_Retry | P_Recovery => exists s n m, retry_new s n m = Ok t
  | P_DeadLetter => dead_letter_pre log t
  end.

Definition pre (g : World) (q : OutboxCall) : Prop :=
  match q with
  | Transition phase t => transition_pre (g_log g) phase t
  | ClaimGroup l => Forall claim_pre l
  | SucceedGroup l => Forall (succeed_pre (g_log g)) l
  | Deliver a => (de_event_id (da_event a), da_attempt a) ∈ g_tokens g
  | _ => True
  end.

(** ** The invariant *)
Record inv (g : World) : Prop := {
  i_log k d : (k, d) ∈ g_log g -> 1 <= k.2 <= max_attempts policy /\ k.2 <= attempts (observe (g_rows g) k.1);
  i_once : NoDup (keys (g_log g));
  i_tokens k : k ∈ g_tokens g ->
    1 <= k.2 <= max_attempts policy /\ k.2 <= attempts (observe (g_rows g) k.1) /\ k ∉ keys (g_log g);
  i_rows e s : g_rows g !! e = Some s -> st_event_id s = e;
  i_delivered e s a d x : g_rows g !! e = Some s -> st_state s = Delivered a d x ->
    ((e, a), Accepted) ∈ g_log g;
  i_dead e s n d x m : g_rows g !! e = Some s -> st_state s = DeadLetter n d x m ->
    max_attempts policy <= n \/ exists m', ((e, n), PermanentFailure m') ∈ g_log g;
}.

Definition is_terminal (o : OutboxStatusObservationV1) : bool :=
  match o with
  | Present s => match st_state s with Delivered _ _ _ | DeadLetter _ _ _ _ => true | _ => false end
  | AbsentInitialPending => false
  end.

(** The shape of the transitions that the worker asks for. *)
Record legal (log : list (attempt_key * ConnectorDisposition)) (t : OutboxTransition) : Prop := {
  l_live : is_terminal (tr_expected t) = false;
  l_attempts : state_attempts (st_state (tr_updated t)) = attempts (tr_expected t) \/
    (is_pending (tr_expected t) = true /\
     exists d x y, st_state (tr_updated t) = Delivering (attempts (tr_expected t) + 1) d x y /\
       1 <= attempts (tr_expected t) + 1 <= max_attempts policy);
  l_delivered a d x : st_state (tr_updated t) = Delivered a d x -> ((tr_event_id t, a), Accepted) ∈ log;
  l_dead n d x m : st_state (tr_updated t) = DeadLetter n d x m ->
    max_attempts policy <= n \/ exists m', ((tr_event_id t, n), PermanentFailure m') ∈ log;
}.

Lemma claim_new_shape e o d x y t : claim_new e o d x y = Ok t ->
  t = mkTransition o (mkOutboxStatus e (Delivering (attempts o + 1) d x y)) /\
  is_pending o = true /\ 1 <= attempts o + 1.
Proof.
  unfold claim_new. destruct (validate_event_id o e); [cbn|done].
  destruct (is_pending o); cbn; [|done].
  destruct (u_checked 32 (attempts o + 1)) as [n|] eqn:En; cbn; [|done].
  apply u_checked_Some in En as [-> [? _]]. unfold nonzero_id_new.
  destruct (Z.eqb_spec (attempts o + 1) 0); cbn; [done|]. intros [= <-]. split_and!; [done..|lia].
Qed.

Lemma claim_legal log t : claim_pre t -> legal log t.
Proof.
  intros (e & o & d & x & y & Ht & Ha). apply claim_new_shape in Ht as (-> & Hp & Hn). split; cbn; try done.
  - destruct o as [|[? []]]; done.
  - right. split; [done|]. exists d, x, y. split; [done|lia].
Qed.

Lemma renew_legal log s x t : renew_new s x = Ok t -> legal log t.
Proof.
  unfold renew_new. destruct s as [e []]; try done. intros [= <-]. split; cbn; try done. by left.
Qed.

Lemma succeed_legal log t : succeed_pre log t -> legal log t.
Proof.
  intros (s & x & Ht & Hl). unfold succeed_new in Ht. destruct s as [e []]; try done. injection Ht as <-.
  split; cbn; try done; [by left|]. by intros ? ? ? [= <- _ _].
Qed.

Lemma retry_legal log s n m t : retry_new s n m = Ok t -> legal log t.
Proof.
  unfold retry_new. destruct s as [e []]; try done. intros [= <-]. split; cbn; try done. by left.
Qed.

Lemma dead_letter_legal log t : dead_letter_pre log t -> legal log t.
Proof.
  intros (e & o & i & x & m & Ht & Hl). unfold dead_letter_new in Ht.
  destruct (validate_event_id o e); [cbn in Ht|done]. case_match; [done|].
  apply result_bind_ok in Ht as (dest & Hd & [= <-]).
  split; cbn; try done.
  - destruct o as [|[? []]]; done.
  - by left.
  - by intros ? ? ? ? [= <- _ _ _].
Qed.

Lemma transition_legal log phase t : transition_pre log phase t -> legal log t.
Proof.
  destruct phase; cbn.
  - apply claim_legal.
  - intros (s & x & ?). by eapply renew_legal.
  - apply succeed_legal.
  - intros (s & n & m & ?). by eapply retry_legal.
  - apply dead_letter_legal.
  - intros (s & n & m & ?). by eapply retry_legal.
Qed.

(** ** The invariant is preserved *)
Lemma attempts_put m t log x : legal log t -> observe m (tr_event_id t) = tr_expected t ->
  attempts (observe m x) <= attempts (observe (<[tr_event_id t := tr_updated t]> m) x).
Proof.
  intros Hl Ho. rewrite observe_insert. case_bool_decide as Hx; [subst x|lia].
  rewrite Ho. cbn. destruct (l_attempts _ _ Hl) as [->|(_ & ? & ? & ? & -> & _)]; cbn; lia.
Qed.

Lemma put_inv g t : inv g -> legal (g_log g) t -> observe (g_rows g) (tr_event_id t) = tr_expected t ->
  inv (mkWorld (<[tr_event_id t := tr_updated t]> (g_rows g)) (g_tokens g) (g_log g)).
Proof.
  intros Hg Hl Ho. pose proof (fun x => attempts_put _ _ _ x Hl Ho) as Hup.
  split; cbn.
  - intros k d Hk. destruct (i_log _ Hg k d Hk). specialize (Hup k.1). lia.
  - apply Hg.
  - intros k Hk. destruct (i_tokens _ Hg k Hk) as (? & ? & ?). specialize (Hup k.1). split_and!; [lia..|done].
  - intros e s [[<- <-]|[_ Hs]]%lookup_insert_Some; [done|by apply (i_rows _ Hg)].
  - intros e s a d x [[<- <-]|[_ Hs]]%lookup_insert_Some; [by apply (l_delivered _ _ Hl)|by apply (i_delivered _ Hg)].
  - intros e s n d x m [[<- <-]|[_ Hs]]%lookup_insert_Some; [by apply (l_dead _ _ Hl)|by apply (i_dead _ Hg)].
Qed.

Lemma cas_inv S g t : inv g -> legal (g_log g) t ->
  inv (mkWorld (cas S (g_rows g) t).1 (g_tokens g) (g_log g)).
Proof.
  intros Hg Hl. unfold cas. destruct g as [m tok log]. do 2 (case_bool_decide; [|done]). cbn in *.
  by apply (put_inv (mkWorld m tok log)).
Qed.

(** A claim that applies grants an attempt that was never made. *)
Lemma cas_claim_inv S g t : inv g -> claim_pre t ->
  let '(m, r) := cas S (g_rows g) t in inv (mkWorld m (grants t r ∪ g_tokens g) (g_log g)).
Proof.
  intros Hg Ht. pose proof (claim_legal (g_log g) t Ht) as Hl. unfold cas.
  assert (inv (mkWorld (g_rows g) (∅ ∪ g_tokens g) (g_log g))) as Hsame
    by (rewrite (left_id_L ∅ (∪)); by destruct g).
  case_bool_decide; [|done]. case_bool_decide as Ho; [|done].
  pose proof (put_inv g t Hg Hl Ho) as Hput. destruct Ht as (e & o & d & x & y & Ht & Ha).
  apply claim_new_shape in Ht as (-> & Hp & Hn). cbn in *.
  split; cbn; try apply Hput. intros k [->%elem_of_singleton|Hk]%elem_of_union; [|by apply (i_tokens _ Hput)].
  cbn. rewrite observe_insert, bool_decide_true by done. cbn. split_and!; [lia..|].
  intros (([e' a] & dd) & Hk & Hin)%list_elem_of_fmap. cbn in Hk. injection Hk as <- <-.
  destruct (i_log _ Hg _ _ Hin) as [_ Hle]. cbn in Hle. rewrite Ho in Hle. lia.
Qed.

Lemma cas_all_inv S g l : inv g -> Forall (legal (g_log g)) l ->
  inv (mkWorld (cas_all S (g_rows g) l).1 (g_tokens g) (g_log g)).
Proof.
  intros Hg Hl. revert g Hg Hl. induction l as [|t l IH]; intros g Hg Hl; cbn; [by destruct g|].
  inversion Hl as [|? ? Ht Hl']; subst. pose proof (cas_inv S g t Hg Ht) as H1.
  destruct (cas S (g_rows g) t) as [m1 r]. specialize (IH _ H1 Hl'). cbn in IH.
  by destruct (cas_all S m1 l).
Qed.

Lemma cas_all_claim_inv S g l : inv g -> Forall claim_pre l ->
  let '(m, rs) := cas_all S (g_rows g) l in inv (mkWorld m (granted l rs ∪ g_tokens g) (g_log g)).
Proof.
  intros Hg Hl. revert g Hg Hl. induction l as [|t l IH]; intros g Hg Hl; cbn.
  { unfold granted. cbn. rewrite (left_id_L ∅ (∪)). by destruct g. }
  inversion Hl as [|? ? Ht Hl']; subst. pose proof (cas_claim_inv S g t Hg Ht) as H1.
  destruct (cas S (g_rows g) t) as [m1 r]. specialize (IH _ H1 Hl'). cbn in IH.
  destruct (cas_all S m1 l) as [m2 rs]. unfold granted in *. cbn.
  by rewrite (comm_L (∪) (grants t r)), <- (assoc_L (∪)).
Qed.

Lemma drop_tokens g T : inv g -> T ⊆ g_tokens g -> inv (mkWorld (g_rows g) T (g_log g)).
Proof. intros Hg HT. split; cbn; try apply Hg. intros k Hk. apply (i_tokens _ Hg). set_solver. Qed.

Lemma answered_inv {A} g (r : Storage A) spec m T : inv g -> inv (mkWorld spec.1 (g_tokens g) (g_log g)) ->
  (forall a, r = Ok a -> inv (mkWorld spec.1 T (g_log g))) -> (forall e, r = Err e -> T = g_tokens g) ->
  answered (g_rows g) r spec m -> inv (mkWorld m T (g_log g)).
Proof.
  intros Hg Hs Ho He. destruct r as [a|e]; cbn.
  - intros Hm. apply (f_equal fst) in Hm. cbn in Hm. subst m. by eapply Ho.
  - rewrite (He e eq_refl). intros [->| ->]; [by destruct g|done].
Qed.

Lemma deliver_inv g k d : inv g -> k ∈ g_tokens g ->
  inv (mkWorld (g_rows g) (g_tokens g ∖ {[k]}) (g_log g ++ [(k, d)])).
Proof.
  intros Hg Hk. destruct (i_tokens _ Hg k Hk) as (Hb & Ha & Hn).
  assert (keys (g_log g ++ [(k, d)]) = keys (g_log g) ++ [k]) as Hkeys by apply map_app.
  split; cbn [g_rows g_log g_tokens]; rewrite ?Hkeys.
  - intros k' d' [Hin|Hin]%elem_of_app; [by eapply (i_log _ Hg)|]. assert (k' = k) as -> by set_solver. auto.
  - apply NoDup_app. split_and!; [apply Hg| |apply NoDup_singleton]. set_solver.
  - intros k' [Hin Hne]%elem_of_difference. destruct (i_tokens _ Hg k' Hin) as (? & ? & ?). set_solver.
  - apply Hg.
  - intros e s a dd x Hs He. apply elem_of_app. left. by eapply (i_delivered _ Hg).
  - intros e s n dd x m Hs He. destruct (i_dead _ Hg _ _ _ _ _ _ Hs He) as [?|[m' ?]]; [by left|].
    right. exists m'. apply elem_of_app. by left.
Qed.

Lemma next_inv q x g g' : pre g q -> next q x g g' -> inv g -> inv g'.
Proof.
  destruct q as [| | | | | | |phase t|l|l|a| |]; cbn; intros Hq Hn Hg; try (by subst).
  - destruct Hn as (S & Ha & Hlog & Htok). apply transition_legal in Hq as Hl.
    destruct g' as [m T log]. cbn in *. subst log.
    eapply (answered_inv g x); [done|by apply cas_inv| | |exact Ha].
    + intros r ->. cbn in Ha. destruct phase; subst T; try by apply cas_inv.
      pose proof (cas_claim_inv S g t Hg Hq) as Hc. by rewrite <- Ha in Hc |- *.
    + intros e ->. subst T. by destruct phase.
  - destruct Hn as (S & Ha & Hlog & Htok). destruct g' as [m T log]. cbn in *. subst log.
    assert (Forall (legal (g_log g)) l) as Hl by (eapply Forall_impl; [exact Hq|]; intros; by apply claim_legal).
    pose proof (cas_all_inv S g l Hg Hl) as H1. pose proof (cas_all_claim_inv S g l Hg Hq) as H2.
    unfold cas_group in Ha. case_bool_decide.
    + destruct (cas_all S (g_rows g) l) as [m2 rs]. eapply (answered_inv g x (m2, GroupComplete rs)); [done|exact H1| | |exact Ha].
      * intros r ->. cbn in Ha. injection Ha as -> ->. by subst T.
      * intros e ->. done.
    + eapply (answered_inv g x (g_rows g, GroupAuthoritativeIntentMissing)); [done|by destruct g| | |exact Ha].
      * intros r ->. cbn in Ha. injection Ha as -> ->. subst T. by destruct g.
      * intros e ->. done.
  - destruct Hn as (S & Ha & Hlog & Htok). destruct g' as [m T log]. cbn in *. subst log T.
    assert (Forall (legal (g_log g)) l) as Hl by (eapply Forall_impl; [exact Hq|]; intros; by apply succeed_legal).
    pose proof (cas_all_inv S g l Hg Hl) as H1. unfold cas_group in Ha. case_bool_decide.
    + destruct (cas_all S (g_rows g) l) as [m2 rs]. by eapply (answered_inv g x (m2, GroupComplete rs)); [done|exact H1|..].
    + eapply (answered_inv g x (g_rows g, GroupAuthoritativeIntentMissing)); [done|by destruct g| |done|exact Ha].
      intros. by destruct g.
  - subst g'. by apply deliver_inv.
Qed.

(** ** Worker steps keep their obligations

    A step leaves in [w_successes] only transitions that are owed, lets the log
    grow, uses no token but those of [used], and never panics. *)
Definition grows (used : attempt_key -> Prop) (g g' : World) : Prop :=
  g_log g `prefix_of` g_log g' /\ forall k, k ∈ g_tokens g -> ~ used k -> k ∈ g_tokens g'.

Definition nothing : attempt_key -> Prop := fun _ => False.

Definition owes (w : Pass) (g : World) : Prop := Forall (succeed_pre (g_log g)) (w_successes w).

Definition keeps (used : attempt_key -> Prop) {A} (m : W A) (post : A -> World -> Prop)
    (w : Pass) (g : World) : Prop :=
  safe pre next (m w) (fun o g' =>
    match o with
    | Returned (w', r) => owes w' g' /\ grows used g g' /\ forall a, r = Ok a -> post a g'
    | Panicked => False
    end) g.

Lemma grows_refl u g : grows u g g.
Proof. by split. Qed.

Lemma grows_trans u u' g1 g2 g3 : (forall k, u k -> u' k) -> grows u g1 g2 -> grows u' g2 g3 -> grows u' g1 g3.
Proof. intros Hu [Hp Ht] [Hp' Ht']. split; [by etrans|]. intros k Hk Hn. apply Ht'; [apply Ht|]; auto. Qed.

Lemma grows_log u g g' x : grows u g g' -> x ∈ g_log g -> x ∈ g_log g'.
Proof. intros [[l ->] _] Hx. apply elem_of_app. by left. Qed.

Lemma succeed_pre_grows u g g' t : grows u g g' -> succeed_pre (g_log g) t -> succeed_pre (g_log g') t.
Proof. intros Hg (s & x & Ht & Hl). exists s, x. split; [done|]. by eapply grows_log. Qed.

Lemma owes_grows u w g g' : grows u g g' -> owes w g -> owes w g'.
Proof. intros Hg Hw. eapply Forall_impl; [exact Hw|]. intros t. by eapply succeed_pre_grows. Qed.

Lemma keeps_ret u {A} (a : A) (post : A -> World -> Prop) w g : owes w g -> post a g -> keeps u (mret a) post w g.
Proof. intros Hw Hp. cbn. split_and!; [done|apply grows_refl|by intros ? [= <-]]. Qed.

Lemma keeps_fail u {A} e (post : A -> World -> Prop) w g : owes w g -> keeps u (fail e) post w g.
Proof. intros Hw. cbn. split_and!; [done|apply grows_refl|done]. Qed.

Lemma keeps_result u {A} (r : result OutboxWorkerError A) (post : A -> World -> Prop) w g :
  owes w g -> (forall a, r = Ok a -> post a g) -> keeps u (of_result r) post w g.
Proof. intros Hw Hp. cbn. split_and!; [done|apply grows_refl|done]. Qed.

Lemma keeps_modify u f (post : unit -> World -> Prop) w g :
  owes w g -> (forall w', f w = Ok w' -> owes w' g) -> post tt g -> keeps u (modify f) post w g.
Proof.
  intros Hw Hf Hp. unfold keeps, modify. cbn. destruct (f w) as [w'|e]; cbn;
    (split_and!; [auto|apply grows_refl|by intros []]).
Qed.

Lemma keeps_bind u u' {A B} (m : W A) (k : A -> W B) (mid : A -> World -> Prop) post w g :
  (forall x, u x -> u' x) -> keeps u m mid w g ->
  (forall a w' g', owes w' g' -> grows u g g' -> mid a g' -> keeps u' (k a) post w' g') ->
  keeps u' (m ≫= k) post w g.
Proof.
  intros Hu Hm Hk. unfold keeps. cbn. apply safe_bind. eapply safe_mono; [exact Hm|].
  intros [[w' [a|e]]|] g'; [intros (Hw & Hg & Hp)..|done].
  - specialize (Hk a w' g' Hw Hg (Hp a eq_refl)). eapply safe_mono; [exact Hk|].
    intros [[w2 r]|] g2; [|done]. intros (? & ? & ?). split_and!; [done|by eapply grows_trans|done].
  - cbn. split_and!; [done| |done]. eapply grows_trans; [exact Hu|exact Hg|apply grows_refl].
Qed.

Lemma keeps_attempt u {A} (m : W A) (post : A -> World -> Prop) w g : keeps u m post w g ->
  keeps u (attempt m) (fun r g' => forall a, r = Ok a -> post a g') w g.
Proof.
  intros Hm. unfold keeps, attempt. apply safe_bind. eapply safe_mono; [exact Hm|].
  intros [[w' r]|] g'; [|done]. cbn. intros (? & ? & ?). split_and!; [done..|]. by intros ? [= <-].
Qed.

Lemma keeps_mono u {A} (m : W A) (post post' : A -> World -> Prop) w g : keeps u m post w g ->
  (forall a g', post a g' -> post' a g') -> keeps u m post' w g.
Proof. intros Hm Hp. eapply safe_mono; [exact Hm|]. intros [[w' r]|] g'; [|done]. naive_solver. Qed.

Lemma keeps_used u u' {A} (m : W A) (post : A -> World -> Prop) w g : (forall x, u x -> u' x) ->
  keeps u m post w g -> keeps u' m post w g.
Proof.
  intros Hu Hm. eapply safe_mono; [exact Hm|]. intros [[w' r]|] g'; [|done].
  intros (? & Hg & ?). split_and!; [done| |done]. eapply grows_trans; [exact Hu|exact Hg|apply grows_refl].
Qed.

Definition used_by (q : OutboxCall) : attempt_key -> Prop :=
  match q with
  | Deliver a => fun k => k = (de_event_id (da_event a), da_attempt a)
  | _ => nothing
  end.

Lemma next_grows q x g g' : next q x g g' -> grows (used_by q) g g'.
Proof.
  destruct q as [| | | | | | |phase t|l|l|a| |]; cbn; try (by intros ->; apply grows_refl).
  - intros (S & _ & Hl & Ht). split; [by rewrite Hl|]. intros k Hk _. rewrite Ht. destruct phase, x; set_solver.
  - intros (S & _ & Hl & Ht). split; [by rewrite Hl|]. intros k Hk _. rewrite Ht. destruct x as [[]|]; set_solver.
  - intros (S & _ & Hl & Ht). split; [by rewrite Hl|]. intros k Hk _. by rewrite Ht.
  - intros ->. cbn. split; [by apply prefix_app_r|]. set_solver.
Qed.

Lemma keeps_ask q (post : outbox_answer q -> World -> Prop) w g : owes w g -> pre g q ->
  (forall x g', next q x g g' -> post x g') -> keeps (used_by q) (ask q) post w g.
Proof.
  intros Hw Hq Hp. cbn. split; [done|]. intros x g' Hn. apply next_grows in Hn as Hg.
  split_and!; [by eapply owes_grows|done|]. intros ? [= <-]. auto.
Qed.

(** ** The steps of a pass *)
Definition any {A} : A -> World -> Prop := fun _ _ => True.

Lemma keeps_any u {A} (m : W A) (post : A -> World -> Prop) w g : keeps u m post w g -> keeps u m any w g.
Proof. intros Hm. by eapply keeps_mono. Qed.

(** Sequencing after a step that uses no token. *)
Lemma keeps_then u {A B} (m : W A) (k : A -> W B) (mid : A -> World -> Prop) post w g :
  keeps nothing m mid w g ->
  (forall a w' g', owes w' g' -> grows nothing g g' -> mid a g' -> keeps u (k a) post w' g') ->
  keeps u (m ≫= k) post w g.
Proof. apply keeps_bind. by intros ? []. Qed.

Lemma keeps_increment u c w g : owes w g -> keeps u (increment c) any w g.
Proof.
  intros Hw. apply keeps_modify; [done| |done]. intros w' Hi.
  apply result_bind_ok in Hi as (r & _ & [= <-]). done.
Qed.

Lemma keeps_now u w g : owes w g -> keeps u now any w g.
Proof.
  intros Hw. eapply (keeps_then u (ask Now)); [apply (keeps_ask Now any); by try done|].
  intros r w' g' Hw' _ _. by apply keeps_result.
Qed.

Lemma keeps_stop_at u f e w g : owes w g -> keeps u (stop_at f e) any w g.
Proof.
  intros Hw. eapply (keeps_then u (ask (ShouldInterrupt f (Some e))));
    [apply (keeps_ask (ShouldInterrupt f (Some e)) any); by try done|].
  intros [] w' g' Hw' _ _; [by apply keeps_fail|by apply keeps_ret].
Qed.

Lemma keeps_state_changed u phase w g : owes w g -> keeps u (completion_state_changed phase) any w g.
Proof. intros Hw. eapply keeps_then; [by apply keeps_increment|]. intros. by apply keeps_fail. Qed.

Lemma keeps_delivering_attempt u s w g : owes w g ->
  keeps u (delivering_attempt s) (fun a _ => exists d x y, st_state s = Delivering a d x y) w g.
Proof.
  intros Hw. unfold delivering_attempt. destruct (st_state s) eqn:E; try by apply keeps_fail.
  apply keeps_ret; [done|]. by eexists _, _, _.
Qed.

Lemma keeps_record u l b w g : owes w g -> keeps u (record_successes b l) any w g.
Proof.
  revert b w g. induction l as [|[t r] l IH]; intros b w g Hw; cbn [record_successes]; [by apply keeps_ret|].
  destruct r; [| |by apply keeps_fail].
  - eapply keeps_then; [by apply keeps_increment|]. intros _ w1 g1 Hw1 _ _.
    eapply (keeps_then u _ _ any); [|by intros; apply IH].
    destruct (tr_expected t); [by apply keeps_fail|]. by eapply keeps_any, keeps_delivering_attempt.
  - eapply keeps_then; [by apply keeps_increment|]. intros. by apply IH.
Qed.

(** The answer to a transition, in the usual four cases. *)
Lemma keeps_transition u {B} phase t (k : outbox_answer (Transition phase t) -> W B) post w g :
  owes w g -> transition_pre (g_log g) phase t ->
  (forall s w' g', owes w' g' -> grows nothing g g' ->
     s = tr_updated t -> (phase = P_Claim -> (tr_event_id t, state_attempts (st_state s)) ∈ g_tokens g') ->
     keeps u (k (Ok (Applied s))) post w' g') ->
  (forall r w' g', owes w' g' -> grows nothing g g' ->
     match r with Ok (Applied _) => False | _ => True end -> keeps u (k r) post w' g') ->
  keeps u (ask (Transition phase t) ≫= k) post w g.
Proof.
  intros Hw Hpre Happ Hrest.
  eapply (keeps_then u (ask (Transition phase t)) k (fun r g' =>
    match r with
    | Ok (Applied s) => s = tr_updated t /\
        (phase = P_Claim -> (tr_event_id t, state_attempts (st_state s)) ∈ g_tokens g')
    | _ => True
    end)).
  - apply (keeps_ask (Transition phase t)); [done..|]. intros r g' (S & Ha & _ & Htok).
    destruct r as [[s| |]|]; try done. cbn in Ha. unfold cas in Ha.
    destruct (bool_decide (tr_event_id t ∈ S)); [|done].
    destruct (bool_decide (observe (g_rows g) (tr_event_id t) = tr_expected t)); [|done].
    injection Ha as _ ->. split; [done|]. intros ->. rewrite Htok. cbn. set_solver.
  - intros [[s| |]|] w' g' Hw' Hg Hs; [destruct Hs as [-> Htok]; by apply Happ|by apply Hrest..].
Qed.

(** The cases of an answer that only count or fail. *)
Ltac closing :=
  intros; repeat match goal with
  | r : outbox_answer _ |- _ => destruct r as [[]|]
  | r : Storage _ |- _ => destruct r as [[]|]
  end; try done; first
  [ by apply keeps_increment | by apply keeps_state_changed | by apply keeps_fail | by apply keeps_ret ].

Context `{StatusCodec}.

Lemma succeed_group_same l l' : succeed_group_new l = Ok l' -> l' = l.
Proof.
  unfold succeed_group_new. intros (? & _ & (n & _ & Hk)%result_bind_ok)%result_bind_ok. case_match; [done|].
  by injection Hk.
Qed.

Lemma claim_group_same l l' : claim_group_new l = Ok l' -> l' = l /\ distinct l.
Proof.
  unfold claim_group_new. intros ([] & Hc & (n & _ & Hk)%result_bind_ok)%result_bind_ok. case_match; [done|].
  injection Hk as ->. split; [done|]. by eapply check_group_distinct.
Qed.

Lemma keeps_checked u {A} (r : result StorageValueError A) (post : A -> World -> Prop) w g :
  owes w g -> (forall a, r = Ok a -> post a g) -> keeps u (checked r) post w g.
Proof. intros Hw Hr. apply keeps_result; [done|]. intros a Ha. destruct r; [|done]. injection Ha as <-. auto. Qed.

Lemma keeps_clocked u {A} (r : result OutboxClockError A) (post : A -> World -> Prop) w g :
  owes w g -> (forall a, r = Ok a -> post a g) -> keeps u (clocked r) post w g.
Proof. intros Hw Hr. apply keeps_result; [done|]. intros a Ha. destruct r; [|done]. injection Ha as <-. auto. Qed.

Lemma keeps_flush u w g : owes w g -> keeps u flush_successes any w g.
Proof.
  intros Hw. unfold flush_successes.
  eapply (keeps_then u get_successes _ (fun l g' => l = w_successes w /\ g' = g)).
  { cbn. split_and!; [done|apply grows_refl|by intros ? [= <-]]. }
  intros l w1 g1 Hw1 _ [-> ->]. case_bool_decide; [by apply keeps_ret|].
  eapply (keeps_then u _ _ (fun _ g' => g' = g)); [apply keeps_modify; [done| |done]; intros ? [= <-]; constructor|].
  intros _ w2 g2 Hw2 _ ->.
  eapply (keeps_then u _ _ (fun l g' => l = w_successes w /\ g' = g)).
  { apply keeps_checked; [done|]. intros l' ->%succeed_group_same. done. }
  intros l w3 g3 Hw3 _ [-> ->].
  eapply (keeps_then u (ask (SucceedGroup (w_successes w)))); [apply (keeps_ask (SucceedGroup _) any); by try done|].
  intros [[rs|]|] w4 g4 Hw4 _ _; [|by apply keeps_fail..].
  case_match; [by apply keeps_fail|].
  eapply keeps_then; [by apply keeps_record|]. intros [] w5 g5 Hw5 _ _; [by apply keeps_fail|by apply keeps_ret].
Qed.

Lemma keeps_complete_success u s w g : owes w g ->
  ((st_event_id s, state_attempts (st_state s)), Accepted) ∈ g_log g ->
  keeps u (complete_success s) any w g.
Proof.
  intros Hw Hlog. unfold complete_success.
  eapply keeps_then; [by apply keeps_now|]. intros x w1 g1 Hw1 Hg1 _.
  eapply (keeps_then u _ _ (fun t g' => succeed_pre (g_log g') t)).
  { apply keeps_checked; [done|]. intros t Ht. exists s, x. split; [done|]. by eapply grows_log. }
  intros t w2 g2 Hw2 _ Ht.
  eapply (keeps_then u (ask SupportsSucceedGroups) _ (fun _ g' => g' = g2));
    [by apply (keeps_ask SupportsSucceedGroups)|].
  intros [] w3 g3 Hw3 _ ->.
  - eapply (keeps_then u get_successes _ (fun l g' => Forall (succeed_pre (g_log g')) l /\ g' = g2)).
    { cbn. split_and!; [done|apply grows_refl|by intros ? [= <-]]. }
    intros l w4 g4 Hw4 _ [Hl ->].
    eapply keeps_then; [apply (keeps_modify nothing _ any); [done| |done]; intros ? [= <-]; by apply Forall_app_2; [|constructor]|].
    intros _ w5 g5 Hw5 _ _. case_match; [by apply keeps_flush|by apply keeps_ret].
  - apply keeps_transition; [done..| |]; closing.
Qed.

Lemma keeps_complete_dead_letter u s m w g : owes w g ->
  max_attempts policy <= state_attempts (st_state s) \/
    (exists m', ((st_event_id s, state_attempts (st_state s)), PermanentFailure m') ∈ g_log g) ->
  keeps u (complete_dead_letter s m) any w g.
Proof.
  intros Hw Hj. unfold complete_dead_letter.
  eapply keeps_then; [by apply keeps_now|]. intros x w1 g1 Hw1 Hg1 _.
  eapply (keeps_then u _ _ (fun t g' => dead_letter_pre (g_log g') t)).
  { apply keeps_checked; [done|]. intros t Ht. eexists _, _, _, _, _. split; [exact Ht|]. cbn.
    destruct Hj as [?|[m' Hm]]; [by left|right]. exists m'. by eapply grows_log. }
  intros t w2 g2 Hw2 _ Ht. apply keeps_transition; [done..| |]; closing.
Qed.

Lemma keeps_complete_retry u s a m w g : owes w g -> state_attempts (st_state s) = a ->
  keeps u (complete_retry policy s a m) any w g.
Proof.
  intros Hw Ha. unfold complete_retry.
  eapply keeps_then; [by apply keeps_now|]. intros x w1 g1 Hw1 Hg1 _.
  eapply (keeps_then u _ _ (fun r _ => r = None -> max_attempts policy <= a)).
  { apply keeps_clocked; [done|]. intros r Hr ->. unfold retry_at, permits_attempt_after in Hr.
    destruct (Z.ltb_spec a (max_attempts policy)); [|done]. cbn in Hr.
    apply result_bind_ok in Hr as (delay & _ & Hr). by destruct (add_seconds x delay). }
  intros [at_|] w2 g2 Hw2 _ Hr; [|apply keeps_complete_dead_letter; [done|left; rewrite Ha; auto]].
  eapply (keeps_then u _ _ (fun t _ => exists s n m, retry_new s n m = Ok t)).
  { apply keeps_checked; [done|]. intros t Ht. by eexists _, _, _. }
  intros t w3 g3 Hw3 _ Ht. apply keeps_transition; [done..| |]; closing.
Qed.

Lemma keeps_dead_letter_pending u item x w g : owes w g ->
  max_attempts policy <= attempts (pi_status item) -> keeps u (dead_letter_pending policy item x) any w g.
Proof.
  intros Hw Ha. unfold dead_letter_pending.
  eapply keeps_then; [by apply (keeps_checked nothing _ any)|]. intros m w1 g1 Hw1 _ _.
  eapply (keeps_then u _ _ (fun t g' => dead_letter_pre (g_log g') t)).
  { apply keeps_checked; [done|]. intros t Ht. eexists _, _, _, _, _. split; [exact Ht|]. by left. }
  intros t w2 g2 Hw2 _ Ht. apply keeps_transition; [done..| |]; closing.
Qed.

(** A delivering status of an event at an attempt. *)
Definition delivering (e : EventId) (a : Z) (s : StoredOutboxStatusV1) : Prop :=
  st_event_id s = e /\ exists d x y, st_state s = Delivering a d x y.

Lemma keeps_renew u e a s w g : owes w g -> delivering e a s ->
  keeps u (renew_if_expired policy s) (fun s' _ => delivering e a s') w g.
Proof.
  intros Hw (He & d & x & y & Hs). unfold renew_if_expired. rewrite Hs.
  eapply keeps_then; [by apply keeps_now|]. intros t w1 g1 Hw1 _ _.
  destruct (timestamp_le t y); [apply keeps_ret; [done|]; split; [done|by eexists _, _, _]|].
  eapply keeps_then; [by apply (keeps_clocked nothing _ any)|]. intros y' w2 g2 Hw2 _ _.
  eapply (keeps_then u _ _ (fun r _ => renew_new s y' = Ok r)); [by apply keeps_checked|].
  intros r w3 g3 Hw3 _ Hr. apply keeps_transition; [done|by eexists _, _| |].
  - intros s' w4 g4 Hw4 _ -> _. apply keeps_ret; [done|]. unfold renew_new in Hr. rewrite Hs in Hr.
    injection Hr as <-. split; [done|by eexists _, _, _].
  - intros [[]|] w4 g4 Hw4 _ Hc; try done; try by apply keeps_fail.
    eapply keeps_then; [by apply keeps_flush|]. intros. eapply keeps_then; [by apply keeps_increment|].
    intros. by apply keeps_fail.
Qed.

Lemma keeps_deliver_claimed item a s w g : owes w g -> delivering (pi_event_id item) a s ->
  (pi_event_id item, a) ∈ g_tokens g ->
  keeps (fun k => k = (pi_event_id item, a)) (deliver_claimed policy item s) any w g.
Proof.
  intros Hw Hs Htok. unfold deliver_claimed. set (used := fun k => k = (pi_event_id item, a)).
  eapply (keeps_then used _ _ (fun a' g' => a' = a)).
  { eapply keeps_mono; [by apply keeps_delivering_attempt|]. intros a' _ (? & ? & ? & E).
    destruct Hs as (_ & ? & ? & ? & E'). congruence. }
  intros ? w1 g1 Hw1 Hg1 ->.
  eapply keeps_then; [by apply keeps_increment|]. intros _ w2 g2 Hw2 Hg2 _.
  eapply keeps_then; [by apply keeps_stop_at|]. intros _ w3 g3 Hw3 Hg3 _.
  eapply keeps_then; [by eapply keeps_renew|]. intros s' w4 g4 Hw4 Hg4 Hs'.
  assert ((pi_event_id item, a) ∈ g_tokens g4) as Htok4.
  { apply Hg4; [|by intros []]. apply Hg3; [|by intros []]. apply Hg2; [|by intros []]. by apply Hg1; [|intros []]. }
  eapply (keeps_bind used used (ask (Deliver _)) _ (fun d g' => ((pi_event_id item, a), d) ∈ g_log g')); [done| |].
  { eapply keeps_used; [|eapply (keeps_ask (Deliver _)); [done..|]]; [by intros ? ->|].
    intros d g' ->. cbn. set_solver. }
  intros d w5 g5 Hw5 _ Hd. destruct Hs' as (He & ? & ? & ? & Est).
  assert (state_attempts (st_state s') = a) as Hatt by by rewrite Est.
  destruct d as [|m|m].
  - eapply keeps_then; [by apply keeps_stop_at|]. intros _ w6 g6 Hw6 Hg6 _.
    apply keeps_complete_success; [done|]. rewrite He, Hatt. by eapply grows_log.
  - eapply keeps_then; [by apply keeps_flush|]. intros _ w6 g6 Hw6 Hg6 _.
    eapply keeps_then; [by apply keeps_stop_at|]. intros _ w7 g7 Hw7 Hg7 _. by apply keeps_complete_retry.
  - eapply keeps_then; [by apply keeps_flush|]. intros _ w6 g6 Hw6 Hg6 _.
    eapply keeps_then; [by apply keeps_stop_at|]. intros _ w7 g7 Hw7 Hg7 _.
    apply keeps_complete_dead_letter; [done|right]. exists m. rewrite He, Hatt.
    eapply grows_log; [exact Hg7|]. by eapply grows_log.
Qed.

Definition everything : attempt_key -> Prop := fun _ => True.

Lemma keeps_dispatch_item item w g : owes w g -> keeps everything (dispatch_item policy item) any w g.
Proof.
  intros Hw. unfold dispatch_item.
  eapply keeps_then; [by apply keeps_now|]. intros x w1 g1 Hw1 _ _.
  assert (forall c w g, owes w g -> keeps everything (_ ← flush_successes; increment c) any w g) as Hflush.
  { intros c w' g' Hw'. eapply keeps_then; [by apply keeps_flush|]. intros. by apply keeps_increment. }
  case_match; [by apply Hflush|].
  eapply (keeps_then everything (ask (ReadyToDeliver _)));
    [apply (keeps_ask (ReadyToDeliver _) any); by try done|]. intros [] w2 g2 Hw2 _ _; cbn [negb]; [|by apply Hflush].
  unfold permits_attempt_after. destruct (Z.ltb_spec (attempts (pi_status item)) (max_attempts policy)) as [Hlt|Hge];
    cbn [negb].
  2:{ eapply keeps_then; [by apply keeps_flush|]. intros. by apply keeps_dead_letter_pending. }
  eapply keeps_then; [by apply (keeps_clocked nothing _ any)|]. intros y w3 g3 Hw3 _ _.
  eapply (keeps_then everything _ _ (fun t _ => claim_new (pi_event_id item) (pi_status item)
    (destination_id policy) x y = Ok t)); [by apply keeps_checked|].
  intros t w4 g4 Hw4 _ Ht. apply keeps_transition; [done|by eexists _, _, _, _, _| |].
  - intros s w5 g5 Hw5 _ -> Htok. specialize (Htok eq_refl). apply claim_new_shape in Ht as (-> & _ & _). cbn in Htok.
    apply (keeps_used (fun k => k = (pi_event_id item, attempts (pi_status item) + 1))); [by intros|].
    apply keeps_deliver_claimed; [exact Hw5| |exact Htok]. split; [reflexivity|by eexists _, _, _].
  - intros [[]|] w5 g5 Hw5 _ Hc; try done; try by apply keeps_fail. by apply Hflush.
Qed.

Lemma take_while_prefix {A} (p : A -> bool) l : take_while p l `prefix_of` l /\ Forall (fun x => p x = true) (take_while p l).
Proof.
  induction l as [|x l [Hp Hf]]; cbn; [by split|]. destruct (p x) eqn:E.
  - split; [by apply prefix_cons|by constructor].
  - split; [apply prefix_nil|constructor].
Qed.

Definition permitted (item : PendingOutboxItemV1) : Prop := attempts (pi_status item) < max_attempts policy.

Lemma keeps_claimable_run items w g : owes w g ->
  keeps nothing (claimable_run policy items)
    (fun n _ => (n <= length items)%nat /\ Forall permitted (take n items)) w g.
Proof.
  intros Hw. unfold claimable_run.
  assert (forall w g, owes w g -> keeps nothing (mret 0%nat)
    (fun n _ => (n <= length items)%nat /\ Forall permitted (take n items)) w g) as Hzero.
  { intros w' g' Hw'. apply keeps_ret; [done|]. split; [lia|]. rewrite take_0. constructor. }
  eapply (keeps_then nothing (ask SupportsClaimGroups)); [apply (keeps_ask SupportsClaimGroups any); by try done|].
  intros [] w1 g1 Hw1 _ _; cbn [negb]; [|by apply Hzero].
  eapply keeps_then; [by apply keeps_now|]. intros x w2 g2 Hw2 _ _.
  set (cs := take_while _ _). case_bool_decide; [by apply Hzero|].
  eapply (keeps_then nothing (ask (AdmissibleRun _))); [apply (keeps_ask (AdmissibleRun _) any); by try done|].
  intros n w3 g3 Hw3 _ _. apply keeps_ret; [done|].
  destruct (take_while_prefix (fun item => is_eligible (pi_status item) x
    && permits_attempt_after policy (attempts (pi_status item)))
    (take (Z.to_nat MAX_OUTBOX_CLAIM_GROUP_ENTRIES) items)) as [Hpre Hall]. fold cs in Hpre, Hall.
  assert (cs `prefix_of` items) as Hpre' by (etrans; [exact Hpre|apply prefix_take]).
  split; [apply prefix_length in Hpre'; lia|].
  destruct Hpre' as [rest Hitems]. rewrite Hitems, take_app_le by lia. apply Forall_take.
  eapply Forall_impl; [exact Hall|]. intros i Hi. apply andb_true_iff in Hi as [_ Hi%Z.ltb_lt]. done.
Qed.

(** The members of a run that were granted. *)
Definition run_ok (g : World) (p : PendingOutboxItemV1 * OutboxTransitionResultV1) : Prop :=
  forall s, p.2 = Applied s -> exists a, delivering (pi_event_id p.1) a s /\ (pi_event_id p.1, a) ∈ g_tokens g.

Lemma keeps_deliver_run l w g : owes w g -> NoDup (map (fun p => pi_event_id p.1) l) -> Forall (run_ok g) l ->
  keeps everything (deliver_run policy l) any w g.
Proof.
  revert w g. induction l as [|[item r] l IH]; intros w g Hw Hnd Hl; cbn [deliver_run]; [by apply keeps_ret|].
  cbn in Hnd. apply NoDup_cons in Hnd as [Hn Hnd]. inversion Hl as [|? ? Hr Hl']; subst.
  eapply (keeps_bind (fun k => k.1 = pi_event_id item) everything _ _ any); [done| |].
  - destruct r as [s|o|]; [|eapply keeps_then; [by apply keeps_flush|]; intros; by apply keeps_increment|by apply keeps_fail].
    destruct (Hr s eq_refl) as (a & Hs & Htok).
    apply (keeps_used (fun k => k = (pi_event_id item, a))); [by intros ? ->|].
    apply keeps_deliver_claimed; [exact Hw|exact Hs|exact Htok].
  - intros _ w' g' Hw' Hg' _. apply IH; [done..|].
    rewrite Forall_forall in Hl' |- *. intros p Hp s Hs. destruct (Hl' p Hp s Hs) as (a & Hd & Htok).
    exists a. split; [done|]. apply Hg'; [done|]. cbn. intros Heq. apply Hn. rewrite <- Heq.
    apply list_elem_of_fmap. by exists p.
Qed.

Lemma build_claims_ok run x y l : build_claims policy run x y = Ok l ->
  Forall2 (fun item t => claim_new (pi_event_id item) (pi_status item) (destination_id policy) x y = Ok t) run l.
Proof.
  revert l. induction run as [|item run IH]; intros l; cbn; [by intros [= <-]|].
  intros (t & Ht & (l' & Hl & [= <-])%result_bind_ok)%result_bind_ok. constructor; [done|by apply IH].
Qed.

Lemma cas_all_results S m l : length (cas_all S m l).2 = length l /\
  Forall (fun p => forall s, p.2 = Applied s -> s = tr_updated p.1) (zip l (cas_all S m l).2).
Proof.
  revert m. induction l as [|t l IH]; intros m; cbn; [done|].
  destruct (cas S m t) as [m1 r] eqn:Ec. specialize (IH m1). destruct (cas_all S m1 l) as [m2 rs]. cbn in *.
  destruct IH as [Hlen Hall]. split; [by f_equal|]. constructor; [|done]. cbn. intros s ->.
  unfold cas in Ec. case_bool_decide; [|done]. case_bool_decide; [|done]. by injection Ec.
Qed.

Lemma keeps_dispatch_run run w g : owes w g -> Forall permitted run ->
  keeps everything (dispatch_run policy run) any w g.
Proof.
  intros Hw Hrun. unfold dispatch_run.
  eapply keeps_then; [by apply keeps_now|]. intros x w1 g1 Hw1 _ _.
  eapply keeps_then; [by apply (keeps_clocked nothing _ any)|]. intros y w2 g2 Hw2 _ _.
  eapply (keeps_then everything _ _ (fun l _ => Forall2 (fun item t =>
    claim_new (pi_event_id item) (pi_status item) (destination_id policy) x y = Ok t) run l)).
  { apply keeps_checked; [done|]. intros l. apply build_claims_ok. }
  intros l w3 g3 Hw3 _ Hl.
  eapply (keeps_then everything _ _ (fun l' _ => l' = l /\ distinct l)).
  { apply keeps_checked; [done|]. intros l'. apply claim_group_same. }
  intros l' w4 g4 Hw4 _ [-> Hd].
  eapply (keeps_then everything (ask (ClaimGroup l)) _ (fun r g' => forall rs, r = Ok (GroupComplete rs) ->
    Forall (run_ok g') (zip run rs))).
  { apply (keeps_ask (ClaimGroup l)); [done| |].
    - cbn. clear -Hl Hrun. induction Hl as [|item t run l Ht Hl IH]; [constructor|].
      inversion Hrun; subst. constructor; [by eexists _, _, _, _, _|by apply IH].
    - intros r g' (S & Ha & _ & Htok) rs ->. cbn in Ha. unfold cas_group in Ha.
      case_bool_decide; [|done]. destruct (cas_all_results S (g_rows g4) l) as [Hlen Hres].
      destruct (cas_all S (g_rows g4) l) as [m2 rs']. injection Ha as _ ->. cbn in *.
      assert (granted l rs' ⊆ g_tokens g') as Hsub by (rewrite Htok; set_solver). unfold granted in Hsub.
      clear -Hl Hres Hsub Hlen. revert rs' Hres Hsub Hlen.
      induction Hl as [|item t run l Ht Hl IH]; intros [|r rs] Hres Hsub Hlen; try done.
      cbn in *. inversion Hres as [|? ? Hr Hres']; subst. constructor; [|apply IH; [done|set_solver|lia]].
      intros s Es. cbn in Es. subst r. apply claim_new_shape in Ht as (-> & _ & _).
      rewrite (Hr s eq_refl) in *. cbn in *. exists (attempts (pi_status item) + 1). split; [split; [done|by eexists _, _, _]|]. set_solver. }
  intros [[rs|]|] w5 g5 Hw5 _ Hr; [|by apply keeps_fail..].
  case_match; [by apply keeps_fail|]. apply keeps_deliver_run; [done| |by apply Hr].
  assert (map pi_event_id run = map tr_event_id l) as Hids.
  { clear -Hl. induction Hl as [|item t run l Ht Hl IH]; [done|].
    apply claim_new_shape in Ht as (-> & _ & _). cbn. by f_equal. }
  unfold distinct in Hd. rewrite <- Hids in Hd. eapply sublist_NoDup; [exact Hd|].
  rewrite <- (map_map fst pi_event_id). apply sublist_map.
  clear. revert rs. induction run as [|i run IH]; intros [|r rs]; cbn; try constructor; [apply sublist_nil_l..|apply IH].
Qed.

Lemma keeps_increments u n c w g : owes w g -> keeps u (increments n c) any w g.
Proof.
  revert w g. induction n as [|n IH]; intros w g Hw; cbn [increments]; [by apply keeps_ret|].
  eapply keeps_then; [by apply keeps_increment|]. intros. by apply IH.
Qed.

(** With fuel for every item, the loop of a pass never runs out of it, and never
    indexes out of range. *)
Lemma keeps_dispatch_items fuel items w g : owes w g -> (length items <= fuel)%nat ->
  keeps everything (dispatch_items policy fuel items) any w g.
Proof.
  revert items w g. induction fuel as [|fuel IH]; intros items w g Hw Hlen.
  { destruct items; [by apply keeps_ret|cbn in Hlen; lia]. }
  destruct items as [|first rest]; [by apply keeps_ret|]. cbn [dispatch_items].
  set (items := first :: rest) in *.
  eapply (keeps_then everything _ _ (fun r _ => forall n, r = Ok n ->
    (n <= length items)%nat /\ Forall permitted (take n items)));
    [by apply keeps_attempt, keeps_claimable_run|].
  intros run w1 g1 Hw1 _ Hrun.
  eapply (keeps_bind everything everything _ _ (fun r _ => forall n, r = Ok n -> (0 < n <= length items)%nat)); [done| |].
  - destruct run as [[|n]|e].
    + eapply keeps_then; [by apply keeps_increment|]. intros _ w2 g2 Hw2 _ _.
      eapply (keeps_bind everything everything _ _ any); [done| |].
      { eapply keeps_any, keeps_attempt, keeps_dispatch_item. done. }
      intros r w3 g3 Hw3 _ _. apply keeps_ret; [done|]. destruct r; [|done]. cbn. intros ? [= <-]. lia.
    + destruct (Hrun _ eq_refl) as [Hn Hp].
      eapply keeps_then; [by apply keeps_increments|]. intros _ w2 g2 Hw2 _ _.
      eapply (keeps_bind everything everything _ _ any); [done| |].
      { eapply keeps_any, keeps_attempt, keeps_dispatch_run; done. }
      intros r w3 g3 Hw3 _ _. apply keeps_ret; [done|]. destruct r; [|done]. intros ? [= <-]. split; [lia|exact Hn].
    + by apply keeps_ret.
  - intros r w2 g2 Hw2 _ Hr. destruct r as [n|e].
    + specialize (Hr n eq_refl) as [Hn0 Hn]. destruct (lookup_lt_is_Some_2 items (n - 1)) as [last Hl]; [lia|].
      rewrite Hl. eapply keeps_then; [apply (keeps_modify nothing _ any); [done| |done]; by intros ? [= <-]|].
      intros _ w3 g3 Hw3 _ _. apply IH; [done|]. rewrite length_drop. lia.
    + eapply (keeps_then everything _ _ any); [|intros; by apply keeps_fail].
      destruct (flushes_before_stop e); [by apply keeps_flush|by apply keeps_ret].
Qed.

Lemma dispatch_safe after g : safe pre next (dispatch_once policy after) (fun o _ => o <> Panicked) g.
Proof.
  unfold dispatch_once. cbn. split; [done|]. intros scan g1 ->. destruct scan as [scan|e]; [|done].
  set (p := match scan with PendingPage items n => (items, Some n) | PendingExactEnd items => (items, None) end).
  destruct p as [items next_after]. apply safe_bind. eapply safe_mono.
  - eapply (keeps_bind everything everything (dispatch_items policy _ _) _ any any); [done| |].
    + apply keeps_dispatch_items; [constructor|done].
    + intros _ w g2 Hw _ _. eapply keeps_then; [by apply keeps_flush|]. intros _ w' g3 Hw' _ _.
      apply keeps_modify; [done| |done]. by intros ? [= <-].
  - intros [[w r]|] g2; [|done]. cbn. by intros _.
Qed.

Lemma safe_worker_bind {S A B} (m : Worker S A) (k : A -> Worker S B) w g :
  safe pre next (m w) (fun _ _ => True) g ->
  (forall a w' g', safe pre next (k a w') (fun _ _ => True) g') ->
  safe pre next ((m ≫= k) w) (fun _ _ => True) g.
Proof.
  intros Hm Hk. unfold mbind, Worker_bind. apply safe_bind. eapply safe_mono; [exact Hm|].
  intros [[w' [a|e]]|] g' _; [apply Hk|done..].
Qed.

Lemma recover_item_safe item w g : safe pre next (recover_item policy item w) (fun _ _ => True) g.
Proof.
  assert (forall f e w g, safe pre next (interrupt f e w) (fun _ _ => True) g) as Hint.
  { intros f e w' g'. cbn. split; [done|]. by intros [] ? ->. }
  unfold recover_item. apply safe_worker_bind; [done|]. intros _ w1 g1.
  destruct (delivering_status item) as [s|]; [|done]. apply safe_worker_bind; [apply Hint|]. intros _ w2 g2.
  destruct (st_state s); try done. apply safe_worker_bind; [cbn; split; [done|]; by intros ? ? ->|]. intros x w3 g3.
  apply safe_worker_bind; [done|]. intros n w4 g4. apply safe_worker_bind; [done|]. intros m w5 g5.
  unfold checked. destruct (retry_new s n (Some m)) as [t|] eqn:Et; [|done].
  cbn. split; [by eexists _, _, _|]. intros r g6 _. apply safe_bind.
  destruct r as [[]|]; cbn; try done.
  destruct (count64 (rr_normalized w5)); cbn; [|done]. split; [done|]. by intros [] ? ->.
Qed.

Lemma recover_safe fuel g :
  safe pre next (recover_with_page_admission policy fuel) (fun _ _ => True) g.
Proof.
  assert (forall l w g, safe pre next (recover_items policy l w) (fun _ _ => True) g) as Hitems.
  { induction l as [|i l IH]; intros w g'; cbn [recover_items]; [done|].
    apply safe_worker_bind; [apply recover_item_safe|]. intros. apply IH. }
  assert (forall request w g, safe pre next (recover_pages policy fuel request w) (fun _ _ => True) g) as Hpages.
  { induction fuel as [|n IH]; intros request w g'; [done|]. cbn [recover_pages].
    apply safe_worker_bind; [cbn; split; [done|]; by intros ? ? ->|]. intros [] w1 g1; cbn [negb]; [|done].
    apply safe_worker_bind; [cbn; split; [done|]; by intros ? ? ->|]. intros [scan|e] w2 g2; [|done].
    apply safe_worker_bind; [apply Hitems|]. intros _ w3 g3. destruct (scan_continuation scan) as [[]|]; [apply IH|done]. }
  unfold recover_with_page_admission. apply safe_worker_bind; [apply Hpages|].
  intros _ w g'. cbn. split; [done|]. by intros [] ? ->.
Qed.
End policy.
