(* ===== verification/OutboxHistory.v ===== *)
(** * Histories of the outbox worker

    Passes of the dispatcher and recoveries follow one another from an empty
    outbox, each cut anywhere by a crash or an error.  What holds in every world
    they reach is stated here, first for any repository with compare-and-transition,
    then for the worker composed with the redb store. *)

From S2P Require Import Prelude Value Key StorageBase OutboxStatus OutboxStore OutboxStoreSpec.
From S2P Require Import Interaction OutboxWorker OutboxRecovery OutboxSafety.
From stdpp Require Import gmap list.

Local Open Scope Z_scope.

Section policy.
Context `{StatusCodec} (policy : DeliveryPolicy).

(** ** Histories *)

(** A crash loses the claims that were granted and not used. *)
Definition crash (g : World) : World := mkWorld (g_rows g) ∅ (g_log g).

(** The worlds that passes and recoveries reach from [g0], each begun after a
    crash and cut anywhere. *)
Inductive later (g0 : World) : World -> Prop :=
  | later_refl : later g0 g0
  | later_dispatch g after p g' : later g0 g ->
      steps next (dispatch_once policy after) (crash g) p g' -> later g0 g'
  | later_recover g fuel p g' : later g0 g ->
      steps next (recover_with_page_admission policy fuel) (crash g) p g' -> later g0 g'.

Definition fresh : World := mkWorld ∅ ∅ [].

Lemma later_invariant (I : World -> Prop) g0 g :
  (forall q x h h', pre policy h q -> next q x h h' -> I h -> I h') -> (forall h, I h -> I (crash h)) ->
  I g0 -> later g0 g -> I g.
Proof.
  intros Hn Hc H0 Hl. induction Hl as [|g after p g' Hl IH Hs|g fuel p g' Hl IH Hs]; [done|..].
  - eapply safe_invariant; [exact Hn|apply dispatch_safe|exact Hs|by apply Hc].
  - eapply safe_invariant; [exact Hn|apply recover_safe|exact Hs|by apply Hc].
Qed.

Lemma crash_inv g : inv policy g -> inv policy (crash g).
Proof. intros Hg. apply drop_tokens; [done|set_solver]. Qed.

Lemma fresh_inv : inv policy fresh.
Proof.
  split; cbn.
  - set_solver.
  - constructor.
  - set_solver.
  - intros e s Hs. by rewrite lookup_empty in Hs.
  - intros e s a d x Hs. by rewrite lookup_empty in Hs.
  - intros e s n d x m Hs. by rewrite lookup_empty in Hs.
Qed.

Lemma later_inv g : later fresh g -> inv policy g.
Proof. apply later_invariant; [apply next_inv|apply crash_inv|apply fresh_inv]. Qed.

(** Distinct attempts between 1 and the limit are at most as many as the limit. *)
Lemma bounded_attempts (l : list Z) n : NoDup l -> (forall a, a ∈ l -> 1 <= a <= n) -> 0 <= n -> zlen l <= n.
Proof.
  intros Hnd Hb Hn. assert (l ⊆+ seqZ 1 n) as Hs.
  { apply NoDup_submseteq; [done|]. intros a Ha. apply elem_of_seqZ. specialize (Hb a Ha). lia. }
  apply submseteq_length in Hs. rewrite length_seqZ in Hs. unfold zlen. lia.
Qed.

Definition deliveries (e : EventId) (g : World) : list (attempt_key * ConnectorDisposition) :=
  filter (fun p => p.1.1 = e) (g_log g).

Lemma deliveries_bounded g e : inv policy g -> 0 <= max_attempts policy ->
  zlen (deliveries e g) <= max_attempts policy.
Proof.
  intros Hg Hm. unfold deliveries. set (l := filter _ _).
  assert (zlen l = zlen (map (fun p => p.1.2) l)) as -> by (unfold zlen; by rewrite length_map).
  apply bounded_attempts; [| |done].
  - assert (NoDup (keys l)) as Hk
      by (eapply sublist_NoDup; [apply (i_once _ _ Hg)|apply sublist_map, sublist_filter]).
    assert (forall p, p ∈ l -> p.1.1 = e) as He by (intros p [? _]%list_elem_of_filter; done).
    clearbody l. induction l as [|[[e' a] d] l IH]; cbn in *; [constructor|].
    apply NoDup_cons in Hk as [Hn Hk]. constructor; [|apply IH; [done|set_solver]].
    intros ([[e2 a2] d2] & Heq & Hin)%list_elem_of_fmap. cbn in Heq. subst a2. apply Hn.
    apply list_elem_of_fmap. exists ((e2, a), d2). split; [|done]. cbn.
    specialize (He ((e', a), d) ltac:(set_solver)) as E1. specialize (He ((e2, a), d2) ltac:(set_solver)) as E2.
    cbn in *. congruence.
  - intros a ([k d] & -> & [_ Hin]%list_elem_of_filter)%list_elem_of_fmap.
    cbn. by destruct (i_log _ _ Hg k d Hin).
Qed.

(** ** Terminal statuses *)
Lemma cas_terminal S m t log e : legal policy log t -> is_terminal (observe m e) = true ->
  observe (cas S m t).1 e = observe m e.
Proof.
  intros Hl He. unfold cas. case_bool_decide; [|done]. case_bool_decide as Ho; [|done]. cbn.
  rewrite observe_insert. case_bool_decide; [subst e|done]. rewrite Ho, (l_live _ _ _ Hl) in He. done.
Qed.

Lemma cas_all_terminal S m l log e : Forall (legal policy log) l -> is_terminal (observe m e) = true ->
  observe (cas_all S m l).1 e = observe m e.
Proof.
  intros Hl. revert m. induction Hl as [|t l Ht Hl IH]; intros m He; [done|]. cbn.
  pose proof (cas_terminal S m t log e Ht He) as H1. destruct (cas S m t) as [m1 r]. cbn in H1.
  specialize (IH m1). rewrite H1 in IH. specialize (IH He). by destruct (cas_all S m1 l).
Qed.

Lemma answered_terminal {A} (r : Storage A) m spec m' e : answered m r spec m' ->
  observe spec.1 e = observe m e -> observe m' e = observe m e.
Proof. destruct r; cbn; [by intros <-|by intros [->| ->]]. Qed.

Lemma next_terminal q x g g' e : pre policy g q -> next q x g g' -> is_terminal (observe (g_rows g) e) = true ->
  observe (g_rows g') e = observe (g_rows g) e.
Proof.
  destruct q as [| | | | | | |phase t|l|l|a| |]; cbn; intros Hq Hn He; try (by subst).
  - destruct Hn as (S & Ha & _). eapply answered_terminal; [exact Ha|].
    eapply cas_terminal; [by eapply transition_legal|done].
  - destruct Hn as (S & Ha & _). eapply answered_terminal; [exact Ha|]. unfold cas_group.
    pose proof (cas_all_terminal S (g_rows g) l (g_log g) e) as Ht. case_bool_decide; [|done].
    destruct (cas_all S (g_rows g) l). apply Ht; [|done]. eapply Forall_impl; [exact Hq|]. intros; by apply claim_legal.
  - destruct Hn as (S & Ha & _). eapply answered_terminal; [exact Ha|]. unfold cas_group.
    pose proof (cas_all_terminal S (g_rows g) l (g_log g) e) as Ht. case_bool_decide; [|done].
    destruct (cas_all S (g_rows g) l). apply Ht; [|done]. eapply Forall_impl; [exact Hq|]. intros; by apply succeed_legal.
Qed.

Lemma later_terminal g0 g e : later g0 g -> is_terminal (observe (g_rows g0) e) = true ->
  observe (g_rows g) e = observe (g_rows g0) e.
Proof.
  intros Hl He. apply (later_invariant (fun h => observe (g_rows h) e = observe (g_rows g0) e) g0 g); try done.
  intros q x h h' Hp Hn Hh. rewrite <- Hh. apply (next_terminal q x); [done..|]. by rewrite Hh.
Qed.
End policy.

(** ** The worker on the redb store

    The configuration is the store with the granted claims and the log.  Between
    two calls commands publish events and pruning removes them: an operation
    finds any well-formed store with the statuses that the last one left. *)
Record System := mkSystem {
  y_store : OutboxStore;
  y_tokens : gset attempt_key;
  y_log : list (attempt_key * ConnectorDisposition);
}.

Section redb.
Context `{StatusCodecLaws} (policy : DeliveryPolicy).

Definition world_of (c : System) : World :=
  mkWorld (view (os_statuses (y_store c))) (y_tokens c) (y_log c).

(** One call of the worker, answered by an operation of the store that holds the
    events [S], under some faults of the engine. *)
Definition redb_step (S : gset EventId) (q : OutboxCall) : outbox_answer q -> System -> System -> Prop :=
  fun x c c' => exists s, store_ok S s /\ os_statuses s = os_statuses (y_store c) /\
  match q return outbox_answer q -> Prop with
  | Transition phase t => fun r => exists f,
      transition_outbox f t s = (y_store c', r) /\ y_log c' = y_log c /\
      y_tokens c' = match phase, r with
                    | P_Claim, Ok r => grants t r ∪ y_tokens c
                    | _, _ => y_tokens c
                    end
  | ClaimGroup l => fun r => exists f,
      claim_outbox_group f l s = (y_store c', r) /\ y_log c' = y_log c /\
      y_tokens c' = match r with
                    | Ok (GroupComplete rs) => granted l rs ∪ y_tokens c
                    | _ => y_tokens c
                    end
  | SucceedGroup l => fun r => exists f,
      succeed_outbox_group f l s = (y_store c', r) /\ y_log c' = y_log c /\ y_tokens c' = y_tokens c
  | Deliver a => fun d =>
      let k := (de_event_id (da_event a), da_attempt a) in
      c' = mkSystem s (y_tokens c ∖ {[k]}) (y_log c ++ [(k, d)])
  | ScanPending after limit => fun r => exists f,
      r = scan_pending_outbox f s after limit /\ c' = mkSystem s (y_tokens c) (y_log c)
  | ScanUndelivered request => fun r => exists f,
      r = scan_undelivered_outbox_statuses f s request /\ c' = mkSystem s (y_tokens c) (y_log c)
  | SupportsClaimGroups | SupportsSucceedGroups => fun b =>
      b = true /\ c' = mkSystem s (y_tokens c) (y_log c)
  | _ => fun _ => c' = mkSystem s (y_tokens c) (y_log c)
  end x.

Definition redb_next (q : OutboxCall) (x : outbox_answer q) (c c' : System) : Prop :=
  exists S, redb_step S q x c c'.

Lemma claim_pre_claims l : Forall (claim_pre policy) l -> claims l.
Proof. intros Hl. eapply Forall_impl; [exact Hl|]. intros t (e & o & d & x & y & Ht & _). by eexists _, _, _, _, _. Qed.

Lemma succeed_pre_successes log l : Forall (succeed_pre log) l -> successes l.
Proof. intros Hl. eapply Forall_impl; [exact Hl|]. intros t (s & x & Ht & _). by eexists _, _. Qed.

(** The store is an environment that the worker was proved against. *)
Lemma redb_simulates q x c c' : pre policy (world_of c) q -> redb_next q x c c' ->
  next q x (world_of c) (world_of c').
Proof.
  intros Hq (S & s & Hs & Hrows & Hn). unfold world_of. rewrite <- Hrows.
  destruct q as [| | | | | | |phase t|l|l|a| |]; cbn in *; try (subst c'; cbn; done);
    try (destruct Hn as (? & ? & ->); cbn; done); try (destruct Hn as (? & ->); cbn; done).
  - destruct Hn as (f & Ht & Hlog & Htok). exists S. pose proof (transition_implements S s f t Hs) as Hi.
    rewrite Ht in Hi. destruct Hi as (_ & _ & Ha). by rewrite Hlog, Htok.
  - destruct Hn as (f & Ht & Hlog & Htok). exists S.
    pose proof (claim_group_implements S s f l Hs (claim_pre_claims l Hq)) as Hi.
    rewrite Ht in Hi. destruct Hi as (_ & _ & Ha). by rewrite Hlog, Htok.
  - destruct Hn as (f & Ht & Hlog & Htok). exists S.
    pose proof (succeed_group_implements S s f l Hs (succeed_pre_successes _ l Hq)) as Hi.
    rewrite Ht in Hi. destruct Hi as (_ & _ & Ha). by rewrite Hlog, Htok.
Qed.

Lemma redb_steps {A} (p p' : Prog OutboxCall A) post c c' : safe (pre policy) next p post (world_of c) ->
  steps redb_next p c p' c' -> steps next p (world_of c) p' (world_of c').
Proof.
  intros Hp Hs. induction Hs as [|q k c x c1 p' c' Hn Hs IH]; [constructor|].
  destruct Hp as [Hq Hk]. apply redb_simulates in Hn; [|done]. econstructor; [exact Hn|]. apply IH. by apply Hk.
Qed.

Lemma safe_redb {A} (p : Prog OutboxCall A) post c : safe (pre policy) next p post (world_of c) ->
  safe (fun c q => pre policy (world_of c) q) redb_next p (fun o c => post o (world_of c)) c.
Proof.
  revert c. induction p as [a| |q k IH]; cbn; intros c; [done..|]. intros [Hq Hk]. split; [done|].
  intros x c' Hn. apply IH, Hk. by apply redb_simulates.
Qed.

Definition crash_system (c : System) : System := mkSystem (y_store c) ∅ (y_log c).

Inductive redb_history : System -> Prop :=
  | redb_empty s : os_statuses s = ∅ -> redb_history (mkSystem s ∅ [])
  | redb_dispatch c after p c' : redb_history c ->
      steps redb_next (dispatch_once policy after) (crash_system c) p c' -> redb_history c'
  | redb_recover c fuel p c' : redb_history c ->
      steps redb_next (recover_with_page_admission policy fuel) (crash_system c) p c' -> redb_history c'.

Lemma redb_later c : redb_history c -> later policy fresh (world_of c).
Proof.
  induction 1 as [s Hs|c after p c' _ IH Hst|c fuel p c' _ IH Hst].
  - unfold world_of. cbn. rewrite Hs. unfold view. rewrite omap_empty. constructor.
  - eapply later_dispatch; [exact IH|]. eapply (redb_steps _ _ _ (crash_system c)); [|exact Hst].
    apply dispatch_safe.
  - eapply later_recover; [exact IH|]. eapply (redb_steps _ _ _ (crash_system c)); [|exact Hst].
    apply recover_safe.
Qed.
End redb.

(** ** A concrete history *)
Module History.
Definition policy : DeliveryPolicy := mkDeliveryPolicy [] 5 10 3 [1; 2] 10.

(** One event, a connector that accepts, no groups, no faults. *)
Definition handle (q : OutboxCall) (g : World) : World * outbox_answer q :=
  match q with
  | Now => (g, Ok (Example.at_time 0))
  | ScanPending _ _ =>
      (g, Ok (PendingExactEnd [(mkPendingItem (Example.durable 0) (Example.durable 0)
                                  (observe (g_rows g) (Example.ev 0)), 160)]))
  | ScanUndelivered _ => (g, Ok (UndeliveredExactEnd [] None))
  | SupportsClaimGroups | SupportsSucceedGroups => (g, false)
  | ReadyToDeliver _ | AdmitPage => (g, true)
  | ShouldInterrupt _ _ => (g, false)
  | AdmissibleRun _ => (g, 0%nat)
  | Transition phase t =>
      let '(m, r) := cas (Example.events 1) (g_rows g) t in
      (mkWorld m (match phase with P_Claim => grants t r ∪ g_tokens g | _ => g_tokens g end) (g_log g), Ok r)
  | ClaimGroup l =>
      let '(m, r) := cas_group (Example.events 1) (g_rows g) l in
      (mkWorld m (match r with GroupComplete rs => granted l rs ∪ g_tokens g | _ => g_tokens g end) (g_log g), Ok r)
  | SucceedGroup l =>
      let '(m, r) := cas_group (Example.events 1) (g_rows g) l in (mkWorld m (g_tokens g) (g_log g), Ok r)
  | Deliver a =>
      let k := (de_event_id (da_event a), da_attempt a) in
      (mkWorld (g_rows g) (g_tokens g ∖ {[k]}) (g_log g ++ [(k, Accepted)]), Accepted)
  end.

Lemma handle_next q g : next q (handle q g).2 g (handle q g).1.
Proof.
  destruct q as [| | | | | | |phase t|l|l|a| |]; cbn [handle next]; try done.
  - exists (Example.events 1). destruct (cas _ _ t) as [m r]. by destruct phase.
  - exists (Example.events 1). destruct (cas_group _ _ l) as [m r]. by destruct r.
  - exists (Example.events 1). by destruct (cas_group _ _ l) as [m r].
Qed.

(** The redb store as the environment, without faults. *)
Definition handle_redb `{StatusCodec} (q : OutboxCall) (c : System) : System * outbox_answer q :=
  match q with
  | Now => (c, Ok (Example.at_time 0))
  | ScanPending after limit => (c, scan_pending_outbox no_faults (y_store c) after limit)
  | ScanUndelivered request => (c, scan_undelivered_outbox_statuses no_faults (y_store c) request)
  | SupportsClaimGroups | SupportsSucceedGroups | ReadyToDeliver _ | AdmitPage => (c, true)
  | ShouldInterrupt _ _ => (c, false)
  | AdmissibleRun l => (c, length l)
  | Transition phase t =>
      let '(s, r) := transition_outbox no_faults t (y_store c) in
      (mkSystem s (match phase, r with
                   | P_Claim, Ok r => grants t r ∪ y_tokens c
                   | _, _ => y_tokens c
                   end) (y_log c), r)
  | ClaimGroup l =>
      let '(s, r) := claim_outbox_group no_faults l (y_store c) in
      (mkSystem s (match r with Ok (GroupComplete rs) => granted l rs ∪ y_tokens c | _ => y_tokens c end)
         (y_log c), r)
  | SucceedGroup l =>
      let '(s, r) := succeed_outbox_group no_faults l (y_store c) in (mkSystem s (y_tokens c) (y_log c), r)
  | Deliver a =>
      let k := (de_event_id (da_event a), da_attempt a) in
      (mkSystem (y_store c) (y_tokens c ∖ {[k]}) (y_log c ++ [(k, Accepted)]), Accepted)
  end.

Lemma handle_redb_step `{StatusCodecLaws} q c : store_ok (Example.events 1) (y_store c) -> pre policy (world_of c) q ->
  redb_step (Example.events 1) q (handle_redb q c).2 c (handle_redb q c).1 /\
  store_ok (Example.events 1) (y_store (handle_redb q c).1).
Proof.
  intros Hs Hq. unfold redb_step.
  destruct q as [| | | | | | |phase t|l|l|a| |]; cbn [handle_redb];
    try (split; [by exists (y_store c); destruct c|done]);
    try (split; [by exists (y_store c); split_and!; [..|exists no_faults]; destruct c|done]).
  - pose proof (transition_implements _ _ no_faults t Hs) as Hi.
    destruct (transition_outbox no_faults t (y_store c)) as [s r] eqn:E. split; [|apply Hi].
    exists (y_store c). split_and!; [done..|]. exists no_faults. split_and!; [exact E|reflexivity|by destruct phase].
  - pose proof (claim_group_implements _ _ no_faults l Hs (claim_pre_claims policy l Hq)) as Hi.
    destruct (claim_outbox_group no_faults l (y_store c)) as [s r] eqn:E. split; [|apply Hi].
    exists (y_store c). split_and!; [done..|]. exists no_faults. split_and!; [exact E|reflexivity..].
  - pose proof (succeed_group_implements _ _ no_faults l Hs (succeed_pre_successes _ l Hq)) as Hi.
    destruct (succeed_outbox_group no_faults l (y_store c)) as [s r] eqn:E. split; [|apply Hi].
    exists (y_store c). split_and!; [done..|]. exists no_faults. split_and!; [exact E|reflexivity..].
Qed.

(** The same pass on the concrete store, whose codec knows the two statuses. *)
Definition delivered : StoredOutboxStatusV1 :=
  mkOutboxStatus (Example.ev 0) (Delivered 1 [] (Example.at_time 0)).
#[local] Instance codec : StatusCodec := Example.codec [Example.claimed 0; delivered].
#[local] Instance laws : StatusCodecLaws := Example.codec_laws _.

Definition start : System := mkSystem (Example.store 1) ∅ [].
Definition redb_pass : System := (exec handle_redb (dispatch_once policy None) start).1.1.

Lemma redb_pass_history : redb_history policy redb_pass.
Proof.
  eapply (redb_dispatch policy start); [by constructor|].
  eapply (exec_steps_safe _ _ (fun c => store_ok (Example.events 1) (y_store c)));
    [|apply safe_redb, dispatch_safe|apply Example.store_fine].
  intros q c Hs Hq. destruct (handle_redb_step q c Hs Hq). split; [by eexists|done].
Qed.

Definition pass `{StatusCodec} : World := (exec handle (dispatch_once policy None) fresh).1.1.

Lemma pass_later `{StatusCodec} : later policy fresh pass.
Proof. eapply later_dispatch; [apply later_refl|]. apply exec_steps. apply handle_next. Qed.
End History.

(** ** The guarantees *)
Section guarantees.
Context `{StatusCodec} (policy : DeliveryPolicy).

(** C11. However passes and recoveries follow one another, and wherever a crash or
    an error cuts them, no attempt number of an event is delivered twice, each
    delivered attempt was durably claimed before (the stored status counts it)
    and lies between 1 and the attempt limit, and so an event is handed to the
    connector at most [max_attempts] times. *)
Theorem deliveries_fenced g : later policy fresh g ->
  NoDup (keys (g_log g)) /\
  (forall e a d, ((e, a), d) ∈ g_log g ->
     1 <= a <= max_attempts policy /\ a <= attempts (observe (g_rows g) e)) /\
  (0 <= max_attempts policy -> forall e, zlen (deliveries e g) <= max_attempts policy).
Proof.
  intros Hl%later_inv. split_and!; [apply Hl| |by intros; apply deliveries_bounded].
  intros e a d Hin. apply (i_log _ _ Hl (e, a) d Hin).
Qed.

(** C25. A terminal status is justified and final: an event stored as delivered
    was accepted by the connector at exactly that attempt, a dead letter was
    refused for good at that attempt or exhausted the attempt limit, and no later
    pass or recovery changes either. *)
Theorem outcomes_justified g : later policy fresh g ->
  (forall e s a d x, g_rows g !! e = Some s -> st_state s = Delivered a d x ->
     ((e, a), Accepted) ∈ g_log g) /\
  (forall e s n d x m, g_rows g !! e = Some s -> st_state s = DeadLetter n d x m ->
     max_attempts policy <= n \/ exists m', ((e, n), PermanentFailure m') ∈ g_log g) /\
  (forall g' e, later policy g g' -> is_terminal (observe (g_rows g) e) = true ->
     observe (g_rows g') e = observe (g_rows g) e).
Proof. intros Hl%later_inv. split_and!; [apply Hl..|]. intros g' e. apply later_terminal. Qed.

(** A pass of the dispatcher always returns, whatever the repository, the
    connector, the clock and the failpoints answer: it neither runs out of fuel
    nor indexes out of range, and at every call it makes it owes the environment
    nothing (a delivery is backed by a granted claim, a success by an accepted
    delivery, a dead letter by a refusal or by the limit). *)
Theorem dispatch_total after g p g' : steps next (dispatch_once policy after) g p g' ->
  p <> Panic /\ forall q k, p = Call q k -> pre policy g' q.
Proof.
  intros Hs. pose proof (safe_steps (pre policy) next _ _ _ _ _ (dispatch_safe policy after g) Hs) as Hp. split.
  - intros ->. cbn in Hp. done.
  - intros q k ->. apply Hp.
Qed.
End guarantees.

(** C3. The worker composed with the redb store, under any faults of the engine
    and with commands committing in between: from an empty status table, every
    history of passes and recoveries delivers each attempt of an event at most
    once and at most [max_attempts] of them, and the rows of the table that say
    delivered decode to statuses whose attempt the connector accepted. *)
Theorem redb_worker_fenced `{StatusCodecLaws} policy c : redb_history policy c ->
  NoDup (keys (y_log c)) /\
  (forall e a d, ((e, a), d) ∈ y_log c -> 1 <= a <= max_attempts policy) /\
  (forall e s a d x, view (os_statuses (y_store c)) !! e = Some s -> st_state s = Delivered a d x ->
     ((e, a), Accepted) ∈ y_log c).
Proof.
  intros Hh%redb_later%later_inv. split_and!; [apply (i_once _ _ Hh)| |].
  - intros e a d Hin. by destruct (i_log _ _ Hh (e, a) d Hin).
  - intros e s a d x. apply (i_delivered _ _ Hh).
Qed.

Lemma deliveries_fenced_witness :
  let C := Example.codec Example.table in
  let g := History.pass in
  g_log g = [((Example.ev 0, 1), Accepted)] /\ NoDup (keys (g_log g)).
Proof.
  intros C g. split; [vm_compute; reflexivity|].
  apply (deliveries_fenced History.policy g History.pass_later).
Defined.

Lemma outcomes_justified_witness :
  let C := Example.codec Example.table in
  let g := History.pass in
  exists s a d x, g_rows g !! Example.ev 0 = Some s /\ st_state s = Delivered a d x /\
    ((Example.ev 0, a), Accepted) ∈ g_log g.
Proof.
  intros C g. destruct (outcomes_justified History.policy g History.pass_later) as (Hd & _ & _).
  eexists _, _, _, _. split; [vm_compute; reflexivity|]. split; [reflexivity|].
  eapply Hd; [vm_compute; reflexivity|reflexivity].
Defined.

Lemma dispatch_total_witness :
  let C := Example.codec Example.table in
  let r := exec History.handle (dispatch_once History.policy None) fresh in
  (exists report, r.2 = Returned (None, Ok report) /\ r_delivered report = 1) /\ finished r.2 <> Panic.
Proof.
  intros C r. split; [eexists; split; vm_compute; reflexivity|].
  apply (dispatch_total History.policy None fresh _ r.1.1). apply exec_steps, History.handle_next.
Defined.

(** One pass on the concrete store: claim group, delivery, success group. *)
Lemma redb_worker_fenced_witness :
  let c := History.redb_pass in
  (exists b, os_statuses (y_store c) !! Example.ev 0 = Some b /\
     decode_outbox_status_v1 (StatusCodec := History.codec) b = Ok (History.delivered, 1)) /\
  ((Example.ev 0, 1), Accepted) ∈ y_log c.
Proof.
  intros c. split; [eexists; split; vm_compute; reflexivity|].
  eapply (@redb_worker_fenced History.codec History.laws History.policy c History.redb_pass_history);
    [vm_compute; reflexivity|reflexivity].
Defined.
