(* ===== verification/OutboxComplete.v ===== *)
(** * What a recovery that is ready has done

    The recovery of [riffdb-outbox/src/recovery.rs] composed with the redb store
    while commands go on committing.  A recovery that reports ready has left no
    delivery in flight, and the pages it reads are at most one more than the
    events that can appear, so that it always returns. *)

From S2P Require Import Prelude Value Key StorageBase OutboxStatus OutboxStore OutboxStoreSpec OutboxScan.
From S2P Require Import Interaction OutboxWorker OutboxRecovery OutboxSafety OutboxHistory.
From stdpp Require Import gmap list.

Local Open Scope Z_scope.

Section recovery.
Context `{StatusCodecLaws} (policy : DeliveryPolicy).
(** Every event that the store holds while the recovery runs. *)
Context (universe : gset EventId).
Hypothesis (Hlimit : 0 < scan_limit policy <= MAX_SCAN_PAGE_ENTRIES).

Definition within (q : OutboxCall) (x : outbox_answer q) (c c' : System) : Prop :=
  exists S, S ⊆ universe /\ redb_step S q x c c'.

Definition rows (c : System) : Statuses := view (os_statuses (y_store c)).

(** ** What a step of the recovery does to the statuses *)
Definition recovers {A} (m : R A) (post : A -> Statuses -> Prop) (rs : Statuses) : Prop :=
  forall r c, rows c = rs ->
  safe (fun _ _ => True) within (m r) (fun o c' =>
    match o with
    | Returned (_, Ok a) => post a (rows c')
    | Returned (_, Err _) => True
    | Panicked => False
    end) c.

Lemma recovers_ret {A} (a : A) (post : A -> Statuses -> Prop) rs : post a rs -> recovers (mret a) post rs.
Proof. by intros Hp r c <-. Qed.

Lemma recovers_fail {A} e (post : A -> Statuses -> Prop) rs : recovers (fail e) post rs.
Proof. by intros r c <-. Qed.

Lemma recovers_result {A} (x : result OutboxWorkerError A) (post : A -> Statuses -> Prop) rs :
  (forall a, x = Ok a -> post a rs) -> recovers (of_result x) post rs.
Proof. intros Hp r c <-. cbn. destruct x; auto. Qed.

Lemma recovers_modify f (post : unit -> Statuses -> Prop) rs : post tt rs -> recovers (modify f) post rs.
Proof. intros Hp r c <-. unfold modify. cbn. by destruct (f r). Qed.

Lemma recovers_bind {A B} (m : R A) (k : A -> R B) (mid : A -> Statuses -> Prop) post rs :
  recovers m mid rs -> (forall a rs', mid a rs' -> recovers (k a) post rs') -> recovers (m ≫= k) post rs.
Proof.
  intros Hm Hk r c Hr. cbn. apply safe_bind. eapply safe_mono; [by apply Hm|].
  intros [[r' [a|e]]|] c'; [|done..]. intros Ha. by apply (Hk a (rows c')).
Qed.

Lemma recovers_mono {A} (m : R A) (post post' : A -> Statuses -> Prop) rs : recovers m post rs ->
  (forall a rs', post a rs' -> post' a rs') -> recovers m post' rs.
Proof.
  intros Hm Hp r c Hr. eapply safe_mono; [by apply Hm|]. intros [[r' [a|e]]|] c'; [|done..]. apply Hp.
Qed.

Lemma recovers_degraded {A} e f x (post : A -> Statuses -> Prop) rs : recovers (degraded e f x) post rs.
Proof. eapply recovers_bind; [by apply (recovers_modify _ (fun _ _ => True))|]. intros. apply recovers_fail. Qed.

Lemma recovers_ask q (post : outbox_answer q -> Statuses -> Prop) rs :
  (forall x c c', within q x c c' -> rows c = rs -> post x (rows c')) -> recovers (ask q) post rs.
Proof. intros Hp r c Hr. cbn. split; [done|]. intros x c' Hn. by eapply Hp. Qed.

Lemma rows_same s c : os_statuses s = os_statuses (y_store c) -> rows (mkSystem s (y_tokens c) (y_log c)) = rows c.
Proof. unfold rows. cbn. by intros ->. Qed.

Lemma recovers_interrupt f e rs : recovers (interrupt f e) (fun _ rs' => rs' = rs) rs.
Proof.
  eapply (recovers_bind _ _ (fun _ rs' => rs' = rs)).
  - apply recovers_ask. intros x c c' (S & _ & s & _ & Hs & ->) <-. by apply rows_same.
  - intros [] ? ->; [apply recovers_degraded|by apply recovers_ret].
Qed.

Lemma recovers_now rs : recovers now (fun _ rs' => rs' = rs) rs.
Proof.
  eapply (recovers_bind _ _ (fun _ rs' => rs' = rs)).
  - apply recovers_ask. intros x c c' (S & _ & s & _ & Hs & ->) <-. by apply rows_same.
  - intros a ? ->. by apply recovers_result.
Qed.

(** ** One item *)
Definition ids_ok (m : Statuses) : Prop := forall e st, m !! e = Some st -> st_event_id st = e.

(** Deliveries only leave, and those of [gone] have left. *)
Definition settles (gone : StoredOutboxStatusV1 -> Prop) (m m' : Statuses) : Prop :=
  ids_ok m' /\ forall e st, in_flight m' e st -> in_flight m e st /\ ~ gone st.

Lemma settles_refl m : ids_ok m -> settles (fun _ => False) m m.
Proof. by intros Hi; split; [done|auto]. Qed.

(** An applied normalization settles its delivery. *)
Lemma retry_settles S m m' st n x t : ids_ok m -> retry_new st n x = Ok t ->
  cas S m t = (m', Applied (tr_updated t)) -> settles (fun st' => st' = st) m m'.
Proof.
  intros Hi Ht. unfold retry_new in Ht. destruct st as [e []]; try done. injection Ht as <-.
  unfold cas. case_bool_decide; [|done]. case_bool_decide as Ho; [|done]. intros [= <-].
  cbn [tr_event_id tr_updated st_event_id tr_expected] in *. split.
  - intros e' st' [[<- <-]|[_ Hs]]%lookup_insert_Some; [done|by apply Hi].
  - intros e' st' [[[_ <-]|[Hne Hs]]%lookup_insert_Some (a & d & y & z & Hst)]; [done|].
    split; [split; [done|by eexists _, _, _, _]|]. intros ->. apply Hne. by apply Hi in Hs.
Qed.

Lemma cas_applied S m t m' u : cas S m t = (m', Applied u) -> u = tr_updated t.
Proof. unfold cas. do 2 (case_bool_decide; [|done]). by intros [= _ <-]. Qed.

Lemma recovers_transition st n x t m : ids_ok m -> retry_new st n x = Ok t ->
  recovers (ask (Transition P_Recovery t)) (fun r m' =>
    match r with Ok (Applied _) => settles (fun st' => st' = st) m m' | _ => True end) m.
Proof.
  intros Hi Ht. apply recovers_ask. intros r c c' (S & _ & s & Hs & Hrows & f & Hop & _) Hm.
  pose proof (transition_implements S s f t Hs) as Himp. rewrite Hop in Himp. destruct Himp as (_ & _ & Ha).
  unfold rows in Hm. rewrite Hrows, Hm in Ha. destruct r as [[u| |]|]; [|done..]. cbn in Ha.
  pose proof (cas_applied S m t _ u (eq_sym Ha)) as ->. by eapply retry_settles.
Qed.

Lemma recovers_item item m : ids_ok m ->
  recovers (recover_item policy item) (fun _ m' =>
    settles (fun st => delivering_status item = Some st) m m') m.
Proof.
  intros Hi. eapply recovers_bind; [by apply (recovers_modify _ (fun _ m' => m' = m))|]. intros _ ? ->.
  unfold delivering_status. destruct (ud_status item) as [|st];
    [by apply recovers_ret; split; [done|split; [done|]]|].
  destruct (st_state st) as [|a d x y| |] eqn:Est;
    try (by apply recovers_ret; split; [done|split; [done|]]).
  eapply recovers_bind; [apply recovers_interrupt|]. intros _ ? ->. cbv beta. rewrite Est.
  eapply recovers_bind; [apply recovers_now|]. intros from ? ->.
  eapply recovers_bind; [by apply (recovers_result _ (fun _ m' => m' = m))|]. intros next ? ->.
  eapply recovers_bind; [by apply (recovers_result _ (fun _ m' => m' = m))|]. intros err ? ->.
  eapply (recovers_bind _ _ (fun t m' => m' = m /\ retry_new st next (Some err) = Ok t)).
  { apply recovers_result. intros t. destruct (retry_new _ _ _); [|done]. by intros [= ->]. }
  intros t ? [-> Ht]. eapply recovers_bind; [by eapply recovers_transition|]. intros r m' Hr.
  eapply (recovers_bind _ _ (fun _ m' => settles (fun st' => Some st = Some st') m m')).
  - destruct r as [[u| |]|]; try apply recovers_degraded. apply recovers_modify.
    destruct Hr as [Hids Hr]. split; [done|]. intros e st' Hf. destruct (Hr e st' Hf). split; [done|congruence].
  - intros _ m2 H2. eapply recovers_mono; [apply recovers_interrupt|]. by intros _ ? ->.
Qed.

Lemma recovers_items items m : ids_ok m ->
  recovers (recover_items policy items) (fun _ m' =>
    settles (fun st => Present st ∈ map ud_status items) m m') m.
Proof.
  revert m. induction items as [|i items IH]; intros m Hi.
  { apply recovers_ret. split; [done|]. intros e st Hf. split; [done|]. cbn. set_solver. }
  eapply recovers_bind; [by apply recovers_item|]. intros _ m1 [Hi1 H1].
  eapply recovers_mono; [by apply IH|]. intros _ m2 [Hi2 H2]. split; [done|]. intros e st Hf. destruct (H2 e st Hf) as [Hf1 Hn].
  destruct (H1 e st Hf1) as [Hf0 Hg]. split; [done|]. cbn. rewrite elem_of_cons. intros [Hst|?]; [|done].
  apply Hg. unfold delivering_status. rewrite <- Hst. destruct Hf as [_ (a & d & x & y & ->)]. done.
Qed.

(** ** The pages *)
#[local] Instance after_lt_dec after e : Decision (after_lt after e).
Proof. destruct after; cbn; apply _. Defined.

(** The events that a page after [after] can still hold. *)
Definition ahead (after : option EventId) : gset EventId := filter (fun e => after_lt after e) universe.

Lemma ahead_shrinks after e : e ∈ universe -> after_lt after e -> (size (ahead (Some e)) < size (ahead after))%nat.
Proof.
  intros He Ha. apply subset_size. split.
  - intros x [Hx Hu]%elem_of_filter. apply elem_of_filter. split; [|done]. destruct after as [a|]; [|done]. cbn in *. by etrans.
  - intros Hsub. specialize (Hsub e). unfold ahead in Hsub. rewrite !elem_of_filter in Hsub.
    destruct Hsub as [Hlt _]; [done|]. by apply (irreflexivity event_lt e).
Qed.

Lemma recovers_scan request m : request_limit request = scan_limit policy ->
  recovers (ask (ScanUndelivered request)) (fun r m' =>
    m' = m /\ forall scan, r = Ok scan -> scan_covers universe m request scan) m.
Proof.
  intros Hl. apply recovers_ask. intros r c c' (S & HS & s & Hs & Hrows & f & -> & ->) Hm.
  rewrite rows_same by done. split; [done|]. intros scan Hscan.
  apply (scan_undelivered_covers S) in Hscan; [|done|by rewrite Hl].
  rewrite <- Hm. unfold rows. rewrite <- Hrows. destruct scan; [|done]. cbn in *. naive_solver.
Qed.

Lemma recovers_pages fuel request m : ids_ok m -> request_limit request = scan_limit policy ->
  (forall e st, in_flight m e st ->
     after_lt (request_after request) e /\ up_to (request_inclusive_upper request) e) ->
  (size (ahead (request_after request)) < fuel)%nat ->
  recovers (recover_pages policy fuel request) (fun _ m' => forall e st, ~ in_flight m' e st) m.
Proof.
  revert request m. induction fuel as [|fuel IH]; intros request m Hi Hl Hin Hfuel; [lia|].
  eapply (recovers_bind _ _ (fun _ m' => m' = m)).
  { apply recovers_ask. intros x c c' (S & _ & s & _ & Hs & ->) <-. by apply rows_same. }
  intros [] ? ->; [|apply recovers_fail].
  eapply recovers_bind; [by apply recovers_scan|]. intros [scan|e] ? [-> Hcov]; [|apply recovers_degraded].
  specialize (Hcov scan eq_refl). eapply recovers_bind; [by apply recovers_items|]. intros _ m1 [Hi1 H1].
  rewrite map_map in H1. destruct scan as [items after u|items u]; cbn in Hcov, H1 |- *.
  - destruct Hcov as (Hup & Hlt & Hu & Hcov). apply IH; [done..| |].
    + intros e st Hf. destruct (H1 e st Hf) as [Hf0 Hn]. destruct (Hin e st Hf0) as [Ha Hb]. cbn. split.
      * destruct (decide (event_lt after e)) as [?|Hle%event_not_lt]; [done|]. destruct Hn. by eapply Hcov.
      * by eapply Hup.
    + cbn. pose proof (ahead_shrinks _ _ Hu Hlt). lia.
  - apply recovers_ret. intros e st Hf. destruct (H1 e st Hf) as [Hf0 Hn]. destruct (Hin e st Hf0).
    apply Hn. by eapply Hcov.
Qed.

Lemma recovers_all fuel m : ids_ok m -> (size universe < fuel)%nat ->
  recovers (_ ← recover_pages policy fuel (ScanInitial None (scan_limit policy)); interrupt RecoveryBeforeReady None)
    (fun _ m' => forall e st, ~ in_flight m' e st) m.
Proof.
  intros Hi Hf. eapply (recovers_bind _ _ (fun _ m' => forall e st, ~ in_flight m' e st)).
  - apply recovers_pages; [done..|]. cbn. eapply Nat.le_lt_trans; [|exact Hf].
    apply subseteq_size. unfold ahead. intros e [_ He]%elem_of_filter. done.
  - intros _ m' Hm. eapply recovers_mono; [apply recovers_interrupt|]. by intros [] m2 E; rewrite E.
Qed.

Lemma store_ids_ok S s : store_ok S s -> ids_ok (view (os_statuses s)).
Proof.
  intros Hs e st Hst. pose proof (observe_identity S s e (so_tables _ _ Hs)) as Hid.
  unfold observe in Hid. rewrite Hst in Hid. cbn in Hid. unfold validate_event_id in Hid. cbn in Hid.
  by case_bool_decide.
Qed.

(** C12. Recovery on the redb store, with commands committing meanwhile and under
    any faults of the engine: with fuel for one page more than the events that can
    appear it never runs out of pages, and when it reports ready the status table
    holds no delivery in flight, however many pages the scan took. *)
Theorem recovery_complete fuel S c p c' : store_ok S (y_store c) -> (size universe < fuel)%nat ->
  steps within (recover_with_page_admission policy fuel) c p c' ->
  p <> Panic /\ forall report, p = Ret (report, Ok tt) -> forall e st, ~ in_flight (rows c') e st.
Proof.
  intros Hs Hf Hst. pose proof (recovers_all fuel _ (store_ids_ok S _ Hs) Hf) as Hr.
  specialize (Hr empty_recovery_report c eq_refl). eapply safe_steps in Hst; [|exact Hr]. split.
  - by intros ->.
  - intros report ->. apply Hst.
Qed.
End recovery.

(** ** A concrete recovery

    One event whose delivery is in flight: the claim of a worker that died. *)
Module Interrupted.
Definition retried : StoredOutboxStatusV1 :=
  mkOutboxStatus (Example.ev 0)
    (DS_Pending (mkRetryMetadata 1 (Example.at_time 0) (Some (Example.at_time 1)) [] (Some INTERRUPTED_SAFE_ERROR))).
#[local] Instance codec : StatusCodec := Example.codec [Example.claimed 0; retried].
#[local] Instance laws : StatusCodecLaws := Example.codec_laws _.

Definition start : System :=
  mkSystem (transition_outbox no_faults (Example.claim 0) (Example.store 1)).1 ∅ [].

Lemma start_ok : store_ok (Example.events 1) (y_store start).
Proof.
  pose proof (transition_implements (Example.events 1) _ no_faults (Example.claim 0) (Example.store_fine 1)) as Hi.
  unfold start. by destruct (transition_outbox _ _ _) as [s r]; destruct Hi.
Qed.

Definition run := exec History.handle_redb (recover_with_page_admission History.policy 2) start.

Lemma run_steps : steps (within (Example.events 1)) (recover_with_page_admission History.policy 2) start
  (finished run.2) run.1.1.
Proof.
  eapply (exec_steps_safe _ _ (fun c => store_ok (Example.events 1) (y_store c))).
  - intros q c Hs Hq. destruct (History.handle_redb_step q c Hs Hq). split; [by exists (Example.events 1)|done].
  - eapply safe_weaken; [|apply (safe_redb History.policy), recover_safe].
    by intros q x c c' (S & _ & ?); exists S.
  - apply start_ok.
Qed.
End Interrupted.

Lemma recovery_complete_witness :
  let c := Interrupted.run.1.1 in
  in_flight (rows (H := Interrupted.codec) Interrupted.start) (Example.ev 0) (Example.claimed 0) /\
  (exists report, finished Interrupted.run.2 = Ret (report, Ok tt) /\ rr_normalized report = 1) /\
  forall e st, ~ in_flight (rows (H := Interrupted.codec) c) e st.
Proof.
  intros c. split; [|split].
  - split; [vm_compute; reflexivity|]. by eexists _, _, _, _.
  - eexists. split; vm_compute; reflexivity.
  - pose proof (@recovery_complete Interrupted.codec Interrupted.laws History.policy (Example.events 1)
      ltac:(cbn; lia) 2 (Example.events 1) Interrupted.start _ c Interrupted.start_ok ltac:(vm_compute; lia)
      Interrupted.run_steps) as [_ Hr].
    eapply Hr. vm_compute. reflexivity.
Defined.
