(* ===== verification/Text.v ===== *)
(** * Text

    What the syntax crates use of Rust's [str], [u8] and integer formatting:
    ASCII classes, the characters of a UTF-8 string, and decimal numbers with
    [Display] and [FromStr].  A string is its bytes. *)

From S2P Require Import Prelude Value Names.
From Stdlib Require Import Strings.String Strings.Byte.
From stdpp Require Import list.

Local Open Scope Z_scope.

(** ** Bytes *)
Definition is_ascii_alphanumeric (b : byte) : bool := is_ascii_alphabetic b || is_ascii_digit b.

Definition is_ascii_whitespace (b : byte) : bool :=
  match b with x20 | x09 | x0a | x0c | x0d => true | _ => false end.

Definition is_ascii_control (b : byte) : bool := (byte_to_Z b <? 32) || (byte_to_Z b =? 127).

(** The longest prefix whose bytes satisfy [p], and what follows it. *)
Fixpoint span_while {A} (p : A -> bool) (l : list A) : list A * list A :=
  match l with
  | [] => ([], [])
  | x :: l' => if p x then let '(a, r) := span_while p l' in (x :: a, r) else ([], l)
  end.

(** ** Characters *)

(** The length of a character from its first byte. *)
Definition utf8_len (b : byte) : nat :=
  let z := byte_to_Z b in
  if z <? 128 then 1 else if z <? 224 then 2 else if z <? 240 then 3 else 4.

(** [chars().next()] *)
Definition next_char (l : list byte) : option (list byte * list byte) :=
  match l with
  | [] => None
  | b :: _ => Some (take (utf8_len b) l, drop (utf8_len b) l)
  end.

(** [chars()] *)
Fixpoint chars_fuel (fuel : nat) (l : list byte) : list (list byte) :=
  match fuel with
  | O => []
  | S fuel => match next_char l with None => [] | Some (c, r) => c :: chars_fuel fuel r end
  end.

Definition chars (l : list byte) : list (list byte) := chars_fuel (length l) l.

(** ** Decimal numbers *)
Definition digit_byte (d : Z) : byte := Z_to_byte (48 + d).

Fixpoint show_digits (fuel : nat) (n : Z) (acc : list byte) : list byte :=
  match fuel with
  | O => acc
  | S fuel =>
      if n <? 10 then digit_byte n :: acc
      else show_digits fuel (n / 10) (digit_byte (n mod 10) :: acc)
  end.

(** [Display] of an integer *)
Definition show_unsigned (n : Z) : list byte := show_digits (S (Z.to_nat (Z.log2 n))) n [].

Definition show_int (n : Z) : list byte :=
  if n <? 0 then "-"%byte :: show_unsigned (- n) else show_unsigned n.

Definition digits_value (acc : Z) (l : list byte) : Z :=
  fold_left (fun a b => 10 * a + (byte_to_Z b - 48)) l acc.

Definition digits (l : list byte) : bool := negb (bool_decide (l = [])) && forallb is_ascii_digit l.

Definition strip_plus (l : list byte) : list byte :=
  match l with "+"%byte :: l' => l' | _ => l end.

(** [FromStr] of an unsigned and of a signed integer of [w] bits *)
Definition from_str_unsigned (w : Z) (l : list byte) : option Z :=
  let l := strip_plus l in
  if digits l then u_checked w (digits_value 0 l) else None.

Definition from_str_signed (w : Z) (l : list byte) : option Z :=
  match l with
  | "-"%byte :: l' => if digits l' then i_checked w (- digits_value 0 l') else None
  | _ => let l := strip_plus l in if digits l then i_checked w (digits_value 0 l) else None
  end.

(** ** Lemmas *)
Lemma span_while_app {A} (p : A -> bool) l : l = (span_while p l).1 ++ (span_while p l).2.
Proof. induction l as [|x l IH]; cbn; [done|]. destruct (p x); [|done]. destruct (span_while p l). cbn in *. congruence. Qed.

Lemma span_while_all {A} (p : A -> bool) l : forallb p (span_while p l).1 = true.
Proof. induction l as [|x l IH]; cbn; [done|]. destruct (p x) eqn:E; [|done]. destruct (span_while p l). cbn in *. by rewrite E. Qed.

(** What a maximal run is followed by. *)
Definition stops {A} (p : A -> bool) (l : list A) : Prop :=
  match l with x :: _ => p x = false | [] => True end.

Lemma span_while_stop {A} (p : A -> bool) l : stops p (span_while p l).2.
Proof. induction l as [|x l IH]; cbn; [done|]. destruct (p x) eqn:E; [|done]. by destruct (span_while p l). Qed.

Lemma span_while_run {A} (p : A -> bool) a l : forallb p a = true -> stops p l -> span_while p (a ++ l) = (a, l).
Proof.
  intros Ha Hl. induction a as [|x a IH]; cbn in *.
  - destruct l as [|x l]; [done|]. cbn in *. by rewrite Hl.
  - apply andb_true_iff in Ha as [Hx Ha]. by rewrite Hx, IH.
Qed.

Lemma span_while_length {A} (p : A -> bool) l : (length (span_while p l).2 <= length l)%nat.
Proof. rewrite (span_while_app p l) at 2. rewrite length_app. lia. Qed.

(** *** UTF-8 *)

(** The encoding of one character. *)
Definition utf8_char (c : list byte) : bool :=
  match c with
  | [b0] => in_rangeb 0 127 b0
  | [b0; b1] => in_rangeb 194 223 b0 && continuationb b1
  | [b0; b1; b2] => in_rangeb 224 239 b0 && (second_of_three b0 b1 && continuationb b2)
  | [b0; b1; b2; b3] =>
      in_rangeb 240 244 b0 && (second_of_four b0 b1 && continuationb b2 && continuationb b3)
  | _ => false
  end.

Ltac ranges := unfold in_rangeb in *; rewrite ?andb_true_iff, ?andb_false_iff, ?Z.leb_le, ?Z.leb_gt in *.

Lemma utf8_valid_cons c l : utf8_char c = true -> utf8_valid (c ++ l) = utf8_valid l.
Proof.
  destruct c as [|b0 [|b1 [|b2 [|b3 [|]]]]]; cbn [utf8_char app utf8_valid]; try done; intros Hc.
  - by rewrite Hc.
  - apply andb_true_iff in Hc as [H0 H1]. assert (in_rangeb 0 127 b0 = false) as -> by (ranges; lia).
    by rewrite H0, H1.
  - apply andb_true_iff in Hc as [H0 H1]. assert (in_rangeb 0 127 b0 = false) as -> by (ranges; lia).
    assert (in_rangeb 194 223 b0 = false) as -> by (ranges; lia). by rewrite H0, H1.
  - apply andb_true_iff in Hc as [H0 H1]. assert (in_rangeb 0 127 b0 = false) as -> by (ranges; lia).
    assert (in_rangeb 194 223 b0 = false) as -> by (ranges; lia).
    assert (in_rangeb 224 239 b0 = false) as -> by (ranges; lia). by rewrite H0, H1.
Qed.

Lemma utf8_valid_inv l : utf8_valid l = true -> l = [] \/
  exists c r, l = c ++ r /\ utf8_char c = true /\ utf8_valid r = true.
Proof.
  destruct l as [|b0 l1]; [by left|]. intros Hv. right. cbn [utf8_valid] in Hv.
  destruct (in_rangeb 0 127 b0) eqn:E0; [by exists [b0], l1|].
  destruct l1 as [|b1 l2]; [done|]. destruct (in_rangeb 194 223 b0) eqn:E1.
  { apply andb_true_iff in Hv as [H1 Hv]. exists [b0; b1], l2. cbn [utf8_char]. by rewrite E1, H1. }
  destruct l2 as [|b2 l3]; [done|]. destruct (in_rangeb 224 239 b0) eqn:E2.
  { apply andb_true_iff in Hv as [H1 Hv]. exists [b0; b1; b2], l3. cbn [utf8_char]. by rewrite E2, H1. }
  destruct l3 as [|b3 l4]; [done|]. destruct (in_rangeb 240 244 b0) eqn:E3; [|done].
  apply andb_true_iff in Hv as [H1 Hv]. exists [b0; b1; b2; b3], l4. cbn [utf8_char]. by rewrite E3, H1.
Qed.

Lemma utf8_char_length c : utf8_char c = true -> (1 <= length c)%nat.
Proof. destruct c; [done|cbn; lia]. Qed.

(** Induction over the characters of a valid string. *)
Lemma utf8_ind (P : list byte -> Prop) : P [] ->
  (forall c l, utf8_char c = true -> utf8_valid l = true -> P l -> P (c ++ l)) ->
  forall l, utf8_valid l = true -> P l.
Proof.
  intros H0 Hc l. remember (length l) as n eqn:Hn. revert l Hn.
  induction n as [n IH] using lt_wf_ind. intros l -> Hv.
  destruct (utf8_valid_inv l Hv) as [->|(c & r & -> & Hch & Hr)]; [done|].
  apply Hc; [done..|]. eapply IH; [|done..]. rewrite length_app. pose proof (utf8_char_length c Hch). lia.
Qed.

Lemma utf8_valid_app a b : utf8_valid a = true -> utf8_valid b = true -> utf8_valid (a ++ b) = true.
Proof.
  intros Ha Hb. revert a Ha. apply utf8_ind; [done|]. intros c l Hc Hl IH.
  by rewrite <- app_assoc, utf8_valid_cons.
Qed.

Lemma utf8_char_valid c : utf8_char c = true -> utf8_valid c = true.
Proof. intros Hc. rewrite <- (app_nil_r c), utf8_valid_cons by done. done. Qed.

Lemma next_char_app c l : utf8_char c = true -> next_char (c ++ l) = Some (c, l).
Proof.
  intros Hc. destruct c as [|b0 t] eqn:E; [done|]. rewrite <- E in *.
  assert (utf8_len b0 = length c) as Hlen.
  { subst c. unfold utf8_len.
    destruct t as [|b1 [|b2 [|b3 [|]]]]; cbn [utf8_char length] in *; try done; ranges;
      repeat (case_match; ranges); lia. }
  assert (next_char (c ++ l) = Some (take (utf8_len b0) (c ++ l), drop (utf8_len b0) (c ++ l))) as ->
    by by subst c.
  by rewrite Hlen, take_app_length, drop_app_length.
Qed.

Lemma chars_fuel_app n c l : utf8_char c = true -> chars_fuel (S n) (c ++ l) = c :: chars_fuel n l.
Proof. intros Hc. cbn [chars_fuel]. by rewrite next_char_app. Qed.

Lemma chars_fuel_enough l : utf8_valid l = true -> forall n, (length l <= n)%nat -> chars_fuel n l = chars l.
Proof.
  revert l. apply (utf8_ind (fun l => forall n, (length l <= n)%nat -> chars_fuel n l = chars l)).
  { intros [|n] _; done. }
  intros c l Hc Hl IH n Hn. pose proof (utf8_char_length c Hc) as Hlen. unfold chars.
  rewrite length_app in *. destruct n as [|n]; [lia|]. destruct (length c + length l)%nat as [|k] eqn:Ek; [lia|].
  rewrite !chars_fuel_app by done. by rewrite !IH by lia.
Qed.

Lemma chars_cons c l : utf8_char c = true -> utf8_valid l = true -> chars (c ++ l) = c :: chars l.
Proof.
  intros Hc Hl. pose proof (utf8_char_length c Hc). unfold chars at 1. rewrite length_app.
  destruct (length c + length l)%nat as [|k] eqn:Ek; [lia|]. rewrite chars_fuel_app by done.
  by rewrite chars_fuel_enough by (done || lia).
Qed.

(** *** Decimal numbers *)
Lemma digit_byte_Z d : 0 <= d <= 9 -> byte_to_Z (digit_byte d) = 48 + d.
Proof. intros H. unfold digit_byte. rewrite byte_to_Z_to_byte, Z.mod_small; lia. Qed.

Lemma digit_byte_digit d : 0 <= d <= 9 -> is_ascii_digit (digit_byte d) = true.
Proof. intros H. unfold is_ascii_digit. rewrite digit_byte_Z by done. lia. Qed.

Lemma digits_value_app acc a b : digits_value acc (a ++ b) = digits_value (digits_value acc a) b.
Proof. apply fold_left_app. Qed.

Lemma show_digits_spec fuel n acc : 0 <= n < 2 ^ Z.of_nat fuel ->
  exists l, show_digits fuel n acc = l ++ acc /\ digits_value 0 l = n /\
    forallb is_ascii_digit l = true /\ (0 < fuel -> l <> [])%nat.
Proof.
  revert n acc. induction fuel as [|fuel IH]; intros n acc Hn; cbn [show_digits].
  { exists []. cbn in *. split_and!; [done|lia|done|lia]. }
  rewrite Nat2Z.inj_succ, Z.pow_succ_r in Hn by lia. destruct (Z.ltb_spec n 10).
  - exists [digit_byte n]. split_and!; [done| |cbn; by rewrite digit_byte_digit by lia|done].
    cbn. rewrite digit_byte_Z by lia. lia.
  - pose proof (Z.mod_pos_bound n 10). pose proof (Z.div_mod n 10).
    destruct (IH (n / 10) (digit_byte (n mod 10) :: acc)) as (l & -> & Hv & Hd & _).
    { split; [apply Z.div_pos; lia|]. apply Z.div_lt_upper_bound; lia. }
    exists (l ++ [digit_byte (n mod 10)]). rewrite <- app_assoc. split_and!; [done| | |by destruct l].
    + rewrite digits_value_app, Hv. cbn. rewrite digit_byte_Z by lia. lia.
    + rewrite forallb_app, Hd. cbn. by rewrite digit_byte_digit by lia.
Qed.

Lemma show_unsigned_spec n : 0 <= n ->
  digits_value 0 (show_unsigned n) = n /\ digits (show_unsigned n) = true.
Proof.
  intros Hn. unfold show_unsigned.
  destruct (show_digits_spec (S (Z.to_nat (Z.log2 n))) n []) as (l & -> & Hv & Hd & Hne).
  { pose proof (Z.log2_nonneg n). rewrite Nat2Z.inj_succ, Z2Nat.id by done. split; [done|].
    destruct (decide (n = 0)) as [->|]; [done|]. apply Z.log2_spec. lia. }
  rewrite app_nil_r. split; [done|]. unfold digits. rewrite Hd, bool_decide_false by (apply Hne; lia). done.
Qed.

Lemma digits_strip l : digits l = true -> strip_plus l = l.
Proof. unfold digits. destruct l as [|[] l]; cbn; done || by intros. Qed.

Lemma from_str_show_unsigned w n : u_range w n -> from_str_unsigned w (show_unsigned n) = Some n.
Proof.
  intros Hn. destruct (show_unsigned_spec n) as [Hv Hd]; [unfold u_range in Hn; lia|].
  unfold from_str_unsigned. rewrite digits_strip, Hd, Hv by done. apply u_checked_Some. done.
Qed.

Lemma from_str_show_int w n : i_range w n -> from_str_signed w (show_int n) = Some n.
Proof.
  intros Hn. unfold show_int. destruct (Z.ltb_spec n 0).
  - destruct (show_unsigned_spec (- n)) as [Hv Hd]; [lia|]. cbn [from_str_signed]. rewrite Hd, Hv, Z.opp_involutive.
    by apply i_checked_Some.
  - destruct (show_unsigned_spec n) as [Hv Hd]; [lia|].
    assert (from_str_signed w (show_unsigned n) = let l := strip_plus (show_unsigned n) in
      if digits l then i_checked w (digits_value 0 l) else None) as ->.
    { unfold from_str_signed. destruct (show_unsigned n) as [|[] l]; done. }
    cbn zeta. rewrite digits_strip, Hd, Hv by done. by apply i_checked_Some.
Qed.
