(* ===== verification/Sort.v ===== *)
(** * Sorting

    The standard library's stable sort by a comparison, and the check that
    neighbours are in strict order, as several parts of the code use them. *)

From S2P Require Import Prelude.
From stdpp Require Import list sorting.

Local Open Scope Z_scope.

(** [sort_by]: stable, by a comparison. *)
Section sort.
Context {A : Type} (cmp : A -> A -> comparison).

Fixpoint insert_sorted (x : A) (l : list A) : list A :=
  match l with
  | [] => [x]
  | y :: l' => match cmp x y with Gt => y :: insert_sorted x l' | _ => x :: l end
  end.

Definition sort_by (l : list A) : list A := foldr insert_sorted [] l.

(** [!windows(2).any(|pair| pair[0] >= pair[1])] *)
Fixpoint strictly_increasing (l : list A) : bool :=
  match l with
  | x :: (y :: _) as l' => match cmp x y with Lt => strictly_increasing l' | _ => false end
  | _ => true
  end.

(** [windows(2).any(|pair| pair[0] == pair[1])] *)
Fixpoint adjacent_equal (l : list A) : bool :=
  match l with
  | x :: (y :: _) as l' => match cmp x y with Eq => true | _ => adjacent_equal l' end
  | _ => false
  end.

Lemma insert_sorted_perm x l : insert_sorted x l ≡ₚ x :: l.
Proof.
  induction l as [|y l IH]; cbn [insert_sorted]; [done|]. destruct (cmp x y); [done|done|].
  rewrite IH. constructor.
Qed.

Lemma sort_by_perm l : sort_by l ≡ₚ l.
Proof. induction l as [|x l IH]; [done|]. cbn [sort_by foldr]. rewrite insert_sorted_perm. by f_equiv. Qed.

(** A list in strict order is left alone, and has no equal neighbours. *)
Lemma sort_by_increasing l : strictly_increasing l = true -> sort_by l = l.
Proof.
  induction l as [|x l IH]; [done|]. intros H. cbn [sort_by foldr]. fold (sort_by l).
  destruct l as [|y l]; [done|]. cbn [strictly_increasing] in H. destruct (cmp x y) eqn:E; [done| |done].
  rewrite IH by done. cbn. by rewrite E.
Qed.

Lemma increasing_distinct l : strictly_increasing l = true -> adjacent_equal l = false.
Proof.
  induction l as [|x l IH]; [done|]. destruct l as [|y l]; [done|]. cbn [strictly_increasing adjacent_equal].
  destruct (cmp x y); [done|exact IH|done].
Qed.

(** A sorted list without equal neighbours is in strict order. *)
Section sorted.
Context (cmp_opp : forall x y, cmp y x = CompOpp (cmp x y)).

Fixpoint ordered (l : list A) : bool :=
  match l with
  | x :: (y :: _) as l' => match cmp x y with Gt => false | _ => ordered l' end
  | _ => true
  end.

Lemma insert_sorted_ordered x l : ordered l = true -> ordered (insert_sorted x l) = true.
Proof.
  induction l as [|y l IH]; [done|]. intros H. cbn [insert_sorted].
  destruct (cmp x y) eqn:E; cbn [ordered]; rewrite ?E; [done|done|].
  assert (Hyx : cmp y x = Lt) by (by rewrite cmp_opp, E).
  destruct l as [|z l]; cbn [insert_sorted ordered] in *; [by rewrite Hyx|].
  destruct (cmp y z) eqn:Eyz; try done; specialize (IH H);
    destruct (cmp x z) eqn:Exz; cbn [ordered] in *; rewrite ?Hyx, ?Exz, ?Eyz in *; done.
Qed.

Lemma sort_by_ordered l : ordered (sort_by l) = true.
Proof. induction l as [|x l IH]; [done|]. cbn [sort_by foldr]. by apply insert_sorted_ordered. Qed.

Lemma sort_by_strict l : adjacent_equal (sort_by l) = false -> strictly_increasing (sort_by l) = true.
Proof.
  pose proof (sort_by_ordered l) as H. revert H. generalize (sort_by l) as k.
  induction k as [|x k IH]; [done|]. destruct k as [|y k]; [done|]. cbn [ordered adjacent_equal strictly_increasing].
  destruct (cmp x y); [done|exact IH|done].
Qed.
End sorted.

(** In a transitive strict order the elements are distinct. *)
Lemma increasing_NoDup l : (forall x, cmp x x <> Lt) -> (forall x y z, cmp x y = Lt -> cmp y z = Lt -> cmp x z = Lt) ->
  strictly_increasing l = true -> NoDup l.
Proof.
  intros Hi Ht. enough (strictly_increasing l = true -> NoDup l /\ forall x y, head l = Some x -> y ∈ tail l -> cmp x y = Lt)
    as H by (intros Hl; by apply H).
  induction l as [|x l IH]; intros Hl; [split; [constructor|done]|].
  destruct l as [|y l]; [split; [apply NoDup_singleton|by intros ? ? _ ?%not_elem_of_nil]|].
  cbn [strictly_increasing] in Hl. destruct (cmp x y) eqn:E; try done. destruct (IH Hl) as [Hn Hy].
  assert (forall z, z ∈ y :: l -> cmp x z = Lt) as Hx.
  { intros z [->|Hz]%elem_of_cons; [done|]. eapply Ht; [exact E|]. by apply Hy. }
  split.
  - constructor; [|done]. intros Hin. by apply (Hi x), Hx.
  - intros a z [= <-]. apply Hx.
Qed.
End sort.

Lemma lex_trans a : forall b c, lex a b = Lt -> lex b c = Lt -> lex a c = Lt.
Proof.
  induction a as [|x a IH]; intros [|y b] [|z c]; cbn [lex]; try done.
  destruct (Z.compare_spec (byte_to_Z x) (byte_to_Z y)), (Z.compare_spec (byte_to_Z y) (byte_to_Z z)),
    (Z.compare_spec (byte_to_Z x) (byte_to_Z z)); try done; try lia. apply IH.
Qed.
