(* ===== verification/PrincipalFacts.v ===== *)
(** * Principal facts

    [riffdb-types/src/principal_fact.rs]: the named facts of a capability that
    row policies read, as a bounded set with one canonical encoding, and the
    narrowing of a fact set on delegation.  A list-valued fact is a set of scalars in the
    order of their encodings. *)

From S2P Require Import Prelude Decimal Value Reader Codec CodecEncode CodecDecode Evaluate Framing Names Text Results Sort.
From Stdlib Require Import Strings.String Strings.Byte.
From stdpp Require Import list strings.

Local Open Scope Z_scope.

Abbreviation PRINCIPAL_FACT_SET_VERSION_V1 := 1.
Abbreviation MAX_PRINCIPAL_FACTS_V1 := 32.
Abbreviation MAX_PRINCIPAL_FACT_VALUES_V1 := 64.
Abbreviation MAX_PRINCIPAL_FACT_BYTES_V1 := 65536.
Abbreviation MAX_PRINCIPAL_FACT_NAME_BYTES_V1 := 256.

Definition FACT_SET_MAGIC : list byte := list_byte_of_string "RIFFDB-PRINCIPAL-FACTS" ++ [x00].

Inductive PrincipalFactError :=
  | PF_InvalidName
  | PF_InvalidValue
  | PF_LimitExceeded
  | PF_Duplicate
  | PF_InvalidEncoding.

Abbreviation Facts A := (result PrincipalFactError A).

(** ** One fact *)
Record CapabilityPrincipalFactV1 := mkFact {
  pf_name : list byte;
  pf_value : CanonicalValue;
  pf_encoded_value : list byte;
}.

Definition is_name_byte (b : byte) : bool := bool_decide (b = "_"%byte) || is_ascii_alphanumeric b.

Definition validate_fact_name (name : list byte) : Facts unit :=
  match name with
  | [] => Err PF_InvalidName
  | first :: rest =>
      if (MAX_PRINCIPAL_FACT_NAME_BYTES_V1 <? zlen name) ||
         negb (bool_decide (first = "_"%byte) || is_ascii_alphabetic first) ||
         existsb (fun b => negb (is_name_byte b)) rest
      then Err PF_InvalidName
      else Ok tt
  end.

Definition is_scalar (value : CanonicalValue) : bool :=
  match value with
  | VBool _ | VI64 _ | VU64 _ | VDecimal _ | VMoney _ | VString _ | VBytes _ | VTimestamp _ | VDate _ | VUuid _
  | VEnum _ _ => true
  | VNull | VList _ | VRecord _ | VVector _ => false
  end.

(** A member with its encoding. *)
Definition encoded_member (member : CanonicalValue) : Facts (list byte * CanonicalValue) :=
  if negb (is_scalar member) then Err PF_InvalidValue
  else
    bytes ← map_err (fun _ => PF_InvalidEncoding) (encode_canonical_value member);
    Ok (bytes, member).

Definition member_cmp (a b : list byte * CanonicalValue) : comparison := lex (fst a) (fst b).

Definition canonicalize_value (value : CanonicalValue) : Facts CanonicalValue :=
  match value with
  | VList values =>
      if MAX_PRINCIPAL_FACT_VALUES_V1 <? zlen values then Err PF_LimitExceeded
      else
        members ← mapM encoded_member values;
        let members := sort_by member_cmp members in
        if adjacent_equal member_cmp members then Err PF_Duplicate
        else
          values ← map_err (fun _ => PF_InvalidValue) (canonical_list_new (map snd members));
          Ok (VList values)
  | scalar => if is_scalar scalar then Ok scalar else Err PF_InvalidValue
  end.

Definition fact_new (name : list byte) (value : CanonicalValue) : Facts CapabilityPrincipalFactV1 :=
  _ ← validate_fact_name name;
  value ← canonicalize_value value;
  encoded_value ← map_err (fun _ => PF_InvalidEncoding) (encode_canonical_value value);
  if MAX_PRINCIPAL_FACT_BYTES_V1 <? zlen encoded_value then Err PF_LimitExceeded
  else Ok (mkFact name value encoded_value).

Definition fact_is_narrowing_of (child parent : CapabilityPrincipalFactV1) : bool :=
  if negb (bool_decide (pf_name child = pf_name parent)) then false
  else
    match pf_value child, pf_value parent with
    | VList child, VList parent => forallb (fun candidate => existsb (fun value => value_eqb value candidate) parent) child
    | _, _ => bool_decide (pf_encoded_value child = pf_encoded_value parent)
    end.

(** ** Fact sets *)
Record CapabilityPrincipalFactsV1 := mkFacts {
  ps_facts : list CapabilityPrincipalFactV1;
  ps_canonical_bytes : list byte;
}.

Definition push_len (bytes : list byte) (value : Z) : Facts (list byte) :=
  value ← ok_or (u_checked 32 value) PF_LimitExceeded;
  Ok (bytes ++ be_bytes 4 value).

Definition push_bytes (bytes value : list byte) : Facts (list byte) :=
  bytes ← push_len bytes (zlen value);
  Ok (bytes ++ value).

(** The loop over the facts. *)
Fixpoint push_facts (bytes : list byte) (facts : list CapabilityPrincipalFactV1) : Facts (list byte) :=
  match facts with
  | [] => Ok bytes
  | fact :: rest =>
      bytes ← push_bytes bytes (pf_name fact);
      bytes ← push_bytes bytes (pf_encoded_value fact);
      if MAX_PRINCIPAL_FACT_BYTES_V1 <? zlen bytes then Err PF_LimitExceeded else push_facts bytes rest
  end.

Definition encode_set (facts : list CapabilityPrincipalFactV1) : Facts (list byte) :=
  bytes ← push_len (FACT_SET_MAGIC ++ be_bytes 4 PRINCIPAL_FACT_SET_VERSION_V1) (zlen facts);
  push_facts bytes facts.

Definition name_cmp (a b : CapabilityPrincipalFactV1) : comparison := lex (pf_name a) (pf_name b).

Definition facts_new (facts : list CapabilityPrincipalFactV1) : Facts CapabilityPrincipalFactsV1 :=
  if MAX_PRINCIPAL_FACTS_V1 <? zlen facts then Err PF_LimitExceeded
  else
    let facts := sort_by name_cmp facts in
    if adjacent_equal name_cmp facts then Err PF_Duplicate
    else
      canonical_bytes ← encode_set facts;
      if MAX_PRINCIPAL_FACT_BYTES_V1 <? zlen canonical_bytes then Err PF_LimitExceeded
      else Ok (mkFacts facts canonical_bytes).

(** [binary_search_by] over distinct names in order. *)
Definition internal_fact (facts : CapabilityPrincipalFactsV1) (name : list byte) : option CapabilityPrincipalFactV1 :=
  find (fun fact => bool_decide (pf_name fact = name)) (ps_facts facts).

Definition facts_is_narrowing_of (child parent : CapabilityPrincipalFactsV1) : bool :=
  forallb (fun fact =>
    match internal_fact parent (pf_name fact) with
    | Some parent => fact_is_narrowing_of fact parent
    | None => false
    end) (ps_facts child).

(** ** Decoding *)
Abbreviation Read := (SE Decoder PrincipalFactError).

Definition fact_take : Z -> Read (list byte) := read_or PF_InvalidEncoding.
Definition fact_u32 : Read Z := read_unsigned_or PF_InvalidEncoding 4.

Definition fact_len (maximum : Z) : Read Z :=
  len ← fact_u32;
  _ ← guard_err (maximum <? len) PF_LimitExceeded;
  mret len.

Definition fact_bytes (maximum : Z) : Read (list byte) :=
  len ← fact_len maximum;
  fact_take len.

(** The body of the loop over the facts. *)
Definition decode_fact : Read CapabilityPrincipalFactV1 :=
  name ← fact_bytes MAX_PRINCIPAL_FACT_NAME_BYTES_V1;
  _ ← guard_err (negb (utf8_valid name)) PF_InvalidEncoding;
  bytes ← fact_bytes MAX_PRINCIPAL_FACT_BYTES_V1;
  value ← lift (map_err (fun _ => PF_InvalidEncoding) (decode_canonical_value bytes));
  lift (fact_new name value).

Fixpoint decode_facts (count : nat) : Read (list CapabilityPrincipalFactV1) :=
  match count with
  | O => mret []
  | S count => fact ← decode_fact; rest ← decode_facts count; mret (fact :: rest)
  end.

Definition decode_fact_set : Read (list CapabilityPrincipalFactV1) :=
  magic ← fact_take (zlen FACT_SET_MAGIC);
  _ ← guard_err (negb (bool_decide (magic = FACT_SET_MAGIC))) PF_InvalidEncoding;
  version ← fact_u32;
  _ ← guard_err (negb (version =? PRINCIPAL_FACT_SET_VERSION_V1)) PF_InvalidEncoding;
  count ← fact_len MAX_PRINCIPAL_FACTS_V1;
  decode_facts (Z.to_nat count).

Definition decode_canonical (bytes : list byte) : Facts CapabilityPrincipalFactsV1 :=
  if MAX_PRINCIPAL_FACT_BYTES_V1 <? zlen bytes then Err PF_LimitExceeded
  else
    match decode_fact_set (mkDecoder bytes 0) with
    | (_, Err e) => Err e
    | (s, Ok facts) =>
        if negb (dec_position s =? zlen bytes) then Err PF_InvalidEncoding
        else
          decoded ← facts_new facts;
          if negb (bool_decide (ps_canonical_bytes decoded = bytes)) then Err PF_InvalidEncoding else Ok decoded
    end.

(** ** Canonical values *)
Lemma encoded_member_self m p : encoded_member m = Ok p -> encoded_member p.2 = Ok p.
Proof.
  unfold encoded_member. destruct (is_scalar m) eqn:Es; cbn [negb]; [|done].
  intros (b & Hb & [= <-])%result_bind_ok. cbn [snd]. by rewrite Es, Hb.
Qed.

(** Canonicalisation is idempotent. *)
Lemma canonicalize_idem v w : canonicalize_value v = Ok w -> canonicalize_value w = Ok w.
Proof.
  destruct v as [| | | | | | | | | | | |l| |]; cbn [canonicalize_value is_scalar]; intros H; inv_result; try done.
  destruct (Z.ltb_spec MAX_PRINCIPAL_FACT_VALUES_V1 (zlen l)) as [|Hlen]; [done|].
  apply result_bind_ok in H as (members & Hm%mapM_ok & H).
  destruct (adjacent_equal _ _) eqn:Ea; [done|].
  apply result_bind_ok in H as (values & Hv%map_err_ok & [= <-]).
  pose proof (sort_by_strict member_cmp (fun x y => lex_antisym _ _) members Ea) as Hs.
  pose proof (sort_by_perm member_cmp members) as Hp.
  apply canonical_list_new_ok in Hv as Hv'. destruct Hv' as [-> _].
  set (sorted := sort_by member_cmp members) in *. cbn [canonicalize_value].
  assert (zlen (map snd sorted) = zlen l) as ->
    by (rewrite zlen_map; unfold zlen; by rewrite (Permutation_length Hp), <- (Forall2_length _ _ _ Hm)).
  destruct (Z.ltb_spec MAX_PRINCIPAL_FACT_VALUES_V1 (zlen l)); [lia|].
  assert (mapM encoded_member (map snd sorted) = Ok sorted) as ->.
  { apply mapM_ok, Forall2_fmap_l, Forall_Forall2_diag. apply Permutation_sym in Hp. rewrite <- Hp.
    eapply Forall2_right; [exact Hm|]. intros x y _. apply encoded_member_self. }
  change (mbind _ (Ok sorted)) with ((let members := sort_by member_cmp sorted in
    if adjacent_equal member_cmp members then Err PF_Duplicate
    else values ← map_err (fun _ => PF_InvalidValue) (canonical_list_new (map snd members)); Ok (VList values))).
  cbv zeta. rewrite sort_by_increasing, increasing_distinct by done. by rewrite Hv.
Qed.

Lemma canonicalize_wf v w : value_wf v -> canonicalize_value v = Ok w -> value_wf w.
Proof.
  destruct v as [| | | | | | | | | | | |l| |]; cbn [canonicalize_value is_scalar]; intros Hwf H; inv_result; try done.
  destruct (Z.ltb_spec MAX_PRINCIPAL_FACT_VALUES_V1 (zlen l)) as [|Hlen]; [done|].
  apply result_bind_ok in H as (members & Hm%mapM_ok & H). destruct (adjacent_equal _ _); [done|].
  apply result_bind_ok in H as (values & Hv%map_err_ok & [= <-]).
  apply canonical_list_new_ok in Hv as (-> & Hl & Hd). unfold value_wf in *. cbn [value_wfb] in *.
  rewrite !andb_true_iff, !Z.leb_le in *. split_and!; [done|done|]. destruct Hwf as [_ Hwf].
  apply forallb_forall. intros x (p & <- & Hp)%in_map_iff. apply list_elem_of_In in Hp.
  rewrite sort_by_perm in Hp. apply list_elem_of_lookup in Hp as [i Hi].
  eapply Forall2_lookup_r in Hm as (m & Hlm & Hm); [|exact Hi].
  unfold encoded_member in Hm. destruct (is_scalar m); cbn [negb] in Hm; [|done].
  apply result_bind_ok in Hm as (b & _ & [= <-]). cbn [snd].
  eapply forallb_In; [exact Hwf|]. by eapply list_elem_of_lookup_2.
Qed.

(** ** Checked facts *)
(** What [fact_new] gives of a well-formed value: a fact that it gives again. *)
Record fact_wf (f : CapabilityPrincipalFactV1) : Prop := {
  fw_name : validate_fact_name (pf_name f) = Ok tt;
  fw_again : fact_new (pf_name f) (pf_value f) = Ok f;
  fw_value : value_wf (pf_value f);
  fw_encoded : pf_encoded_value f = ser (pf_value f);
  fw_bound : zlen (pf_encoded_value f) <= MAX_PRINCIPAL_FACT_BYTES_V1;
}.

Lemma fact_new_wf n v f : value_wf v -> fact_new n v = Ok f -> fact_wf f /\ pf_name f = n.
Proof.
  intros Hwf H. unfold fact_new in H.
  apply result_bind_ok in H as ([] & Hn & (w & Hw & (b & Hb & H)%result_bind_ok)%result_bind_ok).
  destruct (Z.ltb_spec MAX_PRINCIPAL_FACT_BYTES_V1 (zlen b)) as [|Hlen]; [done|]. injection H as <-.
  pose proof (canonicalize_wf _ _ Hwf Hw) as Hwf'. apply map_err_ok in Hb.
  split; [|done]. constructor; cbn [pf_name pf_value pf_encoded_value]; [done| |done| |done].
  - unfold fact_new. rewrite Hn. cbn. rewrite (canonicalize_idem _ _ Hw). cbn. rewrite Hb. cbn.
    destruct (Z.ltb_spec MAX_PRINCIPAL_FACT_BYTES_V1 (zlen b)); [lia|done].
  - pose proof (encode_canonical_value_exact w Hwf') as He. rewrite Hb in He. by destruct He.
Qed.

Lemma name_byte_ascii b : is_name_byte b = true \/ is_ascii_alphabetic b = true -> in_rangeb 0 127 b = true.
Proof. destruct b; vm_compute; intuition congruence. Qed.

Lemma fact_name_valid n : validate_fact_name n = Ok tt ->
  utf8_valid n = true /\ zlen n <= MAX_PRINCIPAL_FACT_NAME_BYTES_V1.
Proof.
  destruct n as [|b n]; cbn [validate_fact_name]; [done|].
  destruct (Z.ltb_spec MAX_PRINCIPAL_FACT_NAME_BYTES_V1 (zlen (b :: n))) as [|Hlen]; [done|]. cbn [orb].
  destruct (negb _) eqn:Eb; [done|]. apply negb_false_iff in Eb. cbn [orb].
  destruct (existsb _ n) eqn:En; [done|]. intros _. split; [|lia].
  assert (in_rangeb 0 127 b = true) as Hb.
  { apply name_byte_ascii. apply orb_true_iff in Eb as [Eb|Eb]; [left|by right]. unfold is_name_byte. by rewrite Eb. }
  cbn [utf8_valid]. rewrite Hb. clear Eb Hb Hlen. induction n as [|c n IH]; [done|].
  cbn [existsb] in En. apply orb_false_iff in En as [Ec%negb_false_iff En].
  cbn [utf8_valid]. rewrite name_byte_ascii by (by left). by apply IH.
Qed.

(** ** The encoding of a set *)
Definition fact_ser (f : CapabilityPrincipalFactV1) : list byte := prefixed 4 (pf_name f) ++ prefixed 4 (pf_encoded_value f).

Lemma push_bytes_ok b v r : push_bytes b v = Ok r -> r = b ++ prefixed 4 v.
Proof.
  intros (c & (z & [-> _]%ok_or_ok%u_checked_Some & [= <-])%result_bind_ok & [= <-])%result_bind_ok.
  unfold prefixed. by rewrite <- app_assoc.
Qed.

Lemma push_facts_ok l : forall b r, push_facts b l = Ok r -> r = b ++ flat_map fact_ser l.
Proof.
  induction l as [|f l IH]; cbn [push_facts flat_map]; intros b r H; [injection H as <-; by rewrite app_nil_r|].
  apply result_bind_ok in H as (c & ->%push_bytes_ok & (d & ->%push_bytes_ok & H)%result_bind_ok).
  destruct (_ <? _); [done|]. apply IH in H as ->. unfold fact_ser. by rewrite <- !app_assoc.
Qed.

Lemma encode_set_ok l r : encode_set l = Ok r ->
  r = FACT_SET_MAGIC ++ be_bytes 4 PRINCIPAL_FACT_SET_VERSION_V1 ++ be_bytes 4 (zlen l) ++ flat_map fact_ser l.
Proof.
  intros (b & (z & [-> _]%ok_or_ok%u_checked_Some & [= <-])%result_bind_ok & ->%push_facts_ok)%result_bind_ok.
  reflexivity.
Qed.

(** ** Reading it back *)
Lemma parses_len maximum z : 0 <= z <= maximum -> maximum <= 65536 -> parses (fact_len maximum) (be_bytes 4 z) z.
Proof.
  intros Hz Hm. eapply parses_last; [apply parses_unsigned; split; change (2 ^ (8 * Z.of_nat 4)) with 4294967296; lia|].
  eapply parses_bind_nil; [apply parses_guard; lia|apply parses_ret].
Qed.

Lemma parses_bytes maximum b : zlen b <= maximum -> maximum <= 65536 -> parses (fact_bytes maximum) (prefixed 4 b) b.
Proof.
  intros Hb Hm. eapply parses_bind; [apply parses_len; [|done]; pose proof (zlen_nonneg b); lia|].
  by apply parses_read.
Qed.

Lemma parses_fact f : fact_wf f -> parses decode_fact (fact_ser f) f.
Proof.
  intros [Hn Ha Hv He Hb]. apply fact_name_valid in Hn as [Hu Hl]. unfold fact_ser.
  eapply parses_bind; [by apply parses_bytes|].
  eapply parses_bind_nil; [apply parses_guard; by rewrite Hu|].
  eapply parses_last; [by apply parses_bytes|].
  eapply parses_bind_nil; [apply parses_lift|by apply parses_lift].
  apply map_err_ok. rewrite He in *. apply decode_of_value; [done|]. unfold MAX_CANONICAL_DOCUMENT_BYTES. lia.
Qed.

Lemma parses_facts l : Forall fact_wf l -> parses (decode_facts (length l)) (flat_map fact_ser l) l.
Proof.
  induction 1 as [|f l Hf _ IH]; cbn [length decode_facts flat_map]; [apply parses_ret|].
  eapply parses_bind; [by apply parses_fact|]. eapply parses_last; [exact IH|apply parses_ret].
Qed.

Lemma parses_set l : Forall fact_wf l -> zlen l <= MAX_PRINCIPAL_FACTS_V1 ->
  parses decode_fact_set (FACT_SET_MAGIC ++ be_bytes 4 PRINCIPAL_FACT_SET_VERSION_V1 ++ be_bytes 4 (zlen l) ++
                          flat_map fact_ser l) l.
Proof.
  intros Hf Hl. eapply parses_bind; [by apply parses_read|].
  eapply parses_bind_nil; [apply parses_guard; by rewrite bool_decide_eq_true_2|].
  eapply parses_bind; [apply parses_unsigned; by vm_compute|].
  eapply parses_bind_nil; [by apply parses_guard|].
  eapply parses_bind; [apply parses_len; [pose proof (zlen_nonneg l)|]; lia|].
  unfold zlen. rewrite Nat2Z.id. by apply parses_facts.
Qed.

(** A checked set is in strict order of its names, within its bounds. *)
Lemma facts_new_ok l fs : facts_new l = Ok fs ->
  ps_facts fs = sort_by name_cmp l /\ strictly_increasing name_cmp (ps_facts fs) = true /\
  zlen (ps_facts fs) <= MAX_PRINCIPAL_FACTS_V1 /\ encode_set (ps_facts fs) = Ok (ps_canonical_bytes fs) /\
  zlen (ps_canonical_bytes fs) <= MAX_PRINCIPAL_FACT_BYTES_V1.
Proof.
  unfold facts_new. destruct (Z.ltb_spec MAX_PRINCIPAL_FACTS_V1 (zlen l)) as [|Hl]; [done|].
  destruct (adjacent_equal _ _) eqn:Ea; [done|]. intros (b & Hb & H)%result_bind_ok.
  destruct (Z.ltb_spec MAX_PRINCIPAL_FACT_BYTES_V1 (zlen b)); [done|]. injection H as <-. cbn [ps_facts ps_canonical_bytes].
  split_and!; [done| | |done|done].
  - apply sort_by_strict; [|done]. intros x y. apply lex_antisym.
  - unfold zlen in *. by rewrite (Permutation_length (sort_by_perm name_cmp l)).
Qed.

Lemma facts_new_self l fs : facts_new l = Ok fs -> facts_new (ps_facts fs) = Ok fs.
Proof.
  intros (_ & Hs & Hl & He & Hb)%facts_new_ok. unfold facts_new.
  destruct (Z.ltb_spec MAX_PRINCIPAL_FACTS_V1 (zlen (ps_facts fs))); [lia|].
  rewrite sort_by_increasing, increasing_distinct by done. rewrite He. cbn.
  destruct (Z.ltb_spec MAX_PRINCIPAL_FACT_BYTES_V1 (zlen (ps_canonical_bytes fs))); [lia|]. by destruct fs.
Qed.

(** The facts of given names and values. *)
Definition build_facts (inputs : list (list byte * CanonicalValue)) : Facts CapabilityPrincipalFactsV1 :=
  facts ← mapM (fun '(name, value) => fact_new name value) inputs;
  facts_new facts.

Lemma build_facts_wf inputs fs : Forall (fun p => value_wf p.2) inputs -> build_facts inputs = Ok fs ->
  Forall fact_wf (ps_facts fs) /\ facts_new (ps_facts fs) = Ok fs.
Proof.
  intros Hw (facts & Hm%mapM_ok & H)%result_bind_ok. split; [|by eapply facts_new_self].
  apply facts_new_ok in H as [-> _]. rewrite sort_by_perm. eapply Forall2_right; [exact Hm|].
  intros [n v] f Hin Hf. rewrite Forall_forall in Hw. by eapply fact_new_wf in Hf as [Hf _]; [|apply (Hw _ Hin)].
Qed.

(** C34. The canonical encoding of principal facts: the bytes of every fact set
    built from well-formed values decode to that set, and any bytes that decode
    are the canonical bytes of the decoded set, whose facts are in strict order
    of their names and within the bounds. *)
Theorem principal_facts_roundtrip :
  (forall inputs fs, Forall (fun p => value_wf p.2) inputs -> build_facts inputs = Ok fs ->
     decode_canonical (ps_canonical_bytes fs) = Ok fs) /\
  (forall bytes fs, decode_canonical bytes = Ok fs ->
     ps_canonical_bytes fs = bytes /\ strictly_increasing name_cmp (ps_facts fs) = true /\
     zlen (ps_facts fs) <= MAX_PRINCIPAL_FACTS_V1 /\ zlen bytes <= MAX_PRINCIPAL_FACT_BYTES_V1).
Proof.
  split.
  - intros inputs fs Hw Hb. apply build_facts_wf in Hb as [Hf Hn]; [|done].
    pose proof (facts_new_ok _ _ Hn) as (_ & _ & Hl & He%encode_set_ok & Hz).
    unfold decode_canonical. destruct (Z.ltb_spec MAX_PRINCIPAL_FACT_BYTES_V1 (zlen (ps_canonical_bytes fs))); [lia|].
    pose proof (parses_set _ Hf Hl [] []) as Hp. rewrite <- He, app_nil_r in Hp.
    change (mkDecoder ?b 0) with (at_split [] b).
    rewrite Hp by (change (zlen (@nil byte)) with 0; unfold usize_max; lia).
    cbn [at_split dec_position app]. rewrite Z.eqb_refl. cbn [negb]. rewrite Hn. cbn.
    by rewrite bool_decide_eq_true_2.
  - intros bytes fs. unfold decode_canonical.
    destruct (Z.ltb_spec MAX_PRINCIPAL_FACT_BYTES_V1 (zlen bytes)) as [|Hz]; [done|].
    destruct (decode_fact_set _) as [s [facts|e]]; [|done]. destruct (negb _); [done|].
    intros (decoded & Hd & H)%result_bind_ok. case_bool_decide; [|done]. injection H as <-.
    apply facts_new_ok in Hd as (_ & Hs & Hl & _). by subst.
Qed.

Definition sample_facts : list (list byte * CanonicalValue) :=
  [(list_byte_of_string "teams", VList [VString (list_byte_of_string "ops"); VString (list_byte_of_string "dev")]);
   (list_byte_of_string "level", VU64 3)].

Lemma principal_facts_roundtrip_witness :
  exists fs, build_facts sample_facts = Ok fs /\ decode_canonical (ps_canonical_bytes fs) = Ok fs.
Proof.
  destruct (build_facts sample_facts) as [fs|e] eqn:E; [|vm_compute in E; discriminate E].
  exists fs. split; [reflexivity|]. apply (proj1 principal_facts_roundtrip sample_facts fs); [|exact E].
  repeat constructor.
Defined.

(** ** Narrowing *)
(** A narrowed fact has the same name, and the same value or fewer members. *)
Lemma fact_narrowing_spec c p : fact_wf c -> fact_wf p ->
  fact_is_narrowing_of c p = true <->
  pf_name c = pf_name p /\
  (pf_value c = pf_value p \/ exists l k, pf_value c = VList l /\ pf_value p = VList k /\ l ⊆ k).
Proof.
  intros Hc Hp. unfold fact_is_narrowing_of. case_bool_decide as En; cbn [negb]; [|naive_solver].
  assert (pf_encoded_value c = pf_encoded_value p <-> pf_value c = pf_value p) as Heq.
  { rewrite (fw_encoded _ Hc), (fw_encoded _ Hp). split; [|by intros ->].
    apply ser_inj; [apply Hc|apply Hp|]. rewrite <- (fw_encoded _ Hc). pose proof (fw_bound _ Hc). unfold usize_max. lia. }
  assert (forall l k, forallb (fun v => existsb (fun w => value_eqb w v) k) l = true <-> l ⊆ k) as Hsub.
  { intros l k. change (l ⊆ k) with (forall x, x ∈ l -> x ∈ k). rewrite forallb_forall. setoid_rewrite existsb_exists.
    setoid_rewrite <- list_elem_of_In. setoid_rewrite value_eqb_eq. naive_solver. }
  destruct (pf_value c) as [| | | | | | | | | | | |l| |] eqn:Ec, (pf_value p) as [| | | | | | | | | | | |k| |] eqn:Ep;
    rewrite ?Hsub, ?bool_decide_eq_true, ?Heq;
    (split; [intros H; split; [done|]; by (left + (right; eexists _, _))|]);
    (intros [_ [H|(? & ? & H1 & H2 & ?)]]; [try done|try discriminate H1; try discriminate H2]); try by injection H as ->.
  all: by injection H1 as ->; injection H2 as ->.
Qed.

(** A fact of a narrowed set is one of the wider set, with the same value or
    fewer members. *)
Lemma narrowed_fact child parent name f :
  Forall fact_wf (ps_facts child) -> Forall fact_wf (ps_facts parent) -> facts_is_narrowing_of child parent = true ->
  internal_fact child name = Some f ->
  exists g, internal_fact parent name = Some g /\
    (pf_value f = pf_value g \/ exists l k, pf_value f = VList l /\ pf_value g = VList k /\ l ⊆ k).
Proof.
  rewrite !Forall_forall. intros Hc Hp Hn [Hf Hname%bool_decide_eq_true]%find_In.
  pose proof (forallb_In _ _ _ Hn Hf) as H. cbv beta in H. rewrite Hname in H.
  destruct (internal_fact parent name) as [g|] eqn:Eg; [|done]. exists g. split; [done|].
  apply find_In in Eg as [Hg _]. apply fact_narrowing_spec in H as [_ H]; auto.
Qed.
