(* ===== verification/Schema.v ===== *)
(** * Contract schemas

    [riffdb-contract-ir/src/schema.rs], [value_type.rs] and [error.rs]: the
    entities, events, enums and aggregates of a contract as the row policies and
    the reactive compiler read them, with the lookups by ID and by name. *)

From S2P Require Import Prelude ValueType Names Text.
From Stdlib Require Import Strings.String Strings.Byte.
From stdpp Require Import list strings.

Local Open Scope Z_scope.

Record FieldSchema := mkFieldSchema { fd_id : Z; fd_name : list byte; fd_value_type : ValueType }.
Record EnumVariantSchema := mkEnumVariant { vr_id : Z; vr_name : list byte }.
Record EnumSchema := mkEnum { en_id : Z; en_name : list byte; en_variants : list EnumVariantSchema }.
Record IndexSchema := mkIndex { ix_id : Z; ix_fields : list Z }.
Record EntitySchema := mkEntity {
  et_id : Z;
  et_name : list byte;
  et_record : list FieldSchema;
  et_primary_key_fields : list Z;
  et_indexes : list IndexSchema;
}.
Record EventSchema := mkEventSchema {
  ev_id : Z;
  ev_name : list byte;
  ev_payload : list FieldSchema;
  ev_partition : option (list Z);
}.
Record AggregateSchema := mkAggregate { ag_id : Z; ag_root : Z; ag_children : list Z }.

(** [RecordSchema::field]: [binary_search_by_key] over distinct IDs in order. *)
Definition record_field (fields : list FieldSchema) (id : Z) : option FieldSchema :=
  find (fun f => fd_id f =? id) fields.

Definition named {A} (name : A -> list byte) (wanted : list byte) (l : list A) : option A :=
  find (fun x => bool_decide (name x = wanted)) l.

Record SchemaIr := mkSchema {
  sc_entities : list EntitySchema;
  sc_aggregates : list AggregateSchema;
}.

Definition schema_entity (s : SchemaIr) (id : Z) : option EntitySchema :=
  find (fun e => et_id e =? id) (sc_entities s).

Definition owns (a : AggregateSchema) (entity : Z) : bool :=
  (entity =? ag_root a) || bool_decide (entity ∈ ag_children a).

Definition aggregate_for_entity (s : SchemaIr) (entity : Z) : option AggregateSchema :=
  find (fun a => owns a entity) (sc_aggregates s).

Definition validate_source_name (value : list byte) (kind : string) : result IrValidationError unit :=
  _ ← checked_len kind (zlen value) 256;
  match value with
  | [] => Err (IR_InvalidName kind)
  | first :: rest =>
      if bool_decide (value = list_byte_of_string "tx") ||
         negb (is_ascii_alphabetic first || bool_decide (first = "_"%byte)) ||
         existsb (fun b => negb (is_ascii_alphanumeric b || bool_decide (b = "_"%byte))) rest
      then Err (IR_InvalidName kind)
      else Ok tt
  end.
