(* ===== verification/KeySchema.v ===== *)
(** * Schema-directed keys

    [riffdb-contract-ir/src/key_schema.rs]: the checked schemas of entity,
    partition, conflict and index keys, and the codec they direct.  The builders
    are those of [riffdb-types/src/key.rs].  The decoders run one walk over a
    cursor in two forms: one collects the component values, the other drops them
    (the source's [RETAIN]). *)

From S2P Require Import Prelude Decimal Value Reader Key ValueType Names Results Sort.
From Stdlib Require Import Strings.String Strings.Byte.
From stdpp Require Import list strings.

Local Open Scope Z_scope.

Abbreviation KEY_CODEC_VERSION_V1 := 1.
Abbreviation KEY_CODEC_VERSION_V2 := 2.
Abbreviation Checked A := (result IrValidationError A).

(** ** Component schemas *)
Inductive KeyComponentCodecV1 := KC_Canonical | KC_OrderedBytes.

#[export] Instance codec_eq_dec : EqDecision KeyComponentCodecV1.
Proof. solve_decision. Defined.

Inductive KeyPurpose :=
  | KP_Entity (owner : Z)
  | KP_Partition (owner : Z)
  | KP_Conflict (owner : Z)
  | KP_Index (index_id entity_type : Z).

#[export] Instance purpose_eq_dec : EqDecision KeyPurpose.
Proof. solve_decision. Defined.

Record KeyComponentSchema := mkKeyComponent {
  kc_value_type : ValueType;
  kc_enum_variants : list Z;
  kc_codec : KeyComponentCodecV1;
  kc_maximum_payload_bytes : Z;
}.

(** [ValueType::byte_bound] *)
Definition byte_bound (t : ValueType) : option Z :=
  match t with T_String maximum | T_Bytes maximum => Some maximum | _ => None end.

Definition is_bytes (t : ValueType) : bool := match t with T_Bytes _ => true | _ => false end.
Definition is_enum (t : ValueType) : bool := match t with T_Enum _ => true | _ => false end.

Definition authoritative_component_maximum (value_type : ValueType) (codec : KeyComponentCodecV1) : Checked Z :=
  if bool_decide (codec = KC_OrderedBytes) then
    maximum ← ok_or (maximum ← byte_bound value_type; if is_bytes value_type then Some maximum else None)
                (IR_InvalidKey "ordered key component must be bounded bytes");
    ok_or (value ← u_checked 64 (maximum * 2); usize_checked_add value 2) (IR_SizeOverflow "ordered key component")
  else
    match value_type with
    | T_Bool => Ok 1
    | T_I64 | T_U64 => Ok 8
    | T_Timestamp => Ok 12
    | T_Date | T_Enum _ => Ok 4
    | T_Uuid => Ok 16
    | T_String bound | T_Bytes bound => ok_or (usize_checked_add bound 4) (IR_SizeOverflow "key component")
    | _ => Err (IR_InvalidKey "type is not a v1 authoritative key scalar")
    end.

Definition component_new (value_type : ValueType) (enum_variants : list Z) : Checked KeyComponentSchema :=
  if negb (is_authoritative_key_scalar value_type) then Err (IR_InvalidKey "type is not a v1 authoritative key scalar")
  else
    let enum_variants := sort_by Z.compare enum_variants in
    if adjacent_equal Z.compare enum_variants then Err (IR_NonCanonicalOrder "key enum variants")
    else
      _ ← (if is_enum value_type then
             if bool_decide (enum_variants = []) then Err (IR_Empty "key enum variants") else Ok tt
           else if negb (bool_decide (enum_variants = []))
           then Err (IR_InvalidKey "non-enum key component carries enum variants") else Ok tt);
      maximum_payload_bytes ← authoritative_component_maximum value_type KC_Canonical;
      Ok (mkKeyComponent value_type enum_variants KC_Canonical maximum_payload_bytes).

Definition component_ordered_bytes (maximum_bytes : Z) : Checked KeyComponentSchema :=
  value_type ← type_bytes maximum_bytes;
  maximum_payload_bytes ← authoritative_component_maximum value_type KC_OrderedBytes;
  Ok (mkKeyComponent value_type [] KC_OrderedBytes maximum_payload_bytes).

(** ** Key schemas *)
Inductive KeySchema :=
  mkKeySchema (purpose : KeyPurpose) (components : list KeyComponentSchema) (entity_key_schema : option KeySchema)
    (maximum_encoded_bytes : Z).

Definition ks_purpose (s : KeySchema) : KeyPurpose := let 'mkKeySchema p _ _ _ := s in p.
Definition ks_components (s : KeySchema) : list KeyComponentSchema := let 'mkKeySchema _ c _ _ := s in c.
Definition ks_entity_key_schema (s : KeySchema) : option KeySchema := let 'mkKeySchema _ _ e _ := s in e.
Definition ks_maximum_encoded_bytes (s : KeySchema) : Z := let 'mkKeySchema _ _ _ m := s in m.

Fixpoint codec_version (s : KeySchema) : Z :=
  let 'mkKeySchema _ components entity_key_schema _ := s in
  if existsb (fun component => bool_decide (kc_codec component = KC_OrderedBytes)) components ||
     match entity_key_schema with Some schema => codec_version schema =? KEY_CODEC_VERSION_V2 | None => false end
  then KEY_CODEC_VERSION_V2 else KEY_CODEC_VERSION_V1.

(** The loop over the components. *)
Fixpoint add_maximums (total : Z) (components : list KeyComponentSchema) : Checked Z :=
  match components with
  | [] => Ok total
  | component :: rest =>
      total ← ok_or (usize_checked_add total (kc_maximum_payload_bytes component)) (IR_SizeOverflow "key schema");
      add_maximums total rest
  end.

Definition complete_key_maximum (components : list KeyComponentSchema) (nested_entity_maximum : option Z) : Checked Z :=
  total ← add_maximums 6 components;
  total ← match nested_entity_maximum with
          | Some maximum =>
              ok_or (value ← usize_checked_add total 4; usize_checked_add value maximum) (IR_SizeOverflow "index key schema")
          | None => Ok total
          end;
  _ ← checked_len "maximum encoded key" total MAX_KEY_BYTES;
  Ok total.

Definition key_schema_new (purpose : KeyPurpose) (components : list KeyComponentSchema) : Checked KeySchema :=
  match purpose with
  | KP_Index _ _ => Err (IR_InvalidKey "index key schema requires its owning entity key schema")
  | _ =>
      if bool_decide (components = []) then Err (IR_Empty "key components")
      else if match purpose with KP_Partition _ => negb (zlen components =? 1) | _ => false end
      then Err (IR_InvalidKey "partition key schema must contain exactly one component")
      else
        _ ← checked_len "key components" (zlen components) 1024;
        maximum_encoded_bytes ← complete_key_maximum components None;
        Ok (mkKeySchema purpose components None maximum_encoded_bytes)
  end.

Definition key_schema_index (index_id entity_type : Z) (components : list KeyComponentSchema) (entity_key_schema : KeySchema) :
    Checked KeySchema :=
  if negb (bool_decide (ks_purpose entity_key_schema = KP_Entity entity_type))
  then Err (IR_InvalidKey "index entity key schema has the wrong owner")
  else if bool_decide (components = []) then Err (IR_Empty "index components")
  else
    _ ← checked_len "index components" (zlen components) 1024;
    maximum_encoded_bytes ← complete_key_maximum components (Some (ks_maximum_encoded_bytes entity_key_schema));
    Ok (mkKeySchema (KP_Index index_id entity_type) components (Some entity_key_schema) maximum_encoded_bytes).

(** ** Encoding *)
Abbreviation Build := (SE KeyBuilder IrValidationError).

(** [map_err] over a builder method. *)
Definition within (reason : string) (m : KB unit) : Build unit := fun s =>
  let '(s', r) := m s in (s', map_err (fun _ => IR_InvalidKey reason) r).

Definition push_value (value : CanonicalValue) (codec : KeyComponentCodecV1) : Build unit :=
  if bool_decide (codec = KC_OrderedBytes) then
    match value with
    | VBytes value => within "ordered key exceeds its checked bound" (push_ordered value)
    | _ => raise (IR_InvalidKey "ordered key component requires bytes")
    end
  else
    match value with
    | VBool value => within "key exceeds its checked bound" (push_bool value)
    | VI64 value => within "key exceeds its checked bound" (push_i64 value)
    | VU64 value => within "key exceeds its checked bound" (push_u64 value)
    | VString value => within "key exceeds its checked bound" (push_str value)
    | VBytes value => within "key exceeds its checked bound" (push_bytes value)
    | VTimestamp value => within "key exceeds its checked bound" (push_timestamp value)
    | VDate value => within "key exceeds its checked bound" (push_date value)
    | VUuid value => within "key exceeds its checked bound" (push_uuid value)
    | VEnum _ variant_id => within "key exceeds its checked bound" (push_enum_variant variant_id)
    | _ => raise (IR_InvalidKey "value is not a v1 authoritative key scalar")
    end.

(** [binary_search] over variants in order. *)
Definition validate_key_value (schema : KeyComponentSchema) (value : CanonicalValue) : Checked unit :=
  _ ← validate_value (kc_value_type schema) value;
  match value with
  | VEnum _ variant_id =>
      if bool_decide (variant_id ∈ kc_enum_variants schema) then Ok tt
      else Err (IR_InvalidKey "enum key component has an undeclared variant")
  | _ => Ok tt
  end.

Definition append_components (schemas : list KeyComponentSchema) (values : list CanonicalValue) : Build unit :=
  _ ← guard_err (negb (zlen values =? zlen schemas)) (IR_InvalidKey "wrong key component count");
  for_each (fun '(schema, value) =>
    _ ← lift (validate_key_value schema value);
    push_value value (kc_codec schema)) (zip schemas values).

(** Runs the components on a fresh builder, then finishes. *)
Definition finish_with (components : Build unit) (builder : KeyBuilder) (finish : KeyBuilder -> result KeyEncodingError (list byte))
    (reason : string) : Checked (list byte) :=
  match components builder with
  | (_, Err e) => Err e
  | (s, Ok _) => map_err (fun _ => IR_InvalidKey reason) (finish s)
  end.

Definition encode_entity (schema : KeySchema) (values : list CanonicalValue) : Checked (list byte) :=
  match ks_purpose schema with
  | KP_Entity owner =>
      finish_with (append_components (ks_components schema) values) (entity_key_builder_new owner) key_finish
        "entity key exceeds its bound"
  | _ => Err (IR_InvalidKey "not an entity key schema")
  end.

Definition encode_entity_prefix (schema : KeySchema) (values : list CanonicalValue) : Checked (list byte) :=
  match ks_purpose schema with
  | KP_Entity owner =>
      if bool_decide (values = []) || (zlen (ks_components schema) <? zlen values)
      then Err (IR_InvalidKey "entity prefix must contain leading components")
      else
        match append_components (take (length values) (ks_components schema)) values (entity_key_builder_new owner) with
        | (_, Err e) => Err e
        | (s, Ok _) => Ok (kb_bytes s)
        end
  | _ => Err (IR_InvalidKey "not an entity key schema")
  end.

Definition encode_partition (schema : KeySchema) (values : list CanonicalValue) : Checked (list byte) :=
  match ks_purpose schema with
  | KP_Partition owner =>
      finish_with (append_components (ks_components schema) values) (partition_key_builder_new owner) key_finish
        "partition key exceeds its bound"
  | _ => Err (IR_InvalidKey "not a partition key schema")
  end.

Definition encode_conflict (schema : KeySchema) (values : list CanonicalValue) : Checked (list byte) :=
  match ks_purpose schema with
  | KP_Conflict owner =>
      finish_with (append_components (ks_components schema) values) (conflict_key_builder_new owner) key_finish
        "conflict key exceeds its bound"
  | _ => Err (IR_InvalidKey "not a conflict key schema")
  end.

(** A scan prefix of an index. *)
Record IndexScanPrefix := mkScanPrefix { sp_index_id : Z; sp_component_count : Z; sp_bytes : list byte }.

Definition encode_index_prefix (schema : KeySchema) (values : list CanonicalValue) : Checked IndexScanPrefix :=
  match ks_purpose schema with
  | KP_Index index_id _ =>
      if zlen (ks_components schema) <? zlen values then Err (IR_InvalidKey "index prefix has too many components")
      else
        match append_components (take (length values) (ks_components schema)) values (index_entry_key_builder_new index_id) with
        | (_, Err e) => Err e
        | (s, Ok _) => Ok (mkScanPrefix index_id (zlen values) (kb_bytes s))
        end
  | _ => Err (IR_InvalidKey "not an index key schema")
  end.

Definition encode_index_ordered_prefix (schema : KeySchema) (leading_values : list CanonicalValue) (value_prefix : list byte) :
    Checked IndexScanPrefix :=
  match ks_purpose schema with
  | KP_Index index_id _ =>
      match ks_components schema !! length leading_values with
      | None => Err (IR_InvalidKey "ordered prefix has no target component")
      | Some component =>
          if negb (bool_decide (kc_codec component = KC_OrderedBytes)) ||
             (default 0 (byte_bound (kc_value_type component)) <? zlen value_prefix)
          then Err (IR_InvalidKey "ordered prefix does not match its component")
          else
            match (_ ← append_components (take (length leading_values) (ks_components schema)) leading_values;
                   within "ordered prefix exceeds its checked bound" (push_ordered_bytes_prefix value_prefix))
                    (index_entry_key_builder_new index_id) with
            | (_, Err e) => Err e
            | (s, Ok _) => Ok (mkScanPrefix index_id (zlen leading_values) (kb_bytes s))
            end
      end
  | _ => Err (IR_InvalidKey "not an index key schema")
  end.

(** ** The cursor *)
Abbreviation Walk := (SE Decoder IrValidationError).

Definition cursor_read : Z -> Walk (list byte) := read_or IR_UnexpectedEnd.
Definition cursor_byte : Walk byte := read_u8_or IR_UnexpectedEnd.
Definition cursor_u32 : Walk Z := read_unsigned_or IR_UnexpectedEnd 4.

Definition expect_prefix (prefix : list byte) (owner : Z) : Walk unit :=
  actual ← cursor_read 2;
  _ ← guard_err (negb (bool_decide (actual = prefix))) (IR_InvalidKey "key envelope mismatch");
  actual ← cursor_u32;
  guard_err (negb (actual =? owner)) (IR_InvalidKey "key envelope mismatch").

(** The loop over escaped bytes.  Each round reads a byte, so that the length of
    the input bounds the rounds. *)
Fixpoint read_ordered_from (fuel : nat) (output : list byte) : Walk (list byte) :=
  match fuel with
  | O => raise IR_UnexpectedEnd
  | S fuel =>
      byte ← cursor_byte;
      if negb (is_zero_byte byte) then read_ordered_from fuel (output ++ [byte])
      else
        next ← cursor_byte;
        if is_zero_byte next then mret output
        else if bool_decide (next = xff) then read_ordered_from fuel (output ++ [x00])
        else raise (IR_InvalidKey "invalid ordered-byte escape")
  end.

Definition read_ordered_bytes : Walk (list byte) := fun s => read_ordered_from (S (length (dec_input s))) [] s.

Fixpoint validate_ordered_from (fuel : nat) (count : Z) : Walk Z :=
  match fuel with
  | O => raise IR_UnexpectedEnd
  | S fuel =>
      byte ← cursor_byte;
      if negb (is_zero_byte byte) then validate_ordered_from fuel (count + 1)
      else
        next ← cursor_byte;
        if is_zero_byte next then mret count
        else if bool_decide (next = xff) then validate_ordered_from fuel (count + 1)
        else raise (IR_InvalidKey "invalid ordered-byte escape")
  end.

Definition validate_ordered_bytes : Walk Z := fun s => validate_ordered_from (S (length (dec_input s))) 0 s.

(** [i64::from_be_bytes] after [bytes[0] ^= 0x80]. *)
Definition read_flipped (n : nat) : Walk Z :=
  bytes ← cursor_read (Z.of_nat n);
  mret (to_signed (8 * Z.of_nat n) (be_value (flip_sign bytes))).

(** The check of the bound of text or bytes that are not kept. *)
Definition check_bound (length hard : Z) (oversized : string) (t : ValueType) : Checked CanonicalValue :=
  if hard <? length then Err (IR_InvalidKey oversized)
  else if match byte_bound t with Some maximum => maximum <? length | None => true end then Err value_mismatch
  else Ok VNull.

(** A canonical component: its value, or null for text and bytes that are not kept. *)
Definition read_canonical (retain : bool) (schema : KeyComponentSchema) : Walk CanonicalValue :=
  let checked (value : CanonicalValue) : Walk CanonicalValue := _ ← lift (validate_key_value schema value); mret value in
  match kc_value_type schema with
  | T_Bool =>
      byte ← cursor_byte;
      if bool_decide (byte = x00) then checked (VBool false)
      else if bool_decide (byte = x01) then checked (VBool true)
      else raise (IR_InvalidKey "invalid Boolean key")
  | T_I64 => value ← read_flipped 8; checked (VI64 value)
  | T_U64 => value ← read_unsigned_or IR_UnexpectedEnd 8; checked (VU64 value)
  | T_Timestamp =>
      seconds ← read_flipped 8;
      nanos ← cursor_u32;
      value ← lift (map_err (fun _ => IR_InvalidKey "invalid timestamp key") (timestamp_new seconds nanos));
      checked (VTimestamp value)
  | T_Date => value ← read_flipped 4; checked (VDate value)
  | T_Uuid => value ← cursor_read 16; checked (VUuid value)
  | T_Enum type_id =>
      value ← cursor_u32;
      variant_id ← lift (ok_or (nonzero_id_new value) (IR_InvalidKey "zero enum variant"));
      checked (VEnum type_id variant_id)
  | T_String _ =>
      length ← cursor_u32;
      bytes ← cursor_read length;
      _ ← guard_err (negb (utf8_valid bytes)) (IR_InvalidText "key");
      if negb retain then lift (check_bound length MAX_STRING_BYTES "oversized string key" (kc_value_type schema))
      else
        value ← lift (map_err (fun _ => IR_InvalidKey "oversized string key") (canonical_string_new bytes));
        checked (VString value)
  | T_Bytes _ =>
      length ← cursor_u32;
      bytes ← cursor_read length;
      if negb retain then lift (check_bound length MAX_BYTES_VALUE_BYTES "oversized bytes key" (kc_value_type schema))
      else
        value ← lift (map_err (fun _ => IR_InvalidKey "oversized bytes key") (canonical_bytes_new bytes));
        checked (VBytes value)
  | _ => raise (IR_InvalidKey "invalid authoritative key component type")
  end.

Definition read_component (retain : bool) (schema : KeyComponentSchema) : Walk CanonicalValue :=
  if bool_decide (kc_codec schema = KC_OrderedBytes) then
    if negb retain then
      len ← validate_ordered_bytes;
      _ ← guard_err (MAX_BYTES_VALUE_BYTES <? len) (IR_InvalidKey "oversized ordered bytes key");
      _ ← guard_err (negb (is_bytes (kc_value_type schema)) ||
                     match byte_bound (kc_value_type schema) with Some maximum => maximum <? len | None => true end)
            value_mismatch;
      mret VNull
    else
      bytes ← read_ordered_bytes;
      value ← lift (map_err (fun _ => IR_InvalidKey "oversized ordered bytes key") (canonical_bytes_new bytes));
      _ ← lift (validate_key_value schema (VBytes value));
      mret (VBytes value)
  else read_canonical retain schema.

(** The loop over the component schemas. *)
Fixpoint read_components (retain : bool) (schemas : list KeyComponentSchema) : Walk (list CanonicalValue) :=
  match schemas with
  | [] => mret []
  | schema :: rest =>
      value ← read_component retain schema;
      values ← read_components retain rest;
      mret (if retain then value :: values else values)
  end.

Definition walk_end {A} (bytes : list byte) (walked : Decoder * Checked A) : Checked A :=
  match walked with
  | (_, Err e) => Err e
  | (s, Ok value) => if negb (dec_position s =? zlen bytes) then Err IR_TrailingBytes else Ok value
  end.

Definition complete_components (retain : bool) (bytes prefix : list byte) (owner : Z) (schemas : list KeyComponentSchema) :
    Checked (list CanonicalValue) :=
  walk_end bytes ((_ ← expect_prefix prefix owner; read_components retain schemas) (mkDecoder bytes 0)).

(** ** Decoding *)
Definition decode_entity (schema : KeySchema) (key : list byte) : Checked (list CanonicalValue) :=
  match ks_purpose schema with
  | KP_Entity owner => complete_components true key ENTITY_KEY_V1_PREFIX owner (ks_components schema)
  | _ => Err (IR_InvalidKey "not an entity key schema")
  end.

Definition validate_entity (schema : KeySchema) (key : list byte) : Checked unit :=
  match ks_purpose schema with
  | KP_Entity owner => _ ← complete_components false key ENTITY_KEY_V1_PREFIX owner (ks_components schema); Ok tt
  | _ => Err (IR_InvalidKey "not an entity key schema")
  end.

Definition decode_partition (schema : KeySchema) (key : list byte) : Checked (list CanonicalValue) :=
  match ks_purpose schema with
  | KP_Partition owner => complete_components true key PARTITION_KEY_V1_PREFIX owner (ks_components schema)
  | _ => Err (IR_InvalidKey "not a partition key schema")
  end.

Definition decode_conflict (schema : KeySchema) (key : list byte) : Checked (list CanonicalValue) :=
  match ks_purpose schema with
  | KP_Conflict owner => complete_components true key CONFLICT_KEY_V1_PREFIX owner (ks_components schema)
  | _ => Err (IR_InvalidKey "not a conflict key schema")
  end.

Definition encode_index (schema : KeySchema) (values : list CanonicalValue) (entity_key : list byte) : Checked (list byte) :=
  match ks_purpose schema with
  | KP_Index index_id _ =>
      entity_schema ← ok_or (ks_entity_key_schema schema) (IR_InvalidKey "missing entity key schema");
      _ ← decode_entity entity_schema entity_key;
      finish_with (append_components (ks_components schema) values) (index_entry_key_builder_new index_id)
        (fun s => index_entry_finish s entity_key) "index entry key exceeds its bound"
  | _ => Err (IR_InvalidKey "not an index key schema")
  end.

Definition walk_index (retain : bool) (schema : KeySchema) (key : list byte) : Checked (list CanonicalValue * list byte) :=
  match ks_purpose schema with
  | KP_Index index_id _ =>
      '(values, bytes) ← walk_end key
        ((_ ← expect_prefix INDEX_ENTRY_KEY_V1_PREFIX index_id;
          values ← read_components retain (ks_components schema);
          length ← cursor_u32;
          bytes ← cursor_read length;
          mret (values, bytes)) (mkDecoder key 0));
      entity_key ← map_err (fun _ => IR_InvalidKey "invalid nested entity key envelope")
                     (bounded_key_new ENTITY_KEY_V1_PREFIX TYPED_KEY_ENVELOPE_BYTES bytes);
      entity_schema ← ok_or (ks_entity_key_schema schema) (IR_InvalidKey "missing entity key schema");
      _ ← validate_entity entity_schema entity_key;
      Ok (values, entity_key)
  | _ => Err (IR_InvalidKey "not an index key schema")
  end.

Definition decode_index (schema : KeySchema) (key : list byte) : Checked (list CanonicalValue * list byte) :=
  walk_index true schema key.

Definition decode_index_entity_key (schema : KeySchema) (key : list byte) : Checked (list byte) :=
  '(_, entity_key) ← walk_index false schema key; Ok entity_key.

(** [while !cursor.is_empty()]: at most one round for each component. *)
Fixpoint read_prefix (schemas : list KeyComponentSchema) : Walk (list CanonicalValue) := fun s =>
  if dec_position s =? zlen (dec_input s) then (s, Ok [])
  else
    match schemas with
    | [] => (s, Err IR_TrailingBytes)
    | schema :: rest =>
        (value ← read_component true schema; values ← read_prefix rest; mret (value :: values)) s
    end.

Definition decode_index_prefix (schema : KeySchema) (bytes : list byte) : Checked IndexScanPrefix :=
  match ks_purpose schema with
  | KP_Index index_id _ =>
      _ ← checked_len "index prefix" (zlen bytes) MAX_KEY_BYTES;
      values ← snd ((_ ← expect_prefix INDEX_ENTRY_KEY_V1_PREFIX index_id; read_prefix (ks_components schema)) (mkDecoder bytes 0));
      canonical ← encode_index_prefix schema values;
      if negb (bool_decide (sp_bytes canonical = bytes)) then Err (IR_InvalidKey "index prefix is not canonical")
      else Ok canonical
  | _ => Err (IR_InvalidKey "not an index key schema")
  end.
