(* ===== verification/KeySchemaCodec.v ===== *)
(** * Schema-directed keys: the codec

    A value and its component schema determine a component of a key.  Encoding
    succeeds exactly on values that the schema accepts, within the maximum that
    the schema computed; decoding is its inverse; and the decoders that drop
    the values reject the same keys with the same errors. *)

From S2P Require Import Prelude Decimal Value Reader Key ValueType Framing Names Results Sort KeySchema.
From Stdlib Require Import Strings.String Strings.Byte.
From stdpp Require Import list strings.

Local Open Scope Z_scope.

(** ** Values as components *)
Definition value_component (codec : KeyComponentCodecV1) (v : CanonicalValue) : option Component :=
  match codec, v with
  | KC_OrderedBytes, VBytes b => Some (COrderedBytes b)
  | KC_OrderedBytes, _ => None
  | KC_Canonical, VBool b => Some (CBool b)
  | KC_Canonical, VI64 z => Some (CI64 z)
  | KC_Canonical, VU64 z => Some (CU64 z)
  | KC_Canonical, VString s => Some (CStr s)
  | KC_Canonical, VBytes b => Some (CBytes b)
  | KC_Canonical, VTimestamp t => Some (CTimestamp t)
  | KC_Canonical, VDate d => Some (CDate d)
  | KC_Canonical, VUuid u => Some (CUuid u)
  | KC_Canonical, VEnum _ n => Some (CEnumVariant n)
  | KC_Canonical, _ => None
  end.

(** The schema accepts the value, which is this component. *)
Definition key_value (c : KeyComponentSchema) (v : CanonicalValue) (comp : Component) : Prop :=
  validate_key_value c v = Ok tt /\ value_component (kc_codec c) v = Some comp.

(** Enum types are identified by nonzero numbers of 32 bits. *)
Definition enum_identified (t : ValueType) : bool := match t with T_Enum id => nonzero_u32b id | _ => true end.

(** The maximum of a component is the one its type and codec have. *)
Definition component_checked (c : KeyComponentSchema) : Prop :=
  authoritative_component_maximum (kc_value_type c) (kc_codec c) = Ok (kc_maximum_payload_bytes c) /\
  enum_identified (kc_value_type c) = true.

Lemma component_new_checked t vs c : enum_identified t = true -> component_new t vs = Ok c -> component_checked c.
Proof.
  unfold component_new. intros Ht. destruct (negb _); [done|]. destruct (adjacent_equal _ _); [done|].
  intros ([] & _ & (m & Hm & [= <-])%result_bind_ok)%result_bind_ok. done.
Qed.

Lemma component_ordered_checked m c : component_ordered_bytes m = Ok c -> component_checked c.
Proof.
  intros (t & Ht & (n & Hn & [= <-])%result_bind_ok)%result_bind_ok. split; [exact Hn|]. cbn [kc_value_type].
  unfold type_bytes in Ht. destruct (_ =? _); [done|]. by apply result_bind_ok in Ht as (? & _ & [= <-]).
Qed.

(** ** Flipped integers *)
Lemma flip_sign_involutive l : flip_sign (flip_sign l) = l.
Proof. destruct l as [|b l]; [done|]. cbn [flip_sign]. f_equal. by destruct b. Qed.

Lemma half_range n : 128 * 256 ^ Z.of_nat n = 2 ^ (8 * Z.of_nat (S n) - 1).
Proof.
  replace (8 * Z.of_nat (S n) - 1) with (7 + 8 * Z.of_nat n) by lia.
  rewrite Z.pow_add_r, Z.pow_mul_r by lia. done.
Qed.

Lemma parses_flipped n z : i_range (8 * Z.of_nat (S n)) z ->
  parses (read_flipped (S n)) (be_bytes (S n) (z + 2 ^ (8 * Z.of_nat (S n) - 1))) z.
Proof.
  intros Hz. eapply parses_last; [apply parses_read; by rewrite zlen_be_bytes|].
  rewrite <- half_range, <- flip_sign_be, flip_sign_involutive, be_value_be_bytes.
  replace (256 ^ Z.of_nat (S n)) with (2 ^ (8 * Z.of_nat (S n))) by (by rewrite Z.pow_mul_r by lia).
  rewrite to_signed_mod by (done || lia). apply parses_ret.
Qed.

Lemma inverts_flipped n : inverts (read_flipped (S n)) (fun b z =>
  i_range (8 * Z.of_nat (S n)) z /\ b = be_bytes (S n) (z + 2 ^ (8 * Z.of_nat (S n) - 1))).
Proof.
  eapply inverts_weaken; [unfold read_flipped, cursor_read; inv_steps|].
  intros b z (b1 & b2 & a & -> & [-> Hl] & -> & ->). rewrite app_nil_r.
  assert (length (flip_sign b1) = S n) as Hf by (destruct b1; unfold zlen in Hl; cbn in *; lia).
  pose proof (be_value_u_range (flip_sign b1)) as Hu. unfold zlen in Hu. rewrite Hf in Hu.
  split; [apply to_signed_range; [lia|done]|].
  rewrite <- half_range, <- flip_sign_be. rewrite <- (flip_sign_involutive b1) at 1. f_equal.
  rewrite <- (be_bytes_mod (S n) (to_signed _ _)).
  replace (256 ^ Z.of_nat (S n)) with (2 ^ (8 * Z.of_nat (S n))) by (by rewrite Z.pow_mul_r by lia).
  rewrite to_signed_mod_back by (done || lia). rewrite <- Hf. by rewrite be_bytes_be_value.
Qed.

(** ** Escaped bytes *)
Ltac lengths :=
  repeat match goal with
  | |- context [zlen (_ ++ _)] => rewrite zlen_app
  | |- context [zlen (_ :: _)] => rewrite zlen_cons
  | H : _ <= usize_max |- _ => progress (rewrite ?zlen_app, ?zlen_cons in H)
  end; rewrite ?zlen_nil in *; lia.

Lemma escape_cons b l : escape (b :: l) = escape_byte b ++ escape l.
Proof. done. Qed.

Lemma byte_step i b r : zlen i + zlen (b :: r) <= usize_max -> cursor_byte (at_split i (b :: r)) = (at_split (i ++ [b]) r, Ok b).
Proof. intros H. apply (parses_u8 IR_UnexpectedEnd b i r). rewrite zlen_cons in H. unfold zlen in *. cbn. lia. Qed.

Lemma read_ordered_parse v : forall fuel out i r, (length v < fuel)%nat ->
  zlen i + zlen (escape v ++ x00 :: x00 :: r) <= usize_max ->
  read_ordered_from fuel out (at_split i (escape v ++ x00 :: x00 :: r)) =
  (at_split (i ++ escape v ++ [x00; x00]) r, Ok (out ++ v)).
Proof.
  induction v as [|b v IH]; intros fuel out i r Hf Hs; (destruct fuel as [|fuel]; [lia|]); cbn [length] in Hf; cbn [read_ordered_from].
  - change (escape []) with (@nil byte) in *. cbn [app] in *. unfold mbind, SE_bind.
    rewrite byte_step by done. cbn [is_zero_byte negb]. change (is_zero_byte x00) with true. cbn [negb].
    rewrite byte_step by lengths. change (is_zero_byte x00) with true. cbv iota.
    unfold mret, SE_ret. by rewrite app_nil_r, <- app_assoc.
  - rewrite escape_cons, <- !app_assoc in *. unfold escape_byte in *. destruct (is_zero_byte b) eqn:Eb; cbn [app] in Hs |- *;
      unfold mbind, SE_bind; rewrite byte_step by done.
    + change (is_zero_byte x00) with true. cbn [negb].
      rewrite byte_step by lengths. change (is_zero_byte xff) with false. cbv iota.
      rewrite bool_decide_eq_true_2 by done. rewrite (IH fuel); [|lia|lengths].
      apply zero_byte_eq in Eb as ->. by rewrite <- !app_assoc.
    + rewrite Eb. cbn [negb]. rewrite (IH fuel); [|lia|lengths].
      by rewrite <- !app_assoc.
Qed.

Lemma parses_ordered v : parses read_ordered_bytes (escape v ++ [x00; x00]) v.
Proof.
  intros i r Hs. unfold read_ordered_bytes. rewrite <- app_assoc in *. cbn [app] in *. rewrite read_ordered_parse; [done| |].
  - cbn [at_split dec_input]. rewrite !length_app. pose proof (zlen_escape v) as He.
    assert (0 <= count_zeros v) by apply zlen_nonneg. unfold zlen in He. lia.
  - lengths.
Qed.

Lemma read_ordered_inv fuel : forall out i r s a, read_ordered_from fuel out (at_split i r) = (s, Ok a) ->
  exists v r', r = escape v ++ [x00; x00] ++ r' /\ s = at_split (i ++ escape v ++ [x00; x00]) r' /\ a = out ++ v.
Proof.
  induction fuel as [|fuel IH]; intros out i r s a H; [done|]. cbn [read_ordered_from] in H.
  apply SE_bind_ok in H as (s1 & b & Hb & H). apply inverts_u8 in Hb as (l & r1 & -> & -> & ->).
  destruct (is_zero_byte b) eqn:Eb; cbn [negb] in H.
  - apply zero_byte_eq in Eb as ->. apply SE_bind_ok in H as (s2 & c & Hc & H). apply inverts_u8 in Hc as (l & r2 & -> & -> & ->).
    destruct (is_zero_byte c) eqn:Ec.
    + apply zero_byte_eq in Ec as ->. injection H as <- <-. exists [], r2. rewrite app_nil_r, <- app_assoc. done.
    + case_bool_decide as Eff; [|done]. subst c. apply IH in H as (v & r' & -> & -> & ->).
      exists (x00 :: v), r'. rewrite escape_cons, <- !app_assoc. done.
  - apply IH in H as (v & r' & -> & -> & ->). exists (b :: v), r'. rewrite escape_cons. unfold escape_byte. rewrite Eb.
    by rewrite <- !app_assoc.
Qed.

Lemma inverts_ordered : inverts read_ordered_bytes (fun b v => b = escape v ++ [x00; x00]).
Proof.
  intros i r s a H. apply read_ordered_inv in H as (v & r' & -> & -> & ->).
  exists (escape v ++ [x00; x00]), r'. by rewrite <- app_assoc.
Qed.

(** More fuel than bytes makes no difference: the loop ends by itself. *)
Lemma read_ordered_fuel fuel : forall more out i r, (length r < fuel)%nat ->
  read_ordered_from (fuel + more) out (at_split i r) = read_ordered_from fuel out (at_split i r).
Proof.
  induction fuel as [|fuel IH]; intros more out i r Hf; [lia|]. cbn [Nat.add read_ordered_from]. unfold mbind, SE_bind.
  destruct (cursor_byte (at_split i r)) as [s1 [b|]] eqn:Eb; [|done].
  apply inverts_u8 in Eb as (l & r1 & -> & -> & ->). cbn [length app] in Hf.
  destruct (negb _); [apply IH; lia|].
  destruct (cursor_byte (at_split (i ++ [b]) r1)) as [s2 [c|]] eqn:Ec; [|done].
  apply inverts_u8 in Ec as (l & r2 & -> & -> & ->). cbn [length app] in Hf.
  destruct (is_zero_byte c); [done|]. case_bool_decide; [apply IH; lia|done].
Qed.

(** Counting the bytes walks the same way. *)
Lemma validate_ordered_same fuel : forall out s,
  validate_ordered_from fuel (zlen out) s = (v ← read_ordered_from fuel out; mret (zlen v)) s.
Proof.
  induction fuel as [|fuel IH]; intros out s; [done|]. cbn [validate_ordered_from read_ordered_from]. unfold mbind, SE_bind in *.
  destruct (cursor_byte s) as [s1 [b|]]; [|done].
  destruct (negb _); [rewrite <- (IH (out ++ [b])); by rewrite zlen_app, zlen_cons, zlen_nil|].
  destruct (cursor_byte s1) as [s2 [c|]]; [|done]. destruct (is_zero_byte c); [done|].
  case_bool_decide; [|done]. rewrite <- (IH (out ++ [x00])). by rewrite zlen_app, zlen_cons, zlen_nil.
Qed.

(** ** Components *)
Lemma validated c v : validate_key_value c v = Ok tt -> validate_value (kc_value_type c) v = Ok tt.
Proof. by intros ([] & H & _)%result_bind_ok. Qed.

(** The value read is the one checked. *)
Ltac parse_checked H := eapply parses_bind_nil; [apply parses_lift; exact H|apply parses_ret].

Lemma parses_canonical c v comp : kc_codec c = KC_Canonical -> component_checked c -> value_wf v -> key_value c v comp ->
  parses (read_canonical true c) (component_bytes comp) v.
Proof.
  intros Hk [Hc _] Hwf [Hv Hcomp]. pose proof (validated _ _ Hv) as Ht. rewrite Hk in Hc, Hcomp.
  unfold read_canonical. unfold value_wf in Hwf.
  destruct (kc_value_type c) eqn:Et; try discriminate Hc; destruct v; try discriminate Ht; injection Hcomp as <-;
    cbn [component_bytes value_wfb] in *.
  - eapply parses_last; [apply parses_u8|]. destruct b; cbn [bool_decide]; parse_checked Hv.
  - eapply parses_last; [apply (parses_flipped 7); by apply i_inb_spec|]. parse_checked Hv.
  - eapply parses_last; [apply (parses_unsigned _ 8); by apply u_inb_spec|]. parse_checked Hv.
  - apply andb_true_iff in Hwf as [Hu Hl%Z.leb_le]. pose proof (zlen_nonneg s) as Hz. unfold MAX_STRING_BYTES in *.
    eapply parses_bind; [apply (parses_unsigned _ 4); unfold u_range; cbn; lia|]. eapply parses_last; [by apply parses_read|].
    eapply parses_bind_nil; [apply parses_guard; by rewrite Hu|]. cbn [negb].
    eapply parses_bind_nil; [apply parses_lift|parse_checked Hv].
    unfold canonical_string_new, MAX_STRING_BYTES. by zbool; [lia|].
  - apply Z.leb_le in Hwf. pose proof (zlen_nonneg b) as Hz. unfold MAX_BYTES_VALUE_BYTES in *.
    eapply parses_bind; [apply (parses_unsigned _ 4); unfold u_range; cbn; lia|]. eapply parses_last; [by apply parses_read|]. cbn [negb].
    eapply parses_bind_nil; [apply parses_lift|parse_checked Hv].
    unfold canonical_bytes_new, MAX_BYTES_VALUE_BYTES. by zbool; [lia|].
  - unfold timestamp_wfb in Hwf. apply andb_true_iff in Hwf as [[Hs%i_inb_spec Hn1]%andb_true_iff Hn2]. unfold NANOS_PER_SECOND in *.
    eapply parses_bind; [apply (parses_flipped 7); done|].
    eapply parses_last; [apply (parses_unsigned _ 4); unfold u_range; cbn; lia|].
    eapply parses_bind_nil; [apply parses_lift|parse_checked Hv].
    unfold timestamp_new, NANOS_PER_SECOND. destruct (Z.leb_spec 1000000000 (ts_nanoseconds t)); [lia|by destruct t].
  - eapply parses_last; [apply (parses_flipped 3); by apply i_inb_spec|]. parse_checked Hv.
  - eapply parses_last; [apply parses_read; by apply Z.eqb_eq in Hwf|]. parse_checked Hv.
  - cbn [validate_value is_null] in Ht. destruct (Z.eqb_spec type_id type_id0) as [<-|]; [|done].
    apply andb_true_iff in Hwf as [_ Hn]. unfold nonzero_u32b in Hn.
    eapply parses_last; [apply (parses_unsigned _ 4); unfold u_range; cbn; lia|].
    eapply parses_bind_nil; [apply parses_lift|parse_checked Hv]. unfold nonzero_id_new. destruct (Z.eqb_spec variant_id 0); [lia|done].
Qed.

Lemma parses_component_value c v comp : component_checked c -> value_wf v -> key_value c v comp ->
  parses (read_component true c) (component_bytes comp) v.
Proof.
  intros Hc Hwf Hk. unfold read_component. destruct (kc_codec c) eqn:Ek; [by apply parses_canonical|].
  rewrite bool_decide_eq_true_2 by done. cbn [negb]. destruct Hk as [Hv Hcomp]. rewrite Ek in Hcomp.
  destruct v; try discriminate Hcomp. injection Hcomp as <-. cbn [component_bytes].
  eapply parses_last; [apply parses_ordered|]. apply Z.leb_le in Hwf.
  eapply parses_bind_nil; [apply parses_lift|parse_checked Hv].
  unfold canonical_bytes_new. destruct (Z.ltb_spec MAX_BYTES_VALUE_BYTES (zlen b)); [lia|done].
Qed.

(** What was read is an accepted value and its bytes. *)
Definition read_as (c : KeyComponentSchema) (b : list byte) (v : CanonicalValue) : Prop :=
  value_wf v /\ exists comp, key_value c v comp /\ b = component_bytes comp.

Lemma checked_ok c v s s' v' : (_ ← lift (validate_key_value c v); mret v : Walk CanonicalValue) s = (s', Ok v') ->
  s' = s /\ v' = v /\ validate_key_value c v = Ok tt.
Proof. unfold mbind, SE_bind, lift. destruct (validate_key_value c v) as [[]|]; [|done]. by intros [= <- <-]. Qed.

Lemma lift_ok {A} (r : Checked A) (s s' : Decoder) a : lift r s = (s', Ok a) -> s' = s /\ r = Ok a.
Proof. unfold lift. by intros [= <- ->]. Qed.

Lemma guard_ok b (e : IrValidationError) (s s' : Decoder) u : guard_err b e s = (s', Ok u) -> s' = s /\ b = false.
Proof. destruct b; [done|]. by intros [= <- <-]. Qed.

(** One read at a time: the bytes it took, and what it gave. *)
Ltac read_step H :=
  let s := fresh "s" in let a := fresh "a" in let H1 := fresh "H1" in
  apply SE_bind_ok in H as (s & a & H1 & H);
  lazymatch type of H1 with
  | cursor_byte _ = _ => apply inverts_u8 in H1 as (? & ? & -> & -> & ->)
  | read_flipped (S ?n) _ = _ => apply (inverts_flipped n) in H1 as (? & ? & -> & -> & ? & ->)
  | cursor_u32 _ = _ => apply inverts_unsigned in H1 as (? & ? & -> & -> & -> & ?)
  | read_unsigned_or _ _ _ = _ => apply inverts_unsigned in H1 as (? & ? & -> & -> & -> & ?)
  | cursor_read _ _ = _ => apply inverts_read in H1 as (? & ? & -> & -> & -> & ?)
  | read_ordered_bytes _ = _ => apply inverts_ordered in H1 as (? & ? & -> & -> & ->)
  | guard_err _ _ _ = _ => apply guard_ok in H1 as [-> ?]
  | lift _ _ = _ => apply lift_ok in H1 as [-> ?]
  end.

Ltac taken l rest :=
  lazymatch l with
  | ?a ++ rest => constr:(a)
  | ?a ++ ?l' => let b := taken l' rest in constr:(a ++ b)
  end.

Ltac read_done H :=
  apply checked_ok in H as (-> & -> & ?);
  match goal with |- exists b r', ?l = _ /\ at_split _ ?rest = _ /\ _ =>
    let b := taken l rest in
    exists b, rest; split; [by rewrite <- ?app_assoc|]; split; [by rewrite <- ?app_assoc|]
  end.

Lemma canonical_string_inv x a : canonical_string_new x = Ok a -> a = x /\ zlen x <= MAX_STRING_BYTES.
Proof. unfold canonical_string_new. destruct (Z.ltb_spec MAX_STRING_BYTES (zlen x)); [done|]. by intros [= ->]. Qed.

Lemma canonical_bytes_inv x a : canonical_bytes_new x = Ok a -> a = x /\ zlen x <= MAX_BYTES_VALUE_BYTES.
Proof. unfold canonical_bytes_new. destruct (Z.ltb_spec MAX_BYTES_VALUE_BYTES (zlen x)); [done|]. by intros [= ->]. Qed.

Lemma timestamp_inv sec n t : timestamp_new sec n = Ok t -> t = mkTimestamp sec n /\ n < NANOS_PER_SECOND.
Proof. unfold timestamp_new. destruct (Z.leb_spec NANOS_PER_SECOND n); [done|]. by intros [= <-]. Qed.

Lemma nonzero_id_inv n m : nonzero_id_new n = Some m -> m = n /\ n <> 0.
Proof. unfold nonzero_id_new. destruct (Z.eqb_spec n 0); [done|]. by intros [= <-]. Qed.

Ltac invert_checks :=
  repeat match goal with
  | H : map_err _ _ = Ok _ |- _ => apply map_err_ok in H
  | H : ok_or _ _ = Ok _ |- _ => apply ok_or_ok in H
  | H : canonical_string_new _ = Ok _ |- _ => apply canonical_string_inv in H as [-> ?]
  | H : canonical_bytes_new _ = Ok _ |- _ => apply canonical_bytes_inv in H as [-> ?]
  | H : timestamp_new _ _ = Ok _ |- _ => apply timestamp_inv in H as [-> ?]
  | H : nonzero_id_new _ = Some _ |- _ => apply nonzero_id_inv in H as [-> ?]
  | H : negb _ = false |- _ => apply negb_false_iff in H
  | H : zlen _ = ?a |- _ => is_var a; subst a
  end.

Lemma inverts_canonical c : kc_codec c = KC_Canonical -> component_checked c -> inverts (read_canonical true c) (read_as c).
Proof.
  intros Hk [_ He] i r s v H. unfold read_canonical in H. unfold read_as, key_value. rewrite Hk.
  destruct (kc_value_type c) eqn:Et; try discriminate H.
  - read_step H. case_bool_decide; [|case_bool_decide; [|done]]; subst; read_done H; (split; [done|]); by eexists.
  - read_step H. read_done H. split; [by apply i_inb_spec|]. by eexists.
  - read_step H. read_done H. split; [by apply u_inb_spec|]. by eexists.
  - do 3 read_step H. cbn [negb] in H. read_step H. invert_checks. read_done H.
    split; [unfold value_wf; cbn [value_wfb]; by apply andb_true_iff; split; [|apply Z.leb_le]|]. by eexists.
  - do 2 read_step H. cbn [negb] in H. read_step H. invert_checks. read_done H.
    split; [unfold value_wf; cbn [value_wfb]; by apply Z.leb_le|]. by eexists.
  - do 3 read_step H. invert_checks. read_done H. split; [|by eexists].
    unfold value_wf. cbn [value_wfb]. unfold timestamp_wfb. cbn. rewrite (proj2 (i_inb_spec _ _)) by done.
    unfold u_range in *. cbn [andb]. lia.
  - read_step H. read_done H. split; [by apply i_inb_spec|]. by eexists.
  - read_step H. read_done H. split; [unfold value_wf; cbn [value_wfb]; by apply Z.eqb_eq|]. by eexists.
  - do 2 read_step H. invert_checks. read_done H. split; [|by eexists].
    unfold value_wf. cbn [value_wfb]. cbn [enum_identified] in He. rewrite He. unfold nonzero_u32b, u_range in *. cbn [andb]. lia.
Qed.

Lemma inverts_component_value c : component_checked c -> inverts (read_component true c) (read_as c).
Proof.
  intros Hc. unfold read_component. destruct (kc_codec c) eqn:Ek; [by apply inverts_canonical|].
  rewrite bool_decide_eq_true_2 by done. cbn [negb]. intros i r s v H. unfold read_as, key_value. rewrite Ek.
  do 2 read_step H. invert_checks. read_done H. split; [unfold value_wf; cbn [value_wfb]; by apply Z.leb_le|]. by eexists.
Qed.

(** ** Dropping the values *)

(** What the walk that keeps nothing has instead of a value. *)
Definition dropped (c : KeyComponentSchema) (v : CanonicalValue) : CanonicalValue :=
  match kc_codec c, kc_value_type c with
  | KC_OrderedBytes, _ | _, T_String _ | _, T_Bytes _ => VNull
  | _, _ => v
  end.

(** The bound of text or bytes is checked as the construction of the value and
    its validation check it. *)
Lemma string_dropped c m bytes s : kc_value_type c = T_String m ->
  lift (check_bound (zlen bytes) MAX_STRING_BYTES "oversized string key" (T_String m)) s =
  (_ ← (value ← lift (map_err (fun _ => IR_InvalidKey "oversized string key") (canonical_string_new bytes));
        _ ← lift (validate_key_value c (VString value)); mret (VString value)); mret VNull : Walk CanonicalValue) s.
Proof.
  intros Ht. unfold check_bound, canonical_string_new, mbind, SE_bind, lift.
  destruct (MAX_STRING_BYTES <? zlen bytes); [done|]. cbn [map_err byte_bound].
  unfold validate_key_value. rewrite Ht. cbn [validate_value is_null].
  by destruct (Z.leb_spec (zlen bytes) m), (Z.ltb_spec m (zlen bytes)); try lia.
Qed.

Lemma bytes_dropped c m bytes oversized s : kc_value_type c = T_Bytes m ->
  lift (check_bound (zlen bytes) MAX_BYTES_VALUE_BYTES oversized (T_Bytes m)) s =
  (_ ← (value ← lift (map_err (fun _ => IR_InvalidKey oversized) (canonical_bytes_new bytes));
        _ ← lift (validate_key_value c (VBytes value)); mret (VBytes value)); mret VNull : Walk CanonicalValue) s.
Proof.
  intros Ht. unfold check_bound, canonical_bytes_new, mbind, SE_bind, lift.
  destruct (MAX_BYTES_VALUE_BYTES <? zlen bytes); [done|]. cbn [map_err byte_bound].
  unfold validate_key_value. rewrite Ht. cbn [validate_value is_null].
  by destruct (Z.leb_spec (zlen bytes) m), (Z.ltb_spec m (zlen bytes)); try lia.
Qed.

Lemma bind_assoc {A B C} (m : Walk A) (f : A -> Walk B) (g : B -> Walk C) s : ((m ≫= f) ≫= g) s = (m ≫= (fun a => f a ≫= g)) s.
Proof. unfold mbind, SE_bind. by destruct (m s) as [s' [a|e]]. Qed.

Lemma bind_step {A B} (m : Walk A) (f g : A -> Walk B) s :
  (forall s' a, m s = (s', Ok a) -> f a s' = g a s') -> (m ≫= f) s = (m ≫= g) s.
Proof. intros H. unfold mbind, SE_bind. destruct (m s) as [s' [a|e]] eqn:E; [by apply H|done]. Qed.

Lemma read_component_dropped c i r : component_checked c ->
  read_component false c (at_split i r) = (v ← read_component true c; mret (dropped c v)) (at_split i r).
Proof.
  intros [Hc _]. unfold read_component, dropped. destruct (kc_codec c) eqn:Ek.
  - rewrite bool_decide_eq_false_2 by done. unfold read_canonical. destruct (kc_value_type c) eqn:Et; cbn [negb];
      try (unfold mbind, SE_bind, mret, SE_ret; by repeat case_match; simplify_eq).
    + rewrite bind_assoc. apply bind_step. intros s1 n (b & r1 & -> & -> & -> & Hn)%inverts_unsigned.
      rewrite bind_assoc. apply bind_step. intros s2 x (b2 & r2 & -> & -> & -> & <-)%inverts_read.
      rewrite bind_assoc. apply bind_step. intros s3 [] _. by apply string_dropped.
    + rewrite bind_assoc. apply bind_step. intros s1 n (b & r1 & -> & -> & -> & Hn)%inverts_unsigned.
      rewrite bind_assoc. apply bind_step. intros s2 x (b2 & r2 & -> & -> & -> & <-)%inverts_read. by apply bytes_dropped.
  - rewrite bool_decide_eq_true_2 by done. cbn [negb].
    destruct (kc_value_type c) as [| | | | | |m| | | | | | | |] eqn:Et; try discriminate Hc. cbn [is_bytes negb orb byte_bound].
    rewrite bind_assoc. unfold validate_ordered_bytes, read_ordered_bytes. unfold mbind at 1 4, SE_bind at 1 4.
    change 0 with (zlen (@nil byte)). rewrite validate_ordered_same. unfold mbind at 1, SE_bind at 1.
    destruct (read_ordered_from _ _ _) as [s1 [v|e]]; [|done]. cbn [mret SE_ret].
    rewrite <- (bytes_dropped c m) by done. unfold check_bound, guard_err, lift, mbind, SE_bind, mret, SE_ret, raise. cbn [byte_bound].
    destruct (_ <? _); [done|]. by destruct (_ <? _).
Qed.

(** ** Lists of components *)
Abbreviation key_values := (Forall3 key_value).

Lemma components_bytes_cons c cs : components_bytes (c :: cs) = component_bytes c ++ components_bytes cs.
Proof. done. Qed.

Lemma parses_key_components cs vs comps : Forall component_checked cs -> Forall value_wf vs -> key_values cs vs comps ->
  parses (read_components true cs) (components_bytes comps) vs.
Proof.
  intros Hc Hw H. revert Hc Hw. induction H as [|c v comp cs vs comps Hk _ IH]; intros Hc Hw; [apply parses_ret|].
  apply Forall_cons in Hc as [Hc Hcs], Hw as [Hv Hvs]. rewrite components_bytes_cons. cbn [read_components].
  eapply parses_bind; [by apply parses_component_value|]. eapply parses_last; [by apply IH|apply parses_ret].
Qed.

Lemma inverts_key_components cs : Forall component_checked cs ->
  inverts (read_components true cs) (fun b vs => Forall value_wf vs /\ exists comps, key_values cs vs comps /\ b = components_bytes comps).
Proof.
  induction 1 as [|c cs Hc _ IH]; cbn [read_components].
  - eapply inverts_weaken; [apply inverts_ret|]. intros b vs [-> ->]. split; [constructor|]. exists []. by split; [constructor|].
  - intros i r s vs H. apply SE_bind_ok in H as (s1 & v & H1 & H).
    apply (inverts_component_value _ Hc) in H1 as (b1 & r1 & -> & -> & Hv & comp & Hk & ->).
    apply SE_bind_ok in H as (s2 & vs' & H2 & H). apply IH in H2 as (b2 & r2 & -> & -> & Hvs & comps & Hks & ->).
    injection H as <- <-. exists (component_bytes comp ++ components_bytes comps), r2.
    split_and!; [by rewrite <- app_assoc|by rewrite <- app_assoc|by constructor|].
    exists (comp :: comps). by split; [constructor|].
Qed.

Lemma read_components_dropped cs : Forall component_checked cs -> forall i r,
  read_components false cs (at_split i r) = (_ ← read_components true cs; mret []) (at_split i r).
Proof.
  induction 1 as [|c cs Hc _ IH]; intros i r; [done|]. cbn [read_components]. unfold mbind at 1, SE_bind at 1.
  rewrite read_component_dropped by done. rewrite bind_assoc. unfold mbind at 1 3, SE_bind at 1 3.
  destruct (read_component true c (at_split i r)) as [s1 [v|e]] eqn:E; [|done].
  apply (inverts_component_value _ Hc) in E as (b & r1 & -> & -> & _). cbn [mret SE_ret].
  unfold mbind at 1, SE_bind at 1. rewrite IH, bind_assoc. unfold mbind, SE_bind.
  by destruct (read_components true cs (at_split (i ++ b) r1)) as [s2 [vs|e]].
Qed.

(** ** Building *)
Lemma push_value_component codec v comp : value_component codec v = Some comp ->
  exists reason, push_value v codec = within reason (push_component comp).
Proof. destruct codec, v; try discriminate; intros [= <-]; by eexists. Qed.

Lemma push_value_ok codec v s s' u : push_value v codec s = (s', Ok u) -> exists comp, value_component codec v = Some comp.
Proof. destruct codec, v; try discriminate; by eexists. Qed.

Lemma within_push reason comp s :
  if zlen (kb_bytes s) + zlen (component_bytes comp) <=? MAX_KEY_BYTES
  then within reason (push_component comp) s = (mkKeyBuilder (kb_bytes s ++ component_bytes comp), Ok tt)
  else exists e, within reason (push_component comp) s = (s, Err e).
Proof.
  pose proof (appends_component comp s) as H. unfold within. destruct (_ <=? _); [by rewrite H|].
  destruct H as [e ->]. by eexists.
Qed.

(** The body of the loop. *)
Abbreviation append_body := (fun '(schema, value) => _ ← lift (validate_key_value schema value); push_value value (kc_codec schema)).

Lemma append_loop_ok cs : forall vs s s', length vs = length cs ->
  for_each (append_body : _ -> Build unit) (zip cs vs) s = (s', Ok tt) ->
  exists comps, key_values cs vs comps /\ kb_bytes s' = kb_bytes s ++ components_bytes comps /\
    (zlen (kb_bytes s) <= MAX_KEY_BYTES -> zlen (kb_bytes s') <= MAX_KEY_BYTES).
Proof.
  induction cs as [|c cs IH]; intros [|v vs] s s' Hl H; try discriminate Hl.
  - injection H as <-. exists []. split_and!; [constructor|unfold components_bytes; cbn; by rewrite app_nil_r|done].
  - cbn [zip zip_with for_each] in H. apply SE_bind_ok in H as (s1 & [] & H1 & H).
    apply SE_bind_ok in H1 as (s0 & [] & H0 & H1). unfold lift in H0. injection H0 as <- Hv.
    destruct (push_value_ok _ _ _ _ _ H1) as [comp Hcomp]. destruct (push_value_component _ _ _ Hcomp) as [reason Hp].
    rewrite Hp in H1. pose proof (within_push reason comp s) as Hw.
    destruct (Z.leb_spec (zlen (kb_bytes s) + zlen (component_bytes comp)) MAX_KEY_BYTES); [|destruct Hw as [e Hw]; congruence].
    rewrite Hw in H1. injection H1 as <-. apply IH in H as (comps & Hk & Hb & Hm); [|by injection Hl].
    cbn [kb_bytes] in *. exists (comp :: comps). rewrite components_bytes_cons, app_assoc.
    split_and!; [by constructor|done|]. intros _. apply Hm. rewrite zlen_app. lia.
Qed.

Lemma append_loop_total cs vs comps : key_values cs vs comps -> forall s,
  zlen (kb_bytes s) + zlen (components_bytes comps) <= MAX_KEY_BYTES ->
  for_each (append_body : _ -> Build unit) (zip cs vs) s = (mkKeyBuilder (kb_bytes s ++ components_bytes comps), Ok tt).
Proof.
  induction 1 as [|c v comp cs vs comps [Hv Hcomp] _ IH]; intros s Hs.
  - cbn. unfold components_bytes. cbn. rewrite app_nil_r. by destruct s.
  - rewrite components_bytes_cons, zlen_app in Hs. pose proof (zlen_nonneg (components_bytes comps)).
    cbn [zip zip_with for_each]. unfold mbind, SE_bind, lift. rewrite Hv.
    destruct (push_value_component _ _ _ Hcomp) as [reason ->]. pose proof (within_push reason comp s) as Hw.
    destruct (Z.leb_spec (zlen (kb_bytes s) + zlen (component_bytes comp)) MAX_KEY_BYTES); [|lia].
    rewrite Hw, IH by (cbn [kb_bytes]; rewrite zlen_app; lia). cbn [kb_bytes]. by rewrite components_bytes_cons, app_assoc.
Qed.

Lemma append_ok cs vs s s' : append_components cs vs s = (s', Ok tt) ->
  exists comps, key_values cs vs comps /\ kb_bytes s' = kb_bytes s ++ components_bytes comps /\
    (zlen (kb_bytes s) <= MAX_KEY_BYTES -> zlen (kb_bytes s') <= MAX_KEY_BYTES).
Proof.
  unfold append_components. intros (s1 & [] & Hg & H)%SE_bind_ok. destruct (Z.eqb_spec (zlen vs) (zlen cs)) as [El|]; [|done].
  injection Hg as <-. apply append_loop_ok in H; [done|]. unfold zlen in El. lia.
Qed.

Lemma append_total cs vs comps s : key_values cs vs comps -> zlen (kb_bytes s) + zlen (components_bytes comps) <= MAX_KEY_BYTES ->
  append_components cs vs s = (mkKeyBuilder (kb_bytes s ++ components_bytes comps), Ok tt).
Proof.
  intros Hk Hs. unfold append_components.
  assert (zlen vs = zlen cs) as -> by (unfold zlen; by rewrite (Forall3_length_lm _ _ _ _ Hk)).
  rewrite Z.eqb_refl. cbn [negb guard_err]. by apply append_loop_total.
Qed.

(** ** Bounds *)
Lemma component_exists c v : component_checked c -> validate_key_value c v = Ok tt -> exists comp, key_value c v comp.
Proof.
  intros [Hc _] Hv. pose proof (validated _ _ Hv) as Ht. unfold key_value. destruct (kc_codec c); destruct (kc_value_type c);
    try discriminate Hc; destruct v; try discriminate Ht; by eexists.
Qed.

Lemma component_bound c v comp : component_checked c -> value_wf v -> key_value c v comp ->
  zlen (component_bytes comp) <= kc_maximum_payload_bytes c.
Proof.
  intros [Hc _] Hw [Hv Hcomp]. pose proof (validated _ _ Hv) as Ht. unfold value_wf in Hw.
  destruct (kc_codec c); destruct (kc_value_type c); try discriminate Hc; destruct v; try discriminate Ht; injection Hcomp as <-;
    cbn [component_bytes value_wfb validate_value is_null] in *.
  - injection Hc as <-. by destruct b.
  - injection Hc as <-. by rewrite zlen_be_bytes.
  - injection Hc as <-. by rewrite zlen_be_bytes.
  - apply ok_or_ok, u_checked_Some in Hc as [-> _]. rewrite zlen_app, zlen_be_bytes. destruct (Z.leb_spec (zlen s) maximum); [lia|done].
  - apply ok_or_ok, u_checked_Some in Hc as [-> _]. rewrite zlen_app, zlen_be_bytes. destruct (Z.leb_spec (zlen b) maximum); [lia|done].
  - injection Hc as <-. by rewrite zlen_app, !zlen_be_bytes.
  - injection Hc as <-. by rewrite zlen_be_bytes.
  - injection Hc as <-. apply Z.eqb_eq in Hw. lia.
  - injection Hc as <-. by rewrite zlen_be_bytes.
  - apply result_bind_ok in Hc as (m & [= <-] & Hm).
    apply ok_or_ok, bind_Some in Hm as (x & [-> _]%u_checked_Some & [-> _]%u_checked_Some).
    rewrite zlen_app, zlen_escape. destruct (Z.leb_spec (zlen b) maximum); [|done].
    pose proof (length_filter (fun b => is_zero_byte b = true) b). unfold count_zeros, zlen in *. cbn [length]. lia.
Qed.

Lemma components_bound cs vs comps : Forall component_checked cs -> Forall value_wf vs -> key_values cs vs comps ->
  forall total m, add_maximums total cs = Ok m -> total + zlen (components_bytes comps) <= m.
Proof.
  intros Hc Hw H. revert Hc Hw. induction H as [|c v comp cs vs comps Hk _ IH]; intros Hc Hw total m Hm.
  - injection Hm as <-. change (components_bytes []) with (@nil byte). rewrite zlen_nil. lia.
  - apply Forall_cons in Hc as [Hc Hcs], Hw as [Hv Hvs]. cbn [add_maximums] in Hm.
    apply result_bind_ok in Hm as (t & [-> _]%ok_or_ok%u_checked_Some & Hm). pose proof (IH Hcs Hvs _ _ Hm).
    pose proof (component_bound _ _ _ Hc Hv Hk). rewrite components_bytes_cons, zlen_app. lia.
Qed.

(** ** Complete keys *)
Lemma parses_prefix prefix owner : zlen prefix = 2 -> u_range 32 owner ->
  parses (expect_prefix prefix owner) (prefix ++ be_bytes 4 owner) tt.
Proof.
  intros Hp Ho. eapply parses_bind; [by apply parses_read|].
  eapply parses_bind_nil; [apply parses_guard; by rewrite bool_decide_eq_true_2|].
  eapply parses_last; [by apply (parses_unsigned _ 4)|]. apply parses_guard. by rewrite Z.eqb_refl.
Qed.

Lemma inverts_prefix prefix owner : inverts (expect_prefix prefix owner) (fun b _ => b = prefix ++ be_bytes 4 owner).
Proof.
  intros i r s [] H. unfold expect_prefix in H. read_step H. read_step H. read_step H. apply guard_ok in H as [-> Ho].
  apply negb_false_iff in Ho. apply Z.eqb_eq in Ho as ->.
  match goal with H : negb (bool_decide _) = false |- _ => apply negb_false_iff, bool_decide_eq_true in H as -> end.
  eexists (prefix ++ be_bytes 4 owner), _. split_and!; [by rewrite <- app_assoc|by rewrite <- app_assoc|done].
Qed.

Lemma walk_end_ok {A} (m : Walk A) key a : parses m key a -> zlen key <= usize_max -> walk_end key (m (mkDecoder key 0)) = Ok a.
Proof.
  intros Hp Hl. specialize (Hp [] []). rewrite app_nil_r in Hp. change (mkDecoder key 0) with (at_split [] key).
  rewrite Hp by (rewrite !zlen_nil; lia). cbn. by rewrite Z.eqb_refl.
Qed.

Lemma walk_end_inv {A} (m : Walk A) R key a : inverts m R -> walk_end key (m (mkDecoder key 0)) = Ok a -> R key a.
Proof.
  intros Hi. change (mkDecoder key 0) with (at_split [] key). destruct (m (at_split [] key)) as [s [x|]] eqn:E; [|done].
  apply Hi in E as (b & r & -> & -> & HR). cbn. rewrite zlen_app. destruct (Z.eqb_spec (zlen b) (zlen b + zlen r)) as [Hr|]; cbn; [|done].
  intros [= <-]. assert (r = []) as -> by (destruct r; [done|]; unfold zlen in Hr; cbn in Hr; lia). by rewrite app_nil_r.
Qed.

(** The bytes of a complete key. *)
Definition complete_key (prefix : list byte) (owner : Z) (comps : list Component) : list byte :=
  (prefix ++ be_bytes 4 owner) ++ components_bytes comps.

Lemma zlen_complete prefix owner comps : zlen prefix = 2 -> zlen (complete_key prefix owner comps) = 6 + zlen (components_bytes comps).
Proof. intros Hp. unfold complete_key. rewrite !zlen_app, zlen_be_bytes, Hp. lia. Qed.

Lemma complete_components_ok prefix owner cs vs comps : zlen prefix = 2 -> u_range 32 owner ->
  Forall component_checked cs -> Forall value_wf vs -> key_values cs vs comps ->
  zlen (complete_key prefix owner comps) <= usize_max ->
  complete_components true (complete_key prefix owner comps) prefix owner cs = Ok vs.
Proof.
  intros Hp Ho Hc Hw Hk Hl. apply walk_end_ok; [|done]. eapply parses_bind; [by apply parses_prefix|by apply parses_key_components].
Qed.

Lemma complete_components_inv prefix owner cs key vs : Forall component_checked cs ->
  complete_components true key prefix owner cs = Ok vs ->
  Forall value_wf vs /\ exists comps, key_values cs vs comps /\ key = complete_key prefix owner comps.
Proof.
  intros Hc H. eapply walk_end_inv in H; [|eapply inverts_bind; [apply inverts_prefix|intros ? ? ?; by apply inverts_key_components]].
  destruct H as (b & b' & [] & -> & -> & Hw & comps & Hk & ->). split; [done|]. by exists comps.
Qed.

Lemma complete_components_dropped prefix owner cs key : Forall component_checked cs ->
  complete_components false key prefix owner cs = (_ ← complete_components true key prefix owner cs; Ok []).
Proof.
  intros Hc. unfold complete_components. change (mkDecoder key 0) with (at_split [] key). unfold mbind at 1 3, SE_bind.
  destruct (expect_prefix prefix owner (at_split [] key)) as [s [[]|e]] eqn:E; [|done].
  apply inverts_prefix in E as (b & r & -> & -> & ->). rewrite read_components_dropped by done.
  unfold mbind at 1, SE_bind. destruct (read_components true cs _) as [s' [vs|e]]; [|done]. cbn. by destruct (negb _).
Qed.
