(* ===== verification/KeySchemaGuarantees.v ===== *)
(** * Schema-directed keys: guarantees

    What the keys of a checked schema guarantee: encoding and decoding are
    inverse and stay within the computed maximum; the walk that keeps no values
    decides as the one that does; and index scan prefixes are exact. *)

From S2P Require Import Prelude Decimal Value Reader Key ValueType Framing Names Results Sort KeySchema KeySchemaCodec.
From Stdlib Require Import Strings.String Strings.Byte.
From stdpp Require Import list strings.

Local Open Scope Z_scope.

(** ** Entity, partition and conflict keys *)

(** The encoder and the decoder that the purpose of a schema selects. *)
Definition encode_complete (s : KeySchema) (vs : list CanonicalValue) : Checked (list byte) :=
  match ks_purpose s with
  | KP_Entity _ => encode_entity s vs
  | KP_Partition _ => encode_partition s vs
  | _ => encode_conflict s vs
  end.

Definition decode_complete (s : KeySchema) (key : list byte) : Checked (list CanonicalValue) :=
  match ks_purpose s with
  | KP_Entity _ => decode_entity s key
  | KP_Partition _ => decode_partition s key
  | _ => decode_conflict s key
  end.

(** The schema accepts the values: one for each component, of its type, and a
    declared variant of an enum. *)
Definition accepts (cs : list KeyComponentSchema) (vs : list CanonicalValue) : bool :=
  (zlen vs =? zlen cs) && forallb (fun '(c, v) => is_ok (validate_key_value c v)) (zip cs vs).

(** Owners and indexes are identified by nonzero numbers of 32 bits. *)
Definition identified (p : KeyPurpose) : bool :=
  match p with
  | KP_Entity id | KP_Partition id | KP_Conflict id => nonzero_u32b id
  | KP_Index index entity => nonzero_u32b index && nonzero_u32b entity
  end.

Definition purpose_owner (p : KeyPurpose) : Z :=
  match p with KP_Entity id | KP_Partition id | KP_Conflict id => id | KP_Index index _ => index end.

Definition key_prefix (p : KeyPurpose) : list byte :=
  match p with
  | KP_Entity _ => ENTITY_KEY_V1_PREFIX
  | KP_Partition _ => PARTITION_KEY_V1_PREFIX
  | KP_Conflict _ => CONFLICT_KEY_V1_PREFIX
  | KP_Index _ _ => INDEX_ENTRY_KEY_V1_PREFIX
  end.

Lemma zlen_prefix p : zlen (key_prefix p) = 2.
Proof. by destruct p. Qed.

Lemma owner_range p : identified p = true -> u_range 32 (purpose_owner p).
Proof. destruct p; cbn; unfold nonzero_u32b, u_range; lia. Qed.

Lemma accepts_spec cs vs : Forall component_checked cs -> accepts cs vs = true <-> exists comps, key_values cs vs comps.
Proof.
  intros Hc. unfold accepts. rewrite andb_true_iff, Z.eqb_eq. split.
  - intros [Hl H]. revert vs Hl H. induction Hc as [|c cs Hc _ IH]; intros [|v vs] Hl H; unfold zlen in Hl; cbn [length] in Hl; try lia.
    + exists []. constructor.
    + cbn in H. apply andb_true_iff in H as [Hv H]. destruct (IH vs) as [comps Hk]; [unfold zlen; lia|done|].
      destruct (component_exists c v Hc) as [comp Hcomp]; [by destruct (validate_key_value c v) as [[]|]|].
      exists (comp :: comps). by constructor.
  - intros [comps Hk]. split; [unfold zlen; by rewrite (Forall3_length_lm _ _ _ _ Hk)|].
    induction Hk as [|c v comp cs vs comps [Hv _] _ IH]; [done|]. cbn. rewrite Hv. cbn. apply IH. by apply Forall_cons in Hc as [_ Hc].
Qed.

(** What the constructor establishes. *)
Record schema_checked (s : KeySchema) : Prop := {
  sk_components : Forall component_checked (ks_components s);
  sk_identified : identified (ks_purpose s) = true;
  sk_maximum : exists m, add_maximums 6 (ks_components s) = Ok m /\ m <= ks_maximum_encoded_bytes s <= MAX_KEY_BYTES;
}.

Lemma checked_len_ok kind a m u : checked_len kind a m = Ok u -> a <= m.
Proof. unfold checked_len. destruct (Z.ltb_spec m a); [done|lia]. Qed.

Lemma key_schema_new_ok purpose components s : Forall component_checked components -> identified purpose = true ->
  key_schema_new purpose components = Ok s ->
  schema_checked s /\ ks_purpose s = purpose /\ ks_components s = components /\ (forall i e, purpose <> KP_Index i e).
Proof.
  intros Hc Hi H. unfold key_schema_new in H. destruct purpose; try discriminate H;
    (destruct (bool_decide _); [done|]); try (destruct (negb _); [done|]);
    apply result_bind_ok in H as (u & _ & H); apply result_bind_ok in H as (m & Hm & [= <-]);
    apply result_bind_ok in Hm as (t & Ht & (t' & [= <-] & (u' & Hu%checked_len_ok & [= <-])%result_bind_ok)%result_bind_ok);
    (split; [constructor; [done|done|by exists t]|done]).
Qed.

(** Encoding under a checked schema. *)
Lemma built_complete cs vs comps b reason : zlen (kb_bytes b) = 6 -> key_values cs vs comps ->
  6 + zlen (components_bytes comps) <= MAX_KEY_BYTES ->
  finish_with (append_components cs vs) b key_finish reason = Ok (kb_bytes b ++ components_bytes comps).
Proof. intros Hb Hk Hl. unfold finish_with. by rewrite (append_total cs vs comps b Hk) by lia. Qed.

Lemma encode_complete_ok s vs comps : schema_checked s -> (forall i e, ks_purpose s <> KP_Index i e) ->
  Forall value_wf vs -> key_values (ks_components s) vs comps ->
  encode_complete s vs = Ok (complete_key (key_prefix (ks_purpose s)) (purpose_owner (ks_purpose s)) comps) /\
  zlen (complete_key (key_prefix (ks_purpose s)) (purpose_owner (ks_purpose s)) comps) <= ks_maximum_encoded_bytes s.
Proof.
  intros [Hc Hi (m & Hm & Hmax)] Hp Hw Hk. pose proof (components_bound _ _ _ Hc Hw Hk _ _ Hm) as Hb.
  rewrite zlen_complete by apply zlen_prefix. split; [|lia].
  unfold encode_complete, encode_entity, encode_partition, encode_conflict.
  destruct (ks_purpose s); try (by destruct (Hp index_id entity_type)); (apply built_complete; [reflexivity|done|lia]).
Qed.

Lemma finish_with_ok cs vs b finish reason key : finish_with (append_components cs vs) b finish reason = Ok key ->
  exists comps, key_values cs vs comps.
Proof.
  unfold finish_with. destruct (append_components cs vs b) as [s [[]|]] eqn:E; [|done]. intros _.
  apply append_ok in E as (comps & Hk & _). by exists comps.
Qed.

Lemma encode_complete_accepted s vs key : encode_complete s vs = Ok key -> exists comps, key_values (ks_components s) vs comps.
Proof.
  unfold encode_complete, encode_entity, encode_partition, encode_conflict.
  destruct (ks_purpose s); try discriminate; apply finish_with_ok.
Qed.

Lemma decode_complete_walk s key : (forall i e, ks_purpose s <> KP_Index i e) ->
  decode_complete s key = complete_components true key (key_prefix (ks_purpose s)) (purpose_owner (ks_purpose s)) (ks_components s).
Proof.
  intros Hp. unfold decode_complete, decode_entity, decode_partition, decode_conflict.
  destruct (ks_purpose s); try done. by destruct (Hp index_id entity_type).
Qed.

(** C14. Complete keys round trip.  Under a schema that the constructor accepts,
    for entities, partitions and conflict domains: values are encoded exactly
    when there is one for each component and the schema accepts each of them; the
    key is then within the maximum that the schema computed, and decodes to those
    values; and any bytes that decode are the key of the decoded values. *)
Theorem key_schema_roundtrip purpose components s :
  Forall component_checked components -> identified purpose = true -> key_schema_new purpose components = Ok s ->
  (forall vs, Forall value_wf vs ->
     if accepts components vs
     then exists key, encode_complete s vs = Ok key /\ zlen key <= ks_maximum_encoded_bytes s /\ decode_complete s key = Ok vs
     else exists e, encode_complete s vs = Err e) /\
  (forall key vs, decode_complete s key = Ok vs -> Forall value_wf vs /\ encode_complete s vs = Ok key).
Proof.
  intros Hc Hi H. apply key_schema_new_ok in H as (Hs & Hpu & Hco & Hp); [|done|done]. rewrite <- Hpu in Hp.
  split.
  - intros vs Hw. destruct (accepts components vs) eqn:Ea.
    + apply (accepts_spec _ _ Hc) in Ea as [comps Hk]. rewrite <- Hco in Hk.
      destruct (encode_complete_ok s vs comps Hs Hp Hw Hk) as [He Hl]. eexists. split_and!; [exact He|exact Hl|].
      destruct Hs as [Hcs Hid (m & _ & Hmax)]. rewrite decode_complete_walk by done.
      apply complete_components_ok; try done; [apply zlen_prefix|by apply owner_range|].
      unfold MAX_KEY_BYTES, usize_max in *. lia.
    + destruct (encode_complete s vs) as [key|e] eqn:E; [|by exists e]. exfalso. apply encode_complete_accepted in E.
      rewrite Hco in E. apply (accepts_spec _ _ Hc) in E. congruence.
  - intros key vs Hd. rewrite decode_complete_walk in Hd by done.
    apply complete_components_inv in Hd as (Hw & comps & Hk & ->); [|apply Hs]. split; [done|].
    by destruct (encode_complete_ok s vs comps Hs Hp Hw Hk) as [-> _].
Qed.

(** ** Index entry keys *)
Record index_checked (s es : KeySchema) (index entity : Z) : Prop := {
  ik_purpose : ks_purpose s = KP_Index index entity;
  ik_components : Forall component_checked (ks_components s);
  ik_index : nonzero_u32b index = true;
  ik_entity : ks_entity_key_schema s = Some es;
  ik_owner : ks_purpose es = KP_Entity entity;
  ik_schema : schema_checked es;
  ik_maximum : exists m, add_maximums 6 (ks_components s) = Ok m /\
    m + 4 + ks_maximum_encoded_bytes es <= ks_maximum_encoded_bytes s <= MAX_KEY_BYTES;
}.

Lemma key_schema_index_ok index entity components es s :
  Forall component_checked components -> nonzero_u32b index = true -> schema_checked es ->
  key_schema_index index entity components es = Ok s -> index_checked s es index entity /\ ks_components s = components.
Proof.
  intros Hc Hi Hes H. unfold key_schema_index in H. case_bool_decide as Ho; [|done]. cbn [negb] in H.
  destruct (bool_decide _); [done|]. apply result_bind_ok in H as (u & _ & (m & Hm & [= <-])%result_bind_ok).
  apply result_bind_ok in Hm as (t & Ht & (t' & Ht' & (u' & Hu%checked_len_ok & [= <-])%result_bind_ok)%result_bind_ok).
  apply ok_or_ok, bind_Some in Ht' as (x & [-> _]%u_checked_Some & [-> _]%u_checked_Some).
  split; [|done]. constructor; try done. exists t. cbn [ks_components ks_maximum_encoded_bytes]. split; [done|lia].
Qed.

(** The bytes of an index entry key. *)
Definition index_key (index : Z) (comps : list Component) (ek : list byte) : list byte :=
  complete_key INDEX_ENTRY_KEY_V1_PREFIX index comps ++ prefixed 4 ek.

Lemma entity_key_shape es entity ek evs : schema_checked es -> ks_purpose es = KP_Entity entity -> decode_entity es ek = Ok evs ->
  validate_entity es ek = Ok tt /\ zlen ek <= ks_maximum_encoded_bytes es /\
  bounded_key_new ENTITY_KEY_V1_PREFIX TYPED_KEY_ENVELOPE_BYTES ek = Ok ek.
Proof.
  intros Hs Hp Hd. unfold decode_entity in Hd. unfold validate_entity. rewrite Hp in *.
  rewrite complete_components_dropped by apply Hs. rewrite Hd. split; [done|].
  apply complete_components_inv in Hd as (Hw & comps & Hk & ->); [|apply Hs].
  destruct (encode_complete_ok es evs comps Hs) as [_ Hl]; [by rewrite Hp|done|done|]. rewrite Hp in Hl. cbn [key_prefix purpose_owner] in Hl.
  split; [done|]. destruct Hs as [_ Hi (m & _ & Hmax)]. rewrite Hp in Hi. cbn [identified] in Hi.
  assert (complete_key ENTITY_KEY_V1_PREFIX entity comps = purpose_prefix EntityKeys ++ be_bytes 4 entity ++ components_bytes comps) as E
    by (unfold complete_key; by rewrite <- app_assoc).
  rewrite E in Hl |- *. apply (validate_built EntityKeys entity (components_bytes comps)); [unfold nonzero_u32b in Hi; lia|].
  split; [|lia]. rewrite !zlen_app, zlen_be_bytes. pose proof (zlen_nonneg (components_bytes comps)).
  change (zlen (purpose_prefix EntityKeys)) with 2. unfold purpose_minimum, TYPED_KEY_ENVELOPE_BYTES. lia.
Qed.

Lemma bounded_key_same prefix minimum b k : bounded_key_new prefix minimum b = Ok k -> k = b.
Proof.
  unfold bounded_key_new. do 2 (destruct (_ <? _); [done|]). repeat (case_match; try discriminate). by intros [= <-].
Qed.

(** The walk over an index key. *)
Definition index_walk (retain : bool) (index : Z) (cs : list KeyComponentSchema) : Walk (list CanonicalValue * list byte) :=
  _ ← expect_prefix INDEX_ENTRY_KEY_V1_PREFIX index;
  values ← read_components retain cs;
  length ← cursor_u32;
  bytes ← cursor_read length;
  mret (values, bytes).

Lemma parses_index index cs vs comps ek : u_range 32 index -> Forall component_checked cs -> Forall value_wf vs ->
  key_values cs vs comps -> u_range 32 (zlen ek) -> parses (index_walk true index cs) (index_key index comps ek) (vs, ek).
Proof.
  intros Hi Hc Hw Hk He. unfold index_key, complete_key, prefixed. rewrite <- (app_assoc (_ ++ _)).
  eapply parses_bind; [by apply parses_prefix|]. eapply parses_bind; [by apply parses_key_components|].
  eapply parses_bind; [by apply (parses_unsigned _ 4)|]. eapply parses_last; [by apply parses_read|apply parses_ret].
Qed.

Lemma inverts_index index cs : Forall component_checked cs -> inverts (index_walk true index cs) (fun b p =>
  Forall value_wf p.1 /\ u_range 32 (zlen p.2) /\ exists comps, key_values cs p.1 comps /\ b = index_key index comps p.2).
Proof.
  intros Hc i r s p H. unfold index_walk in H.
  apply SE_bind_ok in H as (s1 & [] & H1 & H). apply inverts_prefix in H1 as (b1 & r1 & -> & -> & ->).
  apply SE_bind_ok in H as (s2 & vs & H2 & H). apply (inverts_key_components _ Hc) in H2 as (b2 & r2 & -> & -> & Hw & comps & Hk & ->).
  apply SE_bind_ok in H as (s3 & n & H3 & H). apply inverts_unsigned in H3 as (b3 & r3 & -> & -> & -> & Hn).
  apply SE_bind_ok in H as (s4 & ek & H4 & H). apply inverts_read in H4 as (b4 & r4 & -> & -> & -> & <-).
  injection H as <- <-. exists (index_key index comps b4), r4. unfold index_key, complete_key, prefixed.
  split_and!; [by rewrite <- !app_assoc|by rewrite <- !app_assoc|done|done|]. by exists comps.
Qed.

Lemma bind_head {A B} (m m' : Walk A) (f : A -> Walk B) s : m s = m' s -> (m ≫= f) s = (m' ≫= f) s.
Proof. intros H. unfold mbind, SE_bind. by rewrite H. Qed.

Lemma index_walk_dropped index cs i r : Forall component_checked cs ->
  index_walk false index cs (at_split i r) =
  (p ← index_walk true index cs; mret (([] : list CanonicalValue), p.2)) (at_split i r).
Proof.
  intros Hc. unfold index_walk. rewrite bind_assoc. apply bind_step.
  intros s1 [] (b & r1 & -> & -> & ->)%inverts_prefix. rewrite bind_assoc.
  rewrite (bind_head _ _ _ _ (read_components_dropped cs Hc _ _)), bind_assoc. apply bind_step. intros s2 vs _.
  unfold mbind, SE_bind, mret, SE_ret. destruct (cursor_u32 s2) as [s3 [n|]]; [|done].
  by destruct (cursor_read n s3) as [s4 [x|]].
Qed.

Lemma walk_index_unfold retain s es index entity key : index_checked s es index entity ->
  walk_index retain s key =
  ('(values, bytes) ← walk_end key (index_walk retain index (ks_components s) (mkDecoder key 0));
   entity_key ← map_err (fun _ => IR_InvalidKey "invalid nested entity key envelope")
                  (bounded_key_new ENTITY_KEY_V1_PREFIX TYPED_KEY_ENVELOPE_BYTES bytes);
   _ ← validate_entity es entity_key;
   Ok (values, entity_key)).
Proof. intros H. unfold walk_index. rewrite (ik_purpose _ _ _ _ H), (ik_entity _ _ _ _ H). reflexivity. Qed.

(** The walk that keeps no values decides the same.  For an index schema
    that the constructor accepts and any bytes, the decoder that returns only the
    entity key gives the entity key, or the error, of the decoder that returns the
    values too; and for its entity schema and any bytes, validation gives exactly
    the verdict of decoding, the same error included. *)
Theorem dropped_values_same_verdict index entity components es s :
  Forall component_checked components -> nonzero_u32b index = true -> schema_checked es ->
  key_schema_index index entity components es = Ok s ->
  (forall key, validate_entity es key = (_ ← decode_entity es key; Ok tt)) /\
  (forall key, decode_index_entity_key s key = ('(_, entity_key) ← decode_index s key; Ok entity_key)).
Proof.
  intros Hc Hi Hes H. apply key_schema_index_ok in H as [Hs _]; [|done|done|done]. split; intros key.
  - unfold validate_entity, decode_entity. rewrite (ik_owner _ _ _ _ Hs), complete_components_dropped by apply Hes.
    by destruct (complete_components true _ _ _ _).
  - unfold decode_index_entity_key, decode_index. rewrite !(walk_index_unfold _ _ _ _ _ _ Hs).
    change (mkDecoder key 0) with (at_split [] key). rewrite index_walk_dropped by apply Hs. unfold mbind, SE_bind.
    destruct (index_walk true index _ _) as [s' [[vs b]|]]; [|done]. cbn. destruct (negb _); [done|]. cbn.
    destruct (map_err _ _) as [ek|]; [|done]. cbn. by destruct (validate_entity es ek).
Qed.

(** ** Index entries round trip *)
Lemma zlen_index_key index comps ek : zlen (index_key index comps ek) = 10 + zlen (components_bytes comps) + zlen ek.
Proof. unfold index_key, prefixed. rewrite !zlen_app, zlen_be_bytes, zlen_complete by done. lia. Qed.

Lemma encode_index_ok s es index entity vs comps ek evs : index_checked s es index entity -> Forall value_wf vs ->
  key_values (ks_components s) vs comps -> decode_entity es ek = Ok evs ->
  encode_index s vs ek = Ok (index_key index comps ek) /\ zlen (index_key index comps ek) <= ks_maximum_encoded_bytes s.
Proof.
  intros Hs Hw Hk Hd. destruct (ik_maximum _ _ _ _ Hs) as (m & Hm & Hmax).
  pose proof (components_bound _ _ _ (ik_components _ _ _ _ Hs) Hw Hk _ _ Hm) as Hb.
  destruct (entity_key_shape _ _ _ _ (ik_schema _ _ _ _ Hs) (ik_owner _ _ _ _ Hs) Hd) as (_ & Hl & _).
  rewrite zlen_index_key. split; [|lia]. pose proof (zlen_nonneg ek). pose proof (zlen_nonneg (components_bytes comps)).
  unfold encode_index. rewrite (ik_purpose _ _ _ _ Hs), (ik_entity _ _ _ _ Hs). cbn [ok_or mbind result_bind]. rewrite Hd.
  cbn [mbind result_bind]. unfold finish_with.
  rewrite (append_total _ _ _ (index_entry_key_builder_new index) Hk)
    by (change (zlen (kb_bytes (index_entry_key_builder_new index))) with 6; lia).
  unfold index_entry_finish. pose proof (appends_bytes ek) as Ha.
  specialize (Ha (mkKeyBuilder (kb_bytes (index_entry_key_builder_new index) ++ components_bytes comps))).
  cbn [kb_bytes] in Ha. change (be_bytes 4 (zlen ek) ++ ek) with (prefixed 4 ek) in Ha.
  assert (zlen (kb_bytes (index_entry_key_builder_new index) ++ components_bytes comps) + zlen (prefixed 4 ek) <= MAX_KEY_BYTES) as Hfit.
  { unfold prefixed. rewrite !zlen_app, zlen_be_bytes. change (zlen (kb_bytes (index_entry_key_builder_new index))) with 6. lia. }
  apply Z.leb_le in Hfit. rewrite Hfit in Ha. by rewrite Ha.
Qed.

Lemma decode_index_inv s es index entity key vs ek : index_checked s es index entity -> decode_index s key = Ok (vs, ek) ->
  Forall value_wf vs /\ (exists evs, decode_entity es ek = Ok evs) /\
  exists comps, key_values (ks_components s) vs comps /\ key = index_key index comps ek.
Proof.
  intros Hs H. unfold decode_index in H. rewrite (walk_index_unfold _ _ _ _ _ _ Hs) in H.
  apply result_bind_ok in H as ([vs' b] & Hw & H).
  apply result_bind_ok in H as (k & Hk%map_err_ok & ([] & Hv & [= -> ->])%result_bind_ok).
  apply bounded_key_same in Hk as ->. eapply walk_end_inv in Hw; [|apply inverts_index, Hs].
  destruct Hw as (Hwf & _ & comps & Hkv & ->). cbn [fst snd] in *. split_and!; [done| |by exists comps].
  unfold validate_entity in Hv. unfold decode_entity. rewrite (ik_owner _ _ _ _ Hs) in *.
  rewrite complete_components_dropped in Hv by apply (ik_schema _ _ _ _ Hs).
  destruct (complete_components true _ _ _ _) as [evs|]; [by exists evs|done].
Qed.

(** C32. Index entries round trip.  Under a checked index schema, with an
    entity key that its entity schema decodes: values are encoded exactly when
    the schema accepts them; the key is within the computed maximum, and decodes
    to the values and that entity key; and any bytes that decode are the key of
    what they decode to. *)
Theorem index_key_roundtrip index entity components es s :
  Forall component_checked components -> nonzero_u32b index = true -> schema_checked es ->
  key_schema_index index entity components es = Ok s ->
  (forall vs ek evs, Forall value_wf vs -> decode_entity es ek = Ok evs ->
     if accepts components vs
     then exists key, encode_index s vs ek = Ok key /\ zlen key <= ks_maximum_encoded_bytes s /\ decode_index s key = Ok (vs, ek)
     else exists e, encode_index s vs ek = Err e) /\
  (forall key vs ek, decode_index s key = Ok (vs, ek) -> encode_index s vs ek = Ok key).
Proof.
  intros Hc Hi Hes H. apply key_schema_index_ok in H as [Hs Hco]; [|done|done|done]. split.
  - intros vs ek evs Hw Hd. destruct (accepts components vs) eqn:Ea.
    + apply (accepts_spec _ _ Hc) in Ea as [comps Hk]. rewrite <- Hco in Hk.
      destruct (encode_index_ok _ _ _ _ _ _ _ _ Hs Hw Hk Hd) as [He Hl]. eexists. split_and!; [exact He|exact Hl|].
      destruct (entity_key_shape _ _ _ _ Hes (ik_owner _ _ _ _ Hs) Hd) as (Hv & Hle & Hb).
      destruct (ik_maximum _ _ _ _ Hs) as (m & _ & Hmax). unfold decode_index. rewrite (walk_index_unfold _ _ _ _ _ _ Hs).
      rewrite (walk_end_ok _ _ (vs, ek)).
      * cbn [mbind result_bind]. rewrite Hb. cbn. by rewrite Hv.
      * apply parses_index; [unfold nonzero_u32b in Hi; unfold u_range; lia|apply Hs|done|done|].
        pose proof (zlen_nonneg ek). rewrite zlen_index_key in Hl. pose proof (zlen_nonneg (components_bytes comps)).
        unfold u_range, MAX_KEY_BYTES in *. lia.
      * unfold MAX_KEY_BYTES, usize_max in *. lia.
    + destruct (encode_index s vs ek) as [key|e] eqn:E; [|by exists e]. exfalso. unfold encode_index in E.
      rewrite (ik_purpose _ _ _ _ Hs), (ik_entity _ _ _ _ Hs) in E. apply result_bind_ok in E as (? & _ & E).
      apply result_bind_ok in E as (? & _ & E). apply finish_with_ok in E. rewrite Hco in E.
      apply (accepts_spec _ _ Hc) in E. congruence.
  - intros key vs ek Hd. destruct (decode_index_inv _ _ _ _ _ _ _ Hs Hd) as (Hw & (evs & He) & comps & Hk & ->).
    by destruct (encode_index_ok _ _ _ _ _ _ _ _ Hs Hw Hk He) as [-> _].
Qed.

(** ** Scan prefixes *)
Lemma key_values_unique cs vs comps comps' : key_values cs vs comps -> key_values cs vs comps' -> comps = comps'.
Proof.
  intros H. revert comps'. induction H as [|c v comp cs vs comps [_ Hc] _ IH]; intros comps' H'; inversion H' as [|? ? ? ? ? ? [_ Hc'] Hr]; [done|].
  subst. f_equal; [congruence|by apply IH].
Qed.

Lemma key_values_take n cs vs comps : key_values cs vs comps -> key_values (take n cs) (take n vs) (take n comps).
Proof. intros H. revert n. induction H as [|c v comp cs vs comps Hk _ IH]; intros [|n]; constructor; [done|apply IH]. Qed.

Lemma encode_index_prefix_ok s es index entity vs p : index_checked s es index entity -> encode_index_prefix s vs = Ok p ->
  exists comps, key_values (take (length vs) (ks_components s)) vs comps /\ p = mkScanPrefix index (zlen vs) (complete_key INDEX_ENTRY_KEY_V1_PREFIX index comps) /\
    zlen (sp_bytes p) <= MAX_KEY_BYTES.
Proof.
  intros Hs H. unfold encode_index_prefix in H. rewrite (ik_purpose _ _ _ _ Hs) in H. destruct (_ <? _); [done|].
  destruct (append_components _ _ _) as [b [[]|]] eqn:E; [|done]. injection H as <-.
  apply append_ok in E as (comps & Hk & Hb & Hm). exists comps. split; [done|]. cbn [sp_bytes]. rewrite Hb. split; [done|].
  rewrite <- Hb. apply Hm. by vm_compute.
Qed.

(** C15. Index scans are exact.  The prefix that is encoded for some leading
    values is a prefix of an index key, under a schema that the constructor
    accepts, exactly when the leading values of the entry are those values: a scan
    by prefix returns every entry with these values and no other. *)
Theorem index_prefix_scan_exact index entity components es s leading p key vs ek :
  Forall component_checked components -> nonzero_u32b index = true -> schema_checked es ->
  key_schema_index index entity components es = Ok s ->
  Forall value_wf leading -> encode_index_prefix s leading = Ok p -> decode_index s key = Ok (vs, ek) ->
  sp_bytes p `prefix_of` key <-> take (length leading) vs = leading.
Proof.
  intros Hc Hi Hes H Hw Hp Hd. apply key_schema_index_ok in H as [Hs _]; [|done|done|done]. apply (encode_index_prefix_ok _ _ _ _ _ _ Hs) in Hp as (lc & Hlc & -> & Hlen).
  destruct (decode_index_inv _ _ _ _ _ _ _ Hs Hd) as (Hwv & (evs & He) & comps & Hk & ->).
  destruct (encode_index_ok _ _ _ _ _ _ _ _ Hs Hwv Hk He) as [_ Hmax]. destruct (ik_maximum _ _ _ _ Hs) as (m & _ & Hmm).
  cbn [sp_bytes] in *. unfold index_key, complete_key. pose proof (key_values_take (length leading) _ _ _ Hk) as Htake.
  assert (components_bytes comps = components_bytes (take (length leading) comps) ++ components_bytes (drop (length leading) comps)) as Hsplit
    by (unfold components_bytes; rewrite <- concat_app, <- map_app; by rewrite take_drop).
  split.
  - intros [rest Hr]. rewrite <- !app_assoc in Hr. do 2 apply app_inv_head in Hr. rewrite Hsplit, <- app_assoc in Hr.
    pose proof (Forall_take _ (length leading) _ (ik_components _ _ _ _ Hs)) as Hct.
    pose proof (parses_key_components _ _ _ Hct Hw Hlc [] rest) as P1.
    pose proof (parses_key_components _ _ _ Hct (Forall_take _ (length leading) _ Hwv) Htake [] (components_bytes (drop (length leading) comps) ++ prefixed 4 ek)) as P2.
    assert (zlen (components_bytes lc ++ rest) <= MAX_KEY_BYTES) as Hsz.
    { rewrite <- Hr, app_assoc, <- Hsplit. unfold index_key, complete_key in Hmax. rewrite !zlen_app in *. rewrite zlen_be_bytes in *.
      change (zlen INDEX_ENTRY_KEY_V1_PREFIX) with 2 in Hmax. lia. }
    pose proof Hsz as Hsz2. rewrite <- Hr in Hsz2. rewrite zlen_app in Hsz, Hsz2. unfold MAX_KEY_BYTES, usize_max in *.
    cbn [app] in P1, P2. specialize (P1 ltac:(rewrite zlen_nil; unfold usize_max; lia)). specialize (P2 ltac:(rewrite zlen_nil; unfold usize_max; lia)).
    rewrite <- Hr, P2 in P1. apply (f_equal snd) in P1. cbn [snd] in P1. by injection P1.
  - intros E. rewrite E in Htake. rewrite (key_values_unique _ _ _ _ Hlc Htake), Hsplit.
    eexists. by rewrite <- !app_assoc.
Qed.

(** ** A sample: tickets, indexed by status and title *)
Definition sample_status : KeyComponentSchema := mkKeyComponent (T_Enum 3) [1; 2] KC_Canonical 4.
Definition sample_title : KeyComponentSchema := mkKeyComponent (T_Bytes 64) [] KC_OrderedBytes 130.
Definition sample_number : KeyComponentSchema := mkKeyComponent T_U64 [] KC_Canonical 8.
Definition sample_tickets : KeySchema := mkKeySchema (KP_Entity 7) [sample_number] None 14.
Definition sample_index : KeySchema := mkKeySchema (KP_Index 9 7) [sample_status; sample_title] (Some sample_tickets) 158.
Definition sample_values : list CanonicalValue := [VEnum 3 2; VBytes [x00; x61]].

Lemma sample_built :
  component_new (T_Enum 3) [2; 1] = Ok sample_status /\ component_ordered_bytes 64 = Ok sample_title /\
  component_new T_U64 [] = Ok sample_number /\ key_schema_new (KP_Entity 7) [sample_number] = Ok sample_tickets /\
  key_schema_index 9 7 [sample_status; sample_title] sample_tickets = Ok sample_index.
Proof. split_and!; reflexivity. Qed.

Lemma sample_number_checked : Forall component_checked [sample_number].
Proof. by repeat constructor. Qed.

Lemma sample_components_checked : Forall component_checked [sample_status; sample_title].
Proof. by repeat constructor. Qed.

Lemma sample_tickets_checked : schema_checked sample_tickets.
Proof. by apply (key_schema_new_ok (KP_Entity 7) [sample_number] sample_tickets sample_number_checked). Qed.

Lemma sample_values_wf : Forall value_wf sample_values.
Proof. repeat constructor; cbn; lia. Qed.

Lemma key_schema_roundtrip_witness : exists key, encode_complete sample_tickets [VU64 300] = Ok key /\
  decode_complete sample_tickets key = Ok [VU64 300].
Proof.
  destruct (key_schema_roundtrip (KP_Entity 7) [sample_number] sample_tickets sample_number_checked eq_refl eq_refl) as [H _].
  destruct (H [VU64 300]) as (key & He & _ & Hd); [by repeat constructor|]. by exists key.
Defined.

Lemma dropped_values_same_verdict_witness :
  decode_index_entity_key sample_index [x00] = ('(_, entity_key) ← decode_index sample_index [x00]; Ok entity_key).
Proof.
  exact (proj2 (dropped_values_same_verdict 9 7 [sample_status; sample_title] sample_tickets sample_index
    sample_components_checked eq_refl sample_tickets_checked eq_refl) [x00]).
Defined.

(** The key of ticket 300. *)
Definition sample_entity_key : list byte :=
  match encode_entity sample_tickets [VU64 300] with Ok key => key | Err _ => [] end.

Definition sample_entry : list byte :=
  match encode_index sample_index sample_values sample_entity_key with Ok key => key | Err _ => [] end.

Lemma index_key_roundtrip_witness : exists key, encode_index sample_index sample_values sample_entity_key = Ok key /\
  decode_index sample_index key = Ok (sample_values, sample_entity_key).
Proof.
  destruct (index_key_roundtrip 9 7 [sample_status; sample_title] sample_tickets sample_index
    sample_components_checked eq_refl sample_tickets_checked eq_refl) as [H _].
  destruct (H sample_values sample_entity_key [VU64 300] sample_values_wf) as (key & He & _ & Hd); [reflexivity|]. by exists key.
Defined.

Lemma index_prefix_scan_exact_witness : exists p, encode_index_prefix sample_index [VEnum 3 2] = Ok p /\
  sp_bytes p `prefix_of` sample_entry.
Proof.
  eexists. split; [reflexivity|].
  apply (index_prefix_scan_exact 9 7 [sample_status; sample_title] sample_tickets sample_index [VEnum 3 2] _ sample_entry
    sample_values sample_entity_key sample_components_checked eq_refl sample_tickets_checked eq_refl); try reflexivity.
  repeat constructor; cbn; lia.
Defined.
