(* ===== verification/RowPolicyPlan.v ===== *)
(** * Row policies: checked plans

    [riffdb-contract-ir/src/row_policy.rs]: principal-fact schemas, the operations
    and operands of row policies, and the checked construction of rules, policies
    and catalogues.  A rule is a list of nodes in topological order with the
    index of its root.  A checked rule is bounded, typed, and probes at most one
    index, in its own aggregate and partition. *)

From S2P Require Import Prelude Decimal Value ValueType Names Text Sort Schema.
From Stdlib Require Import Strings.String Strings.Byte.
From stdpp Require Import gmap list strings.

Local Open Scope Z_scope.

Abbreviation MAX_PRINCIPAL_FACT_SCHEMAS_V1 := 32.
Abbreviation MAX_PRINCIPAL_FACT_VALUES_V1 := 64.
Abbreviation MAX_ROW_POLICIES_V1 := 1024.
Abbreviation MAX_ROW_POLICY_RULES_V1 := 4.
Abbreviation MAX_ROW_POLICY_NODES_V1 := 128.
Abbreviation MAX_ROW_POLICY_DISJUNCTION_V1 := 16.
Abbreviation MAX_ROW_POLICY_RELATIONSHIP_PROBES_V1 := 1.
Abbreviation MAX_ROW_POLICY_INDEX_ARGUMENTS_V1 := 16.

Abbreviation Checked A := (result IrValidationError A).
Abbreviation FactTypes := (gmap (list byte) ValueType).

(** ** Principal facts *)
Record PrincipalFactSchemaV1 := mkFactSchema { fs_name : list byte; fs_value_type : ValueType }.

Definition list_parts (t : ValueType) : option (ValueType * Z) :=
  match t with T_List element maximum => Some (element, maximum) | _ => None end.

Definition fact_schema_new (name : list byte) (value_type : ValueType) : Checked PrincipalFactSchemaV1 :=
  _ ← validate_source_name name "principal fact";
  let valid :=
    is_projection_group_scalar value_type ||
    match list_parts value_type with
    | Some (element, maximum) => is_projection_group_scalar element && (maximum <=? MAX_PRINCIPAL_FACT_VALUES_V1)
    | None => false
    end in
  if valid then Ok (mkFactSchema name value_type) else Err (IR_TypeMismatch "principal fact schema").

(** ** Rules *)
Inductive RowPolicyOperationV1 := Op_Read | Op_Create | Op_Update | Op_Delete.

#[export] Instance operation_eq_dec : EqDecision RowPolicyOperationV1.
Proof. solve_decision. Defined.

Definition operation_tag (operation : RowPolicyOperationV1) : Z :=
  match operation with Op_Read => 1 | Op_Create => 2 | Op_Update => 3 | Op_Delete => 4 end.

Inductive RowPolicyValueSourceV1 :=
  | RowField (field : Z)
  | PrincipalId
  | PrincipalKind
  | PrincipalFact (name : list byte)
  | Constant (value : CanonicalValue).

Record RowPolicyOperandV1 := mkPolicyOperand { po_source : RowPolicyValueSourceV1; po_value_type : ValueType }.

Inductive RowPolicyExpressionNodeV1 :=
  | R_Operand (operand : RowPolicyOperandV1)
  | R_Equal (lhs rhs : nat)
  | R_NotEqual (lhs rhs : nat)
  | R_Not (value : nat)
  | R_And (lhs rhs : nat)
  | R_Or (lhs rhs : nat)
  | R_In (needle haystack : nat)
  | R_IsNull (value : nat) (negated : bool)
  | R_IndexedExists (target_entity index_id : Z) (arguments : list RowPolicyOperandV1).

Record RowPolicyRuleV1 := mkRule {
  rr_operation : RowPolicyOperationV1;
  rr_nodes : list RowPolicyExpressionNodeV1;
  rr_root : nat;
}.

Definition require_bool (t : ValueType) : Checked unit :=
  if bool_decide (t = T_Bool) then Ok tt else Err (IR_TypeMismatch "row policy boolean expression").

(** A [for] loop whose body may return early. *)
Fixpoint check_each {A} (body : A -> Checked unit) (l : list A) : Checked unit :=
  match l with
  | [] => Ok tt
  | x :: l' => _ ← body x; check_each body l'
  end.

Section checks.
Context (entity : Z) (schema : SchemaIr) (facts : FactTypes).

Definition validate_operand (operand : RowPolicyOperandV1) : Checked unit :=
  match po_source operand with
  | RowField field =>
      expected ← ok_or (e ← schema_entity schema entity; record_field (et_record e) field)
                   (IR_InvalidReference "row policy field");
      if bool_decide (fd_value_type expected = po_value_type operand) then Ok tt
      else Err (IR_TypeMismatch "row policy field")
  | PrincipalId =>
      if bool_decide (po_value_type operand = T_Uuid) then Ok tt else Err (IR_TypeMismatch "row policy principal ID")
  | PrincipalKind =>
      expected ← type_string 16;
      if bool_decide (po_value_type operand = expected) then Ok tt else Err (IR_TypeMismatch "row policy principal kind")
  | PrincipalFact name =>
      _ ← validate_source_name name "principal fact reference";
      if bool_decide (facts !! name = Some (po_value_type operand)) then Ok tt
      else Err (IR_InvalidReference "row policy principal fact")
  | Constant value => validate_value (po_value_type operand) value
  end.

(** The check of the arguments of a probe against the fields of the index. *)
Definition validate_argument (target : EntitySchema) (p : RowPolicyOperandV1 * Z) : Checked unit :=
  let '(argument, field_id) := p in
  _ ← validate_operand argument;
  expected ← ok_or (record_field (et_record target) field_id) (IR_InvalidReference "row policy target index field");
  if accepts_contextual (fd_value_type expected) (po_value_type argument) then Ok tt
  else Err (IR_TypeMismatch "row policy target index argument").

(** The leading arguments route the probe to the partition of the row. *)
Definition validate_route (source target : EntitySchema) (p : RowPolicyOperandV1 * Z) : Checked unit :=
  let '(argument, target_field_id) := p in
  match po_source argument with
  | RowField source_field_id =>
      source_field ← ok_or (record_field (et_record source) source_field_id)
                       (IR_InvalidReference "row policy source partition field");
      target_field ← ok_or (record_field (et_record target) target_field_id)
                       (IR_InvalidReference "row policy target partition field");
      if negb (bool_decide (fd_name source_field = fd_name target_field)) ||
         negb (bool_decide (fd_value_type source_field = fd_value_type target_field))
      then Err (IR_InvalidDependency "row policy relationship partition mismatch")
      else Ok tt
  | _ => Err (IR_InvalidDependency "row policy relationship partition argument")
  end.

Definition validate_probe (target_entity index_id : Z) (arguments : list RowPolicyOperandV1) : Checked unit :=
  _ ← checked_len "row policy index arguments" (zlen arguments) MAX_ROW_POLICY_INDEX_ARGUMENTS_V1;
  target ← ok_or (schema_entity schema target_entity) (IR_InvalidReference "row policy target entity");
  source ← ok_or (schema_entity schema entity) (IR_InvalidReference "row policy entity");
  source_owner ← ok_or (aggregate_for_entity schema entity) (IR_InvalidReference "row policy aggregate owner");
  target_owner ← ok_or (aggregate_for_entity schema target_entity)
                   (IR_InvalidReference "row policy target aggregate owner");
  if negb (ag_id source_owner =? ag_id target_owner)
  then Err (IR_InvalidDependency "row policy relationship crosses aggregate")
  else
    index ← ok_or (find (fun i => ix_id i =? index_id) (et_indexes target))
              (IR_InvalidReference "row policy target index");
    if negb (zlen (ix_fields index) =? zlen arguments)
    then Err (IR_TypeMismatch "row policy target index arguments")
    else
      root ← ok_or (schema_entity schema (ag_root target_owner)) (IR_InvalidReference "row policy aggregate root");
      let route_width := length (et_primary_key_fields root) in
      if (zlen (ix_fields index) <? Z.of_nat route_width) ||
         (zlen (et_primary_key_fields target) <? Z.of_nat route_width) ||
         negb (bool_decide (take route_width (ix_fields index) = take route_width (et_primary_key_fields target)))
      then Err (IR_InvalidDependency "row policy relationship lacks partition route")
      else
        _ ← check_each (validate_argument target) (zip arguments (ix_fields index));
        check_each (validate_route source target) (take route_width (zip arguments (ix_fields index))).

(** What is known of the earlier nodes: type and width of disjunction. *)
Definition prior (checked : list (ValueType * Z)) (id : nat) : Checked (ValueType * Z) :=
  ok_or (checked !! id) IR_NonForwardExpression.

(** Type, width and number of probes with this node. *)
Definition check_node (checked : list (ValueType * Z)) (probes : Z) (node : RowPolicyExpressionNodeV1) :
    Checked (ValueType * Z * Z) :=
  match node with
  | R_Operand operand => _ ← validate_operand operand; Ok (po_value_type operand, 1, probes)
  | R_Equal lhs rhs | R_NotEqual lhs rhs =>
      '(left_type, _) ← prior checked lhs;
      '(right_type, _) ← prior checked rhs;
      if negb (accepts_contextual left_type right_type) && negb (accepts_contextual right_type left_type)
      then Err (IR_TypeMismatch "row policy equality")
      else Ok (T_Bool, 1, probes)
  | R_Not value =>
      '(t, width) ← prior checked value;
      _ ← require_bool t;
      Ok (T_Bool, width, probes)
  | R_And lhs rhs =>
      '(left_type, left_width) ← prior checked lhs;
      '(right_type, right_width) ← prior checked rhs;
      _ ← require_bool left_type;
      _ ← require_bool right_type;
      Ok (T_Bool, Z.max left_width right_width, probes)
  | R_Or lhs rhs =>
      '(left_type, left_width) ← prior checked lhs;
      '(right_type, right_width) ← prior checked rhs;
      _ ← require_bool left_type;
      _ ← require_bool right_type;
      width ← ok_or (usize_checked_add left_width right_width) (IR_SizeOverflow "row policy disjunction");
      if MAX_ROW_POLICY_DISJUNCTION_V1 <? width
      then Err (IR_LimitExceeded "row policy disjunction" width MAX_ROW_POLICY_DISJUNCTION_V1)
      else Ok (T_Bool, width, probes)
  | R_In needle haystack =>
      '(needle_type, _) ← prior checked needle;
      '(haystack_type, _) ← prior checked haystack;
      match list_parts haystack_type with
      | None => Err (IR_TypeMismatch "row policy membership")
      | Some (element, maximum) =>
          let needle_matches :=
            accepts_contextual element needle_type || bool_decide (optional_inner needle_type = Some element) in
          if (MAX_PRINCIPAL_FACT_VALUES_V1 <? maximum) || negb needle_matches
          then Err (IR_TypeMismatch "row policy membership")
          else Ok (T_Bool, 1, probes)
      end
  | R_IsNull value _ =>
      '(t, _) ← prior checked value;
      if negb (is_optional t) then Err (IR_TypeMismatch "row policy null test") else Ok (T_Bool, 1, probes)
  | R_IndexedExists target_entity index_id arguments =>
      let probes := probes + 1 in
      if MAX_ROW_POLICY_RELATIONSHIP_PROBES_V1 <? probes
      then Err (IR_LimitExceeded "row policy relationship probes" probes MAX_ROW_POLICY_RELATIONSHIP_PROBES_V1)
      else
        _ ← validate_probe target_entity index_id arguments;
        Ok (T_Bool, 1, probes)
  end.

Fixpoint check_nodes (checked : list (ValueType * Z)) (probes : Z) (nodes : list RowPolicyExpressionNodeV1) :
    Checked (list (ValueType * Z)) :=
  match nodes with
  | [] => Ok checked
  | node :: rest =>
      '(t, width, probes) ← check_node checked probes node;
      check_nodes (checked ++ [(t, width)]) probes rest
  end.

Definition rule_new (operation : RowPolicyOperationV1) (nodes : list RowPolicyExpressionNodeV1) (root : nat) :
    Checked RowPolicyRuleV1 :=
  if bool_decide (nodes = []) then Err (IR_Empty "row policy nodes")
  else
    _ ← checked_len "row policy nodes" (zlen nodes) MAX_ROW_POLICY_NODES_V1;
    if zlen nodes <=? Z.of_nat root then Err (IR_InvalidReference "row policy root")
    else
      checked ← check_nodes [] 0 nodes;
      '(t, _) ← prior checked root;
      _ ← require_bool t;
      Ok (mkRule operation nodes root).
End checks.

(** ** Policies and catalogues *)
Record RowPolicyPlanV1 := mkPolicy {
  rw_name : list byte;
  rw_entity : Z;
  rw_rules : list RowPolicyRuleV1;
}.

Definition rule_cmp (a b : RowPolicyRuleV1) : comparison := operation_tag (rr_operation a) ?= operation_tag (rr_operation b).

Definition policy_new (name : list byte) (entity : Z) (rules : list RowPolicyRuleV1) (schema : SchemaIr) :
    Checked RowPolicyPlanV1 :=
  _ ← validate_source_name name "row policy";
  if bool_decide (schema_entity schema entity = None) then Err (IR_InvalidReference "row policy entity")
  else if bool_decide (rules = []) then Err (IR_Empty "row policy rules")
  else
    _ ← checked_len "row policy rules" (zlen rules) MAX_ROW_POLICY_RULES_V1;
    let rules := sort_by rule_cmp rules in
    if adjacent_equal rule_cmp rules then Err (IR_NonCanonicalOrder "row policy operations")
    else Ok (mkPolicy name entity rules).

Record RowPolicyCatalogV1 := mkCatalog {
  ca_facts : list PrincipalFactSchemaV1;
  ca_policies : list RowPolicyPlanV1;
}.

Definition fact_cmp (a b : PrincipalFactSchemaV1) : comparison := lex (fs_name a) (fs_name b).
Definition policy_cmp (a b : RowPolicyPlanV1) : comparison := lex (rw_name a) (rw_name b).

(** The facts as a map from name to type. *)
Definition fact_types (facts : list PrincipalFactSchemaV1) : FactTypes :=
  fold_left (fun m f => <[fs_name f := fs_value_type f]> m) facts ∅.

Definition catalog_new (facts : list PrincipalFactSchemaV1) (policies : list RowPolicyPlanV1) (schema : SchemaIr) :
    Checked RowPolicyCatalogV1 :=
  _ ← checked_len "principal fact schemas" (zlen facts) MAX_PRINCIPAL_FACT_SCHEMAS_V1;
  _ ← checked_len "row policies" (zlen policies) MAX_ROW_POLICIES_V1;
  let facts := sort_by fact_cmp facts in
  if adjacent_equal fact_cmp facts then Err (IR_NonCanonicalOrder "principal fact schemas")
  else
    checked_policies ← mapM (fun policy =>
      checked_rules ← mapM (fun rule =>
        rule_new (rw_entity policy) schema (fact_types facts) (rr_operation rule) (rr_nodes rule) (rr_root rule))
        (rw_rules policy);
      policy_new (rw_name policy) (rw_entity policy) checked_rules schema) policies;
    let checked_policies := sort_by policy_cmp checked_policies in
    if adjacent_equal policy_cmp checked_policies then Err (IR_NonCanonicalOrder "row policies")
    else Ok (mkCatalog facts checked_policies).
