(* ===== verification/RowPolicyGrant.v ===== *)
(** * Row policies: grants of a capability

    [riffdb-types/src/capability_grant.rs]: the operations that a capability
    grants on the rows of an entity, under a named policy of a contract lineage;
    the complete grant of a role with its principal facts; and the narrowing of
    a grant on delegation. *)

From S2P Require Import Prelude Decimal Value Names Results Sort PrincipalFacts RowPolicyPlan.
From Stdlib Require Import Strings.String Strings.Byte.
From stdpp Require Import list.

Local Open Scope Z_scope.

Abbreviation MAX_CAPABILITY_ROW_POLICY_BINDINGS := 1024.

Inductive CapabilityRowPolicyOperationV1 := Cap_Read | Cap_Create | Cap_Update | Cap_Delete.

#[export] Instance cap_operation_eq_dec : EqDecision CapabilityRowPolicyOperationV1.
Proof. solve_decision. Defined.

Definition cap_operation_tag (operation : CapabilityRowPolicyOperationV1) : Z :=
  match operation with Cap_Read => 1 | Cap_Create => 2 | Cap_Update => 3 | Cap_Delete => 4 end.

(** [riffdb-policy/src/row_policy.rs] *)
Definition capability_operation (operation : RowPolicyOperationV1) : CapabilityRowPolicyOperationV1 :=
  match operation with
  | Op_Read => Cap_Read
  | Op_Create => Cap_Create
  | Op_Update => Cap_Update
  | Op_Delete => Cap_Delete
  end.

Inductive CapabilityGrantError := CG_Empty | CG_LimitExceeded | CG_Duplicate.

(** ** Bindings *)
Record CapabilityRowPolicyBindingV1 := mkBinding {
  cb_lineage : list byte;
  cb_policy_name : list byte;
  cb_entity_type : Z;
  cb_operations : list CapabilityRowPolicyOperationV1;
}.

Definition cap_operation_cmp (a b : CapabilityRowPolicyOperationV1) : comparison :=
  cap_operation_tag a ?= cap_operation_tag b.

Definition binding_new (lineage policy_name : list byte) (entity_type : Z)
    (operations : list CapabilityRowPolicyOperationV1) : result CapabilityGrantError CapabilityRowPolicyBindingV1 :=
  if bool_decide (operations = []) then Err CG_Empty
  else if 4 <? zlen operations then Err CG_LimitExceeded
  else
    let operations := sort_by cap_operation_cmp operations in
    if adjacent_equal cap_operation_cmp operations then Err CG_Duplicate
    else Ok (mkBinding lineage policy_name entity_type operations).

(** [append_bytes]: the length [as u32], then the bytes. *)
Definition append_lineage (lineage : list byte) : list byte := be_bytes 4 (zlen lineage mod 2 ^ 32) ++ lineage.

Definition entity_key (binding : CapabilityRowPolicyBindingV1) : list byte :=
  append_lineage (cb_lineage binding) ++ be_bytes 4 (cb_entity_type binding).

Definition canonical_key (binding : CapabilityRowPolicyBindingV1) : list byte :=
  append_lineage (cb_lineage binding) ++ be_bytes 4 (cb_entity_type binding) ++ cb_policy_name binding.

(** ** Grants *)
Record CapabilityRowPolicyGrantV1 := mkGrant {
  cg_application_role_hash : list byte;
  cg_principal_facts : CapabilityPrincipalFactsV1;
  cg_bindings : list CapabilityRowPolicyBindingV1;
}.

Definition canonical_key_cmp (a b : CapabilityRowPolicyBindingV1) : comparison := lex (canonical_key a) (canonical_key b).
Definition entity_key_cmp (a b : CapabilityRowPolicyBindingV1) : comparison := lex (entity_key a) (entity_key b).

Definition grant_new (application_role_hash : list byte) (principal_facts : CapabilityPrincipalFactsV1)
    (bindings : list CapabilityRowPolicyBindingV1) : result CapabilityGrantError CapabilityRowPolicyGrantV1 :=
  if bool_decide (bindings = []) then Err CG_Empty
  else if MAX_CAPABILITY_ROW_POLICY_BINDINGS <? zlen bindings then Err CG_LimitExceeded
  else
    let bindings := sort_by canonical_key_cmp bindings in
    if adjacent_equal entity_key_cmp bindings then Err CG_Duplicate
    else Ok (mkGrant application_role_hash principal_facts bindings).

(** [binary_search] over keys in order, and over operations in order. *)
Definition grant_is_narrowing_of (child parent : CapabilityRowPolicyGrantV1) : bool :=
  bool_decide (cg_application_role_hash child = cg_application_role_hash parent) &&
  facts_is_narrowing_of (cg_principal_facts child) (cg_principal_facts parent) &&
  forallb (fun binding =>
    match find (fun b => bool_decide (canonical_key b = canonical_key binding)) (cg_bindings parent) with
    | Some b => forallb (fun operation => bool_decide (operation ∈ cb_operations b)) (cb_operations binding)
    | None => false
    end) (cg_bindings child).
