(* ===== verification/RowPolicy.v ===== *)
(** * Row policies: decisions

    [riffdb-policy/src/row_policy.rs]: the evaluation of a row-policy rule over a
    row, the principal's facts and the evidence of relationship probes; the
    decision on a read, creation, update or deletion with the proof it gives; the
    revalidation of a proof; and the contexts in which queries, commands and
    projections ask.  Denial is the default.  The hash of a row is over its
    canonical encoding; SHA-256 is an argument. *)

From S2P Require Import Prelude Decimal Value Codec Key ValueType Evaluate Framing Hash Names Text Results Sort PrincipalFacts Schema RowPolicyPlan RowPolicyGrant.
From Stdlib Require Import Strings.String Strings.Byte.
From stdpp Require Import gmap list strings.

Local Open Scope Z_scope.

Abbreviation MAX_PROJECTED_POLICY_CANDIDATES_V1 := 100000.

(** ** Principals *)
Inductive ActorKind := Human | Agent | Service.

(** Of a binding, what the evaluation reads ([riffdb-auth/src/principal_facts.rs]). *)
Record PrincipalFactBindingV1 := mkPrincipal {
  pr_capability_id : list byte;
  pr_revision : Z;
  pr_principal_id : list byte;
  pr_actor_kind : ActorKind;
  pr_facts : CapabilityPrincipalFactsV1;
}.

Definition actor_kind_name (kind : ActorKind) : list byte :=
  match kind with
  | Human => list_byte_of_string "Human"
  | Agent => list_byte_of_string "Agent"
  | Service => list_byte_of_string "Service"
  end.

Definition hex_nibble (value : byte) : option Z :=
  let z := byte_to_Z value in
  if (48 <=? z) && (z <=? 57) then Some (z - 48)
  else if (97 <=? z) && (z <=? 102) then Some (z - 97 + 10)
  else None.

(** The loop over pairs of digits. *)
Fixpoint hex_pairs (digits : list byte) : option (list byte) :=
  match digits with
  | first :: second :: rest =>
      high ← hex_nibble first;
      high ← u_checked 8 (high * 16);
      low ← hex_nibble second;
      value ← u_checked 8 (high + low);
      output ← hex_pairs rest;
      Some (Z_to_byte value :: output)
  | _ => Some []
  end.

Definition parse_uuid (value : list byte) : option (list byte) :=
  if negb (zlen value =? 36) ||
     existsb (fun p => negb (Bool.eqb (bool_decide (p.1 ∈ [8; 13; 18; 23]%nat)) (bool_decide (p.2 = "-"%byte))))
       (imap pair value)
  then None
  else hex_pairs (filter (fun b => b <> "-"%byte) value).

(** ** Relationship evidence *)
Record IndexedRelationshipEvidenceV1 := mkEvidence {
  re_target_entity : Z;
  re_index_id : Z;
  re_arguments : list CanonicalValue;
  re_exists : bool;
}.

Record IndexedRelationshipProbeV1 := mkProbe {
  pb_target_entity : Z;
  pb_index_id : Z;
  pb_arguments : list CanonicalValue;
}.

Definition into_evidence (probe : IndexedRelationshipProbeV1) (exists_ : bool) : IndexedRelationshipEvidenceV1 :=
  mkEvidence (pb_target_entity probe) (pb_index_id probe) (pb_arguments probe) exists_.

(** ** Decisions *)
Inductive RowPolicyDenyReasonV1 :=
  | MissingRule
  | MissingRow
  | MissingOrInvalidPrincipalFact
  | MissingOrInvalidRelationshipEvidence
  | PredicateDenied
  | InvalidPlanOrRow
  | StaleAuthority.

Record RowPolicyProofV1 := mkProof {
  pf_policy_name : list byte;
  pf_entity : Z;
  pf_operation : RowPolicyOperationV1;
  pf_capability_id : list byte;
  pf_capability_revision : Z;
  pf_current_row_hash : option (list byte);
  pf_successor_row_hash : option (list byte);
}.

Inductive RowPolicyDecisionV1 :=
  | Allow (proof : RowPolicyProofV1)
  | Deny (reason : RowPolicyDenyReasonV1).

Definition is_allowed (d : RowPolicyDecisionV1) : bool := match d with Allow _ => true | Deny _ => false end.

Abbreviation Decided A := (result RowPolicyDenyReasonV1 A).
Abbreviation CanonicalRecord := (list (Z * CanonicalValue)).

(** ** Evaluation of a rule *)

(** [binary_search_by_key] over distinct field IDs in order. *)
Definition row_value (row : CanonicalRecord) (field : Z) : option CanonicalValue :=
  snd <$> find (fun f => fst f =? field) row.

Definition evaluate_operand (operand : RowPolicyOperandV1) (row : CanonicalRecord) (principal : PrincipalFactBindingV1) :
    Decided CanonicalValue :=
  value ←
    match po_source operand with
    | RowField field => ok_or (row_value row field) InvalidPlanOrRow
    | PrincipalId =>
        uuid ← ok_or (parse_uuid (pr_principal_id principal)) MissingOrInvalidPrincipalFact;
        Ok (VUuid uuid)
    | PrincipalKind =>
        name ← map_err (fun _ => InvalidPlanOrRow) (canonical_string_new (actor_kind_name (pr_actor_kind principal)));
        Ok (VString name)
    | PrincipalFact name => ok_or (pf_value <$> internal_fact (pr_facts principal) name) MissingOrInvalidPrincipalFact
    | Constant value => Ok value
    end;
  _ ← map_err (fun _ => MissingOrInvalidPrincipalFact) (validate_value (po_value_type operand) value);
  Ok value.

Inductive NodeValue :=
  | Canonical (v : CanonicalValue)
  | Computed (b : bool).

Definition canonical_node (values : list NodeValue) (index : nat) : Decided CanonicalValue :=
  match values !! index with Some (Canonical value) => Ok value | _ => Err InvalidPlanOrRow end.

Definition boolean_node (values : list NodeValue) (index : nat) : Decided bool :=
  match values !! index with
  | Some (Computed value) | Some (Canonical (VBool value)) => Ok value
  | _ => Err InvalidPlanOrRow
  end.

Section rule.
Context (row : CanonicalRecord) (principal : PrincipalFactBindingV1) (relationships : list IndexedRelationshipEvidenceV1).

Definition evaluate_operands (arguments : list RowPolicyOperandV1) : Decided (list CanonicalValue) :=
  mapM (fun argument => evaluate_operand argument row principal) arguments.

(** [evidence.target_entity == .. && evidence.index_id == .. && evidence.arguments == ..] *)
Definition evidence_for (target_entity index_id : Z) (arguments : list CanonicalValue) :
    option IndexedRelationshipEvidenceV1 :=
  find (fun evidence => (re_target_entity evidence =? target_entity) && (re_index_id evidence =? index_id) &&
                        value_eqb (VList (re_arguments evidence)) (VList arguments)) relationships.

Definition evaluate_node (values : list NodeValue) (node : RowPolicyExpressionNodeV1) : Decided NodeValue :=
  match node with
  | R_Operand operand => v ← evaluate_operand operand row principal; Ok (Canonical v)
  | R_Equal lhs rhs =>
      a ← canonical_node values lhs; b ← canonical_node values rhs; Ok (Computed (value_eqb a b))
  | R_NotEqual lhs rhs =>
      a ← canonical_node values lhs; b ← canonical_node values rhs; Ok (Computed (negb (value_eqb a b)))
  | R_Not value => a ← boolean_node values value; Ok (Computed (negb a))
  | R_And lhs rhs =>
      a ← boolean_node values lhs;
      if (a : bool) then b ← boolean_node values rhs; Ok (Computed b) else Ok (Computed false)
  | R_Or lhs rhs =>
      a ← boolean_node values lhs;
      if (a : bool) then Ok (Computed true) else b ← boolean_node values rhs; Ok (Computed b)
  | R_In needle haystack =>
      needle ← canonical_node values needle;
      haystack ← canonical_node values haystack;
      match haystack with
      | VList members => Ok (Computed (existsb (fun candidate => value_eqb candidate needle) members))
      | _ => Err InvalidPlanOrRow
      end
  | R_IsNull value negated =>
      v ← canonical_node values value;
      Ok (Computed (if negated then negb (is_null v) else is_null v))
  | R_IndexedExists target_entity index_id arguments =>
      arguments ← evaluate_operands arguments;
      evidence ← ok_or (evidence_for target_entity index_id arguments) MissingOrInvalidRelationshipEvidence;
      Ok (Computed (re_exists evidence))
  end.

Fixpoint evaluate_nodes (values : list NodeValue) (nodes : list RowPolicyExpressionNodeV1) : Decided (list NodeValue) :=
  match nodes with
  | [] => Ok values
  | node :: rest => value ← evaluate_node values node; evaluate_nodes (values ++ [value]) rest
  end.

Definition evaluate_rule (rule : RowPolicyRuleV1) : Decided bool :=
  values ← evaluate_nodes [] (rr_nodes rule);
  boolean_node values (rr_root rule).
End rule.

(** ** Probes *)
Definition find_rule (policy : RowPolicyPlanV1) (operation : RowPolicyOperationV1) : option RowPolicyRuleV1 :=
  find (fun candidate => bool_decide (rr_operation candidate = operation)) (rw_rules policy).

(** The probe nodes of a rule. *)
Definition probe_nodes (nodes : list RowPolicyExpressionNodeV1) : list (Z * Z * list RowPolicyOperandV1) :=
  omap (fun node => match node with R_IndexedExists t i a => Some (t, i, a) | _ => None end) nodes.

Definition required_indexed_relationship_probes (policy : RowPolicyPlanV1) (operation : RowPolicyOperationV1)
    (row : CanonicalRecord) (principal : PrincipalFactBindingV1) : Decided (list IndexedRelationshipProbeV1) :=
  rule ← ok_or (find_rule policy operation) MissingRule;
  mapM (fun '(target_entity, index_id, arguments) =>
    arguments ← evaluate_operands row principal arguments;
    Ok (mkProbe target_entity index_id arguments)) (probe_nodes (rr_nodes rule)).

(** ** Transitions *)
Section decisions.
Context (sha256 : list byte -> list byte).

Definition row_hash (row : CanonicalRecord) : option (list byte) :=
  match encode_canonical_record row with
  | Ok bytes => Some (typed_hash sha256 HD_CanonicalValue bytes)
  | Err _ => None
  end.

(** The hash of a row that may be absent. *)
Definition optional_row_hash (row : option CanonicalRecord) : Decided (option (list byte)) :=
  match row with
  | Some row => hash ← ok_or (row_hash row) InvalidPlanOrRow; Ok (Some hash)
  | None => Ok None
  end.

(** The rows that the rule must accept. *)
Definition required_rows (operation : RowPolicyOperationV1) (current successor : option CanonicalRecord) :
    option (list CanonicalRecord) :=
  match operation with
  | Op_Read | Op_Delete => current ← current; Some [current]
  | Op_Create => successor ← successor; Some [successor]
  | Op_Update => current ← current; successor ← successor; Some [current; successor]
  end.

(** The loop over the required rows. *)
Fixpoint accept_rows (rule : RowPolicyRuleV1) (principal : PrincipalFactBindingV1)
    (relationships : list IndexedRelationshipEvidenceV1) (rows : list CanonicalRecord) : Decided unit :=
  match rows with
  | [] => Ok tt
  | row :: rest =>
      accepted ← evaluate_rule row principal relationships rule;
      if (accepted : bool) then accept_rows rule principal relationships rest else Err PredicateDenied
  end.

Definition evaluate_row_transition (policy : RowPolicyPlanV1) (operation : RowPolicyOperationV1)
    (current successor : option CanonicalRecord) (principal : PrincipalFactBindingV1)
    (relationships : list IndexedRelationshipEvidenceV1) : RowPolicyDecisionV1 :=
  let decided :=
    rule ← ok_or (find_rule policy operation) MissingRule;
    required ← ok_or (required_rows operation current successor) MissingRow;
    _ ← accept_rows rule principal relationships required;
    current_row_hash ← optional_row_hash current;
    successor_row_hash ← optional_row_hash successor;
    Ok (mkProof (rw_name policy) (rw_entity policy) operation (pr_capability_id principal) (pr_revision principal)
          current_row_hash successor_row_hash) in
  match decided with Ok proof => Allow proof | Err reason => Deny reason end.

Definition evaluate_row_policy (policy : RowPolicyPlanV1) (operation : RowPolicyOperationV1) (row : CanonicalRecord)
    (principal : PrincipalFactBindingV1) (relationships : list IndexedRelationshipEvidenceV1) : RowPolicyDecisionV1 :=
  let '(current, successor) :=
    match operation with
    | Op_Read | Op_Delete => (Some row, None)
    | Op_Create => (None, Some row)
    | Op_Update => (Some row, Some row)
    end in
  evaluate_row_transition policy operation current successor principal relationships.

Definition revalidate_row_policy_proof (prior : RowPolicyProofV1) (policy : RowPolicyPlanV1)
    (current successor : option CanonicalRecord) (principal : PrincipalFactBindingV1)
    (relationships : list IndexedRelationshipEvidenceV1) : RowPolicyDecisionV1 :=
  if negb (bool_decide (pf_policy_name prior = rw_name policy)) || negb (pf_entity prior =? rw_entity policy) ||
     negb (bool_decide (pf_capability_id prior = pr_capability_id principal)) ||
     negb (pf_capability_revision prior =? pr_revision principal)
  then Deny StaleAuthority
  else
    match evaluate_row_transition policy (pf_operation prior) current successor principal relationships with
    | Deny _ => Deny StaleAuthority
    | Allow current_proof =>
        if negb (bool_decide (pf_current_row_hash prior = pf_current_row_hash current_proof)) ||
           negb (bool_decide (pf_successor_row_hash prior = pf_successor_row_hash current_proof))
        then Deny StaleAuthority
        else Allow current_proof
    end.

Definition filter_authorized_rows (policy : RowPolicyPlanV1) (principal : PrincipalFactBindingV1)
    (rows : list CanonicalRecord) (relationships : list IndexedRelationshipEvidenceV1) : list CanonicalRecord :=
  filter (fun row => is_allowed (evaluate_row_policy policy Op_Read row principal relationships) = true) rows.

Definition policy_visible_count (policy : RowPolicyPlanV1) (principal : PrincipalFactBindingV1)
    (rows : list CanonicalRecord) (relationships : list IndexedRelationshipEvidenceV1) : Z :=
  zlen (filter_authorized_rows policy principal rows relationships).

(** ** Contexts *)

(** Of a relationship plan, all but its key schemas. *)
Record AuthorizedRelationshipPlanV1 := mkRelationship {
  rp_target_entity : Z;
  rp_index_id : Z;
  rp_partition_width : nat;
}.

(** Of a selected policy, all but the key schema of its entity. *)
Record AuthorizedEntityPolicyV1 := mkEntityPolicy {
  ep_policy : RowPolicyPlanV1;
  ep_relationships : gmap (Z * Z) AuthorizedRelationshipPlanV1;
  ep_primary_key_fields : list Z;
}.

(** Of a contract bundle, what the contexts read. *)
Record ContractBundle := mkBundle {
  bu_lineage : list byte;
  bu_version : Z;
  bu_row_policies : list RowPolicyPlanV1;
  bu_schema : SchemaIr;
}.

Inductive QueryRowPolicyContextErrorV1 :=
  | QC_StaleOrInconsistentAuthority
  | QC_MissingReadBinding
  | QC_InvalidRelationshipPlan
  | QC_InvalidProjectedCandidateSet.

Inductive CommandRowPolicyContextErrorV1 :=
  | CC_StaleOrInconsistentAuthority
  | CC_MissingOperationBinding
  | CC_InvalidRelationshipPlan.

(** The relationship of one probe node. *)
Definition relationship_plan (schema : SchemaIr) (target_entity index_id : Z) :
    result CommandRowPolicyContextErrorV1 AuthorizedRelationshipPlanV1 :=
  target ← ok_or (schema_entity schema target_entity) CC_InvalidRelationshipPlan;
  index ← ok_or (find (fun index => ix_id index =? index_id) (et_indexes target)) CC_InvalidRelationshipPlan;
  aggregate ← ok_or (aggregate_for_entity schema target_entity) CC_InvalidRelationshipPlan;
  root ← ok_or (schema_entity schema (ag_root aggregate)) CC_InvalidRelationshipPlan;
  Ok (mkRelationship target_entity (ix_id index) (length (et_primary_key_fields root))).

(** The loop over the probe nodes of all rules. *)
Fixpoint add_relationships (schema : SchemaIr) (probes : list (Z * Z * list RowPolicyOperandV1))
    (relationships : gmap (Z * Z) AuthorizedRelationshipPlanV1) :
    result CommandRowPolicyContextErrorV1 (gmap (Z * Z) AuthorizedRelationshipPlanV1) :=
  match probes with
  | [] => Ok relationships
  | (target_entity, index_id, _) :: rest =>
      plan ← relationship_plan schema target_entity index_id;
      add_relationships schema rest (<[(target_entity, index_id) := plan]> relationships)
  end.

Definition relationship_plans (bundle : ContractBundle) (policy : RowPolicyPlanV1) :
    result CommandRowPolicyContextErrorV1 (gmap (Z * Z) AuthorizedRelationshipPlanV1) :=
  add_relationships (bu_schema bundle) (flat_map (fun rule => probe_nodes (rr_nodes rule)) (rw_rules policy)) ∅.

(** The policy that a binding names. *)
Definition bound_policy (bundle : ContractBundle) (binding : CapabilityRowPolicyBindingV1) (entity : Z) :
    option RowPolicyPlanV1 :=
  find (fun policy => bool_decide (rw_name policy = cb_policy_name binding) && (rw_entity policy =? entity))
    (bu_row_policies bundle).

(** *** Queries *)
(** The loop over the accessed entities. *)
Fixpoint resolve_read_policies_from (grant : CapabilityRowPolicyGrantV1) (bundle : ContractBundle) (entities : list Z)
    (policies : gmap Z AuthorizedEntityPolicyV1) :
    result QueryRowPolicyContextErrorV1 (gmap Z AuthorizedEntityPolicyV1) :=
  match entities with
  | [] => Ok policies
  | entity :: rest =>
      let protected := existsb (fun policy => rw_entity policy =? entity) (bu_row_policies bundle) in
      let binding := find (fun binding => bool_decide (cb_lineage binding = bu_lineage bundle) &&
                                          (cb_entity_type binding =? entity)) (cg_bindings grant) in
      match binding with
      | None =>
          if (protected : bool) then Err QC_MissingReadBinding
          else resolve_read_policies_from grant bundle rest policies
      | Some binding =>
          if negb (bool_decide (Cap_Read ∈ cb_operations binding)) then Err QC_MissingReadBinding
          else
            policy ← ok_or (bound_policy bundle binding entity) QC_StaleOrInconsistentAuthority;
            relationships ← map_err (fun _ => QC_InvalidRelationshipPlan) (relationship_plans bundle policy);
            entity_schema ← ok_or (schema_entity (bu_schema bundle) entity) QC_InvalidRelationshipPlan;
            if bool_decide (is_Some (policies !! entity)) then Err QC_StaleOrInconsistentAuthority
            else
              resolve_read_policies_from grant bundle rest
                (<[entity := mkEntityPolicy policy relationships (et_primary_key_fields entity_schema)]> policies)
      end
  end.

Definition resolve_read_policies (grant : CapabilityRowPolicyGrantV1) (bundle : ContractBundle) (entities : list Z) :
    result QueryRowPolicyContextErrorV1 (gmap Z AuthorizedEntityPolicyV1) :=
  resolve_read_policies_from grant bundle entities ∅.

(** The decision of a query: the policies of protected entities, with the
    principal's facts. *)
Record AuthorizedQueryRowPolicyContextV1 := mkQueryContext {
  qx_principal : PrincipalFactBindingV1;
  qx_policies : gmap Z AuthorizedEntityPolicyV1;
}.

Definition allows (context : AuthorizedQueryRowPolicyContextV1) (entity : Z) (row : CanonicalRecord)
    (relationship_exists : list bool) : bool :=
  match qx_policies context !! entity with
  | None => true
  | Some selected =>
      match required_indexed_relationship_probes (ep_policy selected) Op_Read row (qx_principal context) with
      | Err _ => false
      | Ok probes =>
          if negb (zlen probes =? zlen relationship_exists) then false
          else is_allowed (evaluate_row_policy (ep_policy selected) Op_Read row (qx_principal context)
                             (zip_with into_evidence probes relationship_exists))
      end
  end.

(** *** Commands *)
(** The loop over the bindings of the lineage. *)
Fixpoint resolve_command_policies (bundle : ContractBundle) (bindings : list CapabilityRowPolicyBindingV1)
    (policies : gmap Z AuthorizedEntityPolicyV1) :
    result CommandRowPolicyContextErrorV1 (gmap Z AuthorizedEntityPolicyV1) :=
  match bindings with
  | [] => Ok policies
  | binding :: rest =>
      policy ← ok_or (bound_policy bundle binding (cb_entity_type binding)) CC_StaleOrInconsistentAuthority;
      relationships ← relationship_plans bundle policy;
      entity_schema ← ok_or (schema_entity (bu_schema bundle) (cb_entity_type binding)) CC_InvalidRelationshipPlan;
      if bool_decide (is_Some (policies !! cb_entity_type binding)) then Err CC_StaleOrInconsistentAuthority
      else
        resolve_command_policies bundle rest
          (<[cb_entity_type binding := mkEntityPolicy policy relationships (et_primary_key_fields entity_schema)]> policies)
  end.

(** The decision of a command: also the operations that the capability grants. *)
Record AuthorizedCommandRowPolicyContextV1 := mkCommandContext {
  cx_principal : PrincipalFactBindingV1;
  cx_grant : CapabilityRowPolicyGrantV1;
  cx_policies : gmap Z AuthorizedEntityPolicyV1;
}.

(** For the authority, lineage and version of an authorized command. *)
Definition resolve_authorized_command_row_policy_context
    (authority : option (PrincipalFactBindingV1 * CapabilityRowPolicyGrantV1)) (lineage : list byte) (version : Z)
    (bundle : ContractBundle) :
    result CommandRowPolicyContextErrorV1 (option AuthorizedCommandRowPolicyContextV1) :=
  match authority with
  | None => Ok None
  | Some (principal, grant) =>
      if negb (bool_decide (lineage = bu_lineage bundle)) || negb (version =? bu_version bundle)
      then Err CC_StaleOrInconsistentAuthority
      else
        policies ← resolve_command_policies bundle
          (filter (fun binding => cb_lineage binding = bu_lineage bundle) (cg_bindings grant)) ∅;
        Ok (Some (mkCommandContext principal grant policies))
  end.

Definition selection (context : AuthorizedCommandRowPolicyContextV1) (entity : Z) (operation : RowPolicyOperationV1) :
    result CommandRowPolicyContextErrorV1 AuthorizedEntityPolicyV1 :=
  selected ← ok_or (cx_policies context !! entity) CC_MissingOperationBinding;
  let required := capability_operation operation in
  binding ← ok_or (find (fun binding => cb_entity_type binding =? entity) (cg_bindings (cx_grant context)))
              CC_MissingOperationBinding;
  if negb (bool_decide (required ∈ cb_operations binding)) then Err CC_MissingOperationBinding
  else Ok selected.

(** The probes of the rows, one row after another. *)
Fixpoint probes_of (policy : RowPolicyPlanV1) (operation : RowPolicyOperationV1) (principal : PrincipalFactBindingV1)
    (rows : list CanonicalRecord) : option (list IndexedRelationshipProbeV1) :=
  match rows with
  | [] => Some []
  | row :: rest =>
      match required_indexed_relationship_probes policy operation row principal with
      | Err _ => None
      | Ok required => probes ← probes_of policy operation principal rest; Some (required ++ probes)
      end
  end.

Definition allows_transition (context : AuthorizedCommandRowPolicyContextV1) (entity : Z)
    (operation : RowPolicyOperationV1) (current successor : option CanonicalRecord) (relationship_exists : list bool) : bool :=
  match selection context entity operation with
  | Err _ => false
  | Ok selected =>
      let policy := ep_policy selected in
      match required_rows operation current successor with
      | None => false
      | Some rows =>
          match probes_of policy operation (cx_principal context) rows with
          | None => false
          | Some probes =>
              if negb (zlen probes =? zlen relationship_exists) then false
              else is_allowed (evaluate_row_transition policy operation current successor (cx_principal context)
                                 (zip_with into_evidence probes relationship_exists))
          end
      end
  end.

(** *** Projected candidates *)
(** A key with its current row and the observed relationships, if it exists. *)
Record ProjectedPolicyCandidateObservationV1 := mkObservation {
  ob_key : list byte;
  ob_current : option (CanonicalRecord * list bool);
}.

Record AuthorizedProjectedRowAdmissionV1 := mkAdmission {
  pa_entity : Z;
  pa_candidates : list (list byte * bool);
  pa_admitted_count : Z;
}.

(** The loop over the observations, after the candidates found so far. *)
Fixpoint admit_candidates (context : AuthorizedQueryRowPolicyContextV1) (entity : Z)
    (observations : list ProjectedPolicyCandidateObservationV1) (candidates : list (list byte * bool)) (admitted_count : Z) :
    result QueryRowPolicyContextErrorV1 (list (list byte * bool) * Z) :=
  match observations with
  | [] => Ok (candidates, admitted_count)
  | observation :: rest =>
      if negb (bool_decide (key_type_id (ob_key observation) = Some entity)) ||
         match last candidates with
         | Some (prior, _) => match lex prior (ob_key observation) with Lt => false | _ => true end
         | None => false
         end
      then Err QC_InvalidProjectedCandidateSet
      else
        let allowed :=
          match ob_current observation with Some (row, evidence) => allows context entity row evidence | None => false end in
        admit_candidates context entity rest (candidates ++ [(ob_key observation, allowed)])
          (admitted_count + if allowed then 1 else 0)
  end.

Definition authorize_projected_candidates (context : AuthorizedQueryRowPolicyContextV1) (entity : Z)
    (observations : list ProjectedPolicyCandidateObservationV1) :
    result QueryRowPolicyContextErrorV1 AuthorizedProjectedRowAdmissionV1 :=
  if MAX_PROJECTED_POLICY_CANDIDATES_V1 <? zlen observations then Err QC_InvalidProjectedCandidateSet
  else
    '(candidates, admitted_count) ← admit_candidates context entity observations [] 0;
    Ok (mkAdmission entity candidates admitted_count).

(** A set of keys is the list of its elements in order. *)
Definition covers (admission : AuthorizedProjectedRowAdmissionV1) (entity : Z) (candidates : list (list byte)) : bool :=
  (pa_entity admission =? entity) && (zlen (pa_candidates admission) =? zlen candidates) &&
  bool_decide (map fst (pa_candidates admission) = candidates).

Definition admits (admission : AuthorizedProjectedRowAdmissionV1) (key : list byte) : bool :=
  match find (fun c => bool_decide (fst c = key)) (pa_candidates admission) with
  | Some (_, allowed) => allowed
  | None => false
  end.
End decisions.
