(* ===== verification/RowPolicySpec.v ===== *)
(** * Row policies: what the decisions mean

    The meaning of a rule is a predicate on the tree below its root: no order of
    evaluation, no early denial, and relationships as a predicate on the target,
    the index and the arguments.  A rule that the catalogue has checked, on a row
    and a principal of the declared types, is decided exactly by its meaning, from
    the evidence of the probes that the policy itself asks for. *)

From S2P Require Import Prelude Decimal Value Codec CodecEncode CodecDecode Key ValueType Evaluate Framing Hash Names Text Results Sort PrincipalFacts Schema RowPolicyPlan RowPolicyGrant RowPolicy.
From Stdlib Require Import Strings.String Strings.Byte.
From stdpp Require Import gmap list strings.

Local Open Scope Z_scope.

(** ** The meaning of a rule *)
Section meaning.
Context (row : CanonicalRecord) (principal : PrincipalFactBindingV1)
        (related : Z -> Z -> list CanonicalValue -> bool).

Definition operand_value (o : RowPolicyOperandV1) : option CanonicalValue :=
  match po_source o with
  | RowField field => row_value row field
  | PrincipalId => VUuid <$> parse_uuid (pr_principal_id principal)
  | PrincipalKind => Some (VString (actor_kind_name (pr_actor_kind principal)))
  | PrincipalFact name => pf_value <$> internal_fact (pr_facts principal) name
  | Constant value => Some value
  end.

Definition scalar (v : option NodeValue) : option CanonicalValue :=
  match v with Some (Canonical v) => Some v | _ => None end.

Definition truth (v : option NodeValue) : option bool :=
  match v with Some (Computed b) | Some (Canonical (VBool b)) => Some b | _ => None end.

Definition member (needle haystack : CanonicalValue) : bool :=
  match haystack with VList l => existsb (fun v => value_eqb v needle) l | _ => false end.

Context (nodes : list RowPolicyExpressionNodeV1).

(** The meaning of one node, given that of the nodes it names. *)
Definition node_meaning (below : nat -> option NodeValue) (node : RowPolicyExpressionNodeV1) : option NodeValue :=
  match node with
  | R_Operand o => Canonical <$> operand_value o
  | R_Equal l r => a ← scalar (below l); b ← scalar (below r); Some (Computed (value_eqb a b))
  | R_NotEqual l r => a ← scalar (below l); b ← scalar (below r); Some (Computed (negb (value_eqb a b)))
  | R_Not v => a ← truth (below v); Some (Computed (negb a))
  | R_And l r => a ← truth (below l); b ← truth (below r); Some (Computed (a && b))
  | R_Or l r => a ← truth (below l); b ← truth (below r); Some (Computed (a || b))
  | R_In n h => a ← scalar (below n); b ← scalar (below h); Some (Computed (member a b))
  | R_IsNull v negated => a ← scalar (below v); Some (Computed (xorb negated (is_null a)))
  | R_IndexedExists t i args => vs ← mapM operand_value args; Some (Computed (related t i vs))
  end.

Fixpoint meaning (depth : nat) (id : nat) : option NodeValue :=
  match depth with
  | O => None
  | S depth => node ← nodes !! id; node_meaning (meaning depth) node
  end.
End meaning.

(** A rule refers to earlier nodes only, so the index of the root bounds the depth. *)
Definition rule_meaning (row : CanonicalRecord) (principal : PrincipalFactBindingV1)
    (related : Z -> Z -> list CanonicalValue -> bool) (rule : RowPolicyRuleV1) : option bool :=
  truth (meaning row principal related (rr_nodes rule) (S (rr_root rule)) (rr_root rule)).

(** ** Checked operands have values of their type *)

(** The row has a value of the declared type for every field of its entity. *)
Definition row_typed (schema : SchemaIr) (entity : Z) (row : CanonicalRecord) : bool :=
  match schema_entity schema entity with
  | Some e => forallb (fun f => match row_value row (fd_id f) with
                                | Some v => is_ok (validate_value (fd_value_type f) v)
                                | None => false
                                end) (et_record e)
  | None => true
  end.

(** The principal is identified by a UUID and has every declared fact. *)
Definition principal_typed (facts : FactTypes) (principal : PrincipalFactBindingV1) : bool :=
  bool_decide (is_Some (parse_uuid (pr_principal_id principal))) &&
  forallb (fun '(name, t) => match internal_fact (pr_facts principal) name with
                             | Some f => is_ok (validate_value t (pf_value f))
                             | None => false
                             end) (map_to_list facts).

Lemma is_ok_unit {E} (r : result E unit) : is_ok r = true -> r = Ok tt.
Proof. by destruct r as [[]|]. Qed.

Lemma check_each_ok {A} (body : A -> Checked unit) l : check_each body l = Ok tt -> forall x, x ∈ l -> body x = Ok tt.
Proof.
  induction l as [|y l IH]; cbn [check_each]; [by intros _ x ?%not_elem_of_nil|].
  intros ([] & Hy & H)%result_bind_ok x [->|Hx]%elem_of_cons; [done|by apply IH].
Qed.

Lemma actor_kind_string k : canonical_string_new (actor_kind_name k) = Ok (actor_kind_name k).
Proof. by destruct k. Qed.

Section checked.
Context (entity : Z) (schema : SchemaIr) (facts : FactTypes) (row : CanonicalRecord) (principal : PrincipalFactBindingV1).
Hypothesis Hrow : row_typed schema entity row = true.
Hypothesis Hprincipal : principal_typed facts principal = true.

Definition operand_runs (o : RowPolicyOperandV1) (v : CanonicalValue) : Prop :=
  evaluate_operand o row principal = Ok v /\ operand_value row principal o = Some v /\
  validate_value (po_value_type o) v = Ok tt.

Lemma operand_source_value o : validate_operand entity schema facts o = Ok tt ->
  exists v, operand_value row principal o = Some v /\ validate_value (po_value_type o) v = Ok tt.
Proof.
  apply andb_true_iff in Hprincipal as [[u Hu]%bool_decide_eq_true Hfacts].
  unfold validate_operand, operand_value. destruct o as [[f| | |name|c] t]; cbn [po_source po_value_type].
  - intros (fd & Hfd%ok_or_ok & Ht)%result_bind_ok. case_bool_decide as Et; [|done]. subst t.
    apply bind_Some in Hfd as (e & He & [Hin Hid%Z.eqb_eq]%find_In). unfold row_typed in Hrow. rewrite He in Hrow.
    pose proof (forallb_In _ _ _ Hrow Hin) as H. cbv beta in H. rewrite <- Hid.
    destruct (row_value row (fd_id fd)) as [v|]; [|done]. exists v. split; [done|by apply is_ok_unit].
  - case_bool_decide as Et; [|done]. subst t. rewrite Hu. by exists (VUuid u).
  - intros (t' & Ht' & H)%result_bind_ok. case_bool_decide as Et; [|done]. subst t.
    injection Ht' as <-. eexists. split; [done|]. destruct (pr_actor_kind principal); reflexivity.
  - intros ([] & _ & H)%result_bind_ok. case_bool_decide as Et; [|done].
    apply elem_of_map_to_list in Et. pose proof (forallb_In _ _ _ Hfacts Et) as Hf. cbv beta iota in Hf.
    destruct (internal_fact (pr_facts principal) name) as [f|]; [|done].
    exists (pf_value f). split; [done|by apply is_ok_unit].
  - intros H. by exists c.
Qed.

Lemma operand_run o : validate_operand entity schema facts o = Ok tt -> exists v, operand_runs o v.
Proof.
  intros (v & Hv & Ht)%operand_source_value. exists v. split; [|done]. unfold evaluate_operand, operand_value in *.
  destruct (po_source o) as [f| | |name|c].
  - rewrite Hv. cbn. by rewrite Ht.
  - apply fmap_Some in Hv as (u & -> & ->). cbn. by rewrite Ht.
  - injection Hv as <-. rewrite actor_kind_string. cbn. by rewrite Ht.
  - apply fmap_Some in Hv as (f & -> & ->). cbn. by rewrite Ht.
  - injection Hv as ->. cbn. by rewrite Ht.
Qed.

Lemma operands_run args : (forall a, a ∈ args -> validate_operand entity schema facts a = Ok tt) ->
  exists vs, evaluate_operands row principal args = Ok vs /\ mapM (operand_value row principal) args = Some vs.
Proof.
  induction args as [|a args IH]; intros H; [by exists []|].
  destruct (operand_run a (H a ltac:(left))) as (v & He & Hv & _).
  destruct IH as (vs & Hes & Hvs); [intros b Hb; apply H; by right|].
  exists (v :: vs). split; unfold evaluate_operands in *; cbn [mapM]; [rewrite He|rewrite Hv]; cbn;
    [by rewrite Hes|by rewrite Hvs].
Qed.

Lemma probe_operands t i args : validate_probe entity schema facts t i args = Ok tt ->
  forall a, a ∈ args -> validate_operand entity schema facts a = Ok tt.
Proof.
  unfold validate_probe. intros H a Ha.
  repeat (apply result_bind_ok in H as (? & _ & H)). destruct (negb _); [done|].
  apply result_bind_ok in H as (index & _ & H). destruct (negb _) eqn:El; [done|].
  apply negb_false_iff, Z.eqb_eq in El.
  apply result_bind_ok in H as (root & _ & H). destruct (_ || _ || _); [done|].
  apply result_bind_ok in H as ([] & Hargs & _).
  apply list_elem_of_lookup in Ha as [n Hn].
  destruct (lookup_lt_is_Some_2 (ix_fields index) n) as [f Hf].
  { apply lookup_lt_Some in Hn. unfold zlen in El. lia. }
  assert ((a, f) ∈ zip args (ix_fields index)) as Hin.
  { apply list_elem_of_lookup. exists n. apply lookup_zip_with_Some. by exists a, f. }
  pose proof (check_each_ok _ _ Hargs _ Hin) as H1. cbn in H1. by apply result_bind_ok in H1 as ([] & H1 & _).
Qed.
End checked.

(** ** The meaning of a node does not depend on the depth *)
Lemma scalar_mono v w : (forall x, v = Some x -> w = Some x) -> forall a, scalar v = Some a -> scalar w = Some a.
Proof. intros H a. destruct v as [x|]; [|done]. by rewrite (H x eq_refl). Qed.

Lemma truth_mono v w : (forall x, v = Some x -> w = Some x) -> forall a, truth v = Some a -> truth w = Some a.
Proof. intros H a. destruct v as [x|]; [|done]. by rewrite (H x eq_refl). Qed.

Section depth.
Context (row : CanonicalRecord) (principal : PrincipalFactBindingV1)
        (related : Z -> Z -> list CanonicalValue -> bool) (nodes : list RowPolicyExpressionNodeV1).

Lemma node_meaning_mono (below below' : nat -> option NodeValue) node v :
  (forall id w, below id = Some w -> below' id = Some w) ->
  node_meaning row principal related below node = Some v -> node_meaning row principal related below' node = Some v.
Proof.
  intros H. destruct node; cbn [node_meaning]; intros E; try done;
    repeat match goal with
    | E : _ ≫= _ = Some _ |- _ => apply bind_Some in E as (? & ? & E)
    | E : scalar (below ?id) = Some _ |- _ => apply (scalar_mono _ _ (H id)) in E; rewrite E; cbn
    | E : truth (below ?id) = Some _ |- _ => apply (truth_mono _ _ (H id)) in E; rewrite E; cbn
    end; done.
Qed.

Lemma meaning_mono d : forall d' id v, meaning row principal related nodes d id = Some v -> (d <= d')%nat ->
  meaning row principal related nodes d' id = Some v.
Proof.
  induction d as [|d IH]; intros d' id v H Hd; [done|]. destruct d' as [|d']; [lia|]. cbn [meaning] in *.
  apply bind_Some in H as (node & -> & H). cbn. eapply node_meaning_mono; [|exact H].
  intros id' w Hw. apply (IH d' _ _ Hw). lia.
Qed.
End depth.

(** ** Comparisons of operands

    The evaluator compares the values of operands; the result of another node
    is not a value that it compares. *)
Definition is_operand (nodes : list RowPolicyExpressionNodeV1) (id : nat) : bool :=
  match nodes !! id with Some (R_Operand _) => true | _ => false end.

Definition compares_operands (nodes : list RowPolicyExpressionNodeV1) : bool :=
  forallb (fun node =>
    match node with
    | R_Equal l r | R_NotEqual l r => is_operand nodes l && is_operand nodes r
    | R_In n _ => is_operand nodes n
    | _ => true
    end) nodes.

Section run.
Context (entity : Z) (schema : SchemaIr) (facts : FactTypes) (row : CanonicalRecord) (principal : PrincipalFactBindingV1)
        (related : Z -> Z -> list CanonicalValue -> bool) (relationships : list IndexedRelationshipEvidenceV1)
        (nodes : list RowPolicyExpressionNodeV1).
Hypothesis Hrow : row_typed schema entity row = true.
Hypothesis Hprincipal : principal_typed facts principal = true.
Hypothesis Hcompare : compares_operands nodes = true.
Hypothesis Hevidence : forall t i args vs, R_IndexedExists t i args ∈ nodes -> evaluate_operands row principal args = Ok vs ->
  re_exists <$> evidence_for relationships t i vs = Some (related t i vs).

Notation means := (meaning row principal related nodes).

(** The value of a node, of its checked type. *)
Definition node_ok (id : nat) (t : ValueType) (nv : NodeValue) : Prop :=
  means (S id) id = Some nv /\
  match nv with
  | Canonical v => validate_value t v = Ok tt
  | Computed _ => t = T_Bool /\ is_operand nodes id = false
  end.

Definition run_inv (checked : list (ValueType * Z)) (values : list NodeValue) : Prop :=
  length values = length checked /\
  forall id t w, checked !! id = Some (t, w) -> exists nv, values !! id = Some nv /\ node_ok id t nv.

Lemma earlier checked values id t w : run_inv checked values -> prior checked id = Ok (t, w) ->
  exists nv, values !! id = Some nv /\ node_ok id t nv /\ means (length checked) id = Some nv.
Proof.
  intros [_ H] Hp%ok_or_ok. destruct (H _ _ _ Hp) as (nv & Hv & Hok). exists nv. split_and!; [done|done|].
  eapply meaning_mono; [apply Hok|]. apply lookup_lt_Some in Hp. lia.
Qed.

Lemma earlier_bool checked values id t w : run_inv checked values -> prior checked id = Ok (t, w) ->
  require_bool t = Ok tt ->
  exists b, boolean_node values id = Ok b /\ truth (means (length checked) id) = Some b.
Proof.
  intros Hi Hp Hb. destruct (earlier _ _ _ _ _ Hi Hp) as (nv & Hv & [_ Hok] & Hm). unfold require_bool in Hb.
  case_bool_decide; [subst t|done]. unfold boolean_node. rewrite Hv, Hm. destruct nv as [v|b]; [|by exists b].
  destruct v; try done. by eexists.
Qed.

Lemma earlier_scalar checked values id t w : run_inv checked values -> prior checked id = Ok (t, w) ->
  is_operand nodes id = true \/ t <> T_Bool ->
  exists v, canonical_node values id = Ok v /\ scalar (means (length checked) id) = Some v /\ validate_value t v = Ok tt.
Proof.
  intros Hi Hp Hs. destruct (earlier _ _ _ _ _ Hi Hp) as (nv & Hv & [_ Hok] & Hm).
  unfold canonical_node. rewrite Hv, Hm. destruct nv as [v|b]; [by exists v|].
  destruct Hok as [-> Ho]. rewrite Ho in Hs. by destruct Hs.
Qed.

Lemma compared node : node ∈ nodes ->
  match node with
  | R_Equal l r | R_NotEqual l r => is_operand nodes l = true /\ is_operand nodes r = true
  | R_In n _ => is_operand nodes n = true
  | _ => True
  end.
Proof. intros Hn. pose proof (forallb_In _ _ _ Hcompare Hn) as H. destruct node; try done; by apply andb_true_iff in H. Qed.

(** One step of the evaluator, on a node that was checked. *)
Lemma node_run checked probes values node t w probes' :
  node ∈ nodes -> run_inv checked values ->
  check_node entity schema facts checked probes node = Ok (t, w, probes') ->
  exists nv, evaluate_node row principal relationships values node = Ok nv /\
    node_meaning row principal related (means (length checked)) node = Some nv /\
    match nv with
    | Canonical v => validate_value t v = Ok tt
    | Computed _ => t = T_Bool /\ forall o, node <> R_Operand o
    end.
Proof.
  intros Hin Hi Hc. pose proof (compared node Hin) as Hcmp.
  destruct node as [o|l r|l r|v|l r|l r|n h|v negated|te ix args]; cbn [check_node evaluate_node node_meaning] in *.
  - apply result_bind_ok in Hc as ([] & Hv & [= <- _ _]).
    destruct (operand_run _ _ _ _ _ Hrow Hprincipal _ Hv) as (x & -> & -> & Ht). by exists (Canonical x).
  - apply result_bind_ok in Hc as ([tl wl] & Hl & ([tr wr] & Hr & Hc)%result_bind_ok). destruct (_ && _); [done|].
    injection Hc as <- _ _.
    destruct (earlier_scalar _ _ _ _ _ Hi Hl) as (a & -> & -> & _); [left; apply Hcmp|].
    destruct (earlier_scalar _ _ _ _ _ Hi Hr) as (b & -> & -> & _); [left; apply Hcmp|]. by eexists.
  - apply result_bind_ok in Hc as ([tl wl] & Hl & ([tr wr] & Hr & Hc)%result_bind_ok). destruct (_ && _); [done|].
    injection Hc as <- _ _.
    destruct (earlier_scalar _ _ _ _ _ Hi Hl) as (a & -> & -> & _); [left; apply Hcmp|].
    destruct (earlier_scalar _ _ _ _ _ Hi Hr) as (b & -> & -> & _); [left; apply Hcmp|]. by eexists.
  - apply result_bind_ok in Hc as ([tv wv] & Hv & ([] & Hb & [= <- _ _])%result_bind_ok).
    destruct (earlier_bool _ _ _ _ _ Hi Hv Hb) as (b & -> & ->). by eexists.
  - apply result_bind_ok in Hc as ([tl wl] & Hl & ([tr wr] & Hr & Hc)%result_bind_ok).
    apply result_bind_ok in Hc as ([] & Hbl & ([] & Hbr & [= <- _ _])%result_bind_ok).
    destruct (earlier_bool _ _ _ _ _ Hi Hl Hbl) as (a & -> & ->), (earlier_bool _ _ _ _ _ Hi Hr Hbr) as (b & -> & ->).
    destruct a; by eexists.
  - apply result_bind_ok in Hc as ([tl wl] & Hl & ([tr wr] & Hr & Hc)%result_bind_ok).
    apply result_bind_ok in Hc as ([] & Hbl & ([] & Hbr & Hc)%result_bind_ok).
    apply result_bind_ok in Hc as (width & _ & Hc). destruct (_ <? _); [done|]. injection Hc as <- _ _.
    destruct (earlier_bool _ _ _ _ _ Hi Hl Hbl) as (a & -> & ->), (earlier_bool _ _ _ _ _ Hi Hr Hbr) as (b & -> & ->).
    destruct a; by eexists.
  - apply result_bind_ok in Hc as ([tn wn] & Hn & ([th wh] & Hh & Hc)%result_bind_ok).
    destruct th; cbn [list_parts] in Hc; try done.
    destruct (_ || _); [done|]. injection Hc as <- _ _.
    destruct (earlier_scalar _ _ _ _ _ Hi Hn) as (a & -> & -> & _); [by left|].
    destruct (earlier_scalar _ _ _ _ _ Hi Hh) as (b & -> & -> & Hb); [by right|].
    destruct b; try done. by eexists.
  - apply result_bind_ok in Hc as ([tv wv] & Hv & Hc). destruct (is_optional tv) eqn:Eo; [|done].
    injection Hc as <- _ _.
    destruct (earlier_scalar _ _ _ _ _ Hi Hv) as (a & -> & -> & _); [right; by intros ->|].
    exists (Computed (xorb negated (is_null a))). split_and!; [cbn; by destruct negated, (is_null a)|done|done|done].
  - destruct (_ <? _); [done|]. apply result_bind_ok in Hc as ([] & Hp & [= <- _ _]).
    destruct (operands_run _ _ _ _ _ Hrow Hprincipal args) as (vs & He & ->); [by eapply probe_operands|].
    pose proof (Hevidence _ _ _ _ Hin He) as Hev. rewrite He. cbn.
    apply fmap_Some in Hev as (ev & -> & Hex). cbn. rewrite Hex. by eexists.
Qed.

Lemma nodes_run rest : forall before checked probes values checked', nodes = before ++ rest -> length checked = length before ->
  run_inv checked values -> check_nodes entity schema facts checked probes rest = Ok checked' ->
  exists values', evaluate_nodes row principal relationships values rest = Ok values' /\ run_inv checked' values'.
Proof.
  induction rest as [|node rest IH]; intros before checked probes values checked' Hn Hl Hi Hc; cbn [check_nodes evaluate_nodes] in *.
  - injection Hc as <-. by exists values.
  - apply result_bind_ok in Hc as ([[t w] probes'] & Hnode & Hc).
    assert (nodes !! length checked = Some node) as Hat by (rewrite Hn, Hl; by apply list_lookup_middle).
    destruct (node_run checked probes values node t w probes' (list_elem_of_lookup_2 _ _ _ Hat) Hi Hnode)
      as (nv & He & Hm & Ht).
    rewrite He.
    apply (IH (before ++ [node]) (checked ++ [(t, w)]) probes' (values ++ [nv]) checked');
      [rewrite Hn; by rewrite <- app_assoc|rewrite !length_app; cbn [length]; lia| |exact Hc].
    destruct Hi as [Hlen Hi]. split; [rewrite !length_app; cbn; lia|]. intros id t' w' [Hid|[Hid Hs]]%lookup_app_Some.
    + destruct (Hi _ _ _ Hid) as (nv' & Hv' & Hok). exists nv'. split; [|done]. by apply lookup_app_l_Some.
    + apply list_lookup_singleton_Some in Hs as [Hz [= <- <-]]. assert (id = length checked) as -> by lia.
      exists nv. split; [rewrite <- Hlen; by apply list_lookup_middle|]. split.
      * cbn [meaning]. rewrite Hat. exact Hm.
      * destruct nv; [done|]. destruct Ht as [-> Ho]. split; [done|]. unfold is_operand. rewrite Hat.
        destruct node; try done. by destruct (Ho operand).
Qed.
End run.

(** A checked rule is decided by its meaning. *)
Lemma rule_run entity schema facts row principal related relationships operation nodes root rule :
  row_typed schema entity row = true -> principal_typed facts principal = true ->
  rule_new entity schema facts operation nodes root = Ok rule -> compares_operands nodes = true ->
  (forall t i args vs, R_IndexedExists t i args ∈ nodes -> evaluate_operands row principal args = Ok vs ->
     re_exists <$> evidence_for relationships t i vs = Some (related t i vs)) ->
  exists b, evaluate_rule row principal relationships rule = Ok b /\ rule_meaning row principal related rule = Some b.
Proof.
  intros Hrow Hp Hr Hc He. unfold rule_new in Hr. destruct (bool_decide (nodes = [])); [done|].
  apply result_bind_ok in Hr as (? & _ & Hr). destruct (_ <=? _); [done|].
  apply result_bind_ok in Hr as (checked & Hck & Hr).
  apply result_bind_ok in Hr as ([t w] & Hroot & ([] & Hb & [= <-])%result_bind_ok).
  destruct (nodes_run entity schema facts row principal related relationships nodes Hrow Hp Hc He nodes [] [] 0 [] checked)
    as (values & Hv & Hi); [done|done|by split|done|].
  unfold evaluate_rule, rule_meaning. cbn [rr_nodes rr_root]. rewrite Hv. cbn.
  unfold require_bool in Hb. case_bool_decide; [subst t|done].
  destruct Hi as [Hl Hi]. apply ok_or_ok in Hroot. destruct (Hi _ _ _ Hroot) as (nv & Hnv & Hm & Ht).
  unfold boolean_node. rewrite Hnv. cbn [meaning] in Hm. rewrite Hm.
  destruct nv as [v|b]; [|by exists b]. destruct v; try done. by eexists.
Qed.

(** ** Checked policies *)
Definition policy_checked (schema : SchemaIr) (facts : FactTypes) (policy : RowPolicyPlanV1) : Prop :=
  forall rule, rule ∈ rw_rules policy ->
    rule_new (rw_entity policy) schema facts (rr_operation rule) (rr_nodes rule) (rr_root rule) = Ok rule.

Lemma rule_new_self entity schema facts operation nodes root rule :
  rule_new entity schema facts operation nodes root = Ok rule -> rule = mkRule operation nodes root.
Proof.
  unfold rule_new. destruct (bool_decide _); [done|]. intros (? & _ & H)%result_bind_ok. destruct (_ <=? _); [done|].
  apply result_bind_ok in H as (checked & _ & ([t w] & _ & ([] & _ & [= <-])%result_bind_ok)%result_bind_ok). done.
Qed.

Lemma catalog_checked facts policies schema cat policy :
  catalog_new facts policies schema = Ok cat -> policy ∈ ca_policies cat ->
  policy_checked schema (fact_types (ca_facts cat)) policy.
Proof.
  unfold catalog_new. intros (? & _ & (? & _ & H)%result_bind_ok)%result_bind_ok.
  destruct (adjacent_equal _ _); [done|]. apply result_bind_ok in H as (checked & Hm%mapM_ok & H).
  destruct (adjacent_equal _ _); [done|]. injection H as <-. cbn [ca_facts ca_policies]. rewrite sort_by_perm.
  intros Hin rule Hr. apply list_elem_of_lookup in Hin as [n Hn].
  eapply Forall2_lookup_r in Hm as (p & _ & (rules & Hrules%mapM_ok & Hp)%result_bind_ok); [|exact Hn].
  unfold policy_new in Hp. apply result_bind_ok in Hp as ([] & _ & Hp).
  do 2 (destruct (bool_decide _); [done|]). apply result_bind_ok in Hp as (? & _ & Hp).
  destruct (adjacent_equal _ _); [done|]. injection Hp as <-. cbn [rw_rules rw_entity] in *.
  rewrite sort_by_perm in Hr. apply list_elem_of_lookup in Hr as [m Hr].
  eapply Forall2_lookup_r in Hrules as (r & _ & Hrule); [|exact Hr].
  cbv beta in Hrule. pose proof (rule_new_self _ _ _ _ _ _ _ Hrule) as ->. exact Hrule.
Qed.

Lemma find_rule_In policy operation rule : find_rule policy operation = Some rule ->
  rule ∈ rw_rules policy /\ rr_operation rule = operation.
Proof. intros [Hr Ho%bool_decide_eq_true]%find_In. done. Qed.

(** The operands of a checked probe. *)
Lemma check_nodes_probe entity schema facts nodes t i args : forall checked probes checked',
  check_nodes entity schema facts checked probes nodes = Ok checked' -> R_IndexedExists t i args ∈ nodes ->
  forall a, a ∈ args -> validate_operand entity schema facts a = Ok tt.
Proof.
  induction nodes as [|node nodes IH]; intros checked probes checked' H Hn; [by apply not_elem_of_nil in Hn|].
  cbn [check_nodes] in H. apply result_bind_ok in H as ([[ty w] p] & Hc & H).
  apply elem_of_cons in Hn as [<-|Hn]; [|by eapply IH]. cbn [check_node] in Hc. destruct (_ <? _); [done|].
  apply result_bind_ok in Hc as ([] & Hp & _). by eapply probe_operands.
Qed.

Lemma rule_operands entity schema facts operation nodes root rule :
  rule_new entity schema facts operation nodes root = Ok rule -> forall t i args, R_IndexedExists t i args ∈ nodes ->
  forall a, a ∈ args -> validate_operand entity schema facts a = Ok tt.
Proof.
  unfold rule_new. destruct (bool_decide _); [done|]. intros (? & _ & H)%result_bind_ok. destruct (_ <=? _); [done|].
  apply result_bind_ok in H as (checked & Hck & _). intros t i args. by eapply check_nodes_probe.
Qed.

(** ** Evidence of the probes *)
Definition observe (related : Z -> Z -> list CanonicalValue -> bool) (probe : IndexedRelationshipProbeV1) : bool :=
  related (pb_target_entity probe) (pb_index_id probe) (pb_arguments probe).

(** What the lookups of the required probes find. *)
Definition observed (related : Z -> Z -> list CanonicalValue -> bool) (policy : RowPolicyPlanV1)
    (operation : RowPolicyOperationV1) (principal : PrincipalFactBindingV1) (rows : list CanonicalRecord) : list bool :=
  match probes_of policy operation principal rows with
  | Some probes => map (observe related) probes
  | None => []
  end.

Lemma evidence_exact related probes t i vs : mkProbe t i vs ∈ probes ->
  re_exists <$> evidence_for (zip_with into_evidence probes (map (observe related) probes)) t i vs = Some (related t i vs).
Proof.
  unfold evidence_for. induction probes as [|p probes IH]; [by intros ?%not_elem_of_nil|]. intros Hin.
  cbn [map zip_with find]. destruct p as [t' i' vs']. cbn [into_evidence re_target_entity re_index_id re_arguments pb_target_entity
    pb_index_id pb_arguments observe].
  destruct (_ && _ && _) eqn:E.
  - apply andb_true_iff in E as [[->%Z.eqb_eq ->%Z.eqb_eq]%andb_true_iff [= ->]%value_eqb_eq]. done.
  - apply elem_of_cons in Hin as [[= -> -> ->]|Hin]; [|by apply IH].
    rewrite !Z.eqb_refl, (proj2 (value_eqb_eq _ _) eq_refl) in E. done.
Qed.

Lemma probe_node_In nodes t i args : R_IndexedExists t i args ∈ nodes -> (t, i, args) ∈ probe_nodes nodes.
Proof. intros H. apply list_elem_of_omap. by exists (R_IndexedExists t i args). Qed.

Lemma probe_node_from nodes t i args : (t, i, args) ∈ probe_nodes nodes -> R_IndexedExists t i args ∈ nodes.
Proof. intros (node & Hn & E)%list_elem_of_omap. destruct node; try done. by injection E as -> -> ->. Qed.

Lemma required_probe policy operation row principal rule probes t i args vs :
  find_rule policy operation = Some rule ->
  required_indexed_relationship_probes policy operation row principal = Ok probes ->
  R_IndexedExists t i args ∈ rr_nodes rule -> evaluate_operands row principal args = Ok vs -> mkProbe t i vs ∈ probes.
Proof.
  intros Hr Hp Hn%probe_node_In He. unfold required_indexed_relationship_probes in Hp. rewrite Hr in Hp.
  apply mapM_ok in Hp. apply list_elem_of_lookup in Hn as [n Hn].
  eapply Forall2_lookup_l in Hp as (p & Hp & Hvs); [|exact Hn]. cbv beta iota in Hvs. rewrite He in Hvs.
  injection Hvs as <-. by eapply list_elem_of_lookup_2.
Qed.

Lemma probes_of_row policy operation principal rows : forall probes row, probes_of policy operation principal rows = Some probes ->
  row ∈ rows -> exists required, required_indexed_relationship_probes policy operation row principal = Ok required /\
    required ⊆ probes.
Proof.
  induction rows as [|r rows IH]; intros probes row H Hin; [by apply not_elem_of_nil in Hin|]. cbn [probes_of] in H.
  destruct (required_indexed_relationship_probes policy operation r principal) as [required|] eqn:Er; [|done].
  apply bind_Some in H as (rest & Hrest & [= <-]). apply elem_of_cons in Hin as [->|Hin].
  - exists required. split; [done|]. intros x Hx. apply elem_of_app. by left.
  - destruct (IH rest row Hrest Hin) as (required' & Hr & Hsub). exists required'. split; [done|].
    intros x Hx. apply elem_of_app. right. by apply Hsub.
Qed.

(** ** Transitions are decided by the meaning of the rule *)
Section exact.
Context (sha256 : list byte -> list byte) (schema : SchemaIr) (facts : FactTypes) (policy : RowPolicyPlanV1)
        (principal : PrincipalFactBindingV1) (related : Z -> Z -> list CanonicalValue -> bool).
Hypothesis Hchecked : policy_checked schema facts policy.
Hypothesis Hcompare : forall rule, rule ∈ rw_rules policy -> compares_operands (rr_nodes rule) = true.
Hypothesis Hprincipal : principal_typed facts principal = true.

Notation typed row := (row_typed schema (rw_entity policy) row = true).
Notation encodable row := (is_ok (encode_canonical_record row) = true).

Lemma required_probes_total operation rule row : find_rule policy operation = Some rule -> typed row ->
  exists probes, required_indexed_relationship_probes policy operation row principal = Ok probes.
Proof.
  intros Hr Hrow. pose proof (find_rule_In _ _ _ Hr) as [Hin _]. specialize (Hchecked _ Hin).
  unfold required_indexed_relationship_probes. rewrite Hr. setoid_rewrite result_bind_ok. setoid_rewrite mapM_ok.
  assert (forall t i args, (t, i, args) ∈ probe_nodes (rr_nodes rule) ->
    exists vs, evaluate_operands row principal args = Ok vs) as H.
  { intros t i args Hn%probe_node_from.
    pose proof (rule_operands _ _ _ _ _ _ _ Hchecked t i args Hn) as Ha.
    destruct (operands_run _ _ _ _ _ Hrow Hprincipal args Ha) as (vs & Hvs & _). by exists vs. }
  assert (forall l, l ⊆ probe_nodes (rr_nodes rule) -> exists probes, Forall2 (fun x y =>
    (let '(t, i, args) := x in vs ← evaluate_operands row principal args; Ok (mkProbe t i vs)) = Ok y) l probes) as Hall.
  { induction l as [|[[t i] args] l IH]; intros Hl; [by exists []|].
    destruct (H t i args) as [vs Hvs]; [apply Hl; left|]. destruct IH as [ps Hps]; [intros x Hx; apply Hl; by right|].
    exists (mkProbe t i vs :: ps). constructor; [by rewrite Hvs|exact Hps]. }
  destruct (Hall _ (reflexivity _)) as [probes Hps]. by exists probes, rule.
Qed.

Lemma probes_of_total operation rule rows : find_rule policy operation = Some rule -> (forall row, row ∈ rows -> typed row) ->
  exists probes, probes_of policy operation principal rows = Some probes.
Proof.
  intros Hr. induction rows as [|row rows IH]; intros Ht; [by exists []|]. cbn [probes_of].
  destruct (required_probes_total operation rule row Hr) as [ps ->]; [apply Ht; left|].
  destruct IH as [rest ->]; [intros r Hin; apply Ht; by right|]. by eexists.
Qed.

(** With the evidence of its own probes, the rule accepts the rows exactly when
    its meaning does. *)
Lemma accept_rows_exact operation rule probes rows :
  find_rule policy operation = Some rule -> (forall row, row ∈ rows -> typed row) ->
  (forall row, row ∈ rows -> exists required,
     required_indexed_relationship_probes policy operation row principal = Ok required /\ required ⊆ probes) ->
  accept_rows rule principal (zip_with into_evidence probes (map (observe related) probes)) rows = Ok tt <->
  (forall row, row ∈ rows -> rule_meaning row principal related rule = Some true).
Proof.
  intros Hr. pose proof (find_rule_In _ _ _ Hr) as [Hin _].
  induction rows as [|row rows IH]; intros Ht Hp; cbn [accept_rows]; [split; [by intros _ ? ?%not_elem_of_nil|done]|].
  destruct (Hp row ltac:(left)) as (required & Hreq & Hsub).
  destruct (rule_run _ _ _ row principal related (zip_with into_evidence probes (map (observe related) probes))
              _ _ _ _ (Ht row ltac:(left)) Hprincipal (Hchecked _ Hin) (Hcompare _ Hin)) as (b & He & Hm).
  { intros t i args vs Hn Hvs. apply evidence_exact, Hsub. by eapply required_probe. }
  rewrite He. cbn. destruct b.
  - rewrite IH; [|by intros r Hr'; apply Ht; right|by intros r Hr'; apply Hp; right].
    split; [|intros H r Hr'; apply H; by right].
    intros H r [->|Hr']%elem_of_cons; [done|by apply H].
  - split; [done|]. intros H. specialize (H row ltac:(left)). congruence.
Qed.

(** The meaning of a checked rule is defined. *)
Lemma rule_meaning_total operation rule row : find_rule policy operation = Some rule -> typed row ->
  exists b, rule_meaning row principal related rule = Some b.
Proof.
  intros Hr Hrow. pose proof (find_rule_In _ _ _ Hr) as [Hin _]. destruct (required_probes_total operation rule row Hr Hrow) as [probes Hp].
  destruct (rule_run _ _ _ row principal related (zip_with into_evidence probes (map (observe related) probes))
              _ _ _ _ Hrow Hprincipal (Hchecked _ Hin) (Hcompare _ Hin)) as (b & _ & Hm); [|by exists b].
  intros t i args vs Hn Hvs. apply evidence_exact. by eapply required_probe.
Qed.

Lemma optional_hash_ok row : (forall r, row = Some r -> encodable r) -> exists h, optional_row_hash sha256 row = Ok h.
Proof.
  destruct row as [r|]; intros H; [|by eexists]. specialize (H r eq_refl). unfold optional_row_hash, row_hash.
  destruct (encode_canonical_record r); [by eexists|done].
Qed.

Lemma transition_exact operation rule current successor rows probes :
  find_rule policy operation = Some rule -> required_rows operation current successor = Some rows ->
  (forall row, row ∈ rows -> typed row) ->
  (forall row, current = Some row \/ successor = Some row -> encodable row) ->
  probes_of policy operation principal rows = Some probes ->
  is_allowed (evaluate_row_transition sha256 policy operation current successor principal
    (zip_with into_evidence probes (map (observe related) probes))) = true <->
  (forall row, row ∈ rows -> rule_meaning row principal related rule = Some true).
Proof.
  intros Hr Hrows Ht He Hp. unfold evaluate_row_transition. rewrite Hr, Hrows. cbn [ok_or mbind result_bind].
  destruct (optional_hash_ok current) as [hc ->]; [intros; apply He; by left|].
  destruct (optional_hash_ok successor) as [hs ->]; [intros; apply He; by right|].
  rewrite <- (accept_rows_exact operation rule probes rows Hr Ht).
  - destruct (accept_rows _ _ _ _) as [[]|e]; cbn; split; congruence.
  - intros row Hin. by apply probes_of_row with rows.
Qed.
End exact.
