(* ===== verification/RowPolicySample.v ===== *)
(** * Row policies: a help desk

    A contract with tickets and members of one organisation, a policy for
    tickets, and a principal; the guarantees are applied to them. *)

From S2P Require Import Prelude Decimal Value Codec ValueType Framing Hash Names Results Sort PrincipalFacts Schema RowPolicyPlan RowPolicyGrant RowPolicy RowPolicySpec.
From Stdlib Require Import Strings.String Strings.Byte.
From stdpp Require Import gmap list strings.

Local Open Scope Z_scope.

Notation text := list_byte_of_string.

(** ** The contract *)
Definition ticket_fields : list FieldSchema :=
  [mkFieldSchema 1 (text "org") T_Uuid; mkFieldSchema 2 (text "owner") T_Uuid; mkFieldSchema 3 (text "team") (T_String 16)].

Definition help_schema : SchemaIr :=
  mkSchema
    [mkEntity 1 (text "Ticket") ticket_fields [1; 2] [];
     mkEntity 2 (text "Member") [mkFieldSchema 1 (text "org") T_Uuid; mkFieldSchema 2 (text "user") T_Uuid] [1; 2]
       [mkIndex 7 [1; 2]];
     mkEntity 3 (text "Org") [mkFieldSchema 1 (text "org") T_Uuid] [1] []]
    [mkAggregate 1 3 [1; 2]].

Definition teams : list byte := text "teams".
Definition help_facts : list PrincipalFactSchemaV1 := [mkFactSchema teams (T_List (T_String 16) 8)].

Definition org : RowPolicyOperandV1 := mkPolicyOperand (RowField 1) T_Uuid.
Definition owner : RowPolicyOperandV1 := mkPolicyOperand (RowField 2) T_Uuid.
Definition team : RowPolicyOperandV1 := mkPolicyOperand (RowField 3) (T_String 16).
Definition principal_id : RowPolicyOperandV1 := mkPolicyOperand PrincipalId T_Uuid.
Definition principal_teams : RowPolicyOperandV1 := mkPolicyOperand (PrincipalFact teams) (T_List (T_String 16) 8).

(** A member of the organisation reads the tickets that they own and those of
    their teams. *)
Definition read_rule : RowPolicyRuleV1 :=
  mkRule Op_Read
    [R_Operand owner; R_Operand principal_id; R_Equal 0 1; R_Operand team; R_Operand principal_teams; R_In 3 4; R_Or 2 5;
     R_IndexedExists 2 7 [org; principal_id]; R_And 6 7] 8.

(** The owner changes a ticket, and stays its owner. *)
Definition update_rule : RowPolicyRuleV1 := mkRule Op_Update [R_Operand owner; R_Operand principal_id; R_Equal 0 1] 2.

Definition ticket_policy : RowPolicyPlanV1 := mkPolicy (text "Desk") 1 [read_rule; update_rule].

Definition checked_catalog (facts : list PrincipalFactSchemaV1) (policies : list RowPolicyPlanV1) : RowPolicyCatalogV1 :=
  match catalog_new facts policies help_schema with Ok cat => cat | Err _ => mkCatalog [] [] end.

Definition help_catalog : RowPolicyCatalogV1 := checked_catalog help_facts [ticket_policy].
Definition help_bundle : ContractBundle := mkBundle (text "help") 1 [ticket_policy] help_schema.

(** ** The principal *)
Definition team_facts (l : list string) : CapabilityPrincipalFactsV1 :=
  match build_facts [(teams, VList (map (fun s => VString (text s)) l))] with Ok fs => fs | Err _ => mkFacts [] [] end.

Definition ada : list byte := replicate 16 x00.
Definition ada_with (facts : CapabilityPrincipalFactsV1) : PrincipalFactBindingV1 :=
  mkPrincipal (replicate 16 x01) 4 (text "00000000-0000-0000-0000-000000000000") Human facts.
Definition ada_principal : PrincipalFactBindingV1 := ada_with (team_facts ["ops"; "dev"]).

Definition help_grant : CapabilityRowPolicyGrantV1 :=
  mkGrant (replicate 32 x02) (team_facts ["ops"; "dev"]) [mkBinding (text "help") (text "Desk") 1 [Cap_Read; Cap_Update]].

Definition ticket (owned_by : list byte) (in_team : string) : CanonicalRecord :=
  [(1, VUuid (replicate 16 x05)); (2, VUuid owned_by); (3, VString (text in_team))].

Definition everyone (_ _ : Z) (_ : list CanonicalValue) : bool := true.

Example help_catalog_checked : catalog_new help_facts [ticket_policy] help_schema = Ok help_catalog.
Proof. vm_compute. reflexivity. Qed.

Example help_reads :
  map (fun t => rule_meaning t ada_principal everyone read_rule) [ticket ada "hr"; ticket (replicate 16 x09) "ops"; ticket (replicate 16 x09) "hr"] =
  [Some true; Some true; Some false].
Proof. vm_compute. reflexivity. Qed.
