(* ===== verification/RowPolicyGuarantees.v ===== *)
(** * Row policies: guarantees

    What reads and commands see of protected rows: every protected entity that is
    accessed gets the policy that the capability binds, and a row is visible, or a
    transition allowed, exactly when the meaning of the rule accepts it.  A proof
    that is revalidated names the same rows under the same authority, and the
    admission of projected candidates is exact. *)

From S2P Require Import Prelude Decimal Value Codec CodecEncode CodecDecode Key ValueType Evaluate Framing Hash Names Text Results Sort PrincipalFacts Schema RowPolicyPlan RowPolicyGrant RowPolicy RowPolicySpec RowPolicySample.
From Stdlib Require Import Strings.String Strings.Byte.
From stdpp Require Import gmap list strings.

Local Open Scope Z_scope.

(** ** Resolution of the policies *)
Definition read_bound (grant : CapabilityRowPolicyGrantV1) (bundle : ContractBundle) (entity : Z) (policy : RowPolicyPlanV1) : Prop :=
  exists binding, binding ∈ cg_bindings grant /\ cb_lineage binding = bu_lineage bundle /\ cb_entity_type binding = entity /\
    Cap_Read ∈ cb_operations binding /\ bound_policy bundle binding entity = Some policy.

Lemma bound_policy_In bundle binding entity policy : bound_policy bundle binding entity = Some policy ->
  policy ∈ bu_row_policies bundle /\ rw_name policy = cb_policy_name binding /\ rw_entity policy = entity.
Proof. intros [Hin [Hn%bool_decide_eq_true He%Z.eqb_eq]%andb_true_iff]%find_In. done. Qed.

Lemma resolve_read_from_ok grant bundle entities : forall ps0 ps,
  resolve_read_policies_from grant bundle entities ps0 = Ok ps ->
  ps0 ⊆ ps /\ forall e, e ∈ entities -> e ∈ map rw_entity (bu_row_policies bundle) ->
    exists selected, ps !! e = Some selected /\ read_bound grant bundle e (ep_policy selected).
Proof.
  induction entities as [|entity rest IH]; intros ps0 ps H; cbn [resolve_read_policies_from] in H.
  - injection H as <-. split; [done|]. by intros e ?%not_elem_of_nil.
  - destruct (find _ (cg_bindings grant)) as [binding|] eqn:Eb.
    + apply find_In in Eb as [Hb [Hl%bool_decide_eq_true He%Z.eqb_eq]%andb_true_iff].
      case_bool_decide as Hr; [|done]. cbn [negb] in H.
      apply result_bind_ok in H as (policy & Hp%ok_or_ok & (rels & _ & (es & _ & H)%result_bind_ok)%result_bind_ok).
      case_bool_decide as Hdup; [done|]. apply eq_None_not_Some in Hdup.
      apply IH in H as [Hsub H]. split.
      * etransitivity; [|exact Hsub]. by apply insert_subseteq.
      * intros e [->|Hin]%elem_of_cons Hprot; [|by apply H].
        eexists. split; [eapply lookup_weaken; [apply lookup_insert_eq|exact Hsub]|].
        exists binding. by split_and!.
    + destruct (existsb _ _) eqn:Ep; [done|]. apply IH in H as [Hsub H]. split; [done|].
      intros e [->|Hin]%elem_of_cons Hprot; [|by apply H]. exfalso.
      apply list_elem_of_fmap in Hprot as (p & Hpe & Hp). apply (proj2 (not_true_iff_false _) Ep), existsb_exists.
      exists p. split; [by apply list_elem_of_In|]. rewrite <- Hpe. apply Z.eqb_refl.
Qed.

Lemma resolve_command_ok bundle bindings : forall ps0 ps, resolve_command_policies bundle bindings ps0 = Ok ps ->
  ps0 ⊆ ps /\ NoDup (map cb_entity_type bindings) /\
  (forall b, b ∈ bindings -> ps0 !! cb_entity_type b = None /\ exists selected, ps !! cb_entity_type b = Some selected /\
     bound_policy bundle b (cb_entity_type b) = Some (ep_policy selected)) /\
  (forall e, is_Some (ps !! e) -> is_Some (ps0 !! e) \/ e ∈ map cb_entity_type bindings).
Proof.
  induction bindings as [|b rest IH]; intros ps0 ps H; cbn [resolve_command_policies map] in *.
  - injection H as <-. split_and!; [done|constructor|by intros b ?%not_elem_of_nil|by left].
  - apply result_bind_ok in H as (policy & Hp%ok_or_ok & (rels & _ & (es & _ & H)%result_bind_ok)%result_bind_ok).
    case_bool_decide as Hdup; [done|]. apply eq_None_not_Some in Hdup.
    apply IH in H as (Hsub & Hnd & Hall & Hfrom). split_and!.
    + etransitivity; [|exact Hsub]. by apply insert_subseteq.
    + constructor; [|done]. intros (b' & Hb' & Hin)%list_elem_of_fmap. destruct (Hall b' Hin) as [Hn _].
      rewrite <- Hb', lookup_insert_eq in Hn. done.
    + intros c [->|Hc]%elem_of_cons.
      * split; [done|]. eexists. split; [eapply lookup_weaken; [apply lookup_insert_eq|exact Hsub]|done].
      * destruct (Hall c Hc) as [Hn Hs]. split; [|done]. by apply lookup_insert_None in Hn as [Hn _].
    + intros e He. apply Hfrom in He as [He|He]; [|right; by right].
      destruct (decide (e = cb_entity_type b)) as [->|Hne]; [right; left|]. left. by rewrite lookup_insert_ne in He.
Qed.

(** ** Governed contracts

    The policies of a bundle are those of its checked catalogue, their rules
    compare operands, and the principal has the declared facts. *)
Record governed (bundle : ContractBundle) (principal : PrincipalFactBindingV1) (facts : list PrincipalFactSchemaV1)
    (policies : list RowPolicyPlanV1) (cat : RowPolicyCatalogV1) : Prop := {
  gv_catalog : catalog_new facts policies (bu_schema bundle) = Ok cat;
  gv_bundle : bu_row_policies bundle = ca_policies cat;
  gv_compare : forallb (fun p => forallb (fun r => compares_operands (rr_nodes r)) (rw_rules p)) (ca_policies cat) = true;
  gv_principal : principal_typed (fact_types (ca_facts cat)) principal = true;
}.

Section governed.
Context (sha256 : list byte -> list byte) (bundle : ContractBundle) (principal : PrincipalFactBindingV1)
        (facts : list PrincipalFactSchemaV1) (policies : list RowPolicyPlanV1) (cat : RowPolicyCatalogV1).
Hypothesis Hg : governed bundle principal facts policies cat.

Definition row_ok (entity : Z) (row : CanonicalRecord) : Prop :=
  row_typed (bu_schema bundle) entity row = true /\ is_ok (encode_canonical_record row) = true.

Lemma governed_checked policy : policy ∈ bu_row_policies bundle ->
  policy_checked (bu_schema bundle) (fact_types (ca_facts cat)) policy /\
  forall rule, rule ∈ rw_rules policy -> compares_operands (rr_nodes rule) = true.
Proof.
  rewrite (gv_bundle _ _ _ _ _ Hg). intros Hin. split; [by eapply catalog_checked; [apply Hg|]|].
  intros rule Hr. pose proof (forallb_In _ _ _ (gv_compare _ _ _ _ _ Hg) Hin) as H. cbv beta in H.
  exact (forallb_In _ _ _ H Hr).
Qed.

(** A policy of the bundle, asked with the evidence of its own probes. *)
Lemma governed_transition policy operation current successor related :
  policy ∈ bu_row_policies bundle ->
  (forall row, current = Some row \/ successor = Some row -> row_ok (rw_entity policy) row) ->
  forall rows rule, required_rows operation current successor = Some rows -> find_rule policy operation = Some rule ->
  exists probes, probes_of policy operation principal rows = Some probes /\
    observed related policy operation principal rows = map (observe related) probes /\
    (is_allowed (evaluate_row_transition sha256 policy operation current successor principal
       (zip_with into_evidence probes (map (observe related) probes))) = true <->
     forall row, row ∈ rows -> rule_meaning row principal related rule = Some true).
Proof.
  intros Hp Hrow rows rule Hrows Hrule. pose proof (governed_checked policy Hp) as [Hck Hcmp].
  assert (forall row, row ∈ rows -> current = Some row \/ successor = Some row) as Hfrom.
  { destruct operation, current, successor; try discriminate Hrows; injection Hrows as <-; intros row;
      rewrite ?elem_of_cons, elem_of_nil; naive_solver. }
  assert (forall row, row ∈ rows -> row_typed (bu_schema bundle) (rw_entity policy) row = true) as Ht
    by (intros row Hin; by apply Hrow, Hfrom).
  destruct (probes_of_total _ _ policy principal Hck (gv_principal _ _ _ _ _ Hg) operation rule rows Hrule Ht) as [probes Hps].
  exists probes. split_and!; [done|unfold observed; by rewrite Hps|].
  eapply transition_exact; try done; [apply Hg|]. intros row Hr. by apply Hrow.
Qed.

Lemma probes_need_rule policy operation row : find_rule policy operation = None ->
  required_indexed_relationship_probes policy operation row principal = Err MissingRule.
Proof. intros H. unfold required_indexed_relationship_probes. by rewrite H. Qed.
End governed.

(** A read under a selected policy of the bundle. *)
Lemma allows_exact sha256 bundle principal facts policies cat selected entity sel row related :
  governed bundle principal facts policies cat -> selected !! entity = Some sel ->
  ep_policy sel ∈ bu_row_policies bundle -> rw_entity (ep_policy sel) = entity -> row_ok bundle entity row ->
  allows sha256 (mkQueryContext principal selected) entity row (observed related (ep_policy sel) Op_Read principal [row]) = true <->
  exists rule, find_rule (ep_policy sel) Op_Read = Some rule /\ rule_meaning row principal related rule = Some true.
Proof.
  intros Hg Hsel Hpol Hent Hrow. unfold allows. cbn [qx_policies qx_principal]. rewrite Hsel.
  destruct (find_rule (ep_policy sel) Op_Read) as [rule|] eqn:Er.
  - destruct (governed_transition sha256 bundle principal facts policies cat Hg (ep_policy sel) Op_Read (Some row) None related Hpol)
      with (rows := [row]) (rule := rule) as (probes & Hps & Hobs & Hiff); [|done|done|].
    { intros r [[= ->]|]; [by rewrite Hent|done]. }
    rewrite Hobs. cbn [probes_of] in Hps.
    destruct (required_indexed_relationship_probes _ _ _ _) as [required|]; [|done].
    injection Hps as <-. rewrite app_nil_r in *. rewrite zlen_map, Z.eqb_refl. cbn [negb].
    unfold evaluate_row_policy. rewrite Hiff. setoid_rewrite list_elem_of_singleton. naive_solver.
  - rewrite (probes_need_rule _ _ _ _ Er). naive_solver.
Qed.

(** C5. Protected reads are exact.  When the read policies of a query resolve,
    every protected entity that it accesses has a policy of the checked
    catalogue, named by a binding of the same lineage that grants reads; and a
    row of that entity is visible, given what the lookups of the policy's own
    probes find, exactly when the policy has a read rule whose meaning accepts
    the row.  No protected row is shown without its policy, and none is hidden
    by a missing evidence, a type or an order of evaluation. *)
Theorem protected_reads_exact sha256 bundle principal facts policies cat grant entities selected entity row :
  governed bundle principal facts policies cat ->
  resolve_read_policies grant bundle entities = Ok selected ->
  entity ∈ entities -> entity ∈ map rw_entity (bu_row_policies bundle) -> row_ok bundle entity row ->
  exists policy, policy ∈ bu_row_policies bundle /\ read_bound grant bundle entity policy /\
    forall related,
      allows sha256 (mkQueryContext principal selected) entity row (observed related policy Op_Read principal [row]) = true <->
      exists rule, find_rule policy Op_Read = Some rule /\ rule_meaning row principal related rule = Some true.
Proof.
  intros Hg Hres Hin Hprot Hrow. apply resolve_read_from_ok in Hres as [_ Hres].
  destruct (Hres _ Hin Hprot) as (sel & Hsel & Hbound). exists (ep_policy sel).
  assert (ep_policy sel ∈ bu_row_policies bundle /\ rw_entity (ep_policy sel) = entity) as [Hpol Hent].
  { destruct Hbound as (b & _ & _ & _ & _ & Hb). apply bound_policy_In in Hb. tauto. }
  split_and!; [done|done|]. intros related. by apply (allows_exact sha256 bundle principal facts policies cat).
Qed.

(** ** The help desk *)
Definition no_hash (_ : list byte) : list byte := [].

Lemma help_governed : governed help_bundle ada_principal help_facts [ticket_policy] help_catalog.
Proof. constructor; vm_compute; reflexivity. Defined.

Lemma ticket_ok owned_by in_team : row_typed help_schema 1 (ticket owned_by in_team) = true ->
  is_ok (encode_canonical_record (ticket owned_by in_team)) = true -> row_ok help_bundle 1 (ticket owned_by in_team).
Proof. by split. Defined.

Definition help_selected : gmap Z AuthorizedEntityPolicyV1 :=
  match resolve_read_policies help_grant help_bundle [1] with Ok selected => selected | Err _ => ∅ end.

Lemma protected_reads_exact_witness :
  exists policy, policy ∈ bu_row_policies help_bundle /\ read_bound help_grant help_bundle 1 policy /\
    forall related,
      allows no_hash (mkQueryContext ada_principal help_selected) 1 (ticket ada "hr")
        (observed related policy Op_Read ada_principal [ticket ada "hr"]) = true <->
      exists rule, find_rule policy Op_Read = Some rule /\ rule_meaning (ticket ada "hr") ada_principal related rule = Some true.
Proof.
  apply (protected_reads_exact no_hash help_bundle ada_principal help_facts [ticket_policy] help_catalog help_grant [1]);
    [exact help_governed|vm_compute; reflexivity|left|left|apply ticket_ok; vm_compute; reflexivity].
Defined.

(** ** Commands *)

(** What the lookups find for a transition, under the policy of the context. *)
Definition transition_evidence (related : Z -> Z -> list CanonicalValue -> bool)
    (context : AuthorizedCommandRowPolicyContextV1) (entity : Z) (operation : RowPolicyOperationV1)
    (current successor : option CanonicalRecord) : list bool :=
  match cx_policies context !! entity, required_rows operation current successor with
  | Some selected, Some rows => observed related (ep_policy selected) operation (cx_principal context) rows
  | _, _ => []
  end.

(** A binding of the grant lets the operation happen on the rows of the entity
    under a policy. *)
Definition operation_bound (grant : CapabilityRowPolicyGrantV1) (bundle : ContractBundle) (entity : Z)
    (operation : RowPolicyOperationV1) (policy : RowPolicyPlanV1) : Prop :=
  exists binding, binding ∈ cg_bindings grant /\ cb_lineage binding = bu_lineage bundle /\ cb_entity_type binding = entity /\
    capability_operation operation ∈ cb_operations binding /\ bound_policy bundle binding entity = Some policy.

Lemma find_entity (bindings : list CapabilityRowPolicyBindingV1) b :
  NoDup (map cb_entity_type bindings) -> b ∈ bindings ->
  find (fun binding => cb_entity_type binding =? cb_entity_type b) bindings = Some b.
Proof.
  induction bindings as [|x l IH]; [by intros _ ?%not_elem_of_nil|]. cbn [map find]. intros [Hx Hnd]%NoDup_cons Hb.
  apply elem_of_cons in Hb as [->|Hb]; [by rewrite Z.eqb_refl|]. destruct (Z.eqb_spec (cb_entity_type x) (cb_entity_type b)) as [E|].
  - exfalso. apply Hx. rewrite E. by apply list_elem_of_fmap_2.
  - by apply IH.
Qed.

(** Selection, when every binding of the grant is of the lineage. *)
Lemma selection_bound principal grant lineage version bundle context entity operation selected :
  resolve_authorized_command_row_policy_context (Some (principal, grant)) lineage version bundle = Ok (Some context) ->
  (forall b, b ∈ cg_bindings grant -> cb_lineage b = bu_lineage bundle) ->
  cx_principal context = principal /\ cx_grant context = grant /\
  (selection context entity operation = Ok selected ->
     cx_policies context !! entity = Some selected /\ operation_bound grant bundle entity operation (ep_policy selected)) /\
  (forall policy, operation_bound grant bundle entity operation policy ->
     exists sel, selection context entity operation = Ok sel /\ cx_policies context !! entity = Some sel /\ ep_policy sel = policy).
Proof.
  intros H Hl. unfold resolve_authorized_command_row_policy_context in H. destruct (_ || _); [done|].
  apply result_bind_ok in H as (ps & Hps & [= <-]). rewrite filter_all in Hps by (by apply Forall_forall).
  apply resolve_command_ok in Hps as (_ & Hnd & Hall & Hfrom). cbn [cx_principal cx_grant cx_policies].
  split_and!; [done|done| |]; unfold selection; cbn [cx_policies cx_grant].
  - intros (sel & Hsel%ok_or_ok & (b & [Hb He%Z.eqb_eq]%ok_or_ok%find_In & H)%result_bind_ok)%result_bind_ok.
    case_bool_decide as Hop; [|done]. injection H as ->. split; [done|]. exists b.
    destruct (Hall b Hb) as (_ & sel' & Hsel' & Hbp). rewrite He in *. split_and!; try done; [by apply Hl|]. congruence.
  - intros policy (b & Hb & _ & <- & Hop & Hbp). destruct (Hall b Hb) as (_ & sel & Hsel & Hbp').
    exists sel. rewrite Hsel. cbn. rewrite (find_entity _ _ Hnd Hb). cbn. rewrite bool_decide_eq_true_2 by done.
    split_and!; [done|done|congruence].
Qed.

(** A transition under the policy that was selected for it. *)
Lemma selected_transition sha256 bundle principal facts policies cat context entity operation sel current successor related :
  governed bundle principal facts policies cat -> cx_principal context = principal ->
  selection context entity operation = Ok sel -> cx_policies context !! entity = Some sel ->
  ep_policy sel ∈ bu_row_policies bundle -> rw_entity (ep_policy sel) = entity ->
  (forall row, current = Some row \/ successor = Some row -> row_ok bundle entity row) ->
  allows_transition sha256 context entity operation current successor
    (transition_evidence related context entity operation current successor) = true <->
  exists rule rows, find_rule (ep_policy sel) operation = Some rule /\ required_rows operation current successor = Some rows /\
    forall row, row ∈ rows -> rule_meaning row principal related rule = Some true.
Proof.
  intros Hg Hpr Es Hlook Hpol Hent Hrow. unfold allows_transition, transition_evidence. rewrite Es, Hlook, Hpr.
  destruct (required_rows operation current successor) as [rows|] eqn:Err; [|naive_solver].
  destruct (find_rule (ep_policy sel) operation) as [rule|] eqn:Er.
  - destruct (governed_transition sha256 bundle principal facts policies cat Hg (ep_policy sel) operation current successor
                related Hpol) with (rows := rows) (rule := rule) as (probes & -> & -> & Hiff); [by rewrite Hent|done|done|].
    rewrite zlen_map, Z.eqb_refl. cbn [negb]. rewrite Hiff. naive_solver.
  - assert (probes_of (ep_policy sel) operation principal rows = None) as ->; [|naive_solver].
    destruct rows as [|row rows]; [by destruct operation, current, successor|]. cbn [probes_of].
    by rewrite (probes_need_rule _ _ _ _ Er).
Qed.


Definition help_context : AuthorizedCommandRowPolicyContextV1 :=
  match resolve_authorized_command_row_policy_context (Some (ada_principal, help_grant)) (text "help") 1 help_bundle with
  | Ok (Some context) => context
  | _ => mkCommandContext ada_principal help_grant ∅
  end.


(** ** Revalidation *)
Definition row_frame (row : CanonicalRecord) : list byte := content_frame HD_CanonicalValue (ser (VRecord row)).

Lemma row_hash_frame sha256 row h : value_wf (VRecord row) -> row_hash sha256 row = Some h ->
  h = typed_hash sha256 HD_CanonicalValue (ser (VRecord row)) /\ u_range 64 (zlen (ser (VRecord row))).
Proof.
  intros Hwf. unfold row_hash. rewrite (proj1 (record_entry_points_agree row)).
  pose proof (encode_canonical_value_exact _ Hwf) as He. destruct (encode_canonical_value _) as [b|]; [|done].
  destruct He as [-> Hb]. intros [= <-]. split; [done|]. pose proof (zlen_nonneg (ser (VRecord row))).
  unfold u_range, MAX_CANONICAL_DOCUMENT_BYTES in *. lia.
Qed.

Lemma optional_hash_binds sha256 (a b : option CanonicalRecord) h :
  (forall row, a = Some row \/ b = Some row -> value_wf (VRecord row)) ->
  optional_row_hash sha256 a = Ok h -> optional_row_hash sha256 b = Ok h ->
  a = b \/ exists r s, a = Some r /\ b = Some s /\ collide sha256 (row_frame r) (row_frame s).
Proof.
  intros Hwf Ha Hb. destruct a as [r|], b as [s|]; cbn in Ha, Hb;
    [|by destruct (row_hash sha256 r); inv_result; discriminate|by destruct (row_hash sha256 s); inv_result; discriminate|by left].
  destruct (row_hash sha256 r) as [x|] eqn:Er; [|done]. destruct (row_hash sha256 s) as [y|] eqn:Es; [|done].
  cbn in Ha, Hb. assert (x = y) as -> by congruence.
  apply row_hash_frame in Er as [Ex Rr]; [|apply Hwf; by left]. apply row_hash_frame in Es as [Ey Rs]; [|apply Hwf; by right].
  rewrite Ex in Ey. clear Ex. apply hash_bytes_separated in Ey as [[_ E]|Hc]; [left|right; by exists r, s|done|done].
  apply ser_inj in E as [= ->]; [done|apply Hwf; by left|apply Hwf; by right|]. unfold u_range, usize_max in *. lia.
Qed.

Lemma transition_allowed sha256 policy operation current successor principal relationships proof :
  evaluate_row_transition sha256 policy operation current successor principal relationships = Allow proof ->
  exists rule rows, find_rule policy operation = Some rule /\ required_rows operation current successor = Some rows /\
    (forall row, row ∈ rows -> evaluate_rule row principal relationships rule = Ok true) /\
    optional_row_hash sha256 current = Ok (pf_current_row_hash proof) /\
    optional_row_hash sha256 successor = Ok (pf_successor_row_hash proof) /\
    pf_policy_name proof = rw_name policy /\ pf_entity proof = rw_entity policy /\ pf_operation proof = operation /\
    pf_capability_id proof = pr_capability_id principal /\ pf_capability_revision proof = pr_revision principal.
Proof.
  unfold evaluate_row_transition. destruct (_ ≫= _) as [p|] eqn:E; [|done]. intros [= ->].
  apply result_bind_ok in E as (rule & Hr%ok_or_ok & (rows & Hrows%ok_or_ok & ([] & Ha & E)%result_bind_ok)%result_bind_ok).
  apply result_bind_ok in E as (hc & Hc & (hs & Hs & [= <-])%result_bind_ok). exists rule, rows.
  split_and!; try done. clear Hrows. induction rows as [|r rows IH]; [by intros row ?%not_elem_of_nil|]. cbn [accept_rows] in Ha.
  apply result_bind_ok in Ha as ([] & He & Ha); [|done]. intros row [->|Hin]%elem_of_cons; [done|by apply IH].
Qed.

(** C16. A revalidated proof stands for the same rows.  When a transition was
    allowed with a proof and the proof revalidates later, then the authority is
    the same capability at the same revision under a policy of the same name and
    entity, the current rule accepts every row that the operation needs with the
    facts and relationships of the later moment, the renewed proof is the same
    proof, and the current row and the successor are the rows that were first
    allowed, unless the canonical encodings of two different rows are exhibited
    as a collision of SHA-256. *)
Theorem revalidated_proof_binds_rows sha256 policy operation current successor principal relationships proof
    policy' current' successor' principal' relationships' proof' :
  (forall row, current = Some row \/ current' = Some row -> value_wf (VRecord row)) ->
  (forall row, successor = Some row \/ successor' = Some row -> value_wf (VRecord row)) ->
  evaluate_row_transition sha256 policy operation current successor principal relationships = Allow proof ->
  revalidate_row_policy_proof sha256 proof policy' current' successor' principal' relationships' = Allow proof' ->
  proof' = proof /\ pr_capability_id principal' = pr_capability_id principal /\ pr_revision principal' = pr_revision principal /\
  rw_name policy' = rw_name policy /\ rw_entity policy' = rw_entity policy /\
  (exists rule rows, find_rule policy' operation = Some rule /\ required_rows operation current' successor' = Some rows /\
     forall row, row ∈ rows -> evaluate_rule row principal' relationships' rule = Ok true) /\
  ((current' = current /\ successor' = successor) \/
   exists r s, r <> s /\ collide sha256 (row_frame r) (row_frame s)).
Proof.
  intros Hwc Hws H Hre. apply transition_allowed in H as (rule & rows & _ & _ & _ & Hc & Hs & Hn & He & Ho & Hcap & Hrev).
  unfold revalidate_row_policy_proof in Hre. destruct (_ || _ || _ || _) eqn:Eb; [done|].
  rewrite !orb_false_iff, !negb_false_iff, !bool_decide_eq_true, !Z.eqb_eq in Eb. destruct Eb as [[[Bn Be] Bc] Br].
  rewrite Ho in Hre. destruct (evaluate_row_transition _ _ _ _ _ _ _) as [p|] eqn:E; [|done].
  destruct (_ || _) eqn:Eh; [done|]. injection Hre as ->.
  rewrite !orb_false_iff, !negb_false_iff, !bool_decide_eq_true in Eh. destruct Eh as [Ehc Ehs].
  apply transition_allowed in E as (rule' & rows' & Hr & Hrows & Hall & Hc' & Hs' & Hn' & He' & Ho' & Hcap' & Hrev').
  split_and!; try congruence; [destruct proof, proof'; cbn in *; congruence|by exists rule', rows'|].
  rewrite Ehc in Hc. rewrite Ehs in Hs.
  destruct (optional_hash_binds sha256 current current' _ Hwc Hc Hc') as [->|(r & s & _ & _ & Hcol)].
  - destruct (optional_hash_binds sha256 successor successor' _ Hws Hs Hs') as [->|(r & s & _ & _ & Hcol)]; [by left|].
    right. exists r, s. split; [|done]. intros ->. by destruct Hcol.
  - right. exists r, s. split; [|done]. intros ->. by destruct Hcol.
Qed.

Definition update_proof : RowPolicyProofV1 :=
  match evaluate_row_transition no_hash ticket_policy Op_Update (Some (ticket ada "hr")) (Some (ticket ada "ops")) ada_principal [] with
  | Allow proof => proof
  | Deny _ => mkProof [] 0 Op_Update [] 0 None None
  end.

Lemma revalidated_proof_binds_rows_witness :
  exists rule rows, find_rule ticket_policy Op_Update = Some rule /\
    required_rows Op_Update (Some (ticket ada "hr")) (Some (ticket ada "ops")) = Some rows /\
    forall row, row ∈ rows -> evaluate_rule row ada_principal [] rule = Ok true.
Proof.
  apply (revalidated_proof_binds_rows no_hash ticket_policy Op_Update (Some (ticket ada "hr")) (Some (ticket ada "ops"))
           ada_principal [] update_proof ticket_policy (Some (ticket ada "hr")) (Some (ticket ada "ops")) ada_principal []
           update_proof); [| |vm_compute; reflexivity|vm_compute; reflexivity];
    intros row [E|E]; injection E as <-; vm_compute; reflexivity.
Defined.

(** ** Projected candidates *)
Section projected.
Context (sha256 : list byte -> list byte) (context : AuthorizedQueryRowPolicyContextV1) (entity : Z).

(** The candidate exists and its current row is visible. *)
Definition shown (o : ProjectedPolicyCandidateObservationV1) : bool :=
  match ob_current o with Some (row, evidence) => allows sha256 context entity row evidence | None => false end.

Definition decision (o : ProjectedPolicyCandidateObservationV1) : list byte * bool := (ob_key o, shown o).

Definition candidates_ordered (prior : option (list byte)) (observations : list ProjectedPolicyCandidateObservationV1) : Prop :=
  (forall o, o ∈ observations -> key_type_id (ob_key o) = Some entity) /\
  strictly_increasing lex (match prior with Some p => p :: map ob_key observations | None => map ob_key observations end) = true.

Lemma admit_candidates_spec observations : forall candidates n,
  match admit_candidates sha256 context entity observations candidates n with
  | Ok (cs, m) => candidates_ordered (fst <$> last candidates) observations /\ cs = candidates ++ map decision observations /\
                  m = n + zlen (List.filter shown observations)
  | Err e => e = QC_InvalidProjectedCandidateSet /\ ~ candidates_ordered (fst <$> last candidates) observations
  end.
Proof.
  induction observations as [|o rest IH]; intros candidates n; cbn [admit_candidates].
  - split_and!; [|by rewrite app_nil_r|unfold zlen; cbn; lia]. split; [by intros o ?%not_elem_of_nil|]. by destruct (last candidates).
  - case_bool_decide as Ht; cbn [negb orb]; [|split; [done|]; intros [H _]; apply Ht, H; left].
    specialize (IH (candidates ++ [decision o]) (n + if shown o then 1 else 0)). rewrite last_snoc in IH. cbn [fmap option_fmap option_map decision fst] in IH.
    set (prior := match last candidates with Some (p, _) => match lex p (ob_key o) with Lt => false | _ => true end | None => false end).
    assert (candidates_ordered (fst <$> last candidates) (o :: rest) <-> prior = false /\ candidates_ordered (Some (ob_key o)) rest)
      as Hstep.
    { unfold candidates_ordered, prior. setoid_rewrite elem_of_cons.
      destruct (last candidates) as [[p ?]|]; cbn [fmap option_fmap option_map fst map];
        [change (strictly_increasing lex (p :: ob_key o :: map ob_key rest)) with
           (match lex p (ob_key o) with Lt => strictly_increasing lex (ob_key o :: map ob_key rest) | _ => false end);
         destruct (lex p (ob_key o))|]; naive_solver. }
    destruct prior; [split; [done|]; rewrite Hstep; naive_solver|].
    change (match ob_current o with Some (row, evidence) => allows sha256 context entity row evidence | None => false end)
      with (shown o). fold (decision o). destruct (admit_candidates _ _ _ rest _ _) as [[cs m]|e]; [|rewrite Hstep; naive_solver].
    destruct IH as (Ho & -> & ->). split_and!; [by apply Hstep|by rewrite <- app_assoc|].
    cbn [List.filter]. destruct (shown o); unfold zlen; cbn [length]; lia.
Qed.
End projected.

(** C33. The admission of projected candidates is exact.  It is refused exactly
    when there are more candidates than the fixed ceiling, a key of another
    entity, or keys that are not in strict order; otherwise it covers that
    entity and that set of candidates and no other, counts the candidates it
    admits, and admits a key exactly when it is a candidate whose current row
    exists and is visible. *)
Theorem projected_admission_exact sha256 context entity observations :
  let accepted := zlen observations <= MAX_PROJECTED_POLICY_CANDIDATES_V1 /\ candidates_ordered entity None observations in
  match authorize_projected_candidates sha256 context entity observations with
  | Ok admission =>
      accepted /\
      (forall e keys, covers admission e keys = true <-> e = entity /\ keys = map ob_key observations) /\
      pa_admitted_count admission = zlen (List.filter (shown sha256 context entity) observations) /\
      (forall key, admits admission key = true <->
         exists o, o ∈ observations /\ ob_key o = key /\ shown sha256 context entity o = true)
  | Err e => e = QC_InvalidProjectedCandidateSet /\ ~ accepted
  end.
Proof.
  intros accepted. unfold authorize_projected_candidates, accepted. clear accepted.
  destruct (Z.ltb_spec MAX_PROJECTED_POLICY_CANDIDATES_V1 (zlen observations)) as [|Hn]; [split; [done|lia]|].
  pose proof (admit_candidates_spec sha256 context entity observations [] 0) as H. cbn [last fmap option_fmap option_map] in H.
  destruct (admit_candidates _ _ _ _ _ _) as [[cs m]|e]; cbn [mbind result_bind]; [|naive_solver].
  destruct H as (Ho & -> & ->). cbn [app].
  assert (map fst (map (decision sha256 context entity) observations) = map ob_key observations) as Hk
    by (rewrite map_map; by apply map_ext).
  split_and!; [done|exact Ho| |done|].
  - intros e keys. unfold covers. cbn [pa_entity pa_candidates]. rewrite Hk, !andb_true_iff, bool_decide_eq_true, !Z.eqb_eq, zlen_map.
    split; [naive_solver|]. intros [-> ->]. by rewrite zlen_map.
  - intros key. unfold admits. cbn [pa_candidates]. destruct Ho as [_ Hs].
    assert (NoDup (map ob_key observations)) as Hnd.
    { apply (increasing_NoDup lex); [intros x; by rewrite lex_refl|intros x y z; apply lex_trans|done]. }
    clear Hs Hk Hn. induction observations as [|o rest IH]; cbn [map find]; [split; [done|]; by intros (o & ?%not_elem_of_nil & _)|].
    cbn [decision fst]. apply NoDup_cons in Hnd as [Hin Hnd]. case_bool_decide as E.
    + split; [intros H; exists o; split_and!; [left|done|done]|]. intros (o' & [->|Ho']%elem_of_cons & Hk & Hsh); [done|].
      exfalso. apply Hin. rewrite E, <- Hk. by apply list_elem_of_fmap_2.
    + rewrite (IH Hnd). setoid_rewrite elem_of_cons. naive_solver.
Qed.
