(* ===== verification/RowPolicyNarrowing.v ===== *)
(** * Row policies: delegation

    A capability is delegated with facts that narrow those of its parent: fewer
    facts, or fewer members of a list-valued fact.  For rules that read
    list-valued facts only as the list of a membership test that is not under a
    negation, narrower facts show no more rows; under a negation they show more,
    exactly the rows of the dropped members.  The operations of a command are
    those of the first binding of the entity, also when it is of another lineage;
    and a comparison of computed conditions denies every row. *)

From S2P Require Import Prelude Decimal Value Codec ValueType Evaluate Framing Hash Names Text Results Sort PrincipalFacts Schema RowPolicyPlan RowPolicyGrant RowPolicy RowPolicySpec RowPolicySample RowPolicyGuarantees.
From Stdlib Require Import Strings.String Strings.Byte.
From stdpp Require Import gmap list strings.

Local Open Scope Z_scope.

(** ** Monotone rules *)

(** The value of the operand is the same under narrower facts. *)
Definition steady (o : RowPolicyOperandV1) : bool :=
  match po_source o with PrincipalFact _ => is_projection_group_scalar (po_value_type o) | _ => true end.

Section monotone.
Context (nodes : list RowPolicyExpressionNodeV1).

Definition steady_node (id : nat) : bool :=
  match nodes !! id with Some (R_Operand o) => steady o | _ => true end.

(** [positive] is the parity of the negations above the node. *)
Fixpoint monotone (depth : nat) (positive : bool) (id : nat) : bool :=
  match depth with
  | O => false
  | S depth =>
      match nodes !! id with
      | None => false
      | Some (R_Operand o) => steady o
      | Some (R_Equal l r) | Some (R_NotEqual l r) => steady_node l && steady_node r
      | Some (R_Not v) => monotone depth (negb positive) v
      | Some (R_And l r) | Some (R_Or l r) => monotone depth positive l && monotone depth positive r
      | Some (R_In n h) => steady_node n && (positive || steady_node h)
      | Some (R_IsNull v _) => steady_node v
      | Some (R_IndexedExists _ _ args) => forallb steady args
      end
  end.
End monotone.

Definition monotone_rule (rule : RowPolicyRuleV1) : bool := monotone (rr_nodes rule) (S (rr_root rule)) true (rr_root rule).

(** The same principal, with narrower facts. *)
Record narrowed (child parent : PrincipalFactBindingV1) : Prop := {
  nw_id : pr_principal_id child = pr_principal_id parent;
  nw_kind : pr_actor_kind child = pr_actor_kind parent;
  nw_child : Forall fact_wf (ps_facts (pr_facts child));
  nw_parent : Forall fact_wf (ps_facts (pr_facts parent));
  nw_facts : facts_is_narrowing_of (pr_facts child) (pr_facts parent) = true;
}.

(** ** Values under narrower facts *)
Definition fewer (v w : CanonicalValue) : Prop :=
  v = w \/ exists l k, v = VList l /\ w = VList k /\ l ⊆ k.

Lemma scalar_not_list t l : is_projection_group_scalar t = true -> validate_value t (VList l) <> Ok tt.
Proof. by destruct t. Qed.

Lemma member_fewer n v w : fewer v w -> member n v = true -> member n w = true.
Proof.
  intros [->|(l & k & -> & -> & Hs)]; [done|]. cbn [member]. rewrite !existsb_exists.
  intros (x & Hx & He). exists x. split; [|done]. apply list_elem_of_In, Hs. by apply list_elem_of_In.
Qed.

Section values.
Context (row : CanonicalRecord) (child parent : PrincipalFactBindingV1) (nodes : list RowPolicyExpressionNodeV1)
        (related : Z -> Z -> list CanonicalValue -> bool).
Hypothesis Hn : narrowed child parent.
(** Operands have values of their types. *)
Hypothesis Htyped : forall o v, (R_Operand o ∈ nodes \/ exists t i args, R_IndexedExists t i args ∈ nodes /\ o ∈ args) ->
  operand_value row child o = Some v -> validate_value (po_value_type o) v = Ok tt.

Lemma operand_fewer o v w : operand_value row child o = Some v -> operand_value row parent o = Some w -> fewer v w.
Proof.
  unfold operand_value. rewrite (nw_id _ _ Hn), (nw_kind _ _ Hn). destruct (po_source o); try (intros; left; congruence).
  intros (f & Hf & ->)%fmap_Some (g & Hg & ->)%fmap_Some.
  destruct (narrowed_fact _ _ _ _ (nw_child _ _ Hn) (nw_parent _ _ Hn) (nw_facts _ _ Hn) Hf) as (g' & Hg' & H).
  assert (g' = g) as -> by congruence. exact H.
Qed.

Lemma operand_steady o v w : (R_Operand o ∈ nodes \/ exists t i args, R_IndexedExists t i args ∈ nodes /\ o ∈ args) ->
  steady o = true -> operand_value row child o = Some v -> operand_value row parent o = Some w -> v = w.
Proof.
  intros Hin Hs Hv Hw. destruct (operand_fewer _ _ _ Hv Hw) as [|(l & k & -> & -> & _)]; [done|]. pose proof (Htyped _ _ Hin Hv) as Ht.
  unfold steady in Hs. unfold operand_value in Hv, Hw. rewrite (nw_id _ _ Hn), (nw_kind _ _ Hn) in Hv.
  destruct (po_source o); try congruence. by apply scalar_not_list in Ht.
Qed.

Notation child_means := (meaning row child related nodes).
Notation parent_means := (meaning row parent related nodes).

(** A value that is compared is that of an operand. *)
Lemma scalar_operand p d id v : scalar (meaning row p related nodes d id) = Some v ->
  exists o, nodes !! id = Some (R_Operand o) /\ operand_value row p o = Some v.
Proof.
  destruct d as [|d]; [done|]. cbn [meaning]. destruct (nodes !! id) as [node|] eqn:E; [|done]. cbn [mbind option_bind].
  destruct (node_meaning _ _ _ _ node) as [nv|] eqn:Em; [|done]. destruct nv as [x|b]; [|done]. intros [= ->].
  destruct node; cbn [node_meaning] in Em;
    try by (repeat (apply bind_Some in Em as (? & _ & Em)); discriminate Em).
  apply fmap_Some in Em as (y & Hy & [= ->]). by exists operand.
Qed.

Lemma scalar_fewer d id v w : scalar (child_means d id) = Some v -> scalar (parent_means d id) = Some w ->
  fewer v w /\ (steady_node nodes id = true -> v = w).
Proof.
  intros (o & Ho & Hv)%scalar_operand (o' & Ho' & Hw)%scalar_operand. assert (o' = o) as -> by congruence.
  split; [by eapply operand_fewer|]. unfold steady_node. rewrite Ho. intros Hs.
  eapply operand_steady; [|done|done|done]. left. by eapply list_elem_of_lookup_2.
Qed.

Lemma arguments_steady t i args vs ws : R_IndexedExists t i args ∈ nodes -> forallb steady args = true ->
  mapM (operand_value row child) args = Some vs -> mapM (operand_value row parent) args = Some ws -> vs = ws.
Proof.
  intros Hin Hs Hv Hw. apply mapM_Some in Hv, Hw.
  assert (forall a, a ∈ args -> steady a = true) as Hst by (intros a Ha; by eapply forallb_In).
  assert (forall a, a ∈ args -> exists t i args, R_IndexedExists t i args ∈ nodes /\ a ∈ args) as Hall by (intros a Ha; by eexists _, _, _).
  clear Hin Hs. revert ws Hw. induction Hv as [|a v args vs Ha _ IH]; intros ws Hw; [by apply Forall2_nil_inv_l in Hw|].
  apply Forall2_cons_inv_l in Hw as (w & ws' & Hw & Hws & ->). f_equal.
  - eapply operand_steady; [right; apply Hall; left|apply Hst; left|done|done].
  - apply IH; [| |done]; intros b Hb; [apply Hst|apply Hall]; by right.
Qed.

Lemma truth_bind {A} (x : option A) (f : A -> bool) b : truth (a ← x; Some (Computed (f a))) = Some b ->
  exists a, x = Some a /\ b = f a.
Proof. destruct x as [a|]; [|done]. intros [= <-]. by exists a. Qed.

Lemma truth_bind2 {A B} (x : option A) (y : option B) (f : A -> B -> bool) b :
  truth (a ← x; c ← y; Some (Computed (f a c))) = Some b -> exists a c, x = Some a /\ y = Some c /\ b = f a c.
Proof. destruct x as [a|], y as [c|]; try done. intros [= <-]. by exists a, c. Qed.

(** The truth of a node grows with the facts, or shrinks under a negation. *)
Lemma truth_monotone d : forall positive id b c, monotone nodes d positive id = true ->
  truth (child_means d id) = Some b -> truth (parent_means d id) = Some c ->
  if positive then b = true -> c = true else c = true -> b = true.
Proof.
  induction d as [|d IH]; intros positive id b c Hm Hb Hc; [done|]. cbn [meaning monotone] in *.
  destruct (nodes !! id) as [node|] eqn:E; [|done]. cbn [mbind option_bind] in Hb, Hc.
  assert (node ∈ nodes) as Hin by (by eapply list_elem_of_lookup_2).
  destruct node as [o|l r|l r|v|l r|l r|n h|v negated|t i args]; cbn [node_meaning] in *.
  - destruct (operand_value row child o) as [x|] eqn:Ex; [|done]. destruct (operand_value row parent o) as [y|] eqn:Ey; [|done].
    assert (x = y) as -> by (eapply operand_steady; [by left|done|done|done]). assert (b = c) as -> by congruence. by destruct positive.
  - apply truth_bind2 in Hb as (x & y & Hx & Hy & ->), Hc as (x' & y' & Hx' & Hy' & ->). apply andb_true_iff in Hm as [Hl Hr].
    rewrite (proj2 (scalar_fewer _ _ _ _ Hx Hx') Hl), (proj2 (scalar_fewer _ _ _ _ Hy Hy') Hr). by destruct positive.
  - apply truth_bind2 in Hb as (x & y & Hx & Hy & ->), Hc as (x' & y' & Hx' & Hy' & ->). apply andb_true_iff in Hm as [Hl Hr].
    rewrite (proj2 (scalar_fewer _ _ _ _ Hx Hx') Hl), (proj2 (scalar_fewer _ _ _ _ Hy Hy') Hr). by destruct positive.
  - apply truth_bind in Hb as (x & Hx & ->), Hc as (y & Hy & ->). pose proof (IH _ _ _ _ Hm Hx Hy) as H.
    destruct positive, x, y; cbn in *; naive_solver.
  - apply truth_bind2 in Hb as (x & y & Hx & Hy & ->), Hc as (x' & y' & Hx' & Hy' & ->). apply andb_true_iff in Hm as [Hl Hr].
    pose proof (IH _ _ _ _ Hl Hx Hx') as H1. pose proof (IH _ _ _ _ Hr Hy Hy') as H2.
    destruct positive, x, y, x', y'; cbn in *; naive_solver.
  - apply truth_bind2 in Hb as (x & y & Hx & Hy & ->), Hc as (x' & y' & Hx' & Hy' & ->). apply andb_true_iff in Hm as [Hl Hr].
    pose proof (IH _ _ _ _ Hl Hx Hx') as H1. pose proof (IH _ _ _ _ Hr Hy Hy') as H2.
    destruct positive, x, y, x', y'; cbn in *; naive_solver.
  - apply truth_bind2 in Hb as (x & y & Hx & Hy & ->), Hc as (x' & y' & Hx' & Hy' & ->). apply andb_true_iff in Hm as [Hl Hr].
    rewrite (proj2 (scalar_fewer _ _ _ _ Hx Hx') Hl). destruct (scalar_fewer _ _ _ _ Hy Hy') as [Hf Hs].
    destruct positive; [by apply member_fewer|]. by rewrite (Hs Hr).
  - apply truth_bind in Hb as (x & Hx & ->), Hc as (y & Hy & ->).
    rewrite (proj2 (scalar_fewer _ _ _ _ Hx Hy) Hm). by destruct positive.
  - apply truth_bind in Hb as (x & Hx & ->), Hc as (y & Hy & ->).
    rewrite (arguments_steady _ _ _ _ _ Hin Hm Hx Hy). by destruct positive.
Qed.
End values.

(** ** Checked rules *)
Lemma check_nodes_operand entity schema facts nodes o : forall checked probes checked',
  check_nodes entity schema facts checked probes nodes = Ok checked' -> R_Operand o ∈ nodes ->
  validate_operand entity schema facts o = Ok tt.
Proof.
  induction nodes as [|node nodes IH]; intros checked probes checked' H Hn; [by apply not_elem_of_nil in Hn|].
  cbn [check_nodes] in H. apply result_bind_ok in H as ([[ty w] p] & Hc & H).
  apply elem_of_cons in Hn as [<-|Hn]; [|by eapply IH]. cbn [check_node] in Hc. by apply result_bind_ok in Hc as ([] & Hv & _).
Qed.

Lemma rule_operand entity schema facts operation nodes root rule o :
  rule_new entity schema facts operation nodes root = Ok rule ->
  (R_Operand o ∈ nodes \/ exists t i args, R_IndexedExists t i args ∈ nodes /\ o ∈ args) ->
  validate_operand entity schema facts o = Ok tt.
Proof.
  intros H [Hin|(t & i & args & Hin & Ho)]; [|by eapply rule_operands].
  unfold rule_new in H. destruct (bool_decide _); [done|]. apply result_bind_ok in H as (? & _ & H).
  destruct (_ <=? _); [done|]. apply result_bind_ok in H as (checked & Hck & _). by eapply check_nodes_operand.
Qed.

(** Operands of a checked rule have values of their types. *)
Lemma rule_typed bundle principal facts policies cat policy operation rule row o v :
  governed bundle principal facts policies cat -> policy ∈ bu_row_policies bundle -> row_ok bundle (rw_entity policy) row ->
  find_rule policy operation = Some rule ->
  (R_Operand o ∈ rr_nodes rule \/ exists t i args, R_IndexedExists t i args ∈ rr_nodes rule /\ o ∈ args) ->
  operand_value row principal o = Some v -> validate_value (po_value_type o) v = Ok tt.
Proof.
  intros Hg Hpol [Hrow _] Hr Ho Hv. apply find_rule_In in Hr as [Hin _].
  destruct (governed_checked bundle principal facts policies cat Hg policy Hpol) as [Hck _]. specialize (Hck _ Hin).
  eapply rule_operand in Ho; [|exact Hck].
  destruct (operand_source_value _ _ _ _ _ Hrow (gv_principal _ _ _ _ _ Hg) o Ho) as (v' & Hv' & Ht). congruence.
Qed.

(** A read under a selected policy with a rule has the rule's meaning. *)
Lemma allows_rule sha256 bundle principal facts policies cat selected entity sel row related rule :
  governed bundle principal facts policies cat -> selected !! entity = Some sel ->
  ep_policy sel ∈ bu_row_policies bundle -> rw_entity (ep_policy sel) = entity -> row_ok bundle entity row ->
  find_rule (ep_policy sel) Op_Read = Some rule ->
  rule_meaning row principal related rule =
    Some (allows sha256 (mkQueryContext principal selected) entity row (observed related (ep_policy sel) Op_Read principal [row])).
Proof.
  intros Hg Hsel Hpol Hent Hrow Hr.
  pose proof (allows_exact sha256 bundle principal facts policies cat selected entity sel row related Hg Hsel Hpol Hent Hrow) as Hiff.
  destruct (governed_checked bundle principal facts policies cat Hg (ep_policy sel) Hpol) as [Hck Hcmp].
  destruct Hrow as [Hrow _]. rewrite <- Hent in Hrow.
  destruct (rule_meaning_total _ _ _ principal related Hck Hcmp (gv_principal _ _ _ _ _ Hg) Op_Read rule row Hr Hrow) as [b Hb].
  rewrite Hb. f_equal. destruct (allows _ _ _ _ _) eqn:E, b; try done.
  - destruct (proj1 Hiff eq_refl) as (r & Hr' & Hm). congruence.
  - assert (false = true); [|done]. apply Hiff. by exists rule.
Qed.

Section delegated.
Context (sha256 : list byte -> list byte) (bundle : ContractBundle) (facts : list PrincipalFactSchemaV1)
        (policies : list RowPolicyPlanV1) (cat : RowPolicyCatalogV1) (child parent : PrincipalFactBindingV1)
        (selected : gmap Z AuthorizedEntityPolicyV1) (entity : Z) (sel : AuthorizedEntityPolicyV1) (row : CanonicalRecord)
        (related : Z -> Z -> list CanonicalValue -> bool) (rule : RowPolicyRuleV1).
Hypothesis Hc : governed bundle child facts policies cat.
Hypothesis Hp : governed bundle parent facts policies cat.
Hypothesis Hn : narrowed child parent.
Hypothesis Hsel : selected !! entity = Some sel.
Hypothesis Hpol : ep_policy sel ∈ bu_row_policies bundle.
Hypothesis Hent : rw_entity (ep_policy sel) = entity.
Hypothesis Hrow : row_ok bundle entity row.
Hypothesis Hrule : find_rule (ep_policy sel) Op_Read = Some rule.

Notation shows p := (allows sha256 (mkQueryContext p selected) entity row (observed related (ep_policy sel) Op_Read p [row])).

Lemma delegated_typed o v :
  (R_Operand o ∈ rr_nodes rule \/ exists t i args, R_IndexedExists t i args ∈ rr_nodes rule /\ o ∈ args) ->
  operand_value row child o = Some v -> validate_value (po_value_type o) v = Ok tt.
Proof. eapply rule_typed; [exact Hc|exact Hpol|by rewrite Hent|exact Hrule]. Qed.

(** Narrower facts show fewer rows, or more, by the parity of the negations. *)
Lemma narrowed_shows positive : monotone (rr_nodes rule) (S (rr_root rule)) positive (rr_root rule) = true ->
  if positive then shows child = true -> shows parent = true else shows parent = true -> shows child = true.
Proof.
  intros Hm.
  pose proof (allows_rule sha256 bundle child facts policies cat selected entity sel row related rule Hc Hsel Hpol Hent Hrow Hrule) as Ec.
  pose proof (allows_rule sha256 bundle parent facts policies cat selected entity sel row related rule Hp Hsel Hpol Hent Hrow Hrule) as Ep.
  exact (truth_monotone row child parent (rr_nodes rule) related Hn delegated_typed _ positive _ _ _ Hm Ec Ep).
Qed.

(** A row that only the narrower facts show has a member that was dropped. *)
Lemma negated_membership_gains o f : rr_nodes rule = [R_Operand o; R_Operand f; R_In 0 1; R_Not 2] -> rr_root rule = 3%nat ->
  steady o = true ->
  (shows child = true /\ shows parent = false) <->
  exists x l k, operand_value row parent o = Some x /\ operand_value row child f = Some (VList l) /\
    operand_value row parent f = Some (VList k) /\ x ∈ k /\ x ∉ l.
Proof.
  intros Hnodes Hroot Hst.
  assert (forall p b, rule_meaning row p related rule = Some b ->
    exists x y, operand_value row p o = Some x /\ operand_value row p f = Some y /\ b = negb (member x y)) as Hmean.
  { intros p b. unfold rule_meaning. rewrite Hnodes, Hroot. cbn. destruct (operand_value row p o) as [x|]; [|done].
    destruct (operand_value row p f) as [y|]; [|done]. cbn. intros [= <-]. by exists x, y. }
  assert (forall x l, member x (VList l) = true <-> x ∈ l) as Hmem.
  { intros x l. cbn [member]. rewrite existsb_exists. setoid_rewrite <- list_elem_of_In. setoid_rewrite value_eqb_eq. naive_solver. }
  destruct (Hmean child _ (allows_rule sha256 _ _ _ _ _ _ _ _ _ related _ Hc Hsel Hpol Hent Hrow Hrule)) as (x & y & Hx & Hy & ->).
  destruct (Hmean parent _ (allows_rule sha256 _ _ _ _ _ _ _ _ _ related _ Hp Hsel Hpol Hent Hrow Hrule)) as (x' & y' & Hx' & Hy' & ->).
  assert (x = x') as <-.
  { eapply (operand_steady row child parent (rr_nodes rule) Hn delegated_typed o); [|done|done|done]. left. rewrite Hnodes. left. }
  rewrite negb_true_iff, negb_false_iff. split.
  - intros [Hno Hyes]. destruct (operand_fewer row child parent Hn f y y' Hy Hy') as [<-|(l & k & -> & -> & _)]; [congruence|].
    exists x, l, k. rewrite <- !Hmem, Hno, Hyes. done.
  - intros (z & l & k & Hz & Hl & Hk & Hin & Hout). simplify_eq. rewrite <- Hmem in Hin, Hout.
    split; [by apply not_true_iff_false|done].
Qed.
End delegated.

(** C17. Narrower facts show no more rows.  For one principal under two
    capabilities, where the facts of the first narrow those of the second (facts
    dropped, or members of a list dropped), and a policy of the checked catalogue
    whose read rule reads list-valued facts only as the list of a membership test
    outside negations: every row that is visible with the narrower facts is
    visible with the wider ones. *)
Theorem narrowed_facts_show_no_more sha256 bundle facts policies cat child parent selected entity sel row related :
  governed bundle child facts policies cat -> governed bundle parent facts policies cat -> narrowed child parent ->
  selected !! entity = Some sel -> ep_policy sel ∈ bu_row_policies bundle -> rw_entity (ep_policy sel) = entity ->
  row_ok bundle entity row ->
  (forall rule, find_rule (ep_policy sel) Op_Read = Some rule -> monotone_rule rule = true) ->
  allows sha256 (mkQueryContext child selected) entity row (observed related (ep_policy sel) Op_Read child [row]) = true ->
  allows sha256 (mkQueryContext parent selected) entity row (observed related (ep_policy sel) Op_Read parent [row]) = true.
Proof.
  intros Hc Hp Hn Hsel Hpol Hent Hrow Hmono Hshow.
  destruct (find_rule (ep_policy sel) Op_Read) as [rule|] eqn:Hr.
  - by apply (narrowed_shows sha256 bundle facts policies cat child parent selected entity sel row related rule
      Hc Hp Hn Hsel Hpol Hent Hrow Hr true (Hmono rule eq_refl)).
  - apply (allows_exact sha256 bundle child facts policies cat selected entity sel row related) in Hshow as (rule & Hr' & _); try done.
    congruence.
Qed.

(** ** Delegation at the help desk *)
Definition narrow_facts : CapabilityPrincipalFactsV1 := team_facts ["ops"].
Definition wide_facts : CapabilityPrincipalFactsV1 := team_facts ["ops"; "dev"].

Lemma team_facts_wf l :
  value_wf (VList (map (fun s => VString (list_byte_of_string s)) l)) -> Forall fact_wf (ps_facts (team_facts l)).
Proof.
  intros Hwf. unfold team_facts. destruct (build_facts _) as [fs|] eqn:E; [|constructor].
  apply build_facts_wf in E as [H _]; [done|]. by repeat constructor.
Qed.

Lemma help_narrowed : narrowed (ada_with narrow_facts) (ada_with wide_facts).
Proof.
  constructor; [reflexivity|reflexivity|apply team_facts_wf|apply team_facts_wf|vm_compute; reflexivity];
    first [repeat constructor|vm_compute; reflexivity].
Defined.

Definition ops_ticket : CanonicalRecord := ticket (replicate 16 x09) "ops".

Definition help_entity : AuthorizedEntityPolicyV1 := default (mkEntityPolicy ticket_policy ∅ []) (help_selected !! 1).

Lemma narrowed_facts_show_no_more_witness :
  allows no_hash (mkQueryContext (ada_with wide_facts) help_selected) 1 ops_ticket
    (observed everyone (ep_policy help_entity) Op_Read (ada_with wide_facts) [ops_ticket]) = true.
Proof.
  apply (narrowed_facts_show_no_more no_hash help_bundle help_facts [ticket_policy] help_catalog (ada_with narrow_facts)
           (ada_with wide_facts) help_selected 1 help_entity ops_ticket everyone);
    [constructor; vm_compute; reflexivity|exact help_governed|exact help_narrowed|vm_compute; reflexivity|left|vm_compute; reflexivity
    |apply ticket_ok; vm_compute; reflexivity| |vm_compute; reflexivity].
  intros rule E. vm_compute in E. injection E as <-. vm_compute. reflexivity.
Defined.

(** ** A membership test under a negation *)
Definition quiet_rule : RowPolicyRuleV1 :=
  mkRule Op_Read [R_Operand team; R_Operand principal_teams; R_In 0 1; R_Not 2] 3.
Definition quiet_policy : RowPolicyPlanV1 := mkPolicy (list_byte_of_string "Quiet") 1 [quiet_rule].
Definition quiet_selected : gmap Z AuthorizedEntityPolicyV1 := {[ 1 := mkEntityPolicy quiet_policy ∅ [1; 2] ]}.

Definition quiet_bundle : ContractBundle := mkBundle (text "help") 1 [quiet_policy] help_schema.
Definition quiet_catalog : RowPolicyCatalogV1 := checked_catalog help_facts [quiet_policy].

(** C39. Under a negation, narrower facts show more rows.  For one principal under
    two capabilities, where the facts of the first narrow those of the second, and
    a policy of the checked catalogue whose read rule reads list-valued facts only
    as the list of a membership test under an odd number of negations: every row
    that is visible with the wider facts is visible with the narrower ones.  When
    the rule asks that a field of the row is not a member of a fact, the rows that
    the narrower facts add are exactly those whose field is a dropped member. *)
Theorem negated_facts_show_no_less sha256 bundle facts policies cat child parent selected entity sel row related rule :
  governed bundle child facts policies cat -> governed bundle parent facts policies cat -> narrowed child parent ->
  selected !! entity = Some sel -> ep_policy sel ∈ bu_row_policies bundle -> rw_entity (ep_policy sel) = entity ->
  row_ok bundle entity row -> find_rule (ep_policy sel) Op_Read = Some rule ->
  monotone (rr_nodes rule) (S (rr_root rule)) false (rr_root rule) = true ->
  let shows p := allows sha256 (mkQueryContext p selected) entity row (observed related (ep_policy sel) Op_Read p [row]) in
  (shows parent = true -> shows child = true) /\
  (forall o f, rr_nodes rule = [R_Operand o; R_Operand f; R_In 0 1; R_Not 2] -> rr_root rule = 3%nat ->
    (shows child = true /\ shows parent = false) <->
    exists x l k, operand_value row parent o = Some x /\ operand_value row child f = Some (VList l) /\
      operand_value row parent f = Some (VList k) /\ x ∈ k /\ x ∉ l).
Proof.
  intros Hc Hp Hn Hsel Hpol Hent Hrow Hr Hm shows. split.
  - exact (narrowed_shows sha256 bundle facts policies cat child parent selected entity sel row related rule
      Hc Hp Hn Hsel Hpol Hent Hrow Hr false Hm).
  - intros o f Hnodes Hroot. apply (negated_membership_gains sha256 bundle facts policies cat child parent selected entity sel row related rule); try done.
    rewrite Hnodes, Hroot in Hm. cbn in Hm. by apply andb_true_iff in Hm as [? _].
Qed.

(** The delegated grant without the team "dev" shows the tickets of that team. *)
Lemma negated_facts_show_no_less_witness :
  allows no_hash (mkQueryContext (ada_with narrow_facts) quiet_selected) 1 (ticket ada "dev")
    (observed everyone quiet_policy Op_Read (ada_with narrow_facts) [ticket ada "dev"]) = true /\
  allows no_hash (mkQueryContext (ada_with wide_facts) quiet_selected) 1 (ticket ada "dev")
    (observed everyone quiet_policy Op_Read (ada_with wide_facts) [ticket ada "dev"]) = false.
Proof.
  apply (negated_facts_show_no_less no_hash quiet_bundle help_facts [quiet_policy] quiet_catalog (ada_with narrow_facts)
           (ada_with wide_facts) quiet_selected 1 (mkEntityPolicy quiet_policy ∅ [1; 2]) (ticket ada "dev") everyone quiet_rule)
    with (o := team) (f := principal_teams);
    [constructor; vm_compute; reflexivity|constructor; vm_compute; reflexivity|exact help_narrowed|vm_compute; reflexivity|left
    |vm_compute; reflexivity|apply ticket_ok; vm_compute; reflexivity|vm_compute; reflexivity|vm_compute; reflexivity
    |reflexivity|reflexivity|].
  exists (VString (text "dev")), [VString (text "ops")], [VString (text "dev"); VString (text "ops")].
  split_and!; [vm_compute; reflexivity..|left|]. intros [E|[]%not_elem_of_nil]%elem_of_cons. discriminate E.
Defined.

(** The grants of that delegation pass the checks. *)
Lemma quiet_delegation_accepted :
  catalog_new help_facts [quiet_policy] help_schema = Ok quiet_catalog /\
  grant_is_narrowing_of (mkGrant (replicate 32 x02) narrow_facts (cg_bindings help_grant))
    (mkGrant (replicate 32 x02) wide_facts (cg_bindings help_grant)) = true.
Proof. split; vm_compute; reflexivity. Qed.

(** ** Bindings of two lineages *)

(** Selection, whatever the lineages: the policy is that of the lineage's own
    binding, the operations are those of the first binding of the entity. *)
Lemma selection_first principal grant lineage version bundle context entity operation :
  resolve_authorized_command_row_policy_context (Some (principal, grant)) lineage version bundle = Ok (Some context) ->
  cx_principal context = principal /\
  (forall sel, selection context entity operation = Ok sel ->
     cx_policies context !! entity = Some sel /\
     exists own first, own ∈ cg_bindings grant /\ cb_lineage own = bu_lineage bundle /\ cb_entity_type own = entity /\
       bound_policy bundle own entity = Some (ep_policy sel) /\
       first_with (fun b => cb_entity_type b = entity) (cg_bindings grant) first /\
       capability_operation operation ∈ cb_operations first) /\
  (forall own first policy, own ∈ cg_bindings grant -> cb_lineage own = bu_lineage bundle -> cb_entity_type own = entity ->
     bound_policy bundle own entity = Some policy -> first_with (fun b => cb_entity_type b = entity) (cg_bindings grant) first ->
     capability_operation operation ∈ cb_operations first ->
     exists sel, selection context entity operation = Ok sel /\ ep_policy sel = policy).
Proof.
  intros H. unfold resolve_authorized_command_row_policy_context in H. destruct (_ || _); [done|].
  apply result_bind_ok in H as (ps & Hps & [= <-]). apply resolve_command_ok in Hps as (_ & _ & Hall & Hfrom).
  assert (forall b, find (fun b => cb_entity_type b =? entity) (cg_bindings grant) = Some b <->
    first_with (fun b => cb_entity_type b = entity) (cg_bindings grant) b) as Hfirst
    by (intros b; apply find_first; intros c; apply Z.eqb_eq).
  unfold selection. cbn [cx_principal cx_grant cx_policies]. split_and!; [done| |].
  - intros sel (sel' & Hsel%ok_or_ok & (first & Hf%ok_or_ok%Hfirst & H)%result_bind_ok)%result_bind_ok.
    case_bool_decide as Hop; [|done]. injection H as ->. split; [done|].
    destruct (Hfrom entity ltac:(by eexists)) as [[? E]|(own & -> & [Hl Ho]%list_elem_of_filter)%list_elem_of_fmap];
      [by rewrite lookup_empty in E|].
    destruct (Hall own) as (_ & sel' & Hsel' & Hb); [by apply list_elem_of_filter|].
    assert (sel' = sel) as -> by congruence. by exists own, first.
  - intros own first policy Ho Hl <- Hb Hf%Hfirst Hop.
    destruct (Hall own) as (_ & sel & Hsel & Hb'); [by apply list_elem_of_filter|].
    exists sel. rewrite Hsel. cbn [ok_or mbind result_bind]. rewrite Hf. cbn [ok_or mbind result_bind].
    rewrite bool_decide_eq_true_2 by done. split; [done|congruence].
Qed.

Definition help_binding : CapabilityRowPolicyBindingV1 :=
  mkBinding (list_byte_of_string "help") (list_byte_of_string "Desk") 1 [Cap_Read].
Definition aide_binding : CapabilityRowPolicyBindingV1 :=
  mkBinding (list_byte_of_string "aide") (list_byte_of_string "Other") 1 [Cap_Update].
Definition two_lineages : list CapabilityRowPolicyBindingV1 := [help_binding; aide_binding].

Definition mixed_grant : CapabilityRowPolicyGrantV1 :=
  match grant_new (replicate 32 x02) wide_facts two_lineages with Ok grant => grant | Err _ => mkGrant [] wide_facts [] end.

Definition mixed_context : AuthorizedCommandRowPolicyContextV1 :=
  match resolve_authorized_command_row_policy_context (Some (ada_principal, mixed_grant)) (list_byte_of_string "help") 1 help_bundle with
  | Ok (Some context) => context
  | _ => mkCommandContext ada_principal mixed_grant ∅
  end.

(** C38. The operations of a command are those of the first binding of the entity,
    of whatever lineage.  In the context that resolves for a command, with any
    grant, a read, creation, update or deletion is allowed, given what the lookups
    of the policy's probes find, exactly when a binding of the contract's lineage
    names a policy of the bundle for the entity, the first binding of the grant
    with that entity number (no lineage is asked of it) lists the operation, the
    rows that the operation needs are present, and the meaning of the rule for
    that operation accepts every one of them. *)
Theorem operations_of_first_binding sha256 bundle principal facts policies cat grant lineage version context entity operation
    current successor related :
  governed bundle principal facts policies cat ->
  resolve_authorized_command_row_policy_context (Some (principal, grant)) lineage version bundle = Ok (Some context) ->
  (forall row, current = Some row \/ successor = Some row -> row_ok bundle entity row) ->
  allows_transition sha256 context entity operation current successor
    (transition_evidence related context entity operation current successor) = true <->
  exists own first policy rule rows,
    own ∈ cg_bindings grant /\ cb_lineage own = bu_lineage bundle /\ cb_entity_type own = entity /\
    bound_policy bundle own entity = Some policy /\
    first_with (fun b => cb_entity_type b = entity) (cg_bindings grant) first /\
    capability_operation operation ∈ cb_operations first /\
    find_rule policy operation = Some rule /\ required_rows operation current successor = Some rows /\
    forall row, row ∈ rows -> rule_meaning row principal related rule = Some true.
Proof.
  intros Hg Hctx Hrow.
  destruct (selection_first principal grant lineage version bundle context entity operation Hctx) as (Hpr & Hfwd & Hbwd).
  destruct (selection context entity operation) as [sel|e] eqn:Es.
  - destruct (Hfwd sel eq_refl) as (Hlook & own & first & Ho & Hl & He & Hb & Hf & Hop).
    destruct (bound_policy_In _ _ _ _ Hb) as (Hpol & _ & Hent).
    rewrite (selected_transition sha256 bundle principal facts policies cat context entity operation sel) by done. split.
    + intros (rule & rows & H). by exists own, first, (ep_policy sel), rule, rows.
    + intros (own' & first' & p & rule & rows & Ho' & Hl' & He' & Hb' & Hf' & Hop' & H). exists rule, rows.
      destruct (Hbwd own' first' p Ho' Hl' He' Hb' Hf' Hop') as (s & [= <-] & ->). done.
  - unfold allows_transition. rewrite Es. split; [done|].
    intros (own & first & p & rule & rows & Ho & Hl & He & Hb & Hf & Hop & _).
    destruct (Hbwd own first p Ho Hl He Hb Hf Hop) as (s & Hs & _). congruence.
Qed.

(** The binding of "aide" comes first and lets the principal update tickets, which
    the binding of "help" does not. *)
Lemma operations_of_first_binding_witness :
  grant_new (replicate 32 x02) wide_facts two_lineages = Ok mixed_grant /\
  allows_transition no_hash mixed_context 1 Op_Update (Some (ticket ada "hr")) (Some (ticket ada "ops"))
    (transition_evidence everyone mixed_context 1 Op_Update (Some (ticket ada "hr")) (Some (ticket ada "ops"))) = true /\
  ~ exists policy, operation_bound mixed_grant help_bundle 1 Op_Update policy.
Proof.
  split; [vm_compute; reflexivity|]. split.
  - apply (operations_of_first_binding no_hash help_bundle ada_principal help_facts [ticket_policy] help_catalog mixed_grant
             (list_byte_of_string "help") 1 mixed_context 1 Op_Update);
      [exact help_governed|vm_compute; reflexivity|intros row [E|E]; injection E as <-; apply ticket_ok; vm_compute; reflexivity|].
    eexists help_binding, aide_binding, ticket_policy, _, _.
    split_and!; [right; left|reflexivity|reflexivity|vm_compute; reflexivity|exists [], [help_binding]; split_and!; [vm_compute; reflexivity|reflexivity|constructor]
      |left|vm_compute; reflexivity|vm_compute; reflexivity|].
    intros row. rewrite !elem_of_cons, elem_of_nil. intros [->|[->|[]]]; vm_compute; reflexivity.
  - intros (policy & b & Hb & Hl & _ & Hop & _).
    assert (forallb (fun b => negb (bool_decide (cb_lineage b = bu_lineage help_bundle)) ||
                              negb (bool_decide (Cap_Update ∈ cb_operations b))) (cg_bindings mixed_grant) = true) as H
      by (vm_compute; reflexivity).
    pose proof (forallb_In _ _ _ H Hb) as Hb'. cbv beta in Hb'. rewrite !bool_decide_eq_true_2 in Hb' by done. done.
Defined.

(** ** Comparisons of computed values *)
Definition both_rule : RowPolicyRuleV1 :=
  mkRule Op_Read [R_Operand owner; R_Operand principal_id; R_Equal 0 1; R_Operand team; R_Operand principal_teams; R_In 3 4; R_Equal 2 5] 6.
Definition both_policy : RowPolicyPlanV1 := mkPolicy (list_byte_of_string "Both") 1 [both_rule].

(** A checked rule that always denies.  The catalogue accepts a rule that
    compares two conditions with each other, as it compares any two Boolean
    values; the evaluator has no value to compare for a condition, so the rule
    denies every row to every principal, whatever the evidence. *)
Theorem computed_comparison_denied :
  catalog_new help_facts [both_policy] help_schema = Ok (checked_catalog help_facts [both_policy]) /\
  ca_policies (checked_catalog help_facts [both_policy]) = [both_policy] /\
  forall sha256 row principal relationships,
    is_allowed (evaluate_row_policy sha256 both_policy Op_Read row principal relationships) = false.
Proof.
  split_and!; [vm_compute; reflexivity..|]. intros sha256 row principal relationships.
  destruct (evaluate_row_policy _ _ _ _ _ _) as [proof|] eqn:E; [exfalso|done].
  unfold evaluate_row_policy in E. apply transition_allowed in E as (rule & rows & Hr & Hrows & Hall & _).
  injection Hrows as <-. specialize (Hall row ltac:(left)). vm_compute in Hr. injection Hr as <-.
  unfold evaluate_rule in Hall. apply result_bind_ok in Hall as (values & Hv & _). cbn [rr_nodes evaluate_nodes] in Hv.
  repeat (apply result_bind_ok in Hv as (? & ? & Hv)). cbn [app evaluate_node] in *.
  repeat match goal with
  | H : _ ≫= _ = Ok ?x |- _ => apply result_bind_ok in H as (? & ? & H); try (injection H as <-)
  end.
  match goal with H : canonical_node (_ :: _ :: Computed _ :: _) 2 = Ok _ |- _ => discriminate H end.
Qed.
