(* ===== verification/ReactiveSyntax.v ===== *)
(** * Reactive modules: syntax tree and canonical text

    [riffdb-reactive-syntax]: the diagnostics of [diagnostic.rs], the syntax tree
    of [syntax.rs] with its spans, and the canonical formatter of
    [formatter.rs], whose output is a string given as its bytes. *)

From S2P Require Import Prelude Value Names Text.
From Stdlib Require Import Strings.String Strings.Byte.
From stdpp Require Import gmap list.

Local Open Scope Z_scope.

Abbreviation MAX_REACTIVE_SOURCE_BYTES := 1048576.
Abbreviation MAX_REACTIVE_TOKENS := 131072.
Abbreviation MAX_REACTIVE_DEFINITIONS := 1024.
Abbreviation MAX_REACTIVE_PARAMETERS := 256.
Abbreviation MAX_STREAM_EVENT_TYPES := 32.
Abbreviation MAX_STREAM_SELECTED_FIELDS := 256.
Abbreviation MAX_PREDICATE_NODES := 4096.
Abbreviation MAX_SUBSCRIPTION_HYDRATIONS := 16.
Abbreviation MAX_SUBSCRIPTION_REACTIONS := 32.
Abbreviation MAX_REACTIVE_NESTING := 32.

(** ** Diagnostics *)
Record Span := mkSpan { sp_start : Z; sp_end : Z }.

Inductive DiagnosticCode :=
  | LimitExceeded
  | InvalidCharacter
  | UnexpectedToken
  | UnsupportedVersion
  | DuplicateName
  | InvalidLiteral
  | UnsupportedForm.

Record Diagnostic := mkDiagnostic { dg_code : DiagnosticCode; dg_span : Span }.

(** ** The syntax tree *)
Record ParameterDecl := mkParameter {
  pa_name : list byte;
  pa_type_name : list byte;
  pa_span : Span;
}.

Record PartitionBinding := mkPartitionBinding {
  pb_field : list byte;
  pb_parameter : list byte;
  pb_span : Span;
}.

Record EventSelection := mkEventSelection {
  es_event : list byte;
  es_fields : list (list byte);
  es_span : Span;
}.

Inductive Literal :=
  | LInteger (value : Z)
  | LBoolean (value : bool)
  | LString (value : list byte)
  | LSymbol (value : list byte).

Inductive Operand :=
  | EventField (field : list byte) (span : Span)
  | ParameterRef (name : list byte) (span : Span)
  | OLiteral (literal : Literal) (span : Span).

Definition operand_span (o : Operand) : Span :=
  match o with EventField _ span | ParameterRef _ span | OLiteral _ span => span end.

Inductive BinaryOperator :=
  | Equal | NotEqual | Less | LessEqual | Greater | GreaterEqual | And | Or.

Inductive Expression :=
  | EOperand (operand : Operand)
  | Binary (lhs : Expression) (operator : BinaryOperator) (rhs : Expression) (span : Span).

Definition expression_span (e : Expression) : Span :=
  match e with EOperand o => operand_span o | Binary _ _ _ span => span end.

Record Stream := mkStream {
  sm_name : list byte;
  sm_parameters : list ParameterDecl;
  sm_partition : list PartitionBinding;
  sm_events : list EventSelection;
  sm_predicate : option Expression;
  sm_span : Span;
}.

Inductive UpdateMode := Patch | Reset_.

Record Watch := mkWatch {
  wa_name : list byte;
  wa_parameters : list ParameterDecl;
  wa_query : list byte;
  wa_update_mode : UpdateMode;
  wa_span : Span;
}.

Record Argument := mkArgument {
  ag_name : list byte;
  ag_value : Operand;
  ag_span : Span;
}.

Record StreamBinding := mkStreamBinding {
  sb_stream : list byte;
  sb_arguments : list Argument;
  sb_span : Span;
}.

Record Hydration := mkHydration {
  hy_name : list byte;
  hy_query : list byte;
  hy_arguments : list Argument;
  hy_span : Span;
}.

Record Reaction := mkReaction {
  re_name : list byte;
  re_command : list byte;
  re_span : Span;
}.

Record Limits := mkLimits {
  li_batch : Z;
  li_in_flight : Z;
  li_lease_seconds : Z;
  li_span : Span;
}.

Record Subscription := mkSubscription {
  su_name : list byte;
  su_parameters : list ParameterDecl;
  su_stream : StreamBinding;
  su_hydrations : list Hydration;
  su_reactions : list Reaction;
  su_limits : Limits;
  su_span : Span;
}.

Record ReactiveModule := mkModule {
  md_name : list byte;
  md_version : Z;
  md_streams : list Stream;
  md_watches : list Watch;
  md_subscriptions : list Subscription;
  md_span : Span;
}.

(** ** The formatter *)
Abbreviation text s := (list_byte_of_string s%string).

(** Items separated by a comma and a space. *)
Fixpoint comma_separated {A} (item : A -> list byte) (l : list A) : list byte :=
  match l with
  | [] => []
  | [x] => item x
  | x :: l' => item x ++ text ", " ++ comma_separated item l'
  end.

Definition format_parameters (values : list ParameterDecl) : list byte :=
  text "(" ++
  comma_separated (fun v => text "$" ++ pa_name v ++ text ": " ++ pa_type_name v) values ++
  text ")".

(** A character of a string literal. *)
Definition escape_char (c : list byte) : list byte :=
  match c with
  | [x22] => ["\"%byte; x22]
  | ["\"%byte] => ["\"%byte; "\"%byte]
  | [x0a] => ["\"%byte; "n"%byte]
  | [x0d] => ["\"%byte; "r"%byte]
  | [x09] => ["\"%byte; "t"%byte]
  | _ => c
  end.

Definition format_operand (value : Operand) : list byte :=
  match value with
  | EventField value _ => text "event." ++ value
  | ParameterRef value _ => text "$" ++ value
  | OLiteral (LInteger value) _ => show_int value
  | OLiteral (LBoolean value) _ => if value then text "true" else text "false"
  | OLiteral (LString value) _ => [x22] ++ concat (map escape_char (chars value)) ++ [x22]
  | OLiteral (LSymbol value) _ => value
  end.

Definition format_arguments (values : list Argument) : list byte :=
  text "(" ++
  comma_separated (fun v => ag_name v ++ text " = " ++ format_operand (ag_value v)) values ++
  text ")".

Definition operator_text (value : BinaryOperator) : list byte :=
  match value with
  | Equal => text "=="
  | NotEqual => text "!="
  | Less => text "<"
  | LessEqual => text "<="
  | Greater => text ">"
  | GreaterEqual => text ">="
  | And => text "&&"
  | Or => text "||"
  end.

Definition precedence (operator : BinaryOperator) : Z :=
  match operator with Or => 1 | And => 2 | _ => 3 end.

Fixpoint format_expression (value : Expression) (parent_precedence : Z) : list byte :=
  match value with
  | EOperand value => format_operand value
  | Binary lhs operator rhs _ =>
      let parenthesized := precedence operator <? parent_precedence in
      (if parenthesized then text "(" else []) ++
      format_expression lhs (precedence operator) ++
      text " " ++ operator_text operator ++ text " " ++
      format_expression rhs (precedence operator + 1) ++
      (if parenthesized then text ")" else [])
  end.

(** A line break. *)
Definition newline : list byte := [x0a].

Definition format_event (event : EventSelection) : list byte :=
  text "    event " ++ es_event event ++ text " select (" ++
  comma_separated (fun field => field) (es_fields event) ++ text ");" ++ newline.

Definition format_predicate (predicate : option Expression) : list byte :=
  match predicate with
  | Some predicate => text "    where " ++ format_expression predicate 0 ++ text ";" ++ newline
  | None => []
  end.

Definition format_stream (stream : Stream) : list byte :=
  text "  stream " ++ sm_name stream ++ format_parameters (sm_parameters stream) ++
  text " {" ++ newline ++
  text "    partition (" ++
  comma_separated (fun b => pb_field b ++ text " = $" ++ pb_parameter b) (sm_partition stream) ++
  text ");" ++ newline ++
  concat (map format_event (sm_events stream)) ++
  format_predicate (sm_predicate stream) ++
  text "  }" ++ newline.

Definition format_watch (watch : Watch) : list byte :=
  text "  watch " ++ wa_name watch ++ format_parameters (wa_parameters watch) ++
  text " query " ++ wa_query watch ++ text " updates " ++
  (match wa_update_mode watch with Patch => text "patch" | Reset_ => text "reset" end) ++
  text ";" ++ newline.

Definition format_hydration (hydration : Hydration) : list byte :=
  text "    hydrate " ++ hy_name hydration ++ text " query " ++ hy_query hydration ++
  format_arguments (hy_arguments hydration) ++ text ";" ++ newline.

Definition format_reaction (reaction : Reaction) : list byte :=
  text "    reaction " ++ re_name reaction ++ text " command " ++ re_command reaction ++
  text ";" ++ newline.

Definition format_limits (limits : Limits) : list byte :=
  text "    limits {" ++ newline ++
  text "      batch " ++ show_int (li_batch limits) ++ text ";" ++ newline ++
  text "      in_flight " ++ show_int (li_in_flight limits) ++ text ";" ++ newline ++
  text "      lease_seconds " ++ show_int (li_lease_seconds limits) ++ text ";" ++ newline ++
  text "    }" ++ newline.

Definition format_subscription (subscription : Subscription) : list byte :=
  text "  subscription " ++ su_name subscription ++
  format_parameters (su_parameters subscription) ++
  text " {" ++ newline ++
  text "    stream " ++ sb_stream (su_stream subscription) ++
  format_arguments (sb_arguments (su_stream subscription)) ++ text ";" ++ newline ++
  concat (map format_hydration (su_hydrations subscription)) ++
  concat (map format_reaction (su_reactions subscription)) ++
  format_limits (su_limits subscription) ++
  text "  }" ++ newline.

Definition format_module (m : ReactiveModule) : list byte :=
  text "reactive " ++ md_name m ++ text " version " ++ show_int (md_version m) ++
  text " {" ++ newline ++
  concat (map format_stream (md_streams m)) ++
  concat (map format_watch (md_watches m)) ++
  concat (map format_subscription (md_subscriptions m)) ++
  text "}" ++ newline.

(** ** Trees up to spans *)
Definition no_span : Span := mkSpan 0 0.

Definition erase_parameter (p : ParameterDecl) := mkParameter (pa_name p) (pa_type_name p) no_span.
Definition erase_partition (b : PartitionBinding) := mkPartitionBinding (pb_field b) (pb_parameter b) no_span.
Definition erase_event (e : EventSelection) := mkEventSelection (es_event e) (es_fields e) no_span.
Definition erase_operand (o : Operand) : Operand :=
  match o with
  | EventField f _ => EventField f no_span
  | ParameterRef p _ => ParameterRef p no_span
  | OLiteral l _ => OLiteral l no_span
  end.
Fixpoint erase_expression (e : Expression) : Expression :=
  match e with
  | EOperand o => EOperand (erase_operand o)
  | Binary l op r _ => Binary (erase_expression l) op (erase_expression r) no_span
  end.
Definition erase_argument (a : Argument) := mkArgument (ag_name a) (erase_operand (ag_value a)) no_span.
Definition erase_stream (s : Stream) :=
  mkStream (sm_name s) (map erase_parameter (sm_parameters s)) (map erase_partition (sm_partition s))
    (map erase_event (sm_events s)) (erase_expression <$> sm_predicate s) no_span.
Definition erase_watch (w : Watch) :=
  mkWatch (wa_name w) (map erase_parameter (wa_parameters w)) (wa_query w) (wa_update_mode w) no_span.
Definition erase_binding (b : StreamBinding) :=
  mkStreamBinding (sb_stream b) (map erase_argument (sb_arguments b)) no_span.
Definition erase_hydration (h : Hydration) :=
  mkHydration (hy_name h) (hy_query h) (map erase_argument (hy_arguments h)) no_span.
Definition erase_reaction (r : Reaction) := mkReaction (re_name r) (re_command r) no_span.
Definition erase_limits (l : Limits) :=
  mkLimits (li_batch l) (li_in_flight l) (li_lease_seconds l) no_span.
Definition erase_subscription (s : Subscription) :=
  mkSubscription (su_name s) (map erase_parameter (su_parameters s)) (erase_binding (su_stream s))
    (map erase_hydration (su_hydrations s)) (map erase_reaction (su_reactions s))
    (erase_limits (su_limits s)) no_span.
Definition erase_module (m : ReactiveModule) :=
  mkModule (md_name m) (md_version m) (map erase_stream (md_streams m)) (map erase_watch (md_watches m))
    (map erase_subscription (md_subscriptions m)) no_span.

(** ** Well-formed trees

    What every parsed module satisfies: its names can be written, and every
    bound of the grammar holds. *)
Definition is_identifier_byte (b : byte) : bool := is_ascii_alphanumeric b || bool_decide (b = "_"%byte).
Definition is_identifier_start (b : byte) : bool := is_ascii_alphabetic b || bool_decide (b = "_"%byte).

Definition identifier_ok (w : list byte) : bool :=
  match w with b :: _ => is_identifier_start b && forallb is_identifier_byte w | [] => false end.
Definition parameter_ok (w : list byte) : bool :=
  negb (bool_decide (w = [])) && forallb is_identifier_byte w.

(** The components of a dotted name. *)
Fixpoint split_dots (current l : list byte) : list (list byte) :=
  match l with
  | [] => [current]
  | "."%byte :: l' => current :: split_dots [] l'
  | b :: l' => split_dots (current ++ [b]) l'
  end.
Definition components (w : list byte) : list (list byte) := split_dots [] w.

Definition qualified_ok (w : list byte) : bool := forallb identifier_ok (components w).
Definition symbol_ok (w : list byte) : bool :=
  match components w with
  | [first; second] =>
      identifier_ok first && identifier_ok second &&
      negb (bool_decide (first ∈ [text "event"; text "true"; text "false"]))
  | _ => false
  end.

Definition is_literal_byte (b : byte) : bool :=
  negb (is_ascii_control b) || bool_decide (b ∈ [x0a; x0d; x09]).
Definition string_ok (s : list byte) : bool :=
  utf8_valid s && forallb is_literal_byte s && (zlen s <=? 65535).

Definition operand_ok (o : Operand) : bool :=
  match o with
  | EventField f _ => identifier_ok f
  | ParameterRef p _ => parameter_ok p
  | OLiteral (LInteger z) _ => i_inb 64 z
  | OLiteral (LBoolean _) _ => true
  | OLiteral (LString s) _ => string_ok s
  | OLiteral (LSymbol w) _ => symbol_ok w
  end.

Definition is_comparison (op : BinaryOperator) : bool :=
  match op with And | Or => false | _ => true end.

(** Comparisons are between operands, connectives between conditions. *)
Fixpoint condition_ok (e : Expression) : bool :=
  match e with
  | EOperand _ => false
  | Binary l op r _ =>
      if is_comparison op then
        match l, r with EOperand a, EOperand b => operand_ok a && operand_ok b | _, _ => false end
      else condition_ok l && condition_ok r
  end.

Fixpoint nodes (e : Expression) : Z :=
  match e with EOperand _ => 1 | Binary l _ r _ => nodes l + nodes r + 1 end.

(** The depth of the parentheses that the formatter writes. *)
Fixpoint paren_depth (e : Expression) (parent : Z) : Z :=
  match e with
  | EOperand _ => 0
  | Binary l op r _ =>
      (if precedence op <? parent then 1 else 0) +
      Z.max (paren_depth l (precedence op)) (paren_depth r (precedence op + 1))
  end.

Definition predicate_ok (e : Expression) : bool :=
  condition_ok e && (nodes e <=? MAX_PREDICATE_NODES) && (paren_depth e 0 <=? MAX_REACTIVE_NESTING).

Definition distinct (l : list (list byte)) : bool := bool_decide (NoDup l).

Definition parameters_ok (l : list ParameterDecl) : bool :=
  forallb (fun p => parameter_ok (pa_name p) && qualified_ok (pa_type_name p)) l &&
  distinct (map pa_name l) && (zlen l <=? MAX_REACTIVE_PARAMETERS).
Definition partition_ok (l : list PartitionBinding) : bool :=
  forallb (fun b => identifier_ok (pb_field b) && parameter_ok (pb_parameter b)) l &&
  distinct (map pb_field l) && (0 <? zlen l) && (zlen l <=? MAX_REACTIVE_PARAMETERS).
Definition arguments_ok (l : list Argument) : bool :=
  forallb (fun a => identifier_ok (ag_name a) && operand_ok (ag_value a)) l &&
  distinct (map ag_name l) && (zlen l <=? MAX_REACTIVE_PARAMETERS).
Definition event_ok (e : EventSelection) : bool :=
  identifier_ok (es_event e) && forallb identifier_ok (es_fields e) && distinct (es_fields e) &&
  (0 <? zlen (es_fields e)).

Definition selected_fields (l : list EventSelection) : Z :=
  fold_right (fun e n => zlen (es_fields e) + n) 0 l.

Definition stream_ok (s : Stream) : bool :=
  identifier_ok (sm_name s) && parameters_ok (sm_parameters s) && partition_ok (sm_partition s) &&
  forallb event_ok (sm_events s) && distinct (map es_event (sm_events s)) &&
  (0 <? zlen (sm_events s)) && (zlen (sm_events s) <=? MAX_STREAM_EVENT_TYPES) &&
  (selected_fields (sm_events s) <=? MAX_STREAM_SELECTED_FIELDS) &&
  match sm_predicate s with Some e => predicate_ok e | None => true end.
Definition watch_ok (w : Watch) : bool :=
  identifier_ok (wa_name w) && parameters_ok (wa_parameters w) && identifier_ok (wa_query w).
Definition hydration_ok (h : Hydration) : bool :=
  identifier_ok (hy_name h) && identifier_ok (hy_query h) && arguments_ok (hy_arguments h).
Definition reaction_ok (r : Reaction) : bool :=
  identifier_ok (re_name r) && identifier_ok (re_command r).
Definition limits_ok (l : Limits) : bool :=
  (1 <=? li_batch l) && (li_batch l <=? 8) && (1 <=? li_in_flight l) && (li_in_flight l <=? 8) &&
  (5 <=? li_lease_seconds l) && (li_lease_seconds l <=? 900).
Definition subscription_ok (s : Subscription) : bool :=
  identifier_ok (su_name s) && parameters_ok (su_parameters s) &&
  identifier_ok (sb_stream (su_stream s)) && arguments_ok (sb_arguments (su_stream s)) &&
  forallb hydration_ok (su_hydrations s) && distinct (map hy_name (su_hydrations s)) &&
  (zlen (su_hydrations s) <=? MAX_SUBSCRIPTION_HYDRATIONS) &&
  forallb reaction_ok (su_reactions s) && distinct (map re_name (su_reactions s)) &&
  (zlen (su_reactions s) <=? MAX_SUBSCRIPTION_REACTIONS) && limits_ok (su_limits s).

Definition operation_names (m : ReactiveModule) : list (list byte) :=
  map sm_name (md_streams m) ++ map wa_name (md_watches m) ++ map su_name (md_subscriptions m).

Definition module_ok (m : ReactiveModule) : bool :=
  identifier_ok (md_name m) && (md_version m =? 1) && forallb stream_ok (md_streams m) &&
  forallb watch_ok (md_watches m) && forallb subscription_ok (md_subscriptions m) &&
  distinct (operation_names m) && (zlen (operation_names m) <=? MAX_REACTIVE_DEFINITIONS).
