(* ===== verification/ReactiveParser.v ===== *)
(** * Reactive modules: lexer and parser

    [riffdb-reactive-syntax/src/parser.rs].  The lexer walks the bytes of the
    source with their offsets; the parser is a recursive descent over the
    tokens from the current one on.  An index out of range, a counter that
    would go below zero, and a loop that runs out of fuel are the panic that no
    source reaches. *)

From S2P Require Import Prelude Value Names Text ReactiveSyntax.
From Stdlib Require Import Strings.String Strings.Byte.
From stdpp Require Import gmap list.

Local Open Scope Z_scope.

(** ** Tokens *)
Inductive TokenKind :=
  | TIdentifier (value : list byte)
  | TParameter (value : list byte)
  | TInteger (value : list byte)
  | TString (value : list byte)
  | TLeftBrace | TRightBrace | TLeftParen | TRightParen
  | TComma | TColon | TSemicolon | TDot | TEqual
  | TEqualEqual | TNotEqual | TLess | TLessEqual | TGreater | TGreaterEqual
  | TAnd | TOr | TEnd.

Record Token := mkToken { tk_kind : TokenKind; tk_span : Span }.

#[export] Instance TokenKind_eq_dec : EqDecision TokenKind.
Proof. solve_decision. Defined.

(** ** The lexer *)

(** The tokens of fixed spelling. *)
Definition punctuation (b : byte) (rest : list byte) : option (TokenKind * list byte) :=
  match b, rest with
  | "{"%byte, _ => Some (TLeftBrace, rest)
  | "}"%byte, _ => Some (TRightBrace, rest)
  | "("%byte, _ => Some (TLeftParen, rest)
  | ")"%byte, _ => Some (TRightParen, rest)
  | ","%byte, _ => Some (TComma, rest)
  | ":"%byte, _ => Some (TColon, rest)
  | ";"%byte, _ => Some (TSemicolon, rest)
  | "."%byte, _ => Some (TDot, rest)
  | "="%byte, "="%byte :: rest => Some (TEqualEqual, rest)
  | "="%byte, _ => Some (TEqual, rest)
  | "!"%byte, "="%byte :: rest => Some (TNotEqual, rest)
  | "<"%byte, "="%byte :: rest => Some (TLessEqual, rest)
  | "<"%byte, _ => Some (TLess, rest)
  | ">"%byte, "="%byte :: rest => Some (TGreaterEqual, rest)
  | ">"%byte, _ => Some (TGreater, rest)
  | "&"%byte, "&"%byte :: rest => Some (TAnd, rest)
  | "|"%byte, "|"%byte :: rest => Some (TOr, rest)
  | _, _ => None
  end.

Definition escape (b : byte) : option byte :=
  match b with
  | x22 => Some x22
  | "\"%byte => Some "\"%byte
  | "n"%byte => Some x0a
  | "r"%byte => Some x0d
  | "t"%byte => Some x09
  | _ => None
  end.

(** The loop over a string literal from [offset] on: whether it was closed, the
    value, and where it stopped. *)
Fixpoint string_body (fuel : nat) (start offset : Z) (rest value : list byte) :
    result (list Diagnostic) (bool * list byte * Z * list byte) :=
  match fuel, rest with
  | O, _ | _, [] => Ok (false, value, offset, rest)
  | S fuel, b :: after =>
      match b with
      | x22 => Ok (true, value, offset + 1, after)
      | "\"%byte =>
          match after with
          | [] => Ok (false, value, offset + 1, [])
          | escaped :: after =>
              match escape escaped with
              | Some c => string_body fuel start (offset + 2) after (value ++ [c])
              | None => Err [mkDiagnostic InvalidLiteral (mkSpan start (offset + 2))]
              end
          end
      | _ =>
          if is_ascii_control b
          then Err [mkDiagnostic InvalidLiteral (mkSpan start (offset + 1))]
          else
            match next_char rest with
            | None => Ok (false, value, offset, rest) (* [break]: at the end only *)
            | Some (character, after) =>
                string_body fuel start (offset + zlen character) after (value ++ character)
            end
      end
  end.

(** The token at [start], where [b] is the first byte of [rest]: its kind, where
    it ends, and what follows it. *)
Definition lex_token (start : Z) (b : byte) (after : list byte) :
    result (list Diagnostic) (TokenKind * Z * list byte) :=
  let rest := b :: after in
  match punctuation b after with
  | Some (kind, following) => Ok (kind, start + (zlen rest - zlen following), following)
  | None =>
      match b with
      | "$"%byte =>
          let '(name, following) := span_while is_identifier_byte after in
          if bool_decide (name = [])
          then Err [mkDiagnostic UnexpectedToken (mkSpan start (start + 1))]
          else Ok (TParameter name, start + 1 + zlen name, following)
      | x22 =>
          '(closed, value, offset, following) ←
            string_body (S (length after)) start (start + 1) after [];
          if negb closed || (65535 <? zlen value)
          then Err [mkDiagnostic InvalidLiteral (mkSpan start offset)]
          else Ok (TString value, offset, following)
      | "-"%byte =>
          let '(number, following) := span_while is_ascii_digit after in
          if bool_decide (number = [])
          then Err [mkDiagnostic InvalidCharacter (mkSpan start (start + 1))]
          else Ok (TInteger (b :: number), start + 1 + zlen number, following)
      | _ =>
          if is_ascii_digit b then
            let '(number, following) := span_while is_ascii_digit rest in
            Ok (TInteger number, start + zlen number, following)
          else if is_identifier_start b then
            let '(name, following) := span_while is_identifier_byte rest in
            Ok (TIdentifier name, start + zlen name, following)
          else Err [mkDiagnostic InvalidCharacter (mkSpan start (start + 1))]
      end
  end.

(** The loop of [lex]: a turn consumes a byte at least, so fuel for the bytes
    left does not run out ([lex_loop_fuel]). *)
Fixpoint lex_loop (fuel : nat) (offset : Z) (rest : list byte) (tokens : list Token) :
    result (list Diagnostic) (list Token) :=
  match fuel, rest with
  | O, _ | _, [] => Ok tokens
  | S fuel, b :: after =>
      if MAX_REACTIVE_TOKENS <=? zlen tokens
      then Err [mkDiagnostic LimitExceeded (mkSpan offset offset)]
      else if is_ascii_whitespace b then lex_loop fuel (offset + 1) after tokens
      else if bool_decide (b = "/"%byte) && bool_decide (head after = Some "/"%byte) then
        let '(comment, following) :=
          span_while (fun c => negb (bool_decide (c = x0a))) (drop 1 after) in
        lex_loop fuel (offset + 2 + zlen comment) following tokens
      else
        '(kind, stop, following) ← lex_token offset b after;
        lex_loop fuel stop following (tokens ++ [mkToken kind (mkSpan offset stop)])
  end.

Definition lex (source : list byte) : result (list Diagnostic) (list Token) :=
  tokens ← lex_loop (length source) 0 source [];
  Ok (tokens ++ [mkToken TEnd (mkSpan (zlen source) (zlen source))]).

(** ** The parser *)

(** [tokens[current..]] with the two counters. *)
Record Parser := mkParser {
  ps_tokens : list Token;
  ps_depth : Z;
  ps_predicate_nodes : Z;
}.

Inductive parsed (A : Type) :=
  | Parsed (a : A) (s : Parser)
  | Rejected (d : Diagnostic)
  | Panics.
Arguments Parsed {A} a s.
Arguments Rejected {A} d.
Arguments Panics {A}.

Definition Parse (A : Type) : Type := Parser -> parsed A.

#[export] Instance Parse_ret : MRet Parse := fun A a s => Parsed a s.
#[export] Instance Parse_bind : MBind Parse := fun A B k p s =>
  match p s with Parsed a s' => k a s' | Rejected d => Rejected d | Panics => Panics end.

Definition reject {A} (code : DiagnosticCode) (span : Span) : Parse A :=
  fun _ => Rejected (mkDiagnostic code span).

(** A loop with one turn of fuel more than there are tokens left. *)
Definition with_fuel {A} (p : nat -> Parse A) : Parse A := fun s => p (S (length (ps_tokens s))) s.

Definition peek : Parse Token := fun s =>
  match ps_tokens s with t :: _ => Parsed t s | [] => Panics end.

Definition advance : Parse Token := fun s =>
  match ps_tokens s with
  | [] => Panics
  | t :: rest =>
      Parsed t (if bool_decide (tk_kind t = TEnd) then s
                else mkParser rest (ps_depth s) (ps_predicate_nodes s))
  end.

(** Rejects at the current token. *)
Definition reject_here {A} (code : DiagnosticCode) : Parse A :=
  t ← peek; reject code (tk_span t).

(** The parser asks only for kinds without a payload, whose discriminants are the kinds. *)
Definition check (expected : TokenKind) : Parse bool :=
  t ← peek; mret (bool_decide (tk_kind t = expected)).

Definition take_token (expected : TokenKind) : Parse (option Span) :=
  found ← check expected;
  if (found : bool) then t ← advance; mret (Some (tk_span t)) else mret None.

Definition expect (expected : TokenKind) : Parse Span :=
  found ← take_token expected;
  match found with Some span => mret span | None => reject_here UnexpectedToken end.

Definition peek_word : Parse (option (list byte)) :=
  t ← peek; mret (match tk_kind t with TIdentifier value => Some value | _ => None end).

Definition at_word (word : list byte) : Parse bool :=
  w ← peek_word; mret (bool_decide (w = Some word)).

Definition expect_word (expected : list byte) : Parse Span :=
  token ← advance;
  match tk_kind token with
  | TIdentifier value =>
      if bool_decide (value = expected) then mret (tk_span token)
      else reject UnexpectedToken (tk_span token)
  | _ => reject UnexpectedToken (tk_span token)
  end.

Definition identifier : Parse (list byte * Span) :=
  token ← advance;
  match tk_kind token with
  | TIdentifier value => mret (value, tk_span token)
  | _ => reject UnexpectedToken (tk_span token)
  end.

(** The name of a parameter token. *)
Definition parameter_name : Parse (list byte * Span) :=
  token ← advance;
  match tk_kind token with
  | TParameter value => mret (value, tk_span token)
  | _ => reject UnexpectedToken (tk_span token)
  end.

Fixpoint qualified_loop (fuel : nat) (value : list byte) (stop : Span) : Parse (list byte * Span) :=
  match fuel with
  | O => fun _ => Panics
  | S fuel =>
      dot ← take_token TDot;
      match dot with
      | None => mret (value, stop)
      | Some _ =>
          '(component, component_span) ← identifier;
          qualified_loop fuel (value ++ text "." ++ component) component_span
      end
  end.

Definition qualified_identifier : Parse (list byte * Span) :=
  '(value, start) ← identifier;
  '(value, stop) ← with_fuel (fun fuel => qualified_loop fuel value start);
  mret (value, mkSpan (sp_start start) (sp_end stop)).

Definition positive_u16 : Parse Z :=
  token ← advance;
  match tk_kind token with
  | TInteger value =>
      match from_str_unsigned 16 value with
      | Some n => if 0 <? n then mret n else reject InvalidLiteral (tk_span token)
      | None => reject InvalidLiteral (tk_span token)
      end
  | _ => reject UnexpectedToken (tk_span token)
  end.

Definition operand : Parse Operand :=
  token ← advance;
  let span := tk_span token in
  match tk_kind token with
  | TParameter value => mret (ParameterRef value span)
  | TInteger value =>
      match from_str_signed 64 value with
      | Some n => mret (OLiteral (LInteger n) span)
      | None => reject InvalidLiteral span
      end
  | TString value => mret (OLiteral (LString value) span)
  | TIdentifier first =>
      if bool_decide (first = text "true") then mret (OLiteral (LBoolean true) span)
      else if bool_decide (first = text "false") then mret (OLiteral (LBoolean false) span)
      else
        dot ← take_token TDot;
        match dot with
        | None => reject UnexpectedToken span
        | Some _ =>
            '(second, stop) ← identifier;
            let span := mkSpan (sp_start span) (sp_end stop) in
            if bool_decide (first = text "event") then mret (EventField second span)
            else mret (OLiteral (LSymbol (first ++ text "." ++ second)) span)
        end
  | _ => reject UnexpectedToken span
  end.

(** ** Expressions *)

(** [self.predicate_nodes += 1], with the check that follows it. *)
Definition count_node {A} (exceeded : Parse A) (k : Parse A) : Parse A := fun s =>
  let n := ps_predicate_nodes s + 1 in
  let s := mkParser (ps_tokens s) (ps_depth s) n in
  if MAX_PREDICATE_NODES <? n then exceeded s else k s.

Definition binary (lhs : Expression) (operator : BinaryOperator) (rhs : Expression) : Parse Expression :=
  count_node (reject LimitExceeded (expression_span lhs))
    (mret (Binary lhs operator rhs
             (mkSpan (sp_start (expression_span lhs)) (sp_end (expression_span rhs))))).

Definition expression_operand : Parse Expression :=
  count_node (reject_here LimitExceeded) (o ← operand; mret (EOperand o)).

Definition comparison_operator (k : TokenKind) : option BinaryOperator :=
  match k with
  | TEqualEqual => Some Equal
  | TNotEqual => Some NotEqual
  | TLess => Some Less
  | TLessEqual => Some LessEqual
  | TGreater => Some Greater
  | TGreaterEqual => Some GreaterEqual
  | _ => None
  end.

Definition enter_parenthesis : Parse unit := fun s =>
  let s := mkParser (ps_tokens s) (ps_depth s + 1) (ps_predicate_nodes s) in
  if MAX_REACTIVE_NESTING <? ps_depth s then reject_here LimitExceeded s else Parsed tt s.

Definition leave_parenthesis : Parse unit := fun s =>
  if ps_depth s <=? 0 then Panics
  else Parsed tt (mkParser (ps_tokens s) (ps_depth s - 1) (ps_predicate_nodes s)).

(** [let mut left = part()?; while take(separator) { right = part()?; left = binary(left, op, right)? }] *)
Section left_associative.
Context (separator : TokenKind) (op : BinaryOperator) (part : Parse Expression).

Fixpoint left_loop (fuel : nat) (lhs : Expression) : Parse Expression :=
  match fuel with
  | O => fun _ => Panics
  | S fuel =>
      found ← take_token separator;
      match found with
      | None => mret lhs
      | Some _ =>
          rhs ← part;
          e ← binary lhs op rhs;
          left_loop fuel e
      end
  end.

Definition left_associative : Parse Expression :=
  lhs ← part;
  with_fuel (fun fuel => left_loop fuel lhs).
End left_associative.

Section expressions.
Context (expression : Parse Expression).

Definition comparison : Parse Expression :=
  paren ← take_token TLeftParen;
  match paren with
  | Some _ =>
      _ ← enter_parenthesis;
      value ← expression;
      _ ← expect TRightParen;
      _ ← leave_parenthesis;
      mret value
  | None =>
      lhs ← expression_operand;
      t ← peek;
      match comparison_operator (tk_kind t) with
      | None => reject_here UnexpectedToken
      | Some operator =>
          _ ← advance;
          rhs ← expression_operand;
          binary lhs operator rhs
      end
  end.

Definition and_expression : Parse Expression := left_associative TAnd And comparison.

Definition or_expression : Parse Expression := left_associative TOr Or and_expression.
End expressions.

Fixpoint expression_fuel (fuel : nat) : Parse Expression :=
  match fuel with
  | O => fun _ => Panics
  | S fuel => or_expression (expression_fuel fuel)
  end.

Definition expression : Parse Expression := with_fuel expression_fuel.

(** ** Lists *)

(** Fails when a list has reached its bound, otherwise goes on. *)
Definition bounded {A : Type} (limit count : Z) (k : Parse A) : Parse A :=
  if limit <=? count then reject_here LimitExceeded else k.

(** [if !names.insert(name)] *)
Definition fresh_name {A : Type} (names : gset (list byte)) (name : list byte) (span : Span) (k : Parse A) : Parse A :=
  if bool_decide (name ∈ names) then reject DuplicateName span else k.

(** The loops over items between commas: at most [limit] of them where there is
    a limit, with different names.  An item comes with the span that a
    duplicate of it is reported at. *)
Section commas.
Context {A : Type} (limit : option Z) (item : Parse (A * Span)) (name : A -> list byte).

Fixpoint comma_loop (fuel : nat) (values : list A) (names : gset (list byte)) : Parse (list A) :=
  match fuel with
  | O => fun _ => Panics
  | S fuel =>
      let turn :=
        '(value, span) ← item;
        fresh_name names (name value) span (
          let values := values ++ [value] in
          comma ← take_token TComma;
          match comma with
          | Some _ => comma_loop fuel values ({[name value]} ∪ names)
          | None => mret values
          end) in
      match limit with Some limit => bounded limit (zlen values) turn | None => turn end
  end.

Definition comma_items : Parse (list A) := with_fuel (fun fuel => comma_loop fuel [] ∅).
End commas.

(** A list that may be empty, between parentheses. *)
Definition optional_items {A : Type} (items : Parse (list A)) : Parse (list A) :=
  _ ← expect TLeftParen;
  empty ← check TRightParen;
  values ← (if (empty : bool) then mret [] else items);
  _ ← expect TRightParen;
  mret values.

Definition parameter_item : Parse (ParameterDecl * Span) :=
  '(name, start) ← parameter_name;
  _ ← expect TColon;
  '(type_name, stop) ← qualified_identifier;
  mret (mkParameter name type_name (mkSpan (sp_start start) (sp_end stop)), start).

Definition parameters : Parse (list ParameterDecl) :=
  optional_items (comma_items (Some MAX_REACTIVE_PARAMETERS) parameter_item pa_name).

Definition partition_item : Parse (PartitionBinding * Span) :=
  '(field, start) ← identifier;
  _ ← expect TEqual;
  '(parameter, stop) ← parameter_name;
  mret (mkPartitionBinding field parameter (mkSpan (sp_start start) (sp_end stop)), start).

Definition partition_bindings : Parse (list PartitionBinding) :=
  _ ← expect TLeftParen;
  bindings ← comma_items (Some MAX_REACTIVE_PARAMETERS) partition_item pb_field;
  _ ← expect TRightParen;
  mret bindings.

Definition argument_item : Parse (Argument * Span) :=
  '(name, start) ← identifier;
  _ ← expect TEqual;
  value ← operand;
  let span := mkSpan (sp_start start) (sp_end (operand_span value)) in
  mret (mkArgument name value span, span).

Definition arguments : Parse (list Argument) :=
  optional_items (comma_items (Some MAX_REACTIVE_PARAMETERS) argument_item ag_name).

Definition event_selection : Parse EventSelection :=
  start ← expect_word (text "event");
  '(event, _) ← identifier;
  _ ← expect_word (text "select");
  _ ← expect TLeftParen;
  fields ← comma_items None identifier (fun field => field);
  _ ← expect TRightParen;
  stop ← expect TSemicolon;
  mret (mkEventSelection event fields (mkSpan (sp_start start) (sp_end stop))).

Definition hydration : Parse Hydration :=
  start ← expect_word (text "hydrate");
  '(name, _) ← identifier;
  _ ← expect_word (text "query");
  '(query, _) ← identifier;
  values ← arguments;
  stop ← expect TSemicolon;
  mret (mkHydration name query values (mkSpan (sp_start start) (sp_end stop))).

Definition reaction : Parse Reaction :=
  start ← expect_word (text "reaction");
  '(name, _) ← identifier;
  _ ← expect_word (text "command");
  '(command, _) ← identifier;
  stop ← expect TSemicolon;
  mret (mkReaction name command (mkSpan (sp_start start) (sp_end stop))).

(** ** Definitions *)

(** The loops over the items of a definition that start with [word]: at most
    [limit] of them with different names.  [exceeds values value] is a further
    bound on the items so far. *)
Section keyword.
Context {A : Type} (word : list byte) (limit : Z) (item : Parse A) (name : A -> list byte) (span : A -> Span)
  (exceeds : list A -> A -> bool).

Fixpoint keyword_loop (fuel : nat) (values : list A) (names : gset (list byte)) : Parse (list A) :=
  match fuel with
  | O => fun _ => Panics
  | S fuel =>
      found ← at_word word;
      if negb found then mret values
      else
        bounded limit (zlen values) (
          value ← item;
          if exceeds values value then reject LimitExceeded (span value)
          else
            fresh_name names (name value) (span value)
              (keyword_loop fuel (values ++ [value]) ({[name value]} ∪ names)))
  end.

Definition keyword_items : Parse (list A) := with_fuel (fun fuel => keyword_loop fuel [] ∅).
End keyword.

(** [selected_fields] is the sum over the events so far. *)
Definition events_exceed (events : list EventSelection) (event : EventSelection) : bool :=
  MAX_STREAM_SELECTED_FIELDS <? selected_fields events + zlen (es_fields event).

Definition no_bound {A : Type} (values : list A) (value : A) : bool := false.

Definition reset_predicate_nodes : Parse unit := fun s => Parsed tt (mkParser (ps_tokens s) (ps_depth s) 0).

Definition where_clause : Parse (option Expression) :=
  found ← at_word (text "where");
  if (found : bool) then
    _ ← advance;
    _ ← reset_predicate_nodes;
    value ← expression;
    _ ← expect TSemicolon;
    mret (Some value)
  else mret None.

Definition stream : Parse Stream :=
  start ← expect_word (text "stream");
  '(name, _) ← identifier;
  values ← parameters;
  _ ← expect TLeftBrace;
  _ ← expect_word (text "partition");
  partition ← partition_bindings;
  _ ← expect TSemicolon;
  events ← keyword_items (text "event") MAX_STREAM_EVENT_TYPES event_selection es_event es_span events_exceed;
  if bool_decide (events = []) then reject_here UnexpectedToken
  else
    condition ← where_clause;
    stop ← expect TRightBrace;
    mret (mkStream name values partition events condition (mkSpan (sp_start start) (sp_end stop))).

Definition update_mode : Parse UpdateMode :=
  mode ← advance;
  match tk_kind mode with
  | TIdentifier value =>
      if bool_decide (value = text "patch") then mret Patch
      else if bool_decide (value = text "reset") then mret Reset_
      else reject UnexpectedToken (tk_span mode)
  | _ => reject UnexpectedToken (tk_span mode)
  end.

Definition watch : Parse Watch :=
  start ← expect_word (text "watch");
  '(name, _) ← identifier;
  values ← parameters;
  _ ← expect_word (text "query");
  '(query, _) ← identifier;
  _ ← expect_word (text "updates");
  mode ← update_mode;
  stop ← expect TSemicolon;
  mret (mkWatch name values query mode (mkSpan (sp_start start) (sp_end stop))).

Definition within (lo hi n : Z) : bool := (lo <=? n) && (n <=? hi).

(** [batch] and [in_flight] are narrowed to 8 bits after their range check. *)
Definition limits : Parse Limits :=
  _ ← expect_word (text "limits");
  start ← expect TLeftBrace;
  _ ← expect_word (text "batch");
  batch ← positive_u16;
  _ ← expect TSemicolon;
  _ ← expect_word (text "in_flight");
  in_flight ← positive_u16;
  _ ← expect TSemicolon;
  _ ← expect_word (text "lease_seconds");
  lease_seconds ← positive_u16;
  _ ← expect TSemicolon;
  stop ← expect TRightBrace;
  let span := mkSpan (sp_start start) (sp_end stop) in
  if negb (within 1 8 batch) || negb (within 1 8 in_flight) || negb (within 5 900 lease_seconds)
  then reject LimitExceeded span
  else
    match u_checked 8 batch, u_checked 8 in_flight with
    | Some batch, Some in_flight => mret (mkLimits batch in_flight lease_seconds span)
    | _, _ => reject LimitExceeded span
    end.

Definition subscription : Parse Subscription :=
  start ← expect_word (text "subscription");
  '(name, _) ← identifier;
  values ← parameters;
  _ ← expect TLeftBrace;
  stream_start ← expect_word (text "stream");
  '(stream_name, _) ← identifier;
  stream_arguments ← arguments;
  stream_stop ← expect TSemicolon;
  let binding := mkStreamBinding stream_name stream_arguments
    (mkSpan (sp_start stream_start) (sp_end stream_stop)) in
  hydrations ← keyword_items (text "hydrate") MAX_SUBSCRIPTION_HYDRATIONS hydration hy_name hy_span no_bound;
  reactions ← keyword_items (text "reaction") MAX_SUBSCRIPTION_REACTIONS reaction re_name re_span no_bound;
  bounds ← limits;
  stop ← expect TRightBrace;
  mret (mkSubscription name values binding hydrations reactions bounds
          (mkSpan (sp_start start) (sp_end stop))).

(** The loop over the definitions of a module. *)
Fixpoint definitions_loop (fuel : nat) (streams : list Stream) (watches : list Watch)
    (subscriptions : list Subscription) (names : gset (list byte)) :
    Parse (list Stream * list Watch * list Subscription) :=
  match fuel with
  | O => fun _ => Panics
  | S fuel =>
      closing ← check TRightBrace;
      if (closing : bool) then mret (streams, watches, subscriptions)
      else
        bounded MAX_REACTIVE_DEFINITIONS (zlen streams + zlen watches + zlen subscriptions) (
          word ← peek_word;
          match word with
          | None => reject_here UnexpectedToken
          | Some word =>
              if bool_decide (word = text "stream") then
                value ← stream;
                fresh_name names (sm_name value) (sm_span value)
                  (definitions_loop fuel (streams ++ [value]) watches subscriptions
                     ({[sm_name value]} ∪ names))
              else if bool_decide (word = text "watch") then
                value ← watch;
                fresh_name names (wa_name value) (wa_span value)
                  (definitions_loop fuel streams (watches ++ [value]) subscriptions
                     ({[wa_name value]} ∪ names))
              else if bool_decide (word = text "subscription") then
                value ← subscription;
                fresh_name names (su_name value) (su_span value)
                  (definitions_loop fuel streams watches (subscriptions ++ [value])
                     ({[su_name value]} ∪ names))
              else reject_here UnsupportedForm
          end)
  end.

Definition version : Parse Z :=
  token ← advance;
  version ← match tk_kind token with
            | TInteger value =>
                match from_str_unsigned 64 value with
                | Some n => if 0 <? n then mret n else reject InvalidLiteral (tk_span token)
                | None => reject InvalidLiteral (tk_span token)
                end
            | _ => reject UnexpectedToken (tk_span token)
            end;
  if negb (version =? 1) then reject UnsupportedVersion (tk_span token) else mret version.

Definition module_ : Parse ReactiveModule :=
  start ← expect_word (text "reactive");
  '(name, _) ← identifier;
  _ ← expect_word (text "version");
  number ← version;
  _ ← expect TLeftBrace;
  '(streams, watches, subscriptions) ← with_fuel (fun fuel => definitions_loop fuel [] [] [] ∅);
  stop ← expect TRightBrace;
  _ ← expect TEnd;
  mret (mkModule name number streams watches subscriptions (mkSpan (sp_start start) (sp_end stop))).

Inductive outcome :=
  | Accepted (m : ReactiveModule)
  | Diagnosed (l : list Diagnostic)
  | Panicked.

Definition parse_module (source : list byte) : outcome :=
  if bool_decide (source = []) || (MAX_REACTIVE_SOURCE_BYTES <? zlen source)
  then Diagnosed [mkDiagnostic LimitExceeded (mkSpan 0 (zlen source))]
  else
    match lex source with
    | Err l => Diagnosed l
    | Ok tokens =>
        match module_ (mkParser tokens 0 0) with
        | Parsed m _ => Accepted m
        | Rejected d => Diagnosed [d]
        | Panics => Panicked
        end
    end.
