(* ===== verification/ReactiveLexer.v ===== *)
(** * Reactive modules: what the lexer produces

    Every token of a source can be written again, and the tokens lie in the
    source in order.  An error is one diagnostic inside the source. *)

From S2P Require Import Prelude Value Names Text ReactiveSyntax ReactiveParser.
From Stdlib Require Import Strings.String Strings.Byte.
From stdpp Require Import gmap list.

Local Open Scope Z_scope.

(** The payload of a token. *)
Definition kind_ok (k : TokenKind) : bool :=
  match k with
  | TIdentifier w => identifier_ok w
  | TParameter w => parameter_ok w
  | TString s => string_ok s
  | _ => true
  end.

Definition span_ok (len : Z) (s : Span) : Prop := 0 <= sp_start s <= sp_end s /\ sp_end s <= len.

(** One diagnostic, inside the source. *)
Definition diagnosed (len : Z) (l : list Diagnostic) : Prop :=
  exists d, l = [d] /\ span_ok len (dg_span d).

(** Tokens in the order of the source between [lo] and [hi], none of them the end. *)
Fixpoint ordered (lo hi : Z) (l : list Token) : Prop :=
  match l with
  | [] => lo <= hi
  | t :: l' =>
      lo <= sp_start (tk_span t) < sp_end (tk_span t) /\ tk_kind t <> TEnd /\ kind_ok (tk_kind t) = true /\
      ordered (sp_end (tk_span t)) hi l'
  end.

(** ** Equations without the case split on bytes *)
Lemma string_body_step fuel start offset b after value :
  string_body (S fuel) start offset (b :: after) value =
  if bool_decide (b = x22) then Ok (true, value, offset + 1, after)
  else if bool_decide (b = "\"%byte) then
    match after with
    | [] => Ok (false, value, offset + 1, [])
    | escaped :: after =>
        match escape escaped with
        | Some c => string_body fuel start (offset + 2) after (value ++ [c])
        | None => Err [mkDiagnostic InvalidLiteral (mkSpan start (offset + 2))]
        end
    end
  else if is_ascii_control b then Err [mkDiagnostic InvalidLiteral (mkSpan start (offset + 1))]
  else
    match next_char (b :: after) with
    | None => Ok (false, value, offset, b :: after)
    | Some (character, after) =>
        string_body fuel start (offset + zlen character) after (value ++ character)
    end.
Proof. destruct b; reflexivity. Qed.

Lemma lex_token_step start b after :
  lex_token start b after =
  match punctuation b after with
  | Some (kind, following) => Ok (kind, start + (zlen (b :: after) - zlen following), following)
  | None =>
      if bool_decide (b = "$"%byte) then
        let '(name, following) := span_while is_identifier_byte after in
        if bool_decide (name = [])
        then Err [mkDiagnostic UnexpectedToken (mkSpan start (start + 1))]
        else Ok (TParameter name, start + 1 + zlen name, following)
      else if bool_decide (b = x22) then
        '(closed, value, offset, following) ←
          string_body (S (length after)) start (start + 1) after [];
        if negb closed || (65535 <? zlen value)
        then Err [mkDiagnostic InvalidLiteral (mkSpan start offset)]
        else Ok (TString value, offset, following)
      else if bool_decide (b = "-"%byte) then
        let '(number, following) := span_while is_ascii_digit after in
        if bool_decide (number = [])
        then Err [mkDiagnostic InvalidCharacter (mkSpan start (start + 1))]
        else Ok (TInteger (b :: number), start + 1 + zlen number, following)
      else if is_ascii_digit b then
        let '(number, following) := span_while is_ascii_digit (b :: after) in
        Ok (TInteger number, start + zlen number, following)
      else if is_identifier_start b then
        let '(name, following) := span_while is_identifier_byte (b :: after) in
        Ok (TIdentifier name, start + zlen name, following)
      else Err [mkDiagnostic InvalidCharacter (mkSpan start (start + 1))]
  end.
Proof. unfold lex_token. destruct (punctuation b after) as [[]|]; [done|]. destruct b; reflexivity. Qed.

(** ** Character boundaries *)
Notation ascii b := (in_rangeb 0 127 b).

Lemma utf8_ascii b l : ascii b = true -> utf8_valid (b :: l) = utf8_valid l.
Proof. intros Hb. apply (utf8_valid_cons [b]). exact Hb. Qed.

Lemma utf8_char_head b l : utf8_char (b :: l) = true -> l = [] \/ ascii b = false.
Proof. destruct l as [|b1 [|b2 [|b3 [|]]]]; cbn [utf8_char]; intros H; [by left|..]; try done; right; ranges; lia. Qed.

Lemma utf8_char_tail b l : utf8_char (b :: l) = true -> Forall (fun c => ascii c = false) l.
Proof.
  destruct l as [|b1 [|b2 [|b3 [|]]]]; cbn [utf8_char]; intros H; try done; repeat constructor;
    unfold second_of_three, second_of_four, continuationb in H; ranges;
    repeat case_match; ranges; lia.
Qed.

(** An ASCII byte starts a character. *)
Lemma utf8_suffix a b r : utf8_valid (a ++ b :: r) = true -> ascii b = true -> utf8_valid (b :: r) = true.
Proof.
  intros Hv Hb. remember (a ++ b :: r) as l eqn:Hl. revert a Hl. revert l Hv.
  apply (utf8_ind (fun l => forall a, l = a ++ b :: r -> utf8_valid (b :: r) = true)).
  { intros [|] Hl; done. }
  intros c l Hc Hv IH a Hl. destruct a as [|x a].
  { change (utf8_valid ([] ++ b :: r) = true). rewrite <- Hl. by rewrite utf8_valid_cons. }
  destruct c as [|y c]; [done|]. injection Hl as -> Hl. pose proof (utf8_char_tail _ _ Hc) as Ht.
  apply app_eq_inv in Hl as [(k & -> & Hl)|(k & -> & ->)]; [|by eapply IH].
  destruct k as [|z k]; [by apply (IH [])|]. injection Hl as <- _.
  apply Forall_app in Ht as [_ Ht]. inversion_clear Ht. congruence.
Qed.

Lemma utf8_drop a r : Forall (fun b => ascii b = true) a -> utf8_valid (a ++ r) = utf8_valid r.
Proof. induction 1 as [|b a Hb _ IH]; [done|]. cbn [app]. by rewrite utf8_ascii. Qed.

Lemma digit_ascii b : is_ascii_digit b = true -> ascii b = true.
Proof. unfold is_ascii_digit. ranges. lia. Qed.
Lemma identifier_byte_ascii b : is_identifier_byte b = true -> ascii b = true.
Proof. destruct b; done. Qed.
Lemma whitespace_ascii b : is_ascii_whitespace b = true -> ascii b = true.
Proof. destruct b; done. Qed.

Lemma forallb_ascii (p : byte -> bool) a : (forall b, p b = true -> ascii b = true) ->
  forallb p a = true -> Forall (fun b => ascii b = true) a.
Proof. intros Hp Ha. apply Forall_forall. intros b Hb. apply Hp. rewrite forallb_forall in Ha. by apply Ha, list_elem_of_In. Qed.

Lemma span_while_utf8 p l a r : (forall b, p b = true -> ascii b = true) ->
  span_while p l = (a, r) -> utf8_valid l = true -> utf8_valid r = true.
Proof.
  intros Hp E Hv. pose proof (span_while_app p l) as Happ. pose proof (span_while_all p l) as Hall.
  rewrite E in *. cbn in *. rewrite Happ, utf8_drop in Hv by by eapply forallb_ascii. done.
Qed.

Lemma span_while_zlen {A} p (l a r : list A) : span_while p l = (a, r) -> zlen l = zlen a + zlen r.
Proof. intros E. pose proof (span_while_app p l) as H. rewrite E in H. cbn in H. by rewrite H, zlen_app. Qed.

Lemma span_while_ok {A} p (l a r : list A) : span_while p l = (a, r) -> forallb p a = true.
Proof. intros E. pose proof (span_while_all p l) as H. by rewrite E in H. Qed.

(** ** String literals *)
Definition literal (v : list byte) : Prop := utf8_valid v = true /\ forallb is_literal_byte v = true.

Lemma literal_app a b : literal a -> literal b -> literal (a ++ b).
Proof. intros [] []. split; [by apply utf8_valid_app|]. rewrite forallb_app. by apply andb_true_iff. Qed.

Lemma escape_literal b c : escape b = Some c -> ascii b = true /\ literal [c].
Proof. destruct b; cbn [escape]; intros [= <-]; done. Qed.

Lemma char_literal b after c r :
  utf8_valid (b :: after) = true -> next_char (b :: after) = Some (c, r) -> is_ascii_control b = false ->
  literal c /\ utf8_valid r = true /\ zlen (b :: after) = zlen c + zlen r.
Proof.
  intros Hv Hn Hb. destruct (utf8_valid_inv _ Hv) as [|(c' & r' & E & Hc & Hr)]; [done|].
  rewrite E, next_char_app in Hn by done. injection Hn as <- <-. rewrite E, zlen_app.
  split_and!; [|done..]. split; [by apply utf8_char_valid|]. destruct c' as [|x c']; [done|]. injection E as <- _.
  cbn [forallb]. apply andb_true_iff. split; [by unfold is_literal_byte; rewrite Hb|].
  apply forallb_forall. intros y Hy%list_elem_of_In. pose proof (utf8_char_tail _ _ Hc) as Ht.
  rewrite Forall_forall in Ht. specialize (Ht y Hy). unfold is_literal_byte, is_ascii_control. ranges.
  apply orb_true_iff. left. pose proof (byte_to_Z_range y). lia.
Qed.

Lemma string_body_sound fuel start offset rest value : utf8_valid rest = true -> literal value ->
  match string_body fuel start offset rest value with
  | Ok (_, v, stop, following) =>
      literal v /\ utf8_valid following = true /\ stop + zlen following = offset + zlen rest /\ offset <= stop
  | Err l => exists stop, l = [mkDiagnostic InvalidLiteral (mkSpan start stop)] /\
      offset <= stop <= offset + zlen rest
  end.
Proof.
  revert offset rest value. induction fuel as [|fuel IH]; intros offset rest value Hr Hv; [by cbn; auto with lia|].
  destruct rest as [|b after]; [by cbn; auto with lia|]. rewrite string_body_step.
  pose proof (zlen_nonneg after).
  case_bool_decide; [subst b; rewrite utf8_ascii in Hr by done; rewrite zlen_cons; split_and!; [done..|lia|lia]|].
  case_bool_decide.
  - subst b. rewrite utf8_ascii in Hr by done. destruct after as [|e after]; [autorewrite with zlen; split_and!; [done..|lia|lia]|].
    rewrite !zlen_cons in *. pose proof (zlen_nonneg after). destruct (escape e) as [c|] eqn:E; [|eexists; split; [done|lia]].
    apply escape_literal in E as [He Hc]. rewrite utf8_ascii in Hr by done.
    specialize (IH (offset + 2) after (value ++ [c]) Hr (literal_app _ _ Hv Hc)).
    repeat case_match; [destruct IH as (?&?&?&?)|destruct IH as (stop & -> & ?); exists stop]; split_and!; try done; lia.
  - destruct (is_ascii_control b) eqn:Ec; [rewrite zlen_cons; eexists; split; [done|lia]|].
    destruct (next_char (b :: after)) as [[c r]|] eqn:En; [|split_and!; [done..|lia|lia]].
    destruct (char_literal _ _ _ _ Hr En Ec) as (Hc & Hr' & ->). pose proof (zlen_nonneg c). pose proof (zlen_nonneg r).
    specialize (IH (offset + zlen c) r (value ++ c) Hr' (literal_app _ _ Hv Hc)).
    repeat case_match; [destruct IH as (?&?&?&?)|destruct IH as (stop & -> & ?); exists stop]; split_and!; try done; lia.
Qed.

(** ** Tokens *)
Lemma punctuation_sound b after k following : punctuation b after = Some (k, following) ->
  ascii b = true /\ k <> TEnd /\ kind_ok k = true /\
  (following = after \/ exists c, after = c :: following /\ ascii c = true).
Proof.
  intros H. destruct b; cbn [punctuation] in H; try discriminate;
    try (injection H as <- <-; split_and!; by auto);
    destruct after as [|[] after]; try discriminate; injection H as <- <-; split_and!; eauto; done.
Qed.

Lemma identifier_run b after name following : is_identifier_start b = true ->
  span_while is_identifier_byte (b :: after) = (name, following) -> exists w, name = b :: w.
Proof.
  intros Hb E. assert (is_identifier_byte b = true) as Hi by (destruct b; done). cbn [span_while] in E.
  rewrite Hi in E. destruct (span_while is_identifier_byte after). injection E as <- <-. eauto.
Qed.

(** The result of one turn on the [zlen rest] bytes from [start] on. *)
Definition token_sound (start : Z) (rest : list byte) (r : result (list Diagnostic) (TokenKind * Z * list byte)) : Prop :=
  match r with
  | Ok (k, stop, following) =>
      k <> TEnd /\ kind_ok k = true /\ utf8_valid following = true /\ start < stop /\
      stop + zlen following = start + zlen rest
  | Err l => exists code stop, l = [mkDiagnostic code (mkSpan start stop)] /\ start <= stop <= start + zlen rest
  end.

Lemma lex_token_sound start b after : utf8_valid (b :: after) = true ->
  token_sound start (b :: after) (lex_token start b after).
Proof.
  intros Hv. rewrite lex_token_step. pose proof (zlen_nonneg after). unfold token_sound.
  destruct (punctuation b after) as [[k f]|] eqn:Ep.
  { apply punctuation_sound in Ep as (Hb & Hk & Hok & Hf). rewrite utf8_ascii in Hv by done.
    destruct Hf as [->|(c & -> & Hc)]; [|rewrite utf8_ascii in Hv by done]; rewrite ?zlen_cons; split_and!; done || lia. }
  case_bool_decide; [|case_bool_decide; [|case_bool_decide; [|destruct (is_ascii_digit b) eqn:Ed;
    [|destruct (is_identifier_start b) eqn:Ei]]]].
  - subst b. rewrite utf8_ascii in Hv by done. destruct (span_while is_identifier_byte after) as [name f] eqn:E.
    pose proof (span_while_zlen _ _ _ _ E). pose proof (zlen_nonneg f). rewrite zlen_cons.
    pose proof (zlen_nonneg name). case_bool_decide as Hn; [repeat eexists; lia|].
    split_and!; [done|..|lia|lia]; [|by apply (span_while_utf8 _ _ _ _ identifier_byte_ascii E)].
    cbn [kind_ok]. unfold parameter_ok. rewrite bool_decide_false by done. by eapply span_while_ok.
  - subst b. rewrite utf8_ascii in Hv by done.
    pose proof (string_body_sound (S (length after)) start (start + 1) after [] Hv (conj eq_refl eq_refl)) as Hs.
    rewrite zlen_cons. destruct (string_body _ _ _ _ _) as [[[[closed v] stop] f]|l]; cbn [mbind result_bind].
    + destruct Hs as (Hl & Hf & Hz & Hle). pose proof (zlen_nonneg f).
      destruct closed, (Z.ltb_spec 65535 (zlen v)); cbn; try (repeat eexists; lia).
      split_and!; [done|..|done|lia|lia]. unfold string_ok. destruct Hl as [-> ->]. cbn. lia.
    + destruct Hs as (stop & -> & ?). repeat eexists; lia.
  - subst b. rewrite utf8_ascii in Hv by done. destruct (span_while is_ascii_digit after) as [name f] eqn:E.
    pose proof (span_while_zlen _ _ _ _ E). pose proof (zlen_nonneg f). rewrite zlen_cons. pose proof (zlen_nonneg name).
    case_bool_decide as Hn; [repeat eexists; lia|].
    split_and!; [done|done|by apply (span_while_utf8 _ _ _ _ digit_ascii E)|lia|lia].
  - destruct (span_while is_ascii_digit (b :: after)) as [name f] eqn:E. pose proof (span_while_zlen _ _ _ _ E).
    assert (0 < zlen name) by (cbn [span_while] in E; rewrite Ed in E; destruct (span_while is_ascii_digit after) as [x ?];
      injection E as <- <-; pose proof (zlen_nonneg x); rewrite zlen_cons; lia).
    split_and!; [done|done|by apply (span_while_utf8 _ _ _ _ digit_ascii E)|lia|lia].
  - destruct (span_while is_identifier_byte (b :: after)) as [name f] eqn:E. pose proof (span_while_zlen _ _ _ _ E).
    destruct (identifier_run _ _ _ _ Ei E) as [w ->]. pose proof (zlen_nonneg w).
    split_and!; [done| |by apply (span_while_utf8 _ _ _ _ identifier_byte_ascii E)|rewrite zlen_cons; lia|lia].
    cbn [kind_ok]. unfold identifier_ok. rewrite Ei. by eapply span_while_ok.
  - rewrite zlen_cons. repeat eexists; lia.
Qed.

Lemma comment_sound after comment following : utf8_valid ("/"%byte :: after) = true ->
  head after = Some "/"%byte ->
  span_while (fun c => negb (bool_decide (c = x0a))) (drop 1 after) = (comment, following) ->
  utf8_valid following = true /\ 2 + zlen comment + zlen following = zlen ("/"%byte :: after).
Proof.
  intros Hv Hh E. destruct after as [|c after]; [done|]. injection Hh as ->. rewrite !utf8_ascii in Hv by done.
  change (drop 1 ("/"%byte :: after)) with after in E.
  rewrite !zlen_cons, (span_while_zlen _ _ _ _ E). split; [|lia].
  pose proof (span_while_app (fun c => negb (bool_decide (c = x0a))) after) as Ha.
  pose proof (span_while_stop (fun c => negb (bool_decide (c = x0a))) after) as Hs. rewrite E in *. cbn in Ha, Hs.
  destruct following as [|b f]; [done|]. cbn in Hs. apply negb_false_iff, bool_decide_eq_true in Hs as ->.
  rewrite Ha in Hv. by apply utf8_suffix in Hv.
Qed.

(** ** The loop *)
Lemma lex_loop_sound fuel offset rest tokens : utf8_valid rest = true -> 0 <= offset ->
  match lex_loop fuel offset rest tokens with
  | Ok all => exists new, all = tokens ++ new /\ ordered offset (offset + zlen rest) new
  | Err l => diagnosed (offset + zlen rest) l
  end.
Proof.
  revert offset rest tokens. induction fuel as [|fuel IH]; intros offset rest tokens Hv Ho; pose proof (zlen_nonneg rest).
  { exists []. rewrite app_nil_r. cbn. auto with lia. }
  destruct rest as [|b after]; [exists []; rewrite app_nil_r; cbn; auto with lia|]. cbn [lex_loop].
  destruct (MAX_REACTIVE_TOKENS <=? zlen tokens); [eexists; split; [done|]; unfold span_ok; cbn; lia|].
  destruct (is_ascii_whitespace b) eqn:Ew.
  { rewrite utf8_ascii in Hv by by apply whitespace_ascii. rewrite zlen_cons in *.
    specialize (IH (offset + 1) after tokens Hv ltac:(lia)).
    replace (offset + (1 + zlen after)) with (offset + 1 + zlen after) by lia.
    case_match; [|done]. destruct IH as (new & -> & Hn). exists new. split; [done|].
    destruct new; cbn in *; intuition lia. }
  case_bool_decide as Hb; [case_bool_decide as Hc|]; cbn [andb].
  1: { subst b. destruct (span_while _ (drop 1 after)) as [comment f] eqn:E.
    destruct (comment_sound after comment f Hv Hc E) as [Hf Hz]. pose proof (zlen_nonneg comment).
    specialize (IH (offset + 2 + zlen comment) f tokens Hf ltac:(lia)).
    replace (offset + zlen _) with (offset + 2 + zlen comment + zlen f) by lia.
    case_match; [|done]. destruct IH as (new & -> & Hn). exists new. split; [done|].
    destruct new; cbn in *; intuition lia. }
  all: pose proof (lex_token_sound offset b after Hv) as Ht; unfold token_sound in Ht;
    destruct (lex_token offset b after) as [[[k stop] f]|l]; cbn [mbind result_bind];
    [|destruct Ht as (code & stop & -> & ?); eexists; split; [done|]; unfold span_ok; cbn; lia];
    destruct Ht as (Hk & Hok & Hf & Hlt & <-);
    specialize (IH stop f (tokens ++ [mkToken k (mkSpan offset stop)]) Hf ltac:(lia));
    case_match; [|done]; destruct IH as (new & -> & Hn);
    exists (mkToken k (mkSpan offset stop) :: new); rewrite <- app_assoc; split; [done|];
    cbn; split_and!; done || lia.
Qed.

(** The tokens of a source: in order, then the end. *)
Lemma lex_sound source : utf8_valid source = true ->
  match lex source with
  | Ok tokens => exists l, tokens = l ++ [mkToken TEnd (mkSpan (zlen source) (zlen source))] /\ ordered 0 (zlen source) l
  | Err l => diagnosed (zlen source) l
  end.
Proof.
  intros Hv. pose proof (lex_loop_sound (length source) 0 source [] Hv ltac:(done)) as H. unfold lex.
  destruct (lex_loop _ _ _ _) as [all|l]; cbn [mbind result_bind]; [|done]. destruct H as (new & -> & H). eauto.
Qed.

(** Fuel for the bytes left is enough. *)
Lemma lex_loop_fuel fuel : forall fuel' offset rest tokens, utf8_valid rest = true ->
  (length rest <= fuel)%nat -> (length rest <= fuel')%nat ->
  lex_loop fuel offset rest tokens = lex_loop fuel' offset rest tokens.
Proof.
  induction fuel as [|fuel IH]; intros fuel' offset [|b after] tokens Hv Hf Hf'; try (cbn in Hf; lia); try by destruct fuel'.
  destruct fuel' as [|fuel']; [cbn in Hf'; lia|]. cbn [lex_loop length] in *.
  destruct (MAX_REACTIVE_TOKENS <=? zlen tokens); [done|]. destruct (is_ascii_whitespace b) eqn:Ew.
  { apply IH; [|lia..]. by rewrite utf8_ascii in Hv by by apply whitespace_ascii. }
  destruct (bool_decide (b = "/"%byte) && bool_decide (head after = Some "/"%byte)) eqn:Ec.
  - apply andb_true_iff in Ec as [->%bool_decide_eq_true Hh%bool_decide_eq_true].
    destruct (span_while _ (drop 1 after)) as [comment f] eqn:E.
    destruct (comment_sound after comment f Hv Hh E) as [Hu Hz]. unfold zlen in Hz. cbn [length] in Hz. apply IH; [done|lia..].
  - pose proof (lex_token_sound offset b after Hv) as Ht. unfold token_sound in Ht.
    destruct (lex_token offset b after) as [[[k stop] f]|l]; cbn [mbind result_bind]; [|done].
    destruct Ht as (_ & _ & Hu & Hlt & Hz). unfold zlen in Hz. cbn [length] in Hz. apply IH; [done|lia..].
Qed.
