(* ===== verification/ReactiveTokens.v ===== *)
(** * Reactive modules: the tokens of canonical source

    The formatter writes a module as text; [module_tokens] writes it as tokens.
    The lexer reads the first as the second, in any context where the text is
    followed by something that ends its last token. *)

From S2P Require Import Prelude Value Names Text ReactiveSyntax ReactiveParser ReactiveLexer.
From Stdlib Require Import Strings.String Strings.Byte.
From stdpp Require Import gmap list.

Local Open Scope Z_scope.

(** ** Tokens of a tree *)
Fixpoint separate {A} (sep : list A) (l : list (list A)) : list A :=
  match l with
  | [] => []
  | [x] => x
  | x :: l' => x ++ sep ++ separate sep l'
  end.

Notation word s := (TIdentifier (text s)).

Definition qualified_tokens (w : list byte) : list TokenKind :=
  separate [TDot] (map (fun c => [TIdentifier c]) (components w)).

Definition parenthesized (l : list (list TokenKind)) : list TokenKind :=
  TLeftParen :: separate [TComma] l ++ [TRightParen].

Definition parameters_tokens (l : list ParameterDecl) : list TokenKind :=
  parenthesized (map (fun p => TParameter (pa_name p) :: TColon :: qualified_tokens (pa_type_name p)) l).

Definition operand_tokens (o : Operand) : list TokenKind :=
  match o with
  | EventField f _ => [word "event"; TDot; TIdentifier f]
  | ParameterRef p _ => [TParameter p]
  | OLiteral (LInteger z) _ => [TInteger (show_int z)]
  | OLiteral (LBoolean b) _ => [if b then word "true" else word "false"]
  | OLiteral (LString s) _ => [TString s]
  | OLiteral (LSymbol w) _ => qualified_tokens w
  end.

Definition arguments_tokens (l : list Argument) : list TokenKind :=
  parenthesized (map (fun a => TIdentifier (ag_name a) :: TEqual :: operand_tokens (ag_value a)) l).

Definition operator_token (op : BinaryOperator) : TokenKind :=
  match op with
  | Equal => TEqualEqual
  | NotEqual => TNotEqual
  | Less => TLess
  | LessEqual => TLessEqual
  | Greater => TGreater
  | GreaterEqual => TGreaterEqual
  | And => TAnd
  | Or => TOr
  end.

Fixpoint expression_tokens (e : Expression) (parent : Z) : list TokenKind :=
  match e with
  | EOperand o => operand_tokens o
  | Binary lhs op rhs _ =>
      let inner := expression_tokens lhs (precedence op) ++ operator_token op ::
                   expression_tokens rhs (precedence op + 1) in
      if precedence op <? parent then TLeftParen :: inner ++ [TRightParen] else inner
  end.

Definition partition_tokens (l : list PartitionBinding) : list TokenKind :=
  parenthesized (map (fun b => [TIdentifier (pb_field b); TEqual; TParameter (pb_parameter b)]) l).

Definition event_tokens (e : EventSelection) : list TokenKind :=
  word "event" :: TIdentifier (es_event e) :: word "select" ::
  parenthesized (map (fun f => [TIdentifier f]) (es_fields e)) ++ [TSemicolon].

Definition predicate_tokens (p : option Expression) : list TokenKind :=
  match p with Some e => word "where" :: expression_tokens e 0 ++ [TSemicolon] | None => [] end.

Definition stream_tokens (s : Stream) : list TokenKind :=
  word "stream" :: TIdentifier (sm_name s) :: parameters_tokens (sm_parameters s) ++
  TLeftBrace :: word "partition" :: partition_tokens (sm_partition s) ++ TSemicolon ::
  concat (map event_tokens (sm_events s)) ++ predicate_tokens (sm_predicate s) ++ [TRightBrace].

Definition mode_token (m : UpdateMode) : TokenKind :=
  match m with Patch => word "patch" | Reset_ => word "reset" end.

Definition watch_tokens (w : Watch) : list TokenKind :=
  word "watch" :: TIdentifier (wa_name w) :: parameters_tokens (wa_parameters w) ++
  [word "query"; TIdentifier (wa_query w); word "updates"; mode_token (wa_update_mode w); TSemicolon].

Definition hydration_tokens (h : Hydration) : list TokenKind :=
  word "hydrate" :: TIdentifier (hy_name h) :: word "query" :: TIdentifier (hy_query h) ::
  arguments_tokens (hy_arguments h) ++ [TSemicolon].

Definition reaction_tokens (r : Reaction) : list TokenKind :=
  [word "reaction"; TIdentifier (re_name r); word "command"; TIdentifier (re_command r); TSemicolon].

Definition limits_tokens (l : Limits) : list TokenKind :=
  [word "limits"; TLeftBrace;
   word "batch"; TInteger (show_int (li_batch l)); TSemicolon;
   word "in_flight"; TInteger (show_int (li_in_flight l)); TSemicolon;
   word "lease_seconds"; TInteger (show_int (li_lease_seconds l)); TSemicolon; TRightBrace].

Definition subscription_tokens (s : Subscription) : list TokenKind :=
  word "subscription" :: TIdentifier (su_name s) :: parameters_tokens (su_parameters s) ++
  TLeftBrace :: word "stream" :: TIdentifier (sb_stream (su_stream s)) ::
  arguments_tokens (sb_arguments (su_stream s)) ++ TSemicolon ::
  concat (map hydration_tokens (su_hydrations s)) ++ concat (map reaction_tokens (su_reactions s)) ++
  limits_tokens (su_limits s) ++ [TRightBrace].

Definition module_tokens (m : ReactiveModule) : list TokenKind :=
  word "reactive" :: TIdentifier (md_name m) :: word "version" :: TInteger (show_int (md_version m)) ::
  TLeftBrace :: concat (map stream_tokens (md_streams m)) ++ concat (map watch_tokens (md_watches m)) ++
  concat (map subscription_tokens (md_subscriptions m)) ++ [TRightBrace].

(** ** Reading a text as tokens *)

(** A byte that does not extend a word, a number or an operator. *)
Definition boundary_byte (b : byte) : bool := negb (is_identifier_byte b) && negb (bool_decide (b = "="%byte)).
Definition boundary (rest : list byte) : Prop :=
  match rest with b :: _ => boundary_byte b = true | [] => True end.
Definition anything (rest : list byte) : Prop := True.

(** In front of [rest], the lexer reads [l] as [kinds] and goes on with [rest]. *)
Definition lexes (l : list byte) (kinds : list TokenKind) (follow : list byte -> Prop) : Prop :=
  forall fuel offset rest tokens, follow rest -> (length (l ++ rest) <= fuel)%nat ->
  zlen tokens + zlen kinds < MAX_REACTIVE_TOKENS ->
  exists fuel' toks, (length rest <= fuel')%nat /\ map tk_kind toks = kinds /\
    lex_loop fuel offset (l ++ rest) tokens = lex_loop fuel' (offset + zlen l) rest (tokens ++ toks).

(** Results that differ in how an offset is written. *)
Ltac same_offset := match goal with |- Ok (_, ?a, _) = Ok (_, ?b, _) => replace a with b by lia; done end.

Lemma lexes_nil F : lexes [] [] F.
Proof. intros fuel offset rest tokens _ Hf _. exists fuel, []. rewrite app_nil_r, Z.add_0_r. done. Qed.

Lemma lexes_app l1 l2 k1 k2 F1 F2 : lexes l1 k1 F1 -> lexes l2 k2 F2 ->
  (forall rest, F2 rest -> F1 (l2 ++ rest)) -> lexes (l1 ++ l2) (k1 ++ k2) F2.
Proof.
  intros H1 H2 HF fuel offset rest tokens HF2 Hf Hm. rewrite zlen_app. rewrite zlen_app in Hm.
  rewrite <- app_assoc in *. pose proof (zlen_nonneg k1). pose proof (zlen_nonneg k2).
  destruct (H1 fuel offset (l2 ++ rest) tokens (HF _ HF2) Hf ltac:(lia)) as (f1 & t1 & Hf1 & <- & ->).
  destruct (H2 f1 (offset + zlen l1) rest (tokens ++ t1) HF2 Hf1) as (f2 & t2 & Hf2 & <- & ->).
  { rewrite zlen_app. unfold zlen in *. rewrite length_map in *. lia. }
  exists f2, (t1 ++ t2). rewrite map_app, <- app_assoc, Z.add_assoc. done.
Qed.

Lemma lexes_weaken l k (F G : list byte -> Prop) : lexes l k F -> (forall rest, G rest -> F rest) -> lexes l k G.
Proof. intros H HG fuel offset rest tokens Hr. by apply H, HG. Qed.

Lemma lexes_gap b l ks F : is_ascii_whitespace b = true -> lexes l ks F -> lexes (b :: l) ks F.
Proof.
  intros Hb H. apply (lexes_app [b] l [] ks anything F); [|done..].
  intros fuel offset rest tokens _ Hf Hm. destruct fuel as [|fuel]; [cbn in Hf; lia|].
  exists fuel, []. rewrite app_nil_r. split_and!; [cbn in Hf; lia|done|]. cbn [app lex_loop].
  rewrite zlen_nil in Hm. destruct (Z.leb_spec MAX_REACTIVE_TOKENS (zlen tokens)); [lia|]. by rewrite Hb.
Qed.

(** One token, from what [lex_token] does. *)
Lemma lexes_token b t k F : is_ascii_whitespace b = false -> b <> "/"%byte ->
  (forall start rest, F rest -> lex_token start b (t ++ rest) = Ok (k, start + zlen (b :: t), rest)) ->
  lexes (b :: t) [k] F.
Proof.
  intros Hb Hs H fuel offset rest tokens HF Hf Hm. destruct fuel as [|fuel]; [cbn in Hf; lia|].
  exists fuel, [mkToken k (mkSpan offset (offset + zlen (b :: t)))].
  split_and!; [rewrite length_app in Hf; cbn in Hf; lia|done|]. cbn [app lex_loop].
  rewrite zlen_cons, zlen_nil in Hm. destruct (Z.leb_spec MAX_REACTIVE_TOKENS (zlen tokens)); [lia|].
  rewrite Hb, (bool_decide_false (b = _)) by done. cbn [andb]. rewrite H by done. done.
Qed.

Lemma boundary_stops l : boundary l -> stops is_identifier_byte l.
Proof. destruct l as [|b l]; [done|]. cbn. unfold boundary_byte. by intros [?%negb_true_iff _]%andb_true_iff. Qed.
Lemma boundary_stops_digit l : boundary l -> stops is_ascii_digit l.
Proof.
  intros H%boundary_stops. destruct l as [|b l]; [done|]. cbn in *. unfold is_identifier_byte, is_ascii_alphanumeric in H.
  by destruct (is_ascii_digit b), (is_ascii_alphabetic b).
Qed.

(** A byte that no case before the identifiers takes. *)
Lemma punctuation_none b l : is_identifier_byte b || bool_decide (b = "$"%byte) || bool_decide (b = x22)
  || bool_decide (b = "-"%byte) = true -> punctuation b l = None.
Proof. destruct b; done. Qed.

Lemma lexes_word w : identifier_ok w = true -> lexes w [TIdentifier w] boundary.
Proof.
  destruct w as [|b w]; [done|]. cbn [identifier_ok]. intros [Hb Hw]%andb_true_iff.
  assert (is_ascii_whitespace b = false /\ b <> "/"%byte /\ is_ascii_digit b = false /\
    is_identifier_byte b = true /\ b <> "$"%byte /\ b <> x22 /\ b <> "-"%byte) as (?&?&Hd&Hi&?&?&?)
    by (destruct b; done).
  apply lexes_token; [done..|]. intros start rest HF. rewrite lex_token_step, punctuation_none by by rewrite Hi.
  rewrite !bool_decide_false, Hd, Hb by done.
  change (b :: w ++ rest) with ((b :: w) ++ rest).
  by rewrite (span_while_run is_identifier_byte _ rest Hw (boundary_stops _ HF)).
Qed.

Lemma lexes_parameter w : parameter_ok w = true -> lexes ("$"%byte :: w) [TParameter w] boundary.
Proof.
  unfold parameter_ok. intros [Hn Hw]%andb_true_iff. apply lexes_token; [done..|]. intros start rest HF.
  rewrite lex_token_step, punctuation_none by done. rewrite bool_decide_true by done.
  rewrite (span_while_run is_identifier_byte w rest Hw (boundary_stops _ HF)).
  destruct (bool_decide (w = [])); [done|]. rewrite zlen_cons. same_offset.
Qed.

Lemma lexes_int n : lexes (show_int n) [TInteger (show_int n)] boundary.
Proof.
  unfold show_int. destruct (Z.ltb_spec n 0).
  - destruct (show_unsigned_spec (- n)) as [_ Hd]; [lia|]. unfold digits in Hd. apply andb_true_iff in Hd as [Hn Hd].
    apply lexes_token; [done..|]. intros start rest HF. rewrite lex_token_step, punctuation_none by done.
    rewrite !(bool_decide_false ("-"%byte = _)), bool_decide_true by done.
    rewrite (span_while_run is_ascii_digit _ rest Hd (boundary_stops_digit _ HF)).
    destruct (bool_decide (_ = [])); [done|]. rewrite zlen_cons. same_offset.
  - destruct (show_unsigned_spec n) as [_ Hd]; [lia|]. destruct (show_unsigned n) as [|b t]; [done|].
    unfold digits in Hd. apply andb_true_iff in Hd as [_ Hd].
    assert (is_ascii_digit b = true) as Hb by (cbn in Hd; by apply andb_true_iff in Hd as []).
    assert (is_ascii_whitespace b = false /\ b <> "/"%byte /\ is_identifier_byte b = true /\
      b <> "$"%byte /\ b <> x22 /\ b <> "-"%byte) as (?&?&Hi&?&?&?) by (destruct b; done).
    apply lexes_token; [done..|]. intros start rest HF. rewrite lex_token_step, punctuation_none by by rewrite Hi.
    rewrite !bool_decide_false, Hb by done.
    change (b :: t ++ rest) with ((b :: t) ++ rest).
    by rewrite (span_while_run is_ascii_digit _ rest Hd (boundary_stops_digit _ HF)).
Qed.

(** *** String literals *)
Definition escaped_text (s : list byte) : list byte := concat (map escape_char (chars s)).

Lemma escape_char_cases c : utf8_char c = true -> forallb is_literal_byte c = true ->
  (exists b e, c = [b] /\ escape_char c = ["\"%byte; e] /\ escape e = Some b) \/
  (exists b t, c = b :: t /\ escape_char c = c /\ b <> x22 /\ b <> "\"%byte /\ is_ascii_control b = false).
Proof.
  intros Hc Hl. destruct c as [|b t]; [done|]. pose proof (utf8_char_head _ _ Hc) as Hh.
  destruct t as [|b1 t]; [|destruct Hh as [|Hb]; [done|]; right; exists b, (b1 :: t); destruct b; done].
  destruct (decide (b ∈ [x22; "\"%byte; x0a; x0d; x09])) as [Hin|Hnin].
  - left. exists b. set_unfold in Hin.
    destruct Hin as [->|[->|[->|[->|[->|[]]]]]]; eexists; split_and!; reflexivity.
  - right. exists b, []. cbn [forallb] in Hl. set_unfold. destruct b; try done; exfalso; apply Hnin; auto 10.
Qed.

Lemma string_body_escaped start rest s : utf8_valid s = true -> forall fuel offset value,
  forallb is_literal_byte s = true -> (length (escaped_text s) < fuel)%nat ->
  string_body fuel start offset (escaped_text s ++ x22 :: rest) value =
    Ok (true, value ++ s, offset + zlen (escaped_text s) + 1, rest).
Proof.
  revert s. apply (utf8_ind (fun s => forall fuel offset value, forallb is_literal_byte s = true ->
    (length (escaped_text s) < fuel)%nat -> string_body fuel start offset (escaped_text s ++ x22 :: rest) value =
    Ok (true, value ++ s, offset + zlen (escaped_text s) + 1, rest))).
  { intros [|fuel] offset value _ Hf; [cbn in Hf; lia|]. cbn [escaped_text chars map concat app length chars_fuel].
    rewrite string_body_step, app_nil_r, bool_decide_true by done. by rewrite zlen_nil, Z.add_0_r. }
  intros c s Hc Hs IH fuel offset value Hl Hf. rewrite forallb_app in Hl. apply andb_true_iff in Hl as [Hlc Hls].
  assert (escaped_text (c ++ s) = escape_char c ++ escaped_text s) as E by (unfold escaped_text; by rewrite chars_cons).
  rewrite E in *. rewrite length_app in Hf. rewrite zlen_app, <- app_assoc. destruct fuel as [|fuel]; [lia|].
  destruct (escape_char_cases c Hc Hlc) as [(b & e & -> & Ee & He)|(b & t & -> & Ee & Hq & Hb & Hctl)];
    rewrite Ee in *.
  - cbn [app]. rewrite string_body_step, bool_decide_false, bool_decide_true, He by done.
    rewrite IH by (done || cbn in Hf; lia). rewrite <- app_assoc. rewrite !zlen_cons, zlen_nil. same_offset.
  - cbn [app]. rewrite string_body_step, !bool_decide_false, Hctl by done.
    change (b :: t ++ escaped_text s ++ x22 :: rest) with ((b :: t) ++ escaped_text s ++ x22 :: rest).
    rewrite next_char_app, IH by (done || cbn in Hf; lia). rewrite <- app_assoc. same_offset.
Qed.

Lemma lexes_string s : string_ok s = true -> lexes ([x22] ++ escaped_text s ++ [x22]) [TString s] anything.
Proof.
  unfold string_ok. intros [[Hu Hl]%andb_true_iff Hz]%andb_true_iff. cbn [app]. apply lexes_token; [done..|].
  intros start rest _. rewrite lex_token_step, punctuation_none by done.
  rewrite (bool_decide_false (x22 = _)), bool_decide_true by done. rewrite <- app_assoc. cbn [app].
  rewrite string_body_escaped by (done || rewrite length_app; cbn; lia). cbn [mbind result_bind negb orb app].
  destruct (Z.ltb_spec 65535 (zlen s)); [lia|]. autorewrite with zlen. same_offset.
Qed.

(** *** Texts that start with fixed bytes *)
Lemma lexes_cons b l t k ks F : lexes (b :: t) [k] anything -> lexes l ks F -> lexes (b :: t ++ l) (k :: ks) F.
Proof. intros H1 H2. by apply (lexes_app (b :: t) l [k] ks anything F). Qed.

Lemma lexes_punctuation b l k ks F : (forall rest, punctuation b rest = Some (k, rest)) ->
  is_ascii_whitespace b = false -> b <> "/"%byte -> lexes l ks F -> lexes (b :: l) (k :: ks) F.
Proof.
  intros Hp Hb Hs H. apply (lexes_cons b l []); [|done]. apply lexes_token; [done..|]. intros start rest _.
  rewrite lex_token_step, Hp. cbn [app]. rewrite !zlen_cons, zlen_nil. same_offset.
Qed.

(** An operator written between spaces. *)
Lemma lexes_operator op l ks F : lexes l ks F -> lexes (operator_text op ++ x20 :: l) (operator_token op :: ks) F.
Proof.
  intros H. eapply (lexes_app _ _ [_] _ (fun rest => exists rest', rest = x20 :: rest')); [|by apply lexes_gap|by eauto].
  destruct op; match goal with |- lexes ?l _ _ => let v := eval vm_compute in l in change l with v end;
    (apply lexes_token; [done..|]); intros start rest (rest' & ->); rewrite lex_token_step;
    cbn [punctuation app operator_text]; rewrite ?zlen_cons, ?zlen_nil; same_offset.
Qed.

Lemma lexes_equal l ks F : lexes l ks F -> lexes ("="%byte :: x20 :: l) (TEqual :: ks) F.
Proof.
  intros H. apply (lexes_app ["="%byte] (x20 :: l) [TEqual] ks (fun rest => exists rest', rest = x20 :: rest') F);
    [|by apply lexes_gap|by eauto].
  apply lexes_token; [done..|]. intros start rest (rest' & ->). rewrite lex_token_step.
  cbn [punctuation app]. rewrite !zlen_cons, zlen_nil.
  same_offset.
Qed.

(** A word of the grammar inside a fixed text. *)
Lemma lexes_keyword b l w c l' ks F : is_identifier_start b = true ->
  span_while is_identifier_byte (b :: l) = (w, c :: l') -> boundary_byte c = true ->
  lexes (c :: l') ks F -> lexes (b :: l) (TIdentifier w :: ks) F.
Proof.
  intros Hb E Hc H. destruct (identifier_run _ _ _ _ Hb E) as [w' ->].
  pose proof (span_while_app is_identifier_byte (b :: l)) as Ha. pose proof (span_while_ok _ _ _ _ E) as Ho.
  rewrite E in Ha. cbn [fst snd] in Ha. rewrite Ha.
  apply (lexes_app _ _ [_] _ boundary); [apply lexes_word|done..]. cbn [identifier_ok]. by rewrite Hb.
Qed.

(** A text with its own tokens in front of another. *)
Lemma lexes_piece l k l' k' F : lexes l k boundary -> lexes l' k' F ->
  (forall rest, F rest -> boundary (l' ++ rest)) -> lexes (l ++ l') (k ++ k') F.
Proof. apply lexes_app. Qed.

Lemma lexes_name w l ks F : identifier_ok w = true -> lexes l ks F -> (forall rest, F rest -> boundary (l ++ rest)) ->
  lexes (w ++ l) (TIdentifier w :: ks) F.
Proof. intros Hw. apply (lexes_app w l [_] ks). by apply lexes_word. Qed.

Lemma lexes_dollar w l ks F : parameter_ok w = true -> lexes l ks F -> (forall rest, F rest -> boundary (l ++ rest)) ->
  lexes ("$"%byte :: w ++ l) (TParameter w :: ks) F.
Proof. intros Hw. apply (lexes_app ("$"%byte :: w) l [_] ks). by apply lexes_parameter. Qed.

Lemma lexes_number n l ks F : lexes l ks F -> (forall rest, F rest -> boundary (l ++ rest)) ->
  lexes (show_int n ++ l) (TInteger (show_int n) :: ks) F.
Proof. apply (lexes_app (show_int n) l [_] ks). apply lexes_int. Qed.

Lemma lexes_closed l k l' k' F : lexes l k anything -> lexes l' k' F -> lexes (l ++ l') (k ++ k') F.
Proof. intros H1 H2. by apply (lexes_app _ _ _ _ anything). Qed.

(** *** Lists *)
Lemma lexes_separate sep sk ls ks : lexes sep sk anything -> (forall rest, boundary (sep ++ rest)) ->
  Forall2 (fun l k => lexes l k boundary) ls ks -> lexes (separate sep ls) (separate sk ks) boundary.
Proof.
  intros Hs Hb H. induction H as [|l k ls ks Hl Hf IH]; [apply lexes_nil|].
  destruct Hf as [|l' k' ls ks Hl' Hf]; [done|]. cbn [separate] in *.
  apply lexes_piece; [done| |by intros; rewrite <- app_assoc; apply Hb]. by apply lexes_closed.
Qed.

Lemma comma_separated_separate {A} (f : A -> list byte) l : comma_separated f l = separate (text ", ") (map f l).
Proof. induction l as [|x [|y l] IH]; [done..|]. cbn [comma_separated map separate] in *. by rewrite IH. Qed.

Lemma lexes_commas {A} (f : A -> list byte) (k : A -> list TokenKind) l :
  Forall (fun x => lexes (f x) (k x) boundary) l ->
  lexes (comma_separated f l) (separate [TComma] (map k l)) boundary.
Proof.
  intros H. rewrite comma_separated_separate. apply lexes_separate; [|done|].
  - apply (lexes_punctuation _ [x20] TComma []); [done..|]. apply lexes_gap; [done|]. apply lexes_nil.
  - induction H; cbn; by constructor.
Qed.

Lemma lexes_concat {A} (f : A -> list byte) (k : A -> list TokenKind) l :
  Forall (fun x => lexes (f x) (k x) anything) l -> lexes (concat (map f l)) (concat (map k l)) anything.
Proof. induction 1; cbn; [apply lexes_nil|by apply lexes_closed]. Qed.

(** ** The text of each form *)

(** Reads fixed bytes, and names whose conditions are at hand. *)
Ltac fixed_texts :=
  repeat match goal with
  | |- context [list_byte_of_string ?s] =>
      let v := eval vm_compute in (list_byte_of_string s) in change (list_byte_of_string s) with v
  end; unfold newline; repeat (rewrite <- ?app_assoc; cbn [app]).

Ltac read_boundary := let H := fresh in intros ? H; first [reflexivity | exact H].

Ltac read_text :=
  lazymatch goal with
  | |- lexes [] _ _ => apply lexes_nil
  | |- lexes (_ :: _) _ _ =>
      first
      [ apply lexes_gap; [reflexivity|read_text]
      | apply lexes_equal; read_text
      | apply lexes_punctuation; [intros; reflexivity|reflexivity|discriminate|read_text]
      | eapply lexes_keyword; [reflexivity|reflexivity|reflexivity|read_text]
      | apply lexes_dollar; [assumption|read_text|read_boundary]
      | idtac ]
  | |- lexes (_ ++ _) _ _ =>
      first
      [ apply lexes_name; [assumption|read_text|read_boundary]
      | apply lexes_number; [read_text|read_boundary]
      | apply lexes_closed; [solve [eauto with lexes]|read_text]
      | apply lexes_piece; [solve [eauto with lexes]|read_text|read_boundary]
      | idtac ]
  | |- _ => idtac
  end.

Ltac read_form := fixed_texts; read_text.

Create HintDb lexes.

Lemma separate_components cur l : separate (text ".") (split_dots cur l) = cur ++ l.
Proof.
  revert cur. induction l as [|b l IH]; intros cur; [by rewrite app_nil_r|].
  assert (split_dots cur (b :: l) = if bool_decide (b = "."%byte) then cur :: split_dots [] l
    else split_dots (cur ++ [b]) l) as -> by (destruct b; reflexivity).
  case_bool_decide as Hb; [|by rewrite IH, <- app_assoc]. subst b.
  assert (exists x y, split_dots [] l = x :: y) as (x & y & E).
  { clear. generalize (@nil byte). induction l as [|b l IH]; intros c; [by eexists _, _|].
    cbn [split_dots]. destruct b; eauto. }
  specialize (IH []). rewrite E in *. cbn [separate]. cbn [separate] in IH. by rewrite IH.
Qed.

Lemma lexes_qualified w : qualified_ok w = true -> lexes w (qualified_tokens w) boundary.
Proof.
  unfold qualified_ok, qualified_tokens. intros Hw. rewrite <- (app_nil_l w) at 1. rewrite <- (separate_components [] w).
  change (split_dots [] w) with (components w). apply lexes_separate; [by read_form|done|].
  rewrite forallb_forall in Hw. assert (Forall (fun c => identifier_ok c = true) (components w)) as Hc
    by (apply Forall_forall; intros c Hc%list_elem_of_In; by apply Hw).
  clear Hw. induction Hc; cbn; constructor; [by apply lexes_word|done].
Qed.

Lemma symbol_qualified w : symbol_ok w = true -> qualified_ok w = true.
Proof.
  unfold symbol_ok, qualified_ok. destruct (components w) as [|a [|b [|]]]; try done.
  intros [[Ha Hb]%andb_true_iff _]%andb_true_iff. cbn [forallb]. by rewrite Ha, Hb.
Qed.

Lemma lexes_operand o : operand_ok o = true -> lexes (format_operand o) (operand_tokens o) boundary.
Proof.
  destruct o as [f ?|p ?|[z|[]|s|w] ?]; cbn [operand_ok format_operand operand_tokens]; intros H.
  - fixed_texts. eapply lexes_keyword; [reflexivity..|].
    apply lexes_punctuation; [done..|]. by apply lexes_word.
  - by apply lexes_parameter.
  - apply lexes_int.
  - by apply lexes_word.
  - by apply lexes_word.
  - apply (lexes_weaken _ _ anything); [by apply lexes_string|done].
  - by apply lexes_qualified, symbol_qualified.
Qed.

#[local] Hint Resolve lexes_operand lexes_qualified : lexes.

(** A list between parentheses. *)
Lemma lexes_parenthesized {A} (f : A -> list byte) (k : A -> list TokenKind) l :
  Forall (fun x => lexes (f x) (k x) boundary) l ->
  lexes (text "(" ++ comma_separated f l ++ text ")") (parenthesized (map k l)) anything.
Proof. intros H. pose proof (lexes_commas f k l H) as Hl. unfold parenthesized. read_form. Qed.

Lemma forallb_Forall_impl {A} (p : A -> bool) (P : A -> Prop) l :
  (forall x, p x = true -> P x) -> forallb p l = true -> Forall P l.
Proof. intros H Hl. apply Forall_forall. intros x Hx%list_elem_of_In. rewrite forallb_forall in Hl. by apply H, Hl. Qed.

(** Splits the conjunctions of a well-formedness predicate. *)
Ltac ok_split := repeat match goal with
  | H : _ && _ = true |- _ => apply andb_true_iff in H; destruct H
  | H : forallb _ _ = true |- _ => progress cbn beta in H
  end.

Lemma lexes_parameters l : parameters_ok l = true -> lexes (format_parameters l) (parameters_tokens l) anything.
Proof.
  unfold parameters_ok, format_parameters, parameters_tokens. intros H. ok_split. apply lexes_parenthesized.
  eapply forallb_Forall_impl; [|done]. cbn beta. intros p Hp. ok_split. fixed_texts.
  apply lexes_dollar; [done| |read_boundary]. read_text. by apply lexes_qualified.
Qed.

Lemma lexes_partition l : partition_ok l = true ->
  lexes (comma_separated (fun b => pb_field b ++ text " = $" ++ pb_parameter b) l)
    (separate [TComma] (map (fun b => [TIdentifier (pb_field b); TEqual; TParameter (pb_parameter b)]) l)) boundary.
Proof.
  unfold partition_ok. intros H. ok_split. apply lexes_commas.
  eapply forallb_Forall_impl; [|done]. cbn beta. intros p Hp. ok_split. fixed_texts.
  apply lexes_name; [done| |read_boundary]. read_text. by apply lexes_parameter.
Qed.

Lemma lexes_arguments l : arguments_ok l = true -> lexes (format_arguments l) (arguments_tokens l) anything.
Proof.
  unfold arguments_ok, format_arguments, arguments_tokens. intros H. ok_split. apply lexes_parenthesized.
  eapply forallb_Forall_impl; [|done]. cbn beta. intros p Hp. ok_split. fixed_texts.
  apply lexes_name; [done| |read_boundary]. read_text. by apply lexes_operand.
Qed.

#[local] Hint Resolve lexes_parameters lexes_arguments : lexes.

Lemma lexes_event e : event_ok e = true -> lexes (format_event e) (event_tokens e) anything.
Proof.
  unfold event_ok, format_event, event_tokens. intros H. ok_split.
  assert (lexes (comma_separated (fun f => f) (es_fields e)) (separate [TComma] (map (fun f => [TIdentifier f]) (es_fields e)))
    boundary) as Hf by (apply lexes_commas; eapply forallb_Forall_impl; [|done]; apply lexes_word).
  unfold parenthesized. read_form.
Qed.

Lemma lexes_expression e parent : condition_ok e = true -> lexes (format_expression e parent) (expression_tokens e parent) boundary.
Proof.
  revert parent. induction e as [o|l IHl op r IHr sp]; intros parent; [done|]. cbn [condition_ok].
  intros H. assert (forall p, lexes (format_expression l p) (expression_tokens l p) boundary) as Hl.
  { destruct (is_comparison op); [|ok_split; by auto]. destruct l, r; try done. ok_split. by intros; apply lexes_operand. }
  assert (forall p, lexes (format_expression r p) (expression_tokens r p) boundary) as Hr.
  { destruct (is_comparison op); [|ok_split; by auto]. destruct l, r; try done. ok_split. by intros; apply lexes_operand. }
  clear IHl IHr H. cbn [format_expression expression_tokens].
  assert (lexes (format_expression l (precedence op) ++ x20 :: operator_text op ++ x20 :: format_expression r (precedence op + 1))
    (expression_tokens l (precedence op) ++ operator_token op :: expression_tokens r (precedence op + 1)) boundary) as Hin.
  { apply lexes_piece; [done| |done]. apply lexes_gap; [done|]. by apply lexes_operator. }
  destruct (precedence op <? parent); fixed_texts; rewrite ?app_nil_r; [|done].
  apply lexes_punctuation; [done..|]. fixed_texts.
  match goal with |- lexes (?a ++ x20 :: ?b ++ x20 :: ?c ++ ?d) (?k ++ ?o :: ?k' ++ ?z) _ =>
    replace (a ++ x20 :: b ++ x20 :: c ++ d) with ((a ++ x20 :: b ++ x20 :: c) ++ d) by (fixed_texts; done);
    replace (k ++ o :: k' ++ z) with ((k ++ o :: k') ++ z) by (fixed_texts; done) end.
  apply lexes_piece; [done|read_text|done].
Qed.

Lemma lexes_predicate p : match p with Some e => condition_ok e | None => true end = true ->
  lexes (format_predicate p) (predicate_tokens p) anything.
Proof.
  destruct p as [e|]; intros H; cbn [predicate_tokens format_predicate]; [|apply lexes_nil].
  pose proof (lexes_expression e 0 H). read_form.
Qed.

Lemma lexes_events l : forallb event_ok l = true ->
  lexes (concat (map format_event l)) (concat (map event_tokens l)) anything.
Proof. intros H. apply lexes_concat. eapply forallb_Forall_impl; [|done]. apply lexes_event. Qed.

#[local] Hint Resolve lexes_predicate lexes_events : lexes.

Lemma lexes_stream s : stream_ok s = true -> lexes (format_stream s) (stream_tokens s) anything.
Proof.
  unfold stream_ok, format_stream, stream_tokens, partition_tokens, parenthesized. intros H. ok_split.
  assert (match sm_predicate s with Some e => condition_ok e | None => true end = true) as Hp%lexes_predicate.
  { destruct (sm_predicate s); [|done]. unfold predicate_ok in *. ok_split. done. }
  pose proof (lexes_partition (sm_partition s) ltac:(done)) as Hb.
  set (bindings := comma_separated _ (sm_partition s)) in *.
  read_form.
Qed.

Lemma lexes_watch w : watch_ok w = true -> lexes (format_watch w) (watch_tokens w) anything.
Proof. unfold watch_ok, format_watch, watch_tokens. intros H. ok_split. destruct (wa_update_mode w); cbn [mode_token]; read_form. Qed.

Lemma lexes_hydration h : hydration_ok h = true -> lexes (format_hydration h) (hydration_tokens h) anything.
Proof. unfold hydration_ok, format_hydration, hydration_tokens. intros H. ok_split. read_form. Qed.

Lemma lexes_reaction r : reaction_ok r = true -> lexes (format_reaction r) (reaction_tokens r) anything.
Proof. unfold reaction_ok, format_reaction, reaction_tokens. intros H. ok_split. read_form. Qed.

Lemma lexes_limits l : lexes (format_limits l) (limits_tokens l) anything.
Proof. unfold format_limits, limits_tokens. read_form. Qed.

Lemma lexes_hydrations l : forallb hydration_ok l = true ->
  lexes (concat (map format_hydration l)) (concat (map hydration_tokens l)) anything.
Proof. intros H. apply lexes_concat. eapply forallb_Forall_impl; [|done]. apply lexes_hydration. Qed.

Lemma lexes_reactions l : forallb reaction_ok l = true ->
  lexes (concat (map format_reaction l)) (concat (map reaction_tokens l)) anything.
Proof. intros H. apply lexes_concat. eapply forallb_Forall_impl; [|done]. apply lexes_reaction. Qed.

#[local] Hint Resolve lexes_hydrations lexes_reactions lexes_limits : lexes.

Lemma lexes_subscription s : subscription_ok s = true -> lexes (format_subscription s) (subscription_tokens s) anything.
Proof. unfold subscription_ok, format_subscription, subscription_tokens. intros H. ok_split. read_form. Qed.

Lemma lexes_streams l : forallb stream_ok l = true ->
  lexes (concat (map format_stream l)) (concat (map stream_tokens l)) anything.
Proof. intros H. apply lexes_concat. eapply forallb_Forall_impl; [|done]. apply lexes_stream. Qed.

Lemma lexes_watches l : forallb watch_ok l = true ->
  lexes (concat (map format_watch l)) (concat (map watch_tokens l)) anything.
Proof. intros H. apply lexes_concat. eapply forallb_Forall_impl; [|done]. apply lexes_watch. Qed.

Lemma lexes_subscriptions l : forallb subscription_ok l = true ->
  lexes (concat (map format_subscription l)) (concat (map subscription_tokens l)) anything.
Proof. intros H. apply lexes_concat. eapply forallb_Forall_impl; [|done]. apply lexes_subscription. Qed.

#[local] Hint Resolve lexes_streams lexes_watches lexes_subscriptions : lexes.

Lemma lexes_module m : module_ok m = true -> lexes (format_module m) (module_tokens m) anything.
Proof. unfold module_ok, format_module, module_tokens. intros H. ok_split. read_form. Qed.

(** A text that reads as [kinds] is lexed as these tokens and the end. *)
Lemma lex_reads l kinds : lexes l kinds anything -> zlen kinds < MAX_REACTIVE_TOKENS ->
  exists toks stop, lex l = Ok (toks ++ [mkToken TEnd stop]) /\ map tk_kind toks = kinds.
Proof.
  intros Hl Hz. destruct (Hl (length l) 0 [] []) as (fuel & toks & _ & Hk & E);
    [done|by rewrite app_nil_r|by rewrite zlen_nil|]. rewrite app_nil_r in E. unfold lex. rewrite E.
  assert (forall o k, lex_loop fuel o [] k = Ok k) as -> by (by destruct fuel). cbn [mbind result_bind app]. eauto.
Qed.
