(* ===== verification/ReactiveComplete.v ===== *)
(** * Reactive modules: the parser reads what the formatter writes

    On the tokens of a well-formed tree each function of the parser returns that
    tree, up to the spans, and stops where the tokens end. *)

From S2P Require Import Prelude Value Names Text ReactiveSyntax ReactiveParser ReactiveLexer ReactiveTokens.
From Stdlib Require Import Strings.String Strings.Byte.
From stdpp Require Import gmap list.

Local Open Scope Z_scope.

(** ** Acceptance *)

(** The parser with its two counters. *)
Definition at_tokens (ts : list Token) (c : Z * Z) : Parser := mkParser ts c.1 c.2.

(** In front of a token that satisfies [follow], [p] consumes tokens of these
    kinds, takes the counters from [c] to [c'], and returns a value in [Q]. *)
Definition accepts {A} (c : Z * Z) (p : Parse A) (kinds : list TokenKind) (follow : TokenKind -> Prop)
    (c' : Z * Z) (Q : A -> Prop) : Prop :=
  forall ts t rest, map tk_kind ts = kinds -> follow (tk_kind t) ->
  exists a, p (at_tokens (ts ++ t :: rest) c) = Parsed a (at_tokens (t :: rest) c') /\ Q a.

Definition any_token (k : TokenKind) : Prop := True.

(** The kind that follows, when [k] is what comes after [kinds]. *)
Definition next (kinds : list TokenKind) (k : TokenKind) : TokenKind :=
  match kinds with [] => k | k' :: _ => k' end.

Lemma bind_parsed {A B} (p : Parse A) (k : A -> Parse B) s a s' : p s = Parsed a s' -> (p ≫= k) s = k a s'.
Proof. intros H. unfold mbind, Parse_bind. by rewrite H. Qed.

Lemma accepts_ret {A} c (a : A) F (Q : A -> Prop) : Q a -> accepts c (mret a) [] F c Q.
Proof. intros Ha [|u0 us] t rest Hm _; [|done]. by exists a. Qed.

Lemma accepts_bind {A B} c c1 c2 (p : Parse A) (k : A -> Parse B) k1 k2 F1 F2 Q1 Q2 :
  accepts c p k1 F1 c1 Q1 -> (forall a, Q1 a -> accepts c1 (k a) k2 F2 c2 Q2) ->
  (forall t, F2 t -> F1 (next k2 t)) -> accepts c (p ≫= k) (k1 ++ k2) F2 c2 Q2.
Proof.
  intros Hp Hk HF ts t rest Hm Ht. apply map_eq_app in Hm as (t1 & t2 & -> & <- & <-). rewrite <- app_assoc.
  assert (exists u r, t2 ++ t :: rest = u :: r /\ tk_kind u = next (map tk_kind t2) (tk_kind t)) as (u & r & Hu & Hn)
    by (destruct t2; cbn; eauto).
  destruct (Hp t1 u r eq_refl) as (a & Ha & Hq); [rewrite Hn; by apply HF|].
  destruct (Hk a Hq t2 t rest eq_refl Ht) as (b & Hb & Hq2). exists b. split; [|done].
  erewrite bind_parsed by (rewrite Hu; exact Ha). by rewrite <- Hu.
Qed.

(** The last form of a sequence. *)
Lemma accepts_last {A B} c c1 c2 (p : Parse A) (k : A -> Parse B) kinds F Q1 Q2 :
  accepts c p kinds F c1 Q1 -> (forall a, Q1 a -> accepts c1 (k a) [] F c2 Q2) -> accepts c (p ≫= k) kinds F c2 Q2.
Proof. intros Hp Hk. rewrite <- (app_nil_r kinds). by eapply accepts_bind. Qed.

Lemma accepts_fuel {A} c c' (f : nat -> Parse A) kinds F Q :
  (forall fuel, (length kinds < fuel)%nat -> accepts c (f fuel) kinds F c' Q) -> accepts c (with_fuel f) kinds F c' Q.
Proof.
  intros H ts t rest Hm Ht. unfold with_fuel. apply H; [|done..]. rewrite <- Hm, length_map. cbn.
  rewrite length_app. cbn. lia.
Qed.

Lemma accepts_weaken {A} c c' (p : Parse A) kinds (F G : TokenKind -> Prop) (P Q : A -> Prop) :
  accepts c p kinds F c' P -> (forall k, G k -> F k) -> (forall a, P a -> Q a) -> accepts c p kinds G c' Q.
Proof. intros H HG HQ ts t rest Hm Ht. destruct (H ts t rest Hm) as (a & Ha & Hp); eauto. Qed.

(** *** Single tokens *)
Lemma accepts_advance c k : k <> TEnd -> accepts c advance [k] any_token c (fun t => tk_kind t = k).
Proof.
  intros Hk [|u [|u0 us]] t rest Hm _; try done. injection Hm as <-. exists u. split; [|done].
  unfold advance. cbn. by rewrite bool_decide_false.
Qed.

Lemma accepts_peek c F : accepts c peek [] F c (fun t => F (tk_kind t)).
Proof. intros [|u0 us] t rest Hm Ht; [|done]. by exists t. Qed.

Lemma accepts_check c k F : (forall t, F t -> t = k) -> accepts c (check k) [] F c (fun b => b = true).
Proof.
  intros H. apply (accepts_bind _ c _ _ _ [] [] F F (fun t => F (tk_kind t))); [apply accepts_peek| |done].
  intros a Ha. apply accepts_ret. by rewrite bool_decide_true by auto.
Qed.

Lemma accepts_check_not c k F : (forall t, F t -> t <> k) -> accepts c (check k) [] F c (fun b => b = false).
Proof.
  intros H. apply (accepts_bind _ c _ _ _ [] [] F F (fun t => F (tk_kind t))); [apply accepts_peek| |done].
  intros a Ha. apply accepts_ret. by rewrite bool_decide_false by auto.
Qed.

(** A look at the next token before something that consumes it. *)
Lemma accepts_look {A B} c c' (p : Parse A) (k : A -> Parse B) k0 kinds F Q (P : A -> Prop) :
  accepts c p [] (fun t => t = k0) c P -> (forall a, P a -> accepts c (k a) (k0 :: kinds) F c' Q) ->
  accepts c (p ≫= k) (k0 :: kinds) F c' Q.
Proof. intros Hp Hk. by apply (accepts_bind c c c' p k [] (k0 :: kinds) (fun t => t = k0) F P Q). Qed.

Lemma accepts_take c k : k <> TEnd -> accepts c (take_token k) [k] any_token c (fun r => exists sp, r = Some sp).
Proof.
  intros Hk. apply (accepts_look c c _ _ k [] any_token _ (fun b => b = true)); [by apply accepts_check|].
  intros b ->. apply (accepts_bind c c c _ _ [k] [] any_token any_token (fun t => tk_kind t = k));
    [by apply accepts_advance| |done]. intros t _. apply accepts_ret. eauto.
Qed.

Lemma accepts_take_not c k (F : TokenKind -> Prop) : (forall t, F t -> t <> k) ->
  accepts c (take_token k) [] F c (fun r => r = None).
Proof.
  intros Hk. apply (accepts_bind c c c _ _ [] [] F F (fun b => b = false)); [by apply accepts_check_not| |done].
  intros b ->. by apply accepts_ret.
Qed.

Lemma accepts_expect c k : k <> TEnd -> accepts c (expect k) [k] any_token c (fun _ => True).
Proof.
  intros Hk. apply (accepts_bind c c c _ _ [k] [] any_token _ _ _ (accepts_take c k Hk)); [|done].
  intros r (sp & ->). by apply accepts_ret.
Qed.

Lemma accepts_word c w : accepts c (expect_word w) [TIdentifier w] any_token c (fun _ => True).
Proof.
  apply (accepts_bind c c c _ _ [_] [] any_token _ _ _ (accepts_advance c (TIdentifier w) ltac:(done))); [|done].
  intros t ->. rewrite bool_decide_true by done. by apply accepts_ret.
Qed.

Lemma accepts_identifier c w : accepts c identifier [TIdentifier w] any_token c (fun r => r.1 = w).
Proof.
  apply (accepts_bind c c c _ _ [_] [] any_token _ _ _ (accepts_advance c (TIdentifier w) ltac:(done))); [|done].
  intros t ->. by apply accepts_ret.
Qed.

Lemma accepts_parameter_name c w : accepts c parameter_name [TParameter w] any_token c (fun r => r.1 = w).
Proof.
  apply (accepts_bind c c c _ _ [_] [] any_token _ _ _ (accepts_advance c (TParameter w) ltac:(done))); [|done].
  intros t ->. by apply accepts_ret.
Qed.

Lemma accepts_at_word c w F : accepts c (at_word w) [] (fun t => t = TIdentifier w /\ F t) c (fun b => b = true).
Proof.
  intros [|u0 us] t rest Hm [Ht _]; [|done]. exists true. unfold at_word, peek_word, mbind, Parse_bind, peek. cbn.
  by rewrite Ht, bool_decide_true.
Qed.

Lemma accepts_at_word_not c w F : (forall t, F t -> t <> TIdentifier w) -> accepts c (at_word w) [] F c (fun b => b = false).
Proof.
  intros H [|u0 us] t rest Hm Ht; [|done]. exists false. unfold at_word, peek_word, mbind, Parse_bind, peek. cbn.
  split; [|done]. f_equal. apply bool_decide_false. specialize (H _ Ht). by destruct (tk_kind t); congruence.
Qed.

(** Runs the parser over the next token or the next form of the grammar. *)
Ltac accept_with H :=
  eapply (accepts_bind _ _ _ _ _ [_]); [apply H; try discriminate| |intros ? _; exact I]; cbn beta.

Ltac accept_step :=
  lazymatch goal with
  | |- accepts _ (mret _) [] _ _ _ => apply accepts_ret
  | |- accepts _ (expect _ ≫= _) _ _ _ _ => accept_with accepts_expect; intros ? _
  | |- accepts _ (expect_word _ ≫= _) _ _ _ _ => accept_with accepts_word; intros ? _
  | |- accepts _ (identifier ≫= _) _ _ _ _ => accept_with accepts_identifier; intros [? ?] ?; cbn [fst] in *; subst
  | |- accepts _ (parameter_name ≫= _) _ _ _ _ =>
      accept_with accepts_parameter_name; intros [? ?] ?; cbn [fst] in *; subst
  | |- accepts _ (advance ≫= _) _ _ _ _ => let Hk := fresh in accept_with accepts_advance; intros ? Hk; rewrite ?Hk; clear Hk; cbn beta iota zeta
  end.

Ltac accept := repeat accept_step.

(** ** Names and operands *)
Lemma separate_cons {A} (sep x : list A) (l : list (list A)) : separate sep (x :: l) = x ++ concat (map (fun y => sep ++ y) l).
Proof.
  revert x. induction l as [|y l IH]; intros x; [cbn; by rewrite app_nil_r|].
  change (separate sep (x :: y :: l)) with (x ++ sep ++ separate sep (y :: l)). rewrite IH. cbn. by rewrite <- app_assoc.
Qed.

Lemma accepts_qualified_loop c cs : forall fuel value stop,
  (length cs < fuel)%nat ->
  accepts c (qualified_loop fuel value stop) (concat (map (fun w => [TDot; TIdentifier w]) cs))
    (fun k => k <> TDot) c (fun r => r.1 = value ++ concat (map (fun w => text "." ++ w) cs)).
Proof.
  induction cs as [|w cs IH]; intros [|fuel] value stop Hf; cbn [length] in *; try lia;
    cbn [qualified_loop map concat].
  - eapply (accepts_bind _ _ _ _ _ [] []); [by apply accepts_take_not| |done]. intros r ->. apply accepts_ret.
    by rewrite app_nil_r.
  - accept_with accepts_take. intros r (sp & ->). accept. eapply accepts_weaken; [apply IH; lia|done|].
    intros [v ?] Hv. cbn [fst] in *. subst. by rewrite <- !app_assoc.
Qed.

Lemma components_nonempty w : exists x l, components w = x :: l.
Proof.
  unfold components. generalize (@nil byte). induction w as [|b w IH]; intros c; [by eexists _, _|].
  cbn [split_dots]. destruct b; eauto.
Qed.

Lemma accepts_qualified c w : accepts c qualified_identifier (qualified_tokens w) (fun k => k <> TDot) c (fun r => r.1 = w).
Proof.
  pose proof (separate_components [] w) as Hj. cbn [app] in Hj. fold (components w) in Hj. unfold qualified_tokens.
  destruct (components_nonempty w) as (x & l & E). rewrite E in *. cbn [map]. rewrite separate_cons in *. rewrite map_map.
  cbn [app]. unfold qualified_identifier. accept.
  eapply accepts_last; [apply accepts_fuel; intros fuel Hf; apply accepts_qualified_loop|].
  - eapply Nat.le_lt_trans; [|exact Hf]. clear. induction l; cbn; lia.
  - intros [v ?] Hv. cbn [fst] in Hv. accept. by rewrite Hv, separate_cons.
Qed.

(** What a value and its tree have in common. *)
Notation like erase x := (fun x' => erase x' = erase x).

Lemma accepts_operand c o : operand_ok o = true ->
  accepts c operand (operand_tokens o) any_token c (like erase_operand o).
Proof.
  unfold operand. destruct o as [f ?|p ?|[z|b|s|w] ?]; cbn [operand_ok operand_tokens]; intros Ho.
  - accept. rewrite !bool_decide_false, bool_decide_true by done. accept_with accepts_take. intros r (sp & ->).
    accept. done.
  - accept. done.
  - accept. rewrite from_str_show_int by by apply i_inb_spec. accept. done.
  - destruct b; accept; [rewrite bool_decide_true by done|rewrite bool_decide_false, bool_decide_true by done];
      by apply accepts_ret.
  - accept. done.
  - unfold symbol_ok in Ho. pose proof (separate_components [] w) as Hj. cbn [app] in Hj. fold (components w) in Hj.
    unfold qualified_tokens. destruct (components w) as [|a [|b [|]]]; try done. cbn in Hj. cbn [map separate app].
    apply andb_true_iff in Ho as [_ Hn%negb_true_iff%bool_decide_eq_false]. set_unfold in Hn.
    accept. rewrite !bool_decide_false by (intros ->; apply Hn; auto). accept_with accepts_take.
    intros r (sp & ->). accept. done.
Qed.

Lemma accepts_positive_u16 c n : 0 < n < 2 ^ 16 -> accepts c positive_u16 [TInteger (show_int n)] any_token c (fun r => r = n).
Proof.
  intros Hn. unfold positive_u16. accept. unfold show_int. destruct (Z.ltb_spec n 0); [lia|].
  rewrite from_str_show_unsigned by (unfold u_range; lia). destruct (Z.ltb_spec 0 n); [|lia]. by apply accepts_ret.
Qed.

Lemma accepts_version c : accepts c version [TInteger (show_int 1)] any_token c (fun r => r = 1).
Proof.
  unfold version. accept. change (show_int 1) with (show_unsigned 1). rewrite from_str_show_unsigned by done. cbn.
  by apply (accepts_bind c c c _ _ [] [] any_token any_token (fun r => r = 1)); [apply accepts_ret|intros ? ->; apply accepts_ret|].
Qed.

(** ** Expressions *)

(** [part] reads the conditions of fewer than [B] tokens written at this level. *)
Definition parses_at (B : nat) (level : Z) (part : Parse Expression) (G : TokenKind -> Prop) : Prop :=
  forall e d n, condition_ok e = true -> (length (expression_tokens e level) < B)%nat ->
  0 <= d -> n + nodes e <= MAX_PREDICATE_NODES -> d + paren_depth e level <= MAX_REACTIVE_NESTING ->
  accepts (d, n) part (expression_tokens e level) G (d, n + nodes e) (like erase_expression e).

Lemma nodes_pos e : 1 <= nodes e.
Proof. induction e; cbn [nodes]; lia. Qed.

Lemma paren_depth_nonneg e p : 0 <= paren_depth e p.
Proof. revert p. induction e as [|l IHl op r IHr]; intros p; cbn [paren_depth]; [lia|]. specialize (IHl (precedence op)). case_match; lia. Qed.

Lemma accepts_binary d n l op r F : n < MAX_PREDICATE_NODES ->
  accepts (d, n) (binary l op r) [] F (d, n + 1)
    (fun e => exists sp, e = Binary l op r sp).
Proof.
  intros Hn [|u0 us] t rest Hm _; [|done]. unfold binary, count_node, at_tokens. cbn [ps_predicate_nodes fst snd app].
  destruct (Z.ltb_spec MAX_PREDICATE_NODES (n + 1)); [lia|]. eexists. split; [done|eauto].
Qed.

Lemma accepts_expression_operand d n o : operand_ok o = true -> n < MAX_PREDICATE_NODES ->
  accepts (d, n) expression_operand (operand_tokens o) any_token (d, n + 1)
    (like erase_expression (EOperand o)).
Proof.
  intros Ho Hn ts t rest Hm Ht. unfold expression_operand, count_node.
  change (ps_predicate_nodes _) with n. destruct (Z.ltb_spec MAX_PREDICATE_NODES (n + 1)); [lia|].
  eapply (accepts_last (d, n + 1) (d, n + 1) (d, n + 1) operand); [by apply accepts_operand| |done..].
  intros a Ha. accept. cbn. by rewrite Ha.
Qed.

(** A form that is not a chain of this level is written as at the next one. *)
Lemma level_tokens e p : match e with Binary _ op _ _ => precedence op <> p | EOperand _ => True end ->
  expression_tokens e p = expression_tokens e (p + 1) /\ paren_depth e p = paren_depth e (p + 1).
Proof.
  destruct e as [|l op r ?]; [done|]. intros H. cbn [expression_tokens paren_depth].
  destruct (Z.ltb_spec (precedence op) p), (Z.ltb_spec (precedence op) (p + 1)); try lia; done.
Qed.

Section left.
Context (B : nat) (sep : TokenKind) (op : BinaryOperator) (part : Parse Expression) (G : TokenKind -> Prop).
Hypothesis part_ok : parses_at B (precedence op + 1) part G.
Hypothesis sep_ok : G sep /\ sep <> TEnd /\ operator_token op = sep /\ is_comparison op = false.

(** Reading a chain ends in the loop of the operator, after the chain. *)
Definition reads_chain (e : Expression) : Prop :=
  forall d n ts t rest, condition_ok e = true -> (length (expression_tokens e (precedence op)) < B)%nat ->
  0 <= d -> n + nodes e <= MAX_PREDICATE_NODES -> d + paren_depth e (precedence op) <= MAX_REACTIVE_NESTING ->
  map tk_kind ts = expression_tokens e (precedence op) -> G (tk_kind t) ->
  exists e' fuel, left_associative sep op part (at_tokens (ts ++ t :: rest) (d, n)) =
    left_loop sep op part fuel e' (at_tokens (t :: rest) (d, n + nodes e)) /\
    (length rest < fuel)%nat /\ erase_expression e' = erase_expression e.

Lemma chain_base e : match e with Binary _ o _ _ => precedence o <> precedence op | EOperand _ => True end ->
  reads_chain e.
Proof.
  intros Hlevel d n ts t rest Hc Hlen Hd Hn Hp Hm Ht. destruct (level_tokens e _ Hlevel) as [E1 E2].
  rewrite E1, E2 in *. destruct (part_ok e d n Hc Hlen Hd Hn Hp ts t rest Hm Ht) as (v & Hv & Hve).
  exists v. eexists. split; [|split; [|exact Hve]].
  - unfold left_associative. rewrite (bind_parsed _ _ _ _ _ Hv). reflexivity.
  - cbn. lia.
Qed.

Lemma take_separator u rest c : tk_kind u = sep ->
  take_token sep (at_tokens (u :: rest) c) = Parsed (Some (tk_span u)) (at_tokens rest c).
Proof.
  destruct sep_ok as (_ & Hend & _). intros Hu.
  unfold take_token, check, peek, advance, mbind, Parse_bind, mret, Parse_ret, at_tokens. cbn.
  rewrite Hu, bool_decide_true by done. cbn. by rewrite Hu, bool_decide_false.
Qed.

Lemma chain_step l r sp : reads_chain l -> reads_chain (Binary l op r sp).
Proof.
  destruct sep_ok as (Hsep & Hend & Hop & Hcmp). intros IHl d n ts t rest Hc Hlen Hd Hn Hp Hm Ht.
  cbn [condition_ok] in Hc. rewrite Hcmp in Hc. apply andb_true_iff in Hc as [Hl Hr].
  cbn [expression_tokens paren_depth nodes] in *. rewrite Z.ltb_irrefl in *.
  rewrite length_app in Hlen. cbn [length] in Hlen. pose proof (nodes_pos r).
  apply map_eq_app in Hm as (t1 & t2 & -> & Hm1 & Hm2). apply map_eq_cons in Hm2 as (u & t2' & -> & Hu & Hm2).
  rewrite <- app_assoc. cbn [app]. rewrite Hop in Hu.
  destruct (IHl d n t1 u (t2' ++ t :: rest)) as (l' & fuel & -> & Hfuel & Hle); [done|lia|done|lia|lia|done|by rewrite Hu|].
  destruct fuel as [|fuel]; [lia|]. cbn [left_loop]. rewrite (bind_parsed _ _ _ _ _ (take_separator u _ _ Hu)).
  destruct (part_ok r d (n + nodes l) Hr ltac:(lia) Hd ltac:(lia) ltac:(lia) t2' t rest Hm2 Ht) as (r' & Er & Hre).
  rewrite (bind_parsed _ _ _ _ _ Er).
  destruct (accepts_binary d (n + nodes l + nodes r) l' op r' any_token ltac:(lia) [] t rest eq_refl I) as (b & Eb & (sp' & ->)).
  cbn [app] in Eb. rewrite (bind_parsed _ _ _ _ _ Eb). exists (Binary l' op r' sp'), fuel.
  split; [by rewrite !Z.add_assoc|]. split; [rewrite length_app in Hfuel; cbn in Hfuel; lia|].
  cbn [erase_expression]. by rewrite Hle, Hre.
Qed.

Lemma left_unfolds e : reads_chain e.
Proof.
  induction e as [o|l IHl o r _ sp]; [by apply chain_base|].
  destruct (decide (precedence o = precedence op)) as [Ho|Ho]; [|by apply chain_base].
  assert (o = op) as -> by (destruct sep_ok as (_ & _ & _ & Hcmp); destruct o, op; done). by apply chain_step.
Qed.

Lemma left_parses : parses_at B (precedence op) (left_associative sep op part) (fun k => k <> sep /\ G k).
Proof.
  intros e d n Hc Hlen Hd Hn Hp ts t rest Hm [Hs Hg].
  destruct (left_unfolds e d n ts t rest Hc Hlen Hd Hn Hp Hm Hg) as (e' & fuel & -> & Hf & He).
  destruct fuel as [|fuel]; [lia|]. cbn [left_loop]. exists e'. split; [|done].
  destruct (accepts_take_not (d, n + nodes e) sep (fun k => k <> sep) ltac:(done) [] t rest eq_refl Hs) as (r & Er & ->).
  cbn [app] in Er. by rewrite (bind_parsed _ _ _ _ _ Er).
Qed.
End left.

Lemma operand_tokens_start o ks : operand_ok o = true -> exists k l, operand_tokens o ++ ks = k :: l /\ k <> TLeftParen.
Proof.
  destruct o as [f ?|p ?|[z|[]|s|w] ?]; cbn [operand_tokens operand_ok app]; intros Ho;
    try (eexists _, _; split; [reflexivity|discriminate]).
  unfold qualified_tokens, symbol_ok in *. destruct (components w) as [|a [|b [|]]]; try done.
  eexists _, _. split; [reflexivity|discriminate].
Qed.

Lemma accepts_enter d n F : 0 <= d < MAX_REACTIVE_NESTING -> accepts (d, n) enter_parenthesis [] F (d + 1, n) (fun _ => True).
Proof.
  intros Hd [|u0 us] t rest Hm _; [|done]. exists tt. unfold enter_parenthesis. cbn [ps_depth ps_tokens at_tokens fst snd].
  destruct (Z.ltb_spec MAX_REACTIVE_NESTING (d + 1)); [lia|]. done.
Qed.

Lemma accepts_leave d n F : 0 <= d -> accepts (d + 1, n) leave_parenthesis [] F (d, n) (fun _ => True).
Proof.
  intros Hd [|u0 us] t rest Hm _; [|done]. exists tt. unfold leave_parenthesis. cbn [ps_depth ps_tokens at_tokens fst snd].
  destruct (Z.leb_spec (d + 1) 0); [lia|]. unfold at_tokens. cbn [ps_predicate_nodes fst snd app]. split; [|done].
  do 2 f_equal. lia.
Qed.

Lemma comparison_token op : is_comparison op = true -> comparison_operator (operator_token op) = Some op /\ operator_token op <> TEnd.
Proof. by destruct op. Qed.

Lemma connective_tokens l op r sp : is_comparison op = false ->
  let e := Binary l op r sp in
  expression_tokens e 3 = TLeftParen :: expression_tokens e 0 ++ [TRightParen] /\ paren_depth e 3 = 1 + paren_depth e 0.
Proof. by destruct op. Qed.

Lemma comparison_parses B expression :
  parses_at B 0 expression (fun k => k <> TOr /\ k <> TAnd) -> parses_at (S B) 3 (comparison expression) any_token.
Proof.
  intros He e d n Hc Hlen Hd Hn Hp. destruct e as [|l op r sp]; [done|]. cbn [nodes] in *. destruct (is_comparison op) eqn:Ec.
  - cbn [condition_ok] in Hc. rewrite Ec in Hc. destruct l as [a|], r as [b|]; try done.
    apply andb_true_iff in Hc as [Ha Hb]. cbn [nodes] in *. destruct (comparison_token op Ec) as [Hop Hend].
    assert (expression_tokens (Binary (EOperand a) op (EOperand b) sp) 3 = operand_tokens a ++ operator_token op :: operand_tokens b)
      as -> by (by destruct op).
    unfold comparison. destruct (operand_tokens_start a (operator_token op :: operand_tokens b) Ha) as (k & ks & Ek & Hk).
    rewrite Ek. eapply accepts_look; [apply accepts_take_not; by intros t ->|]. intros x ->. rewrite <- Ek.
    eapply accepts_bind; [apply accepts_expression_operand; [done|lia]| |done]. intros l' Hl.
    eapply accepts_look; [apply accepts_peek|]. intros t Ht. rewrite Ht, Hop. accept_with accepts_advance.
    { done. }
    intros t' _.
    eapply accepts_last; [apply accepts_expression_operand; [done|lia]|]. intros r' Hr.
    replace (n + (1 + 1 + 1)) with (n + 1 + 1 + 1) by lia.
    eapply accepts_weaken; [apply accepts_binary; lia|done|]. intros ? (sp' & ->). cbn [erase_expression] in *. by rewrite Hl, Hr.
  - destruct (connective_tokens l op r sp Ec) as [Et Ep]. rewrite Et, Ep in *. cbn [length] in Hlen.
    rewrite length_app in Hlen. cbn [length] in Hlen. pose proof (paren_depth_nonneg (Binary l op r sp) 0).
    unfold comparison. accept_with accepts_take. intros x (? & ->).
    eapply (accepts_bind _ _ _ _ _ []); [apply (accepts_enter _ _ any_token); lia| |done]. intros ? _.
    eapply accepts_bind; [apply He; [done|lia|lia|cbn [nodes]; lia|lia]| |done]. intros v Hv. accept.
    eapply (accepts_bind _ _ _ _ _ [] []); [apply (accepts_leave _ _ any_token); lia| |done]. intros ? _. by apply accepts_ret.
Qed.

Lemma expression_parses fuel : parses_at fuel 0 (expression_fuel fuel) (fun k => k <> TOr /\ k <> TAnd).
Proof.
  induction fuel as [|fuel IH]; [intros e d n _ Hl; lia|]. cbn [expression_fuel]. unfold or_expression, and_expression.
  pose proof (comparison_parses _ _ IH) as H3.
  assert (parses_at (S fuel) 2 (left_associative TAnd And (comparison (expression_fuel fuel))) (fun k => k <> TAnd /\ any_token k))
    as H2 by (apply (left_parses (S fuel) TAnd And); done).
  assert (parses_at (S fuel) 1 (left_associative TOr Or (left_associative TAnd And (comparison (expression_fuel fuel))))
    (fun k => k <> TOr /\ k <> TAnd /\ any_token k)) as H1 by (apply (left_parses (S fuel) TOr Or); done).
  intros e d n Hc Hl Hd Hn Hp. destruct (level_tokens e 0) as [E1 E2]; [by destruct e as [|? []]|].
  rewrite E1, E2 in *. eapply accepts_weaken; [by apply H1|by intros k []; split_and!|done].
Qed.

Lemma accepts_expression n e : condition_ok e = true -> n + nodes e <= MAX_PREDICATE_NODES ->
  paren_depth e 0 <= MAX_REACTIVE_NESTING ->
  accepts (0, n) expression (expression_tokens e 0) (fun k => k <> TOr /\ k <> TAnd) (0, n + nodes e) (like erase_expression e).
Proof. intros Hc Hn Hp. apply accepts_fuel. intros fuel Hf. apply expression_parses; done || lia. Qed.

(** ** Lists *)
(** The names of a list so far. *)
Section names.
Context {A : Type} (name : A -> list byte) (erase : A -> A).
Hypothesis name_erase : forall x, name (erase x) = name x.

Lemma erased_name x y : erase x = erase y -> name x = name y.
Proof. intros H. by rewrite <- (name_erase x), H, name_erase. Qed.

Lemma fresh_middle (acc : list A) (x : A) (l : list A) (names : gset (list byte)) : (forall w, w ∈ names <-> w ∈ map name acc) -> NoDup (map name (acc ++ x :: l)) ->
  name x ∉ names.
Proof.
  intros Hn Hd. rewrite Hn. rewrite map_app in Hd. apply NoDup_app in Hd as (_ & Hd & _). intros Hin.
  eapply Hd; [exact Hin|apply list_elem_of_here].
Qed.

Lemma names_snoc (acc : list A) (x x' : A) (names : gset (list byte)) : (forall w, w ∈ names <-> w ∈ map name acc) -> erase x' = erase x ->
  forall w, w ∈ ({[name x]} ∪ names : gset (list byte)) <-> w ∈ map name (acc ++ [x']).
Proof. intros Hn He w. rewrite map_app, elem_of_app, <- Hn, elem_of_union, elem_of_singleton. cbn. rewrite (erased_name _ _ He). set_solver. Qed.

End names.

Section comma_items.
Context {A : Type} (limit : option Z) (item : Parse (A * Span)) (name : A -> list byte)
  (tokens : A -> list TokenKind) (ok : A -> Prop) (erase : A -> A) (c : Z * Z).
Hypothesis item_ok : forall x, ok x ->
  accepts c item (tokens x) (fun k => k = TComma \/ k = TRightParen) c (fun r => erase r.1 = erase x).
Hypothesis name_erase : forall x, name (erase x) = name x.

Definition within_limit (l : list A) : Prop := match limit with Some m => zlen l <= m | None => True end.

(** One turn, up to the comma. *)
Lemma accepts_comma_turn x more fuel acc names F Q : ok x -> name x ∉ names -> within_limit (acc ++ [x]) ->
  (forall k, F k -> next more k = TComma \/ next more k = TRightParen) ->
  (forall x', erase x' = erase x ->
    accepts c (comma ← take_token TComma;
               match comma with
               | Some _ => comma_loop limit item name fuel (acc ++ [x']) ({[name x]} ∪ names)
               | None => mret (acc ++ [x'])
               end) more F c Q) ->
  accepts c (comma_loop limit item name (S fuel) acc names) (tokens x ++ more) F c Q.
Proof.
  intros Hx Hfresh Hlim Hnext Hk. cbn [comma_loop].
  match goal with |- accepts _ (match limit with Some _ => bounded _ _ ?t | None => _ end) _ _ _ _ =>
    assert (match limit with Some limit => bounded limit (zlen acc) t | None => t end = t) as ->
  end.
  { unfold within_limit in Hlim. destruct limit as [m|]; [|done]. rewrite zlen_app, zlen_cons, zlen_nil in Hlim.
    unfold bounded. destruct (Z.leb_spec m (zlen acc)); [lia|done]. }
  eapply accepts_bind; [by apply item_ok| |done]. intros [x' sp] He. cbn [fst] in He.
  specialize (Hk x' He). rewrite <- (erased_name name erase name_erase _ _ He) in Hfresh, Hk.
  unfold fresh_name. by rewrite bool_decide_false by done.
Qed.

Lemma within_limit_prefix a b : within_limit (a ++ b) -> within_limit a.
Proof. unfold within_limit. destruct limit; [|done]. rewrite zlen_app. pose proof (zlen_nonneg b). lia. Qed.

Lemma accepts_comma_loop l : forall x fuel acc names, Forall ok (x :: l) ->
  (forall w, w ∈ names <-> w ∈ map name acc) -> NoDup (map name (acc ++ x :: l)) -> within_limit (acc ++ x :: l) ->
  (length l < fuel)%nat ->
  accepts c (comma_loop limit item name fuel acc names) (separate [TComma] (map tokens (x :: l)))
    (fun k => k = TRightParen) c (fun r => map erase r = map erase (acc ++ x :: l)).
Proof.
  induction l as [|y l IH]; intros x [|fuel] acc names Hok Hnames Hnd Hlim Hf; try (cbn in Hf; lia);
    apply Forall_cons in Hok as [Hx Hok]; pose proof (fresh_middle name _ _ _ _ Hnames Hnd) as Hfresh.
  - cbn [map separate]. rewrite <- (app_nil_r (tokens x)). apply accepts_comma_turn; [done..|by intros k ->; right|].
    intros x' He. eapply accepts_last; [apply accepts_take_not; by intros t ->|].
    intros r ->. apply accepts_ret. rewrite !map_app. cbn [map]. by rewrite He.
  - change (separate [TComma] (map tokens (x :: y :: l))) with (tokens x ++ [TComma] ++ separate [TComma] (map tokens (y :: l))).
    change (acc ++ x :: y :: l) with (acc ++ [x] ++ y :: l) in *. rewrite app_assoc in Hlim.
    apply accepts_comma_turn; [done..|by eapply within_limit_prefix|by left|]. intros x' He. cbn [app].
    accept_with accepts_take. intros r (sp & ->).
    assert (map name ((acc ++ [x']) ++ y :: l) = map name (acc ++ [x] ++ y :: l)) as En
      by (rewrite <- app_assoc, !map_app; cbn [map]; by rewrite (erased_name name erase name_erase _ _ He)).
    eapply accepts_weaken; [apply (IH y)| done|].
    + done.
    + by apply (names_snoc name erase).
    + by rewrite En.
    + unfold within_limit in *. destruct limit; [|done]. autorewrite with zlen in *. lia.
    + cbn in Hf. lia.
    + intros r ->. rewrite <- app_assoc, !map_app. cbn [map]. by rewrite He.
Qed.

Lemma accepts_comma_items x l : Forall ok (x :: l) -> NoDup (map name (x :: l)) -> within_limit (x :: l) ->
  accepts c (comma_items limit item name) (separate [TComma] (map tokens (x :: l)))
    (fun k => k = TRightParen) c (fun r => map erase r = map erase (x :: l)).
Proof.
  intros Hok Hnd Hlim. apply accepts_fuel. intros fuel Hf. apply (accepts_comma_loop l x fuel [] ∅); [done| |done..|].
  { intros w. cbn. set_solver. }
  eapply Nat.le_lt_trans; [|exact Hf]. cbn [map]. rewrite separate_cons, length_app, map_map. clear.
  induction l as [|y l IH]; [cbn; lia|]. cbn [map concat app length] in *. rewrite length_app. lia.
Qed.
End comma_items.

Lemma accepts_optional_none {A} c (items : Parse (list A)) (Q : list A -> Prop) : Q [] ->
  accepts c (optional_items items) (parenthesized []) any_token c Q.
Proof.
  intros HQ. unfold optional_items, parenthesized. cbn [separate app]. accept.
  eapply accepts_look; [by apply accepts_check|]. intros b ->.
  eapply (accepts_bind _ _ _ _ _ []); [by apply (accepts_ret _ _ any_token (fun r => r = []))| |done].
  intros r ->. accept. done.
Qed.

Lemma accepts_optional {A} c (items : Parse (list A)) kinds (Q : list A -> Prop) : next kinds TRightParen <> TRightParen ->
  accepts c items kinds (fun k => k = TRightParen) c Q ->
  accepts c (optional_items items) (TLeftParen :: kinds ++ [TRightParen]) any_token c Q.
Proof.
  intros Hk Hi. destruct kinds as [|k ks]; [done|]. unfold optional_items. accept. cbn [app next] in *.
  eapply accepts_look; [apply accepts_check_not; by intros t ->|]. intros b ->.
  eapply (accepts_bind _ _ _ _ _ (k :: ks) [TRightParen]); [exact Hi| |done]. intros r Hr. accept. done.
Qed.

Lemma forallb_Forall_true {A} (p : A -> bool) l : forallb p l = true -> Forall (fun x => p x = true) l.
Proof. apply forallb_Forall_impl. auto. Qed.

Lemma distinct_NoDup l : distinct l = true -> NoDup l.
Proof. apply bool_decide_eq_true. Qed.

Lemma accepts_parameter_item c p : parameter_ok (pa_name p) && qualified_ok (pa_type_name p) = true ->
  accepts c parameter_item (TParameter (pa_name p) :: TColon :: qualified_tokens (pa_type_name p))
    (fun k => k = TComma \/ k = TRightParen) c (fun r => erase_parameter r.1 = erase_parameter p).
Proof.
  intros _. unfold parameter_item. accept. eapply accepts_last.
  - eapply accepts_weaken; [apply accepts_qualified|by intros k [->| ->]|done].
  - intros [w ?] Hw. cbn [fst] in Hw. subst w. accept. done.
Qed.

Lemma accepts_parameters c l : parameters_ok l = true ->
  accepts c parameters (parameters_tokens l) any_token c (fun r => map erase_parameter r = map erase_parameter l).
Proof.
  unfold parameters_ok, parameters_tokens, parameters. intros H. ok_split.
  destruct l as [|p l]; [by apply accepts_optional_none|]. apply accepts_optional.
  { cbn [map]. by rewrite separate_cons. }
  apply (accepts_comma_items (Some _) _ pa_name (fun p => TParameter (pa_name p) :: TColon :: qualified_tokens (pa_type_name p))
    (fun p => parameter_ok (pa_name p) && qualified_ok (pa_type_name p) = true) erase_parameter);
    [apply accepts_parameter_item|done|by apply forallb_Forall_true|by apply distinct_NoDup|unfold within_limit; lia].
Qed.

Lemma accepts_argument_item c a : identifier_ok (ag_name a) && operand_ok (ag_value a) = true ->
  accepts c argument_item (TIdentifier (ag_name a) :: TEqual :: operand_tokens (ag_value a))
    (fun k => k = TComma \/ k = TRightParen) c (fun r => erase_argument r.1 = erase_argument a).
Proof.
  intros H. ok_split. unfold argument_item. accept. eapply accepts_last.
  - eapply accepts_weaken; [by apply accepts_operand|done|done].
  - intros o Ho. accept. cbn. unfold erase_argument. cbn. by rewrite Ho.
Qed.

Lemma accepts_arguments c l : arguments_ok l = true ->
  accepts c arguments (arguments_tokens l) any_token c (fun r => map erase_argument r = map erase_argument l).
Proof.
  unfold arguments_ok, arguments_tokens, arguments. intros H. ok_split.
  destruct l as [|p l]; [by apply accepts_optional_none|]. apply accepts_optional.
  { cbn [map]. by rewrite separate_cons. }
  apply (accepts_comma_items (Some _) _ ag_name (fun a => TIdentifier (ag_name a) :: TEqual :: operand_tokens (ag_value a))
    (fun a => identifier_ok (ag_name a) && operand_ok (ag_value a) = true) erase_argument);
    [apply accepts_argument_item|done|by apply forallb_Forall_true|by apply distinct_NoDup|unfold within_limit; lia].
Qed.

Lemma accepts_partition_item c b : identifier_ok (pb_field b) && parameter_ok (pb_parameter b) = true ->
  accepts c partition_item [TIdentifier (pb_field b); TEqual; TParameter (pb_parameter b)]
    (fun k => k = TComma \/ k = TRightParen) c (fun r => erase_partition r.1 = erase_partition b).
Proof. intros _. unfold partition_item. accept. done. Qed.

Lemma accepts_partition c l : partition_ok l = true ->
  accepts c partition_bindings (partition_tokens l) any_token c (fun r => map erase_partition r = map erase_partition l).
Proof.
  unfold partition_ok, partition_tokens, partition_bindings. intros H. ok_split. destruct l as [|b l]; [done|].
  unfold parenthesized. accept. eapply (accepts_bind _ _ _ _ _ _ _ (fun k => k = TRightParen)); [| |done].
  - apply (accepts_comma_items (Some _) _ pb_field (fun b => [TIdentifier (pb_field b); TEqual; TParameter (pb_parameter b)])
      (fun b => identifier_ok (pb_field b) && parameter_ok (pb_parameter b) = true) erase_partition);
      [apply accepts_partition_item|done|by apply forallb_Forall_true|by apply distinct_NoDup|unfold within_limit; lia].
  - intros r Hr. cbn beta in Hr. accept. done.
Qed.

Lemma accepts_event c e : event_ok e = true ->
  accepts c event_selection (event_tokens e) any_token c (fun r => erase_event r = erase_event e).
Proof.
  unfold event_ok, event_tokens, event_selection. intros H. ok_split. destruct (es_fields e) as [|f l] eqn:Ef; [done|].
  unfold parenthesized. cbn [app]. rewrite <- app_assoc. cbn [app]. accept. eapply (accepts_bind _ _ _ _ _ _ _ (fun k => k = TRightParen)); [| |done].
  - apply (accepts_comma_items None identifier (fun f => f) (fun f => [TIdentifier f]) (fun f => identifier_ok f = true) (fun f => f));
      [|done|by apply forallb_Forall_true|rewrite map_id; by apply distinct_NoDup|done].
    intros x _. eapply accepts_weaken; [apply accepts_identifier|done|done].
  - intros r Hr. cbn beta in Hr. rewrite !map_id in Hr. subst r. accept. unfold erase_event. by rewrite Ef.
Qed.

Lemma accepts_hydration c h : hydration_ok h = true ->
  accepts c hydration (hydration_tokens h) any_token c (fun r => erase_hydration r = erase_hydration h).
Proof.
  unfold hydration_ok, hydration_tokens, hydration. intros H. ok_split. accept.
  eapply accepts_bind; [by apply accepts_arguments| |done]. intros l Hl. cbn beta in Hl. accept.
  unfold erase_hydration. cbn. by rewrite Hl.
Qed.

Lemma accepts_reaction c r : reaction_ok r = true ->
  accepts c reaction (reaction_tokens r) any_token c (fun r' => erase_reaction r' = erase_reaction r).
Proof. intros _. unfold reaction_tokens, reaction. accept. done. Qed.

(** ** Items that start with a keyword *)
Section keyword_items.
Context {A : Type} (word : list byte) (limit : Z) (item : Parse A) (name : A -> list byte) (span : A -> Span)
  (exceeds : list A -> A -> bool) (tokens : A -> list TokenKind) (ok : A -> bool) (erase : A -> A) (c : Z * Z)
  (fits : list A -> Prop).
Hypothesis item_ok : forall x, ok x = true -> accepts c item (tokens x) any_token c (fun r => erase r = erase x).
Hypothesis item_start : forall x k, next (tokens x) k = TIdentifier word.
Hypothesis name_erase : forall x, name (erase x) = name x.
Hypothesis fits_exceeds : forall l x, fits (l ++ [x]) -> exceeds l x = false.
Hypothesis fits_prefix : forall a b, fits (a ++ b) -> fits a.
Hypothesis fits_erase : forall a b, map erase a = map erase b -> fits a -> fits b.

Lemma accepts_keyword_loop l : forall fuel acc names, forallb ok l = true ->
  (forall w, w ∈ names <-> w ∈ map name acc) -> NoDup (map name (acc ++ l)) -> zlen (acc ++ l) <= limit -> fits (acc ++ l) ->
  (length l < fuel)%nat ->
  accepts c (keyword_loop word limit item name span exceeds fuel acc names) (concat (map tokens l))
    (fun k => k <> TIdentifier word) c (fun r => map erase r = map erase (acc ++ l)).
Proof.
  induction l as [|x l IH]; intros [|fuel] acc names Hok Hnames Hnd Hlim Hfits Hf; try (cbn in Hf; lia); cbn [keyword_loop map concat].
  { eapply accepts_last; [by apply accepts_at_word_not|]. intros b ->. apply accepts_ret. by rewrite app_nil_r. }
  cbn [forallb] in Hok. apply andb_true_iff in Hok as [Hx Hok].
  pose proof (fresh_middle name _ _ _ _ Hnames Hnd) as Hfresh.
  assert (exists k ks, tokens x ++ concat (map tokens l) = k :: ks /\ k = TIdentifier word) as (k & ks & Ek & ->).
  { pose proof (item_start x TEnd). destruct (tokens x); [done|]. cbn in *. eauto. }
  rewrite Ek. eapply accepts_look; [eapply accepts_weaken; [apply (accepts_at_word _ _ any_token)|by intros k ->|done]|].
  intros b ->. rewrite <- Ek. cbn [negb]. unfold bounded. rewrite zlen_app, zlen_cons in Hlim. pose proof (zlen_nonneg l).
  destruct (Z.leb_spec limit (zlen acc)); [lia|]. eapply accepts_bind; [by apply item_ok| |done].
  intros x' He. change (acc ++ x :: l) with (acc ++ [x] ++ l) in *.
  assert (map erase (acc ++ [x']) = map erase (acc ++ [x])) as Ea by (rewrite !map_app; cbn [map]; by rewrite He).
  assert (map erase ((acc ++ [x']) ++ l) = map erase (acc ++ [x] ++ l)) as El by (by rewrite (app_assoc acc), !(map_app erase (acc ++ _)), Ea).
  assert (name x' = name x) as Ename by (by rewrite <- (name_erase x'), He, name_erase).
  rewrite fits_exceeds by (apply (fits_erase (acc ++ [x])); [done|]; rewrite app_assoc in Hfits; by eapply fits_prefix).
  unfold fresh_name. rewrite Ename, bool_decide_false by done. eapply accepts_weaken; [apply IH|done|].
  - done.
  - by apply (names_snoc name erase).
  - rewrite <- app_assoc, !map_app. rewrite !map_app in Hnd. cbn [map] in *. by rewrite Ename.
  - autorewrite with zlen in *. lia.
  - by eapply fits_erase.
  - cbn in Hf. lia.
  - intros r ->. exact El.
Qed.

Lemma accepts_keyword_items l : forallb ok l = true -> NoDup (map name l) -> zlen l <= limit -> fits l ->
  accepts c (keyword_items word limit item name span exceeds) (concat (map tokens l))
    (fun k => k <> TIdentifier word) c (fun r => map erase r = map erase l).
Proof.
  intros Hok Hnd Hlim Hfits. apply accepts_fuel. intros fuel Hf. apply (accepts_keyword_loop l fuel [] ∅); [done| |done..|].
  { intros w. cbn. set_solver. }
  eapply Nat.le_lt_trans; [|exact Hf]. clear -item_start. induction l as [|x l IH]; [cbn; lia|]. cbn [map concat length].
  rewrite length_app. pose proof (item_start x TEnd). destruct (tokens x); [done|]. cbn. lia.
Qed.
End keyword_items.

(** ** Definitions *)
Lemma selected_fields_app a b : selected_fields (a ++ b) = selected_fields a + selected_fields b.
Proof. unfold selected_fields. induction a as [|e a IH]; cbn [app fold_right]; [lia|]. rewrite IH. lia. Qed.

Lemma selected_fields_nonneg l : 0 <= selected_fields l.
Proof. unfold selected_fields. induction l as [|e l IH]; cbn [fold_right]; [lia|]. pose proof (zlen_nonneg (es_fields e)). lia. Qed.

Lemma selected_fields_erase a b : map erase_event a = map erase_event b -> selected_fields a = selected_fields b.
Proof.
  revert b. unfold selected_fields. induction a as [|x a IH]; intros [|y b] H; try done. cbn in H. injection H as _ Hf H.
  cbn [fold_right]. by rewrite Hf, (IH _ H).
Qed.

Lemma accepts_events c l : forallb event_ok l = true -> NoDup (map es_event l) -> zlen l <= MAX_STREAM_EVENT_TYPES ->
  selected_fields l <= MAX_STREAM_SELECTED_FIELDS ->
  accepts c (keyword_items (text "event") MAX_STREAM_EVENT_TYPES event_selection es_event es_span events_exceed)
    (concat (map event_tokens l)) (fun k => k <> word "event") c (fun r => map erase_event r = map erase_event l).
Proof.
  apply (accepts_keyword_items _ _ _ _ _ _ _ event_ok erase_event c (fun l => selected_fields l <= MAX_STREAM_SELECTED_FIELDS)).
  - apply accepts_event.
  - done.
  - done.
  - intros a x H. unfold events_exceed. rewrite selected_fields_app in H. unfold selected_fields in H at 2. cbn in H. lia.
  - intros a b. rewrite selected_fields_app. pose proof (selected_fields_nonneg b). lia.
  - intros a b E. by rewrite (selected_fields_erase _ _ E).
Qed.

Lemma accepts_hydrations c l : forallb hydration_ok l = true -> NoDup (map hy_name l) -> zlen l <= MAX_SUBSCRIPTION_HYDRATIONS ->
  accepts c (keyword_items (text "hydrate") MAX_SUBSCRIPTION_HYDRATIONS hydration hy_name hy_span no_bound)
    (concat (map hydration_tokens l)) (fun k => k <> word "hydrate") c (fun r => map erase_hydration r = map erase_hydration l).
Proof.
  intros H1 H2 H3. apply (accepts_keyword_items _ _ _ _ _ _ _ hydration_ok erase_hydration c (fun _ => True)); try done.
  apply accepts_hydration.
Qed.

Lemma accepts_reactions c l : forallb reaction_ok l = true -> NoDup (map re_name l) -> zlen l <= MAX_SUBSCRIPTION_REACTIONS ->
  accepts c (keyword_items (text "reaction") MAX_SUBSCRIPTION_REACTIONS reaction re_name re_span no_bound)
    (concat (map reaction_tokens l)) (fun k => k <> word "reaction") c (fun r => map erase_reaction r = map erase_reaction l).
Proof.
  intros H1 H2 H3. apply (accepts_keyword_items _ _ _ _ _ _ _ reaction_ok erase_reaction c (fun _ => True)); try done.
  apply accepts_reaction.
Qed.

Lemma accepts_limits c l : limits_ok l = true ->
  accepts c limits (limits_tokens l) any_token c (fun r => erase_limits r = erase_limits l).
Proof.
  unfold limits_ok, limits_tokens, limits. intros H. ok_split. accept.
  accept_with accepts_positive_u16; [lia|]. intros b ->. accept.
  accept_with accepts_positive_u16; [lia|]. intros f ->. accept.
  accept_with accepts_positive_u16; [lia|]. intros s ->. accept. cbn zeta.
  assert (negb (within 1 8 (li_batch l)) || negb (within 1 8 (li_in_flight l)) || negb (within 5 900 (li_lease_seconds l)) = false)
    as -> by (unfold within; lia).
  assert (forall z, 1 <= z <= 8 -> u_checked 8 z = Some z) as Hu by (intros z Hz; apply u_checked_Some; unfold u_range; lia).
  rewrite !Hu by lia. by apply accepts_ret.
Qed.

(** The nodes counted after a predicate. *)
Definition counted (p : option Expression) (n : Z) : Z := match p with Some e => nodes e | None => n end.

Lemma accepts_reset n F : accepts (0, n) reset_predicate_nodes [] F (0, 0) (fun _ => True).
Proof. intros [|u0 us] t rest Hm _; [|done]. by exists tt. Qed.

Lemma accepts_predicate n p : match p with Some e => predicate_ok e | None => true end = true ->
  accepts (0, n) where_clause (predicate_tokens p) (fun k => k = TRightBrace) (0, counted p n)
    (fun r => erase_expression <$> r = erase_expression <$> p).
Proof.
  unfold where_clause. destruct p as [e|]; cbn [predicate_tokens counted]; intros H.
  - unfold predicate_ok in H. ok_split.
    eapply accepts_look; [eapply accepts_weaken; [apply (accepts_at_word _ _ any_token)|by intros k ->|done]|]. intros b ->.
    accept. eapply (accepts_bind _ _ _ _ _ []); [apply (accepts_reset _ any_token)| |done]. intros ? _.
    eapply accepts_bind; [apply (accepts_expression 0 e); done || lia| |done]. intros e' He. accept. cbn. by rewrite He.
  - eapply accepts_last; [apply accepts_at_word_not; by intros t ->|]. intros b ->. by apply accepts_ret.
Qed.

Lemma accepts_stream n s : stream_ok s = true ->
  accepts (0, n) stream (stream_tokens s) any_token (0, counted (sm_predicate s) n) (fun r => erase_stream r = erase_stream s).
Proof.
  unfold stream_ok, stream_tokens, stream. intros H. ok_split. accept.
  eapply accepts_bind; [by apply accepts_parameters| |done]. intros ps Hps. accept.
  eapply accepts_bind; [by apply accepts_partition| |done]. intros pb Hpb. accept.
  eapply accepts_bind; [apply accepts_events; [done|by apply distinct_NoDup|lia|lia]| |].
  - intros es Hes. cbn beta in *.
    assert (es <> []) as Hne by (intros ->; destruct (sm_events s); done). rewrite bool_decide_false by done.
    eapply accepts_bind; [by apply accepts_predicate| |done]. intros p Hp. accept.
    unfold erase_stream. cbn. by rewrite Hps, Hpb, Hes, Hp.
  - intros k _. destruct (sm_predicate s); cbn; discriminate.
Qed.

Lemma accepts_watch c w : watch_ok w = true ->
  accepts c watch (watch_tokens w) any_token c (fun r => erase_watch r = erase_watch w).
Proof.
  unfold watch_ok, watch_tokens, watch, update_mode. intros H. ok_split. accept.
  eapply accepts_bind; [by apply accepts_parameters| |done]. intros ps Hps. cbn beta in Hps. accept.
  eapply (accepts_bind _ _ _ _ _ [_] [_] any_token _ (fun m => m = wa_update_mode w)); [| |done].
  - destruct (wa_update_mode w); cbn [mode_token].
    + accept. rewrite bool_decide_true by done. by apply accepts_ret.
    + accept. rewrite bool_decide_false, bool_decide_true by done. by apply accepts_ret.
  - intros m ->. accept. unfold erase_watch. cbn. by rewrite Hps.
Qed.

Lemma accepts_subscription c s : subscription_ok s = true ->
  accepts c subscription (subscription_tokens s) any_token c (fun r => erase_subscription r = erase_subscription s).
Proof.
  unfold subscription_ok, subscription_tokens, subscription. intros H. ok_split. accept.
  eapply accepts_bind; [by apply accepts_parameters| |done]. intros ps Hps. accept.
  eapply accepts_bind; [by apply accepts_arguments| |done]. intros ar Har. accept. cbn zeta.
  eapply accepts_bind; [apply accepts_hydrations; [done|by apply distinct_NoDup|lia]| |].
  2: { intros k _. destruct (su_reactions s); cbn; discriminate. }
  intros hs Hhs. eapply accepts_bind; [apply accepts_reactions; [done|by apply distinct_NoDup|lia]| |done].
  intros rs Hrs. eapply accepts_bind; [by apply accepts_limits| |done]. intros li Hli. accept. cbn beta in *.
  unfold erase_subscription, erase_binding. cbn. by rewrite Hps, Har, Hhs, Hrs, Hli.
Qed.

(** ** The module *)
Inductive definition := DStream (s : Stream) | DWatch (w : Watch) | DSubscription (s : Subscription).

Definition definition_tokens (d : definition) : list TokenKind :=
  match d with DStream s => stream_tokens s | DWatch w => watch_tokens w | DSubscription s => subscription_tokens s end.
Definition definition_ok (d : definition) : bool :=
  match d with DStream s => stream_ok s | DWatch w => watch_ok w | DSubscription s => subscription_ok s end.
Definition definition_name (d : definition) : list byte :=
  match d with DStream s => sm_name s | DWatch w => wa_name w | DSubscription s => su_name s end.

Definition streams_of (l : list definition) := omap (fun d => match d with DStream s => Some s | _ => None end) l.
Definition watches_of (l : list definition) := omap (fun d => match d with DWatch w => Some w | _ => None end) l.
Definition subscriptions_of (l : list definition) := omap (fun d => match d with DSubscription s => Some s | _ => None end) l.

Lemma accepts_peek_word c w : accepts c peek_word [] (fun t => t = TIdentifier w) c (fun r => r = Some w).
Proof.
  eapply accepts_last; [apply accepts_peek|]. intros t Ht. cbn beta in Ht. rewrite Ht. by apply accepts_ret.
Qed.

(** A turn of the loop up to the keyword of a definition. *)
Lemma accepts_definition_start c c' fuel ss ws us names w kinds F Q :
  zlen ss + zlen ws + zlen us < MAX_REACTIVE_DEFINITIONS ->
  accepts c (if bool_decide (w = text "stream") then
      value ← stream;
      fresh_name names (sm_name value) (sm_span value)
        (definitions_loop fuel (ss ++ [value]) ws us ({[sm_name value]} ∪ names))
    else if bool_decide (w = text "watch") then
      value ← watch;
      fresh_name names (wa_name value) (wa_span value)
        (definitions_loop fuel ss (ws ++ [value]) us ({[wa_name value]} ∪ names))
    else if bool_decide (w = text "subscription") then
      value ← subscription;
      fresh_name names (su_name value) (su_span value)
        (definitions_loop fuel ss ws (us ++ [value]) ({[su_name value]} ∪ names))
    else reject_here UnsupportedForm) (TIdentifier w :: kinds) F c' Q ->
  accepts c (definitions_loop (S fuel) ss ws us names) (TIdentifier w :: kinds) F c' Q.
Proof.
  intros Hlim H. cbn [definitions_loop]. eapply accepts_look; [apply accepts_check_not; by intros t ->|]. intros b ->.
  unfold bounded. destruct (Z.leb_spec MAX_REACTIVE_DEFINITIONS (zlen ss + zlen ws + zlen us)); [lia|].
  eapply accepts_look; [apply accepts_peek_word|]. intros r ->. exact H.
Qed.

(** The nodes counted after definitions. *)
Definition counted_after (l : list definition) (n : Z) : Z :=
  fold_left (fun n d => match d with DStream s => counted (sm_predicate s) n | _ => n end) l n.

(** A parsed definition that differs from the written one in its spans. *)
Lemma snoc_like {A} (erase : A -> A) (a : list A) (x x' : A) (l : list A) : erase x' = erase x ->
  map erase ((a ++ [x']) ++ l) = map erase (a ++ x :: l).
Proof. intros H. rewrite <- app_assoc, !map_app. cbn [map app]. by rewrite H. Qed.

Lemma accepts_definitions_loop l : forall n fuel ss ws us names, forallb definition_ok l = true ->
  NoDup (map definition_name l) -> (forall d, d ∈ l -> definition_name d ∉ names) ->
  zlen ss + zlen ws + zlen us + zlen l <= MAX_REACTIVE_DEFINITIONS -> (length l < fuel)%nat ->
  accepts (0, n) (definitions_loop fuel ss ws us names) (concat (map definition_tokens l))
    (fun k => k = TRightBrace) (0, counted_after l n)
    (fun r => map erase_stream r.1.1 = map erase_stream (ss ++ streams_of l) /\
              map erase_watch r.1.2 = map erase_watch (ws ++ watches_of l) /\
              map erase_subscription r.2 = map erase_subscription (us ++ subscriptions_of l)).
Proof.
  induction l as [|d l IH]; intros n [|fuel] ss ws us names Hok Hnd Hfresh Hlim Hf; try (cbn in Hf; lia).
  { cbn [definitions_loop map concat]. eapply accepts_last; [by apply accepts_check|].
    intros b ->. apply accepts_ret. cbn. by rewrite !app_nil_r. }
  cbn [forallb map] in *. apply andb_true_iff in Hok as [Hd Hok]. apply NoDup_cons in Hnd as [Hnin Hnd].
  rewrite zlen_cons in Hlim. pose proof (zlen_nonneg l).
  assert (definition_name d ∉ names) as Hd' by (apply Hfresh; set_solver).
  assert (forall d', d' ∈ l -> definition_name d' ∉ ({[definition_name d]} ∪ names : gset (list byte))) as Hfresh'.
  { intros d' Hin. rewrite not_elem_of_union, not_elem_of_singleton. split; [|apply Hfresh; set_solver].
    intros E. apply Hnin. rewrite <- E. by apply list_elem_of_fmap_2. }
  destruct d as [s|w|s]; cbn [definition_ok definition_name definition_tokens concat] in *;
    apply accepts_definition_start; try lia; rewrite ?bool_decide_false, bool_decide_true by done.
  - eapply (accepts_bind _ _ _ _ _ (stream_tokens s)); [by apply accepts_stream| |done]. intros s' He. cbn beta in He.
    assert (sm_name s' = sm_name s) as -> by (by injection He). unfold fresh_name. rewrite bool_decide_false by done.
    eapply accepts_weaken; [apply IH; [done..|autorewrite with zlen; lia|cbn in Hf; lia]|done|].
    intros r. by rewrite (snoc_like erase_stream _ _ _ _ He).
  - eapply (accepts_bind _ _ _ _ _ (watch_tokens w)); [by apply accepts_watch| |done]. intros s' He. cbn beta in He.
    assert (wa_name s' = wa_name w) as -> by (by injection He). unfold fresh_name. rewrite bool_decide_false by done.
    eapply accepts_weaken; [apply IH; [done..|autorewrite with zlen; lia|cbn in Hf; lia]|done|].
    intros r. by rewrite (snoc_like erase_watch _ _ _ _ He).
  - eapply (accepts_bind _ _ _ _ _ (subscription_tokens s)); [by apply accepts_subscription| |done]. intros s' He. cbn beta in He.
    assert (su_name s' = su_name s) as -> by (by injection He). unfold fresh_name. rewrite bool_decide_false by done.
    eapply accepts_weaken; [apply IH; [done..|autorewrite with zlen; lia|cbn in Hf; lia]|done|].
    intros r. by rewrite (snoc_like erase_subscription _ _ _ _ He).
Qed.

(** The definitions of a module in the order of the formatter. *)
Definition definitions (m : ReactiveModule) : list definition :=
  map DStream (md_streams m) ++ map DWatch (md_watches m) ++ map DSubscription (md_subscriptions m).

Lemma omap_map_some {A B C} (f : A -> B) (g : B -> option C) (h : A -> C) l : (forall x, g (f x) = Some (h x)) ->
  omap g (map f l) = map h l.
Proof. intros H. induction l as [|x l IH]; [done|]. cbn. by rewrite H, <- IH. Qed.
Lemma omap_map_none {A B C} (f : A -> B) (g : B -> option C) l : (forall x, g (f x) = None) -> omap g (map f l) = [].
Proof. intros H. induction l as [|x l IH]; [done|]. cbn. by rewrite H. Qed.

Lemma definitions_parts m : streams_of (definitions m) = md_streams m /\ watches_of (definitions m) = md_watches m /\
  subscriptions_of (definitions m) = md_subscriptions m.
Proof.
  unfold streams_of, watches_of, subscriptions_of, definitions. rewrite !omap_app.
  split_and!; repeat first [rewrite (omap_map_some _ _ (fun x => x)) by done | rewrite omap_map_none by done];
    by rewrite map_id, ?app_nil_r.
Qed.

Lemma definitions_tokens m : concat (map definition_tokens (definitions m)) =
  concat (map stream_tokens (md_streams m)) ++ concat (map watch_tokens (md_watches m)) ++
  concat (map subscription_tokens (md_subscriptions m)).
Proof. unfold definitions. by rewrite !map_app, !concat_app, !map_map. Qed.

Lemma definitions_ok m : module_ok m = true -> forallb definition_ok (definitions m) = true /\
  NoDup (map definition_name (definitions m)) /\ zlen (definitions m) <= MAX_REACTIVE_DEFINITIONS.
Proof.
  unfold module_ok, definitions, operation_names. intros H. ok_split.
  assert (forall A (p : A -> bool) (f : A -> definition) l, (forall x, definition_ok (f x) = p x) ->
    forallb p l = true -> forallb definition_ok (map f l) = true) as Hmap.
  { intros A p f l E Hl. rewrite forallb_forall in *. intros x (y & <- & Hy)%in_map_iff. rewrite E. by apply Hl. }
  split_and!.
  - rewrite !forallb_app, !andb_true_iff. split_and!; eapply Hmap; done.
  - rewrite !map_app, !map_map. by apply distinct_NoDup.
  - autorewrite with zlen in *. unfold zlen in *. rewrite !length_map in *. lia.
Qed.

(** The end of the tokens is looked at, not consumed. *)
Lemma accepts_end c : accepts c (expect TEnd) [] (fun k => k = TEnd) c (fun _ => True).
Proof.
  intros [|u0 us] t rest Hm Ht; [|done]. exists (tk_span t). split; [|done].
  assert (check TEnd (at_tokens (t :: rest) c) = Parsed true (at_tokens (t :: rest) c)) as Hc
    by (unfold check; erewrite bind_parsed by reflexivity; by rewrite bool_decide_true).
  assert (advance (at_tokens (t :: rest) c) = Parsed t (at_tokens (t :: rest) c)) as Ha
    by (unfold advance; cbn [at_tokens ps_tokens]; by rewrite bool_decide_true).
  unfold expect, take_token. cbn [app].
  erewrite bind_parsed; [|erewrite bind_parsed by exact Hc; cbn beta iota; erewrite bind_parsed by exact Ha; reflexivity].
  reflexivity.
Qed.

Lemma accepts_module m : module_ok m = true ->
  accepts (0, 0) module_ (module_tokens m) (fun k => k = TEnd) (0, counted_after (definitions m) 0)
    (fun r => erase_module r = erase_module m).
Proof.
  intros Hm. destruct (definitions_ok m Hm) as (Hok & Hnd & Hlen). pose proof (definitions_parts m) as (E1 & E2 & E3).
  unfold module_ok in Hm. ok_split. assert (md_version m = 1) as Hv by lia. unfold module_tokens, module_. rewrite Hv. accept.
  accept_with accepts_version. intros v ->. accept. rewrite !app_assoc, <- (app_assoc (concat _)), <- definitions_tokens.
  eapply (accepts_bind _ _ _ _ _ _ _ (fun k => k = TRightBrace)).
  - apply accepts_fuel. intros fuel Hf. apply accepts_definitions_loop; [done..|set_solver|change (zlen (definitions m) <= MAX_REACTIVE_DEFINITIONS); lia|].
    eapply Nat.le_lt_trans; [|exact Hf]. clear. induction (definitions m) as [|d l IH]; [cbn; lia|]. cbn [map concat length].
    rewrite length_app. destruct d; cbn; lia.
  - intros [[ss ws] us] (Hs & Hw & Hu). cbn [fst snd app] in *. rewrite E1, E2, E3 in *. accept.
    eapply accepts_last.
    + apply accepts_end.
    + intros ? _. accept. unfold erase_module. cbn. by rewrite Hs, Hw, Hu, Hv.
  - done.
Qed.
