(* ===== verification/ReactiveSound.v ===== *)
(** * Reactive modules: what the parser accepts

    On the tokens of a source the parser does not panic, a rejection points into
    the source, and what it returns is well formed.  The loops end because every
    turn consumes a token. *)

From S2P Require Import Prelude Value Names Text ReactiveSyntax ReactiveParser ReactiveLexer ReactiveTokens ReactiveComplete.
From Stdlib Require Import Strings.String Strings.Byte.
From stdpp Require Import gmap list.

Local Open Scope Z_scope.

Section sound.
Context (len : Z).

(** ** The state of a run *)
Definition the_end : Token := mkToken TEnd (mkSpan len len).

(** Tokens of a source of [len] bytes, from some point on. *)
Definition good (s : Parser) : Prop :=
  exists lo l, 0 <= lo /\ ps_tokens s = l ++ [the_end] /\ ordered lo len l.

(** Where the next token starts, and how many tokens there are. *)
Definition position (s : Parser) : Z := match ps_tokens s with t :: _ => sp_start (tk_span t) | [] => 0 end.
Definition left_over (s : Parser) : nat := length (ps_tokens s).

Definition moves (s s' : Parser) : Prop :=
  good s' /\ position s <= position s' /\ (left_over s' <= left_over s)%nat /\ ps_depth s' = ps_depth s.
Definition consumes (s s' : Parser) : Prop :=
  good s' /\ position s <= position s' /\ (left_over s' < left_over s)%nat /\ ps_depth s' = ps_depth s.
Definition inside (s : Parser) (sp : Span) (s' : Parser) : Prop :=
  position s <= sp_start sp /\ sp_start sp <= sp_end sp /\ sp_end sp <= position s'.

(** [p] does not panic on [s]; a rejection is inside the source; a result is in [Q]. *)
Definition wp {A} (p : Parse A) (Q : A -> Parser -> Prop) (s : Parser) : Prop :=
  match p s with
  | Parsed a s' => Q a s'
  | Rejected d => span_ok len (dg_span d)
  | Panics => False
  end.

Lemma wp_ret {A} (a : A) (Q : A -> Parser -> Prop) s : Q a s -> wp (mret a) Q s.
Proof. done. Qed.

Lemma wp_bind {A B} (p : Parse A) (k : A -> Parse B) P Q s :
  wp p P s -> (forall a s', P a s' -> wp (k a) Q s') -> wp (p ≫= k) Q s.
Proof. unfold wp, mbind, Parse_bind. intros Hp Hk. destruct (p s) as [a s'|d|]; [by apply Hk|done..]. Qed.

Lemma wp_mono {A} (p : Parse A) (P Q : A -> Parser -> Prop) s :
  wp p P s -> (forall a s', P a s' -> Q a s') -> wp p Q s.
Proof. unfold wp. intros Hp HQ. destruct (p s); auto. Qed.

Lemma ordered_le lo hi l : ordered lo hi l -> lo <= hi.
Proof. revert lo. induction l as [|t l IH]; intros lo; cbn; [done|]. intros (H & _ & _ & Hl%IH). lia. Qed.

(** The first token of a good state. *)
Lemma good_first s : good s -> exists t rest, ps_tokens s = t :: rest /\ position s = sp_start (tk_span t) /\
  span_ok len (tk_span t) /\ kind_ok (tk_kind t) = true /\
  (tk_kind t = TEnd -> sp_end (tk_span t) = position s) /\
  (tk_kind t <> TEnd -> forall d n, good (mkParser rest d n) /\ sp_end (tk_span t) <= position (mkParser rest d n)).
Proof.
  intros (lo & l & Hlo & E & Ho). unfold position. rewrite E. destruct l as [|t l].
  - exists the_end, []. cbn in *. split_and!; try done. unfold span_ok. cbn. lia.
  - exists t, (l ++ [the_end]). cbn in Ho. destruct Ho as (Hs & Hk & Hok & Ho). pose proof (ordered_le _ _ _ Ho).
    split_and!; [done..|unfold span_ok; lia|done|done|]. intros _ d n. split; [by exists (sp_end (tk_span t)), l; split_and!; [lia|..]|].
    cbn. destruct l as [|t' l]; cbn in *; lia.
Qed.

Lemma good_position s : good s -> 0 <= position s <= len.
Proof. intros Hs. destruct (good_first s Hs) as (t & rest & _ & -> & [] & _). lia. Qed.

(** Changing the counters leaves the tokens where they are. *)
Ltac counters := repeat match goal with
  | |- context [position (mkParser (ps_tokens ?s) ?d ?n)] => change (position (mkParser (ps_tokens s) d n)) with (position s)
  | |- context [left_over (mkParser (ps_tokens ?s) ?d ?n)] => change (left_over (mkParser (ps_tokens s) d n)) with (left_over s)
  | |- context [good (mkParser (ps_tokens ?s) ?d ?n)] => change (good (mkParser (ps_tokens s) d n)) with (good s)
  | H : context [position (mkParser (ps_tokens ?s) ?d ?n)] |- _ => change (position (mkParser (ps_tokens s) d n)) with (position s) in H
  | H : context [left_over (mkParser (ps_tokens ?s) ?d ?n)] |- _ => change (left_over (mkParser (ps_tokens s) d n)) with (left_over s) in H
  | H : context [good (mkParser (ps_tokens ?s) ?d ?n)] |- _ => change (good (mkParser (ps_tokens s) d n)) with (good s) in H
  end; cbn [ps_depth ps_predicate_nodes ps_tokens] in *.

(** Everything that is known about a run, as linear facts. *)
Ltac facts := unfold moves, consumes, inside, span_ok in *; counters; cbn [fst snd sp_start sp_end operand_span operand_ok expression_span kind_ok
    es_span hy_span re_span sm_span wa_span su_span] in *; destruct_and?;
  repeat match goal with
  | H : good ?s |- _ => lazymatch goal with _ : 0 <= position s |- _ => fail | _ => destruct (good_position s H) end
  end.
Ltac done_facts := facts; split_and?; first [done | lia | congruence | intros _; split_and?; first [done | lia]].

(** ** Single tokens *)
Lemma advance_spec s : good s -> wp advance (fun t s' =>
  moves s s' /\ inside s (tk_span t) s' /\ kind_ok (tk_kind t) = true /\
  ps_predicate_nodes s' = ps_predicate_nodes s /\ (tk_kind t <> TEnd -> consumes s s')) s.
Proof.
  intros Hs. destruct (good_first s Hs) as (t & rest & E & Hp & Hsp & Hk & Hend & Hnext). unfold wp, advance. rewrite E.
  case_bool_decide as Ht.
  - specialize (Hend Ht). done_facts.
  - destruct (Hnext Ht (ps_depth s) (ps_predicate_nodes s)) as [Hg Hle].
    assert (left_over s = S (left_over (mkParser rest (ps_depth s) (ps_predicate_nodes s))))
      by (unfold left_over; by rewrite E). done_facts.
Qed.

Lemma peek_spec s : good s -> wp peek (fun t s' => s' = s /\ span_ok len (tk_span t)) s.
Proof. intros Hs. destruct (good_first s Hs) as (t & rest & E & Hp & Hsp & _). unfold wp, peek. by rewrite E. Qed.

Lemma reject_spec {A} code sp (Q : A -> Parser -> Prop) s : span_ok len sp -> wp (reject code sp) Q s.
Proof. done. Qed.

Lemma reject_here_spec {A} code (Q : A -> Parser -> Prop) s : good s -> wp (reject_here code) Q s.
Proof. intros Hs. eapply wp_bind; [by apply peek_spec|]. intros t s' [-> Ht]. by apply reject_spec. Qed.

Lemma check_spec k s : good s -> wp (check k) (fun b s' => s' = s /\ (b = true -> exists t rest, ps_tokens s = t :: rest /\ tk_kind t = k)) s.
Proof.
  intros Hs. destruct (good_first s Hs) as (t & rest & E & _). unfold wp, check, mbind, Parse_bind, peek. rewrite E. cbn.
  split; [done|]. intros H%bool_decide_eq_true. eauto.
Qed.

Lemma take_spec k s : good s -> wp (take_token k) (fun r s' =>
  match r with
  | Some sp => moves s s' /\ inside s sp s' /\ ps_predicate_nodes s' = ps_predicate_nodes s /\ (k <> TEnd -> consumes s s')
  | None => s' = s
  end) s.
Proof.
  intros Hs. eapply wp_bind; [by apply check_spec|]. intros b s' [-> Hb]. destruct b; [|done].
  destruct (Hb eq_refl) as (t & rest & E & <-). pose proof (advance_spec s Hs) as Ha.
  unfold wp, mbind, Parse_bind in *. unfold advance in *. rewrite E in *. cbn [mret Parse_ret]. destruct_and!. done.
Qed.

Lemma expect_spec k s : good s -> wp (expect k) (fun sp s' =>
  moves s s' /\ inside s sp s' /\ ps_predicate_nodes s' = ps_predicate_nodes s /\ (k <> TEnd -> consumes s s')) s.
Proof.
  intros Hs. eapply wp_bind; [by apply take_spec|]. intros [sp|] s' H; [done|]. subst s'. by apply reject_here_spec.
Qed.

Lemma at_word_spec w s : good s -> wp (at_word w) (fun b s' => s' = s) s.
Proof.
  intros Hs. eapply wp_bind; [|by intros o s' H; exact H]. eapply wp_bind; [by apply peek_spec|]. intros t s' [-> _]. done.
Qed.

Lemma word_spec w s : good s -> wp (expect_word w) (fun sp s' => consumes s s' /\ inside s sp s') s.
Proof.
  intros Hs. eapply wp_bind; [by apply advance_spec|]. intros t s' (Hm & Hi & _ & _ & Hc). pose proof Hm as Hm'.
  destruct (tk_kind t) as [v| | | | | | | | | | | | | | | | | | | | |]; try (apply reject_spec; done_facts).
  case_bool_decide; [split; [by apply Hc|done]|apply reject_spec; done_facts].
Qed.

Lemma identifier_spec s : good s -> wp identifier (fun r s' => consumes s s' /\ inside s r.2 s' /\ identifier_ok r.1 = true /\
  ps_predicate_nodes s' = ps_predicate_nodes s) s.
Proof.
  intros Hs. eapply wp_bind; [by apply advance_spec|]. intros t s' (Hm & Hi & Hk & Hn & Hc).
  destruct (tk_kind t) as [v| | | | | | | | | | | | | | | | | | | | |]; try (apply reject_spec; done_facts).
  apply wp_ret. split_and!; [by apply Hc|done..].
Qed.

Lemma parameter_name_spec s : good s -> wp parameter_name (fun r s' => consumes s s' /\ inside s r.2 s' /\ parameter_ok r.1 = true) s.
Proof.
  intros Hs. eapply wp_bind; [by apply advance_spec|]. intros t s' (Hm & Hi & Hk & Hn & Hc).
  destruct (tk_kind t) as [|v| | | | | | | | | | | | | | | | | | | |]; try (apply reject_spec; done_facts).
  apply wp_ret. split_and!; [by apply Hc|done..].
Qed.

(** One call: its specification, then what is known after it. *)
Ltac run_with spec :=
  eapply wp_bind; [apply spec; assumption|]; intros; cbn beta iota in *;
  repeat match goal with x : _ * _ |- _ => destruct x end; facts;
  repeat match goal with H : ?k <> TEnd -> _ |- _ => specialize (H ltac:(discriminate)) end; facts.
Ltac run :=
  repeat lazymatch goal with
  | |- wp (expect _ ≫= _) _ _ => run_with expect_spec
  | |- wp (expect_word _ ≫= _) _ _ => run_with word_spec
  | |- wp (identifier ≫= _) _ _ => run_with identifier_spec
  | |- wp (parameter_name ≫= _) _ _ => run_with parameter_name_spec
  | |- wp (mret _) _ _ => apply wp_ret
  | |- wp (reject _ _) _ _ => apply reject_spec; done_facts
  | |- wp (reject_here _) _ _ => apply reject_here_spec; assumption
  end.

(** ** Names and operands *)
Lemma components_dot w c : components (w ++ text "." ++ c) = components w ++ components c.
Proof.
  unfold components. generalize (@nil byte) at 1 2. induction w as [|b w IH]; intros cur; [done|].
  cbn [app split_dots]. destruct b; apply IH || (cbn [app]; f_equal; apply IH).
Qed.

Lemma identifier_components w : identifier_ok w = true -> components w = [w].
Proof.
  intros Hw. assert (forallb is_identifier_byte w = true) as Hb by (destruct w; [done|]; by apply andb_true_iff in Hw as []).
  clear Hw. unfold components. change w with ([] ++ w) at 2. generalize (@nil byte).
  induction w as [|b w IH]; intros cur; [cbn; by rewrite app_nil_r|]. cbn [forallb] in Hb. apply andb_true_iff in Hb as [Hb Hw].
  cbn [split_dots]. replace (cur ++ b :: w) with ((cur ++ [b]) ++ w) by by rewrite <- app_assoc.
  destruct b; try done; by apply IH.
Qed.

Lemma identifier_qualified w : identifier_ok w = true -> qualified_ok w = true.
Proof. intros H. unfold qualified_ok. rewrite identifier_components by done. cbn. by rewrite H. Qed.

Lemma qualified_dot w c : qualified_ok w = true -> identifier_ok c = true -> qualified_ok (w ++ text "." ++ c) = true.
Proof.
  intros Hw Hc. unfold qualified_ok in *. rewrite components_dot, forallb_app, Hw, (identifier_components c) by done.
  cbn. by rewrite Hc.
Qed.

Lemma qualified_loop_spec fuel : forall value stop s0 s, good s -> (left_over s < fuel)%nat -> qualified_ok value = true ->
  inside s0 stop s ->
  wp (qualified_loop fuel value stop) (fun r s' => moves s s' /\ inside s0 r.2 s' /\ sp_start stop <= sp_start r.2 /\
    qualified_ok r.1 = true) s.
Proof.
  induction fuel as [|fuel IH]; intros value stop s0 s Hs Hf Hq Hi; [lia|]. cbn [qualified_loop].
  eapply wp_bind; [by apply take_spec|]. intros [sp|] s1 Hr; cbn beta in Hr; [|subst s1; apply wp_ret; done_facts].
  facts. match goal with H : _ <> TEnd -> _ |- _ => specialize (H ltac:(done)) end. run.
  eapply wp_mono; [apply (IH _ _ s0); [done|lia|by apply qualified_dot|done_facts]|]. intros [v p] sz Hr. done_facts.
Qed.

Lemma wp_fuel {A} (f : nat -> Parse A) Q s : (forall fuel, (left_over s < fuel)%nat -> wp (f fuel) Q s) -> wp (with_fuel f) Q s.
Proof. intros H. apply (H (S (left_over s))). lia. Qed.

Lemma qualified_spec s : good s ->
  wp qualified_identifier (fun r s' => consumes s s' /\ inside s r.2 s' /\ qualified_ok r.1 = true) s.
Proof.
  intros Hs. unfold qualified_identifier. run. eapply wp_bind.
  - apply wp_fuel. intros fuel Hf. apply (qualified_loop_spec fuel _ _ s); [done..|by apply identifier_qualified|done_facts].
  - intros [v p] sz Hr. apply wp_ret. done_facts.
Qed.

Lemma symbol_dot a b : identifier_ok a = true -> identifier_ok b = true ->
  a <> text "event" -> a <> text "true" -> a <> text "false" -> symbol_ok (a ++ text "." ++ b) = true.
Proof.
  intros Ha Hb H1 H2 H3. unfold symbol_ok. rewrite components_dot, !identifier_components by done. cbn [app].
  rewrite Ha, Hb. cbn [andb]. apply negb_true_iff, bool_decide_eq_false. set_solver.
Qed.

Lemma operand_spec s : good s -> wp operand (fun o s' => consumes s s' /\ inside s (operand_span o) s' /\
  operand_ok o = true /\ ps_predicate_nodes s' = ps_predicate_nodes s) s.
Proof.
  intros Hs. eapply wp_bind; [by apply advance_spec|]. intros t s1 (Hm & Hi & Hk & Hn & Hc).
  destruct (tk_kind t) as [first|v|v|v| | | | | | | | | | | | | | | | | |]; try (apply reject_spec; done_facts);
    specialize (Hc ltac:(done)); cbn zeta.
  - facts. case_bool_decide; [run; done_facts|]. case_bool_decide; [run; done_facts|].
    eapply wp_bind; [by apply take_spec|]. intros [sp|] s2 Hr; cbn beta in Hr; [|subst s2; run]. facts.
    match goal with H : _ <> TEnd -> _ |- _ => specialize (H ltac:(done)) end. run.
    case_bool_decide; run; [done_facts|]. cbn [operand_span operand_ok]. facts. split_and!; try (done || lia).
    by apply symbol_dot.
  - run. done_facts.
  - destruct (from_str_signed 64 v) as [z|] eqn:E; [|run]. run. cbn [operand_span operand_ok]. facts. split_and!; try (done || lia).
    unfold from_str_signed in E. repeat case_match; try done; by apply i_checked_Some in E as [-> ?%i_inb_spec].
  - run. done_facts.
Qed.

Lemma positive_u16_spec s : good s -> wp positive_u16 (fun n s' => consumes s s' /\ 0 < n < 2 ^ 16) s.
Proof.
  intros Hs. eapply wp_bind; [by apply advance_spec|]. intros t s1 (Hm & Hi & Hk & Hn & Hc).
  destruct (tk_kind t) as [| |v| | | | | | | | | | | | | | | | | | |]; try (apply reject_spec; done_facts).
  specialize (Hc ltac:(done)). destruct (from_str_unsigned 16 v) as [n|] eqn:E; [|apply reject_spec; done_facts].
  unfold from_str_unsigned in E. case_match; [|done]. apply u_checked_Some in E as [-> E].
  destruct (Z.ltb_spec 0 (digits_value 0 (strip_plus v))); [|apply reject_spec; done_facts].
  apply wp_ret. split; [done|]. unfold u_range in E. lia.
Qed.

Lemma version_spec s : good s -> wp version (fun n s' => consumes s s' /\ n = 1) s.
Proof.
  intros Hs. eapply wp_bind; [by apply advance_spec|]. intros t s1 (Hm & Hi & Hk & Hn & Hc).
  eapply wp_bind with (P := fun n s2 => s2 = s1 /\ tk_kind t <> TEnd).
  - destruct (tk_kind t); try (apply reject_spec; done_facts). repeat case_match; try (apply reject_spec; done_facts). done.
  - intros n s2 [-> Ht]. destruct (Z.eqb_spec n 1); cbn [negb]; [|apply reject_spec; done_facts]. apply wp_ret. split; [by apply Hc|done].
Qed.

(** ** Expressions *)
Lemma count_node_spec {A} (exceeded k : Parse A) Q s :
  (forall s1, s1 = mkParser (ps_tokens s) (ps_depth s) (ps_predicate_nodes s + 1) -> wp exceeded Q s1) ->
  (forall s1, s1 = mkParser (ps_tokens s) (ps_depth s) (ps_predicate_nodes s + 1) ->
     ps_predicate_nodes s + 1 <= MAX_PREDICATE_NODES -> wp k Q s1) -> wp (count_node exceeded k) Q s.
Proof.
  intros He Hk. unfold count_node, wp. destruct (Z.ltb_spec MAX_PREDICATE_NODES (ps_predicate_nodes s + 1)).
  - by apply He.
  - by apply Hk.
Qed.

Lemma operand_node_spec s : good s -> wp expression_operand (fun e s' => consumes s s' /\ inside s (expression_span e) s' /\
  (exists o, e = EOperand o /\ operand_ok o = true) /\
  ps_predicate_nodes s' = ps_predicate_nodes s + 1 /\ ps_predicate_nodes s' <= MAX_PREDICATE_NODES) s.
Proof.
  intros Hs. apply count_node_spec; intros s1 Hs1; [subst s1; by apply reject_here_spec|]. intros Hn.
  eapply wp_bind; [apply operand_spec; by subst s1|]. intros o s' Ho. apply wp_ret. subst s1. facts. split_and!; eauto with lia.
Qed.

Lemma binary_spec l op r s : span_ok len (expression_span l) -> wp (binary l op r) (fun e s' =>
  s' = mkParser (ps_tokens s) (ps_depth s) (ps_predicate_nodes s + 1) /\ ps_predicate_nodes s' <= MAX_PREDICATE_NODES /\
  e = Binary l op r (mkSpan (sp_start (expression_span l)) (sp_end (expression_span r)))) s.
Proof. intros Hl. apply count_node_spec; intros s1 ->; [by apply reject_spec|]. intros Hn. by apply wp_ret. Qed.

(** [e] was read between [s] and [s'] at this level of the grammar. *)
Definition read_condition (level : Z) (s : Parser) (e : Expression) (s' : Parser) : Prop :=
  consumes s s' /\ inside s (expression_span e) s' /\ condition_ok e = true /\
  ps_predicate_nodes s' = ps_predicate_nodes s + nodes e /\ ps_predicate_nodes s' <= MAX_PREDICATE_NODES /\
  ps_depth s + paren_depth e level <= MAX_REACTIVE_NESTING.

Definition reads_at (level : Z) (B : nat) (part : Parse Expression) : Prop :=
  forall s, good s -> (left_over s < B)%nat -> 0 <= ps_depth s <= MAX_REACTIVE_NESTING ->
  wp part (read_condition level s) s.

(** The parentheses that a tree needs in a context, at most those that were read. *)
Lemma paren_depth_mono e p q : p <= q -> paren_depth e p <= paren_depth e q <= 1 + paren_depth e p.
Proof.
  intros H. destruct e as [|l op r ?]; cbn [paren_depth]; [lia|].
  destruct (Z.ltb_spec (precedence op) p), (Z.ltb_spec (precedence op) q); lia.
Qed.

Lemma binary_depth l op r sp : paren_depth (Binary l op r sp) (precedence op) =
  Z.max (paren_depth l (precedence op)) (paren_depth r (precedence op + 1)).
Proof. cbn [paren_depth]. rewrite Z.ltb_irrefl. lia. Qed.

Section left.
Context (B : nat) (sep : TokenKind) (op : BinaryOperator) (part : Parse Expression).
Hypothesis part_reads : reads_at (precedence op + 1) B part.
Hypothesis sep_end : sep <> TEnd.
Hypothesis connective : is_comparison op = false.

Lemma left_loop_spec fuel : forall lhs s0 s, good s0 -> good s -> (left_over s < fuel)%nat -> (left_over s < B)%nat ->
  0 <= ps_depth s <= MAX_REACTIVE_NESTING -> read_condition (precedence op) s0 lhs s ->
  wp (left_loop sep op part fuel lhs) (read_condition (precedence op) s0) s.
Proof.
  induction fuel as [|fuel IH]; intros lhs s0 s Hs0 Hs Hf HB Hd Hl; [lia|]. cbn [left_loop].
  eapply wp_bind; [by apply take_spec|]. intros [sp|] s1 Q1; cbn beta iota in Q1; [|by subst s1].
  destruct Q1 as (_ & _ & Hn1 & Hc1). specialize (Hc1 sep_end). facts.
  eapply wp_bind; [apply part_reads; [done|lia|lia]|]. intros rhs s2 Q2. unfold read_condition in *. facts.
  eapply wp_bind; [apply binary_spec; done_facts|]. intros e s3 (-> & Hn3 & ->).
  apply IH; facts; try done; try lia. rewrite binary_depth. cbn [condition_ok nodes]. rewrite connective.
  split_and!; try (done || lia). by apply andb_true_iff.
Qed.

Lemma left_associative_reads : reads_at (precedence op) B (left_associative sep op part).
Proof.
  intros s Hs HB Hd. eapply wp_bind; [by apply part_reads|]. intros lhs s1 Q1. apply wp_fuel. intros fuel Hf.
  pose proof (paren_depth_mono lhs (precedence op) (precedence op + 1)). unfold read_condition in Q1.
  apply left_loop_spec; unfold read_condition; facts; split_and?; done || lia.
Qed.
End left.

Lemma enter_spec s : good s -> 0 <= ps_depth s -> wp enter_parenthesis (fun _ s' =>
  s' = mkParser (ps_tokens s) (ps_depth s + 1) (ps_predicate_nodes s) /\ ps_depth s' <= MAX_REACTIVE_NESTING) s.
Proof.
  intros Hs Hd. unfold enter_parenthesis, wp. cbn [ps_depth]. destruct (Z.ltb_spec MAX_REACTIVE_NESTING (ps_depth s + 1)).
  - pose proof (@reject_here_spec unit LimitExceeded (fun _ _ => False) (mkParser (ps_tokens s) (ps_depth s + 1) (ps_predicate_nodes s)) Hs) as H'.
    unfold wp in H'. by destruct (reject_here _ _).
  - split; [done|]. cbn. lia.
Qed.

Lemma leave_spec s : 0 < ps_depth s -> wp leave_parenthesis (fun _ s' =>
  s' = mkParser (ps_tokens s) (ps_depth s - 1) (ps_predicate_nodes s)) s.
Proof. intros Hd. unfold leave_parenthesis, wp. destruct (Z.leb_spec (ps_depth s) 0); [lia|done]. Qed.

Lemma comparison_operator_ok k op : comparison_operator k = Some op -> is_comparison op = true /\ precedence op = 3.
Proof. by destruct k; cbn; intros [= <-]. Qed.

Lemma comparison_reads B expression : reads_at 0 B expression -> reads_at 3 (S B) (comparison expression).
Proof.
  intros He s Hs HB Hd. unfold comparison. eapply wp_bind; [by apply take_spec|]. intros [sp|] s1 Q1; cbn beta iota in Q1.
  - destruct Q1 as (_ & _ & Hn1 & Hc1). specialize (Hc1 ltac:(done)). facts.
    eapply wp_bind; [apply enter_spec; done || lia|]. intros [] s2 [-> Hd2]. facts.
    eapply wp_bind; [apply He; facts; done || lia|]. intros e s3 Q3. unfold read_condition in Q3. facts.
    run. eapply wp_bind; [apply leave_spec; lia|]. intros [] s5 ->. apply wp_ret. unfold read_condition. facts.
    pose proof (paren_depth_mono e 0 3). split_and!; done || lia.
  - subst s1. eapply wp_bind; [by apply operand_node_spec|]. intros l s1 (Q1 & Q1' & (a & -> & Ha) & Hn1 & Hn1'). facts.
    eapply wp_bind; [by apply peek_spec|]. intros t s2 [-> Ht]. destruct (comparison_operator (tk_kind t)) as [op|] eqn:Eop; [|run].
    apply comparison_operator_ok in Eop as [Hop Hprec].
    eapply wp_bind; [by apply advance_spec|]. intros t' s2 (Q2 & _ & _ & Hn2 & _). facts.
    eapply wp_bind; [by apply operand_node_spec|]. intros r s3 (Q3 & Q3' & (b & -> & Hb) & Hn3 & Hn3'). facts.
    eapply wp_mono; [apply binary_spec; done_facts|]. intros e s4 (-> & Hn4 & ->). unfold read_condition. facts.
    rewrite <- Hprec, binary_depth. cbn [condition_ok nodes paren_depth]. rewrite Hop, Ha, Hb. split_and!; done || lia.
Qed.

Lemma expression_reads fuel : reads_at 0 fuel (expression_fuel fuel).
Proof.
  induction fuel as [|fuel IH]; [intros s _ H; lia|]. cbn [expression_fuel]. unfold or_expression, and_expression.
  pose proof (comparison_reads _ _ IH) as Q3.
  pose proof (left_associative_reads (S fuel) TAnd And _ Q3 ltac:(done) eq_refl) as Q2.
  pose proof (left_associative_reads (S fuel) TOr Or _ Q2 ltac:(done) eq_refl) as Q1.
  intros s Hs HB Hd. eapply wp_mono; [by apply Q1|]. intros e s' H. unfold read_condition in *. facts.
  pose proof (paren_depth_mono e 0 1). cbn [precedence] in *. split_and!; done || lia.
Qed.

Lemma expression_spec s : good s -> 0 <= ps_depth s <= MAX_REACTIVE_NESTING -> wp expression (read_condition 0 s) s.
Proof. intros Hs Hd. apply wp_fuel. intros fuel Hf. by apply expression_reads. Qed.

(** ** Lists *)
Lemma bounded_spec {A} limit count (k : Parse A) Q s : good s -> (count < limit -> wp k Q s) -> wp (bounded limit count k) Q s.
Proof.
  intros Hs Hk. unfold bounded. destruct (Z.leb_spec limit count); [by apply reject_here_spec|by apply Hk].
Qed.

Lemma fresh_name_spec {A} names name sp (k : Parse A) Q s : span_ok len sp -> (name ∉ names -> wp k Q s) ->
  wp (fresh_name names name sp k) Q s.
Proof. intros Hs Hk. unfold fresh_name. case_bool_decide; [by apply reject_spec|by apply Hk]. Qed.

(** The names read so far are the set that is looked up, without duplicates. *)
Definition tracked {A} (name : A -> list byte) (l : list A) (names : gset (list byte)) : Prop :=
  NoDup (map name l) /\ forall w, w ∈ names <-> w ∈ map name l.

Lemma tracked_nil {A} (name : A -> list byte) : tracked name [] ∅.
Proof. split; [constructor|]. set_solver. Qed.

Lemma tracked_snoc {A} (name : A -> list byte) l names x : tracked name l names -> name x ∉ names ->
  tracked name (l ++ [x]) ({[name x]} ∪ names).
Proof.
  intros [Hd Hn] Hx. split.
  - rewrite map_app. apply NoDup_app. split_and!; [done| |by apply NoDup_singleton].
    intros w Hw Hin. apply Hn in Hw. cbn in Hin. apply list_elem_of_singleton in Hin. congruence.
  - intros w. rewrite map_app, elem_of_app, <- Hn. set_solver.
Qed.

Lemma forallb_snoc {A} (p : A -> bool) l x : forallb p l = true -> p x = true -> forallb p (l ++ [x]) = true.
Proof. intros Hl Hx. rewrite forallb_app, Hl. cbn. by rewrite Hx. Qed.

Section comma_items.
Context {A : Type} (limit : option Z) (item : Parse (A * Span)) (name : A -> list byte) (ok : A -> bool).
Hypothesis item_spec : forall s, good s -> wp item (fun r s' => consumes s s' /\ inside s r.2 s' /\ ok r.1 = true) s.

Definition listed (l : list A) : Prop :=
  forallb ok l = true /\ match limit with Some m => zlen l <= m | None => True end.

Lemma comma_loop_spec fuel : forall acc names s, good s -> (left_over s < fuel)%nat -> tracked name acc names -> listed acc ->
  wp (comma_loop limit item name fuel acc names) (fun r s' => consumes s s' /\ listed r /\ NoDup (map name r) /\ r <> []) s.
Proof.
  induction fuel as [|fuel IH]; intros acc names s Hs Hf Ht Hl; [lia|]. cbn [comma_loop].
  match goal with |- wp (match limit with Some _ => bounded _ _ ?t | None => _ end) ?Q _ =>
    assert ((match limit with Some m => zlen acc + 1 <= m | None => True end) -> wp t Q s) as Hturn end.
  - intros Hlim. eapply wp_bind; [by apply item_spec|]. intros [x sp] s1 Hx. cbn [fst snd] in Hx.
    apply fresh_name_spec; [done_facts|]. intros Hfresh. facts.
    assert (listed (acc ++ [x])) as Hl'.
    { destruct Hl as [Hok _]. split; [by apply forallb_snoc|]. destruct limit; [|done]. rewrite zlen_app, zlen_cons, zlen_nil. lia. }
    pose proof (tracked_snoc name acc names x Ht Hfresh) as Ht'.
    eapply wp_bind; [by apply take_spec|]. intros [sp'|] s2 Hr; cbn beta iota in Hr.
    + destruct Hr as (_ & _ & _ & Hc). specialize (Hc ltac:(done)). facts.
      eapply wp_mono; [apply IH; [done|lia|done|done]|]. intros r s3 Hr. facts. split_and!; done || lia.
    + subst s2. apply wp_ret. destruct Ht'. split_and!; try (done || lia). by destruct acc.
  - destruct limit as [m|]; [|by apply Hturn]. apply bounded_spec; [done|]. intros Hlt. apply Hturn. lia.
Qed.

Lemma comma_items_spec s : good s -> match limit with Some m => 0 <= m | None => True end ->
  wp (comma_items limit item name) (fun r s' => consumes s s' /\ listed r /\ NoDup (map name r) /\ r <> []) s.
Proof.
  intros Hs Hm. apply wp_fuel. intros fuel Hf. apply comma_loop_spec; [done..|apply tracked_nil|]. split; [done|].
  by destruct limit.
Qed.

Lemma optional_spec s : good s -> match limit with Some m => 0 <= m | None => True end ->
  wp (optional_items (comma_items limit item name)) (fun r s' => consumes s s' /\ listed r /\ NoDup (map name r)) s.
Proof.
  intros Hs Hm. unfold optional_items. run. eapply wp_bind; [by apply check_spec|]. intros b s2 [-> _].
  eapply wp_bind with (P := fun r s3 => moves s' s3 /\ listed r /\ NoDup (map name r)).
  - destruct b.
    + apply wp_ret. split; [done_facts|]. split; [|constructor]. split; [done|]. by destruct limit.
    + eapply wp_mono; [by apply comma_items_spec|]. intros r s3 Hr. facts. split_and!; done || lia.
  - intros r s3 Hr. facts. run. facts. split_and!; done || lia.
Qed.
End comma_items.

Lemma parameters_spec s : good s -> wp parameters (fun r s' => consumes s s' /\ parameters_ok r = true) s.
Proof.
  intros Hs. eapply wp_mono.
  - apply (optional_spec (Some MAX_REACTIVE_PARAMETERS) parameter_item pa_name
      (fun p => parameter_ok (pa_name p) && qualified_ok (pa_type_name p))); [|done|done].
    intros s1 H1. unfold parameter_item. run. run_with qualified_spec. run. facts. split_and!; try (done || lia).
    by apply andb_true_iff.
  - intros r s' (Hc & [Hok Hl] & Hd). split; [done|]. unfold parameters_ok, distinct. rewrite Hok, bool_decide_true by done. cbn. lia.
Qed.

Lemma arguments_spec s : good s -> wp arguments (fun r s' => consumes s s' /\ arguments_ok r = true) s.
Proof.
  intros Hs. eapply wp_mono.
  - apply (optional_spec (Some MAX_REACTIVE_PARAMETERS) argument_item ag_name
      (fun a => identifier_ok (ag_name a) && operand_ok (ag_value a))); [|done|done].
    intros s1 H1. unfold argument_item. run. run_with operand_spec. run. facts. split_and!; try (done || lia).
    by apply andb_true_iff.
  - intros r s' (Hc & [Hok Hl] & Hd). split; [done|]. unfold arguments_ok, distinct. rewrite Hok, bool_decide_true by done. cbn. lia.
Qed.

Lemma partition_spec s : good s -> wp partition_bindings (fun r s' => consumes s s' /\ partition_ok r = true) s.
Proof.
  intros Hs. unfold partition_bindings. run. eapply wp_bind.
  - apply (comma_items_spec (Some MAX_REACTIVE_PARAMETERS) partition_item pb_field
      (fun b => identifier_ok (pb_field b) && parameter_ok (pb_parameter b))); [|done|done].
    intros s1 Hs1. unfold partition_item. run. facts. split_and!; try (done || lia). by apply andb_true_iff.
  - intros r s2 (Hc & [Hok Hl] & Hd & Hne). facts. run. split; [done_facts|].
    unfold partition_ok, distinct. rewrite Hok, bool_decide_true by done. destruct r as [|x r]; [done|].
    rewrite zlen_cons in *. pose proof (zlen_nonneg r). lia.
Qed.

Lemma event_spec s : good s -> wp event_selection (fun e s' => consumes s s' /\ inside s (es_span e) s' /\ event_ok e = true) s.
Proof.
  intros Hs. unfold event_selection. run. eapply wp_bind.
  - apply (comma_items_spec None identifier (fun f => f) identifier_ok); [|done|done].
    intros s5 Hs5. eapply wp_mono; [by apply identifier_spec|]. intros r s6 Hr. facts. split_and!; done || lia.
  - intros fs s5 (Hc & [Hok _] & Hd & Hne). facts. run. facts. rewrite map_id in Hd.
    split_and!; try (done || lia). unfold event_ok, distinct. cbn [es_event es_fields].
    rewrite Hok, bool_decide_true by done. destruct fs as [|f fs]; [done|]. rewrite zlen_cons. pose proof (zlen_nonneg fs).
    rewrite !andb_true_iff. split_and!; done || lia.
Qed.

Lemma hydration_spec s : good s -> wp hydration (fun h s' => consumes s s' /\ inside s (hy_span h) s' /\ hydration_ok h = true) s.
Proof.
  intros Hs. unfold hydration. run. run_with arguments_spec. run. facts. split_and!; try (done || lia).
  unfold hydration_ok. cbn [hy_name hy_query hy_arguments]. by rewrite !andb_true_iff.
Qed.

Lemma reaction_spec s : good s -> wp reaction (fun r s' => consumes s s' /\ inside s (re_span r) s' /\ reaction_ok r = true) s.
Proof.
  intros Hs. unfold reaction. run. facts. split_and!; try (done || lia).
  unfold reaction_ok. cbn [re_name re_command]. by rewrite !andb_true_iff.
Qed.

(** ** Items that start with a keyword *)
Section keyword_items.
Context {A : Type} (word : list byte) (limit : Z) (item : Parse A) (name : A -> list byte) (span : A -> Span)
  (exceeds : list A -> A -> bool) (ok : A -> bool) (fits : list A -> Prop).
Hypothesis item_spec : forall s, good s -> wp item (fun x s' => consumes s s' /\ inside s (span x) s' /\ ok x = true) s.
Hypothesis fits_snoc : forall l x, fits l -> exceeds l x = false -> fits (l ++ [x]).

Definition collected (l : list A) : Prop := forallb ok l = true /\ zlen l <= limit /\ fits l.

Lemma keyword_loop_spec fuel : forall acc names s, good s -> (left_over s < fuel)%nat -> tracked name acc names -> collected acc ->
  wp (keyword_loop word limit item name span exceeds fuel acc names) (fun r s' => moves s s' /\ collected r /\ NoDup (map name r)) s.
Proof.
  induction fuel as [|fuel IH]; intros acc names s Hs Hf Ht Hl; [lia|]. cbn [keyword_loop].
  eapply wp_bind; [by apply at_word_spec|]. intros b s1 ->. destruct b; cbn [negb].
  - apply bounded_spec; [done|]. intros Hlt. eapply wp_bind; [by apply item_spec|]. intros x s2 Hx. facts.
    destruct (exceeds acc x) eqn:Ex; [run|]. apply fresh_name_spec; [done_facts|]. intros Hfresh.
    eapply wp_mono; [apply IH; [done|lia|by apply tracked_snoc|]|].
    + destruct Hl as (Hok & Hz & Hfit). split_and!; [by apply forallb_snoc|rewrite zlen_app, zlen_cons, zlen_nil; lia|by apply fits_snoc].
    + intros r s3 Hr. facts. split_and!; done || lia.
  - apply wp_ret. destruct Ht. split_and!; done_facts.
Qed.

Lemma keyword_items_spec s : good s -> 0 <= limit -> fits [] ->
  wp (keyword_items word limit item name span exceeds) (fun r s' => moves s s' /\ collected r /\ NoDup (map name r)) s.
Proof.
  intros Hs Hl Hfit. apply wp_fuel. intros fuel Hf. apply keyword_loop_spec; [done..|apply tracked_nil|done].
Qed.
End keyword_items.

(** ** Definitions *)
Lemma zlen_pos {A} (l : list A) : l <> [] -> 0 < zlen l.
Proof. destruct l as [|x l]; [done|]. rewrite zlen_cons. pose proof (zlen_nonneg l). lia. Qed.

Lemma events_spec s : good s ->
  wp (keyword_items (text "event") MAX_STREAM_EVENT_TYPES event_selection es_event es_span events_exceed) (fun r s' =>
    moves s s' /\ forallb event_ok r = true /\ distinct (map es_event r) = true /\ zlen r <= MAX_STREAM_EVENT_TYPES /\
    selected_fields r <= MAX_STREAM_SELECTED_FIELDS) s.
Proof.
  intros Hs. eapply wp_mono.
  - apply (keyword_items_spec _ _ _ _ _ _ event_ok (fun l => selected_fields l <= MAX_STREAM_SELECTED_FIELDS));
      [apply event_spec| |done|done|done].
    intros l x Hl Hx. unfold events_exceed in Hx. rewrite selected_fields_app. unfold selected_fields at 2. cbn. lia.
  - intros r s' (Hm & (H1 & H2 & H3) & Hd). split_and!; try done. by apply bool_decide_eq_true.
Qed.

Lemma hydrations_spec s : good s ->
  wp (keyword_items (text "hydrate") MAX_SUBSCRIPTION_HYDRATIONS hydration hy_name hy_span no_bound) (fun r s' =>
    moves s s' /\ forallb hydration_ok r = true /\ distinct (map hy_name r) = true /\ zlen r <= MAX_SUBSCRIPTION_HYDRATIONS) s.
Proof.
  intros Hs. eapply wp_mono.
  - apply (keyword_items_spec _ _ _ _ _ _ hydration_ok (fun _ => True)); [apply hydration_spec|done..].
  - intros r s' (Hm & (H1 & H2 & _) & Hd). split_and!; try done. by apply bool_decide_eq_true.
Qed.

Lemma reactions_spec s : good s ->
  wp (keyword_items (text "reaction") MAX_SUBSCRIPTION_REACTIONS reaction re_name re_span no_bound) (fun r s' =>
    moves s s' /\ forallb reaction_ok r = true /\ distinct (map re_name r) = true /\ zlen r <= MAX_SUBSCRIPTION_REACTIONS) s.
Proof.
  intros Hs. eapply wp_mono.
  - apply (keyword_items_spec _ _ _ _ _ _ reaction_ok (fun _ => True)); [apply reaction_spec|done..].
  - intros r s' (Hm & (H1 & H2 & _) & Hd). split_and!; try done. by apply bool_decide_eq_true.
Qed.

Lemma where_clause_spec s : good s -> 0 <= ps_depth s <= MAX_REACTIVE_NESTING ->
  wp where_clause (fun p s' => moves s s' /\ (ps_depth s = 0 -> match p with Some e => predicate_ok e | None => true end = true)) s.
Proof.
  intros Hs Hd. unfold where_clause. eapply wp_bind; [by apply at_word_spec|]. intros b s1 ->. destruct b; [|by apply wp_ret; split; [done_facts|]].
  run_with advance_spec. eapply wp_bind with (P := fun _ s2 => s2 = mkParser (ps_tokens s') (ps_depth s') 0); [done|].
  intros ? s2 ->. eapply wp_bind; [apply expression_spec; facts; done || lia|]. intros e s3 He. unfold read_condition in He. facts.
  run. facts. split_and!; try (done || lia). intros Hz. unfold predicate_ok. rewrite !andb_true_iff. split_and!; [done|lia|lia].
Qed.

Lemma stream_reads_spec s : good s -> ps_depth s = 0 -> wp stream (fun x s' => consumes s s' /\ inside s (sm_span x) s' /\ stream_ok x = true) s.
Proof.
  intros Hs Hz. unfold stream. run. run_with parameters_spec. run. run_with partition_spec. run. run_with events_spec.
  case_bool_decide as Hne; [run|apply zlen_pos in Hne]. eapply wp_bind; [apply where_clause_spec; done || lia|]. intros p sp [Hm Hp]. facts.
  run. facts. split_and!; try (done || lia). unfold stream_ok.
  cbn [sm_name sm_parameters sm_partition sm_events sm_predicate]. rewrite !andb_true_iff, Hp by lia.
  split_and!; done || lia.
Qed.

Lemma watch_spec s : good s -> wp watch (fun x s' => consumes s s' /\ inside s (wa_span x) s' /\ watch_ok x = true) s.
Proof.
  intros Hs. unfold watch. run. run_with parameters_spec. run.
  eapply wp_bind with (P := fun _ s2 => moves s'4 s2).
  - unfold update_mode. eapply wp_bind; [by apply advance_spec|]. intros t s2 Ht. facts.
    destruct (tk_kind t); run. case_bool_decide; [run; done_facts|]. case_bool_decide; run. done_facts.
  - intros m s2 Hm. facts. run. facts. split_and!; try (done || lia). unfold watch_ok.
    cbn [wa_name wa_parameters wa_query]. by rewrite !andb_true_iff.
Qed.

Lemma limits_spec s : good s -> wp limits (fun x s' => consumes s s' /\ limits_ok x = true) s.
Proof.
  intros Hs. unfold limits. run. run_with positive_u16_spec. run. run_with positive_u16_spec. run. run_with positive_u16_spec. run.
  cbn zeta. case_match eqn:E; [run|]. unfold within in E.
  destruct (u_checked 8 a2) as [x|] eqn:E1; [|run]. destruct (u_checked 8 a5) as [y|] eqn:E2; [|run].
  apply u_checked_Some in E1 as [-> _], E2 as [-> _].
  run. facts. split_and!; try (done || lia). unfold limits_ok. cbn [li_batch li_in_flight li_lease_seconds]. lia.
Qed.

Lemma subscription_spec s : good s ->
  wp subscription (fun x s' => consumes s s' /\ inside s (su_span x) s' /\ subscription_ok x = true) s.
Proof.
  intros Hs. unfold subscription. run. run_with parameters_spec. run. run_with arguments_spec. run. cbn zeta.
  run_with hydrations_spec. run_with reactions_spec. run_with limits_spec. run. facts. split_and!; try (done || lia).
  unfold subscription_ok. cbn [su_name su_parameters su_stream su_hydrations su_reactions su_limits sb_stream sb_arguments].
  rewrite !andb_true_iff. split_and!; done || lia.
Qed.

(** ** The module *)
Definition all_names (ss : list Stream) (ws : list Watch) (us : list Subscription) : list (list byte) :=
  map sm_name ss ++ map wa_name ws ++ map su_name us.

(** The definitions read so far. *)
Definition defined (ss : list Stream) (ws : list Watch) (us : list Subscription) (names : gset (list byte)) : Prop :=
  forallb stream_ok ss = true /\ forallb watch_ok ws = true /\ forallb subscription_ok us = true /\
  NoDup (all_names ss ws us) /\ (forall w, w ∈ names <-> w ∈ all_names ss ws us) /\
  zlen ss + zlen ws + zlen us <= MAX_REACTIVE_DEFINITIONS.

(** A name that is not in the set joins the list anywhere. *)
Lemma joined_name (x : list byte) (l l' : list (list byte)) (names : gset (list byte)) : l' ≡ₚ x :: l -> NoDup l -> (forall w, w ∈ names <-> w ∈ l) ->
  x ∉ names -> NoDup l' /\ forall w, w ∈ ({[x]} ∪ names : gset (list byte)) <-> w ∈ l'.
Proof.
  intros Hp Hd Hn Hx. split.
  - rewrite Hp. apply NoDup_cons. split; [by rewrite <- Hn|done].
  - intros w. rewrite Hp, elem_of_union, elem_of_singleton, Hn. set_solver.
Qed.

Lemma defined_stream ss ws us names x : defined ss ws us names -> stream_ok x = true -> sm_name x ∉ names ->
  zlen ss + zlen ws + zlen us < MAX_REACTIVE_DEFINITIONS -> defined (ss ++ [x]) ws us ({[sm_name x]} ∪ names).
Proof.
  intros (H1 & H2 & H3 & Hd & Hn & _) Hx Hf Hlt.
  destruct (joined_name (sm_name x) (all_names ss ws us) (all_names (ss ++ [x]) ws us) names) as [Hd' Hn'];
    [unfold all_names; rewrite map_app; cbn [map]; solve_Permutation|done..|].
  split_and!; [by apply forallb_snoc|done..|autorewrite with zlen; lia].
Qed.

Lemma defined_watch ss ws us names x : defined ss ws us names -> watch_ok x = true -> wa_name x ∉ names ->
  zlen ss + zlen ws + zlen us < MAX_REACTIVE_DEFINITIONS -> defined ss (ws ++ [x]) us ({[wa_name x]} ∪ names).
Proof.
  intros (H1 & H2 & H3 & Hd & Hn & _) Hx Hf Hlt.
  destruct (joined_name (wa_name x) (all_names ss ws us) (all_names ss (ws ++ [x]) us) names) as [Hd' Hn'];
    [unfold all_names; rewrite map_app; cbn [map]; solve_Permutation|done..|].
  split_and!; [done|by apply forallb_snoc|done..|autorewrite with zlen; lia].
Qed.

Lemma defined_subscription ss ws us names x : defined ss ws us names -> subscription_ok x = true -> su_name x ∉ names ->
  zlen ss + zlen ws + zlen us < MAX_REACTIVE_DEFINITIONS -> defined ss ws (us ++ [x]) ({[su_name x]} ∪ names).
Proof.
  intros (H1 & H2 & H3 & Hd & Hn & _) Hx Hf Hlt.
  destruct (joined_name (su_name x) (all_names ss ws us) (all_names ss ws (us ++ [x])) names) as [Hd' Hn'];
    [unfold all_names; rewrite map_app; cbn [map]; solve_Permutation|done..|].
  split_and!; [done|done|by apply forallb_snoc|done..|autorewrite with zlen; lia].
Qed.

Lemma peek_word_spec s : good s -> wp peek_word (fun _ s' => s' = s) s.
Proof. intros Hs. eapply wp_bind; [by apply peek_spec|]. intros t s' [-> _]. done. Qed.

Lemma definitions_loop_spec fuel : forall ss ws us names s, good s -> (left_over s < fuel)%nat -> ps_depth s = 0 ->
  defined ss ws us names ->
  wp (definitions_loop fuel ss ws us names) (fun r s' => moves s s' /\ exists names', defined r.1.1 r.1.2 r.2 names') s.
Proof.
  induction fuel as [|fuel IH]; intros ss ws us names s Hs Hf Hz Hd; [lia|]. cbn [definitions_loop].
  eapply wp_bind; [by apply check_spec|]. intros b s1 [-> _]. destruct b.
  { apply wp_ret. split; [done_facts|]. cbn. eauto. }
  apply bounded_spec; [done|]. intros Hlt. eapply wp_bind; [by apply peek_word_spec|]. intros w s1 ->.
  destruct w as [w|]; [|run].
  case_bool_decide; [|case_bool_decide; [|case_bool_decide; [|run]]].
  - eapply wp_bind; [by apply stream_reads_spec|]. intros x s1 Hx. facts. apply fresh_name_spec; [done_facts|]. intros Hfresh.
    eapply wp_mono; [apply IH; [done|lia|lia|by apply defined_stream]|]. intros r s2 [Hr ?]. split; [done_facts|done].
  - eapply wp_bind; [by apply watch_spec|]. intros x s1 Hx. facts. apply fresh_name_spec; [done_facts|]. intros Hfresh.
    eapply wp_mono; [apply IH; [done|lia|lia|by apply defined_watch]|]. intros r s2 [Hr ?]. split; [done_facts|done].
  - eapply wp_bind; [by apply subscription_spec|]. intros x s1 Hx. facts. apply fresh_name_spec; [done_facts|]. intros Hfresh.
    eapply wp_mono; [apply IH; [done|lia|lia|by apply defined_subscription]|]. intros r s2 [Hr ?]. split; [done_facts|done].
Qed.

Lemma module_spec s : good s -> ps_depth s = 0 -> wp module_ (fun m s' => module_ok m = true /\ span_ok len (md_span m)) s.
Proof.
  intros Hs Hz. unfold module_. run. run_with version_spec. run. eapply wp_bind.
  - apply wp_fuel. intros fuel Hf. apply (definitions_loop_spec fuel [] [] [] ∅); [done|done|lia|].
    unfold defined, all_names. cbn. split_and!; try done; [constructor|set_solver].
  - intros [[ss ws] us] s5 [Hm (names & Hss & Hws & Hus & Hd & _ & Hl)]. cbn [fst snd] in *. facts. run.
    cbn [md_span]. facts. split; [|lia]. unfold module_ok, operation_names, distinct.
    cbn [md_name md_version md_streams md_watches md_subscriptions]. fold (all_names ss ws us).
    rewrite (bool_decide_true (NoDup _)) by done. rewrite !andb_true_iff. split_and!; try (done || lia).
    unfold all_names. autorewrite with zlen. unfold zlen in *. rewrite !length_map. lia.
Qed.
End sound.

(** The whole parser on any source: a well-formed module, or one diagnostic inside the source. *)
Lemma parse_module_sound source : utf8_valid source = true ->
  match parse_module source with
  | Accepted m => module_ok m = true /\ span_ok (zlen source) (md_span m)
  | Diagnosed l => diagnosed (zlen source) l
  | Panicked => False
  end.
Proof.
  intros Hv. unfold parse_module. destruct (bool_decide (source = []) || _).
  { eexists. split; [done|]. pose proof (zlen_nonneg source). unfold span_ok. cbn. lia. }
  pose proof (lex_sound source Hv) as Hl. destruct (lex source) as [tokens|l]; [|done]. destruct Hl as (l & -> & Ho).
  pose proof (module_spec (zlen source) (mkParser (l ++ [the_end (zlen source)]) 0 0)) as Hm. unfold wp in Hm.
  assert (good (zlen source) (mkParser (l ++ [the_end (zlen source)]) 0 0)) as Hg by (exists 0, l; done).
  specialize (Hm Hg eq_refl). unfold the_end in Hm. destruct (module_ _) as [m s'|d|]; [done|by exists d|done].
Qed.

(** The parser reads any text of the tokens of a module. *)
Lemma parse_module_reads source m : lexes source (module_tokens m) anything -> module_ok m = true ->
  source <> [] -> zlen source <= MAX_REACTIVE_SOURCE_BYTES -> zlen (module_tokens m) < MAX_REACTIVE_TOKENS ->
  exists m', parse_module source = Accepted m' /\ erase_module m' = erase_module m.
Proof.
  intros Hl Hm Hne Hb Ht. unfold parse_module. rewrite bool_decide_false by done.
  destruct (Z.ltb_spec MAX_REACTIVE_SOURCE_BYTES (zlen source)); [lia|]. cbn [orb].
  destruct (lex_reads source _ Hl Ht) as (toks & stop & -> & Hk).
  destruct (accepts_module m Hm toks (mkToken TEnd stop) [] Hk eq_refl) as (m' & E & He). unfold at_tokens in E. cbn [fst snd] in E.
  rewrite E. eauto.
Qed.
