(* ===== verification/Reactive.v ===== *)
(** * Reactive modules: the syntax as a whole

    What [parse_module] and [format_module] promise together: parsing is total
    and sound, canonical source is read back, and canonical source is equal
    exactly when the modules are. *)

From S2P Require Import Prelude Value Names Text ReactiveSyntax ReactiveParser ReactiveLexer ReactiveTokens ReactiveComplete ReactiveSound.
From Stdlib Require Import Strings.String Strings.Byte.
From stdpp Require Import gmap list.

Local Open Scope Z_scope.

(** The canonical source of a module is within the bounds of the lexer. *)
Definition within_limits (m : ReactiveModule) : bool :=
  (zlen (format_module m) <=? MAX_REACTIVE_SOURCE_BYTES) && (zlen (module_tokens m) <? MAX_REACTIVE_TOKENS).

(** ** The formatter does not look at spans *)
Lemma format_operand_erase o : format_operand (erase_operand o) = format_operand o.
Proof. by destruct o as [| |[]]. Qed.

Lemma format_expression_erase e p : format_expression (erase_expression e) p = format_expression e p.
Proof.
  revert p. induction e as [o|l IHl op r IHr sp]; intros p; cbn [erase_expression format_expression]; [apply format_operand_erase|].
  by rewrite IHl, IHr.
Qed.

Lemma comma_separated_map {A} (f g : A -> list byte) (h : A -> A) l : (forall x, f (h x) = g x) ->
  comma_separated f (map h l) = comma_separated g l.
Proof. intros H. rewrite !comma_separated_separate, map_map. f_equal. apply map_ext. done. Qed.

Lemma concat_map_erase {A} (f : A -> list byte) (h : A -> A) l : (forall x, f (h x) = f x) ->
  concat (map f (map h l)) = concat (map f l).
Proof. intros H. rewrite map_map. f_equal. by apply map_ext. Qed.

Lemma format_parameters_erase l : format_parameters (map erase_parameter l) = format_parameters l.
Proof. unfold format_parameters. by rewrite (comma_separated_map _ _ erase_parameter) by done. Qed.

Lemma format_arguments_erase l : format_arguments (map erase_argument l) = format_arguments l.
Proof.
  unfold format_arguments. rewrite (comma_separated_map _ (fun v => ag_name v ++ text " = " ++ format_operand (ag_value v)) erase_argument);
    [done|]. intros a. cbn [erase_argument ag_name ag_value]. by rewrite format_operand_erase.
Qed.

Lemma format_stream_erase s : format_stream (erase_stream s) = format_stream s.
Proof.
  unfold format_stream. cbn [erase_stream sm_name sm_parameters sm_partition sm_events sm_predicate].
  rewrite format_parameters_erase, (comma_separated_map _ (fun b => pb_field b ++ text " = $" ++ pb_parameter b) erase_partition) by done.
  rewrite concat_map_erase by done. destruct (sm_predicate s); [|done]. cbn [fmap option_fmap option_map format_predicate].
  by rewrite format_expression_erase.
Qed.

Lemma format_watch_erase w : format_watch (erase_watch w) = format_watch w.
Proof. unfold format_watch. cbn [erase_watch wa_name wa_parameters wa_query wa_update_mode]. by rewrite format_parameters_erase. Qed.

Lemma format_subscription_erase s : format_subscription (erase_subscription s) = format_subscription s.
Proof.
  unfold format_subscription.
  cbn [erase_subscription su_name su_parameters su_stream su_hydrations su_reactions su_limits erase_binding sb_stream sb_arguments].
  rewrite format_parameters_erase, format_arguments_erase, !concat_map_erase; [done|done|].
  intros h. unfold format_hydration. cbn [erase_hydration hy_name hy_query hy_arguments]. by rewrite format_arguments_erase.
Qed.

Lemma format_module_erase m : format_module (erase_module m) = format_module m.
Proof.
  unfold format_module. cbn [erase_module md_name md_version md_streams md_watches md_subscriptions].
  by rewrite !concat_map_erase by (apply format_stream_erase || apply format_watch_erase || apply format_subscription_erase).
Qed.

Lemma format_like m m' : erase_module m' = erase_module m -> format_module m' = format_module m.
Proof. intros H. by rewrite <- (format_module_erase m'), H, format_module_erase. Qed.

Lemma parse_format m : module_ok m = true -> within_limits m = true ->
  exists m', parse_module (format_module m) = Accepted m' /\ erase_module m' = erase_module m.
Proof.
  unfold within_limits. intros Hm [Hb Ht]%andb_true_iff.
  apply parse_module_reads; [by apply lexes_module|done|done|lia|lia].
Qed.

Lemma format_injective m1 m2 : module_ok m1 = true -> module_ok m2 = true -> within_limits m1 = true -> within_limits m2 = true ->
  format_module m1 = format_module m2 -> erase_module m1 = erase_module m2.
Proof.
  intros S1 S2 H1 H2 Hf. destruct (parse_format m1 S1 H1) as (m1' & P1 & <-). destruct (parse_format m2 S2 H2) as (m2' & P2 & <-).
  congruence.
Qed.

(** ** A source whose canonical text is too long *)
Section long.
Context (query : list byte).
Hypothesis query_ok : identifier_ok query = true.

Definition short_source : list byte :=
  text "reactive M version 1{watch W()query " ++ query ++ text " updates patch;}".
Definition short_module : ReactiveModule :=
  mkModule (text "M") 1 [] [mkWatch (text "W") [] query Patch no_span] [] no_span.

Lemma lexes_short : lexes short_source (module_tokens short_module) anything.
Proof.
  unfold short_source, module_tokens, watch_tokens, parameters_tokens, parenthesized.
  cbn [short_module md_name md_version md_streams md_watches md_subscriptions map concat app
       wa_name wa_parameters wa_query wa_update_mode separate mode_token].
  fixed_texts. read_text. match goal with |- lexes (_ :: ?l) ?k ?F => change (lexes (show_int 1 ++ l) k F) end.
  apply lexes_number; [read_text|read_boundary].
Qed.

Lemma short_module_ok : module_ok short_module = true.
Proof. unfold module_ok. cbn. unfold watch_ok. cbn [wa_name wa_parameters wa_query]. rewrite query_ok. done. Qed.

Lemma short_lengths : zlen short_source = 52 + zlen query /\ zlen (format_module short_module) = 59 + zlen query.
Proof.
  assert (forall a b, zlen (a ++ query ++ b) = zlen a + zlen b + zlen query) as H by (intros; rewrite !zlen_app; lia).
  split; [unfold short_source; rewrite H; f_equal; reflexivity|].
  assert (format_module short_module = text "reactive M version 1 {" ++ newline ++ text "  watch W() query " ++ query ++
    text " updates patch;" ++ newline ++ text "}" ++ newline) as ->.
  { unfold format_module. cbn [short_module md_name md_version md_streams md_watches md_subscriptions map concat app].
    unfold format_watch. cbn [wa_name wa_parameters wa_query wa_update_mode]. fixed_texts. reflexivity. }
  rewrite !zlen_app. change (zlen newline) with 1. vm_compute (zlen (text _)). lia.
Qed.
End long.

Lemma long_identifier k : 0 < k -> exists w, identifier_ok w = true /\ zlen w = k.
Proof.
  intros Hk. exists (repeat "q"%byte (Z.to_nat k)). split; [|unfold zlen; rewrite repeat_length; lia].
  destruct (Z.to_nat k) as [|n] eqn:E; [lia|]. cbn [repeat identifier_ok]. cbn [is_identifier_start andb].
  apply forallb_forall. intros b Hb. change ("q"%byte :: repeat "q"%byte n) with (repeat "q"%byte (S n)) in Hb.
  by apply repeat_spec in Hb as ->.
Qed.

(** ** Properties *)

(** C20. The canonical source of every well-formed module within the lexer's
    bounds is accepted; the module it gives differs from the one that was
    written in its spans only, and is written the same way again. *)
Theorem reactive_roundtrip (m : ReactiveModule) :
  module_ok m = true -> within_limits m = true ->
  exists m', parse_module (format_module m) = Accepted m' /\ erase_module m' = erase_module m /\
    format_module m' = format_module m.
Proof.
  intros Hm Hl. destruct (parse_format m Hm Hl) as (m' & E & He).
  exists m'. split_and!; [done..|by apply format_like].
Qed.

(** The module of the crate's own acceptance test. *)
Definition ticket_source : list byte := text "
reactive TicketDeskReactive version 1 {
  stream TicketActivity($organization_id: UUID, $minimum_priority: I64) {
    partition (organization_id = $organization_id);
    event TicketCreated select (ticket_id, title, priority);
    event TicketReprioritized select (ticket_id, priority);
    where event.priority >= $minimum_priority;
  }
  watch OpenTickets($organization_id: UUID) query OpenTicketsPage updates patch;
  subscription TriageTicket($organization_id: UUID) {
    stream TicketActivity(organization_id = $organization_id, minimum_priority = 0);
    hydrate ticket query TicketById(organization_id = $organization_id, ticket_id = event.ticket_id);
    reaction assign command AssignTicket;
    limits {
      batch 4;
      in_flight 4;
      lease_seconds 60;
    }
  }
}
".

Definition ticket_module : ReactiveModule :=
  match parse_module ticket_source with Accepted m => m | _ => short_module [] end.

Lemma reactive_roundtrip_witness :
  module_ok ticket_module = true /\ within_limits ticket_module = true /\
  exists m', parse_module (format_module ticket_module) = Accepted m' /\ erase_module m' = erase_module ticket_module /\
    format_module m' = format_module ticket_module.
Proof.
  split; [vm_compute; reflexivity|]. split; [vm_compute; reflexivity|].
  apply reactive_roundtrip; vm_compute; reflexivity.
Defined.

(** C21. Parsing is total and sound: on every string the parser ends without a
    panic, either with a module in which every name can be written, every list
    is within its bound and has no duplicate, every predicate is within its
    node and nesting bounds, and whose span lies in the source; or with exactly
    one diagnostic, whose span lies in the source. *)
Theorem reactive_parse_sound (source : list byte) :
  utf8_valid source = true ->
  match parse_module source with
  | Accepted m => module_ok m = true /\ span_ok (zlen source) (md_span m)
  | Diagnosed l => diagnosed (zlen source) l
  | Panicked => False
  end.
Proof. apply parse_module_sound. Qed.

Lemma reactive_parse_sound_witness :
  utf8_valid ticket_source = true /\
  match parse_module ticket_source with
  | Accepted m => module_ok m = true /\ span_ok (zlen ticket_source) (md_span m)
  | Diagnosed l => diagnosed (zlen ticket_source) l
  | Panicked => False
  end.
Proof. split; [vm_compute; reflexivity|]. apply reactive_parse_sound. vm_compute. reflexivity. Defined.

(** Canonical source is a normal form: two accepted sources have the same
    canonical source exactly when they are the same module up to spans, as long
    as the canonical source is within the lexer's bounds. *)
Theorem reactive_canonical (source1 source2 : list byte) (m1 m2 : ReactiveModule) :
  utf8_valid source1 = true -> utf8_valid source2 = true ->
  parse_module source1 = Accepted m1 -> parse_module source2 = Accepted m2 ->
  within_limits m1 = true -> within_limits m2 = true ->
  format_module m1 = format_module m2 <-> erase_module m1 = erase_module m2.
Proof.
  intros Hu1 Hu2 E1 E2 H1 H2. split; [|by intros H; apply format_like].
  pose proof (parse_module_sound source1 Hu1) as S1. pose proof (parse_module_sound source2 Hu2) as S2.
  rewrite E1 in S1. rewrite E2 in S2. apply format_injective; [apply S1|apply S2|done|done].
Qed.

Definition ticket_reparsed : ReactiveModule :=
  match parse_module (format_module ticket_module) with Accepted m => m | _ => short_module [] end.

Lemma reactive_canonical_witness :
  parse_module ticket_source = Accepted ticket_module /\
  parse_module (format_module ticket_module) = Accepted ticket_reparsed /\
  ticket_module <> ticket_reparsed /\
  (format_module ticket_module = format_module ticket_reparsed <-> erase_module ticket_module = erase_module ticket_reparsed).
Proof.
  split; [vm_compute; reflexivity|]. split; [vm_compute; reflexivity|]. split; [vm_compute; congruence|].
  apply (reactive_canonical ticket_source (format_module ticket_module)); vm_compute; reflexivity.
Defined.

(** Canonical source may be refused: there is a source within the size bound
    that is accepted and whose canonical source, longer by the blanks that the
    formatter writes, is over the bound, so parsing it gives the diagnostic for
    an exceeded limit. *)
Theorem canonical_source_refused : exists source m,
  zlen source <= MAX_REACTIVE_SOURCE_BYTES /\ parse_module source = Accepted m /\
  parse_module (format_module m) = Diagnosed [mkDiagnostic LimitExceeded (mkSpan 0 (zlen (format_module m)))].
Proof.
  destruct (long_identifier (MAX_REACTIVE_SOURCE_BYTES - 52)) as (w & Hw & Hz); [done|].
  destruct (short_lengths w) as [Ls Lf].
  destruct (parse_module_reads (short_source w) (short_module w)) as (m & E & He);
    [by apply lexes_short|by apply short_module_ok|done|lia|done|].
  exists (short_source w), m. split_and!; [lia|done|]. rewrite (format_like _ _ He). unfold parse_module.
  destruct (Z.ltb_spec MAX_REACTIVE_SOURCE_BYTES (zlen (format_module (short_module w)))); [|lia]. by rewrite orb_true_r.
Qed.
