(* ===== verification/ReactivePlan.v ===== *)
(** * Reactive plans

    [riffdb-query-ir/src/reactive.rs]: the typed plans of compiled reactive
    operations and modules, their checked constructors, the canonical bytes of a
    plan and the identities that are hashed over them; with the cost vector of
    [riffdb-types/src/query.rs].

    A plan is determined by its canonical bytes, and a module by its identity
    unless SHA-256 collides. *)

From S2P Require Import Prelude Framing Hash Names Sort.
From Stdlib Require Import Strings.String Strings.Byte.
From stdpp Require Import list.

Local Open Scope Z_scope.

Abbreviation MAX_REACTIVE_MODULE_BYTES := 16777216.
Abbreviation REACTIVE_IR_VERSION_V1 := 1.
Abbreviation REACTIVE_MODULE_FORMAT_VERSION_V1 := 1.
Abbreviation MAX_APPLICATION_QUERY_STEPS := 64.
Abbreviation MAX_APPLICATION_QUERY_RESULT_BYTES := 4194304.

Definition OPERATION_MAGIC : list byte := list_byte_of_string "RIFFDB-REACTIVE-OPERATION"%string ++ [x00].
Definition MODULE_MAGIC : list byte := list_byte_of_string "RIFFDB-REACTIVE-MODULE"%string ++ [x00].

(** ** Names and order *)
Definition valid_name (value : list byte) : bool :=
  negb (bool_decide (value = [])) && (zlen value <=? 256) &&
  match value with
  | [] => true
  | b :: rest =>
      (bool_decide (b = "_"%byte) || is_ascii_alphabetic b) &&
      forallb (fun b => bool_decide (b = "_"%byte) || is_ascii_alphabetic b || is_ascii_digit b) rest
  end.

(** Comparison of pairs of strings. *)
Definition pair_cmp (a b : list byte * list byte) : comparison :=
  match lex a.1 b.1 with Eq => lex a.2 b.2 | c => c end.

(** ** Parts of a plan *)
Record ReactiveParameterV1 := mkReactiveParameter { rp_name : list byte; rp_type_name : list byte }.

Definition reactive_parameter_checked (name type_name : list byte) : option ReactiveParameterV1 :=
  if valid_name name && negb (bool_decide (type_name = [])) && (zlen type_name <=? 512)
  then Some (mkReactiveParameter name type_name) else None.

Record ReactiveEventFieldV1 := mkReactiveEventField {
  rf_name : list byte;
  rf_field_id : Z;
  rf_type_name : list byte;
}.

Definition reactive_event_field_checked (name : list byte) (field_id : Z) (type_name : list byte) :
    option ReactiveEventFieldV1 :=
  if valid_name name && negb (bool_decide (type_name = []))
  then Some (mkReactiveEventField name field_id type_name) else None.

Record ReactiveEventV1 := mkReactiveEvent {
  rv_name : list byte;
  rv_event_type_id : Z;
  rv_fields : list ReactiveEventFieldV1;
}.

Definition field_cmp (a b : ReactiveEventFieldV1) : comparison := lex (rf_name a) (rf_name b).

Definition reactive_event_checked (name : list byte) (event_type_id : Z) (fields : list ReactiveEventFieldV1) :
    option ReactiveEventV1 :=
  let fields := sort_by field_cmp fields in
  if negb (valid_name name) || bool_decide (fields = []) || (256 <? zlen fields) ||
     negb (strictly_increasing field_cmp fields)
  then None
  else Some (mkReactiveEvent name event_type_id fields).

Record ReactivePartitionBindingV1 := mkReactivePartitionBinding {
  rb_field : list byte;
  rb_parameter : list byte;
  rb_type_name : list byte;
}.

Definition reactive_partition_binding_checked (field parameter type_name : list byte) :
    option ReactivePartitionBindingV1 :=
  if valid_name field && valid_name parameter && negb (bool_decide (type_name = []))
  then Some (mkReactivePartitionBinding field parameter type_name) else None.

Inductive ReactivePredicateNodeV1 :=
  | N_EventField (name type_name : list byte)
  | N_Parameter (name type_name : list byte)
  | N_Literal (type_name value : list byte)
  | N_Equal | N_NotEqual | N_Less | N_LessEqual | N_Greater | N_GreaterEqual
  | N_And | N_Or.

(** *** Costs *)
Record QueryCostVectorV1 := mkCost {
  qc_access_steps : Z;
  qc_scanned_index_rows : Z;
  qc_point_reads : Z;
  qc_dependent_keys : Z;
  qc_intermediate_rows : Z;
  qc_projected_values : Z;
  qc_encoded_result_bytes : Z;
}.

Definition cost_new (access_steps scanned_index_rows point_reads dependent_keys intermediate_rows
    projected_values encoded_result_bytes : Z) : option QueryCostVectorV1 :=
  if (access_steps =? 0) || (MAX_APPLICATION_QUERY_STEPS <? access_steps) ||
     (MAX_APPLICATION_QUERY_RESULT_BYTES <? encoded_result_bytes)
  then None
  else Some (mkCost access_steps scanned_index_rows point_reads dependent_keys intermediate_rows
               projected_values encoded_result_bytes).

Definition cost_zero : QueryCostVectorV1 := mkCost 0 0 0 0 0 0 0.

(** *** Dependencies *)
Record ReactiveQueryDependencyV1 := mkQueryDependency {
  rq_name : list byte;
  rq_module_hash : list byte;
  rq_query_name : list byte;
  rq_plan_hash : list byte;
  rq_arguments : list (list byte * list byte);
  rq_cost : QueryCostVectorV1;
}.

Definition query_dependency_checked (name module_hash query_name plan_hash : list byte)
    (arguments : list (list byte * list byte)) (cost : QueryCostVectorV1) : option ReactiveQueryDependencyV1 :=
  let arguments := sort_by pair_cmp arguments in
  if negb (valid_name name) || negb (valid_name query_name) ||
     negb (strictly_increasing (fun a b => lex a.1 b.1) arguments)
  then None
  else Some (mkQueryDependency name module_hash query_name plan_hash arguments cost).

Record ReactiveCommandDependencyV1 := mkCommandDependency {
  rc_reaction_name : list byte;
  rc_command_name : list byte;
  rc_command_id : Z;
}.

Definition command_dependency_checked (reaction_name command_name : list byte) (command_id : Z) :
    option ReactiveCommandDependencyV1 :=
  if valid_name reaction_name && valid_name command_name
  then Some (mkCommandDependency reaction_name command_name command_id) else None.

Record ReactiveDeliveryLimitsV1 := mkDeliveryLimits {
  rl_batch : Z;
  rl_in_flight : Z;
  rl_lease_seconds : Z;
}.

Definition delivery_limits_new (batch in_flight lease_seconds : Z) : option ReactiveDeliveryLimitsV1 :=
  if (batch =? 0) || (8 <? batch) || (in_flight =? 0) || (8 <? in_flight) ||
     (lease_seconds <? 5) || (900 <? lease_seconds)
  then None
  else Some (mkDeliveryLimits batch in_flight lease_seconds).

Inductive ReactiveUpdateModeV1 := M_Patch | M_Reset.

(** ** Operations *)
Inductive ReactiveOperationPlanV1 :=
  | P_Stream (parameters : list ReactiveParameterV1) (partition : list ReactivePartitionBindingV1)
      (events : list ReactiveEventV1) (predicate : list ReactivePredicateNodeV1)
  | P_Watch (parameters : list ReactiveParameterV1) (query : ReactiveQueryDependencyV1)
      (update_mode : ReactiveUpdateModeV1) (patch_key : list (list byte))
  | P_Subscription (parameters : list ReactiveParameterV1) (stream_name stream_hash : list byte)
      (stream_arguments : list (list byte * list byte)) (hydrations : list ReactiveQueryDependencyV1)
      (reactions : list ReactiveCommandDependencyV1) (limits : ReactiveDeliveryLimitsV1).

(** *** Canonical bytes: what is written so far, or a failure *)
Definition Writer : Type := list byte -> option (list byte).

Definition written : Writer := Some.
Definition then_write (w1 w2 : Writer) : Writer := fun bytes => w1 bytes ≫= w2.
Infix "+>" := then_write (at level 60, right associativity).

(** [extend_from_slice] *)
Definition put (l : list byte) : Writer := fun bytes => Some (bytes ++ l).

Definition write_each {A} (w : A -> Writer) (l : list A) : Writer :=
  foldr (fun x rest => w x +> rest) written l.

Definition count (value : Z) : Writer := fun bytes =>
  value ← u_checked 32 value; Some (bytes ++ be_bytes 4 value).

Definition blob (value : list byte) : Writer :=
  count (zlen value) +> put value +>
  fun bytes => if zlen bytes <=? MAX_REACTIVE_MODULE_BYTES then Some bytes else None.

Definition write_text (value : list byte) : Writer := blob value.

Definition strings (values : list (list byte)) : Writer :=
  count (zlen values) +> write_each write_text values.

Definition pairs (values : list (list byte * list byte)) : Writer :=
  count (zlen values) +> write_each (fun p => write_text p.1 +> write_text p.2) values.

Definition write_cost (c : QueryCostVectorV1) : Writer :=
  write_each (fun part => put (be_bytes 8 part))
    [qc_access_steps c; qc_scanned_index_rows c; qc_point_reads c; qc_dependent_keys c;
     qc_intermediate_rows c; qc_projected_values c; qc_encoded_result_bytes c].

Definition predicate_node (value : ReactivePredicateNodeV1) : Writer :=
  match value with
  | N_EventField name ty => put [x01] +> write_text name +> write_text ty
  | N_Parameter name ty => put [x02] +> write_text name +> write_text ty
  | N_Literal ty value => put [x03] +> write_text ty +> blob value
  | N_Equal => put [x04]
  | N_NotEqual => put [x05]
  | N_Less => put [x06]
  | N_LessEqual => put [x07]
  | N_Greater => put [x08]
  | N_GreaterEqual => put [x09]
  | N_And => put [x0a]
  | N_Or => put [x0b]
  end.

Definition query_into (value : ReactiveQueryDependencyV1) : Writer :=
  write_text (rq_name value) +> put (rq_module_hash value) +> write_text (rq_query_name value) +>
  put (rq_plan_hash value) +> pairs (rq_arguments value) +> write_cost (rq_cost value).

Definition parameters_into (values : list ReactiveParameterV1) : Writer :=
  count (zlen values) +> write_each (fun p => write_text (rp_name p) +> write_text (rp_type_name p)) values.

Definition partition_into (value : ReactivePartitionBindingV1) : Writer :=
  write_text (rb_field value) +> write_text (rb_parameter value) +> write_text (rb_type_name value).

Definition event_into (event : ReactiveEventV1) : Writer :=
  write_text (rv_name event) +> put (be_bytes 4 (rv_event_type_id event)) +>
  count (zlen (rv_fields event)) +>
  write_each (fun f => write_text (rf_name f) +> put (be_bytes 4 (rf_field_id f)) +> write_text (rf_type_name f))
    (rv_fields event).

Definition reaction_into (value : ReactiveCommandDependencyV1) : Writer :=
  write_text (rc_reaction_name value) +> write_text (rc_command_name value) +>
  put (be_bytes 4 (rc_command_id value)).

Definition plan_into (plan : ReactiveOperationPlanV1) : Writer :=
  match plan with
  | P_Stream parameters partition events predicate =>
      put [x01] +> parameters_into parameters +>
      count (zlen partition) +> write_each partition_into partition +>
      count (zlen events) +> write_each event_into events +>
      count (zlen predicate) +> write_each predicate_node predicate
  | P_Watch parameters query update_mode patch_key =>
      put [x02] +> parameters_into parameters +> query_into query +>
      put [match update_mode with M_Patch => x01 | M_Reset => x02 end] +> strings patch_key
  | P_Subscription parameters stream_name stream_hash stream_arguments hydrations reactions limits =>
      put [x03] +> parameters_into parameters +> write_text stream_name +> put stream_hash +>
      pairs stream_arguments +>
      count (zlen hydrations) +> write_each query_into hydrations +>
      count (zlen reactions) +> write_each reaction_into reactions +>
      put [Z_to_byte (rl_batch limits)] +> put [Z_to_byte (rl_in_flight limits)] +>
      put (be_bytes 2 (rl_lease_seconds limits))
  end.

Definition bounded_bytes : Writer := fun bytes =>
  if zlen bytes <=? MAX_REACTIVE_MODULE_BYTES then Some bytes else None.

Definition encode_operation (name : list byte) (plan : ReactiveOperationPlanV1) : option (list byte) :=
  (put (be_bytes 4 REACTIVE_IR_VERSION_V1) +> write_text name +> plan_into plan +> bounded_bytes) OPERATION_MAGIC.

Record CompiledReactiveOperationV1 := mkCompiledOperation {
  co_name : list byte;
  co_plan : ReactiveOperationPlanV1;
  co_canonical_bytes : list byte;
  co_identity : list byte;
}.

(** ** Modules *)
Record ReactiveModulePlanV1 := mkModulePlan {
  mp_name : list byte;
  mp_version : Z;
  mp_contract_lineage : list byte;
  mp_contract_version : Z;
  mp_contract_hash : list byte;
  mp_source_hash : list byte;
  mp_operations : list CompiledReactiveOperationV1;
  mp_canonical_bytes : list byte;
  mp_identity : list byte;
}.

Definition operation_into (operation : CompiledReactiveOperationV1) : Writer :=
  blob (co_canonical_bytes operation) +> put (co_identity operation).

Definition encode_module (name : list byte) (version : Z) (lineage : list byte) (contract_version : Z)
    (contract_hash source_hash : list byte) (operations : list CompiledReactiveOperationV1) : option (list byte) :=
  (put (be_bytes 4 REACTIVE_MODULE_FORMAT_VERSION_V1) +> put (be_bytes 4 REACTIVE_IR_VERSION_V1) +>
   write_text name +> put (be_bytes 8 version) +> write_text lineage +> put (be_bytes 8 contract_version) +>
   put contract_hash +> put source_hash +> count (zlen operations) +> write_each operation_into operations +>
   bounded_bytes) MODULE_MAGIC.

Definition operation_cmp (a b : CompiledReactiveOperationV1) : comparison := lex (co_name a) (co_name b).

Section hashes.
Context (sha256 : list byte -> list byte).

Definition hash_reactive_operation (bytes : list byte) : list byte := typed_hash sha256 HD_ReactiveOperation bytes.
Definition hash_reactive_module (bytes : list byte) : list byte := typed_hash sha256 HD_ReactiveModule bytes.
Definition hash_reactive_source (bytes : list byte) : list byte := typed_hash sha256 HD_ReactiveSource bytes.

Definition compiled_operation_checked (name : list byte) (plan : ReactiveOperationPlanV1) :
    option CompiledReactiveOperationV1 :=
  canonical_bytes ← encode_operation name plan;
  Some (mkCompiledOperation name plan canonical_bytes (hash_reactive_operation canonical_bytes)).

Definition module_plan_checked (name : list byte) (version : Z) (lineage : list byte) (contract_version : Z)
    (contract_hash source_hash : list byte) (operations : list CompiledReactiveOperationV1) :
    option ReactiveModulePlanV1 :=
  if negb (valid_name name) || (version =? 0) || bool_decide (operations = []) then None
  else
    let operations := sort_by operation_cmp operations in
    if negb (strictly_increasing operation_cmp operations) then None
    else
      canonical_bytes ← encode_module name version lineage contract_version contract_hash source_hash operations;
      Some (mkModulePlan name version lineage contract_version contract_hash source_hash operations
              canonical_bytes (hash_reactive_module canonical_bytes)).
End hashes.

(** Exact operation lookup: [binary_search_by] over distinct names in order finds
    the operation of that name. *)
Definition module_operation (m : ReactiveModulePlanV1) (name : list byte) : option CompiledReactiveOperationV1 :=
  find (fun operation => bool_decide (co_name operation = name)) (mp_operations m).

(** ** A plan is determined by its bytes *)

(** Writing appends. *)
Definition grows (w : Writer) : Prop := forall b r, w b = Some r -> exists e, r = b ++ e.

Create HintDb grows.

Lemma grows_written : grows written.
Proof. intros b r [= <-]. exists []. by rewrite app_nil_r. Qed.
Lemma grows_put l : grows (put l).
Proof. intros b r [= <-]. by exists l. Qed.
Lemma grows_seq w1 w2 : grows w1 -> grows w2 -> grows (w1 +> w2).
Proof.
  intros H1 H2 b r. unfold then_write. destruct (w1 b) as [m|] eqn:E; [|done]. cbn. intros Hr.
  destruct (H1 _ _ E) as [e ->], (H2 _ _ Hr) as [e' ->]. exists (e ++ e'). by rewrite app_assoc.
Qed.
Lemma grows_count n : grows (count n).
Proof. intros b r. unfold count. destruct (u_checked 32 n); [|done]. cbn. intros [= <-]. eauto. Qed.
Lemma grows_bounded : grows bounded_bytes.
Proof. intros b r. unfold bounded_bytes. destruct (_ <=? _); [|done]. intros [= <-]. exists []. by rewrite app_nil_r. Qed.
#[export] Hint Resolve grows_written grows_put grows_seq grows_count grows_bounded : grows.
Lemma grows_each {A} (w : A -> Writer) l : (forall x, grows (w x)) -> grows (write_each w l).
Proof. intros H. unfold write_each. induction l; cbn [foldr]; auto with grows. Qed.
#[export] Hint Resolve grows_each : grows.
Lemma grows_blob v : grows (blob v).
Proof. unfold blob. apply grows_seq; [apply grows_count|]. apply grows_seq; [apply grows_put|]. apply grows_bounded. Qed.
Lemma grows_text v : grows (write_text v).
Proof. apply grows_blob. Qed.
#[export] Hint Resolve grows_blob grows_text : grows.

(** Equal results, whatever follows them, come from equal values. *)
Class Frame {A} (wf : A -> Prop) (w : A -> Writer) : Prop := {
  frame_grows x : grows (w x);
  frame_inj x y b r1 r2 s t : wf x -> wf y -> w x b = Some r1 -> w y b = Some r2 ->
    r1 ++ s = r2 ++ t -> x = y /\ s = t;
}.

(** Reads one value off two sequences of writes. *)
Lemma peel_write {A} (wf : A -> Prop) w `{!Frame wf w} x y k1 k2 b r1 r2 s t :
  (w x +> k1) b = Some r1 -> (w y +> k2) b = Some r2 -> r1 ++ s = r2 ++ t ->
  wf x -> wf y -> grows k1 -> grows k2 -> x = y /\ exists m, k1 m = Some r1 /\ k2 m = Some r2.
Proof.
  unfold then_write. destruct (w x b) as [m1|] eqn:E1; [|done]. destruct (w y b) as [m2|] eqn:E2; [|done]. cbn.
  intros H1 H2 E Hx Hy Hk1 Hk2. destruct (Hk1 _ _ H1) as [e1 ->], (Hk2 _ _ H2) as [e2 ->].
  rewrite <- !app_assoc in E. destruct (frame_inj x y b m1 m2 _ _ Hx Hy E1 E2 E) as [-> _].
  split; [done|]. rewrite E1 in E2. injection E2 as ->. eauto.
Qed.

(** The last value of a sequence, when its writer needs no condition. *)
Lemma peel_last {A} (wf : A -> Prop) w `{!Frame wf w} x y b r1 r2 s t :
  w x b = Some r1 -> w y b = Some r2 -> r1 ++ s = r2 ++ t -> wf x -> wf y -> x = y /\ s = t.
Proof. eauto using frame_inj. Qed.

#[export] Instance put_frame n : Frame (fun l => length l = n) put.
Proof.
  split; [apply grows_put|]. intros x y b r1 r2 s t Hx Hy [= <-] [= <-] E. rewrite <- !app_assoc in E.
  apply app_inv_head in E. apply app_inj_1 in E; [done|congruence].
Qed.

#[export] Instance be_frame n : Frame (u_range (8 * Z.of_nat n)) (fun z => put (be_bytes n z)).
Proof.
  split; [intros; apply grows_put|]. intros x y b r1 r2 s t Hx Hy [= <-] [= <-] E. rewrite <- !app_assoc in E.
  apply app_inv_head in E. apply (unambiguous (P := u_range (8 * Z.of_nat n)) (enc := be_bytes n)) in E; done.
Qed.

#[export] Instance count_frame : Frame (fun _ => True) count.
Proof.
  split; [apply grows_count|]. intros x y b r1 r2 s t _ _. unfold count.
  destruct (u_checked 32 x) as [x'|] eqn:Ex; [|done]. destruct (u_checked 32 y) as [y'|] eqn:Ey; [|done].
  cbn [mbind option_bind].
  apply u_checked_Some in Ex as [-> Hx], Ey as [-> Hy]. intros [= <-] [= <-] E. rewrite <- !app_assoc in E.
  apply app_inv_head in E. apply (unambiguous (P := u_range (8 * Z.of_nat 4)) (enc := be_bytes 4)) in E; done.
Qed.

#[export] Instance blob_frame : Frame (fun _ => True) blob.
Proof.
  split; [apply grows_blob|]. intros x y b r1 r2 s t _ _ H1 H2 E. unfold blob in *.
  destruct (peel_write (fun _ => True) count _ _ _ _ _ _ _ _ _ H1 H2 E) as [Hl (m & H1' & H2')];
    [done..|apply grows_seq; [apply grows_put|apply grows_bounded]|apply grows_seq; [apply grows_put|apply grows_bounded]|].
  unfold then_write, put in H1', H2'. cbn in H1', H2'. destruct (_ <=? _); [|done]. destruct (_ <=? _); [|done].
  injection H1' as <-. injection H2' as <-. rewrite <- !app_assoc in E. apply app_inv_head in E.
  apply app_inj_1 in E; [done|]. unfold zlen in Hl. lia.
Qed.

#[export] Instance text_frame : Frame (fun _ => True) write_text := blob_frame.

Lemma each_frame {A} (wf : A -> Prop) w `{!Frame wf w} l k : forall b r1 r2 s t, Forall wf l -> Forall wf k -> length l = length k ->
  write_each w l b = Some r1 -> write_each w k b = Some r2 -> r1 ++ s = r2 ++ t -> l = k /\ s = t.
Proof.
  revert k. induction l as [|x l IH]; intros [|y k] b r1 r2 s t Hl Hk Hlen H1 H2 E; try done.
  { injection H1 as <-. injection H2 as <-. by apply app_inv_head in E. }
  apply Forall_cons in Hl as [Hx Hl], Hk as [Hy Hk].
  change (write_each w (x :: l)) with (w x +> write_each w l) in H1.
  change (write_each w (y :: k)) with (w y +> write_each w k) in H2.
  destruct (peel_write wf w _ _ _ _ _ _ _ _ _ H1 H2 E) as [-> (m & H1' & H2')];
    [done|done|apply grows_each; intros; apply frame_grows..|].
  destruct (IH k m r1 r2 s t) as [-> ->]; auto.
Qed.

(** A count and that many values. *)
Definition counted_list {A} (w : A -> Writer) (l : list A) : Writer := count (zlen l) +> write_each w l.

#[export] Instance list_frame {A} (wf : A -> Prop) w `{!Frame wf w} : Frame (Forall wf) (counted_list w).
Proof.
  split; [intros x; apply grows_seq; [apply grows_count|apply grows_each; intros; apply frame_grows]|]. intros x y b r1 r2 s t Hx Hy H1 H2 E. unfold counted_list in *.
  destruct (peel_write (fun _ => True) count _ _ _ _ _ _ _ _ _ H1 H2 E) as [Hl (m & H1' & H2')];
    [done|done|apply grows_each; intros; apply frame_grows..|].
  eapply each_frame; eauto. unfold zlen in Hl. lia.
Qed.

(** Reads the next value of two equal sequences of writes, off [H1] and [H2]. *)
Ltac peel_next wf w H1 H2 E :=
  let m := fresh "m" in let H1' := fresh in let H2' := fresh in let Heq := fresh "Heq" in
  destruct (peel_write wf w _ _ _ _ _ _ _ _ _ H1 H2 E) as [Heq (m & H1' & H2')];
    [first [done | reflexivity | naive_solver]|first [done | reflexivity | naive_solver]|solve [eauto 20 with grows]..|];
  clear H1 H2; rename H1' into H1; rename H2' into H2.
Ltac peel_final wf w H1 H2 E :=
  let Heq := fresh "Heq" in
  destruct (peel_last wf w _ _ _ _ _ _ _ H1 H2 E) as [Heq ?]; [first [done | naive_solver]..|].

Notation always := (fun _ => True).

#[export] Instance pair_frame : Frame always (fun p : list byte * list byte => write_text p.1 +> write_text p.2).
Proof.
  split; [auto with grows|]. intros [a b] [c d] m r1 r2 s t _ _ H1 H2 E. cbn [fst snd] in *.
  peel_next (fun _ : list byte => True) write_text H1 H2 E. peel_final (fun _ : list byte => True) write_text H1 H2 E. by subst.
Qed.

#[export] Instance parameter_frame : Frame always (fun p => write_text (rp_name p) +> write_text (rp_type_name p)).
Proof.
  split; [auto with grows|]. intros [a b] [c d] m r1 r2 s t _ _ H1 H2 E. cbn [rp_name rp_type_name] in *.
  peel_next (fun _ : list byte => True) write_text H1 H2 E. peel_final (fun _ : list byte => True) write_text H1 H2 E. by subst.
Qed.

#[export] Instance partition_frame : Frame always partition_into.
Proof.
  unfold partition_into. split; [auto with grows|]. intros [a b c] [a' b' c'] m r1 r2 s t _ _ H1 H2 E.
  cbn [rb_field rb_parameter rb_type_name] in *.
  do 2 peel_next (fun _ : list byte => True) write_text H1 H2 E. peel_final (fun _ : list byte => True) write_text H1 H2 E. by subst.
Qed.

Definition field_wf (f : ReactiveEventFieldV1) : Prop := u_range 32 (rf_field_id f).

#[export] Instance field_frame : Frame field_wf
  (fun f => write_text (rf_name f) +> put (be_bytes 4 (rf_field_id f)) +> write_text (rf_type_name f)).
Proof.
  split; [auto with grows|]. intros [a b c] [a' b' c'] m r1 r2 s t Hx Hy H1 H2 E. cbn [rf_name rf_field_id rf_type_name] in *.
  peel_next (fun _ : list byte => True) write_text H1 H2 E.
  peel_next (u_range (8 * Z.of_nat 4)) (fun z => put (be_bytes 4 z)) H1 H2 E.
  peel_final (fun _ : list byte => True) write_text H1 H2 E. by subst.
Qed.

Definition event_wf (e : ReactiveEventV1) : Prop := u_range 32 (rv_event_type_id e) /\ Forall field_wf (rv_fields e).

#[export] Instance event_frame : Frame event_wf event_into.
Proof.
  unfold event_into. split; [auto 10 with grows|]. intros [a b c] [a' b' c'] m r1 r2 s t [Hx Hfx] [Hy Hfy] H1 H2 E.
  cbn [rv_name rv_event_type_id rv_fields] in *. peel_next (fun _ : list byte => True) write_text H1 H2 E.
  peel_next (u_range (8 * Z.of_nat 4)) (fun z => put (be_bytes 4 z)) H1 H2 E.
  destruct (frame_inj (Frame := list_frame field_wf _) c c' m1 r1 r2 s t Hfx Hfy H1 H2 E) as [-> ->]. by subst.
Qed.

(** A node is its opcode and its operands. *)
Definition opcode (value : ReactivePredicateNodeV1) : byte :=
  match value with
  | N_EventField _ _ => x01 | N_Parameter _ _ => x02 | N_Literal _ _ => x03 | N_Equal => x04 | N_NotEqual => x05
  | N_Less => x06 | N_LessEqual => x07 | N_Greater => x08 | N_GreaterEqual => x09 | N_And => x0a | N_Or => x0b
  end.
Definition operands (value : ReactivePredicateNodeV1) : Writer :=
  match value with
  | N_EventField a b | N_Parameter a b | N_Literal a b => write_text a +> write_text b
  | _ => written
  end.

Lemma predicate_node_parts x b : predicate_node x b = (put [opcode x] +> operands x) b.
Proof. by destruct x. Qed.

Lemma grows_operands x : grows (operands x).
Proof. destruct x; cbn [operands]; auto with grows. Qed.
#[local] Hint Resolve grows_operands : grows.

#[export] Instance node_frame : Frame always predicate_node.
Proof.
  split; [intros []; cbn [predicate_node]; auto with grows|]. intros x y m r1 r2 s t _ _ H1 H2 E.
  rewrite predicate_node_parts in H1, H2. peel_next (fun l : list byte => length l = 1%nat) put H1 H2 E.
  injection Heq as Heq. destruct x, y; try discriminate Heq; cbn [operands] in H1, H2;
    try (injection H1 as <-; injection H2 as <-; by apply app_inv_head in E);
    peel_next (fun _ : list byte => True) write_text H1 H2 E; peel_final (fun _ : list byte => True) write_text H1 H2 E; by subst.
Qed.

Definition cost_wf (c : QueryCostVectorV1) : Prop :=
  Forall (u_range 64) [qc_access_steps c; qc_scanned_index_rows c; qc_point_reads c; qc_dependent_keys c;
     qc_intermediate_rows c; qc_projected_values c; qc_encoded_result_bytes c].

#[export] Instance cost_frame : Frame cost_wf write_cost.
Proof.
  unfold write_cost. split; [auto with grows|]. intros [] [] m r1 r2 s t Hx Hy H1 H2 E. unfold cost_wf in *.
  destruct (each_frame (u_range (8 * Z.of_nat 8)) (fun z => put (be_bytes 8 z)) _ _ _ _ _ _ _ Hx Hy eq_refl H1 H2 E) as [[=] ->].
  by subst.
Qed.

(** Digests have 32 bytes. *)
Definition digest (l : list byte) : Prop := length l = 32%nat.

Definition query_wf (q : ReactiveQueryDependencyV1) : Prop :=
  digest (rq_module_hash q) /\ digest (rq_plan_hash q) /\ cost_wf (rq_cost q).

Lemma Forall_always {A} (l : list A) : Forall always l.
Proof. induction l; by constructor. Qed.

#[export] Instance pairs_frame : Frame always pairs.
Proof.
  split; [unfold pairs; auto with grows|]. intros x y b r1 r2 s t _ _ H1 H2 E.
  apply (frame_inj (Frame := list_frame always (fun p : list byte * list byte => write_text p.1 +> write_text p.2)) x y b r1 r2);
    auto using Forall_always.
Qed.

#[export] Instance strings_frame : Frame always strings.
Proof.
  split; [unfold strings; auto with grows|]. intros x y b r1 r2 s t _ _ H1 H2 E.
  apply (frame_inj (Frame := list_frame always write_text) x y b r1 r2); auto using Forall_always.
Qed.

#[export] Instance parameters_frame : Frame always parameters_into.
Proof.
  split; [unfold parameters_into; auto with grows|]. intros x y b r1 r2 s t _ _ H1 H2 E.
  apply (frame_inj (Frame := list_frame always (fun p => write_text (rp_name p) +> write_text (rp_type_name p))) x y b r1 r2);
    auto using Forall_always.
Qed.

Lemma grows_pairs l : grows (pairs l).
Proof. apply pairs_frame. Qed.
Lemma grows_strings l : grows (strings l).
Proof. apply strings_frame. Qed.
Lemma grows_parameters l : grows (parameters_into l).
Proof. apply parameters_frame. Qed.
Lemma grows_cost c : grows (write_cost c).
Proof. apply cost_frame. Qed.
Lemma grows_partition x : grows (partition_into x).
Proof. apply partition_frame. Qed.
Lemma grows_event x : grows (event_into x).
Proof. apply event_frame. Qed.
Lemma grows_node x : grows (predicate_node x).
Proof. apply node_frame. Qed.
#[export] Hint Resolve grows_pairs grows_strings grows_parameters grows_cost grows_partition grows_event grows_node : grows.

#[export] Instance query_frame : Frame query_wf query_into.
Proof.
  unfold query_into. split; [auto 10 with grows|]. intros [a b c d e f] [a' b' c' d' e' f'] m r1 r2 s t (Hx1 & Hx2 & Hx3) (Hy1 & Hy2 & Hy3) H1 H2 E.
  cbn [rq_name rq_module_hash rq_query_name rq_plan_hash rq_arguments rq_cost] in *.
  peel_next (fun _ : list byte => True) write_text H1 H2 E. peel_next digest put H1 H2 E.
  peel_next (fun _ : list byte => True) write_text H1 H2 E. peel_next digest put H1 H2 E.
  peel_next (fun _ : list (list byte * list byte) => True) pairs H1 H2 E. peel_final cost_wf write_cost H1 H2 E. by subst.
Qed.

Definition reaction_wf (r : ReactiveCommandDependencyV1) : Prop := u_range 32 (rc_command_id r).

#[export] Instance reaction_frame : Frame reaction_wf reaction_into.
Proof.
  unfold reaction_into. split; [auto with grows|]. intros [a b c] [a' b' c'] m r1 r2 s t Hx Hy H1 H2 E.
  cbn [rc_reaction_name rc_command_name rc_command_id] in *. do 2 peel_next (fun _ : list byte => True) write_text H1 H2 E.
  peel_final (u_range (8 * Z.of_nat 4)) (fun z => put (be_bytes 4 z)) H1 H2 E. by subst.
Qed.

Lemma grows_query x : grows (query_into x).
Proof. apply query_frame. Qed.
Lemma grows_reaction x : grows (reaction_into x).
Proof. apply reaction_frame. Qed.
#[export] Hint Resolve grows_query grows_reaction : grows.

(** One byte. *)
#[export] Instance byte_frame : Frame (u_range 8) (fun z => put [Z_to_byte z]).
Proof.
  split; [auto with grows|]. intros x y m r1 r2 s t Hx Hy [= <-] [= <-] E. rewrite <- !app_assoc in E. apply app_inv_head in E.
  injection E as E ->. split; [|done]. unfold u_range in *. apply Z_to_byte_inj in E; lia || done.
Qed.

Definition limits_wf (l : ReactiveDeliveryLimitsV1) : Prop :=
  u_range 8 (rl_batch l) /\ u_range 8 (rl_in_flight l) /\ u_range 16 (rl_lease_seconds l).

(** What the types of a plan guarantee. *)
Definition plan_wf (p : ReactiveOperationPlanV1) : Prop :=
  match p with
  | P_Stream _ _ events _ => Forall event_wf events
  | P_Watch _ query _ _ => query_wf query
  | P_Subscription _ _ stream_hash _ hydrations reactions limits =>
      digest stream_hash /\ Forall query_wf hydrations /\ Forall reaction_wf reactions /\ limits_wf limits
  end.

Definition plan_tag (p : ReactiveOperationPlanV1) : byte :=
  match p with P_Stream _ _ _ _ => x01 | P_Watch _ _ _ _ => x02 | P_Subscription _ _ _ _ _ _ _ => x03 end.
Definition plan_rest (p : ReactiveOperationPlanV1) : Writer :=
  match p with
  | P_Stream parameters partition events predicate =>
      parameters_into parameters +> count (zlen partition) +> write_each partition_into partition +>
      count (zlen events) +> write_each event_into events +>
      count (zlen predicate) +> write_each predicate_node predicate
  | P_Watch parameters query update_mode patch_key =>
      parameters_into parameters +> query_into query +>
      put [match update_mode with M_Patch => x01 | M_Reset => x02 end] +> strings patch_key
  | P_Subscription parameters stream_name stream_hash stream_arguments hydrations reactions limits =>
      parameters_into parameters +> write_text stream_name +> put stream_hash +> pairs stream_arguments +>
      count (zlen hydrations) +> write_each query_into hydrations +>
      count (zlen reactions) +> write_each reaction_into reactions +>
      put [Z_to_byte (rl_batch limits)] +> put [Z_to_byte (rl_in_flight limits)] +>
      put (be_bytes 2 (rl_lease_seconds limits))
  end.

Lemma plan_into_parts p b : plan_into p b = (put [plan_tag p] +> plan_rest p) b.
Proof. by destruct p. Qed.

Lemma grows_plan_rest p : grows (plan_rest p).
Proof. destruct p; cbn [plan_rest]; auto 20 with grows. Qed.
#[local] Hint Resolve grows_plan_rest : grows.

(** A counted list in the middle of a sequence. *)
Lemma then_assoc w1 w2 w3 b : (w1 +> (w2 +> w3)) b = ((w1 +> w2) +> w3) b.
Proof. unfold then_write. by destruct (w1 b). Qed.

Lemma peel_list {A} (wf : A -> Prop) w `{!Frame wf w} l k k1 k2 b r1 r2 s t :
  (count (zlen l) +> write_each w l +> k1) b = Some r1 -> (count (zlen k) +> write_each w k +> k2) b = Some r2 ->
  r1 ++ s = r2 ++ t -> Forall wf l -> Forall wf k -> grows k1 -> grows k2 ->
  l = k /\ exists m, k1 m = Some r1 /\ k2 m = Some r2.
Proof. rewrite !then_assoc. apply (peel_write (Forall wf) (counted_list w)). Qed.

Ltac peel_next_list wf w H1 H2 E :=
  let m := fresh "m" in let H1' := fresh in let H2' := fresh in let Heq := fresh "Heq" in
  destruct (peel_list wf w _ _ _ _ _ _ _ _ _ H1 H2 E) as [Heq (m & H1' & H2')];
    [first [done | apply Forall_always]..|solve [eauto 20 with grows]|solve [eauto 20 with grows]|];
  clear H1 H2; rename H1' into H1; rename H2' into H2.

#[export] Instance plan_frame : Frame plan_wf plan_into.
Proof.
  split; [intros x b r; rewrite plan_into_parts; by apply grows_seq; auto with grows|].
  intros x y b r1 r2 s t Hx Hy H1 H2 E. rewrite plan_into_parts in H1, H2.
  peel_next (fun l : list byte => length l = 1%nat) put H1 H2 E. injection Heq as Heq.
  destruct x as [ps pt ev pr|ps q md pk|ps sn sh sa hy rc li], y as [ps' pt' ev' pr'|ps' q' md' pk'|ps' sn' sh' sa' hy' rc' li'];
    try discriminate Heq; cbn [plan_rest plan_wf] in *; peel_next (fun _ : list ReactiveParameterV1 => True) parameters_into H1 H2 E.
  - peel_next_list (fun _ : ReactivePartitionBindingV1 => True) partition_into H1 H2 E.
    peel_next_list event_wf event_into H1 H2 E.
    destruct (peel_last (Forall always) (counted_list predicate_node) _ _ _ _ _ _ _ H1 H2 E) as [-> ->];
      [apply Forall_always..|]. by subst.
  - peel_next query_wf query_into H1 H2 E. peel_next (fun l : list byte => length l = 1%nat) put H1 H2 E.
    peel_final (fun _ : list (list byte) => True) strings H1 H2 E. subst. by destruct md, md'.
  - destruct Hx as (Hx1 & Hx2 & Hx3 & Hx4 & Hx5 & Hx6), Hy as (Hy1 & Hy2 & Hy3 & Hy4 & Hy5 & Hy6).
    peel_next (fun _ : list byte => True) write_text H1 H2 E. peel_next digest put H1 H2 E.
    peel_next (fun _ : list (list byte * list byte) => True) pairs H1 H2 E.
    peel_next_list query_wf query_into H1 H2 E. peel_next_list reaction_wf reaction_into H1 H2 E.
    do 2 peel_next (u_range 8) (fun z => put [Z_to_byte z]) H1 H2 E.
    peel_final (u_range (8 * Z.of_nat 2)) (fun z => put (be_bytes 2 z)) H1 H2 E. destruct li, li'. cbn in *. by subst.
Qed.

Lemma grows_plan p : grows (plan_into p).
Proof. apply plan_frame. Qed.
#[export] Hint Resolve grows_plan : grows.

Lemma encode_operation_inj n n' p p' bytes : plan_wf p -> plan_wf p' ->
  encode_operation n p = Some bytes -> encode_operation n' p' = Some bytes -> n = n' /\ p = p'.
Proof.
  unfold encode_operation. intros Hp Hp' H1 H2. assert (bytes ++ [] = bytes ++ []) as E by done.
  peel_next (fun l : list byte => length l = 4%nat) put H1 H2 E. peel_next (fun _ : list byte => True) write_text H1 H2 E.
  peel_next plan_wf plan_into H1 H2 E. done.
Qed.

(** *** Modules *)
Section identities.
Context (sha256 : list byte -> list byte).
(** SHA-256 gives 32 bytes. *)
Hypothesis sha256_length : forall m, length (sha256 m) = 32%nat.

(** An operation as its constructor makes it. *)
Definition operation_made (o : CompiledReactiveOperationV1) : Prop :=
  plan_wf (co_plan o) /\ compiled_operation_checked sha256 (co_name o) (co_plan o) = Some o.

Lemma operation_made_inj a b : operation_made a -> operation_made b ->
  co_canonical_bytes a = co_canonical_bytes b -> a = b.
Proof.
  intros [Ha Ea] [Hb Eb] E. unfold compiled_operation_checked in *.
  apply bind_Some in Ea as (x & Fa & Ea), Eb as (y & Fb & Eb). injection Ea as Ea. injection Eb as Eb.
  rewrite <- Ea, <- Eb in E. cbn [co_canonical_bytes] in E. subst y.
  destruct (encode_operation_inj _ _ _ _ _ Ha Hb Fa Fb) as [En Ep]. by rewrite <- Ea, <- Eb, En, Ep.
Qed.

#[export] Instance operation_frame : Frame operation_made operation_into.
Proof.
  unfold operation_into. split; [auto with grows|]. intros x y m r1 r2 s t Hx Hy H1 H2 E.
  peel_next (fun _ : list byte => True) blob H1 H2 E. assert (x = y) as -> by by apply operation_made_inj.
  rewrite H1 in H2. injection H2 as ->. by apply app_inv_head in E.
Qed.

Lemma grows_operation x : grows (operation_into x).
Proof. unfold operation_into. auto with grows. Qed.
#[local] Hint Resolve grows_operation : grows.

(** A module as its constructor makes it, from operations as theirs does. *)
Definition module_made (m : ReactiveModulePlanV1) : Prop :=
  u_range 64 (mp_version m) /\ u_range 64 (mp_contract_version m) /\ digest (mp_contract_hash m) /\
  digest (mp_source_hash m) /\ Forall operation_made (mp_operations m) /\
  encode_module (mp_name m) (mp_version m) (mp_contract_lineage m) (mp_contract_version m) (mp_contract_hash m)
    (mp_source_hash m) (mp_operations m) = Some (mp_canonical_bytes m) /\
  mp_identity m = hash_reactive_module sha256 (mp_canonical_bytes m).

Lemma module_made_inj a b : module_made a -> module_made b -> mp_canonical_bytes a = mp_canonical_bytes b -> a = b.
Proof.
  destruct a as [n1 v1 l1 c1 h1 s1 o1 b1 i1], b as [n2 v2 l2 c2 h2 s2 o2 b2 i2]. unfold module_made.
  cbn [mp_name mp_version mp_contract_lineage mp_contract_version mp_contract_hash mp_source_hash mp_operations
       mp_canonical_bytes mp_identity].
  intros (Hv1 & Hc1 & Hh1 & Hs1 & Ho1 & H1 & ->) (Hv2 & Hc2 & Hh2 & Hs2 & Ho2 & H2 & ->) <-.
  unfold encode_module in *. assert (b1 ++ [] = b1 ++ []) as E by done.
  do 2 peel_next (fun l : list byte => length l = 4%nat) put H1 H2 E. peel_next (fun _ : list byte => True) write_text H1 H2 E.
  peel_next (u_range (8 * Z.of_nat 8)) (fun z => put (be_bytes 8 z)) H1 H2 E. peel_next (fun _ : list byte => True) write_text H1 H2 E.
  peel_next (u_range (8 * Z.of_nat 8)) (fun z => put (be_bytes 8 z)) H1 H2 E. do 2 peel_next digest put H1 H2 E.
  peel_next_list operation_made operation_into H1 H2 E. by subst.
Qed.

Lemma encode_module_bounded n v l c h s o bytes : encode_module n v l c h s o = Some bytes -> u_range 64 (zlen bytes).
Proof.
  unfold encode_module. do 9 rewrite then_assoc. unfold then_write at 1. intros H. apply bind_Some in H as (m & _ & H).
  unfold bounded_bytes in H. destruct (Z.leb_spec (zlen m) MAX_REACTIVE_MODULE_BYTES); [|done]. injection H as <-.
  pose proof (zlen_nonneg m). unfold u_range. lia.
Qed.

Lemma module_plan_made n v l c h s ops m : module_plan_checked sha256 n v l c h s ops = Some m ->
  u_range 64 v -> u_range 64 c -> digest h -> digest s -> Forall operation_made ops -> module_made m.
Proof.
  unfold module_plan_checked. intros H Hv Hc Hh Hs Ho. destruct (negb (valid_name n) || _ || _); [done|].
  destruct (negb _); [done|]. apply bind_Some in H as (bytes & E & [= <-]). unfold module_made. cbn. split_and!; try done.
  assert (forall x l, operation_made x -> Forall operation_made l -> Forall operation_made (insert_sorted operation_cmp x l)) as Hins.
  { intros x k Hx. induction 1 as [|y k Hy Hk IH]; cbn; [by constructor|]. destruct (operation_cmp x y); auto. }
  clear -Ho Hins. induction Ho; cbn; [constructor|by apply Hins].
Qed.
End identities.
