(* ===== verification/ReactiveCompile.v ===== *)
(** * Reactive compiler

    [riffdb-query-compiler/src/reactive.rs]: the compiler from a parsed reactive
    module, an exact contract and a catalogue of named queries to a module plan.
    Of a contract it reads the schema's entities, events and enums and the
    commands ([riffdb-contract-ir/src/schema.rs], [plan.rs]); a type is its
    canonical name.  SHA-256 is an argument. *)

From S2P Require Import Prelude Decimal Value Codec ValueType Framing Hash Names Text Sort Schema ReactivePlan ReactiveSyntax.
From Stdlib Require Import Strings.String Strings.Byte.
From stdpp Require Import gmap list.

Local Open Scope Z_scope.

(** ** The contract, as the compiler reads it *)
Record CommandPlan := mkCommand { cm_id : Z; cm_name : list byte; cm_idempotency_input : option Z }.

Record ContractBundle := mkContract {
  cb_lineage : list byte;
  cb_contract_version : Z;
  cb_bundle_hash : list byte;
  cb_entities : list EntitySchema;
  cb_events : list EventSchema;
  cb_enums : list EnumSchema;
  cb_commands : list CommandPlan;
}.

(** ** The catalogue *)
Record ReactiveQueryCatalogEntry := mkCatalogEntry {
  qe_module_hash : list byte;
  qe_query_name : list byte;
  qe_plan_hash : list byte;
  qe_parameters : list (list byte * list byte);
  qe_cost : QueryCostVectorV1;
  qe_patch_key : list (list byte);
}.

Definition catalog_entry_checked (module_hash query_name plan_hash : list byte)
    (parameters : list (list byte * list byte)) (cost : QueryCostVectorV1) (patch_key : list (list byte)) :
    option ReactiveQueryCatalogEntry :=
  if bool_decide (query_name = []) || negb (strictly_increasing (fun a b => lex a.1 b.1) parameters) ||
     negb (strictly_increasing lex patch_key)
  then None
  else Some (mkCatalogEntry module_hash query_name plan_hash parameters cost patch_key).

(** ** Diagnostics *)
Inductive ReactiveCompileDiagnosticCode :=
  | RC_UnknownSymbol | RC_TypeMismatch | RC_CrossPartition | RC_InvalidEventField | RC_UnkeyedPatch
  | RC_ExcessiveCost | RC_InvalidReaction | RC_DefinitionMismatch | RC_LimitExceeded.

Record ReactiveCompileDiagnostic := mkRD { rd_code : ReactiveCompileDiagnosticCode; rd_span : Span }.

Definition diagnostic (code : ReactiveCompileDiagnosticCode) (span : Span) : ReactiveCompileDiagnostic := mkRD code span.

Abbreviation Compiled A := (result ReactiveCompileDiagnostic A).
Abbreviation TypeMap := (gmap (list byte) (list byte)).

(** [collect] into a map: a later entry replaces an earlier one. *)
Definition collect_map {V} (l : list (list byte * V)) : gmap (list byte) V :=
  fold_left (fun m p => <[p.1 := p.2]> m) l ∅.

(** [into_iter().filter(|(name, ty)| other.get(name) == Some(ty)).collect()] *)
Definition common_part (m other : TypeMap) : TypeMap := filter (fun p => other !! p.1 = Some p.2) m.

(** [reduce(common_part).unwrap_or_default()] *)
Definition common_all (l : list TypeMap) : TypeMap :=
  match l with [] => ∅ | m :: l' => fold_left common_part l' m end.

(** [split_once('.')] *)
Fixpoint split_once (l : list byte) : option (list byte * list byte) :=
  match l with
  | [] => None
  | b :: l' => if bool_decide (b = "."%byte) then Some ([], l')
               else match split_once l' with Some (a, r) => Some (b :: a, r) | None => None end
  end.

(** ** Types *)
Definition type_name (value : ValueType) (contract : ContractBundle) : option (list byte) :=
  match value with
  | T_Bool => Some (text "bool")
  | T_I64 => Some (text "i64")
  | T_U64 => Some (text "u64")
  | T_Decimal spec =>
      Some (text "decimal<" ++ show_int (spec_precision spec) ++ text "," ++ show_int (spec_scale spec) ++ text ">")
  | T_Money currency => Some (text "money<" ++ currency_as_bytes currency ++ text ">")
  | T_String bound => Some (text "string<" ++ show_int bound ++ text ">")
  | T_Bytes bound => Some (text "bytes<" ++ show_int bound ++ text ">")
  | T_Timestamp => Some (text "timestamp")
  | T_Date => Some (text "date")
  | T_Uuid => Some (text "uuid")
  | T_Enum id => en_name <$> find (fun e => en_id e =? id) (cb_enums contract)
  | T_Optional _ | T_List _ _ | T_Record _ => None
  | T_Vector dimension => Some (text "vector<" ++ show_int dimension ++ text ">")
  end.

Definition resolve_type (source : list byte) (contract : ContractBundle) : option (option ValueType * list byte) :=
  if bool_decide (source = text "Limit") then Some (None, text "limit")
  else if bool_decide (source = text "Cursor") then Some (None, text "cursor")
  else
    match split_once source with
    | Some (entity_name, field_name) =>
        entity ← named et_name entity_name (cb_entities contract);
        field ← named fd_name field_name (et_record entity);
        name ← type_name (fd_value_type field) contract;
        Some (Some (fd_value_type field), name)
    | None =>
        enumeration ← named en_name source (cb_enums contract);
        name ← type_name (T_Enum (en_id enumeration)) contract;
        Some (Some (T_Enum (en_id enumeration)), name)
    end.

(** ** Literals and operands *)
Definition starts_with (prefix l : list byte) : bool := bool_decide (take (length prefix) l = prefix).

Definition ok {E A} (r : result E A) : option A := match r with Ok a => Some a | Err _ => None end.

Definition literal_value (value : Literal) (expected : list byte) (contract : ContractBundle) : option CanonicalValue :=
  match value with
  | LInteger z =>
      if bool_decide (expected = text "i64") then Some (VI64 z)
      else if bool_decide (expected = text "u64") then VU64 <$> u_checked 64 z
      else None
  | LBoolean b => if bool_decide (expected = text "bool") then Some (VBool b) else None
  | LString s =>
      if starts_with (text "string<") expected then VString <$> ok (canonical_string_new s) else None
  | LSymbol symbol =>
      '(enumeration_name, variant_name) ← split_once symbol;
      enumeration ← named en_name enumeration_name (cb_enums contract);
      name ← type_name (T_Enum (en_id enumeration)) contract;
      if negb (bool_decide (name = expected)) then None
      else
        variant ← named vr_name variant_name (en_variants enumeration);
        Some (VEnum (en_id enumeration) (vr_id variant))
  end.

Definition known_operand_type (value : Operand) (parameters event_fields : TypeMap) : option (list byte) :=
  match value with
  | ParameterRef name _ => parameters !! name
  | EventField name _ => event_fields !! name
  | OLiteral _ _ => None
  end.

Definition predicate_operand (value : Operand) (expected : option (list byte)) (parameters event_fields : TypeMap)
    (contract : ContractBundle) : option (list byte * ReactivePredicateNodeV1) :=
  match value with
  | EventField name _ => (fun ty => (ty, N_EventField name ty)) <$> event_fields !! name
  | ParameterRef name _ => (fun ty => (ty, N_Parameter name ty)) <$> parameters !! name
  | OLiteral literal _ =>
      expected ← expected;
      canonical ← literal_value literal expected contract;
      encoded ← ok (encode_canonical_value canonical);
      Some (expected, N_Literal expected encoded)
  end.

Definition operand_type (value : Operand) (expected : option (list byte)) (parameters event_fields : TypeMap)
    (contract : ContractBundle) : option (list byte * list byte) :=
  match value with
  | ParameterRef name _ => (fun ty => (ty, text "$" ++ name)) <$> parameters !! name
  | EventField name _ => (fun ty => (ty, text "event." ++ name)) <$> event_fields !! name
  | OLiteral literal _ =>
      expected ← expected;
      canonical ← literal_value literal expected contract;
      encoded ← ok (encode_canonical_value canonical);
      Some (expected, text "literal:" ++ expected ++ text ":" ++ hex encoded)
  end.

(** ** Predicates *)
Definition comparison_node (operator : BinaryOperator) : ReactivePredicateNodeV1 :=
  match operator with
  | Equal => N_Equal
  | NotEqual => N_NotEqual
  | Less => N_Less
  | LessEqual => N_LessEqual
  | Greater => N_Greater
  | GreaterEqual => N_GreaterEqual
  | And | Or => N_And (* not reached *)
  end.

(** The type of the expression, with the nodes it appends. *)
Fixpoint compile_expression (value : Expression) (parameters event_fields : TypeMap) (contract : ContractBundle)
    (nodes : list ReactivePredicateNodeV1) : Compiled (list byte * list ReactivePredicateNodeV1) :=
  let mismatch := diagnostic RC_TypeMismatch (expression_span value) in
  match value with
  | EOperand _ => Err mismatch
  | Binary lhs And rhs _ | Binary lhs Or rhs _ =>
      '(left_type, nodes) ← compile_expression lhs parameters event_fields contract nodes;
      if negb (bool_decide (left_type = text "bool")) then Err mismatch
      else
        '(right_type, nodes) ← compile_expression rhs parameters event_fields contract nodes;
        if negb (bool_decide (right_type = text "bool")) then Err mismatch
        else
          let node := match value with Binary _ And _ _ => N_And | _ => N_Or end in
          Ok (text "bool", nodes ++ [node])
  | Binary lhs operator rhs _ =>
      match lhs, rhs with
      | EOperand left_operand, EOperand right_operand =>
          let expected :=
            match known_operand_type left_operand parameters event_fields with
            | Some ty => Some ty
            | None => known_operand_type right_operand parameters event_fields
            end in
          '(left_type, left_node) ←
            ok_or (predicate_operand left_operand expected parameters event_fields contract)
              (diagnostic RC_TypeMismatch (expression_span lhs));
          '(right_type, right_node) ←
            ok_or (predicate_operand right_operand (Some left_type) parameters event_fields contract)
              (diagnostic RC_TypeMismatch (expression_span rhs));
          if negb (bool_decide (left_type = right_type)) then Err mismatch
          else Ok (text "bool", nodes ++ [left_node; right_node; comparison_node operator])
      | _, _ => Err mismatch
      end
  end.

(** ** Costs *)
Definition add_cost (a b : QueryCostVectorV1) : option QueryCostVectorV1 :=
  access_steps ← u_checked 64 (qc_access_steps a + qc_access_steps b);
  scanned_index_rows ← u_checked 64 (qc_scanned_index_rows a + qc_scanned_index_rows b);
  point_reads ← u_checked 64 (qc_point_reads a + qc_point_reads b);
  dependent_keys ← u_checked 64 (qc_dependent_keys a + qc_dependent_keys b);
  intermediate_rows ← u_checked 64 (qc_intermediate_rows a + qc_intermediate_rows b);
  projected_values ← u_checked 64 (qc_projected_values a + qc_projected_values b);
  encoded_result_bytes ← u_checked 64 (qc_encoded_result_bytes a + qc_encoded_result_bytes b);
  cost_new access_steps scanned_index_rows point_reads dependent_keys intermediate_rows projected_values
    encoded_result_bytes.

(** ** The compiler *)
Section compiler.
Context (sha256 : list byte -> list byte) (contract : ContractBundle) (query_catalog : list ReactiveQueryCatalogEntry).

Definition queries : gmap (list byte) ReactiveQueryCatalogEntry :=
  collect_map (map (fun q => (qe_query_name q, q)) query_catalog).

Definition predicate_nodes (value : Expression) (parameters event_fields : TypeMap) :
    Compiled (list ReactivePredicateNodeV1) :=
  '(result_type, nodes) ← compile_expression value parameters event_fields contract [];
  if negb (bool_decide (result_type = text "bool"))
  then Err (diagnostic RC_TypeMismatch (expression_span value))
  else Ok nodes.

Definition operation (name : list byte) (span : Span) (plan : ReactiveOperationPlanV1) :
    Compiled CompiledReactiveOperationV1 :=
  name ← map_err (fun _ => diagnostic RC_LimitExceeded span) (reactive_operation_name_new name);
  ok_or (compiled_operation_checked sha256 name plan) (diagnostic RC_LimitExceeded span).

Definition compile_parameters (values : list ParameterDecl) : Compiled (list ReactiveParameterV1) :=
  mapM (fun value =>
    '(_, name) ← ok_or (resolve_type (pa_type_name value) contract) (diagnostic RC_UnknownSymbol (pa_span value));
    ok_or (reactive_parameter_checked (pa_name value) name) (diagnostic RC_LimitExceeded (pa_span value))) values.

(** The parameters as pairs of name and type. *)
Definition typed_parameters (parameters : list ReactiveParameterV1) : list (list byte * list byte) :=
  map (fun p => (rp_name p, rp_type_name p)) parameters.

Definition query_dependency (query_name local_name : list byte) (arguments : list (list byte * list byte)) (span : Span) :
    Compiled ReactiveQueryDependencyV1 :=
  query ← ok_or (queries !! query_name) (diagnostic RC_UnknownSymbol span);
  ok_or (query_dependency_checked local_name (qe_module_hash query) (qe_query_name query) (qe_plan_hash query)
           arguments (qe_cost query))
    (diagnostic RC_LimitExceeded span).

Definition compile_arguments (values : list Argument) (targets : list (list byte * list byte))
    (parameters event_fields : TypeMap) (span : Span) : Compiled (list (list byte * list byte)) :=
  if negb (zlen values =? zlen targets) then Err (diagnostic RC_DefinitionMismatch span)
  else
    let by_name := collect_map (map (fun v => (ag_name v, v)) values) in
    mapM (fun '(name, ty) =>
      value ← ok_or (by_name !! name) (diagnostic RC_DefinitionMismatch span);
      '(actual, canonical) ←
        ok_or (operand_type (ag_value value) (Some ty) parameters event_fields contract)
          (diagnostic RC_TypeMismatch (ag_span value));
      if negb (bool_decide (actual = ty)) then Err (diagnostic RC_TypeMismatch (ag_span value))
      else Ok (name, canonical)) targets.

(** *** Streams *)

(** The names and types of fields. *)
Definition typed_fields (fields : list FieldSchema) : option (list (list byte * list byte)) :=
  mapM (fun f => ty ← type_name (fd_value_type f) contract; Some (fd_name f, ty)) fields.

Definition event_signature (event : EventSchema) (partition : list Z) : option (list (list byte * list byte)) :=
  mapM (fun id =>
    field ← record_field (ev_payload event) id;
    ty ← type_name (fd_value_type field) contract;
    Some (fd_name field, ty)) partition.

Definition compile_field (event : EventSchema) (span : Span) (name : list byte) : Compiled ReactiveEventFieldV1 :=
  field ← ok_or (named fd_name name (ev_payload event)) (diagnostic RC_InvalidEventField span);
  ty ← ok_or (type_name (fd_value_type field) contract) (diagnostic RC_TypeMismatch span);
  ok_or (reactive_event_field_checked name (fd_id field) ty) (diagnostic RC_LimitExceeded span).

(** What the loop over the selected events has found. *)
Record EventsFound := mkFound {
  fo_events : list ReactiveEventV1;
  fo_common : option TypeMap;
  fo_signature : option (list (list byte * list byte));
}.

Definition compile_event (found : EventsFound) (selected : EventSelection) : Compiled EventsFound :=
  let span := es_span selected in
  event ← ok_or (named ev_name (es_event selected) (cb_events contract)) (diagnostic RC_UnknownSymbol span);
  partition ← ok_or (ev_partition event) (diagnostic RC_CrossPartition span);
  signature ← ok_or (event_signature event partition) (diagnostic RC_CrossPartition span);
  if match fo_signature found with Some existing => negb (bool_decide (existing = signature)) | None => false end
  then Err (diagnostic RC_CrossPartition span)
  else
    let partition_signature := match fo_signature found with Some existing => existing | None => signature end in
    all_fields ← ok_or (typed_fields (ev_payload event)) (diagnostic RC_InvalidEventField span);
    let all_fields := collect_map all_fields in
    let common := match fo_common found with None => all_fields | Some existing => common_part existing all_fields end in
    fields ← mapM (compile_field event span) (es_fields selected);
    compiled ← ok_or (reactive_event_checked (ev_name event) (ev_id event) fields) (diagnostic RC_LimitExceeded span);
    Ok (mkFound (fo_events found ++ [compiled]) (Some common) (Some partition_signature)).

Fixpoint compile_events (found : EventsFound) (selected : list EventSelection) : Compiled EventsFound :=
  match selected with
  | [] => Ok found
  | s :: rest => found ← compile_event found s; compile_events found rest
  end.

Definition compile_binding (parameter_types : TypeMap) (p : PartitionBinding * (list byte * list byte)) :
    Compiled ReactivePartitionBindingV1 :=
  let '(binding, (field, ty)) := p in
  if negb (bool_decide (pb_field binding = field)) ||
     negb (bool_decide (parameter_types !! pb_parameter binding = Some ty))
  then Err (diagnostic RC_CrossPartition (pb_span binding))
  else ok_or (reactive_partition_binding_checked field (pb_parameter binding) ty)
         (diagnostic RC_LimitExceeded (pb_span binding)).

(** The fields of one selected event. *)
Definition selected_types (event : ReactiveEventV1) : TypeMap :=
  collect_map (map (fun f => (rf_name f, rf_type_name f)) (rv_fields event)).

Definition compile_stream (source : Stream) : Compiled CompiledReactiveOperationV1 :=
  parameters ← compile_parameters (sm_parameters source);
  let parameter_types := collect_map (typed_parameters parameters) in
  found ← compile_events (mkFound [] None None) (sm_events source);
  signature ← ok_or (fo_signature found) (diagnostic RC_CrossPartition (sm_span source));
  if negb (zlen (sm_partition source) =? zlen signature) then Err (diagnostic RC_CrossPartition (sm_span source))
  else
    partition ← mapM (compile_binding parameter_types) (zip (sm_partition source) signature);
    let selected_common := common_all (map selected_types (fo_events found)) in
    let available := common_part (default ∅ (fo_common found)) selected_common in
    predicate ← match sm_predicate source with
                | Some expression => predicate_nodes expression parameter_types available
                | None => Ok []
                end;
    operation (sm_name source) (sm_span source) (P_Stream parameters partition (fo_events found) predicate).

(** *** Watches *)
Definition compile_watch (source : Watch) : Compiled CompiledReactiveOperationV1 :=
  parameters ← compile_parameters (wa_parameters source);
  query ← query_dependency (wa_query source) (wa_name source) [] (wa_span source);
  match queries !! wa_query source with
  | None => Err (diagnostic RC_UnknownSymbol (wa_span source)) (* not reached: the dependency was found *)
  | Some entry =>
      if negb (bool_decide (typed_parameters parameters = qe_parameters entry))
      then Err (diagnostic RC_DefinitionMismatch (wa_span source))
      else
        '(update_mode, patch_key) ←
          match wa_update_mode source with
          | Patch =>
              if bool_decide (qe_patch_key entry = []) then Err (diagnostic RC_UnkeyedPatch (wa_span source))
              else Ok (M_Patch, qe_patch_key entry)
          | Reset_ => Ok (M_Reset, [])
          end;
        operation (wa_name source) (wa_span source) (P_Watch parameters query update_mode patch_key)
  end.

(** *** Subscriptions *)
Fixpoint compile_hydrations (parameter_types event_fields : TypeMap) (hydrations : list Hydration)
    (compiled : list ReactiveQueryDependencyV1) (aggregate : QueryCostVectorV1) :
    Compiled (list ReactiveQueryDependencyV1 * QueryCostVectorV1) :=
  match hydrations with
  | [] => Ok (compiled, aggregate)
  | hydration :: rest =>
      let span := hy_span hydration in
      query ← ok_or (queries !! hy_query hydration) (diagnostic RC_UnknownSymbol span);
      arguments ← compile_arguments (hy_arguments hydration) (qe_parameters query) parameter_types event_fields span;
      dependency ← query_dependency (hy_query hydration) (hy_name hydration) arguments span;
      aggregate ← ok_or (add_cost aggregate (rq_cost dependency)) (diagnostic RC_ExcessiveCost span);
      compile_hydrations parameter_types event_fields rest (compiled ++ [dependency]) aggregate
  end.

Definition compile_reaction (reaction : Reaction) : Compiled ReactiveCommandDependencyV1 :=
  command ← ok_or (named cm_name (re_command reaction) (cb_commands contract))
              (diagnostic RC_UnknownSymbol (re_span reaction));
  if bool_decide (cm_idempotency_input command = None) then Err (diagnostic RC_InvalidReaction (re_span reaction))
  else ok_or (command_dependency_checked (re_name reaction) (cm_name command) (cm_id command))
         (diagnostic RC_LimitExceeded (re_span reaction)).

Definition compile_subscription (streams : gmap (list byte) CompiledReactiveOperationV1) (source : Subscription) :
    Compiled CompiledReactiveOperationV1 :=
  parameters ← compile_parameters (su_parameters source);
  let parameter_types := collect_map (typed_parameters parameters) in
  let binding := su_stream source in
  stream ← ok_or (streams !! sb_stream binding) (diagnostic RC_UnknownSymbol (sb_span binding));
  match co_plan stream with
  | P_Stream stream_parameters _ stream_events _ =>
      stream_arguments ← compile_arguments (sb_arguments binding) (typed_parameters stream_parameters)
                           parameter_types ∅ (sb_span binding);
      let event_fields := common_all (map selected_types stream_events) in
      '(hydrations, aggregate) ←
        compile_hydrations parameter_types event_fields (su_hydrations source) [] cost_zero;
      if (500 <? qc_scanned_index_rows aggregate) || (4194304 <? qc_encoded_result_bytes aggregate)
      then Err (diagnostic RC_ExcessiveCost (su_span source))
      else
        reactions ← mapM compile_reaction (su_reactions source);
        let limits := su_limits source in
        delivery ← ok_or (delivery_limits_new (li_batch limits) (li_in_flight limits) (li_lease_seconds limits))
                     (diagnostic RC_LimitExceeded (li_span limits));
        operation (su_name source) (su_span source)
          (P_Subscription parameters (co_name stream) (co_identity stream) stream_arguments hydrations reactions delivery)
  | _ => Err (diagnostic RC_DefinitionMismatch (sb_span binding))
  end.

(** *** Modules *)
Fixpoint compile_streams (l : list Stream) (streams : gmap (list byte) CompiledReactiveOperationV1)
    (operations : list CompiledReactiveOperationV1) :
    Compiled (gmap (list byte) CompiledReactiveOperationV1 * list CompiledReactiveOperationV1) :=
  match l with
  | [] => Ok (streams, operations)
  | s :: rest =>
      op ← compile_stream s;
      compile_streams rest (<[sm_name s := op]> streams) (operations ++ [op])
  end.

Definition compile_reactive_module (source : ReactiveModule) : Compiled ReactiveModulePlanV1 :=
  '(streams, operations) ← compile_streams (md_streams source) ∅ [];
  watches ← mapM compile_watch (md_watches source);
  subscriptions ← mapM (compile_subscription streams) (md_subscriptions source);
  let canonical_source := format_module source in
  ok_or (module_plan_checked sha256 (md_name source) (md_version source) (cb_lineage contract)
           (cb_contract_version contract) (cb_bundle_hash contract)
           (hash_reactive_source sha256 canonical_source)
           (operations ++ watches ++ subscriptions))
    (diagnostic RC_LimitExceeded (md_span source)).
End compiler.
