(* ===== verification/ReactiveGuarantees.v ===== *)
(** * Reactive compiler: static guarantees

    What a compiled reactive module guarantees before it is published
    ([docs/reactive/MODULES.md], Static guarantees): complete partition bindings
    that every selected event shares, predicates over selected fields and typed
    parameters, patch watches over keyed queries only, and subscriptions within
    the aggregate cost and the delivery limits.  The plan depends on the source
    only through its canonical form, and its identity commits to both. *)

From S2P Require Import Prelude Decimal Value Codec ValueType Framing Hash Names Text Results Sort Schema ReactiveSyntax Reactive ReactivePlan ReactiveCompile.
From Stdlib Require Import Strings.String Strings.Byte.
From stdpp Require Import gmap list sorting.

Local Open Scope Z_scope.

(** ** Results, lists and maps *)
Lemma named_In {A} (name : A -> list byte) wanted l x : named name wanted l = Some x -> x ∈ l /\ name x = wanted.
Proof. intros [Hx Hn]%find_In. by apply bool_decide_eq_true in Hn. Qed.

(** A collected map holds entries of the list, and every key of it. *)
Lemma collect_map_from {V} (l : list (list byte * V)) : forall (m : gmap (list byte) V) k v,
  fold_left (fun m p => <[p.1 := p.2]> m) l m !! k = Some v -> (k, v) ∈ l \/ m !! k = Some v.
Proof.
  induction l as [|[a b] l IH]; cbn; intros m k v H; [by right|].
  apply IH in H as [H|H]; [left; by right|]. apply lookup_insert_Some in H as [[-> ->]|[_ H]]; [left; left|by right].
Qed.

Lemma collect_map_In {V} (l : list (list byte * V)) k v : collect_map l !! k = Some v -> (k, v) ∈ l.
Proof. intros [H|H]%collect_map_from; [done|]. by rewrite lookup_empty in H. Qed.

Lemma common_part_sub (m other : TypeMap) : common_part m other ⊆ m /\ common_part m other ⊆ other.
Proof.
  split; apply map_subseteq_spec; intros k v H; apply map_lookup_filter_Some in H as [H1 H2]; done.
Qed.

Lemma common_all_sub (l : list TypeMap) m : m ∈ l -> common_all l ⊆ m.
Proof.
  assert (forall (l : list TypeMap) m0, fold_left common_part l m0 ⊆ m0 /\ forall m, m ∈ l -> fold_left common_part l m0 ⊆ m) as H.
  { clear. induction l as [|x l IH]; intros m0; cbn [fold_left]; [split; [done|by intros ? ?%not_elem_of_nil]|].
    destruct (IH (common_part m0 x)) as [H1 H2], (common_part_sub m0 x) as [C1 C2]. split; [by etrans|].
    intros m [->|Hm]%elem_of_cons; [by etrans|by apply H2]. }
  destruct l as [|x l]; cbn [common_all]; [by intros ?%not_elem_of_nil|]. destruct (H l x) as [H1 H2].
  intros [->|Hm]%elem_of_cons; [done|by apply H2].
Qed.

(** ** The guarantees *)
Section guarantees.
Context (sha256 : list byte -> list byte) (contract : ContractBundle) (query_catalog : list ReactiveQueryCatalogEntry).

Definition types (parameters : list ReactiveParameterV1) : TypeMap := collect_map (typed_parameters parameters).

(** A field or parameter is known at the type the node names. *)
Definition node_known (parameters fields : TypeMap) (node : ReactivePredicateNodeV1) : Prop :=
  match node with
  | N_EventField name ty => fields !! name = Some ty
  | N_Parameter name ty => parameters !! name = Some ty
  | _ => True
  end.

(** The event is one of the contract, with this partition, and its fields
    are payload fields at their types. *)
Definition event_guaranteed (signature : list (list byte * list byte)) (event : ReactiveEventV1) : Prop :=
  exists schema ids,
    named ev_name (rv_name event) (cb_events contract) = Some schema /\ rv_event_type_id event = ev_id schema /\
    ev_partition schema = Some ids /\
    event_signature contract schema ids = Some signature /\
    Forall (fun f => exists field, named fd_name (rf_name f) (ev_payload schema) = Some field /\
              rf_field_id f = fd_id field /\ type_name (fd_value_type field) contract = Some (rf_type_name f))
      (rv_fields event).

Record stream_guaranteed (parameters : list ReactiveParameterV1) (partition : list ReactivePartitionBindingV1)
    (events : list ReactiveEventV1) (predicate : list ReactivePredicateNodeV1) : Prop := {
  sg_nonempty : events <> [];
  sg_events : Forall (event_guaranteed (map (fun b => (rb_field b, rb_type_name b)) partition)) events;
  sg_bindings : Forall (fun b => types parameters !! rb_parameter b = Some (rb_type_name b)) partition;
  sg_predicate : Forall (fun event => Forall (node_known (types parameters) (selected_types event)) predicate) events;
}.

(** The dependency is on exactly one query of the catalogue. *)
Definition query_exact (entry : ReactiveQueryCatalogEntry) (query : ReactiveQueryDependencyV1) : Prop :=
  entry ∈ query_catalog /\ rq_query_name query = qe_query_name entry /\ rq_module_hash query = qe_module_hash entry /\
  rq_plan_hash query = qe_plan_hash entry /\ rq_cost query = qe_cost entry.

Definition watch_guaranteed (parameters : list ReactiveParameterV1) (query : ReactiveQueryDependencyV1)
    (mode : ReactiveUpdateModeV1) (patch_key : list (list byte)) : Prop :=
  exists entry, query_exact entry query /\ typed_parameters parameters = qe_parameters entry /\
    match mode with M_Patch => patch_key = qe_patch_key entry /\ patch_key <> [] | M_Reset => patch_key = [] end.

Definition total (f : QueryCostVectorV1 -> Z) (l : list ReactiveQueryDependencyV1) : Z :=
  foldr (fun q n => f (rq_cost q) + n) 0 l.

Record subscription_guaranteed (operations : list CompiledReactiveOperationV1) (stream_name stream_hash : list byte)
    (arguments : list (list byte * list byte)) (hydrations : list ReactiveQueryDependencyV1)
    (reactions : list ReactiveCommandDependencyV1) (limits : ReactiveDeliveryLimitsV1) : Prop := {
  ug_stream : exists stream parameters partition events predicate,
    stream ∈ operations /\ co_plan stream = P_Stream parameters partition events predicate /\
    co_name stream = stream_name /\ co_identity stream = stream_hash /\ map fst arguments = map rp_name parameters;
  ug_hydrations : Forall (fun q => exists entry, query_exact entry q /\
                            map fst (rq_arguments q) ≡ₚ map fst (qe_parameters entry)) hydrations;
  ug_hydration_count : zlen hydrations <= 16;
  ug_rows : total qc_scanned_index_rows hydrations <= 500;
  ug_bytes : total qc_encoded_result_bytes hydrations <= 4194304;
  ug_reactions : Forall (fun r => exists command, command ∈ cb_commands contract /\ cm_idempotency_input command <> None /\
                           rc_command_name r = cm_name command /\ rc_command_id r = cm_id command) reactions;
  ug_reaction_count : zlen reactions <= 32;
  ug_batch : 1 <= rl_batch limits <= 8;
  ug_in_flight : 1 <= rl_in_flight limits <= 8;
  ug_lease : 5 <= rl_lease_seconds limits <= 900;
}.

Definition operation_guaranteed (operations : list CompiledReactiveOperationV1) (operation : CompiledReactiveOperationV1) : Prop :=
  match co_plan operation with
  | P_Stream parameters partition events predicate => stream_guaranteed parameters partition events predicate
  | P_Watch parameters query mode patch_key => watch_guaranteed parameters query mode patch_key
  | P_Subscription _ stream_name stream_hash arguments hydrations reactions limits =>
      subscription_guaranteed operations stream_name stream_hash arguments hydrations reactions limits
  end.

(** ** Streams *)

(** What the compiler has emitted of a predicate names known fields and parameters. *)
Lemma operand_known o expected parameters fields ty node :
  predicate_operand o expected parameters fields contract = Some (ty, node) -> node_known parameters fields node.
Proof.
  destruct o as [f s|p s|l s]; cbn [predicate_operand].
  - by intros (t & Ht & [= -> ->])%fmap_Some.
  - by intros (t & Ht & [= -> ->])%fmap_Some.
  - by intros (t & -> & (v & Hv & (b & Hb & [= <- <-])%bind_Some)%bind_Some)%bind_Some.
Qed.

Lemma expression_known e parameters fields : forall nodes ty code, Forall (node_known parameters fields) nodes ->
  compile_expression e parameters fields contract nodes = Ok (ty, code) -> Forall (node_known parameters fields) code.
Proof.
  induction e as [o|l IHl op r IHr s]; intros nodes ty code Hn Hc; [done|].
  destruct op; cbn [compile_expression] in Hc;
    try (destruct l as [lhs|]; [|done]; destruct r as [rhs|]; [|done];
         apply result_bind_ok in Hc as ([tl nl] & El%ok_or_ok & Hc); apply result_bind_ok in Hc as ([tr nr] & Er%ok_or_ok & Hc);
         (destruct (bool_decide _); [|done]); injection Hc as _ <-; apply Forall_app; split; [done|];
         repeat constructor; by eapply operand_known).
  all: apply result_bind_ok in Hc as ([tl cl] & El & Hc); (destruct (bool_decide _); [|done]); cbn [negb] in Hc;
    apply result_bind_ok in Hc as ([tr cr] & Er & Hc); (destruct (bool_decide _); [|done]); injection Hc as _ <-;
    apply Forall_app; split; [by eapply IHr, Er; eapply IHl, El|by repeat constructor].
Qed.

Lemma predicate_known e parameters fields code : predicate_nodes contract e parameters fields = Ok code ->
  Forall (node_known parameters fields) code.
Proof.
  unfold predicate_nodes. intros ([ty c] & Hc & H)%result_bind_ok. destruct (negb _); [done|]. injection H as <-.
  by eapply expression_known, Hc.
Qed.

Lemma node_known_mono (parameters fields wider : TypeMap) (node : ReactivePredicateNodeV1) : fields ⊆ wider ->
  node_known parameters fields node -> node_known parameters wider node.
Proof. destruct node; cbn; try done. intros Hs H. by apply (lookup_weaken _ _ _ _ H). Qed.

(** The loop over the selected events. *)
Definition found_ok (found : EventsFound) : Prop :=
  match fo_signature found with
  | Some signature => fo_events found <> [] /\ Forall (event_guaranteed signature) (fo_events found)
  | None => fo_events found = []
  end.

Lemma field_compiles event span name f : compile_field contract event span name = Ok f ->
  rf_name f = name /\ exists field, named fd_name name (ev_payload event) = Some field /\
    rf_field_id f = fd_id field /\ type_name (fd_value_type field) contract = Some (rf_type_name f).
Proof.
  unfold compile_field. intros (field & Hf%ok_or_ok & (ty & Ht%ok_or_ok & H%ok_or_ok)%result_bind_ok)%result_bind_ok.
  unfold reactive_event_field_checked in H. destruct (_ && _); [|done]. injection H as <-. eauto.
Qed.

Lemma fields_compile event span names fields : mapM (compile_field contract event span) names = Ok fields ->
  Forall (fun f => exists field, named fd_name (rf_name f) (ev_payload event) = Some field /\
            rf_field_id f = fd_id field /\ type_name (fd_value_type field) contract = Some (rf_type_name f)) fields.
Proof.
  rewrite mapM_ok. induction 1 as [|name f names fields H _ IH]; constructor; [|done].
  apply field_compiles in H as [En H]. by rewrite En.
Qed.

Lemma event_compiles found selected found' : found_ok found -> compile_event contract found selected = Ok found' -> found_ok found'.
Proof.
  unfold compile_event. intros Hf. cbv zeta.
  intros (event & He%ok_or_ok & (ids & Hi%ok_or_ok & (sig & Hs%ok_or_ok & H)%result_bind_ok)%result_bind_ok)%result_bind_ok.
  destruct (match fo_signature found with Some _ => _ | None => _ end) eqn:Same; [done|].
  apply result_bind_ok in H as (all & _ & (fields & Hfields & (c & Hc%ok_or_ok & [= <-])%result_bind_ok)%result_bind_ok).
  unfold reactive_event_checked in Hc. destruct (_ || _); [done|]. injection Hc as <-.
  assert (event_guaranteed sig (mkReactiveEvent (ev_name event) (ev_id event) (sort_by field_cmp fields))) as Hnew.
  { apply named_In in He as En. destruct En as [_ En]. exists event, ids. cbn. rewrite En. split_and!; try done.
    rewrite (sort_by_perm field_cmp fields). by eapply fields_compile. }
  unfold found_ok in *. cbn [fo_signature fo_events]. destruct (fo_signature found) as [g|].
  - apply negb_false_iff, bool_decide_eq_true in Same as ->. destruct Hf as [_ Hf].
    split; [by intros [_ ?]%app_nil|]. apply Forall_app. auto.
  - rewrite Hf. split; [done|by repeat constructor].
Qed.

Lemma events_compile selected : forall found found', found_ok found -> compile_events contract found selected = Ok found' ->
  found_ok found'.
Proof.
  induction selected as [|s selected IH]; cbn [compile_events]; intros found found' Hf; [by intros [= <-]|].
  intros (f & Hc & H)%result_bind_ok. eapply IH, H. by eapply event_compiles.
Qed.

Lemma bindings_compile parameters (l : list (PartitionBinding * (list byte * list byte))) partition :
  mapM (compile_binding parameters) l = Ok partition ->
  map (fun b => (rb_field b, rb_type_name b)) partition = map snd l /\
  Forall (fun b => parameters !! rb_parameter b = Some (rb_type_name b)) partition.
Proof.
  rewrite mapM_ok. induction 1 as [|[b [f ty]] r l partition H _ [IH1 IH2]]; [by split; [|constructor]|].
  unfold compile_binding in H. destruct (bool_decide (pb_field b = f)); [|done]. cbn [negb orb] in H.
  case_bool_decide as Ht; [|done]. cbn [negb] in H. apply ok_or_ok in H. unfold reactive_partition_binding_checked in H.
  destruct (_ && _); [|done]. injection H as <-. cbn [map snd rb_field rb_type_name]. split; [by rewrite IH1|by constructor].
Qed.

Lemma operation_compiles name span plan op : ReactiveCompile.operation sha256 name span plan = Ok op ->
  co_name op = name /\ co_plan op = plan /\ compiled_operation_checked sha256 name plan = Some op.
Proof.
  unfold ReactiveCompile.operation. intros (n & Hn & H%ok_or_ok)%result_bind_ok.
  assert (n = name) as ->.
  { unfold reactive_operation_name_new, query_operation_name_new in Hn. destruct (bool_decide _); [done|].
    destruct (_ <? _); [done|]. destruct (find_invalid 0 name); [done|]. by injection Hn. }
  split_and!; [| |done]; unfold compiled_operation_checked in H; by apply bind_Some in H as (b & _ & [= <-]).
Qed.

(** What a compiled stream is made of. *)
Lemma stream_compiles source op : compile_stream sha256 contract source = Ok op ->
  exists parameters partition events predicate fields,
    co_name op = sm_name source /\ co_plan op = P_Stream parameters partition events predicate /\
    compiled_operation_checked sha256 (co_name op) (co_plan op) = Some op /\
    stream_guaranteed parameters partition events predicate /\
    compile_parameters contract (sm_parameters source) = Ok parameters /\
    fields ⊆ common_all (map selected_types events) /\
    match sm_predicate source with
    | Some expression => predicate_nodes contract expression (types parameters) fields = Ok predicate
    | None => predicate = []
    end.
Proof.
  unfold compile_stream. cbv zeta.
  intros (parameters & Hp & (found & Hf & (sig & Hs%ok_or_ok & H)%result_bind_ok)%result_bind_ok)%result_bind_ok.
  destruct (Z.eqb_spec (zlen (sm_partition source)) (zlen sig)) as [Hlen|]; [|done]. cbn [negb] in H.
  apply result_bind_ok in H as (partition & Hb & (predicate & Hn & Ho)%result_bind_ok).
  apply operation_compiles in Ho as (En & Ep & Eo).
  apply (events_compile _ (mkFound [] None None) _ eq_refl) in Hf. unfold found_ok in Hf. rewrite Hs in Hf.
  destruct Hf as [Hne Hev]. apply bindings_compile in Hb as [Hsig Hbind].
  rewrite snd_zip in Hsig by (unfold zlen in Hlen; lia).
  set (available := common_part _ _) in Hn. exists parameters, partition, (fo_events found), predicate, available.
  assert (available ⊆ common_all (map selected_types (fo_events found))) as Hsub by apply common_part_sub.
  split_and!; [done|done|by rewrite En, Ep| |done|done|].
  - split; [done|by rewrite Hsig|done|]. apply Forall_forall. intros event Hevent.
    destruct (sm_predicate source); [|injection Hn as <-; constructor].
    apply predicate_known in Hn. eapply Forall_impl; [exact Hn|]. intros node. apply node_known_mono. etrans; [exact Hsub|].
    apply common_all_sub. by apply list_elem_of_fmap_2.
  - destruct (sm_predicate source); [done|]. by injection Hn.
Qed.

(** ** Queries and watches *)
Lemma queries_In name entry : queries query_catalog !! name = Some entry -> entry ∈ query_catalog /\ qe_query_name entry = name.
Proof. unfold queries. intros H%collect_map_In. apply list_elem_of_fmap in H as (e & [= -> ->] & He). done. Qed.

Lemma dependency_exact query_name local arguments span q entry :
  queries query_catalog !! query_name = Some entry ->
  query_dependency query_catalog query_name local arguments span = Ok q ->
  query_exact entry q /\ rq_arguments q ≡ₚ arguments.
Proof.
  intros Hq. unfold query_dependency. rewrite Hq. cbn [ok_or mbind result_bind]. intros H%ok_or_ok.
  unfold query_dependency_checked in H. destruct (_ || _); [done|]. injection H as <-.
  split; [|apply sort_by_perm]. apply queries_In in Hq as [Hin _]. done.
Qed.

Lemma watch_compiles source op : compile_watch sha256 contract query_catalog source = Ok op ->
  co_name op = wa_name source /\ compiled_operation_checked sha256 (co_name op) (co_plan op) = Some op /\
  exists parameters query mode patch_key, co_plan op = P_Watch parameters query mode patch_key /\
    watch_guaranteed parameters query mode patch_key.
Proof.
  unfold compile_watch. intros (parameters & Hp & (query & Hq & H)%result_bind_ok)%result_bind_ok.
  destruct (queries query_catalog !! wa_query source) as [entry|] eqn:He; [|done].
  case_bool_decide as Ht; [|done]. cbn [negb] in H. apply result_bind_ok in H as ([mode key] & Hm & Ho).
  apply operation_compiles in Ho as (En & Ep & Eo). split_and!; [done|by rewrite En, Ep|].
  exists parameters, query, mode, key. split; [done|]. exists entry.
  split_and!; [by eapply dependency_exact|done|]. destruct (wa_update_mode source); [|by injection Hm as <- <-].
  case_bool_decide; [done|]. by injection Hm as <- <-.
Qed.

(** ** Subscriptions *)
Lemma arguments_compile values targets parameters fields span l :
  compile_arguments contract values targets parameters fields span = Ok l -> map fst l = map fst targets.
Proof.
  unfold compile_arguments. destruct (negb _); [done|]. cbv zeta. rewrite mapM_ok.
  induction 1 as [|[name ty] [n c] targets l H _ IH]; [done|]. cbn [map fst]. f_equal; [|done].
  apply result_bind_ok in H as (value & _ & ([actual canonical] & _ & H)%result_bind_ok).
  destruct (negb _); [done|]. by injection H.
Qed.

Lemma add_cost_exact a b c : add_cost a b = Some c ->
  qc_scanned_index_rows c = qc_scanned_index_rows a + qc_scanned_index_rows b /\
  qc_encoded_result_bytes c = qc_encoded_result_bytes a + qc_encoded_result_bytes b.
Proof.
  unfold add_cost. intros H. do 7 (apply bind_Some in H as (? & [-> _]%u_checked_Some & H)).
  unfold cost_new in H. destruct (_ || _); [done|]. by injection H as <-.
Qed.

Lemma total_app f l k : total f (l ++ k) = total f l + total f k.
Proof. unfold total. induction l as [|q l IH]; cbn [app foldr]; [done|]. rewrite IH. lia. Qed.

Definition hydration_exact (q : ReactiveQueryDependencyV1) : Prop :=
  exists entry, query_exact entry q /\ map fst (rq_arguments q) ≡ₚ map fst (qe_parameters entry).

Lemma hydrations_compile parameters fields hydrations : forall compiled aggregate l cost,
  Forall hydration_exact compiled ->
  qc_scanned_index_rows aggregate = total qc_scanned_index_rows compiled ->
  qc_encoded_result_bytes aggregate = total qc_encoded_result_bytes compiled ->
  compile_hydrations contract query_catalog parameters fields hydrations compiled aggregate = Ok (l, cost) ->
  Forall hydration_exact l /\ zlen l = zlen compiled + zlen hydrations /\
  qc_scanned_index_rows cost = total qc_scanned_index_rows l /\ qc_encoded_result_bytes cost = total qc_encoded_result_bytes l.
Proof.
  induction hydrations as [|h hydrations IH]; cbn [compile_hydrations]; intros compiled aggregate l cost Hc Hr Hb.
  - intros [= <- <-]. split_and!; [done|rewrite zlen_nil; lia|done|done].
  - cbv zeta. intros (entry & He%ok_or_ok & (arguments & Ha & (q & Hq & (sum & Hs%ok_or_ok & H)
      %result_bind_ok)%result_bind_ok)%result_bind_ok)%result_bind_ok.
    apply add_cost_exact in Hs as [Sr Sb]. destruct (dependency_exact _ _ _ _ _ _ He Hq) as [Hex Hperm].
    apply IH in H as (H1 & H2 & H3 & H4).
    + split_and!; [done| |done|done]. rewrite H2, zlen_app, !zlen_cons, zlen_nil. lia.
    + apply Forall_app. split; [done|]. repeat constructor. exists entry. split; [done|].
      rewrite <- (arguments_compile _ _ _ _ _ _ Ha). by rewrite Hperm.
    + rewrite Sr, total_app, Hr. cbn. lia.
    + rewrite Sb, total_app, Hb. cbn. lia.
Qed.

Lemma reaction_compiles r c : compile_reaction contract r = Ok c ->
  exists command, command ∈ cb_commands contract /\ cm_idempotency_input command <> None /\
    rc_command_name c = cm_name command /\ rc_command_id c = cm_id command.
Proof.
  unfold compile_reaction. intros (command & Hn%ok_or_ok & H)%result_bind_ok. case_bool_decide; [done|].
  apply ok_or_ok in H. unfold command_dependency_checked in H. destruct (_ && _); [|done]. injection H as <-.
  exists command. by apply named_In in Hn as [? _].
Qed.

Lemma reactions_compile l k : mapM (compile_reaction contract) l = Ok k -> length k = length l /\
  Forall (fun c => exists command, command ∈ cb_commands contract /\ cm_idempotency_input command <> None /\
            rc_command_name c = cm_name command /\ rc_command_id c = cm_id command) k.
Proof.
  rewrite mapM_ok. intros H. split; [symmetry; by eapply Forall2_length|].
  induction H as [|r c l k H _ IH]; constructor; [by eapply reaction_compiles|done].
Qed.

Lemma delivery_limits_bounds b i s limits : delivery_limits_new b i s = Some limits -> 0 <= b -> 0 <= i ->
  1 <= rl_batch limits <= 8 /\ 1 <= rl_in_flight limits <= 8 /\ 5 <= rl_lease_seconds limits <= 900.
Proof.
  unfold delivery_limits_new. destruct (_ || _) eqn:E; [done|]. intros [= <-] Hb Hi. cbn. lia.
Qed.

Lemma subscription_compiles streams operations source op : subscription_ok source = true ->
  (forall name stream, streams !! name = Some stream -> stream ∈ operations) ->
  compile_subscription sha256 contract query_catalog streams source = Ok op ->
  co_name op = su_name source /\ compiled_operation_checked sha256 (co_name op) (co_plan op) = Some op /\
  exists parameters name hash arguments hydrations reactions limits,
    co_plan op = P_Subscription parameters name hash arguments hydrations reactions limits /\
    subscription_guaranteed operations name hash arguments hydrations reactions limits.
Proof.
  intros Hok Hstreams. unfold compile_subscription. cbv zeta.
  intros (parameters & Hp & (stream & Hs%ok_or_ok & H)%result_bind_ok)%result_bind_ok.
  destruct (co_plan stream) as [sp spart sev spred| |] eqn:Eplan; [|done|done].
  apply result_bind_ok in H as (arguments & Ha & ([hydrations cost] & Hh & H)%result_bind_ok).
  destruct ((500 <? _) || _) eqn:Ecost; [done|]. apply orb_false_iff in Ecost as [Er%Z.ltb_ge Eb%Z.ltb_ge].
  apply result_bind_ok in H as (reactions & Hre & (limits & Hl%ok_or_ok & Ho)%result_bind_ok).
  apply operation_compiles in Ho as (En & Ep & Eo). split_and!; [done|by rewrite En, Ep|].
  eexists _, _, _, _, _, _, _. split; [exact Ep|].
  apply (hydrations_compile _ _ _ [] cost_zero _ _ (Forall_nil_2 _) eq_refl eq_refl) in Hh as (Hh & Hn & Cr & Cb).
  apply reactions_compile in Hre as [Hlen Hre]. unfold subscription_ok, limits_ok in Hok. rewrite !andb_true_iff in Hok.
  destruct Hok as [[[[[[[[[[_ _] _] _] _] _] Hhy] _] _] Hrn] Hlim].
  apply delivery_limits_bounds in Hl as (L1 & L2 & L3); [|lia|lia]. rewrite zlen_nil in Hn.
  assert (zlen reactions = zlen (su_reactions source)) as Hz by (unfold zlen; by rewrite Hlen).
  split; [|exact Hh|lia|lia|lia|exact Hre|lia|exact L1|exact L2|exact L3].
  exists stream, sp, spart, sev, spred. split_and!; [by eapply Hstreams|done|done|done|].
  rewrite (arguments_compile _ _ _ _ _ _ Ha). unfold typed_parameters. by rewrite map_map.
Qed.

(** ** Modules *)
Lemma streams_compile l : forall streams operations streams' operations',
  (forall name stream, streams !! name = Some stream -> stream ∈ operations) ->
  compile_streams sha256 contract l streams operations = Ok (streams', operations') ->
  exists compiled, operations' = operations ++ compiled /\ Forall2 (fun s op => compile_stream sha256 contract s = Ok op) l compiled /\
    forall name stream, streams' !! name = Some stream -> stream ∈ operations'.
Proof.
  induction l as [|s l IH]; cbn [compile_streams]; intros streams operations streams' operations' Hs.
  - intros [= <- <-]. exists []. by rewrite app_nil_r.
  - intros (op & Hop & H)%result_bind_ok. apply IH in H as (compiled & -> & Hc & Hm).
    + exists (op :: compiled). rewrite <- app_assoc in *. split_and!; [done|by constructor|done].
    + intros name stream [[_ <-]|[_ Hin]]%lookup_insert_Some; apply elem_of_app; [right; by left|left; by eapply Hs].
Qed.

(** What a compiled module is made of. *)
Record compiled_from (m : ReactiveModule) (plan : ReactiveModulePlanV1)
    (streams watches subscriptions : list CompiledReactiveOperationV1) : Prop := {
  cf_streams : Forall2 (fun s op => compile_stream sha256 contract s = Ok op) (md_streams m) streams;
  cf_watches : Forall2 (fun w op => compile_watch sha256 contract query_catalog w = Ok op) (md_watches m) watches;
  cf_subscriptions : exists by_name, (forall name stream, by_name !! name = Some stream -> stream ∈ streams) /\
    Forall2 (fun s op => compile_subscription sha256 contract query_catalog by_name s = Ok op) (md_subscriptions m) subscriptions;
  cf_plan : module_plan_checked sha256 (md_name m) (md_version m) (cb_lineage contract) (cb_contract_version contract)
    (cb_bundle_hash contract) (hash_reactive_source sha256 (format_module m)) (streams ++ watches ++ subscriptions) = Some plan;
}.

Lemma module_compiles m plan : compile_reactive_module sha256 contract query_catalog m = Ok plan ->
  exists streams watches subscriptions, compiled_from m plan streams watches subscriptions.
Proof.
  unfold compile_reactive_module. intros ([by_name streams] & Hs & (watches & Hw & (subs & Hu & H%ok_or_ok)
    %result_bind_ok)%result_bind_ok)%result_bind_ok.
  apply streams_compile in Hs as (compiled & E & Hc & Hm); [|intros name stream; by rewrite lookup_empty].
  cbn [app] in E. subst streams. exists compiled, watches, subs. split; [done|by apply mapM_ok| |done].
  exists by_name. split; [done|by apply mapM_ok].
Qed.

Lemma plan_operations n v l c h s ops plan : module_plan_checked sha256 n v l c h s ops = Some plan ->
  mp_operations plan ≡ₚ ops /\ mp_source_hash plan = s.
Proof.
  unfold module_plan_checked. destruct (_ || _); [done|]. cbv zeta. destruct (negb _); [done|].
  intros (b & _ & [= <-])%bind_Some. split; [apply sort_by_perm|done].
Qed.

Lemma module_subscriptions_ok m : module_ok m = true -> forallb subscription_ok (md_subscriptions m) = true.
Proof. unfold module_ok. rewrite !andb_true_iff. tauto. Qed.

Lemma compiled_names m plan streams watches subs : module_ok m = true -> compiled_from m plan streams watches subs ->
  map co_name (streams ++ watches ++ subs) = operation_names m.
Proof.
  intros Hok [Hs Hw (by_name & Hb & Hu) Hp]. unfold operation_names. rewrite !map_app.
  pose proof (module_subscriptions_ok _ Hok) as Hsub.
  f_equal; [|f_equal].
  - clear -Hs. induction Hs as [|s op l k H _ IH]; [done|]. cbn [map]. rewrite IH.
    apply stream_compiles in H as (? & ? & ? & ? & ? & -> & _). done.
  - clear -Hw. induction Hw as [|w op l k H _ IH]; [done|]. cbn [map]. rewrite IH. by apply watch_compiles in H as [-> _].
  - clear -Hu Hsub Hb. induction Hu as [|s op l k H _ IH]; [done|]. cbn [map forallb] in *.
    apply andb_true_iff in Hsub as [Hs Hl]. rewrite (IH Hl). by apply (subscription_compiles _ _ _ _ Hs Hb) in H as [-> _].
Qed.

Lemma guaranteed_mono (l k : list CompiledReactiveOperationV1) op : l ⊆ k -> operation_guaranteed l op -> operation_guaranteed k op.
Proof.
  unfold operation_guaranteed. intros Hs. destruct (co_plan op); [done|done|].
  intros [(st & p & q & e & r & Hin & Hrest) H2 H3 H4 H5 H6 H7 H8 H9 H10]. split; try done.
  exists st, p, q, e, r. split; [by apply Hs|done].
Qed.

Lemma compiled_guaranteed m plan streams watches subs : module_ok m = true -> compiled_from m plan streams watches subs ->
  Forall (operation_guaranteed streams) (streams ++ watches ++ subs).
Proof.
  intros Hok [Hs Hw (by_name & Hb & Hu) Hp].
  pose proof (module_subscriptions_ok _ Hok) as Hsub.
  rewrite !Forall_app. unfold operation_guaranteed. split_and!.
  - apply (Forall2_right _ _ _ _ Hs). intros x y _ H.
    apply stream_compiles in H as (? & ? & ? & ? & ? & _ & -> & _ & H & _). done.
  - apply (Forall2_right _ _ _ _ Hw). intros x y _ H.
    apply watch_compiles in H as (_ & _ & ? & ? & ? & ? & -> & H). done.
  - apply (Forall2_right _ _ _ _ Hu). intros x y Hx%(forallb_In _ _ _ Hsub) H.
    apply (subscription_compiles _ _ _ _ Hx Hb) in H as (_ & _ & ? & ? & ? & ? & ? & ? & ? & -> & H). done.
Qed.

Lemma compiled_checked m plan streams watches subs : module_ok m = true -> compiled_from m plan streams watches subs ->
  Forall (fun op => compiled_operation_checked sha256 (co_name op) (co_plan op) = Some op) (streams ++ watches ++ subs).
Proof.
  intros Hok [Hs Hw (by_name & Hb & Hu) Hp].
  rewrite !Forall_app. split_and!.
  - apply (Forall2_right _ _ _ _ Hs). intros x y _ H. by apply stream_compiles in H as (? & ? & ? & ? & ? & _ & _ & H & _).
  - apply (Forall2_right _ _ _ _ Hw). intros x y _ H. by apply watch_compiles in H as (_ & H & _).
  - apply (Forall2_right _ _ _ _ Hu). intros x y Hx%(forallb_In _ _ _ (module_subscriptions_ok _ Hok)) H.
    by apply (subscription_compiles _ _ _ _ Hx Hb) in H as (_ & H & _).
Qed.
End guarantees.

(** ** The plan depends on the source up to spans *)

(** The same plan, or a diagnostic of the same code. *)
Definition same_result {A} (r s : Compiled A) : Prop :=
  match r, s with
  | Ok a, Ok b => a = b
  | Err d, Err e => rd_code d = rd_code e
  | _, _ => False
  end.

#[export] Instance same_result_equivalence A : Equivalence (@same_result A).
Proof.
  split; [by intros []|by intros [] []; cbn|]. intros [a|d] [b|e] [c|f]; cbn; try done; by etrans.
Qed.

Create HintDb same_result.

Lemma same_refl {A} (r : Compiled A) : same_result r r.
Proof. reflexivity. Qed.
Lemma same_bind {A B} (r s : Compiled A) (f g : A -> Compiled B) : same_result r s -> (forall a, same_result (f a) (g a)) ->
  same_result (r ≫= f) (s ≫= g).
Proof. destruct r, s; cbn; try done. intros -> H. apply H. Qed.
Lemma same_ok_or {A} (o : option A) code s t : same_result (ok_or o (diagnostic code s)) (ok_or o (diagnostic code t)).
Proof. by destruct o. Qed.
Lemma same_map_err {A E} (r : result E A) code s t :
  same_result (map_err (fun _ => diagnostic code s) r) (map_err (fun _ => diagnostic code t) r).
Proof. by destruct r. Qed.
Lemma same_err {A} code s t : same_result (A := A) (Err (diagnostic code s)) (Err (diagnostic code t)).
Proof. done. Qed.
Lemma same_if {A} (b : bool) (r r' s s' : Compiled A) : same_result r s -> same_result r' s' ->
  same_result (if b then r else r') (if b then s else s').
Proof. by destruct b. Qed.
Lemma same_mapM {A B} (f : A -> Compiled B) (h : A -> A) l : (forall x, same_result (f x) (f (h x))) ->
  same_result (mapM f l) (mapM f (map h l)).
Proof.
  intros H. induction l as [|x l IH]; [done|]. cbn [map mapM]. apply same_bind; [apply H|]. intros y. by apply same_bind.
Qed.

#[export] Hint Resolve same_refl same_bind same_ok_or same_map_err same_err same_if same_mapM : same_result.
#[export] Hint Extern 1 (forall _, same_result _ _) => intros ? : same_result.

Section spans.
Context (sha256 : list byte -> list byte) (contract : ContractBundle) (query_catalog : list ReactiveQueryCatalogEntry).

Lemma compile_parameters_erase l : same_result (compile_parameters contract l) (compile_parameters contract (map erase_parameter l)).
Proof.
  unfold compile_parameters. apply same_mapM. intros x. apply same_bind; [apply same_ok_or|]. intros [a b]. apply same_ok_or.
Qed.

Lemma predicate_operand_erase o expected parameters fields :
  predicate_operand (erase_operand o) expected parameters fields contract = predicate_operand o expected parameters fields contract.
Proof. by destruct o. Qed.
Lemma known_operand_erase o parameters fields : known_operand_type (erase_operand o) parameters fields = known_operand_type o parameters fields.
Proof. by destruct o. Qed.
Lemma operand_type_erase o expected parameters fields :
  operand_type (erase_operand o) expected parameters fields contract = operand_type o expected parameters fields contract.
Proof. by destruct o. Qed.

Lemma compile_expression_erase e parameters fields : forall nodes,
  same_result (compile_expression e parameters fields contract nodes)
    (compile_expression (erase_expression e) parameters fields contract nodes).
Proof.
  induction e as [o|l IHl op r IHr s]; intros nodes; [done|].
  destruct op; cbn [compile_expression erase_expression];
    try (destruct l as [lhs|], r as [rhs|]; cbn [erase_expression]; try apply same_err;
         rewrite !predicate_operand_erase, !known_operand_erase; apply same_bind; [apply same_ok_or|];
         intros [tl nl]; rewrite predicate_operand_erase; apply same_bind; [apply same_ok_or|]; intros [tr nr];
         apply same_if; [apply same_err|done]).
  all: apply same_bind; [apply IHl|]; intros [tl nl]; apply same_if; [apply same_err|]; apply same_bind; [apply IHr|];
    intros [tr nr]; apply same_if; [apply same_err|done].
Qed.

Lemma predicate_nodes_erase e parameters fields :
  same_result (predicate_nodes contract e parameters fields) (predicate_nodes contract (erase_expression e) parameters fields).
Proof.
  unfold predicate_nodes. apply same_bind; [apply compile_expression_erase|]. intros [ty code]. apply same_if; [apply same_err|done].
Qed.

Lemma operation_erase name span plan :
  same_result (ReactiveCompile.operation sha256 name span plan) (ReactiveCompile.operation sha256 name no_span plan).
Proof. unfold ReactiveCompile.operation. auto with same_result. Qed.

(** *** Streams *)
Lemma compile_event_erase found e : same_result (compile_event contract found e) (compile_event contract found (erase_event e)).
Proof.
  unfold compile_event. cbn [erase_event es_event es_fields es_span]. cbv zeta.
  apply same_bind; [apply same_ok_or|]. intros event. apply same_bind; [apply same_ok_or|]. intros ids.
  apply same_bind; [apply same_ok_or|]. intros sig. apply same_if; [apply same_err|].
  apply same_bind; [apply same_ok_or|]. intros all. apply same_bind.
  - generalize (es_fields e). induction l as [|n l IH]; [done|]. cbn [mapM]. apply same_bind; [|auto with same_result].
    unfold compile_field. auto with same_result.
  - auto with same_result.
Qed.

Lemma compile_events_erase l : forall found,
  same_result (compile_events contract found l) (compile_events contract found (map erase_event l)).
Proof.
  induction l as [|e l IH]; intros found; [done|]. cbn [compile_events map]. apply same_bind; [apply compile_event_erase|done].
Qed.

Lemma compile_binding_erase parameters l (signature : list (list byte * list byte)) :
  same_result (mapM (compile_binding parameters) (zip l signature))
    (mapM (compile_binding parameters) (zip (map erase_partition l) signature)).
Proof.
  revert signature. induction l as [|b l IH]; intros [|[f ty] sig]; [done..|]. cbn [map zip zip_with mapM].
  apply same_bind; [|auto with same_result]. unfold compile_binding. cbn [erase_partition pb_field pb_parameter pb_span].
  auto with same_result.
Qed.

Lemma compile_stream_erase s : same_result (compile_stream sha256 contract s) (compile_stream sha256 contract (erase_stream s)).
Proof.
  unfold compile_stream. cbn [erase_stream sm_name sm_parameters sm_partition sm_events sm_predicate sm_span]. cbv zeta.
  apply same_bind; [apply compile_parameters_erase|]. intros parameters.
  apply same_bind; [apply compile_events_erase|]. intros found. apply same_bind; [apply same_ok_or|]. intros sig.
  rewrite zlen_map. apply same_if; [apply same_err|]. apply same_bind; [apply compile_binding_erase|]. intros partition.
  apply same_bind; [|intros predicate; apply operation_erase]. destruct (sm_predicate s); [apply predicate_nodes_erase|done].
Qed.

(** *** Watches *)
Lemma query_dependency_erase name local arguments s t :
  same_result (query_dependency query_catalog name local arguments s) (query_dependency query_catalog name local arguments t).
Proof. unfold query_dependency. auto with same_result. Qed.

Lemma compile_watch_erase w : same_result (compile_watch sha256 contract query_catalog w)
  (compile_watch sha256 contract query_catalog (erase_watch w)).
Proof.
  unfold compile_watch. cbn [erase_watch wa_name wa_parameters wa_query wa_update_mode wa_span].
  apply same_bind; [apply compile_parameters_erase|]. intros parameters.
  apply same_bind; [apply query_dependency_erase|]. intros query. destruct (queries query_catalog !! wa_query w); [|done].
  apply same_if; [apply same_err|]. apply same_bind; [|intros [mode key]; apply operation_erase].
  destruct (wa_update_mode w); [|done]. by apply same_if.
Qed.

(** *** Subscriptions *)
Lemma collect_map_fmap {V} (h : V -> V) (l : list (list byte * V)) k :
  collect_map (map (fun p => (p.1, h p.2)) l) !! k = h <$> collect_map l !! k.
Proof.
  unfold collect_map. assert (forall m m' : gmap (list byte) V, m' !! k = h <$> m !! k ->
    fold_left (fun m p => <[p.1:=p.2]> m) (map (fun p => (p.1, h p.2)) l) m' !! k =
    h <$> fold_left (fun m p => <[p.1:=p.2]> m) l m !! k) as H; [|by apply H; rewrite !lookup_empty].
  induction l as [|[a b] l IH]; intros m m' Hm; [done|]. cbn [map fold_left fst snd]. apply IH.
  destruct (decide (a = k)) as [->|]; [by rewrite !lookup_insert_eq|by rewrite !lookup_insert_ne].
Qed.

Lemma compile_arguments_erase l targets parameters fields s t :
  same_result (compile_arguments contract l targets parameters fields s)
    (compile_arguments contract (map erase_argument l) targets parameters fields t).
Proof.
  unfold compile_arguments. rewrite zlen_map. apply same_if; [apply same_err|]. cbv zeta.
  assert (map (fun v => (ag_name v, v)) (map erase_argument l) =
    map (fun p => (p.1, erase_argument p.2)) (map (fun v => (ag_name v, v)) l)) as -> by by rewrite !map_map.
  generalize (map (fun v => (ag_name v, v)) l). intros values.
  induction targets as [|[name ty] targets IH]; [done|]. cbn [mapM]. apply same_bind; [|auto with same_result].
  rewrite collect_map_fmap. destruct (collect_map values !! name) as [v|]; [|done]. cbn [fmap option_fmap option_map ok_or mbind result_bind].
  cbn [erase_argument ag_value ag_span]. rewrite operand_type_erase. apply same_bind; [apply same_ok_or|].
  intros [actual canonical]. by apply same_if.
Qed.

Lemma compile_hydrations_erase parameters fields l : forall compiled aggregate,
  same_result (compile_hydrations contract query_catalog parameters fields l compiled aggregate)
    (compile_hydrations contract query_catalog parameters fields (map erase_hydration l) compiled aggregate).
Proof.
  induction l as [|h l IH]; intros compiled aggregate; [done|]. cbn [compile_hydrations map]. cbv zeta.
  cbn [erase_hydration hy_name hy_query hy_arguments hy_span].
  apply same_bind; [apply same_ok_or|]. intros query. apply same_bind; [apply compile_arguments_erase|]. intros arguments.
  apply same_bind; [apply query_dependency_erase|]. intros q. apply same_bind; [apply same_ok_or|]. auto.
Qed.

Lemma compile_reaction_erase r : same_result (compile_reaction contract r) (compile_reaction contract (erase_reaction r)).
Proof. unfold compile_reaction. cbn [erase_reaction re_name re_command re_span]. auto with same_result. Qed.

Lemma compile_subscription_erase streams s : same_result (compile_subscription sha256 contract query_catalog streams s)
  (compile_subscription sha256 contract query_catalog streams (erase_subscription s)).
Proof.
  unfold compile_subscription.
  cbn [erase_subscription su_name su_parameters su_stream su_hydrations su_reactions su_limits su_span erase_binding sb_stream sb_arguments sb_span].
  cbv zeta. apply same_bind; [apply compile_parameters_erase|]. intros parameters.
  apply same_bind; [apply same_ok_or|]. intros stream. destruct (co_plan stream); [|done|done].
  apply same_bind; [apply compile_arguments_erase|]. intros arguments. apply same_bind; [apply compile_hydrations_erase|].
  intros [hydrations cost]. apply same_if; [apply same_err|]. apply same_bind; [apply same_mapM, compile_reaction_erase|].
  intros reactions. apply same_bind; [apply same_ok_or|]. intros limits. apply operation_erase.
Qed.

(** *** Modules *)
Lemma compile_streams_erase l : forall streams operations,
  same_result (compile_streams sha256 contract l streams operations)
    (compile_streams sha256 contract (map erase_stream l) streams operations).
Proof.
  induction l as [|s l IH]; intros streams operations; [done|]. cbn [compile_streams map].
  apply same_bind; [apply compile_stream_erase|]. intros op. apply IH.
Qed.

Lemma compile_module_erase m : same_result (compile_reactive_module sha256 contract query_catalog m)
  (compile_reactive_module sha256 contract query_catalog (erase_module m)).
Proof.
  unfold compile_reactive_module. rewrite format_module_erase.
  cbn [erase_module md_name md_version md_streams md_watches md_subscriptions md_span].
  apply same_bind; [apply compile_streams_erase|]. intros [streams operations].
  apply same_bind; [apply same_mapM, compile_watch_erase|]. intros watches.
  apply same_bind; [apply same_mapM, compile_subscription_erase|]. intros subscriptions. apply same_ok_or.
Qed.
End spans.
