(* ===== verification/ReactiveEvaluate.v ===== *)
(** * Reactive predicates: evaluation

    The predicate of a stream runs as postfix code over one event
    ([riffdb-catalog/src/event_replay.rs], [predicate_matches]).  The code that
    the compiler emits computes the value of the written expression, whatever
    the event and the parameters, and never leaves the evaluator without an
    operand: the literals it embeds are read back by the canonical codec, and
    every field it names is selected from every event of the stream. *)

From S2P Require Import Prelude Decimal Value Codec CodecEncode CodecDecode ValueType Evaluate Names Text Results Schema ReactivePlan ReactiveSyntax ReactiveCompile ReactiveGuarantees.
From Stdlib Require Import Strings.String Strings.Byte.
From stdpp Require Import gmap list.

Local Open Scope Z_scope.

(** ** The evaluator *)

(** Only the kind these functions raise. *)
Inductive EventReplayErrorKind := RE_Integrity.

Abbreviation Replayed A := (result EventReplayErrorKind A).
Abbreviation Parameters := (gmap (list byte) CanonicalValue).

(** The selected fields of a materialized event. *)
Record SymbolicEventView := mkView { vw_fields : list (list byte * CanonicalValue) }.

Inductive PredicateValue :=
  | Scalar (v : CanonicalValue)
  | Boolean (b : bool).

Definition pop_scalar (stack : list PredicateValue) : Replayed (CanonicalValue * list PredicateValue) :=
  match stack with Scalar v :: rest => Ok (v, rest) | _ => Err RE_Integrity end.

Definition pop_boolean (stack : list PredicateValue) : Replayed (bool * list PredicateValue) :=
  match stack with Boolean b :: rest => Ok (b, rest) | _ => Err RE_Integrity end.

Definition scalar_order (lhs rhs : CanonicalValue) : option Datatypes.comparison :=
  match lhs, rhs with
  | VI64 a, VI64 b => Some (a ?= b)
  | VU64 a, VU64 b => Some (a ?= b)
  | VString a, VString b => Some (Prelude.lex a b)
  | VTimestamp a, VTimestamp b => Some (timestamp_cmp a b)
  | VDate a, VDate b => Some (a ?= b)
  | VUuid a, VUuid b => Some (Prelude.lex a b)
  | VEnum left_type left_variant, VEnum right_type right_variant =>
      if left_type =? right_type then Some (left_variant ?= right_variant) else None
  | _, _ => None
  end.

Definition compare_values (node : ReactivePredicateNodeV1) (lhs rhs : CanonicalValue) : bool :=
  match node with
  | N_Equal => value_eqb lhs rhs
  | N_NotEqual => negb (value_eqb lhs rhs)
  | N_Less => match scalar_order lhs rhs with Some Lt => true | _ => false end
  | N_LessEqual => match scalar_order lhs rhs with Some Gt | None => false | _ => true end
  | N_Greater => match scalar_order lhs rhs with Some Gt => true | _ => false end
  | N_GreaterEqual => match scalar_order lhs rhs with Some Lt | None => false | _ => true end
  | _ => false (* not reached *)
  end.

Section evaluator.
Context (parameters : Parameters) (event : SymbolicEventView).

Definition event_field (name : list byte) : option CanonicalValue :=
  snd <$> find (fun f => bool_decide (fst f = name)) (vw_fields event).

(** One node. *)
Definition predicate_step (stack : list PredicateValue) (node : ReactivePredicateNodeV1) : Replayed (list PredicateValue) :=
  match node with
  | N_EventField name _ => value ← ok_or (event_field name) RE_Integrity; Ok (Scalar value :: stack)
  | N_Parameter name _ => value ← ok_or (parameters !! name) RE_Integrity; Ok (Scalar value :: stack)
  | N_Literal _ encoded =>
      value ← map_err (fun _ => RE_Integrity) (decode_canonical_value encoded); Ok (Scalar value :: stack)
  | N_Equal | N_NotEqual | N_Less | N_LessEqual | N_Greater | N_GreaterEqual =>
      '(rhs, stack) ← pop_scalar stack;
      '(lhs, stack) ← pop_scalar stack;
      Ok (Boolean (compare_values node lhs rhs) :: stack)
  | N_And | N_Or =>
      '(rhs, stack) ← pop_boolean stack;
      '(lhs, stack) ← pop_boolean stack;
      Ok (Boolean (match node with N_And => lhs && rhs | _ => lhs || rhs end) :: stack)
  end.

Fixpoint predicate_run (stack : list PredicateValue) (predicate : list ReactivePredicateNodeV1) : Replayed (list PredicateValue) :=
  match predicate with
  | [] => Ok stack
  | node :: rest => stack ← predicate_step stack node; predicate_run stack rest
  end.

Definition predicate_matches (predicate : list ReactivePredicateNodeV1) : Replayed bool :=
  if bool_decide (predicate = []) then Ok true
  else
    stack ← predicate_run [] predicate;
    match stack with [Boolean value] => Ok value | _ => Err RE_Integrity end.
End evaluator.

(** The check of the supplied parameters when a stream is resolved. *)
Definition parameters_accepted (declared : list ReactiveParameterV1) (parameters : Parameters) : bool :=
  negb (negb (zlen declared =? Z.of_nat (size parameters)) ||
        existsb (fun p => negb (bool_decide (is_Some (parameters !! rp_name p)))) declared).

(** ** The value of an expression *)
Section meaning.
Context (contract : ContractBundle) (parameter_types event_types : TypeMap) (parameters : Parameters) (event : SymbolicEventView).

(** The type two operands are compared at: the declared type of the left one, or
    else of the right one. *)
Definition comparison_type (lhs rhs : Operand) : option (list byte) :=
  match known_operand_type lhs parameter_types event_types with
  | Some ty => Some ty
  | None => known_operand_type rhs parameter_types event_types
  end.

Definition operand_value (ty : list byte) (o : Operand) : option CanonicalValue :=
  match o with
  | EventField name _ => event_field event name
  | ParameterRef name _ => parameters !! name
  | OLiteral literal _ => literal_value literal ty contract
  end.

Fixpoint meaning (e : Expression) : option bool :=
  match e with
  | EOperand _ => None
  | Binary lhs operator rhs _ =>
      match operator with
      | And => a ← meaning lhs; b ← meaning rhs; Some (a && b)
      | Or => a ← meaning lhs; b ← meaning rhs; Some (a || b)
      | _ =>
          match lhs, rhs with
          | EOperand lhs, EOperand rhs =>
              ty ← comparison_type lhs rhs;
              a ← operand_value ty lhs;
              b ← operand_value ty rhs;
              Some (compare_values (comparison_node operator) a b)
          | _, _ => None
          end
      end
  end.
End meaning.

(** ** Compiled predicates compute the meaning *)

(** The IDs of a contract are nonzero 32-bit numbers. *)
Definition enums_ok (contract : ContractBundle) : bool :=
  forallb (fun e => nonzero_u32b (en_id e) && forallb (fun v => nonzero_u32b (vr_id v)) (en_variants e)) (cb_enums contract).

Lemma literal_wf contract l ty v span : enums_ok contract = true -> operand_ok (OLiteral l span) = true ->
  literal_value l ty contract = Some v -> value_wf v.
Proof.
  intros He Hok. unfold literal_value, value_wf. destruct l as [z|b|s|w]; cbn [operand_ok] in Hok.
  - destruct (bool_decide (ty = text "i64")); [by intros [= <-]|].
    destruct (bool_decide (ty = text "u64")); [|done].
    intros (z' & Hz & ->)%fmap_Some. apply u_checked_Some in Hz as [-> Hz]. by apply u_inb_spec.
  - destruct (bool_decide _); [|done]. by intros [= <-].
  - destruct (starts_with _ _); [|done]. unfold canonical_string_new.
    destruct (Z.ltb_spec MAX_STRING_BYTES (zlen s)); [done|]. intros [= <-]. cbn [value_wfb].
    unfold string_ok in Hok. apply andb_true_iff in Hok as [[Hu _]%andb_true_iff _]. rewrite Hu. cbn. lia.
  - intros ([n1 n2] & _ & (e & He' & (n & _ & Hv)%bind_Some)%bind_Some)%bind_Some.
    destruct (negb _); [done|]. apply bind_Some in Hv as (r & Hr & [= <-]). cbn [value_wfb].
    apply named_In in He' as [He' _], Hr as [Hr _].
    apply (forallb_In _ _ _ He), andb_true_iff in He' as [-> Hvs]. exact (forallb_In _ _ _ Hvs Hr).
Qed.

Lemma encode_decodes v b : value_wf v -> encode_canonical_value v = Ok b -> decode_canonical_value b = Ok v.
Proof.
  intros Hwf E. pose proof (encode_canonical_value_exact v Hwf) as H. rewrite E in H.
  destruct H as [-> Hs]. by apply decode_of_value.
Qed.

Lemma predicate_run_app parameters event l : forall stack k,
  predicate_run parameters event stack (l ++ k) =
  (stack ← predicate_run parameters event stack l; predicate_run parameters event stack k).
Proof.
  induction l as [|n l IH]; intros stack k; [done|]. cbn [app predicate_run].
  destruct (predicate_step parameters event stack n) as [s|]; [|done]. apply IH.
Qed.

Section correct.
Context (contract : ContractBundle) (Hcontract : enums_ok contract = true).
Context (parameter_types event_types wider : TypeMap) (Hwider : event_types ⊆ wider).
Context (parameters : Parameters) (event : SymbolicEventView).
Context (Hparameters : forall name, is_Some (parameter_types !! name) -> is_Some (parameters !! name)).
Context (Hfields : forall name, is_Some (event_types !! name) -> is_Some (event_field event name)).

(** The node of an operand pushes its value. *)
Lemma operand_runs o expected ty node : operand_ok o = true ->
  predicate_operand o expected parameter_types event_types contract = Some (ty, node) ->
  (forall l s, o = OLiteral l s -> expected = Some ty) /\
  (known_operand_type o parameter_types event_types = Some ty \/ (exists l s, o = OLiteral l s)) /\
  exists v, operand_value contract parameters event ty o = Some v /\
    forall stack, predicate_step parameters event stack node = Ok (Scalar v :: stack).
Proof.
  intros Hok. destruct o as [f s|p s|l s]; cbn [predicate_operand known_operand_type operand_value].
  - intros (t & Ht & [= -> ->])%fmap_Some. destruct (Hfields f) as [v Hv]; [by rewrite Ht|].
    split_and!; [done|by left|]. exists v. split; [done|]. intros stack. cbn [predicate_step]. by rewrite Hv.
  - intros (t & Ht & [= -> ->])%fmap_Some. destruct (Hparameters p) as [v Hv]; [by rewrite Ht|].
    split_and!; [done|by left|]. exists v. split; [done|]. intros stack. cbn [predicate_step]. by rewrite Hv.
  - intros (t & -> & (v & Hv & (b & Hb & [= <- <-])%bind_Some)%bind_Some)%bind_Some.
    split_and!; [done|by right; eauto|]. exists v. split; [done|]. intros stack. cbn [predicate_step].
    unfold ok in Hb. destruct (encode_canonical_value v) as [b'|] eqn:E; [|done]. injection Hb as ->.
    by rewrite (encode_decodes v b (literal_wf _ _ _ _ _ Hcontract Hok Hv) E).
Qed.

Lemma known_wider o ty : known_operand_type o parameter_types event_types = Some ty ->
  known_operand_type o parameter_types wider = Some ty.
Proof. destruct o as [f s|p s|l s]; cbn; [|done|done]. intros H. by apply (lookup_weaken _ _ _ _ H). Qed.

(** The code of a comparison of two operands pushes its value. *)
Lemma comparison_runs (lhs rhs : Operand) op tl nl tr nr :
  is_comparison op = true -> operand_ok lhs = true -> operand_ok rhs = true ->
  predicate_operand lhs (comparison_type parameter_types event_types lhs rhs) parameter_types event_types contract = Some (tl, nl) ->
  predicate_operand rhs (Some tl) parameter_types event_types contract = Some (tr, nr) -> tl = tr ->
  exists a b, comparison_type parameter_types wider lhs rhs = Some tl /\
    operand_value contract parameters event tl lhs = Some a /\ operand_value contract parameters event tl rhs = Some b /\
    forall stack, predicate_run parameters event stack [nl; nr; comparison_node op] =
      Ok (Boolean (compare_values (comparison_node op) a b) :: stack).
Proof.
  intros Hop Hl Hr El Er <-.
  destruct (operand_runs _ _ _ _ Hl El) as (Tl & Kl & a & Ha & Ra), (operand_runs _ _ _ _ Hr Er) as (Tr & Kr & b & Hb & Rb).
  exists a, b. split_and!; [|done|done|].
  - unfold comparison_type in *. destruct Kl as [Kl|(l & s & ->)]; [by rewrite (known_wider _ _ Kl)|].
    specialize (Tl _ _ eq_refl). cbn [known_operand_type] in *. by apply known_wider.
  - intros stack. cbn [predicate_run]. rewrite Ra. cbn [mbind result_bind]. rewrite Rb. by destruct op.
Qed.

Lemma expression_runs e : forall nodes ty code, condition_ok e = true ->
  compile_expression e parameter_types event_types contract nodes = Ok (ty, code) ->
  exists emitted v, code = nodes ++ emitted /\ emitted <> [] /\
    meaning contract parameter_types wider parameters event e = Some v /\
    forall stack, predicate_run parameters event stack emitted = Ok (Boolean v :: stack).
Proof.
  induction e as [o|l IHl op r IHr s]; intros nodes ty code Hok; [done|]. cbn [condition_ok] in Hok.
  destruct (is_comparison op) eqn:Hop.
  - destruct l as [lhs|], r as [rhs|]; [|done..]. apply andb_true_iff in Hok as [Hl Hr]. intros Hc.
    assert (exists tl nl tr nr,
      predicate_operand lhs (comparison_type parameter_types event_types lhs rhs) parameter_types event_types contract = Some (tl, nl) /\
      predicate_operand rhs (Some tl) parameter_types event_types contract = Some (tr, nr) /\ tl = tr /\
      code = nodes ++ [nl; nr; comparison_node op]) as (tl & nl & tr & nr & El & Er & Ht & ->).
    { destruct op; [..|done|done]; cbn [compile_expression] in Hc;
        apply result_bind_ok in Hc as ([tl nl] & El%ok_or_ok & Hc); apply result_bind_ok in Hc as ([tr nr] & Er%ok_or_ok & Hc);
        (destruct (bool_decide (tl = tr)) eqn:Ht; [|done]); apply bool_decide_eq_true in Ht; injection Hc as _ <-;
        exists tl, nl, tr, nr; done. }
    destruct (comparison_runs lhs rhs op tl nl tr nr Hop Hl Hr El Er Ht) as (a & b & Et & Ea & Eb & Run).
    eexists _, _. split; [done|]. split; [done|]. split; [|exact Run].
    destruct op; [..|done|done]; cbn [meaning]; rewrite Et; cbn [mbind option_bind]; rewrite Ea; cbn [mbind option_bind];
      by rewrite Eb.
  - apply andb_true_iff in Hok as [Hl Hr]. intros Hc.
    assert (exists tl cl tr cr,
      compile_expression l parameter_types event_types contract nodes = Ok (tl, cl) /\
      compile_expression r parameter_types event_types contract cl = Ok (tr, cr) /\
      code = cr ++ [match op with And => N_And | _ => N_Or end]) as (tl & cl & tr & cr & El & Er & ->).
    { destruct op; [done..| |]; cbn [compile_expression] in Hc;
        apply result_bind_ok in Hc as ([tl cl] & El & Hc); (destruct (bool_decide (tl = _)); [|done]); cbn [negb] in Hc;
        apply result_bind_ok in Hc as ([tr cr] & Er & Hc); (destruct (bool_decide (tr = _)); [|done]); injection Hc as _ <-;
        by exists tl, cl, tr, cr. }
    destruct (IHl _ _ _ Hl El) as (ml & a & -> & _ & Ma & Ra), (IHr _ _ _ Hr Er) as (mr & b & -> & _ & Mb & Rb).
    exists (ml ++ mr ++ [match op with And => N_And | _ => N_Or end]), (match op with And => a && b | _ => a || b end).
    split_and!; [by rewrite <- !app_assoc|by destruct ml, mr| |].
    + destruct op; [done..| |]; cbn [meaning]; rewrite Ma; cbn [mbind option_bind]; by rewrite Mb.
    + intros stack. rewrite predicate_run_app, Ra. cbn [mbind result_bind]. rewrite predicate_run_app, Rb. by destruct op.
Qed.
End correct.

(** What a resolved stream provides: the view of a selected event has its selected
    fields, and every declared parameter was supplied. *)
Definition view_of (event : ReactiveEventV1) (view : SymbolicEventView) : Prop :=
  map fst (vw_fields view) = map rf_name (rv_fields event).

Lemma view_provides event view name : view_of event view -> is_Some (selected_types event !! name) -> is_Some (event_field view name).
Proof.
  unfold view_of, event_field. intros Hv [ty Hty%collect_map_In].
  assert (name ∈ map fst (vw_fields view)) as Hin.
  { rewrite Hv. apply list_elem_of_fmap in Hty as (f & [= -> ->] & Hf). by apply list_elem_of_fmap_2. }
  clear Hv Hty. induction (vw_fields view) as [|[n v] l IH]; cbn [map fst] in Hin; [by apply not_elem_of_nil in Hin|].
  cbn [find fst]. case_bool_decide as E; [by eexists|]. apply IH. apply elem_of_cons in Hin as [->|]; [done|done].
Qed.

Lemma accepted_provides declared parameters name : parameters_accepted declared parameters = true ->
  is_Some (types declared !! name) -> is_Some (parameters !! name).
Proof.
  unfold parameters_accepted, types. intros [_ H]%negb_true_iff%orb_false_iff [ty Hty%collect_map_In].
  apply list_elem_of_fmap in Hty as (p & [= -> ->] & Hp).
  destruct (decide (is_Some (parameters !! rp_name p))) as [|Hn]; [done|]. exfalso.
  assert (existsb (fun p => negb (bool_decide (is_Some (parameters !! rp_name p)))) declared = true) as E; [|congruence].
  apply existsb_exists. exists p. split; [by apply list_elem_of_In|]. by rewrite bool_decide_eq_false_2.
Qed.

(** The predicate of a compiled stream evaluates on every view of its events. *)
Lemma stream_predicate_runs sha256 contract source op : enums_ok contract = true -> stream_ok source = true ->
  compile_stream sha256 contract source = Ok op ->
  exists parameters partition events code, co_plan op = P_Stream parameters partition events code /\
    forall supplied view event, parameters_accepted parameters supplied = true -> event ∈ events -> view_of event view ->
      exists b, predicate_matches supplied view code = Ok b /\
        match sm_predicate source with
        | Some e => meaning contract (types parameters) (common_all (map selected_types events)) supplied view e = Some b
        | None => b = true
        end.
Proof.
  intros Hc Hok H. apply stream_compiles in H as (parameters & partition & events & code & fields & _ & Ep & _ & _ & _ & Hsub & Hpred).
  exists parameters, partition, events, code. split; [done|]. intros supplied view event Hs He Hv.
  unfold stream_ok in Hok. rewrite !andb_true_iff in Hok. destruct Hok as [_ Hok].
  destruct (sm_predicate source) as [e|]; [|subst code; by exists true].
  unfold predicate_ok in Hok. rewrite !andb_true_iff in Hok. destruct Hok as [[Hok _] _].
  unfold predicate_nodes in Hpred. apply result_bind_ok in Hpred as ([ty c] & Hcomp & Hpred).
  destruct (negb _); [done|]. injection Hpred as ->.
  assert (forall name, is_Some (fields !! name) -> is_Some (event_field view name)) as Hfields.
  { intros name [ty' Hname]. apply (view_provides event); [done|]. exists ty'.
    apply (lookup_weaken _ _ _ _ Hname). etrans; [exact Hsub|]. apply common_all_sub. by apply list_elem_of_fmap_2. }
  destruct (expression_runs contract Hc (types parameters) fields _ Hsub supplied view
    (fun name => accepted_provides parameters supplied name Hs) Hfields e [] ty code Hok Hcomp) as (em & v & -> & Hne & Hm & Hr).
  exists v. split; [|done]. unfold predicate_matches. cbn [app]. rewrite bool_decide_eq_false_2 by done. by rewrite Hr.
Qed.

(** ** Types without an order *)

(** The values that [scalar_order] does not order among themselves. *)
Definition unordered (v : CanonicalValue) : bool :=
  match v with
  | VBool _ | VDecimal _ | VMoney _ | VBytes _ | VVector _ => true
  | _ => false
  end.

Definition is_ordering (op : BinaryOperator) : bool :=
  match op with Less | LessEqual | Greater | GreaterEqual => true | _ => false end.

(** C40. A comparison by order over a type that [scalar_order] does not cover
    compiles and never matches: the compiler accepts [<], [<=], [>] and [>=]
    between a field and a parameter of any one type, and on Boolean, decimal,
    money, bytes and vector values the evaluator answers [false] for all four,
    also for equal values. *)
Theorem unordered_comparison_never_matches (contract : ContractBundle) (parameter_types event_types : TypeMap)
    (field parameter ty : list byte) (operator : BinaryOperator) (s1 s2 s3 : Span) :
  event_types !! field = Some ty -> parameter_types !! parameter = Some ty -> is_ordering operator = true ->
  exists code,
    predicate_nodes contract (Binary (EOperand (EventField field s1)) operator (EOperand (ParameterRef parameter s2)) s3)
      parameter_types event_types = Ok code /\
    forall supplied view a b, event_field view field = Some a -> supplied !! parameter = Some b -> unordered a = true ->
      predicate_matches supplied view code = Ok false.
Proof.
  intros Hf Hp Hop. exists [N_EventField field ty; N_Parameter parameter ty; comparison_node operator]. split.
  - unfold predicate_nodes. destruct operator; [done|done|..|done|done];
      cbn [compile_expression predicate_operand known_operand_type]; rewrite Hf, Hp; cbn; by rewrite bool_decide_eq_true_2.
  - intros supplied view a b Ha Hb Hun. unfold predicate_matches. cbn [bool_decide]. rewrite bool_decide_eq_false_2 by done.
    cbn [predicate_run predicate_step]. rewrite Ha. cbn [ok_or mbind result_bind]. rewrite Hb. cbn [ok_or mbind result_bind].
    by destruct operator, a.
Qed.

Lemma unordered_comparison_never_matches_witness :
  let amount := VDecimal (mkDecimal (mkDecimalSpec 10 2) 1250) in
  exists code,
    predicate_nodes (mkContract [] 1 [] [] [] [] [])
      (Binary (EOperand (EventField (text "amount") no_span)) GreaterEqual (EOperand (ParameterRef (text "limit") no_span)) no_span)
      {[ text "limit" := text "decimal<10,2>" ]} {[ text "amount" := text "decimal<10,2>" ]} = Ok code /\
    predicate_matches {[ text "limit" := amount ]} (mkView [(text "amount", amount)]) code = Ok false.
Proof.
  intros amount.
  destruct (unordered_comparison_never_matches (mkContract [] 1 [] [] [] [] [])
    {[ text "limit" := text "decimal<10,2>" ]} {[ text "amount" := text "decimal<10,2>" ]}
    (text "amount") (text "limit") (text "decimal<10,2>") GreaterEqual no_span no_span no_span) as (code & Hc & Hm);
    [vm_compute; reflexivity..|].
  exists code. split; [exact Hc|]. apply (Hm _ _ amount amount); vm_compute; reflexivity.
Defined.
