(* ===== verification/ReactiveSemantics.v ===== *)
(** * Reactive predicates: what they say

    The meaning of a written predicate over one event, as a proposition and apart
    from the compiler and the evaluator: the orders of the values, what a literal
    denotes at a type, what an operand denotes, and when an expression holds.  The
    value that the evaluation of compiled code has ([ReactiveEvaluate]) is the
    truth of that proposition. *)

From S2P Require Import Prelude Value ValueType Evaluate Names Text Results Schema ReactivePlan ReactiveSyntax ReactiveCompile ReactiveEvaluate.
From Stdlib Require Import Strings.String Strings.Byte.
From stdpp Require Import gmap list.

Local Open Scope Z_scope.

(** ** The order of values *)
Inductive bytes_lt : list byte -> list byte -> Prop :=
  | bytes_lt_nil y b : bytes_lt [] (y :: b)
  | bytes_lt_head x y a b : byte_to_Z x < byte_to_Z y -> bytes_lt (x :: a) (y :: b)
  | bytes_lt_tail x a b : bytes_lt a b -> bytes_lt (x :: a) (x :: b).

Inductive value_lt : CanonicalValue -> CanonicalValue -> Prop :=
  | lt_i64 a b : a < b -> value_lt (VI64 a) (VI64 b)
  | lt_u64 a b : a < b -> value_lt (VU64 a) (VU64 b)
  | lt_string a b : bytes_lt a b -> value_lt (VString a) (VString b)
  | lt_seconds a b m n : a < b -> value_lt (VTimestamp (mkTimestamp a m)) (VTimestamp (mkTimestamp b n))
  | lt_nanoseconds a m n : m < n -> value_lt (VTimestamp (mkTimestamp a m)) (VTimestamp (mkTimestamp a n))
  | lt_date a b : a < b -> value_lt (VDate a) (VDate b)
  | lt_uuid a b : bytes_lt a b -> value_lt (VUuid a) (VUuid b)
  | lt_enum ty a b : a < b -> value_lt (VEnum ty a) (VEnum ty b).

(** The values that have an order. *)
Definition ordered (v : CanonicalValue) : Prop :=
  match v with
  | VI64 _ | VU64 _ | VString _ | VTimestamp _ | VDate _ | VUuid _ | VEnum _ _ => True
  | _ => False
  end.

Definition compares (operator : BinaryOperator) (a b : CanonicalValue) : Prop :=
  match operator with
  | Equal => a = b
  | NotEqual => a <> b
  | Less => value_lt a b
  | LessEqual => value_lt a b \/ (a = b /\ ordered a)
  | Greater => value_lt b a
  | GreaterEqual => value_lt b a \/ (a = b /\ ordered a)
  | And | Or => False
  end.

(** ** What literals and operands denote *)

Inductive literal_denotes (contract : ContractBundle) (ty : list byte) : Literal -> CanonicalValue -> Prop :=
  | denotes_i64 z : ty = text "i64" -> literal_denotes contract ty (LInteger z) (VI64 z)
  | denotes_u64 z : ty = text "u64" -> 0 <= z < 2 ^ 64 -> literal_denotes contract ty (LInteger z) (VU64 z)
  | denotes_bool b : ty = text "bool" -> literal_denotes contract ty (LBoolean b) (VBool b)
  | denotes_string s rest : ty = text "string<" ++ rest -> zlen s <= MAX_STRING_BYTES ->
      literal_denotes contract ty (LString s) (VString s)
  | denotes_variant enumeration_name variant_name enumeration ty_enumeration variant :
      "."%byte ∉ enumeration_name ->
      first_with (fun e => en_name e = enumeration_name) (cb_enums contract) enumeration ->
      first_with (fun e => en_id e = en_id enumeration) (cb_enums contract) ty_enumeration ->
      en_name ty_enumeration = ty ->
      first_with (fun v => vr_name v = variant_name) (en_variants enumeration) variant ->
      literal_denotes contract ty (LSymbol (enumeration_name ++ "."%byte :: variant_name))
        (VEnum (en_id enumeration) (vr_id variant)).

Section holds.
Context (contract : ContractBundle) (parameter_types event_types : TypeMap) (parameters : Parameters) (event : SymbolicEventView).

(** The declared type of a field or parameter; a literal has none. *)
Inductive declared : Operand -> list byte -> Prop :=
  | declared_field name s ty : event_types !! name = Some ty -> declared (EventField name s) ty
  | declared_parameter name s ty : parameter_types !! name = Some ty -> declared (ParameterRef name s) ty.

(** Two operands are compared at the type of the left one or, if it has none, of
    the right one. *)
Definition compared_at (lhs rhs : Operand) (ty : list byte) : Prop :=
  declared lhs ty \/ ((forall t, ~ declared lhs t) /\ declared rhs ty).

Inductive denotes (ty : list byte) : Operand -> CanonicalValue -> Prop :=
  | denotes_field name s v : first_with (fun f => fst f = name) (vw_fields event) (name, v) -> denotes ty (EventField name s) v
  | denotes_parameter name s v : parameters !! name = Some v -> denotes ty (ParameterRef name s) v
  | denotes_literal l s v : literal_denotes contract ty l v -> denotes ty (OLiteral l s) v.

Fixpoint holds (e : Expression) : Prop :=
  match e with
  | EOperand _ => False
  | Binary lhs operator rhs _ =>
      match operator with
      | And => holds lhs /\ holds rhs
      | Or => holds lhs \/ holds rhs
      | _ =>
          match lhs, rhs with
          | EOperand lhs, EOperand rhs =>
              exists ty x y, compared_at lhs rhs ty /\ denotes ty lhs x /\ denotes ty rhs y /\ compares operator x y
          | _, _ => False
          end
      end
  end.
End holds.

(** ** The evaluator compares by that order *)
Lemma lex_bytes_lt a b : Prelude.lex a b = Lt <-> bytes_lt a b.
Proof.
  split.
  - revert b. induction a as [|x a IH]; intros [|y b]; cbn [Prelude.lex]; try done; [constructor|].
    destruct (Z.compare_spec (byte_to_Z x) (byte_to_Z y)) as [E|E|E]; intros H; [|by constructor|done].
    apply byte_to_Z_inj in E as ->. by apply bytes_lt_tail, IH.
  - induction 1 as [| |]; cbn [Prelude.lex]; [done| |by rewrite Z.compare_refl].
    by rewrite (proj2 (Z.compare_lt_iff _ _)).
Qed.

Lemma lex_bytes_gt a b : Prelude.lex a b = Gt <-> bytes_lt b a.
Proof. rewrite <- lex_bytes_lt, (Prelude.lex_antisym a b). by destruct (Prelude.lex a b). Qed.

(** What each answer of a comparison says. *)
Definition order_says (a b : CanonicalValue) (o : option Datatypes.comparison) : Prop :=
  match o with
  | Some Lt => value_lt a b
  | Some Eq => a = b /\ ordered a
  | Some Gt => value_lt b a
  | None => True
  end.

Lemma scalar_order_says a b : order_says a b (scalar_order a b).
Proof.
  destruct a as [| | | | | |s| |[t m]| |u|ty n| | |], b as [| | | | | |s'| |[t' m']| |u'|ty' n'| | |]; try done;
    cbn [scalar_order].
  - destruct (Z.compare_spec z z0); cbn; [by subst|by constructor..].
  - destruct (Z.compare_spec z z0); cbn; [by subst|by constructor..].
  - destruct (Prelude.lex s s') eqn:E; cbn; [apply lex_eq in E as ->; done|..];
      constructor; [by apply lex_bytes_lt|by apply lex_bytes_gt].
  - unfold timestamp_cmp. cbn. destruct (Z.compare_spec t t') as [->| |]; cbn; [|by constructor..].
    destruct (Z.compare_spec m m') as [->| |]; cbn; [done|by constructor..].
  - destruct (Z.compare_spec days days0); cbn; [by subst|by constructor..].
  - destruct (Prelude.lex u u') eqn:E; cbn; [apply lex_eq in E as ->; done|..];
      constructor; [by apply lex_bytes_lt|by apply lex_bytes_gt].
  - destruct (Z.eqb_spec ty ty') as [->|]; cbn; [|done].
    destruct (Z.compare_spec n n') as [->| |]; cbn; [done|by constructor..].
Qed.

Lemma scalar_order_lt a b : value_lt a b -> scalar_order a b = Some Lt /\ scalar_order b a = Some Gt.
Proof.
  assert (forall a b, a < b -> (a ?= b) = Lt /\ (b ?= a) = Gt) as Hz
    by (intros x y H; split; [by apply Z.compare_lt_iff|by apply Z.compare_gt_iff]).
  assert (forall a b, bytes_lt a b -> Prelude.lex a b = Lt /\ Prelude.lex b a = Gt) as Hb
    by (intros x y H; split; [by apply lex_bytes_lt|by apply lex_bytes_gt]).
  destruct 1 as [? ? [E F]%Hz|? ? [E F]%Hz|? ? [E F]%Hb|? ? ? ? [E F]%Hz|? ? ? [E F]%Hz|? ? [E F]%Hz|? ? [E F]%Hb|? ? ? [E F]%Hz];
    cbn [scalar_order]; unfold timestamp_cmp; cbn [ts_seconds ts_nanoseconds];
    rewrite ?Z.eqb_refl, ?Z.compare_refl, ?E, ?F; done.
Qed.

Lemma scalar_order_eq a : ordered a -> scalar_order a a = Some Eq.
Proof.
  destruct a as [| | | | | | | |[t m]| | | | | |]; try done; cbn [scalar_order]; intros _;
    unfold timestamp_cmp; cbn; by rewrite ?Z.eqb_refl, ?Z.compare_refl, ?lex_refl.
Qed.

Lemma compare_values_spec operator a b : is_comparison operator = true ->
  compare_values (comparison_node operator) a b = true <-> compares operator a b.
Proof.
  intros Hop. pose proof (scalar_order_says a b) as Hs.
  destruct operator; try done; cbn [comparison_node compare_values compares].
  - apply value_eqb_eq.
  - rewrite <- value_eqb_eq. by destruct (value_eqb a b).
  - split; [by destruct (scalar_order a b) as [[]|]|]. by intros [-> _]%scalar_order_lt.
  - split; [destruct (scalar_order a b) as [[]|]; cbn in Hs; naive_solver|].
    intros [[-> _]%scalar_order_lt|[-> ->%scalar_order_eq]]; done.
  - split; [by destruct (scalar_order a b) as [[]|]|]. by intros [_ ->]%scalar_order_lt.
  - split; [destruct (scalar_order a b) as [[]|]; cbn in Hs; naive_solver|].
    intros [[_ ->]%scalar_order_lt|[-> ->%scalar_order_eq]]; done.
Qed.

(** ** Literals and operands *)
Lemma named_first {A} (name : A -> list byte) n l x : named name n l = Some x <-> first_with (fun y => name y = n) l x.
Proof. apply find_first. intros y. apply bool_decide_eq_true. Qed.

Lemma split_once_spec l a r : split_once l = Some (a, r) <-> l = a ++ "."%byte :: r /\ "."%byte ∉ a.
Proof.
  split.
  - revert a. induction l as [|b l IH]; intros a; cbn [split_once]; [done|]. case_bool_decide as E.
    + intros [= <- ->]. subst b. split; [done|]. apply not_elem_of_nil.
    + destruct (split_once l) as [[a' r']|]; [|done]. intros [= <- ->].
      destruct (IH a' eq_refl) as [-> Ha]. split; [done|]. apply not_elem_of_cons. auto.
  - intros [-> Ha]. induction a as [|b a IH]; cbn [app split_once]; [by rewrite bool_decide_eq_true_2|].
    apply not_elem_of_cons in Ha as [Hb Ha]. rewrite bool_decide_eq_false_2 by auto. by rewrite IH.
Qed.

Lemma starts_with_spec p l : starts_with p l = true <-> exists rest, l = p ++ rest.
Proof.
  unfold starts_with. rewrite bool_decide_eq_true. split.
  - intros E. exists (drop (length p) l). by rewrite <- E at 1; rewrite take_drop.
  - intros [rest ->]. by rewrite take_app_length.
Qed.

Lemma enum_type_name contract id ty : type_name (T_Enum id) contract = Some ty <->
  exists e, first_with (fun e => en_id e = id) (cb_enums contract) e /\ en_name e = ty.
Proof.
  cbn [type_name]. rewrite fmap_Some.
  assert (forall e, find (fun e => en_id e =? id) (cb_enums contract) = Some e <->
    first_with (fun e => en_id e = id) (cb_enums contract) e) as Hf
    by (intros e; apply find_first; intros y; apply Z.eqb_eq).
  setoid_rewrite Hf. naive_solver.
Qed.

Lemma literal_value_denotes contract l ty v : literal_value l ty contract = Some v <-> literal_denotes contract ty l v.
Proof.
  split.
  - destruct l as [z|b|s|w]; cbn [literal_value].
    + case_bool_decide; [intros [= <-]; by constructor|]. case_bool_decide; [|done].
      intros (z' & [-> Hz]%u_checked_Some & ->)%fmap_Some. constructor; [done|]. exact Hz.
    + case_bool_decide; [|done]. intros [= <-]. by constructor.
    + destruct (starts_with _ _) eqn:E; [|done]. apply starts_with_spec in E as [rest ->]. unfold canonical_string_new.
      destruct (Z.ltb_spec MAX_STRING_BYTES (zlen s)); [done|]. intros [= <-]. by eapply denotes_string.
    + intros ([n1 n2] & [-> Hn]%split_once_spec & (e & He%named_first & (n & Hty & Hv)%bind_Some)%bind_Some)%bind_Some.
      case_bool_decide as En; cbn [negb] in Hv; [|done]. subst n. apply bind_Some in Hv as (r & Hr%named_first & [= <-]).
      apply enum_type_name in Hty as (d & Hd & Hdn). by eapply denotes_variant.
  - destruct 1 as [z ->|z -> Hz|b ->|s rest -> Hs|n1 n2 e d r Hn He Hd Hty Hr]; cbn [literal_value].
    + by rewrite bool_decide_eq_true_2.
    + rewrite bool_decide_eq_false_2, bool_decide_eq_true_2 by done. by rewrite (proj2 (u_checked_Some 64 z z)).
    + by rewrite bool_decide_eq_true_2.
    + rewrite (proj2 (starts_with_spec _ _)) by eauto. unfold canonical_string_new.
      by rewrite (proj2 (Z.ltb_ge _ _)).
    + rewrite (proj2 (split_once_spec _ n1 n2)) by done. cbn [mbind option_bind].
      rewrite (proj2 (named_first _ _ _ _) He). cbn [mbind option_bind].
      rewrite (proj2 (enum_type_name _ _ ty)) by eauto. cbn [mbind option_bind].
      rewrite bool_decide_eq_true_2 by done. cbn [negb]. by rewrite (proj2 (named_first _ _ _ _) Hr).
Qed.

Section exact.
Context (contract : ContractBundle) (parameter_types event_types : TypeMap) (parameters : Parameters) (event : SymbolicEventView).

Lemma operand_value_denotes ty o v :
  operand_value contract parameters event ty o = Some v <-> denotes contract parameters event ty o v.
Proof.
  destruct o as [f s|p s|l s]; cbn [operand_value].
  - unfold event_field. rewrite fmap_Some. split.
    + intros ([n v'] & Hf & ->). cbn. apply (find_first _ (fun f' => fst f' = f)) in Hf; [|intros y; apply bool_decide_eq_true].
      assert (n = f) as -> by (by destruct Hf as (? & ? & _ & ? & _)). by constructor.
    + inversion 1; subst. exists (f, v). split; [|done]. apply (find_first _ (fun f' => fst f' = f)); [|done].
      intros y. apply bool_decide_eq_true.
  - split; [by constructor|by inversion 1].
  - rewrite literal_value_denotes. split; [by constructor|by inversion 1].
Qed.

Lemma known_declared o ty : known_operand_type o parameter_types event_types = Some ty <-> declared parameter_types event_types o ty.
Proof. destruct o as [f s|p s|l s]; cbn; (split; [try by constructor|by inversion 1]). done. Qed.

Lemma comparison_type_compared lhs rhs ty :
  comparison_type parameter_types event_types lhs rhs = Some ty <-> compared_at parameter_types event_types lhs rhs ty.
Proof.
  unfold comparison_type, compared_at. rewrite <- !known_declared. setoid_rewrite <- known_declared.
  destruct (known_operand_type lhs parameter_types event_types) as [t|]; [|naive_solver].
  split; [naive_solver|]. intros [|[Hn _]]; [done|]. by destruct (Hn t).
Qed.

(** The computed value of an expression is its truth. *)
Lemma meaning_holds e v : meaning contract parameter_types event_types parameters event e = Some v ->
  v = true <-> holds contract parameter_types event_types parameters event e.
Proof.
  revert v. induction e as [o|l IHl op r IHr s]; intros v; [done|].
  destruct (is_comparison op) eqn:Hop.
  - intros Hm. assert (exists lhs rhs ty a b, l = EOperand lhs /\ r = EOperand rhs /\
      comparison_type parameter_types event_types lhs rhs = Some ty /\
      operand_value contract parameters event ty lhs = Some a /\ operand_value contract parameters event ty rhs = Some b /\
      v = compare_values (comparison_node op) a b) as (lhs & rhs & ty & a & b & -> & -> & Ht & Ha & Hb & ->).
    { destruct op; try done; cbn [meaning] in Hm; (destruct l as [lhs|]; [|done]); (destruct r as [rhs|]; [|done]);
        apply bind_Some in Hm as (ty & Ht & (a & Ha & (b & Hb & [= <-])%bind_Some)%bind_Some);
        exists lhs, rhs, ty, a, b; done. }
    rewrite compare_values_spec by done.
    assert (holds contract parameter_types event_types parameters event (Binary (EOperand lhs) op (EOperand rhs) s) <->
      exists ty x y, compared_at parameter_types event_types lhs rhs ty /\ denotes contract parameters event ty lhs x /\
        denotes contract parameters event ty rhs y /\ compares op x y) as -> by (by destruct op).
    setoid_rewrite <- comparison_type_compared. setoid_rewrite <- operand_value_denotes. naive_solver.
  - destruct op; try done; cbn [meaning holds]; intros (a & Ha & (b & Hb & [= <-])%bind_Some)%bind_Some;
      rewrite <- (IHl a Ha), <- (IHr b Hb); [apply andb_true_iff|apply orb_true_iff].
Qed.
End exact.
