(* ===== verification/ReactiveModules.v ===== *)
(** * Reactive modules, from source to evaluation

    The composition of the parser, the compiler, the plan encoding and the
    predicate evaluator: what holds of a module that was read from source,
    compiled against a contract and a catalogue of queries, and is evaluated on
    the events of its streams. *)

From S2P Require Import Prelude Decimal Value ValueType Framing Hash Names Text Results Schema ReactiveParser ReactiveSound ReactiveSyntax Reactive ReactivePlan ReactiveCompile ReactiveGuarantees ReactiveEvaluate ReactiveSemantics.
From Stdlib Require Import Strings.String Strings.Byte.
From stdpp Require Import gmap list.

Local Open Scope Z_scope.

(** ** Inputs *)

(** The ranges of the contract's and the catalogue's typed fields. *)
Definition digestb (l : list byte) : bool := bool_decide (length l = 32%nat).

Definition contract_typed (c : ContractBundle) : bool :=
  u_inb 64 (cb_contract_version c) && digestb (cb_bundle_hash c) && enums_ok c &&
  forallb (fun e => u_inb 32 (ev_id e) && forallb (fun f => u_inb 32 (fd_id f)) (ev_payload e)) (cb_events c) &&
  forallb (fun k => u_inb 32 (cm_id k)) (cb_commands c).

Definition catalog_typed (l : list ReactiveQueryCatalogEntry) : bool :=
  forallb (fun e => digestb (qe_module_hash e) && digestb (qe_plan_hash e) &&
    forallb (u_inb 64) [qc_access_steps (qe_cost e); qc_scanned_index_rows (qe_cost e); qc_point_reads (qe_cost e);
       qc_dependent_keys (qe_cost e); qc_intermediate_rows (qe_cost e); qc_projected_values (qe_cost e);
       qc_encoded_result_bytes (qe_cost e)]) l.

(** ** Identities *)
Section identity.
Context (sha256 : list byte -> list byte).
(** SHA-256 gives 32 bytes. *)
Hypothesis sha256_length : forall m, length (sha256 m) = 32%nat.

Lemma typed_hash_digest d p : digest (typed_hash sha256 d p).
Proof. apply sha256_length. Qed.

Section one.
Context (contract : ContractBundle) (query_catalog : list ReactiveQueryCatalogEntry).
Hypothesis contract_ok : contract_typed contract = true.
Hypothesis catalog_ok : catalog_typed query_catalog = true.

Lemma query_exact_wf entry q : query_exact query_catalog entry q -> query_wf q.
Proof.
  intros (Hin & _ & Hm & Hp & Hc). unfold query_wf, cost_wf. rewrite Hm, Hp, Hc.
  apply (forallb_In _ _ _ catalog_ok) in Hin. cbn [forallb] in Hin. rewrite !andb_true_iff, !u_inb_spec in Hin.
  destruct Hin as [[H1%bool_decide_eq_true H2%bool_decide_eq_true] H3]. split_and!; [done|done|]. rewrite !Forall_cons, Forall_nil. tauto.
Qed.

Lemma event_guaranteed_wf signature e : event_guaranteed contract signature e -> event_wf e.
Proof.
  intros (schema & ids & Hn & Hid & _ & _ & Hf). apply named_In in Hn as [Hin _].
  pose proof contract_ok as Hc. unfold contract_typed in Hc. rewrite !andb_true_iff in Hc. destruct Hc as [[_ Hev] _].
  apply (forallb_In _ _ _ Hev) in Hin. apply andb_true_iff in Hin as [H1 H2]. split; [rewrite Hid; by apply u_inb_spec|].
  eapply Forall_impl; [exact Hf|]. intros f (field & [Hfield _]%named_In & Hfid & _). unfold field_wf. rewrite Hfid.
  apply u_inb_spec. exact (forallb_In _ _ _ H2 Hfield).
Qed.

Lemma guaranteed_wf operations op : Forall (fun o => digest (co_identity o)) operations ->
  operation_guaranteed contract query_catalog operations op -> plan_wf (co_plan op).
Proof.
  intros Hd. unfold operation_guaranteed. destruct (co_plan op); cbn [plan_wf].
  - intros [_ He _ _]. eapply Forall_impl; [exact He|]. intros e. apply event_guaranteed_wf.
  - intros (entry & Hq & _). by eapply query_exact_wf.
  - intros [(st & p & q & e & r & Hin & _ & _ & <- & _) Hh _ _ _ Hr _ Hb Hi Hl]. split_and!.
    + rewrite Forall_forall in Hd. by apply Hd.
    + eapply Forall_impl; [exact Hh|]. intros h (entry & Hq & _). by eapply query_exact_wf.
    + eapply Forall_impl; [exact Hr|]. intros c (command & Hin' & _ & _ & Hid). unfold reaction_wf. rewrite Hid.
      pose proof contract_ok as Hc. unfold contract_typed in Hc. rewrite !andb_true_iff in Hc. destruct Hc as [_ Hc].
      apply u_inb_spec. exact (forallb_In _ _ _ Hc Hin').
    + unfold limits_wf, u_range. lia.
Qed.

(** A compiled module is one that the constructors make. *)
Lemma compiled_made m plan : module_ok m = true -> compile_reactive_module sha256 contract query_catalog m = Ok plan ->
  module_made sha256 plan /\ mp_source_hash plan = hash_reactive_source sha256 (format_module m).
Proof.
  intros Hok Hc. destruct (module_compiles _ _ _ _ _ Hc) as (streams & watches & subs & Hfrom).
  pose proof (compiled_guaranteed _ _ _ _ _ _ _ _ Hok Hfrom) as Hg.
  pose proof (compiled_checked _ _ _ _ _ _ _ _ Hok Hfrom) as Hch.
  pose proof (cf_plan _ _ _ _ _ _ _ _ Hfrom) as Hp. split; [|by apply plan_operations in Hp as [_ ->]].
  pose proof contract_ok as Ht. unfold contract_typed in Ht. rewrite !andb_true_iff in Ht. destruct Ht as [[[[H1 H2] _] _] _].
  eapply (module_plan_made sha256); [exact Hp|..].
  - unfold module_ok in Hok. rewrite !andb_true_iff in Hok. unfold u_range. lia.
  - by apply u_inb_spec.
  - by apply bool_decide_eq_true in H2.
  - apply typed_hash_digest.
  - apply Forall_forall. intros op Hop. rewrite Forall_forall in Hg, Hch. split; [|by apply Hch].
    eapply guaranteed_wf, Hg, Hop. apply Forall_forall. intros s Hs.
    specialize (Hch s (proj2 (elem_of_app _ _ _) (or_introl Hs))). unfold compiled_operation_checked in Hch.
    apply bind_Some in Hch as (b & _ & [= <-]). apply typed_hash_digest.
Qed.
End one.
End identity.

(** ** A ticket desk *)
Definition desk_source : list byte := text "
reactive Desk version 1 {
  stream Activity($organization: Ticket.organization, $floor: Ticket.priority, $budget: Ticket.cost) {
    partition (organization = $organization);
    event Created select (ticket, title, priority, status);
    event Reprioritized select (ticket, priority, status);
    where event.priority >= $floor && (event.status == Status.Open || event.priority != 3);
  }
  watch Tickets($organization: Ticket.organization) query TicketPage updates patch;
  subscription Triage($organization: Ticket.organization, $budget: Ticket.cost) {
    stream Activity(organization = $organization, floor = 2, budget = $budget);
    hydrate page query TicketPage(organization = $organization);
    reaction assign command Assign;
    limits { batch 4; in_flight 4; lease_seconds 60; }
  }
}
".

Definition desk_fields : list FieldSchema :=
  [mkFieldSchema 1 (text "organization") T_Uuid; mkFieldSchema 2 (text "ticket") T_U64;
   mkFieldSchema 3 (text "title") (T_String 80); mkFieldSchema 4 (text "priority") T_I64;
   mkFieldSchema 5 (text "status") (T_Enum 1); mkFieldSchema 6 (text "cost") (T_Decimal (mkDecimalSpec 10 2))].

Definition zero_digest : list byte := replicate 32 x00.

Definition desk_contract : ContractBundle :=
  mkContract (text "desk") 1 zero_digest [mkEntity 1 (text "Ticket") desk_fields [1; 2] []]
    [mkEventSchema 1 (text "Created") desk_fields (Some [1]); mkEventSchema 2 (text "Reprioritized") desk_fields (Some [1])]
    [mkEnum 1 (text "Status") [mkEnumVariant 1 (text "Open"); mkEnumVariant 2 (text "Closed")]]
    [mkCommand 1 (text "Assign") (Some 1)].

Definition desk_catalog : list ReactiveQueryCatalogEntry :=
  [mkCatalogEntry zero_digest (text "TicketPage") zero_digest [(text "organization", text "uuid")]
     (mkCost 1 50 0 0 50 100 65536) [text "ticket"]].

(** A function to 32 bytes. *)
Definition pad32 (m : list byte) : list byte := take 32 (drop 60 m ++ zero_digest).

Lemma pad32_length m : length (pad32 m) = 32%nat.
Proof. unfold pad32, zero_digest. rewrite length_take, length_app, length_replicate. lia. Qed.

Definition read (source : list byte) : ReactiveModule :=
  match parse_module source with Accepted m => m | _ => mkModule [] 0 [] [] [] no_span end.

Definition desk_module : ReactiveModule := read desk_source.
Definition desk_reread : ReactiveModule := read (format_module desk_module).

Definition desk_plan : ReactiveModulePlanV1 :=
  match compile_reactive_module pad32 desk_contract desk_catalog desk_module with
  | Ok plan => plan
  | Err _ => mkModulePlan [] 0 [] 0 [] [] [] [] []
  end.

Definition desk_stream : Stream :=
  match md_streams desk_module with s :: _ => s | [] => mkStream [] [] [] [] None no_span end.
Definition desk_supplied : Parameters :=
  <[ text "organization" := VUuid (replicate 16 x07) ]> (<[ text "floor" := VI64 2 ]>
    {[ text "budget" := VDecimal (mkDecimal (mkDecimalSpec 10 2) 1250) ]}).
Definition desk_view : SymbolicEventView :=
  mkView [(text "priority", VI64 5); (text "status", VEnum 1 2); (text "ticket", VU64 9)].

(** A parsed module is well formed. *)
Lemma parsed_ok source m : utf8_valid source = true -> parse_module source = Accepted m -> module_ok m = true.
Proof. intros Hu E. pose proof (parse_module_sound source Hu) as H. rewrite E in H. apply H. Qed.

Lemma Forall2_In_l {A B} (R : A -> B -> Prop) l k x : Forall2 R l k -> x ∈ l -> exists y, y ∈ k /\ R x y.
Proof.
  induction 1 as [|a b l k HR _ IH]; [by intros ?%not_elem_of_nil|].
  intros [->|(y & Hy & HR')%IH]%elem_of_cons; [exists b; split; [left|done]|exists y; split; [by right|done]].
Qed.

Lemma within_limits_range m : within_limits m = true -> u_range 64 (zlen (format_module m)).
Proof. unfold within_limits, u_range. pose proof (zlen_nonneg (format_module m)). lia. Qed.

(** ** Properties *)

(** C18. Static guarantees: every operation of a module that was parsed and
    compiled has them.  The plan has exactly the operations that the source
    names.  A stream selects events of the contract that all have the partition
    it binds completely to parameters of those types, and its predicate names
    only selected fields of every event and declared parameters, at their types.
    A watch has the parameters of one query of the catalogue, and patches only by
    a nonempty key.  A subscription binds a stream of this module by its identity
    with all its arguments, hydrates from at most 16 catalogued queries with at
    most 500 rows and 4 MiB together, reacts with at most 32 idempotent commands of
    the contract, and keeps the delivery limits. *)
Theorem reactive_static_guarantees (sha256 : list byte -> list byte) (contract : ContractBundle)
    (query_catalog : list ReactiveQueryCatalogEntry) (source : list byte) (m : ReactiveModule) (plan : ReactiveModulePlanV1) :
  utf8_valid source = true -> parse_module source = Accepted m ->
  compile_reactive_module sha256 contract query_catalog m = Ok plan ->
  map co_name (mp_operations plan) ≡ₚ operation_names m /\
  Forall (operation_guaranteed contract query_catalog (mp_operations plan)) (mp_operations plan).
Proof.
  intros Hu Hp Hc. pose proof (parsed_ok _ _ Hu Hp) as Hok.
  destruct (module_compiles _ _ _ _ _ Hc) as (streams & watches & subs & Hfrom).
  destruct (plan_operations _ _ _ _ _ _ _ _ _ (cf_plan _ _ _ _ _ _ _ _ Hfrom)) as [Hops _]. split.
  - rewrite Hops. by rewrite (compiled_names _ _ _ _ _ _ _ _ Hok Hfrom).
  - rewrite Hops at 2. eapply Forall_impl; [exact (compiled_guaranteed _ _ _ _ _ _ _ _ Hok Hfrom)|].
    intros op. apply guaranteed_mono. intros x Hx. rewrite Hops. apply elem_of_app. by left.
Qed.

Lemma reactive_static_guarantees_witness :
  map co_name (mp_operations desk_plan) ≡ₚ operation_names desk_module /\
  Forall (operation_guaranteed desk_contract desk_catalog (mp_operations desk_plan)) (mp_operations desk_plan).
Proof.
  apply (reactive_static_guarantees pad32 desk_contract desk_catalog desk_source); vm_compute; reflexivity.
Defined.

(** C13. A compiled predicate means what was written, on every event of its
    stream: for a stream of a parsed and compiled module, the operation found
    under the stream's name evaluates, on every view of one of its selected events
    and every accepted set of parameters, without an error, to [true] exactly when
    the written expression holds there (always where none is written).  [holds]
    reads the expression: conjunction, disjunction, equality and the order of the
    values its fields, parameters and literals denote. *)
Theorem stream_predicate_exact (sha256 : list byte -> list byte) (contract : ContractBundle)
    (query_catalog : list ReactiveQueryCatalogEntry) (source : list byte) (m : ReactiveModule) (plan : ReactiveModulePlanV1)
    (stream : Stream) :
  enums_ok contract = true -> utf8_valid source = true -> parse_module source = Accepted m ->
  compile_reactive_module sha256 contract query_catalog m = Ok plan -> stream ∈ md_streams m ->
  exists operation parameters partition events code,
    module_operation plan (sm_name stream) = Some operation /\
    co_plan operation = P_Stream parameters partition events code /\
    forall supplied view event, parameters_accepted parameters supplied = true -> event ∈ events -> view_of event view ->
      exists b, predicate_matches supplied view code = Ok b /\
        match sm_predicate stream with
        | Some e => b = true <-> holds contract (types parameters) (common_all (map selected_types events)) supplied view e
        | None => b = true
        end.
Proof.
  intros He Hu Hp Hc Hin. pose proof (parsed_ok _ _ Hu Hp) as Hok.
  destruct (module_compiles _ _ _ _ _ Hc) as (streams & watches & subs & Hfrom).
  destruct (plan_operations _ _ _ _ _ _ _ _ _ (cf_plan _ _ _ _ _ _ _ _ Hfrom)) as [Hops _].
  pose proof (compiled_names _ _ _ _ _ _ _ _ Hok Hfrom) as Hnames. destruct Hfrom as [Hs _ _ _].
  destruct (Forall2_In_l _ _ _ _ Hs Hin) as (op & Hop & Hcomp).
  unfold module_ok in Hok. rewrite !andb_true_iff in Hok. destruct Hok as [[[[[_ Hstreams] _] _] Hd] _].
  destruct (stream_predicate_runs _ _ _ _ He (forallb_In _ _ _ Hstreams Hin) Hcomp) as (ps & part & evs & code & Eplan & Hrun).
  exists op, ps, part, evs, code. split; [|split; [done|]].
  2:{ intros supplied view event Hsup Hev Hview. destruct (Hrun supplied view event Hsup Hev Hview) as (b & Hb & Hm).
      exists b. split; [done|]. destruct (sm_predicate stream); [by apply meaning_holds|done]. }
  apply stream_compiles in Hcomp as (? & ? & ? & ? & ? & <- & _). unfold module_operation. apply find_unique.
  - rewrite Hops, Hnames. by apply bool_decide_eq_true in Hd.
  - rewrite Hops. apply elem_of_app. by left.
Qed.

Lemma stream_predicate_exact_witness :
  md_streams desk_module = [desk_stream] /\
  match co_plan <$> module_operation desk_plan (sm_name desk_stream) with
  | Some (P_Stream parameters _ events code) =>
      parameters_accepted parameters desk_supplied = true /\ Exists (fun event => view_of event desk_view) events /\
      predicate_matches desk_supplied desk_view code = Ok true
  | _ => False
  end /\
  exists operation parameters partition events code,
    module_operation desk_plan (sm_name desk_stream) = Some operation /\
    co_plan operation = P_Stream parameters partition events code /\
    forall supplied view event, parameters_accepted parameters supplied = true -> event ∈ events -> view_of event view ->
      exists b, predicate_matches supplied view code = Ok b /\
        match sm_predicate desk_stream with
        | Some e => b = true <-> holds desk_contract (types parameters) (common_all (map selected_types events)) supplied view e
        | None => b = true
        end.
Proof.
  assert (md_streams desk_module = [desk_stream]) as E by (vm_compute; reflexivity).
  split; [exact E|]. split.
  - vm_compute. split; [reflexivity|]. split; [|reflexivity]. apply Exists_cons_tl, Exists_cons_hd. reflexivity.
  - apply (stream_predicate_exact pad32 desk_contract desk_catalog desk_source desk_module desk_plan);
      [vm_compute; reflexivity..|]. rewrite E. left.
Defined.

(** The compiler reads the canonical source only: two accepted sources with the
    same canonical source give the same plan, or are refused with the same code. *)
Theorem compile_canonical (sha256 : list byte -> list byte) (contract : ContractBundle)
    (query_catalog : list ReactiveQueryCatalogEntry) (source1 source2 : list byte) (m1 m2 : ReactiveModule) :
  utf8_valid source1 = true -> utf8_valid source2 = true ->
  parse_module source1 = Accepted m1 -> parse_module source2 = Accepted m2 ->
  within_limits m1 = true -> within_limits m2 = true -> format_module m1 = format_module m2 ->
  same_result (compile_reactive_module sha256 contract query_catalog m1)
    (compile_reactive_module sha256 contract query_catalog m2).
Proof.
  intros Hu1 Hu2 P1 P2 L1 L2 Hf.
  pose proof (format_injective _ _ (parsed_ok _ _ Hu1 P1) (parsed_ok _ _ Hu2 P2) L1 L2 Hf) as He.
  etrans; [apply compile_module_erase|]. rewrite He. symmetry. apply compile_module_erase.
Qed.

Lemma compile_canonical_witness :
  desk_module <> desk_reread /\
  same_result (compile_reactive_module pad32 desk_contract desk_catalog desk_module)
    (compile_reactive_module pad32 desk_contract desk_catalog desk_reread).
Proof.
  split; [vm_compute; discriminate|].
  apply (compile_canonical _ _ _ desk_source (format_module desk_module)); vm_compute; reflexivity.
Defined.

(** C19. The module identity commits to plan and source: if the identities of two
    modules that were parsed and compiled, against any contracts and catalogues,
    are equal, then the plans are equal and the sources are the same module up to
    spans, or two different inputs with the same SHA-256 value are at hand. *)
Theorem reactive_identity_commits (sha256 : list byte -> list byte) (c1 c2 : ContractBundle)
    (q1 q2 : list ReactiveQueryCatalogEntry) (source1 source2 : list byte) (m1 m2 : ReactiveModule) (p1 p2 : ReactiveModulePlanV1) :
  (forall m, length (sha256 m) = 32%nat) ->
  contract_typed c1 = true -> contract_typed c2 = true -> catalog_typed q1 = true -> catalog_typed q2 = true ->
  utf8_valid source1 = true -> utf8_valid source2 = true ->
  parse_module source1 = Accepted m1 -> parse_module source2 = Accepted m2 ->
  within_limits m1 = true -> within_limits m2 = true ->
  compile_reactive_module sha256 c1 q1 m1 = Ok p1 -> compile_reactive_module sha256 c2 q2 m2 = Ok p2 ->
  mp_identity p1 = mp_identity p2 ->
  (p1 = p2 /\ erase_module m1 = erase_module m2) \/ exists a b, collide sha256 a b.
Proof.
  intros Hsha C1 C2 Q1 Q2 U1 U2 P1 P2 L1 L2 E1 E2 Hid. apply parsed_ok in P1, P2; [|done..].
  destruct (compiled_made sha256 Hsha c1 q1 C1 Q1 m1 p1 P1 E1) as [M1 S1], (compiled_made sha256 Hsha c2 q2 C2 Q2 m2 p2 P2 E2) as [M2 S2].
  pose proof M1 as (_ & _ & _ & _ & _ & B1%encode_module_bounded & I1). pose proof M2 as (_ & _ & _ & _ & _ & B2%encode_module_bounded & I2).
  rewrite I1, I2 in Hid. apply hash_bytes_separated in Hid as [[_ Hb]|Hb]; [|by right; eauto|done|done].
  assert (p1 = p2) as -> by by apply (module_made_inj sha256). rewrite S1 in S2.
  apply hash_bytes_separated in S2 as [[_ Hf]|Hf]; [|by right; eauto|by apply within_limits_range..].
  left. split; [done|]. by apply format_injective.
Qed.

Lemma reactive_identity_commits_witness :
  (desk_plan = desk_plan /\ erase_module desk_module = erase_module desk_reread) \/ exists a b, collide pad32 a b.
Proof.
  apply (reactive_identity_commits pad32 desk_contract desk_contract desk_catalog desk_catalog desk_source
    (format_module desk_module) _ _ _ _ pad32_length); vm_compute; reflexivity.
Defined.
